(* ===== verification/_CoqProject ===== *)
-Q . S2P
Prelude.v
Atomics.v
RustStr.v
Http.v
Numeric.v
Policy.v
Redirect.v
Retry.v
IpAddr.v
Ssrf.v
Pipeline.v
Cookies.v
Metrics.v
OriginMetrics.v
Registry.v
TransportState.v
ProxyMetrics.v
ProxyConnect.v
Body.v
Streaming.v
Sync.v
Tasks.v
Upload.v
Telemetry.v
Connection.v
AsyncRequests.v
StreamState.v
ConnectionLimit.v
Errors.v
UploadBody.v
ResponseRead.v
RetryTrace.v
RequestState.v
RequestLoop.v
Acquire.v
PoolDiagnostics.v
Method.v
Assembly.v
Runtime.v
Hooks.v
Client.v
StreamResponse.v
PyResponse.v
