(* ===== verification/Prelude.v ===== *)
(** * Verification of the FogHTTP transport core

    FogHTTP is an HTTP client for Python whose transport is the Rust crate under
    [src/src].  A request passes a fixed chain of parts:

    - the gate ([py/client/acquire]) grants it a permit, globally and per origin, or
      queues it;
    - the policy pipeline ([core/policy]) decides before each attempt whether its
      destination may be contacted and by which route, and after each response or
      failure whether to retry or to redirect, with which method, headers and body;
    - the cookie jar ([core/policy/cookies.rs]) adds and stores cookies;
    - the response body is collected in memory and decoded under size limits and a
      client-wide byte budget ([core/response]), or decoded as a stream
      ([core/response/streaming]);
    - every part reports to lock-free counters ([core/metrics]), which diagnostics
      and a coherent snapshot read.

    Paths in the files are relative to the repository; [src/src] is the crate.

    ** Files

    Language and libraries:
    - [Prelude]: results and early return, record update, machine integers,
      durations, list lemmas.
    - [RustStr], [Numeric], [IpAddr]: the part of the standard library the client
      uses: byte strings and their UTF-8 characters, binary64 (the Standard
      Library's [SpecFloat]) and [Duration], IP addresses.
    - [Atomics]: compare-and-swap loops at the granularity of single loads and
      exchanges, proved to refine one indivisible step each
      ([system_refines_atomic]); methods as sequences of such steps ([action]), run
      alone ([exec]) or interleaved ([pool_step]).
    - [Sync]: tokio's [Semaphore] and [Notify] as an interface with laws; sums over
      the tasks of a system.
    - [Tasks]: tasks as lists of actions that interleave over a shared state, their
      ledgers, and the measure that ends every run; used by [Connection] and
      [AsyncRequests].
    - [Http]: the [url] and [http] crates as interfaces ([UrlCrate], [HttpCrate],
      [UrlLaws]); [core/url], [core/headers], [core/method.rs].

    Policies, functions from requests and responses to decisions:
    - [Policy] ([core/policy/{request,error,proxy}.rs]), [Redirect]
      ([core/policy/redirect]), [Retry] ([core/policy/retry.rs]), [Ssrf]
      ([core/policy/ssrf.rs]), composed by [Pipeline] ([core/policy/pipeline.rs]).
    - [Cookies] ([core/policy/cookies.rs]): the jar as explicit state; RFC 6265
      primitives are the interface [CookieCrates].

    The request:
    - [ConnectionLimit] ([core/client/connection_limit.rs]): the tasks that open
      connections, over tokio's semaphores and the heap of origin gates.
    - [Connection] ([core/client/telemetry/mod.rs], [core/client/write_timeout.rs]): the
      uses of a pooled connection, its idle and aborted states, its driver's polls and the
      write timeout, as interleaved steps.
    - [ProxyConnect] ([core/client/proxy], [core/client/ssrf.rs]): connections through a
      proxy, the CONNECT exchange over the reads of the transport, and the check of
      resolved addresses.
    - [AsyncRequests] ([py/client/async_requests], [py/client/future.rs]): requests started
      from asyncio, their registry, futures, cancellation and closing, as interleaved steps.
    - [Upload] ([core/client/body.rs]): the channel of a streamed request body, its
      producers and its transport as interleaved steps.
    - [UploadBody] ([py/client/upload_body.rs]): the object Python writes an upload to, with
      a channel for each attempt to send it; calls interleave over the steps of every channel.
    - [RetryTrace] ([py/retry.rs]): the attempts recorded for one request.
    - [RequestState] ([py/client/transport/request.rs], [py/client/auth.rs]): what a
      request keeps across its hops, how authentication and cookies change its headers.
    - [RequestLoop] ([py/client/transport/{buffered,streaming,retry}.rs]): the loop; an
      iteration is a function of the state and of what its environment does ([Hop]),
      and leaves the events others observe ([Event]).

    Responses:
    - [Body] ([core/response/{body,budget,decompression,error}.rs]): collection and
      decoding with the reservation of every byte threaded through; [responses_step]
      interleaves many responses on one budget.
    - [Streaming] ([core/response/streaming]): the decoder as a state machine, one
      codec call per step.
    - [Errors] ([errors.rs], [py/client/transport/errors.rs],
      [py/client/timeout_diagnostics.rs]): the exceptions, and errors with their sources.
    - [ResponseRead] ([py/client/transport/{body,response}.rs]): a response read to its end,
      drained or handed over as a stream, with what becomes of its connection.
    - [StreamState] ([py/client/streams/{state,coalescing,budget}.rs],
      [py/client/streams/state/decoded.rs], [py/client/lifecycle]): a streamed response
      shared by its reads and whoever closes it, as interleaved steps.
    - [StreamResponse] ([py/client/streams/{response,callback}.rs],
      [py/client/future.rs]): the object Python reads that response with: a [World] of
      calls, their tasks, the futures and callbacks of the event loop, and forks.
    - [PyResponse] ([py/response.rs]): a response with its history, as Python copies,
      releases and drops them.

    Telemetry:
    - [Telemetry] ([core/telemetry.rs], [py/telemetry.rs]): the events of a request, and
      the bounded journal of all events as a system of tasks.

    Pressure and metrics:
    - [Metrics], [OriginMetrics], [Registry], [TransportState], [ProxyMetrics]
      ([core/metrics]): each method of the code is an [action] on the record of its
      atomics; registries map names to shared objects in a heap.
    - [Acquire], [PoolDiagnostics] ([py/client/acquire]): requests as tasks that
      interleave on the gate ([system_step]).

    The client:
    - [Method]: methods of objects as functions of a state that may panic, fail or return;
      what they ensure, preserve and leave unchanged.
    - [Assembly] ([core/client/mod.rs], [core/tls], [py/client/transport/client.rs]): what
      a transport is built of, from a client's options.
    - [Runtime] ([py/client/runtime], [py/client/process.rs], [py/client/options.rs]): the
      shared and the dedicated runtimes with their handles, across forks; limits and
      timeouts from Python.
    - [Hooks] ([py/client/policy_hooks.rs], [py/client/auth.rs]): the callables a client
      accepts, what they see and what their answers do.
    - [Client] ([py/client/mod.rs]): the object itself, from its construction to its
      closing, over the methods that send; a [World] of clients, calls and forks.

    ** What the theorems show

    - The client as a whole: constructing one never panics and gives exactly the policies
      and transports its arguments ask for, each field from the argument of its name; its
      arguments then bound every request it is asked for; a fork leaves the parent's threads
      and the child's clients alone, and closing a client is what gives up its transport and
      its runtime, once ([Client], [Assembly], [Runtime]).
    - The request as a whole: whatever the servers, hooks and the transport do, its
      credentials stay with the origin they were given for, each request it sends was
      admitted by its policies, the loop ends within its limits, permits are balanced,
      and the trace of a retry policy has every attempt, with the wait after each that was
      retried ([RequestLoop]).
    - Uploads: what counts as complete was sent whole, in order, within the channel's
      bound; no producer and no transport sleeps while it has work ([Upload]); attempts to
      send one body stay apart, and calls on it return ([UploadBody]).
    - Safety of redirects: credentials never cross origins along a chain of
      redirects, bodies are dropped across origins and never replayed when they
      cannot be, https never becomes http, limits hold ([Redirect], [Pipeline]).
    - Destinations: a request that passes the pipeline under an SSRF policy goes to
      an allowed destination; the bit masks of the policy are exactly the address
      ranges they name, and the IPv6 forms of a blocked IPv4 address are blocked
      ([Ssrf], [Pipeline]).
    - Permits: limits hold in every interleaving, no permit and no wakeup is lost,
      grants are in order ([Acquire]); connections are bounded and acquiring them
      cannot deadlock ([ConnectionLimit]).
    - Proxies: the CONNECT request is one request, its verdict depends on the bytes of the
      answer alone as long as no head in it ends beyond the limit, where the reads decide; a
      tunnel passes every later byte on in order, and every path settles its tokens; names
      resolve to public addresses only ([ProxyConnect]).
    - Connections: an idle connection is one that can be used again; every use and poll
      comes to its end, an abort wakes the driver, the counters follow the state, and a
      write times out only after its timeout without progress ([Connection]).
    - Responses: a buffered response is exactly what was received, a failed one leaves no
      bytes reserved, the use of the connection and the body's lifecycle end exactly once on
      every path ([ResponseRead]); a failed exchange becomes the exception of the
      first kind of cause found in its chain, in a fixed order of kinds, and only network
      failures are retried ([Errors]).
    - Requests from asyncio: each is counted once, its task always comes to its end, and then
      its future is decided and the registry has let it go, however spawning, the task, the
      event loop and the closing of the client interleave.  Calls to Python may fail: a
      future stays undecided only if its spawn failed or its loop refused a call, and a
      request stays registered only if it is streamed and its callback object could not be
      created ([AsyncRequests]).
    - Bytes: the byte budget is exact under any interleaving, on every error path;
      decoding undoes encoding; limits hold ([Body], [Metrics]); streaming layers
      lose, duplicate and reorder nothing and always make progress ([Streaming]).
    - Telemetry: a request's events are well-formed whatever is called, the journal loses
      and reorders nothing and counts what it drops, and closing the client seals it after
      exactly one final event of each open and connection ([Telemetry]).
    - Streamed responses: reads return the body in order and without loss, a success
      means that all of it was delivered, and everything a stream holds is released
      exactly once however it ends ([StreamState]).  What Python gets, by reads that block
      and reads on the event loop, is that body, and its calls and callbacks keep the order
      the stream relies on ([StreamResponse]); reservations in a history are given back
      exactly once ([PyResponse]).
    - Cookies: what is stored is what was accepted, secure cookies are kept from
      insecure origins, the request header is exactly the matching cookies in order
      ([Cookies]).
    - Counters: gauges follow the events, clocks are monotone, snapshots are unique,
      coherent and terminate ([Metrics], [OriginMetrics], [Registry],
      [TransportState], [ProxyMetrics], [PoolDiagnostics]).
    - Numbers: delays and durations are computed in binary64 and bounded, with the
      one case in which they are not what the documentation promises ([Retry]).

    ** Conventions

    A [Result] is [result], [?] is [let?], [let ... else] is [let_some].  A method
    on [&mut self] takes the struct and returns it; one that can fail returns the
    state it leaves behind too.  [usize] and [u64] are [Z] with the wrapping,
    saturating or checked operation the code uses; targets are 64-bit.  Instants are
    nanoseconds and arguments of the steps that read the clock.  Mutexes make a
    section one step; a hash map's iteration order is an argument.  Third-party
    code is a class of operations, with a class of laws where theorems need its
    documented behaviour, and instances in the witnesses.

    Recursion is structural: on the list of items, on the number of layers, or, for
    decoders, on the list of reads the decoder yields.  The one bounded retry of the
    code (eight snapshot attempts) has its bound in the model.

    ** Not modelled

    pyo3's conversion of arguments and the GIL, the classes that mirror snapshots of the
    metrics field by field ([py/stats.rs] and the like), the Python package over the extension, the
    threads tokio starts, and what hyper, rustls and the operating system do below the
    connectors: the models take their answers as arguments. *)

From stdpp Require Export prelude gmap strings list.
From Stdlib Require Export ZArith Lia.


(** ** Fallible code: Rust's [Result] *)

Inductive result (A E : Type) : Type :=
| Ok (a : A)
| Err (e : E).
Arguments Ok {A E} a.
Arguments Err {A E} e.

Declare Scope rust_scope.
Delimit Scope rust_scope with rust.

(** The [?] operator: continue on [Ok], return early on [Err]. *)
Notation "'let?' x ':=' m 'in' k" :=
  (match m with Ok x => k | Err e => Err e end)
  (at level 10, x pattern, m at level 200, k at level 200)
  : rust_scope.

(** [let Some(x) = m else { return d }]. *)
Notation "'let_some' x ':=' m 'else' d 'in' k" :=
  (match m with Some x => k | None => d end)
  (at level 10, x pattern, m at level 200, d at level 200, k at level 200) : rust_scope.

#[global] Open Scope rust_scope.

Definition map_err {A E F : Type} (f : E -> F) (r : result A E) : result A F :=
  match r with Ok a => Ok a | Err e => Err (f e) end.

Definition is_ok {A E : Type} (r : result A E) : bool :=
  match r with Ok _ => true | Err _ => false end.

Definition is_some {A : Type} (o : option A) : bool := match o with Some _ => true | None => false end.

(** [collect::<Result<Vec<_>, _>>()]: the first error wins. *)
Fixpoint collect_results {A E : Type} (rs : list (result A E)) : result (list A) E :=
  match rs with
  | [] => Ok []
  | r :: rest => let? a := r in let? more := collect_results rest in Ok (a :: more)
  end.

Lemma collect_results_Ok {A E} (rs : list (result A E)) l :
  collect_results rs = Ok l <-> Forall2 (fun r a => r = Ok a) rs l.
Proof.
  revert l; induction rs as [|r rs IH]; intros l; cbn.
  - split; [intros [= <-]; constructor | intros H; inversion H; done].
  - destruct r as [a|e]; last (split; [done | intros H; inversion H; done]).
    destruct (collect_results rs) as [l'|e] eqn:Hc; split.
    + intros [= <-]. constructor; [done|]. by apply IH.
    + intros H. inversion H as [|? ? ? ? Ha Hl]; simplify_eq.
      apply IH in Hl. by simplify_eq.
    + done.
    + intros H. inversion H as [|? ? ? ? Ha Hl]; simplify_eq.
      apply IH in Hl. done.
Qed.

(** ** Lists *)

Lemma filter_sublist {A} (P : A -> Prop) `{!forall x, Decision (P x)} (l l' : list A) :
  l `sublist_of` l' -> filter P l `sublist_of` filter P l'.
Proof.
  induction 1 as [|x l l' _ IH|x l l' _ IH]; [done | |]; rewrite !filter_cons;
    (case_decide; [|done]).
  - by constructor.
  - by apply sublist_cons.
Qed.

Lemma Forall_sublist {A} (P : A -> Prop) (l l' : list A) :
  l `sublist_of` l' -> Forall P l' -> Forall P l.
Proof. rewrite !Forall_forall. intros Hl HP x Hx. apply HP. by eapply elem_of_sublist. Qed.

Lemma join_app {A} (l l' : list (list A)) : mjoin (l ++ l') = mjoin l ++ mjoin l'.
Proof. by rewrite !list_join_bind, bind_app. Qed.

(** An element of a list owns its part of what the list's elements hold. *)
Lemma omap_insert {A B} (g : A -> option B) (l : list A) i x : l !! i = Some x ->
  exists a b, omap g l = a ++ option_list (g x) ++ b /\ forall y, omap g (<[i := y]> l) = a ++ option_list (g y) ++ b.
Proof.
  assert (Hcons : forall z t, omap g (z :: t) = option_list (g z) ++ omap g t) by (intros z t; cbn; by destruct (g z)).
  intros Hi. exists (omap g (take i l)), (omap g (drop (S i) l)). split.
  - rewrite <- (take_drop_middle l i x Hi) at 1. by rewrite omap_app, Hcons.
  - intros y. rewrite insert_take_drop by (by eapply lookup_lt_Some). by rewrite omap_app, Hcons.
Qed.

Lemma join_insert {A B} (g : A -> list B) (l : list A) i x : l !! i = Some x ->
  exists a b, mjoin (g <$> l) = a ++ g x ++ b /\ forall y, mjoin (g <$> <[i := y]> l) = a ++ g y ++ b.
Proof.
  intros Hi. exists (mjoin (g <$> take i l)), (mjoin (g <$> drop (S i) l)). split.
  - rewrite <- (take_drop_middle l i x Hi) at 1. by rewrite fmap_app, join_app.
  - intros y. rewrite insert_take_drop by (by eapply lookup_lt_Some). by rewrite fmap_app, join_app.
Qed.

(** ** Record field update *)

(** [x <| f := v |>] is the struct [x] with field [f] replaced: the setter of a
    projection is computed from the eta expansion of its record. *)
Class Eta (R : Type) := eta : R -> R.
Class Setter {R E : Type} (proj : R -> E) := update_field : (E -> E) -> R -> R.
Arguments update_field {R E} proj {_} f r.

Ltac solve_setter :=
  lazymatch goal with
  | |- @Setter ?R ?E ?proj =>
      let inst := constr:(_ : Eta R) in
      let e := eval hnf in inst in
      lazymatch eval pattern proj in e with
      | ?u _ => let body := eval cbv beta in (fun f : E -> E => u (fun r => f (proj r))) in
                exact body
      end
  end.
#[global] Hint Extern 1 (Setter _) => solve_setter : typeclass_instances.

Notation "x <| f ::= g |>" := (update_field f g x)
  (at level 1, f at level 0, g at level 200, left associativity) : rust_scope.
Notation "x <| f := v |>" := (update_field f (fun _ => v) x)
  (at level 1, f at level 0, v at level 200, left associativity) : rust_scope.

(** ** Machine integers

    The client runs on 64-bit targets: [usize] and [u64] are integers in
    [[0, 2^64)]. *)

Local Open Scope Z_scope.

Definition USIZE_MAX : Z := 18446744073709551615.
Definition U64_MAX : Z := 18446744073709551615.
Definition I32_MAX : Z := 2147483647.

Definition is_usize (a : Z) : Prop := 0 <= a <= USIZE_MAX.

Definition wrapping_add (a b : Z) : Z := (a + b) mod (USIZE_MAX + 1).
Definition wrapping_sub (a b : Z) : Z := (a - b) mod (USIZE_MAX + 1).
Definition saturating_add (a b : Z) : Z := Z.min USIZE_MAX (a + b).
Definition saturating_sub (a b : Z) : Z := Z.max 0 (a - b).
Definition checked_add (a b : Z) : option Z :=
  if a + b <=? USIZE_MAX then Some (a + b) else None.
Definition checked_sub (a b : Z) : option Z :=
  if b <=? a then Some (a - b) else None.

(** Unfold the arithmetic above and solve what is linear. *)
Ltac arith :=
  unfold is_usize, wrapping_add, wrapping_sub, saturating_add, saturating_sub,
    USIZE_MAX, U64_MAX, I32_MAX in *; lia.

Lemma wrapping_add_small a b : 0 <= a + b <= USIZE_MAX -> wrapping_add a b = a + b.
Proof. intros H. unfold wrapping_add. apply Z.mod_small. lia. Qed.

Lemma wrapping_sub_small a b : 0 <= a - b <= USIZE_MAX -> wrapping_sub a b = a - b.
Proof. intros H. unfold wrapping_sub. apply Z.mod_small. lia. Qed.

Lemma wrapping_add_range a b : is_usize (wrapping_add a b).
Proof.
  unfold is_usize, wrapping_add. pose proof (Z.mod_pos_bound (a + b) (USIZE_MAX + 1)).
  unfold USIZE_MAX in *. lia.
Qed.

Lemma wrapping_sub_range a b : is_usize (wrapping_sub a b).
Proof.
  unfold is_usize, wrapping_sub. pose proof (Z.mod_pos_bound (a - b) (USIZE_MAX + 1)).
  unfold USIZE_MAX in *. lia.
Qed.

Lemma wrapping_add_sub a b : is_usize a -> wrapping_sub (wrapping_add a b) b = a.
Proof.
  intros H. unfold wrapping_sub, wrapping_add.
  rewrite Zminus_mod_idemp_l. replace (a + b - b) with a by lia.
  apply Z.mod_small. unfold is_usize in H. lia.
Qed.

Lemma checked_add_Some a b c : checked_add a b = Some c <-> c = a + b /\ a + b <= USIZE_MAX.
Proof.
  unfold checked_add. destruct (Z.leb_spec (a + b) USIZE_MAX); split;
    intros; simplify_eq; try done; destruct_and?; subst; try done; lia.
Qed.

Lemma checked_add_None a b : checked_add a b = None <-> USIZE_MAX < a + b.
Proof.
  unfold checked_add. destruct (Z.leb_spec (a + b) USIZE_MAX); split; intros; try done; lia.
Qed.

Lemma checked_sub_Some a b c : checked_sub a b = Some c <-> c = a - b /\ b <= a.
Proof.
  unfold checked_sub. destruct (Z.leb_spec b a); split;
    intros; simplify_eq; try done; destruct_and?; subst; try done; lia.
Qed.

Lemma checked_sub_None a b : checked_sub a b = None <-> a < b.
Proof. unfold checked_sub. destruct (Z.leb_spec b a); split; intros; try done; lia. Qed.

Create HintDb machine_int.
#[export] Hint Resolve wrapping_add_range wrapping_sub_range : machine_int.

(** ** Durations

    A [Duration] is its whole number of nanoseconds; [as_nanos] is a [u128], so the
    conversion to [u64] saturates. *)

Definition NANOS_PER_SEC : Z := 1000000000.

(** [now.saturating_duration_since(started)], what [started.elapsed()] returns. *)
Definition elapsed (started now : Z) : Z := Z.max 0 (now - started).
