(* ===== verification/Atomics.v ===== *)
(** * Compare-and-swap loops

    Every lock-free counter of the client is updated by the same loop: load the
    cell, decide from the loaded value, try a (weak) compare-and-swap, and start
    over from the value the failed exchange returned.  This file models the loop
    once.  [cas_loop] is the loop of one thread against the failures its
    environment causes; [system] interleaves any number of threads running such
    loops on one cell, at the granularity of single loads and exchanges, and
    [system_refines_atomic] shows that it implements the system in which every
    operation is one indivisible step.  The components can therefore use the
    atomic reading [run_attempt] of each loop body. *)

From S2P Require Import Prelude.

Local Open Scope Z_scope.

(** What one iteration decides from the loaded value: return without storing, or
    try to store [next] and return [r] if the exchange succeeds. *)
Inductive attempt (R : Type) : Type :=
| Done (r : R)
| Swap (next : Z) (r : R).
Arguments Done {R} r.
Arguments Swap {R} next r.

(** The loop body executed indivisibly. *)
Definition run_attempt {R} (body : Z -> attempt R) (mem : Z) : R * Z :=
  match body mem with
  | Done r => (r, mem)
  | Swap next r => (r, next)
  end.

(** The loop of one thread.  [failures] lists the values returned by the
    exchanges that fail (another thread won, or the weak exchange failed
    spuriously); the exchange after the last one succeeds.  The result is the
    value returned and the value of the cell the decision was based on. *)
Fixpoint cas_loop {R} (body : Z -> attempt R) (failures : list Z) (current : Z) : R * Z :=
  match body current with
  | Done r => (r, current)
  | Swap next r =>
      match failures with
      | [] => (r, current)
      | actual :: rest => cas_loop body rest actual
      end
  end.

Lemma cas_loop_linearizes {R} (body : Z -> attempt R) failures current :
  let (r, v) := cas_loop body failures current in
  r = fst (run_attempt body v) /\ v ∈ current :: failures.
Proof.
  revert current; induction failures as [|actual rest IH]; intros current; cbn;
    unfold run_attempt; destruct (body current) as [r|next r] eqn:Hb;
    try (split; [by rewrite Hb | apply list_elem_of_here]).
  specialize (IH actual). destruct (cas_loop body rest actual) as [r' v].
  destruct IH as [Hr Hv]. split; [by unfold run_attempt in Hr | by apply list_elem_of_further].
Qed.

(** ** Interleaved threads on one cell *)
Section system.
Context {Op R : Type} (body : Op -> Z -> attempt R).

Inductive pc :=
| Start (op : Op)
| Loaded (op : Op) (current : Z)
| Returned (op : Op) (r : R).

Record system := System { mem : Z; threads : list pc }.

Inductive system_step : system -> system -> Prop :=
| step_load s i op :
    threads s !! i = Some (Start op) ->
    system_step s (System (mem s) (<[i := Loaded op (mem s)]> (threads s)))
| step_return s i op current r :
    threads s !! i = Some (Loaded op current) -> body op current = Done r ->
    system_step s (System (mem s) (<[i := Returned op r]> (threads s)))
| step_swap s i op next r :
    threads s !! i = Some (Loaded op (mem s)) -> body op (mem s) = Swap next r ->
    system_step s (System next (<[i := Returned op r]> (threads s)))
| step_fail s i op current next r :
    threads s !! i = Some (Loaded op current) -> body op current = Swap next r ->
    system_step s (System (mem s) (<[i := Loaded op (mem s)]> (threads s))).

(** The specification: an operation is pending, then it has returned. *)
Inductive task :=
| Pending (op : Op)
| Finished (op : Op) (r : R).

Record atomic_system := Atomic { cell : Z; tasks : list task }.

Inductive atomic_step : atomic_system -> atomic_system -> Prop :=
| step_atomic s i op :
    tasks s !! i = Some (Pending op) ->
    atomic_step s
      (Atomic (snd (run_attempt (body op) (cell s)))
              (<[i := Finished op (fst (run_attempt (body op) (cell s)))]> (tasks s))).

(** A thread that already loaded a value on which it will return has taken
    effect; one that will try an exchange has not. *)
Definition task_of (t : pc) : task :=
  match t with
  | Start op => Pending op
  | Loaded op current =>
      match body op current with Done r => Finished op r | Swap _ _ => Pending op end
  | Returned op r => Finished op r
  end.

Definition abstraction (s : system) : atomic_system :=
  Atomic (mem s) (task_of <$> threads s).

Lemma abstraction_load s i op :
  (task_of <$> threads s) !! i = Some (Pending op) ->
  rtc atomic_step (abstraction s)
    (abstraction (System (mem s) (<[i := Loaded op (mem s)]> (threads s)))).
Proof.
  intros Hi. unfold abstraction; cbn. rewrite list_fmap_insert; cbn.
  destruct (body op (mem s)) as [r|next r] eqn:Hb.
  - apply rtc_once. pose proof (step_atomic (abstraction s) i op Hi) as Hs.
    unfold run_attempt in Hs; cbn in Hs. by rewrite Hb in Hs.
  - rewrite list_insert_id; [apply rtc_refl | done].
Qed.

Lemma system_step_refines s s' :
  system_step s s' -> rtc atomic_step (abstraction s) (abstraction s').
Proof.
  destruct 1 as [s i op Hi | s i op current r Hi Hb | s i op next r Hi Hb
                | s i op current next r Hi Hb].
  - apply abstraction_load. by rewrite list_lookup_fmap, Hi.
  - unfold abstraction; cbn. rewrite list_fmap_insert; cbn.
    rewrite list_insert_id; [apply rtc_refl|].
    rewrite list_lookup_fmap, Hi; cbn. by rewrite Hb.
  - unfold abstraction at 2; cbn. rewrite list_fmap_insert; cbn.
    assert (Hp : tasks (abstraction s) !! i = Some (Pending op)).
    { cbn. rewrite list_lookup_fmap, Hi; cbn. by rewrite Hb. }
    apply rtc_once. pose proof (step_atomic _ i op Hp) as Hs.
    unfold run_attempt in Hs; cbn in Hs. by rewrite Hb in Hs.
  - apply abstraction_load. rewrite list_lookup_fmap, Hi; cbn. by rewrite Hb.
Qed.

Lemma system_refines_atomic s s' :
  rtc system_step s s' -> rtc atomic_step (abstraction s) (abstraction s').
Proof.
  induction 1 as [s | s1 s2 s3 H12 _ IH]; [apply rtc_refl|].
  etrans; [by apply system_step_refines | done].
Qed.

(** An invariant of the cell kept by each indivisible operation holds under
    every interleaving. *)
Lemma system_cell_invariant (P : Z -> Prop) s s' :
  (forall op m, P m -> P (snd (run_attempt (body op) m))) ->
  rtc system_step s s' -> P (mem s) -> P (mem s').
Proof.
  intros HP Hs%system_refines_atomic H0.
  assert (H : P (cell (abstraction s))) by done.
  change (P (cell (abstraction s'))). clear H0. revert H.
  induction Hs as [|s1 s2 s3 H12 _ IH]; [done|].
  intros H. apply IH. destruct H12; cbn. by apply HP.
Qed.

(** ** Accounting *)
Section effects.
Context (effect : Op -> R -> Z).
Hypothesis effect_spec : forall op m,
  snd (run_attempt (body op) m) = m + effect op (fst (run_attempt (body op) m)).

Definition task_effect (t : task) : Z :=
  match t with Pending _ => 0 | Finished op r => effect op r end.

Fixpoint total_effect (ts : list task) : Z :=
  match ts with [] => 0 | t :: rest => task_effect t + total_effect rest end.

Lemma total_effect_insert ts i t t' :
  ts !! i = Some t ->
  total_effect (<[i := t']> ts) = total_effect ts - task_effect t + task_effect t'.
Proof.
  revert i; induction ts as [|u ts IH]; intros [|i]; try done; csimpl.
  - intros [= ->]. lia.
  - intros Hi. rewrite (IH _ Hi). lia.
Qed.

Lemma atomic_step_effect s s' :
  atomic_step s s' ->
  cell s' - total_effect (tasks s') = cell s - total_effect (tasks s).
Proof.
  destruct 1 as [s i op Hi]; cbn.
  rewrite (total_effect_insert _ _ _ _ Hi), effect_spec; cbn. lia.
Qed.

Lemma system_effect s s' :
  rtc system_step s s' ->
  mem s' - total_effect (task_of <$> threads s') =
  mem s - total_effect (task_of <$> threads s).
Proof.
  intros Hs%system_refines_atomic.
  change (cell (abstraction s') - total_effect (tasks (abstraction s')) =
          cell (abstraction s) - total_effect (tasks (abstraction s))).
  induction Hs as [|s1 s2 s3 H12 _ IH]; [done|].
  rewrite IH. by apply atomic_step_effect.
Qed.
End effects.
End system.

(** * Methods over records of atomics

    A method that touches several cells is a sequence of indivisible steps on the
    shared state: atomic loads, stores and read-modify-writes (a compare-and-swap
    loop counts as one, by [system_refines_atomic]), or a section under a mutex.
    Other threads may run between the steps. *)

Inductive action (S A : Type) : Type :=
| Return (a : A)
| Atomically (B : Type) (f : S -> B * S) (k : B -> action S A).
Arguments Return {S A} a.
Arguments Atomically {S A B} f k.

Fixpoint bind_action {S A B} (m : action S A) (k : A -> action S B) : action S B :=
  match m with
  | Return a => k a
  | Atomically f k' => Atomically f (fun b => bind_action (k' b) k)
  end.

#[export] Instance action_ret S : MRet (action S) := fun A a => Return a.
#[export] Instance action_bind S : MBind (action S) := fun A B k m => bind_action m k.

(** Run without interference. *)
Fixpoint run_action {S A} (m : action S A) (s : S) : A * S :=
  match m with
  | Return a => (a, s)
  | Atomically f k => let (b, s') := f s in run_action (k b) s'
  end.

Definition exec {S A} (m : action S A) (s : S) : S := snd (run_action m s).

Lemma run_bind {S A B} (m : action S A) (k : A -> action S B) s :
  run_action (m ≫= k) s = let (a, s') := run_action m s in run_action (k a) s'.
Proof.
  revert s; induction m as [a|C f k' IH]; intros s; [done|].
  cbn. destruct (f s) as [c s']. apply IH.
Qed.

(** ** Memory operations on a field of the record *)
Section memory.
Context {S : Type}.

Definition load {A} (field : S -> A) : action S A := Atomically (fun s => (field s, s)) Return.
Definition store {A} (field : S -> A) `{!Setter field} (v : A) : action S unit :=
  Atomically (fun s => (tt, s <| field := v |>)) Return.
Definition fetch_add (field : S -> Z) `{!Setter field} (v : Z) : action S Z :=
  Atomically (fun s => (field s, s <| field ::= fun x => wrapping_add x v |>)) Return.
Definition fetch_sub (field : S -> Z) `{!Setter field} (v : Z) : action S Z :=
  Atomically (fun s => (field s, s <| field ::= fun x => wrapping_sub x v |>)) Return.

(** A compare-and-swap loop with the given body. *)
Definition compare_exchange_loop {R} (field : S -> Z) `{!Setter field} (body : Z -> attempt R) :
    action S R :=
  Atomically (fun s => let (r, v) := run_attempt body (field s) in (r, s <| field := v |>)) Return.

(** A section under the mutex of a field. *)
Definition locked {A R} (field : S -> A) `{!Setter field} (section : A -> R * A) : action S R :=
  Atomically (fun s => let (r, v) := section (field s) in (r, s <| field := v |>)) Return.
End memory.

(** ** Concurrent methods *)
Section pool.
Context {S A : Type}.

Inductive pool_step : S * list (action S A) -> S * list (action S A) -> Prop :=
| step_thread s ts i B (f : S -> B * S) k b s' :
    ts !! i = Some (Atomically f k) -> f s = (b, s') ->
    pool_step (s, ts) (s', <[i := k b]> ts).

(** Every step of the method keeps [P]. *)
Fixpoint keeps (P : S -> Prop) (m : action S A) : Prop :=
  match m with
  | Return _ => True
  | Atomically f k => forall s, P s -> P (snd (f s)) /\ keeps P (k (fst (f s)))
  end.

Lemma pool_invariant (P : S -> Prop) c c' :
  rtc pool_step c c' -> P (fst c) -> Forall (keeps P) (snd c) -> P (fst c').
Proof.
  induction 1 as [c | c1 c2 c3 H12 _ IH]; [done|]. intros HP Hts.
  destruct H12 as [s ts i B f k b s' Hi Hf].
  pose proof (Forall_lookup_1 _ _ _ _ Hts Hi) as Hk. cbn in Hk.
  destruct (Hk s HP) as [HP' Hk']. rewrite Hf in HP', Hk'.
  apply IH; [done|]. by apply Forall_insert.
Qed.
End pool.
