(* ===== verification/RustStr.v ===== *)
(** * Rust strings

    A Rust [str] is a well-formed UTF-8 byte sequence; it is modelled by the Rocq
    [string] of its bytes, so that [len], equality, ASCII case folding and byte
    slicing are those of the bytes.  Operations that Rust defines on [char]s
    ([trim], [chars]) go through [chars], the UTF-8 decoding.  Only the operations
    of the standard library the client uses are modelled. *)

From S2P Require Import Prelude.
From Stdlib Require Import Ascii.
From Stdlib Require String.

Local Open Scope Z_scope.
#[local] Arguments String.append !_ _ / : simpl nomatch.

Definition byte (c : ascii) : Z := Z.of_N (N_of_ascii c).
Definition of_byte (z : Z) : ascii := ascii_of_N (Z.to_N z).

Fixpoint bytes (s : string) : list Z :=
  match s with EmptyString => [] | String c rest => byte c :: bytes rest end.
Fixpoint of_bytes (l : list Z) : string :=
  match l with [] => EmptyString | b :: rest => String (of_byte b) (of_bytes rest) end.

(** [str::len]: the number of bytes. *)
Definition len (s : string) : Z := Z.of_nat (String.length s).

Definition is_empty (s : string) : bool :=
  match s with EmptyString => true | _ => false end.

Definition string_forall (p : ascii -> bool) (s : string) : bool :=
  forallb p (String.list_ascii_of_string s).
Definition string_exists (p : ascii -> bool) (s : string) : bool :=
  existsb p (String.list_ascii_of_string s).

(** ** ASCII classes and case *)

Definition is_ascii_char (c : ascii) : bool := byte c <? 128.
Definition is_ascii (s : string) : bool := string_forall is_ascii_char s.

Definition is_ascii_digit (c : ascii) : bool := (48 <=? byte c) && (byte c <=? 57).
Definition is_ascii_uppercase (c : ascii) : bool := (65 <=? byte c) && (byte c <=? 90).
Definition is_ascii_lowercase (c : ascii) : bool := (97 <=? byte c) && (byte c <=? 122).
Definition is_ascii_alphanumeric (c : ascii) : bool :=
  is_ascii_digit c || is_ascii_uppercase c || is_ascii_lowercase c.
Definition is_ascii_control (c : Z) : bool := (c <? 32) || (c =? 127).

Definition lower_char (c : ascii) : ascii :=
  if is_ascii_uppercase c then of_byte (byte c + 32) else c.
Definition upper_char (c : ascii) : ascii :=
  if is_ascii_lowercase c then of_byte (byte c - 32) else c.

Fixpoint map_string (f : ascii -> ascii) (s : string) : string :=
  match s with EmptyString => EmptyString | String c rest => String (f c) (map_string f rest) end.

Definition to_ascii_lowercase (s : string) : string := map_string lower_char s.
Definition to_ascii_uppercase (s : string) : string := map_string upper_char s.

Definition eq_ignore_ascii_case (a b : string) : bool :=
  String.eqb (to_ascii_lowercase a) (to_ascii_lowercase b).

(** ** Prefixes, suffixes, splitting *)

Fixpoint strip_prefix (p s : string) : option string :=
  match p, s with
  | EmptyString, _ => Some s
  | String a p', String b s' => if Ascii.eqb a b then strip_prefix p' s' else None
  | String _ _, EmptyString => None
  end.

Definition starts_with (p s : string) : bool :=
  match strip_prefix p s with Some _ => true | None => false end.

(** The part of [s] before [suffix], where [s] ends with it: the first split
    point at which the rest is exactly [suffix]. *)
Fixpoint strip_suffix (suffix s : string) : option string :=
  if String.eqb s suffix then Some EmptyString
  else match s with
       | EmptyString => None
       | String c rest => String c <$> strip_suffix suffix rest
       end.

Definition ends_with (suffix s : string) : bool :=
  match strip_suffix suffix s with Some _ => true | None => false end.

(** [split(c)]: always at least one piece. *)
Fixpoint split (sep : ascii) (s : string) : list string :=
  match s with
  | EmptyString => [EmptyString]
  | String c rest =>
      if Ascii.eqb c sep then EmptyString :: split sep rest
      else match split sep rest with
           | [] => [String c EmptyString]
           | piece :: more => String c piece :: more
           end
  end.

(** [split_once(pattern)]: at the first occurrence. *)
Fixpoint split_once (pattern s : string) : option (string * string) :=
  match strip_prefix pattern s with
  | Some after => Some (EmptyString, after)
  | None =>
      match s with
      | EmptyString => None
      | String c rest =>
          match split_once pattern rest with
          | Some (before, after) => Some (String c before, after)
          | None => None
          end
      end
  end.

(** [rsplit_once(c)]: at the last occurrence. *)
Fixpoint rsplit_once (sep : ascii) (s : string) : option (string * string) :=
  match s with
  | EmptyString => None
  | String c rest =>
      match rsplit_once sep rest with
      | Some (before, after) => Some (String c before, after)
      | None => if Ascii.eqb c sep then Some (EmptyString, rest) else None
      end
  end.

(** ** Characters *)

Definition encode_char (c : Z) : string :=
  of_bytes
    (if c <? 128 then [c]
     else if c <? 2048 then [192 + c / 64; 128 + c mod 64]
     else if c <? 65536 then [224 + c / 4096; 128 + c / 64 mod 64; 128 + c mod 64]
     else [240 + c / 262144; 128 + c / 4096 mod 64; 128 + c / 64 mod 64; 128 + c mod 64]).

Fixpoint encode (cs : list Z) : string :=
  match cs with [] => EmptyString | c :: rest => (encode_char c ++ encode rest)%string end.

(** [str::chars] on well-formed input; the last branches only complete the
    function on ill-formed bytes. *)
Fixpoint decode (l : list Z) : list Z :=
  match l with
  | [] => []
  | b :: rest =>
      if b <? 128 then b :: decode rest
      else if b <? 224 then
        match rest with
        | b1 :: rest1 => (64 * (b - 192) + (b1 - 128)) :: decode rest1
        | _ => [65533]
        end
      else if b <? 240 then
        match rest with
        | b1 :: b2 :: rest2 =>
            (4096 * (b - 224) + 64 * (b1 - 128) + (b2 - 128)) :: decode rest2
        | _ => [65533]
        end
      else
        match rest with
        | b1 :: b2 :: b3 :: rest3 =>
            (262144 * (b - 240) + 4096 * (b1 - 128) + 64 * (b2 - 128) + (b3 - 128))
            :: decode rest3
        | _ => [65533]
        end
  end.

Definition chars (s : string) : list Z := decode (bytes s).

(** Unicode [White_Space]. *)
Definition is_whitespace (c : Z) : bool :=
  ((9 <=? c) && (c <=? 13)) || (c =? 32) || (c =? 133) || (c =? 160) || (c =? 5760)
  || ((8192 <=? c) && (c <=? 8202)) || (c =? 8232) || (c =? 8233) || (c =? 8239)
  || (c =? 8287) || (c =? 12288).

Fixpoint drop_while {A} (p : A -> bool) (l : list A) : list A :=
  match l with [] => [] | x :: rest => if p x then drop_while p rest else l end.

Definition trim_by {A} (p : A -> bool) (l : list A) : list A :=
  reverse (drop_while p (reverse (drop_while p l))).

(** [str::trim]. *)
Definition trim (s : string) : string := encode (trim_by is_whitespace (chars s)).

(** [trim_matches([' ', '\t'])]: the two characters are single bytes. *)
Definition is_space_or_tab (b : Z) : bool := (b =? 32) || (b =? 9).
Definition trim_space_tab (s : string) : string := of_bytes (trim_by is_space_or_tab (bytes s)).

(** [str::parse::<u64>]: an optional [+], then decimal digits within range. *)
Definition digits_value (ds : list Z) : Z := fold_left (fun acc d => 10 * acc + (d - 48)) ds 0.

Definition parse_u64 (s : string) : option Z :=
  let body := match strip_prefix "+" s with Some rest => rest | None => s end in
  if is_empty body then None
  else if string_forall is_ascii_digit body then
    let v := digits_value (bytes body) in
    if v <=? U64_MAX then Some v else None
  else None.

(** ** Lemmas *)

Lemma byte_range c : 0 <= byte c < 256.
Proof.
  unfold byte. pose proof (N_ascii_bounded c). lia.
Qed.

Lemma byte_of_byte z : 0 <= z < 256 -> byte (of_byte z) = z.
Proof.
  intros H. unfold byte, of_byte. rewrite N_ascii_embedding by lia. lia.
Qed.

Lemma of_byte_byte c : of_byte (byte c) = c.
Proof. unfold byte, of_byte. rewrite N2Z.id. apply ascii_N_embedding. Qed.

Lemma bytes_of_bytes l : Forall (fun b => 0 <= b < 256) l -> bytes (of_bytes l) = l.
Proof. induction 1 as [|b l Hb _ IH]; cbn; [done|]. by rewrite byte_of_byte, IH. Qed.

Lemma of_bytes_bytes s : of_bytes (bytes s) = s.
Proof. induction s as [|c s IH]; cbn; [done|]. by rewrite of_byte_byte, IH. Qed.

Lemma bytes_app a b : bytes (a ++ b)%string = bytes a ++ bytes b.
Proof. induction a as [|c a IH]; cbn; [done|]. by rewrite IH. Qed.

Lemma len_bytes s : len s = Z.of_nat (length (bytes s)).
Proof. unfold len. f_equal. induction s as [|c s IH]; cbn; [done|]. by f_equal. Qed.

Lemma eq_ignore_ascii_case_spec a b :
  eq_ignore_ascii_case a b = true <-> to_ascii_lowercase a = to_ascii_lowercase b.
Proof. apply String.eqb_eq. Qed.

Lemma eq_ignore_ascii_case_refl a : eq_ignore_ascii_case a a = true.
Proof. by apply eq_ignore_ascii_case_spec. Qed.

Lemma eq_ignore_ascii_case_sym a b : eq_ignore_ascii_case a b = eq_ignore_ascii_case b a.
Proof. apply String.eqb_sym. Qed.

Lemma eq_ignore_ascii_case_trans a b c :
  eq_ignore_ascii_case a b = true ->
  eq_ignore_ascii_case b c = eq_ignore_ascii_case a c.
Proof.
  intros H%eq_ignore_ascii_case_spec. unfold eq_ignore_ascii_case. by rewrite H.
Qed.

(** Case-insensitive equality as a setoid, so that header lookups rewrite with it. *)
Definition same_header_name (a b : string) : Prop := eq_ignore_ascii_case a b = true.

#[export] Instance same_header_name_equiv : Equivalence same_header_name.
Proof.
  split.
  - intros a. apply eq_ignore_ascii_case_refl.
  - intros a b. unfold same_header_name. by rewrite eq_ignore_ascii_case_sym.
  - intros a b c Hab Hbc. unfold same_header_name in *.
    by rewrite <- (eq_ignore_ascii_case_trans a b c).
Qed.

#[export] Instance eq_ignore_ascii_case_proper :
  Proper (same_header_name ==> same_header_name ==> eq) eq_ignore_ascii_case.
Proof.
  intros a a' Ha b b' Hb. unfold same_header_name in *.
  rewrite eq_ignore_ascii_case_spec in Ha, Hb. unfold eq_ignore_ascii_case.
  by rewrite Ha, Hb.
Qed.

Lemma strip_prefix_Some p s rest : strip_prefix p s = Some rest <-> s = (p ++ rest)%string.
Proof.
  revert s; induction p as [|a p IH]; intros s; cbn.
  - split; [by intros [= ->] | by intros ->].
  - destruct s as [|b s]; [done|]. destruct (Ascii.eqb_spec a b) as [->|Hne].
    + rewrite IH. split; [by intros -> | by intros [= ->]].
    + split; [done | by intros [= -> _]].
Qed.

Lemma starts_with_spec p s : starts_with p s = true <-> exists rest, s = (p ++ rest)%string.
Proof.
  unfold starts_with. destruct (strip_prefix p s) as [rest|] eqn:H.
  - split; [intros _; exists rest; by apply strip_prefix_Some | done].
  - split; [done|]. intros [rest Hr]. apply strip_prefix_Some in Hr. congruence.
Qed.

Lemma string_app_length a b : String.length (a ++ b)%string = (String.length a + String.length b)%nat.
Proof. induction a as [|c a IH]; cbn; [done|]. by rewrite IH. Qed.

Lemma string_app_assoc a b c : (a ++ (b ++ c))%string = ((a ++ b) ++ c)%string.
Proof. induction a as [|x a IH]; cbn; [done|]. by rewrite IH. Qed.

Lemma string_app_nil_r a : (a ++ "")%string = a.
Proof. induction a as [|x a IH]; cbn; [done|]. by rewrite IH. Qed.

Lemma string_app_inv_r a b c : (a ++ c)%string = (b ++ c)%string -> a = b.
Proof.
  revert b; induction a as [|x a IH]; intros [|y b]; cbn; intros H; try done.
  - apply (f_equal String.length) in H. cbn in H. rewrite string_app_length in H. lia.
  - apply (f_equal String.length) in H. cbn in H. rewrite string_app_length in H. lia.
  - injection H as -> H. by rewrite (IH _ H).
Qed.

Lemma strip_suffix_eq suffix s :
  strip_suffix suffix s =
  if String.eqb s suffix then Some EmptyString
  else match s with
       | EmptyString => None
       | String c rest => String c <$> strip_suffix suffix rest
       end.
Proof. by destruct s. Qed.

Lemma strip_suffix_Some suffix s before :
  strip_suffix suffix s = Some before <-> s = (before ++ suffix)%string.
Proof.
  revert before; induction s as [|c s IH]; intros before; rewrite strip_suffix_eq.
  - destruct (String.eqb_spec EmptyString suffix) as [<-|Hne]; split.
    + by intros [= <-].
    + destruct before; cbn; [done | intros H; discriminate H].
    + intros H; discriminate H.
    + destruct before; cbn; intros H; [by subst suffix | discriminate H].
  - destruct (String.eqb_spec (String c s) suffix) as [<-|Hne].
    + split; [by intros [= <-]|]. intros H.
      apply (f_equal String.length) in H as Hl. rewrite string_app_length in Hl.
      cbn in Hl. destruct before; [done | cbn in Hl; lia].
    + rewrite fmap_Some. split.
      * intros (x & Hx%IH & ->). cbn. by rewrite <- Hx.
      * destruct before as [|d before]; cbn; [intros H; by rewrite H in Hne|].
        intros [= -> Hs]. exists before. split; [by apply IH | done].
Qed.

Lemma ends_with_spec suffix s :
  ends_with suffix s = true <-> exists before, s = (before ++ suffix)%string.
Proof.
  unfold ends_with. destruct (strip_suffix suffix s) as [b|] eqn:H.
  - split; [intros _; exists b; by apply strip_suffix_Some | done].
  - split; [done|]. intros [b Hb]. apply strip_suffix_Some in Hb. congruence.
Qed.

Lemma split_not_nil sep s : split sep s <> [].
Proof.
  destruct s as [|c s]; cbn; [done|].
  destruct (Ascii.eqb c sep); [done|]. by destruct (split sep s).
Qed.

Lemma decode_encode_char c rest :
  0 <= c < 1114112 -> decode (bytes (encode_char c) ++ rest) = c :: decode rest.
Proof.
  intros Hc. unfold encode_char.
  assert (Hm : forall x, 0 <= x mod 64 < 64) by (intros; apply Z.mod_pos_bound; lia).
  pose proof (Hm c) as H0. pose proof (Hm (c / 64)) as H1. pose proof (Hm (c / 4096)) as H2.
  assert (D1 : c = 64 * (c / 64) + c mod 64) by (apply Z.div_mod; lia).
  assert (D2 : c / 64 = 64 * (c / 4096) + c / 64 mod 64).
  { replace (c / 4096) with (c / 64 / 64) by (rewrite Z.div_div by lia; reflexivity). apply Z.div_mod; lia. }
  assert (D3 : c / 4096 = 64 * (c / 262144) + c / 4096 mod 64).
  { replace (c / 262144) with (c / 4096 / 64) by (rewrite Z.div_div by lia; reflexivity). apply Z.div_mod; lia. }
  destruct (Z.ltb_spec c 128); [|destruct (Z.ltb_spec c 2048); [|destruct (Z.ltb_spec c 65536)]];
    (rewrite bytes_of_bytes; [|repeat (apply Forall_cons_2; [lia|]); apply Forall_nil_2]); cbn.
  - destruct (Z.ltb_spec c 128); [done|lia].
  - destruct (Z.ltb_spec (192 + c / 64) 128); [lia|].
    destruct (Z.ltb_spec (192 + c / 64) 224); [|lia]. f_equal. lia.
  - destruct (Z.ltb_spec (224 + c / 4096) 128); [lia|].
    destruct (Z.ltb_spec (224 + c / 4096) 224); [lia|].
    destruct (Z.ltb_spec (224 + c / 4096) 240); [|lia]. f_equal. lia.
  - destruct (Z.ltb_spec (240 + c / 262144) 128); [lia|].
    destruct (Z.ltb_spec (240 + c / 262144) 224); [lia|].
    destruct (Z.ltb_spec (240 + c / 262144) 240); [lia|]. f_equal. lia.
Qed.

(** UTF-8 decoding inverts encoding on Unicode scalar values. *)
Lemma chars_encode cs : Forall (fun c => 0 <= c < 1114112) cs -> chars (encode cs) = cs.
Proof.
  unfold chars. induction 1 as [|c cs Hc _ IH]; cbn; [done|].
  rewrite bytes_app, decode_encode_char by done. by rewrite IH.
Qed.
