(* ===== verification/Http.v ===== *)
(** * URLs, header pairs and methods

    [src/src/core/url], [src/src/core/headers] and [src/src/core/method.rs].  The
    [url] and [http] crates are not part of the repository: what the client uses
    of them is the class [UrlCrate] and the class [HttpCrate], and what it relies
    on is stated by [UrlLaws]. *)

From S2P Require Import Prelude RustStr.

Local Open Scope Z_scope.
Local Open Scope string_scope.

(** ** The third-party crates *)

Class UrlCrate := {
  Url : Type;
  url_parse : string -> result Url string;
  url_join : Url -> string -> result Url string;
  url_as_str : Url -> string;
  url_scheme : Url -> string;
  url_host_str : Url -> option string;
  url_port_or_known_default : Url -> option Z;
  url_path : Url -> string;
  url_query : Url -> option string;
  url_fragment : Url -> option string;
  url_username : Url -> string;
  url_password : Url -> option string;
  (** [url[Position::BeforeHost..Position::AfterPort]] *)
  url_host_and_port : Url -> string;
}.

Class HttpCrate := {
  HeaderMap : Type;
  HeaderName : Type;
  HeaderValue : Type;
  HeaderError : Type;
  header_map_new : HeaderMap;
  header_map_append : HeaderMap -> HeaderName -> HeaderValue -> HeaderMap;
  (** [for (name, value) in &map] *)
  header_map_iter : HeaderMap -> list (HeaderName * HeaderValue);
  header_map_get_all : HeaderMap -> string -> list HeaderValue;
  header_name_from_str : string -> result HeaderName HeaderError;
  header_name_as_str : HeaderName -> string;
  header_value_from_str : string -> result HeaderValue HeaderError;
  header_value_as_bytes : HeaderValue -> list Z;
  header_value_to_str : HeaderValue -> option string;
  (** [Method::from_bytes(..)] followed by [as_str] *)
  method_from_bytes : string -> option string;
  (** [StatusCode::from_u16] followed by [as_u16] *)
  status_code_from_u16 : Z -> option Z;
}.

(** ** Methods *)
Definition GET : string := "GET".
Definition HEAD : string := "HEAD".
Definition POST : string := "POST".
Definition QUERY : string := "QUERY".

(** ** Header pairs *)
Abbreviation HeaderPairs := (list (string * string)%type).

Section headers.
Context `{HttpCrate}.

Fixpoint append_headers (header_map : HeaderMap) (headers : HeaderPairs) :
  result HeaderMap HeaderError :=
  match headers with
  | [] => Ok header_map
  | (name, value) :: rest =>
      let? header_name := header_name_from_str name in
      let? header_value := header_value_from_str value in
      append_headers (header_map_append header_map header_name header_value) rest
  end.

Definition request_headers (headers : HeaderPairs) : result HeaderMap HeaderError :=
  append_headers header_map_new headers.

(** [value.as_bytes().iter().copied().map(char::from).collect()]. *)
Definition response_header_value_as_latin_1 (value : HeaderValue) : string :=
  encode (header_value_as_bytes value).

Definition response_headers (headers : HeaderMap) : HeaderPairs :=
  (fun '(name, value) => (header_name_as_str name, response_header_value_as_latin_1 value))
    <$> header_map_iter headers.
End headers.

(** ** HTTP URLs *)
Definition HTTP_SCHEME : string := "http".
Definition HTTPS_SCHEME : string := "https".
Definition INVALID_SCHEME_ERROR : string := "URL scheme must be http or https".
Definition MISSING_HOST_ERROR : string := "URL must include a host".

Definition is_supported (scheme : string) : bool :=
  String.eqb scheme HTTP_SCHEME || String.eqb scheme HTTPS_SCHEME.

Record OriginRef := { origin_scheme : string; origin_host : option string; origin_port : Z }.

#[export] Instance OriginRef_eq_dec : EqDecision OriginRef.
Proof. solve_decision. Defined.

Definition is_same (left right : OriginRef) : bool :=
  String.eqb (origin_scheme left) (origin_scheme right)
  && bool_decide (origin_host left = origin_host right)
  && (origin_port left =? origin_port right)%Z.

Section url.
Context `{UrlCrate}.

Record HttpUrl := { inner : Url }.

Definition http_url_parse (url : string) : result HttpUrl string :=
  let? inner := map_err (fun err => "URL is invalid: " ++ err) (url_parse url) in
  if negb (is_supported (url_scheme inner)) then Err INVALID_SCHEME_ERROR
  else match url_host_str inner with
       | None => Err MISSING_HOST_ERROR
       | Some _ => Ok {| inner := inner |}
       end.

Definition as_str (u : HttpUrl) : string := url_as_str (inner u).
Definition scheme (u : HttpUrl) : string := url_scheme (inner u).

(** The [None] branch is the [expect] of the code, unreachable by
    [parse_validates]. *)
Definition host (u : HttpUrl) : string :=
  match url_host_str (inner u) with
  | None => ""
  | Some host =>
      match strip_prefix "[" host with
      | Some value => default host (strip_suffix "]" value)
      | None => host
      end
  end.

(** The default is again the [expect] of the code ([port_known]). *)
Definition port (u : HttpUrl) : Z := default 0 (url_port_or_known_default (inner u)).
Definition path (u : HttpUrl) : string := url_path (inner u).
Definition query (u : HttpUrl) : string := default "" (url_query (inner u)).
Definition fragment (u : HttpUrl) : string := default "" (url_fragment (inner u)).

Definition is_origin_only (u : HttpUrl) : bool :=
  is_empty (url_username (inner u))
  && bool_decide (url_password (inner u) = None)
  && (String.eqb (url_path (inner u)) "" || String.eqb (url_path (inner u)) "/")
  && bool_decide (url_query (inner u) = None)
  && bool_decide (url_fragment (inner u) = None).

Definition origin (u : HttpUrl) : string :=
  scheme u ++ "://" ++ url_host_and_port (inner u).

Definition join (u : HttpUrl) (location : string) : result HttpUrl string :=
  let? inner := map_err (fun err => "URL is invalid: " ++ err) (url_join (inner u) location) in
  http_url_parse (url_as_str inner).

Definition origin_ref (u : HttpUrl) : OriginRef :=
  {| origin_scheme := scheme u; origin_host := url_host_str (inner u); origin_port := port u |}.

Definition is_same_origin (u other : HttpUrl) : bool := is_same (origin_ref u) (origin_ref other).

(** The invariant [parse] and [join] establish, and what [host] and [port]
    expect. *)
Definition validated (u : HttpUrl) : Prop :=
  is_supported (scheme u) = true /\ is_Some (url_host_str (inner u)).

(** The documented behaviour of [Url::port_or_known_default]: http and https have
    a known default port. *)
Class UrlLaws := {
  known_port : forall u, is_supported (url_scheme u) = true ->
    is_Some (url_port_or_known_default u);
}.

Lemma parse_validates url u : http_url_parse url = Ok u -> validated u.
Proof.
  unfold http_url_parse, validated, scheme. destruct (url_parse url) as [i|e]; cbn; [|done].
  destruct (is_supported (url_scheme i)) eqn:Hs; cbn; [|done].
  destruct (url_host_str i) as [h|] eqn:Hh; [|done]. intros [= <-]; cbn. by rewrite Hh.
Qed.

Lemma join_validates u location next : join u location = Ok next -> validated next.
Proof.
  unfold join. destruct (url_join (inner u) location); cbn; [|done]. apply parse_validates.
Qed.

Lemma validated_scheme u : validated u -> scheme u = "http" \/ scheme u = "https".
Proof.
  intros [Hs _]. unfold is_supported in Hs. apply orb_true_iff in Hs.
  rewrite !String.eqb_eq in Hs. done.
Qed.

Lemma port_known `{!UrlLaws} u : validated u ->
  url_port_or_known_default (inner u) = Some (port u).
Proof.
  intros [Hs _]. unfold port. destruct (known_port _ Hs) as [p ->]. done.
Qed.

Lemma is_same_origin_spec u other :
  is_same_origin u other = true <->
  scheme u = scheme other /\ url_host_str (inner u) = url_host_str (inner other)
  /\ port u = port other.
Proof.
  unfold is_same_origin, is_same; cbn.
  rewrite !andb_true_iff, String.eqb_eq, bool_decide_eq_true, Z.eqb_eq. tauto.
Qed.

Lemma is_same_origin_scheme u other :
  is_same_origin u other = true -> scheme u = scheme other.
Proof. by intros [? _]%is_same_origin_spec. Qed.
End url.

(** Same origin is an equivalence on URLs. *)
#[export] Instance is_same_origin_equiv `{UrlCrate} :
  Equivalence (fun u v => is_same_origin u v = true).
Proof.
  split.
  - intros u. by apply is_same_origin_spec.
  - intros u v (? & ? & ?)%is_same_origin_spec. by apply is_same_origin_spec.
  - intros u v w (? & ? & ?)%is_same_origin_spec (? & ? & ?)%is_same_origin_spec.
    apply is_same_origin_spec. repeat split; congruence.
Qed.

(** Header lookups are up to ASCII case. *)
Definition header_named (name : string) (h : string * string) : bool :=
  eq_ignore_ascii_case (fst h) name.

(** The HTTP crate seen through pairs of byte strings: an instance used to
    evaluate the development on concrete messages. *)
Definition visible_ascii (l : list Z) : bool :=
  forallb (fun b => ((32 <=? b) && (b <=? 126)) || (b =? 9))%Z l.

Definition pair_http_crate : HttpCrate := {|
  HeaderMap := list (string * list Z);
  HeaderName := string;
  HeaderValue := list Z;
  HeaderError := string;
  header_map_new := [];
  header_map_append m n v := (m ++ [(n, v)])%list;
  header_map_iter m := m;
  header_map_get_all m n := snd <$> filter (fun h => String.eqb (fst h) n = true) m;
  header_name_from_str s := if is_empty s then Err "invalid HTTP header name"
                            else Ok (to_ascii_lowercase s);
  header_name_as_str s := s;
  header_value_from_str s := if visible_ascii (bytes s) then Ok (bytes s)
                             else Err "failed to parse header value";
  header_value_as_bytes v := v;
  header_value_to_str v := if visible_ascii v then Some (of_bytes v) else None;
  method_from_bytes m := if is_empty m then None else Some m;
  status_code_from_u16 s := if ((100 <=? s) && (s <=? 999))%Z then Some s else None;
|}.

(** A URL syntax of scheme, host and path, used in the same way: no user
    information, no port, query or fragment; a location without "://" is an
    absolute path. *)
Record simple_url := { simple_scheme : string; simple_host : string; simple_path : string }.

Definition simple_url_parse (s : string) : result simple_url string :=
  match split_once "://" s with
  | None => Err "relative URL without a base"
  | Some (sch, rest) =>
      let (h, p) := match split_once "/" rest with
                    | Some (h, p) => (h, "/" ++ p)
                    | None => (rest, "/")
                    end in
      Ok {| simple_scheme := to_ascii_lowercase sch; simple_host := to_ascii_lowercase h;
            simple_path := p |}
  end.

Definition simple_url_string (u : simple_url) : string :=
  simple_scheme u ++ "://" ++ simple_host u ++ simple_path u.

Definition simple_url_crate : UrlCrate := {|
  Url := simple_url;
  url_parse := simple_url_parse;
  url_join u location :=
    match split_once "://" location with
    | Some _ => simple_url_parse location
    | None => Ok {| simple_scheme := simple_scheme u; simple_host := simple_host u;
                    simple_path := location |}
    end;
  url_as_str := simple_url_string;
  url_scheme := simple_scheme;
  url_host_str u := if is_empty (simple_host u) then None else Some (simple_host u);
  url_port_or_known_default u :=
    if String.eqb (simple_scheme u) "https" then Some 443%Z
    else if String.eqb (simple_scheme u) "http" then Some 80%Z else None;
  url_path := simple_path;
  url_query _ := None;
  url_fragment _ := None;
  url_username _ := "";
  url_password _ := None;
  url_host_and_port := simple_host;
|}.

Definition simple_http_url (sch h p : string) : @HttpUrl simple_url_crate :=
  {| inner := {| simple_scheme := sch; simple_host := h; simple_path := p |} : @Url simple_url_crate |}.
