(* ===== verification/Numeric.v ===== *)
(** * Numeric options, durations and [f64]

    [src/src/core/numeric/mod.rs] and the part of [f64] and [Duration] the client
    uses.  A binary64 number is a [spec_float] of the Standard Library, so the
    operations compute and round as IEEE 754 prescribes; a [Duration] is its number
    of nanoseconds.  Conversions that panic in Rust return [None]. *)

From S2P Require Import Prelude RustStr.
From Stdlib Require Import SpecFloat.
From stdpp Require Import pretty.

Local Open Scope Z_scope.

(** ** binary64 *)
Definition f64 : Type := spec_float.
Definition prec : Z := 53.
Definition emax : Z := 1024.

Definition f64_add (x y : f64) : f64 := SFadd prec emax x y.
Definition f64_mul (x y : f64) : f64 := SFmul prec emax x y.
Definition f64_div (x y : f64) : f64 := SFdiv prec emax x y.
Definition f64_of_Z (z : Z) : f64 := binary_normalize prec emax z 0 false.
Definition f64_zero : f64 := S754_zero false.

Definition is_finite (x : f64) : bool :=
  match x with S754_zero _ | S754_finite _ _ _ => true | _ => false end.
Definition is_nan (x : f64) : bool := match x with S754_nan => true | _ => false end.

(** [f64::min] and [f64::clamp]: [min] ignores a NaN operand, [clamp] keeps it. *)
Definition f64_min (x y : f64) : f64 :=
  if is_nan x then y else if is_nan y then x else if SFltb y x then y else x.
Definition f64_clamp (x low high : f64) : f64 :=
  if SFltb x low then low else if SFltb high x then high else x.

(** [x.powi(n)] for [n >= 0]: repeated squaring. *)
Fixpoint powi_pos (a : f64) (n : positive) : f64 :=
  match n with
  | xH => a
  | xO n' => powi_pos (f64_mul a a) n'
  | xI n' => f64_mul a (powi_pos (f64_mul a a) n')
  end.
Definition powi (a : f64) (n : Z) : f64 :=
  match n with Zpos p => powi_pos a p | _ => f64_of_Z 1 end.

(** ** Durations *)
Definition round_half_even (num den : Z) : Z :=
  let q := num / den in
  let r := num mod den in
  if 2 * r <? den then q
  else if den <? 2 * r then q + 1
  else if Z.even q then q else q + 1.

(** [Duration::from_secs_f64]: rounds to the nearest nanosecond, ties to even;
    panics on a negative number, a NaN and a number of seconds that is not a [u64]. *)
Definition from_secs_f64 (x : f64) : option Z :=
  match x with
  | S754_zero _ => Some 0
  | S754_finite false m e =>
      let nanos := if 0 <=? e then Zpos m * 2 ^ e * NANOS_PER_SEC
                   else round_half_even (Zpos m * NANOS_PER_SEC) (2 ^ (- e)) in
      if nanos <? (U64_MAX + 1) * NANOS_PER_SEC then Some nanos else None
  | _ => None
  end.

(** [Duration::as_secs_f64]. *)
Definition as_secs_f64 (d : Z) : f64 :=
  f64_add (f64_of_Z (d / NANOS_PER_SEC))
          (f64_div (f64_of_Z (d mod NANOS_PER_SEC)) (f64_of_Z NANOS_PER_SEC)).

(** [Duration::from_secs]. *)
Definition from_secs (s : Z) : Z := s * NANOS_PER_SEC.

(** ** Validated options *)
Definition MAX_NUMERIC_OPTION : Z := I32_MAX.
Definition MAX_DURATION_SECONDS : f64 := f64_of_Z 2147483647.

Definition integer_error (name : string) : string :=
  (name +:+ " must be an integer between 0 and " +:+ pretty MAX_NUMERIC_OPTION).
Definition seconds_error (name : string) : string :=
  (name +:+ " must be a finite number between 0 and " +:+ pretty MAX_NUMERIC_OPTION).

Definition validate_usize_option (name : string) (value : Z) : result Z string :=
  if value <=? MAX_NUMERIC_OPTION then Ok value else Err (integer_error name).

Definition validate_optional_usize_option (name : string) (value : option Z) :
  result (option Z) string :=
  match value with
  | None => Ok None
  | Some v => match validate_usize_option name v with Ok v' => Ok (Some v') | Err e => Err e end
  end.

(** The value inside [Ok] is [None] where the conversion would panic. *)
Definition duration_from_secs (name : string) (seconds : f64) : result (option Z) string :=
  if is_finite seconds && (SFleb f64_zero seconds && SFleb seconds MAX_DURATION_SECONDS)
  then Ok (from_secs_f64 seconds)
  else Err (seconds_error name).

Definition remaining_duration (name : string) (seconds : f64) (started now : Z) :
  result (option Z) string :=
  match duration_from_secs name seconds with
  | Ok duration => Ok ((fun d => saturating_sub d (elapsed started now)) <$> duration)
  | Err e => Err e
  end.

(** ** Well-formed numbers

    The mantissa of a number is below [2^53]; the operations keep it so, and a
    number built from non-negative operands is non-negative or a NaN. *)
Definition f64_ok (x : f64) : Prop :=
  match x with S754_finite _ m _ => Zpos m < 2 ^ prec | _ => True end.
Definition f64_nonneg (x : f64) : Prop :=
  match x with
  | S754_finite s _ _ => s = false
  | S754_infinity s => s = false
  | _ => True
  end.

Lemma digits2_pos_bound p : Zpos p < 2 ^ Zpos (digits2_pos p).
Proof.
  induction p as [p IH|p IH|]; cbn [digits2_pos]; try rewrite Pos2Z.inj_succ, Z.pow_succ_r by lia;
    lia.
Qed.

Lemma Zdigits2_bound m : 0 <= m -> m < 2 ^ Zdigits2 m.
Proof.
  destruct m as [|p|p]; cbn; [lia | intros _; apply digits2_pos_bound | lia].
Qed.

Lemma shr_1_m mrs : 0 <= shr_m mrs -> shr_m (shr_1 mrs) = shr_m mrs / 2.
Proof.
  destruct mrs as [[|[p|p|]|[p|p|]] r s]; cbn [shr_m shr_1]; intros H; try lia;
    Z.to_euclidean_division_equations; lia.
Qed.

Lemma iter_shr_m n mrs : 0 <= shr_m mrs ->
  shr_m (SpecFloat.iter_pos shr_1 n mrs) = shr_m mrs / 2 ^ Zpos n.
Proof.
  revert mrs; induction n as [n IH|n IH|]; intros mrs H; cbn [SpecFloat.iter_pos].
  - assert (H1 : 0 <= shr_m (shr_1 mrs)) by (rewrite shr_1_m by done; apply Z.div_pos; lia).
    assert (H2 : 0 <= shr_m (SpecFloat.iter_pos shr_1 n (shr_1 mrs))).
    { rewrite IH by done. apply Z.div_pos; lia. }
    rewrite !IH, shr_1_m, !Z.div_div by (try done; lia). f_equal.
    replace (Zpos n~1) with (1 + Zpos n + Zpos n) by lia.
    rewrite !Z.pow_add_r by lia. ring.
  - assert (H2 : 0 <= shr_m (SpecFloat.iter_pos shr_1 n mrs)).
    { rewrite IH by done. apply Z.div_pos; lia. }
    rewrite !IH, !Z.div_div by (try done; lia). f_equal.
    replace (Zpos n~0) with (Zpos n + Zpos n) by lia.
    rewrite Z.pow_add_r by lia. ring.
  - by rewrite shr_1_m.
Qed.

Lemma shr_record_of_loc_m m l : shr_m (shr_record_of_loc m l) = m.
Proof. by destruct l as [|[]]. Qed.

Lemma shr_fexp_bound m e l : 0 <= m ->
  0 <= shr_m (fst (shr_fexp prec emax m e l)) < 2 ^ prec.
Proof.
  intros Hm. pose proof (Zdigits2_bound m Hm) as Hd.
  unfold shr_fexp, shr. set (d := Zdigits2 m) in *.
  assert (Hf : d - prec <= fexp prec emax (d + e) - e) by (unfold fexp; lia).
  destruct (fexp prec emax (d + e) - e) as [|n|n] eqn:Hn; cbn [fst].
  - rewrite shr_record_of_loc_m. split; [done|].
    eapply Z.lt_le_trans; [exact Hd|]. apply Z.pow_le_mono_r; lia.
  - rewrite iter_shr_m; rewrite shr_record_of_loc_m; [|done].
    split; [apply Z.div_pos; lia|]. apply Z.div_lt_upper_bound; [lia|].
    eapply Z.lt_le_trans; [exact Hd|]. rewrite <- Z.pow_add_r by (unfold prec; lia).
    apply Z.pow_le_mono_r; lia.
  - rewrite shr_record_of_loc_m. split; [done|].
    eapply Z.lt_le_trans; [exact Hd|]. apply Z.pow_le_mono_r; lia.
Qed.

Lemma binary_round_aux_ok s m e l : 0 <= m -> f64_ok (binary_round_aux prec emax s m e l).
Proof.
  intros Hm. unfold binary_round_aux.
  pose proof (shr_fexp_bound m e l Hm) as H1.
  destruct (shr_fexp prec emax m e l) as [mrs' e']; cbn [fst] in H1.
  set (m2 := round_nearest_even (shr_m mrs') (loc_of_shr_record mrs')).
  assert (Hm2 : 0 <= m2).
  { unfold m2, round_nearest_even. repeat case_match; lia. }
  pose proof (shr_fexp_bound m2 e' loc_Exact Hm2) as H2.
  destruct (shr_fexp prec emax m2 e' loc_Exact) as [mrs'' e'']; cbn [fst] in H2.
  destruct (shr_m mrs'') as [|p|p]; cbn; try done.
  destruct (e'' <=? emax - prec); cbn; [lia|done].
Qed.

Lemma binary_round_aux_nonneg m e l : f64_nonneg (binary_round_aux prec emax false m e l).
Proof.
  unfold binary_round_aux. repeat case_match; done.
Qed.

Lemma binary_normalize_good m e : 0 <= m ->
  f64_ok (binary_normalize prec emax m e false) /\
  f64_nonneg (binary_normalize prec emax m e false).
Proof.
  intros Hm. destruct m as [|p|p]; cbn [binary_normalize]; [done| |lia].
  unfold binary_round. destruct (shl_align p e _) as [mz ez].
  split; [apply binary_round_aux_ok; lia | apply binary_round_aux_nonneg].
Qed.

Definition f64_good (x : f64) : Prop := f64_ok x /\ f64_nonneg x.

Lemma f64_of_Z_good z : 0 <= z -> f64_good (f64_of_Z z).
Proof. apply binary_normalize_good. Qed.

Lemma f64_mul_good x y : f64_good x -> f64_good y -> f64_good (f64_mul x y).
Proof.
  intros [_ Hx] [_ Hy]. unfold f64_good, f64_mul, SFmul.
  destruct x as [sx|sx| |sx mx ex], y as [sy|sy| |sy my ey]; cbn in *; subst; try done.
  split; [apply binary_round_aux_ok; lia | apply binary_round_aux_nonneg].
Qed.

Lemma f64_add_good x y : f64_good x -> f64_good y -> f64_good (f64_add x y).
Proof.
  intros Hx Hy. destruct (Hx) as [_ Nx]; destruct (Hy) as [_ Ny].
  unfold f64_add, SFadd.
  destruct x as [[]|sx| |sx mx ex], y as [[]|sy| |sy my ey]; cbn in Nx, Ny; subst; try done.
  apply binary_normalize_good. cbn [cond_Zopp]. lia.
Qed.

Lemma f64_div_good x my ey : f64_good x -> f64_good (f64_div x (S754_finite false my ey)).
Proof.
  intros [_ Hx]. unfold f64_good, f64_div, SFdiv.
  destruct x as [sx|sx| |sx mx ex]; cbn in Hx; subst; try done.
  destruct (SFdiv_core_binary prec emax (Zpos mx) ex (Zpos my) ey) as [[mz ez] lz] eqn:Hd.
  assert (Hz : 0 <= mz).
  { unfold SFdiv_core_binary in Hd.
    match type of Hd with context [Z.div_eucl ?a ?b] =>
      assert (Ha : 0 <= a) by (repeat case_match; try lia; by apply Z.shiftl_nonneg);
      pose proof (Z.div_pos a b Ha ltac:(lia)) as Hq; unfold Z.div in Hq;
      destruct (Z.div_eucl a b) as [q r] end.
    by injection Hd as <- _ _. }
  split; [by apply binary_round_aux_ok | apply binary_round_aux_nonneg].
Qed.

Lemma powi_pos_good a n : f64_good a -> f64_good (powi_pos a n).
Proof.
  revert a; induction n as [n IH|n IH|]; intros a Ha; cbn; [|by apply IH, f64_mul_good|done].
  apply f64_mul_good; [done|]. by apply IH, f64_mul_good.
Qed.

Lemma powi_good a n : f64_good a -> f64_good (powi a n).
Proof.
  intros Ha. destruct n; [by apply (f64_of_Z_good 1) | by apply powi_pos_good |
                          by apply (f64_of_Z_good 1)].
Qed.

Lemma as_secs_f64_good d : 0 <= d -> f64_good (as_secs_f64 d).
Proof.
  intros Hd. unfold as_secs_f64, NANOS_PER_SEC. apply f64_add_good.
  - apply f64_of_Z_good. by apply Z.div_pos.
  - change (f64_of_Z 1000000000) with (S754_finite false 8388608000000000 (-23)).
    apply f64_div_good, f64_of_Z_good, Z.mod_pos_bound. lia.
Qed.

Create HintDb f64.
#[export] Hint Resolve f64_mul_good f64_add_good f64_div_good powi_good as_secs_f64_good
  f64_of_Z_good : f64.

(** ** Conversion within the documented range *)

Lemma round_half_even_range num den K : 0 < den -> 0 <= num <= K * den ->
  0 <= round_half_even num den <= K.
Proof.
  intros Hden [Hn HK]. unfold round_half_even.
  pose proof (Z.div_pos num den Hn ltac:(lia)) as Hq.
  pose proof (Z.mod_pos_bound num den Hden) as Hr.
  pose proof (Z.div_mod num den ltac:(lia)) as Hdm.
  repeat case_match; nia.
Qed.

Lemma MAX_DURATION_SECONDS_eq :
  MAX_DURATION_SECONDS = S754_finite false 9007199250546688 (-22).
Proof. reflexivity. Qed.

(** A number at most [2147483647.0] converts to at most that many seconds. *)
Lemma from_secs_f64_max x :
  f64_good x -> SFltb MAX_DURATION_SECONDS x = false -> is_nan x = false ->
  exists d, from_secs_f64 x = Some d /\ 0 <= d <= 2147483647 * NANOS_PER_SEC.
Proof.
  intros [Hok Hnn] Hle Hnan. rewrite MAX_DURATION_SECONDS_eq in Hle.
  destruct x as [s|s| |s m e]; cbn in Hok, Hnn; subst; try done.
  { exists 0. unfold NANOS_PER_SEC. split; [done|lia]. }
  assert (Hm : e < -22 \/ (e = -22 /\ Zpos m <= 9007199250546688)).
  { unfold SFltb, SFcompare in Hle. destruct (Z.compare_spec (-22) e); [|done|lia].
    right. split; [done|].
    change (Pos.compare_cont Eq 9007199250546688 m) with (9007199250546688 ?= m)%positive in Hle.
    assert (Hc : (9007199250546688 ?= m)%positive <> Lt) by (intros Hlt; by rewrite Hlt in Hle).
    apply Pos.compare_nlt_iff, Pos.le_nlt in Hc. exact Hc. }
  assert (He : (0 <=? e) = false) by lia.
  cbn [from_secs_f64]. rewrite He.
  assert (Hr : 0 <= round_half_even (Zpos m * NANOS_PER_SEC) (2 ^ (- e))
               <= 2147483647 * NANOS_PER_SEC).
  { apply round_half_even_range; [apply Z.pow_pos_nonneg; lia|].
    unfold NANOS_PER_SEC, prec in *. split; [lia|]. destruct Hm as [Hlt|[-> Hm]].
    - assert (Hp : 2 ^ 23 <= 2 ^ (- e)) by (apply Z.pow_le_mono_r; lia). nia.
    - change (2 ^ (- -22)) with 4194304. lia. }
  destruct (Z.ltb_spec (round_half_even (Zpos m * NANOS_PER_SEC) (2 ^ (- e)))
              ((U64_MAX + 1) * NANOS_PER_SEC)) as [_|Hbig];
    [eauto | unfold U64_MAX, NANOS_PER_SEC in *; lia].
Qed.

Lemma SFleb_not_ltb x y : SFleb x y = true -> SFltb y x = false /\ is_nan x = false.
Proof.
  unfold SFleb, SFltb.
  destruct x as [sx|sx| |sx mx ex], y as [sy|sy| |sy my ey]; cbn;
    try (destruct sx, sy; done); try (destruct sx; done); try (destruct sy; done); try done.
  rewrite (Z.compare_antisym ex ey).
  change (Pos.compare_cont Eq mx my) with (mx ?= my)%positive.
  change (Pos.compare_cont Eq my mx) with (my ?= mx)%positive.
  rewrite (Pos.compare_antisym mx my).
  destruct sx, sy, (ex ?= ey), (mx ?= my)%positive; cbn; done.
Qed.

Lemma duration_from_secs_in_range name seconds d :
  f64_ok seconds -> duration_from_secs name seconds = Ok d ->
  exists nanos, d = Some nanos /\ 0 <= nanos <= MAX_NUMERIC_OPTION * NANOS_PER_SEC.
Proof.
  intros Hok. unfold duration_from_secs.
  destruct (is_finite seconds) eqn:Hf; cbn [andb]; [|done].
  destruct (SFleb f64_zero seconds) eqn:H0; cbn [andb]; [|done].
  destruct (SFleb seconds MAX_DURATION_SECONDS) eqn:H1; cbn [andb]; [|done].
  intros [= <-]. apply SFleb_not_ltb in H1 as [H1 Hn].
  apply from_secs_f64_max; [|done|done]. split; [done|].
  destruct seconds as [s|s| |s m e]; try done. by destruct s.
Qed.
