(* ===== verification/Policy.v ===== *)
(** * Policy data: requests, errors, transport routes

    [src/src/core/policy/{request,error,proxy}.rs] and the data of [ssrf.rs] the
    errors carry. *)

From S2P Require Import Prelude RustStr Http.
From stdpp Require Import pretty.

Local Open Scope Z_scope.
Local Open Scope string_scope.

(** ** Requests and responses as the policies see them *)

Inductive RequestBodyPolicy := BodyEmpty | BodyNonReplayable | BodyReplayable.
Inductive RequestBodyMutation := Drop | Preserve.

#[export] Instance RequestBodyPolicy_eq_dec : EqDecision RequestBodyPolicy.
Proof. solve_decision. Defined.
#[export] Instance RequestBodyMutation_eq_dec : EqDecision RequestBodyMutation.
Proof. solve_decision. Defined.

Definition from_request (has_body replayable : bool) : RequestBodyPolicy :=
  match has_body, replayable with
  | false, _ => BodyEmpty
  | true, true => BodyReplayable
  | true, false => BodyNonReplayable
  end.

Definition can_replay (body : RequestBodyPolicy) : bool :=
  negb (bool_decide (body = BodyNonReplayable)).

Record PolicyRequest `{UrlCrate} := {
  req_body : RequestBodyPolicy;
  req_method : string;
  req_url : HttpUrl;
}.

Record ResponseHead := { resp_headers : HeaderPairs; resp_status_code : Z }.

(** ** Errors *)

Inductive SsrfViolationReason :=
| DestinationNotAllowed
| NonPublicAddress
| ProxyResolutionUnsupported
| SchemeNotAllowed.

Record SsrfViolation := { target : string; reason : SsrfViolationReason }.

Definition ssrf_violation_proxy (origin : string) : SsrfViolation :=
  {| target := origin; reason := ProxyResolutionUnsupported |}.

Definition as_code (r : SsrfViolationReason) : string :=
  match r with
  | DestinationNotAllowed => "destination_not_allowed"
  | NonPublicAddress => "non_public_address"
  | ProxyResolutionUnsupported => "proxy_resolution_unsupported"
  | SchemeNotAllowed => "scheme_not_allowed"
  end.

Definition display_reason (r : SsrfViolationReason) : string :=
  match r with
  | DestinationNotAllowed => "destination is not allowlisted"
  | NonPublicAddress => "address is not publicly routable"
  | ProxyResolutionUnsupported => "proxy transport cannot guarantee local DNS validation"
  | SchemeNotAllowed => "scheme is not allowlisted"
  end.

Definition display_violation (v : SsrfViolation) : string :=
  "SSRF policy blocked target '" ++ target v ++ "' (" ++ display_reason (reason v) ++ ")".

Inductive PolicyError :=
| InvalidProxyPolicy (value : string)
| RedirectLimitExceeded (max_redirects : Z) (origin : string)
| HttpsToHttpRedirectBlocked
| NonReplayableRequestBodyRedirect
| ProxyRedirectPolicyRecomputeUnsupported
| PolicySsrfViolation (violation : SsrfViolation).

(** ** Proxy routing *)

Inductive TransportRoute := RouteDirect | RouteProxy.

#[export] Instance TransportRoute_eq_dec : EqDecision TransportRoute.
Proof. solve_decision. Defined.

Inductive ProxyPolicy :=
| Direct
| Explicit
| Environment (initial_origin : string) (initial_route : TransportRoute).

Section proxy.
Context `{UrlCrate}.

Definition proxy_parse (value : string) (initial_route : TransportRoute)
    (initial_url : HttpUrl) : result ProxyPolicy PolicyError :=
  if String.eqb value "direct" then Ok Direct
  else if String.eqb value "explicit_proxy" then Ok Explicit
  else if String.eqb value "environment_proxy" then
    Ok (Environment (origin initial_url) initial_route)
  else Err (InvalidProxyPolicy value).

Definition proxy_route (p : ProxyPolicy) (current_url : HttpUrl) :
    result TransportRoute PolicyError :=
  match p with
  | Direct => Ok RouteDirect
  | Explicit => Ok RouteProxy
  | Environment initial_origin initial_route =>
      if String.eqb (origin current_url) initial_origin then Ok initial_route
      else Err ProxyRedirectPolicyRecomputeUnsupported
  end.

Definition validate_redirect (p : ProxyPolicy) (next_url : HttpUrl) :
    result unit PolicyError :=
  match p with
  | Direct | Explicit => Ok tt
  | Environment initial_origin _ =>
      if String.eqb (origin next_url) initial_origin then Ok tt
      else Err ProxyRedirectPolicyRecomputeUnsupported
  end.

(** A redirect target that passed validation can be routed. *)
Lemma validate_redirect_routes p next_url :
  validate_redirect p next_url = Ok tt -> exists route, proxy_route p next_url = Ok route.
Proof.
  destruct p as [| |o r]; cbn; [eauto|eauto|].
  destruct (String.eqb (origin next_url) o); [eauto|done].
Qed.

(** The route of a configuration never changes during a request. *)
Lemma proxy_route_constant p u v r r' :
  proxy_route p u = Ok r -> proxy_route p v = Ok r' -> r = r'.
Proof. destruct p; cbn; repeat case_match; congruence. Qed.
End proxy.
