(* ===== verification/Redirect.v ===== *)
(** * Redirects

    [src/src/core/policy/redirect/*.rs]: which responses are redirects, the method
    and body of the next request, the security policy between the two URLs and the
    headers that survive. *)

From S2P Require Import Prelude RustStr Http Policy.
From Stdlib Require Import Ascii.

Local Open Scope Z_scope.
Local Open Scope string_scope.

(** ** Status and headers of the response *)

Definition MOVED_PERMANENTLY : Z := 301.
Definition FOUND : Z := 302.
Definition SEE_OTHER : Z := 303.
Definition TEMPORARY_REDIRECT : Z := 307.
Definition PERMANENT_REDIRECT : Z := 308.

Definition redirect_status_code `{HttpCrate} (status_code : Z) : option Z :=
  let_some code := status_code_from_u16 status_code else None in
  if bool_decide (code ∈ [MOVED_PERMANENTLY; FOUND; SEE_OTHER;
                          TEMPORARY_REDIRECT; PERMANENT_REDIRECT])
  then Some code else None.

(** The last header of that name wins. *)
Definition header_value (headers : HeaderPairs) (name : string) : option string :=
  snd <$> find (header_named name) (rev headers).

(** ** Method and body of the next request *)
Definition redirect_method (method : string) (status_code : Z) :
    option (string * RequestBodyMutation) :=
  if String.eqb method GET then Some (GET, Preserve)
  else if String.eqb method HEAD then Some (HEAD, Preserve)
  else if String.eqb method POST then
    if bool_decide (status_code ∈ [MOVED_PERMANENTLY; FOUND; SEE_OTHER]) then Some (GET, Drop)
    else if bool_decide (status_code ∈ [TEMPORARY_REDIRECT; PERMANENT_REDIRECT])
    then Some (POST, Preserve)
    else None
  else if String.eqb method QUERY then
    if bool_decide (status_code ∈ [MOVED_PERMANENTLY; FOUND;
                                   TEMPORARY_REDIRECT; PERMANENT_REDIRECT])
    then Some (QUERY, Preserve)
    else if (status_code =? SEE_OTHER)%Z then Some (GET, Drop)
    else None
  else None.

(** ** Header policy *)

Definition ALWAYS_REBUILT_HEADERS : list string :=
  ["connection"; "content-length"; "host"; "keep-alive"; "proxy-authorization";
   "proxy-connection"; "te"; "trailer"; "transfer-encoding"; "upgrade"].
Definition CONDITIONAL_HEADERS : list string :=
  ["if-match"; "if-modified-since"; "if-none-match"; "if-range"; "if-unmodified-since"].
Definition CONTENT_HEADER_PREFIX : string := "content-".
Definition REPRESENTATION_HEADERS : list string := ["digest"; "last-modified"; "repr-digest"].
Definition CROSS_ORIGIN_HEADERS : list string :=
  ["authorization"; "cookie"; "origin"; "referer"].

Inductive RedirectHeaderPolicy := SameOrigin | CrossOrigin.

#[export] Instance RedirectHeaderPolicy_eq_dec : EqDecision RedirectHeaderPolicy.
Proof. solve_decision. Defined.

Definition header_in (name : string) (headers : list string) : bool :=
  existsb (fun candidate => eq_ignore_ascii_case name candidate) headers.

(** [name.get(..n)]: the first [n] bytes, if they end on a character boundary. *)
Definition is_continuation_byte (c : ascii) : bool := ((128 <=? byte c) && (byte c <? 192))%Z.

Fixpoint get_prefix (n : nat) (s : string) : option string :=
  match n, s with
  | O, EmptyString => Some EmptyString
  | O, String c _ => if is_continuation_byte c then None else Some EmptyString
  | S _, EmptyString => None
  | S n', String c rest => String c <$> get_prefix n' rest
  end.

Definition is_content_metadata_header (name : string) : bool :=
  match get_prefix (String.length CONTENT_HEADER_PREFIX) name with
  | Some prefix => eq_ignore_ascii_case prefix CONTENT_HEADER_PREFIX
  | None => false
  end
  || header_in name REPRESENTATION_HEADERS.

Definition connection_options (headers : HeaderPairs) : list string :=
  filter (fun name => is_empty name = false)
    (trim <$> flat_map (fun h => split "," (snd h))
                (filter (fun h => header_named "connection" h = true) headers)).

Definition keep_redirect_header (name : string) (body : RequestBodyMutation)
    (policy : RedirectHeaderPolicy) (connection_options : list string) : bool :=
  if header_in name ALWAYS_REBUILT_HEADERS
     || header_in name CONDITIONAL_HEADERS
     || existsb (fun option => eq_ignore_ascii_case name option) connection_options
  then false
  else if bool_decide (body = Drop) && is_content_metadata_header name
  then false
  else negb (bool_decide (policy = CrossOrigin)) || negb (header_in name CROSS_ORIGIN_HEADERS).

Definition redirect_headers (headers : HeaderPairs) (body : RequestBodyMutation)
    (policy : RedirectHeaderPolicy) : HeaderPairs :=
  let connection_options := connection_options headers in
  filter (fun h => keep_redirect_header (fst h) body policy connection_options = true) headers.

(** ** Security policy between two URLs *)
Section security.
Context `{UrlCrate}.

Record RedirectSecurityPolicy := {
  block_error : option PolicyError;
  security_body : RequestBodyMutation;
  security_header_policy : RedirectHeaderPolicy;
}.

Definition is_https_to_http_redirect (current_url next_url : HttpUrl) : bool :=
  String.eqb (scheme current_url) "https" && String.eqb (scheme next_url) "http".

Definition redirect_security_policy (current_url next_url : HttpUrl)
    (body : RequestBodyMutation) : RedirectSecurityPolicy :=
  let header_policy := if is_same_origin current_url next_url then SameOrigin else CrossOrigin in
  let block_error := if is_https_to_http_redirect current_url next_url
                     then Some HttpsToHttpRedirectBlocked else None in
  let body := if bool_decide (body = Preserve) && bool_decide (header_policy = CrossOrigin)
              then Drop else body in
  {| block_error := block_error;
     security_body := body;
     security_header_policy := header_policy |}.

Record RedirectAction := {
  action_body : RequestBodyMutation;
  action_header_policy : RedirectHeaderPolicy;
  action_method : string;
  action_url : HttpUrl;
}.

Inductive RedirectDecision :=
| Block (error : PolicyError)
| Follow (action : RedirectAction).

Definition redirect_decision `{HttpCrate} (request : PolicyRequest) (response : ResponseHead) :
    option RedirectDecision :=
  let_some status_code := redirect_status_code (resp_status_code response) else None in
  let_some location := header_value (resp_headers response) "location" else None in
  let_some (next_method, body) := redirect_method (req_method request) status_code else None in
  match join (req_url request) location with
  | Err _ => None
  | Ok next_url =>
      let policy := redirect_security_policy (req_url request) next_url body in
      match block_error policy with
      | Some error => Some (Block error)
      | None =>
          Some (Follow {| action_body := security_body policy;
                          action_header_policy := security_header_policy policy;
                          action_method := next_method;
                          action_url := next_url |})
      end
  end.
End security.

(** ** Header filtering *)

Lemma header_in_spec name headers :
  header_in name headers = true <-> exists candidate, candidate ∈ headers /\ same_header_name name candidate.
Proof.
  unfold header_in. rewrite existsb_exists. unfold same_header_name.
  setoid_rewrite list_elem_of_In. done.
Qed.

Lemma header_in_proper name name' headers :
  same_header_name name name' -> header_in name headers = header_in name' headers.
Proof.
  intros Hn. unfold header_in. induction headers as [|h hs IH]; cbn; [done|].
  by rewrite IH, Hn.
Qed.

Lemma keep_redirect_header_inv name body policy options :
  keep_redirect_header name body policy options = true ->
  header_in name ALWAYS_REBUILT_HEADERS = false /\ header_in name CONDITIONAL_HEADERS = false /\ existsb (fun option => eq_ignore_ascii_case name option) options = false /\ (body = Drop -> is_content_metadata_header name = false) /\ (policy = CrossOrigin -> header_in name CROSS_ORIGIN_HEADERS = false).
Proof.
  unfold keep_redirect_header. intros Hk.
  destruct (header_in name ALWAYS_REBUILT_HEADERS); [done|].
  destruct (header_in name CONDITIONAL_HEADERS); [done|].
  destruct (existsb _ options); [done|]. cbn [orb] in Hk.
  destruct body, policy, (is_content_metadata_header name),
    (header_in name CROSS_ORIGIN_HEADERS); vm_compute in Hk; try discriminate Hk;
    repeat split; intros; congruence.
Qed.

Lemma redirect_headers_sublist headers body policy :
  redirect_headers headers body policy `sublist_of` headers.
Proof. apply sublist_filter. Qed.

Lemma elem_of_redirect_headers h headers body policy :
  h ∈ redirect_headers headers body policy <->
  h ∈ headers /\ keep_redirect_header (fst h) body policy (connection_options headers) = true.
Proof. unfold redirect_headers. rewrite list_elem_of_filter. tauto. Qed.

(** Without a [Connection] header there are no connection options. *)
Lemma connection_options_nil headers :
  (forall h, h ∈ headers -> header_named "connection" h = false) ->
  connection_options headers = [].
Proof.
  intros Hn. unfold connection_options.
  assert (Hf : filter (fun h => header_named "connection" h = true) headers = []).
  { induction headers as [|h hs IH]; [done|].
    rewrite filter_cons_False; [apply IH; set_solver|]. by rewrite Hn by set_solver. }
  by rewrite Hf.
Qed.

(** ** Properties *)

(** Headers the next hop must never see: credentials across origins, and the
    hop-by-hop headers always. *)
Definition hop_headers (headers : HeaderPairs) (hops : list (RequestBodyMutation * RedirectHeaderPolicy)) :
    HeaderPairs :=
  fold_left (fun hs '(body, policy) => redirect_headers hs body policy) hops headers.

Lemma hop_headers_subset headers hops h :
  h ∈ hop_headers headers hops -> h ∈ headers.
Proof.
  revert headers; induction hops as [|[body policy] hops IH]; intros headers; cbn; [done|].
  intros Hh%IH. by apply elem_of_redirect_headers in Hh as [].
Qed.

(** along any sequence of redirects, once one of the hops crosses origins no
    remaining header is (in any letter case) a credential header, and after any hop
    none is a connection-management or conditional header; every header that
    remains was in the original request. *)
Theorem redirect_chain_strips_credentials headers hops h :
  h ∈ hop_headers headers hops ->
  h ∈ headers /\
  (hops <> [] -> header_in (fst h)
     ["connection"; "content-length"; "host"; "keep-alive"; "proxy-authorization";
      "proxy-connection"; "te"; "trailer"; "transfer-encoding"; "upgrade"; "if-match";
      "if-modified-since"; "if-none-match"; "if-range"; "if-unmodified-since"] = false) /\
  ((exists body, (body, CrossOrigin) ∈ hops) ->
     header_in (fst h) ["authorization"; "cookie"; "origin"; "referer"] = false).
Proof.
  intros Hh. split; [by eapply hop_headers_subset|].
  revert headers Hh; induction hops as [|[body policy] hops IH]; intros headers Hh.
  { split; [done|]. intros [b Hb]. set_solver. }
  cbn in Hh. specialize (IH _ Hh). apply hop_headers_subset in Hh.
  apply elem_of_redirect_headers in Hh as [_ Hk].
  apply keep_redirect_header_inv in Hk as (Ha & Hc & _ & _ & Hx). split.
  - intros _. change (header_in (fst h) (ALWAYS_REBUILT_HEADERS ++ CONDITIONAL_HEADERS) = false).
    unfold header_in in *. by rewrite existsb_app, Ha, Hc.
  - intros [b [Hb | Hb]%elem_of_cons]; [injection Hb as _ <-; by apply Hx|].
    apply IH. by exists b.
Qed.

(** Filtering the headers of a redirect twice is filtering them once: no kept
    header depends on one that was removed. *)
Theorem redirect_headers_idempotent headers body policy :
  redirect_headers (redirect_headers headers body policy) body policy =
  redirect_headers headers body policy.
Proof.
  set (kept := redirect_headers headers body policy).
  unfold redirect_headers at 1. rewrite connection_options_nil.
  - unfold kept, redirect_headers. apply list_filter_filter_r. intros h Hk.
    apply keep_redirect_header_inv in Hk as (Ha & Hc & _ & Hd & Hx).
    unfold keep_redirect_header. rewrite Ha, Hc. cbn [orb existsb].
    destruct body, policy; rewrite ?Hd, ?Hx by done; done.
  - intros h Hh. apply elem_of_redirect_headers in Hh as [_ Hk].
    apply keep_redirect_header_inv in Hk as (Ha & _).
    unfold header_named. cbn in Ha. by apply orb_false_iff in Ha as [Ha _].
Qed.

Section decision.
Context `{UrlCrate} `{HttpCrate}.

(** What a followed redirect guarantees: an https page never leads to http, the
    headers are filtered as cross-origin exactly when scheme, host or port changes, a
    cross-origin redirect carries no body, a kept body goes with an unchanged method,
    and the target is a supported URL with a host. *)
Lemma redirect_decision_follow_facts request response action :
  redirect_decision request response = Some (Follow action) ->
  ~ (scheme (req_url request) = "https" /\ scheme (action_url action) = "http") /\
  (action_header_policy action = SameOrigin <->
   is_same_origin (req_url request) (action_url action) = true) /\
  (action_header_policy action = CrossOrigin -> action_body action = Drop) /\
  (action_body action = Preserve -> action_method action = req_method request) /\
  validated (action_url action).
Proof.
  unfold redirect_decision.
  destruct (redirect_status_code _) as [code|]; [|done].
  destruct (header_value _ _) as [location|]; [|done].
  destruct (redirect_method _ _) as [[next_method body]|] eqn:Hm; [|done].
  destruct (join _ _) as [next_url|e] eqn:Hj; [|done]. cbn.
  destruct (is_https_to_http_redirect _ _) eqn:Hs; [done|].
  intros [= <-]; cbn. split_and!.
  - intros [Hc Hn]. unfold is_https_to_http_redirect in Hs. by rewrite Hc, Hn in Hs.
  - destruct (is_same_origin _ _); done.
  - destruct (is_same_origin _ _); [done|]. by destruct body.
  - intros Hb. assert (body = Preserve) as -> by (destruct body, (is_same_origin _ _); done).
    unfold redirect_method in Hm. repeat case_match; simplify_eq;
      by match goal with E : String.eqb _ _ = true |- _ => apply String.eqb_eq in E end.
  - by eapply join_validates.
Qed.

End decision.

(** ** Evaluation on concrete messages *)
Definition sample_headers : HeaderPairs :=
  [("Authorization", "Bearer t"); ("Accept", "*/*"); ("X-Hop", "1"); ("Connection", "x-hop")].

Lemma redirect_chain_strips_credentials_witness :
  ("Accept", "*/*") ∈ hop_headers sample_headers [(Preserve, SameOrigin); (Drop, CrossOrigin)] /\
  header_in "Accept" CROSS_ORIGIN_HEADERS = false.
Proof.
  assert (Hh : ("Accept", "*/*") ∈
                 hop_headers sample_headers [(Preserve, SameOrigin); (Drop, CrossOrigin)]).
  { replace (hop_headers sample_headers [(Preserve, SameOrigin); (Drop, CrossOrigin)])
      with [("Accept", "*/*")] by (vm_compute; reflexivity). apply list_elem_of_here. }
  split; [exact Hh|].
  apply (redirect_chain_strips_credentials _ _ _ Hh). exists Drop.
  apply list_elem_of_further, list_elem_of_here.
Defined.

Definition sample_request : @PolicyRequest simple_url_crate :=
  Build_PolicyRequest simple_url_crate BodyReplayable "POST"
    (simple_http_url "https" "a.example" "/").
Definition sample_redirect : ResponseHead :=
  {| resp_headers := [("location", "https://b.example/next")]; resp_status_code := 307 |}.
Definition sample_action : @RedirectAction simple_url_crate :=
  Build_RedirectAction (H := simple_url_crate) Drop CrossOrigin "POST"
    (simple_http_url "https" "b.example" "/next").
