(* ===== verification/Retry.v ===== *)
(** * Retries

    [src/src/core/policy/retry.rs].  Whether a response or a network error is
    retried and after what delay.  [httpdate] is the parameter [parse_http_date];
    a [SystemTime] is its number of nanoseconds since the epoch. *)

From S2P Require Import Prelude RustStr Http Policy Numeric.
From Stdlib Require Import SpecFloat.

Local Open Scope Z_scope.
Local Open Scope string_scope.

Class HttpDate := { parse_http_date : string -> option Z }.

Definition MAX_RETRY_DELAY : Z := from_secs MAX_NUMERIC_OPTION.
Definition RETRY_AFTER : string := "retry-after".

Record RetryPolicy := {
  retries : Z;
  backoff : Z;
  jitter : Z;
  statuses : gset Z;
  methods : gset string;
  network_errors : bool;
}.

Inductive RetryStopReason := MethodNotAllowed | NonReplayableBody | RetriesExhausted.
Inductive RetryDecision := Retry (delay : Z) | Stop (reason : RetryStopReason).

(** ** Construction *)

Definition validate_statuses (statuses : list Z) : result (gset Z) string :=
  if forallb (fun status => ((100 <=? status) && (status <=? 599))%Z) statuses
  then Ok (list_to_set statuses)
  else Err "RetryConditions.statuses must contain values between 100 and 599".

Definition validate_methods `{HttpCrate} (methods : list string) : result (gset string) string :=
  match collect_results
          ((fun method =>
              match method_from_bytes method with
              | Some m => Ok (to_ascii_uppercase m)
              | None => Err "RetryPolicy.methods must contain valid HTTP method tokens"
              end) <$> methods) with
  | Ok ms => Ok (list_to_set ms)
  | Err e => Err e
  end.

(** [None] inside [Ok] is a panic of the conversion of a number of seconds; it does
    not occur for a policy of well-formed numbers. *)
Definition retry_policy_new `{HttpCrate} (retries : Z) (backoff jitter : f64)
    (statuses : list Z) (methods : list string) (network_errors : bool) :
    result (option RetryPolicy) string :=
  let? retries := validate_usize_option "RetryPolicy.retries" retries in
  let? backoff := duration_from_secs "RetryPolicy.backoff" backoff in
  let? jitter := duration_from_secs "RetryPolicy.jitter" jitter in
  let? statuses := validate_statuses statuses in
  let? methods := validate_methods methods in
  Ok (backoff ≫= fun backoff => jitter ≫= fun jitter =>
        Some {| retries := retries; backoff := backoff; jitter := jitter;
                statuses := statuses; methods := methods; network_errors := network_errors |}).

(** ** The delay *)

Definition delay (p : RetryPolicy) (completed_retries : Z) (jitter_sample : f64) : option Z :=
  let exponent := Z.min completed_retries I32_MAX in
  let exponential := f64_mul (as_secs_f64 (backoff p)) (powi (f64_of_Z 2) exponent) in
  let jitter := f64_mul (as_secs_f64 (jitter p)) (f64_clamp jitter_sample f64_zero (f64_of_Z 1)) in
  from_secs_f64 (f64_min (f64_add exponential jitter) (as_secs_f64 MAX_RETRY_DELAY)).

Section retry.
Context `{UrlCrate} `{HttpDate}.

Definition parse_retry_after (value : string) (now : Z) : option Z :=
  match parse_u64 value with
  | Some seconds => Some (from_secs seconds)
  | None =>
      (* a deadline in the past is [Duration::ZERO] *)
      (fun deadline => if (now <=? deadline)%Z then (deadline - now)%Z else 0%Z)
        <$> parse_http_date value
  end.

Fixpoint find_map {A B} (f : A -> option B) (l : list A) : option B :=
  match l with
  | [] => None
  | a :: rest => match f a with Some b => Some b | None => find_map f rest end
  end.

Definition retry_after (headers : HeaderPairs) (now : Z) : option Z :=
  find_map (fun h => parse_retry_after (trim (snd h)) now)
    (filter (fun h => header_named RETRY_AFTER h = true) headers).

(** [None] is a panic. *)
Definition decision (p : RetryPolicy) (request : PolicyRequest) (completed_retries : Z)
    (jitter_sample : f64) (minimum_delay : option Z) : option RetryDecision :=
  if negb (can_replay (req_body request)) then Some (Stop NonReplayableBody)
  else if negb (bool_decide (req_method request ∈ methods p)) then Some (Stop MethodNotAllowed)
  else if (retries p <=? completed_retries)%Z then Some (Stop RetriesExhausted)
  else
    configured_delay ← delay p completed_retries jitter_sample;
    let delay := Z.min (match minimum_delay with
                        | None => configured_delay
                        | Some d => Z.max d configured_delay
                        end) MAX_RETRY_DELAY in
    Some (Retry delay).

Definition on_response (p : RetryPolicy) (request : PolicyRequest) (response : ResponseHead)
    (completed_retries : Z) (jitter_sample : f64) (now : Z) : option (option RetryDecision) :=
  if bool_decide (resp_status_code response ∈ statuses p)
  then Some (decision p request completed_retries jitter_sample
               (retry_after (resp_headers response) now))
  else None.

Definition on_network_error (p : RetryPolicy) (request : PolicyRequest)
    (completed_retries : Z) (jitter_sample : f64) : option (option RetryDecision) :=
  if network_errors p then Some (decision p request completed_retries jitter_sample None)
  else None.
End retry.

(** ** Well-formed policies *)

(** What [RetryPolicy::new] establishes. *)
Definition retry_policy_wf (p : RetryPolicy) : Prop :=
  retries p <= MAX_NUMERIC_OPTION /\
  0 <= backoff p <= MAX_RETRY_DELAY /\
  0 <= jitter p <= MAX_RETRY_DELAY /\
  (forall status, status ∈ statuses p -> (100 <= status <= 599)%Z).

Lemma validate_statuses_range l s status :
  validate_statuses l = Ok s -> status ∈ s -> (100 <= status <= 599)%Z.
Proof.
  unfold validate_statuses. destruct (forallb _ l) eqn:Hf; [|done].
  intros [= <-] Hs%elem_of_list_to_set. rewrite forallb_forall in Hf.
  specialize (Hf status). rewrite <- list_elem_of_In in Hf. specialize (Hf Hs). lia.
Qed.

(** a policy built from well-formed numbers never panics in the conversions and
    has every option in its documented range. *)
Theorem retry_policy_new_wf `{HttpCrate} n b j ss ms ne r :
  f64_ok b -> f64_ok j -> retry_policy_new n b j ss ms ne = Ok r ->
  exists p, r = Some p /\ retry_policy_wf p /\ network_errors p = ne.
Proof.
  intros Hb Hj. unfold retry_policy_new.
  destruct (validate_usize_option _ n) as [n'|] eqn:Hn; [|done].
  destruct (duration_from_secs _ b) as [b'|] eqn:Eb; [|done].
  destruct (duration_from_secs _ j) as [j'|] eqn:Ej; [|done].
  destruct (validate_statuses ss) as [ss'|] eqn:Es; [|done].
  destruct (validate_methods ms) as [ms'|]; [|done]. intros [= <-].
  apply duration_from_secs_in_range in Eb as (nb & -> & Hnb); [|done].
  apply duration_from_secs_in_range in Ej as (nj & -> & Hnj); [|done].
  eexists; split; [done|]. split; [|done]. unfold retry_policy_wf; cbn. split_and!.
  - unfold validate_usize_option in Hn. case_match; [|done]. injection Hn as <-. lia.
  - apply Hnb.
  - apply Hnb.
  - apply Hnj.
  - apply Hnj.
  - intros status. by eapply validate_statuses_range.
Qed.

(** Each field of the policy is the argument of its name, the methods in capitals. *)
Lemma retry_policy_new_fields `{HttpCrate} n b j ss ms ne p :
  retry_policy_new n b j ss ms ne = Ok (Some p) ->
  retries p = n /\ duration_from_secs "RetryPolicy.backoff" b = Ok (Some (backoff p)) /\
  duration_from_secs "RetryPolicy.jitter" j = Ok (Some (jitter p)) /\ statuses p = list_to_set ss /\
  (exists names, Forall2 (fun method name => method_from_bytes method = Some name) ms names /\
     methods p = list_to_set (to_ascii_uppercase <$> names)) /\
  network_errors p = ne.
Proof.
  unfold retry_policy_new, validate_usize_option, validate_statuses, validate_methods.
  destruct (n <=? MAX_NUMERIC_OPTION)%Z; [|done].
  destruct (duration_from_secs _ b) as [[b'|]|]; [| |done]; (destruct (duration_from_secs _ j) as [[j'|]|]; [| |done]);
    (destruct (forallb _ ss); [|done]); (destruct (collect_results _) as [names|] eqn:Hms; [|done]); try done.
  intros [= <-]. cbn. split_and!; try done. apply collect_results_Ok in Hms. clear -Hms.
  cut (exists ns, Forall2 (fun method name => method_from_bytes method = Some name) ms ns /\ names = to_ascii_uppercase <$> ns).
  { intros (ns & Hns & ->). by exists ns. }
  revert names Hms. induction ms as [|m ms IH]; cbn; intros names Hms.
  - apply Forall2_nil_inv_l in Hms as ->. by exists [].
  - apply Forall2_cons_inv_l in Hms as (name & names' & Hm & (ns & Hns & ->)%IH & ->).
    destruct (method_from_bytes m) as [m'|] eqn:Em; [|done]. injection Hm as <-. exists (m' :: ns). split; [by constructor|done].
Qed.

Lemma f64_clamp_unit_good x : f64_ok x -> f64_good (f64_clamp x f64_zero (f64_of_Z 1)).
Proof.
  intros Hx. unfold f64_clamp.
  destruct (SFltb x f64_zero) eqn:H0; [done|].
  destruct (SFltb (f64_of_Z 1) x); [by apply (f64_of_Z_good 1)|].
  split; [done|]. destruct x as [s|s| |s m e]; try done; by destruct s.
Qed.

(** The delay of a well-formed policy is always defined, and bounded. *)
Lemma delay_total p n x : retry_policy_wf p -> f64_ok x ->
  exists d, delay p n x = Some d /\ 0 <= d <= MAX_RETRY_DELAY.
Proof.
  intros (_ & Hb & Hj & _) Hx. unfold delay.
  set (a := f64_mul (as_secs_f64 (backoff p)) _). set (b := f64_mul (as_secs_f64 (jitter p)) _).
  assert (Hg : f64_good (f64_add a b)).
  { apply f64_add_good; apply f64_mul_good; try (apply as_secs_f64_good; lia).
    - apply powi_good, f64_of_Z_good. lia.
    - by apply f64_clamp_unit_good. }
  change (as_secs_f64 MAX_RETRY_DELAY) with MAX_DURATION_SECONDS.
  apply from_secs_f64_max; unfold f64_min.
  - repeat case_match; try done; by apply (f64_of_Z_good 2147483647).
  - destruct (is_nan (f64_add a b)) eqn:Hn; [done|].
    change (is_nan MAX_DURATION_SECONDS) with false. cbn match.
    by destruct (SFltb MAX_DURATION_SECONDS (f64_add a b)) eqn:Hl.
  - destruct (is_nan (f64_add a b)) eqn:Hn; [done|].
    change (is_nan MAX_DURATION_SECONDS) with false. cbn match.
    by destruct (SFltb MAX_DURATION_SECONDS (f64_add a b)).
Qed.

(** ** Properties *)

(** a retry decision is always reached (no conversion panics), the stop reasons
    have the code's priority, a retry happens only for a replayable body, an allowed
    method and a remaining attempt, and its delay is at least the server's
    Retry-After (up to the maximum) and at most the maximum. *)
Theorem decision_correct `{UrlCrate} p request completed sample minimum :
  retry_policy_wf p -> f64_ok sample -> (forall m, minimum = Some m -> 0 <= m) ->
  exists d, decision p request completed sample minimum = Some d /\
  match d with
  | Stop NonReplayableBody => req_body request = BodyNonReplayable
  | Stop MethodNotAllowed =>
      req_body request <> BodyNonReplayable /\ req_method request ∉ methods p
  | Stop RetriesExhausted =>
      req_body request <> BodyNonReplayable /\ req_method request ∈ methods p /\
      retries p <= completed
  | Retry delay =>
      req_body request <> BodyNonReplayable /\ req_method request ∈ methods p /\
      completed < retries p /\ 0 <= delay <= MAX_RETRY_DELAY /\
      (forall m, minimum = Some m -> Z.min m MAX_RETRY_DELAY <= delay)
  end.
Proof.
  intros Hwf Hs Hmin. unfold decision, can_replay.
  case_bool_decide as Hb; cbn [negb]; [eexists; split; [done|]; done|].
  case_bool_decide as Hm; cbn [negb]; [|eexists; split; [done|]; done].
  destruct (Z.leb_spec (retries p) completed) as [Hr|Hr]; [eexists; split; [done|]; done|].
  destruct (delay_total p completed sample Hwf Hs) as (d & -> & Hd). cbn.
  eexists; split; [done|]. cbn. split_and!; try done; try lia.
  - destruct minimum as [m|]; [|lia]. specialize (Hmin m eq_refl). lia.
  - intros m ->. lia.
Qed.

(** [2.0.powi(n)] overflows to infinity from [n = 1024] on. *)
Definition f64_positive (x : f64) : bool :=
  match x with S754_finite false _ _ | S754_infinity false => true | _ => false end.

Lemma f64_mul_infinity x : f64_positive x = true ->
  f64_mul x (S754_infinity false) = S754_infinity false.
Proof. by destruct x as [|[]| |[]]. Qed.

Fixpoint squares_overflow (k : nat) (x : f64) : bool :=
  match k with
  | O => match x with S754_infinity false => true | _ => false end
  | S k' => f64_positive x && squares_overflow k' (f64_mul x x)
  end.

Lemma powi_infinity n : powi_pos (S754_infinity false) n = S754_infinity false.
Proof. induction n as [n IH|n IH|]; cbn [powi_pos]; [|apply IH|done]. change (f64_mul (S754_infinity false) (S754_infinity false)) with (S754_infinity false). by rewrite IH. Qed.

Lemma powi_pos_overflow k x n :
  squares_overflow k x = true -> 2 ^ Z.of_nat k <= Zpos n ->
  powi_pos x n = S754_infinity false.
Proof.
  revert x n; induction k as [|k IH]; intros x n Hk Hn; cbn [squares_overflow] in Hk.
  { destruct x as [|[]| |[]]; try done. apply powi_infinity. }
  apply andb_true_iff in Hk as [Hp Hk].
  rewrite Nat2Z.inj_succ, Z.pow_succ_r in Hn by lia.
  assert (0 < 2 ^ Z.of_nat k) by (apply Z.pow_pos_nonneg; lia).
  destruct n as [n|n|]; cbn [powi_pos]; [| |lia].
  - rewrite (IH _ n Hk) by lia. by apply f64_mul_infinity.
  - apply IH; [done|lia].
Qed.

Lemma powi_two_overflow n : 1024 <= n -> powi (f64_of_Z 2) n = S754_infinity false.
Proof.
  intros Hn. destruct n as [|n|n]; [lia| |lia]. apply (powi_pos_overflow 10); [reflexivity|done].
Qed.

(** C40: With a zero backoff the exponential term is [0 * infinity], a NaN, once
    1024 retries are completed, and the delay becomes the maximum (2147483647 s)
    instead of the jitter alone. *)
Theorem zero_backoff_delay_overflows p completed sample :
  backoff p = 0 -> 1024 <= completed -> delay p completed sample = Some MAX_RETRY_DELAY.
Proof.
  intros Hb Hc. unfold delay. rewrite Hb, powi_two_overflow by (unfold I32_MAX; lia).
  change (as_secs_f64 0) with (S754_zero false).
  change (f64_mul (S754_zero false) (S754_infinity false)) with S754_nan.
  reflexivity.
Qed.

Definition zero_backoff_policy : RetryPolicy :=
  {| retries := 2000; backoff := 0; jitter := 0; statuses := {[503]}; methods := {["GET"]};
     network_errors := true |}.

Lemma zero_backoff_delay_overflows_witness :
  delay zero_backoff_policy 1023 f64_zero = Some 0 /\
  delay zero_backoff_policy 1024 f64_zero = Some MAX_RETRY_DELAY.
Proof. split; [reflexivity|]. apply zero_backoff_delay_overflows; [reflexivity|lia]. Defined.

Lemma retry_policy_new_wf_witness :
  exists p, retry_policy_new (H := pair_http_crate) 3 (f64_of_Z 1) f64_zero [503] ["get"] true
            = Ok (Some p) /\ retry_policy_wf p /\ network_errors p = true.
Proof.
  destruct (retry_policy_new_wf (H := pair_http_crate) 3 (f64_of_Z 1) f64_zero [503] ["get"] true
    (match retry_policy_new (H := pair_http_crate) 3 (f64_of_Z 1) f64_zero [503] ["get"] true
     with Ok r => r | Err _ => None end)) as (p & Hp & Hwf).
  - by apply (f64_of_Z_good 1).
  - done.
  - vm_compute. reflexivity.
  - exists p. split; [|exact Hwf]. rewrite <- Hp. vm_compute. reflexivity.
Defined.

Lemma decision_correct_witness :
  let p := {| retries := 2; backoff := 100000000; jitter := 0; statuses := {[503]};
              methods := {["GET"]}; network_errors := true |} in
  let request := Build_PolicyRequest simple_url_crate BodyEmpty "GET"
                   (simple_http_url "https" "a.example" "/") in
  decision (H := simple_url_crate) p request 1 f64_zero (Some 1000000000) = Some (Retry 1000000000) /\
  exists d, decision (H := simple_url_crate) p request 1 f64_zero (Some 1000000000) = Some d.
Proof.
  cbv zeta. split; [vm_compute; reflexivity|].
  edestruct (decision_correct (H := simple_url_crate)
    {| retries := 2; backoff := 100000000; jitter := 0; statuses := {[503]};
       methods := {["GET"]}; network_errors := true |}
    (Build_PolicyRequest simple_url_crate BodyEmpty "GET" (simple_http_url "https" "a.example" "/"))
    1 f64_zero (Some 1000000000)) as (d & Hd & _).
  - unfold retry_policy_wf, MAX_RETRY_DELAY, from_secs, MAX_NUMERIC_OPTION, I32_MAX, NANOS_PER_SEC; cbn.
    split_and!; try lia. intros status ->%elem_of_singleton. lia.
  - done.
  - intros m [= <-]. lia.
  - exists d. exact Hd.
Defined.
