(* ===== verification/IpAddr.v ===== *)
(** * IP addresses of the Rust standard library

    [std::net]: an [Ipv4Addr] is the [u32] of its octets and an [Ipv6Addr] the
    [u128] of its segments, both as [Z].  The predicates and the textual parser
    are those of the standard library; only what the client calls is here. *)

From S2P Require Import Prelude RustStr.
From Stdlib Require Import Ascii.
From Stdlib Require String.

Local Open Scope Z_scope.
Local Open Scope string_scope.

Inductive IpAddr :=
| V4 (address : Z)
| V6 (address : Z).

#[export] Instance IpAddr_eq_dec : EqDecision IpAddr.
Proof. solve_decision. Defined.

Definition U32_MAX : Z := 2 ^ 32 - 1.
Definition U128_MAX : Z := 2 ^ 128 - 1.

Definition ipv4_new (a b c d : Z) : Z := a * 2 ^ 24 + b * 2 ^ 16 + c * 2 ^ 8 + d.
Definition ipv6_new (a b c d e f g h : Z) : Z :=
  a * 2 ^ 112 + b * 2 ^ 96 + c * 2 ^ 80 + d * 2 ^ 64 + e * 2 ^ 48 + f * 2 ^ 32 + g * 2 ^ 16 + h.

(** Octet [i] of an address of [n] octets, the most significant first. *)
Definition octet (n i address : Z) : Z := address / 2 ^ (8 * (n - 1 - i)) mod 256.
Definition octets4 (address : Z) : Z * Z * Z * Z :=
  (octet 4 0 address, octet 4 1 address, octet 4 2 address, octet 4 3 address).
Definition segment0 (address : Z) : Z := address / 2 ^ 112 mod 65536.

Definition is_loopback_v4 (a : Z) : bool := (octet 4 0 a =? 127)%Z.
Definition is_private (a : Z) : bool :=
  let '(o0, o1, _, _) := octets4 a in
  ((o0 =? 10) || ((o0 =? 172) && ((16 <=? o1) && (o1 <=? 31))) || ((o0 =? 192) && (o1 =? 168)))%Z.
Definition is_link_local (a : Z) : bool :=
  let '(o0, o1, _, _) := octets4 a in ((o0 =? 169) && (o1 =? 254))%Z.
Definition is_multicast_v4 (a : Z) : bool :=
  ((224 <=? octet 4 0 a) && (octet 4 0 a <=? 239))%Z.
Definition is_unspecified_v4 (a : Z) : bool := (a =? 0)%Z.

Definition is_loopback_v6 (a : Z) : bool := (a =? 1)%Z.
Definition is_unique_local (a : Z) : bool := (Z.land (segment0 a) 65024 =? 64512)%Z.
Definition is_unicast_link_local (a : Z) : bool := (Z.land (segment0 a) 65472 =? 65152)%Z.
Definition is_multicast_v6 (a : Z) : bool := (octet 16 0 a =? 255)%Z.
Definition is_unspecified_v6 (a : Z) : bool := (a =? 0)%Z.

(** [IpAddr::to_canonical]: an IPv4-mapped address [::ffff:a.b.c.d] is its IPv4
    address. *)
Definition to_canonical (address : IpAddr) : IpAddr :=
  match address with
  | V4 a => V4 a
  | V6 a => if (a / 2 ^ 32 =? 65535)%Z then V4 (a mod 2 ^ 32) else V6 a
  end.

(** ** [str::parse::<IpAddr>]

    The recursive descent parser of [core::net::parser]; the parser state is the
    rest of the input. *)

Definition to_digit (radix : Z) (c : ascii) : option Z :=
  let b := byte c in
  let d := if is_ascii_digit c then Some (b - 48)
           else if is_ascii_lowercase c then Some (b - 87)
           else if is_ascii_uppercase c then Some (b - 55) else None in
  match d with Some v => if (v <? radix)%Z then Some v else None | None => None end.

(** The digits at the front of the input, and the rest. *)
Fixpoint read_digits (radix : Z) (s : string) : list Z * string :=
  match s with
  | EmptyString => ([], s)
  | String c rest =>
      match to_digit radix c with
      | Some d => let (ds, after) := read_digits radix rest in (d :: ds, after)
      | None => ([], s)
      end
  end.

Definition read_number (radix : Z) (max_digits : nat) (max_value : Z)
    (allow_zero_prefix : bool) (s : string) : option (Z * string) :=
  let (ds, rest) := read_digits radix s in
  let value := fold_left (fun acc d => radix * acc + d) ds 0 in
  if (length ds =? 0)%nat then None
  else if (max_digits <? length ds)%nat then None
  else if (max_value <? value)%Z then None
  else if negb allow_zero_prefix && bool_decide (head ds = Some 0%Z) && (1 <? length ds)%nat
  then None
  else Some (value, rest).

Definition read_given_char (c : ascii) (s : string) : option string :=
  match s with
  | String d rest => if Ascii.eqb c d then Some rest else None
  | EmptyString => None
  end.

Definition read_separator {A} (sep : ascii) (index : nat)
    (inner : string -> option (A * string)) (s : string) : option (A * string) :=
  match index with
  | O => inner s
  | S _ => rest ← read_given_char sep s; inner rest
  end.

Definition read_octet : string -> option (Z * string) := read_number 10 3 255 false.

Definition read_ipv4_addr (s : string) : option (Z * string) :=
  '(a, s) ← read_separator "." 0 read_octet s;
  '(b, s) ← read_separator "." 1 read_octet s;
  '(c, s) ← read_separator "." 2 read_octet s;
  '(d, s) ← read_separator "." 3 read_octet s;
  Some (ipv4_new a b c d, s).

(** [read_groups] with [fuel] groups left, the next of index [i]: the groups read,
    whether an IPv4 tail was read, and the rest of the input. *)
Fixpoint read_groups (fuel i : nat) (s : string) : list Z * bool * string :=
  match fuel with
  | O => ([], false, s)
  | S fuel' =>
      let v4 := match fuel' with
                | O => None
                | S _ => read_separator ":" i read_ipv4_addr s
                end in
      match v4 with
      | Some (a, rest) => ([(a / 2 ^ 16)%Z; (a mod 2 ^ 16)%Z], true, rest)
      | None =>
          match read_separator ":" i (read_number 16 4 65535 true) s with
          | Some (g, rest) =>
              let '(gs, tail_v4, rest) := read_groups fuel' (S i) rest in
              (g :: gs, tail_v4, rest)
          | None => ([], false, s)
          end
      end
  end.

Definition ipv6_of_groups (gs : list Z) : Z := fold_left (fun acc g => 2 ^ 16 * acc + g)%Z gs 0.

Definition read_ipv6_addr (s : string) : option (Z * string) :=
  let '(head, head_ipv4, rest) := read_groups 8 0 s in
  if (length head =? 8)%nat then Some (ipv6_of_groups head, rest)
  else if head_ipv4 then None
  else
    rest ← read_given_char ":" rest;
    rest ← read_given_char ":" rest;
    let '(tail, _, rest) := read_groups (8 - (length head + 1)) 0 rest in
    Some (ipv6_of_groups
            (head ++ repeat 0%Z (8 - length head - length tail) ++ tail), rest).

Definition read_ip_addr (s : string) : option (IpAddr * string) :=
  match read_ipv4_addr s with
  | Some (a, rest) => Some (V4 a, rest)
  | None => '(a, rest) ← read_ipv6_addr s; Some (V6 a, rest)
  end.

Definition parse_ip_addr (s : string) : option IpAddr :=
  match read_ip_addr s with
  | Some (address, EmptyString) => Some address
  | _ => None
  end.

Definition is_loopback (address : IpAddr) : bool :=
  match address with V4 a => is_loopback_v4 a | V6 a => is_loopback_v6 a end.

(** ** [Display for IpAddr] *)

Definition hex_digit (d : Z) : ascii :=
  of_byte (if (d <? 10)%Z then 48 + d else 87 + d).

(** The digits of [n] in [radix], most significant first, in front of [acc]. *)
Fixpoint digits_of (fuel : nat) (radix n : Z) (acc : string) : string :=
  match fuel with
  | O => acc
  | S fuel' =>
      let acc := String (hex_digit (n mod radix)%Z) acc in
      if (n / radix =? 0)%Z then acc else digits_of fuel' radix (n / radix)%Z acc
  end.

Definition octet_to_string (n : Z) : string := digits_of 3 10 n "".
Definition segment_to_string (n : Z) : string := digits_of 4 16 n "".

Definition ipv4_to_string (a : Z) : string :=
  String.concat "." (octet_to_string <$> [octet 4 0 a; octet 4 1 a; octet 4 2 a; octet 4 3 a]).

Definition segments (a : Z) : list Z :=
  (fun k => (a / 2 ^ (16 * k)) mod 65536)%Z <$> [7; 6; 5; 4; 3; 2; 1; 0]%Z.

(** The first longest run of zero segments, as its start and length. *)
Fixpoint longest_zeros (i : nat) (current longest : nat * nat) (l : list Z) : nat * nat :=
  match l with
  | [] => longest
  | s :: rest =>
      if (s =? 0)%Z then
        let start := if (snd current =? 0)%nat then i else fst current in
        let current := (start, S (snd current)) in
        longest_zeros (S i) current
          (if (snd longest <? snd current)%nat then current else longest) rest
      else longest_zeros (S i) (0, 0)%nat longest rest
  end.

Definition ipv6_to_string (a : Z) : string :=
  if (a / 2 ^ 32 =? 65535)%Z then "::ffff:" ++ ipv4_to_string (a mod 2 ^ 32)%Z
  else
    let ss := segments a in
    let show l := String.concat ":" (segment_to_string <$> l) in
    let (start, length) := longest_zeros 0 (0, 0)%nat (0, 0)%nat ss in
    if (1 <? length)%nat
    then show (take start ss) ++ "::" ++ show (drop (start + length) ss)
    else show ss.

Definition ip_to_string (address : IpAddr) : string :=
  match address with V4 a => ipv4_to_string a | V6 a => ipv6_to_string a end.
