(* ===== verification/Ssrf.v ===== *)
(** * The SSRF policy

    [src/src/core/policy/ssrf.rs]: which destinations a client configured with an
    [SSRFPolicy] may contact.  The theorems relate the bit-mask classification to
    ranges of addresses, show that an IPv6 form of a blocked IPv4 address is
    blocked too, and state what an accepted URL or resolved address satisfies. *)

From stdpp Require Import sorting.
From S2P Require Import Prelude RustStr Http Policy IpAddr.
From Stdlib Require Import Ascii.
From Stdlib Require String.

Local Open Scope Z_scope.

(** ** Prefixes *)

(** [MAX.checked_shl(w - prefix).unwrap_or(0)], at width [w]. *)
Definition checked_shl_mask (w prefix : Z) : Z :=
  if w - prefix <? w then Z.shiftl (Z.ones w) (w - prefix) mod 2 ^ w else 0.

Definition ipv4_in_prefix (address network prefix : Z) : bool :=
  let mask := checked_shl_mask 32 prefix in
  Z.land address mask =? Z.land network mask.

Definition ipv6_in_prefix (address network prefix : Z) : bool :=
  let mask := checked_shl_mask 128 prefix in
  Z.land address mask =? Z.land network mask.

(** ** Address classes *)

Definition IPV4_PCP_ANYCAST : Z := ipv4_new 192 0 0 9.
Definition IPV4_TURN_ANYCAST : Z := ipv4_new 192 0 0 10.
Definition IPV6_METADATA : Z := ipv6_new 0xfd00 0x0ec2 0 0 0 0 0 0x0254.
Definition IPV6_COMPATIBLE : Z := 0.
Definition IPV6_NAT64_WELL_KNOWN : Z := ipv6_new 0x0064 0xff9b 0 0 0 0 0 0.
Definition IPV6_IETF_PROTOCOL_ASSIGNMENTS : Z := ipv6_new 0x2001 0 0 0 0 0 0 0.
Definition IPV6_PCP_ANYCAST : Z := ipv6_new 0x2001 1 0 0 0 0 0 1.
Definition IPV6_TURN_ANYCAST : Z := ipv6_new 0x2001 1 0 0 0 0 0 2.
Definition IPV6_DNSSD_ANYCAST : Z := ipv6_new 0x2001 1 0 0 0 0 0 3.
Definition IPV6_AMT : Z := ipv6_new 0x2001 3 0 0 0 0 0 0.
Definition IPV6_AS112 : Z := ipv6_new 0x2001 4 0x0112 0 0 0 0 0.
Definition IPV6_ORCHID_V2 : Z := ipv6_new 0x2001 0x0020 0 0 0 0 0 0.
Definition IPV6_DET : Z := ipv6_new 0x2001 0x0030 0 0 0 0 0 0.
Definition IPV6_DOCUMENTATION : Z := ipv6_new 0x2001 0x0db8 0 0 0 0 0 0.
Definition IPV6_6TO4 : Z := ipv6_new 0x2002 0 0 0 0 0 0 0.

Definition IPV6_ALLOCATED_GLOBAL_UNICAST : list (Z * Z) :=
  [(ipv6_new 0x2001 0 0 0 0 0 0 0, 20);
   (ipv6_new 0x2001 0x1200 0 0 0 0 0 0, 23);
   (ipv6_new 0x2001 0x1400 0 0 0 0 0 0, 22);
   (ipv6_new 0x2001 0x1800 0 0 0 0 0 0, 21);
   (ipv6_new 0x2001 0x2000 0 0 0 0 0 0, 19);
   (ipv6_new 0x2001 0x4000 0 0 0 0 0 0, 21);
   (ipv6_new 0x2001 0x4800 0 0 0 0 0 0, 22);
   (ipv6_new 0x2001 0x4c00 0 0 0 0 0 0, 23);
   (ipv6_new 0x2001 0x5000 0 0 0 0 0 0, 20);
   (ipv6_new 0x2001 0x8000 0 0 0 0 0 0, 18);
   (ipv6_new 0x2002 0 0 0 0 0 0 0, 16);
   (ipv6_new 0x2003 0 0 0 0 0 0 0, 18);
   (ipv6_new 0x2400 0 0 0 0 0 0 0, 12);
   (ipv6_new 0x2410 0 0 0 0 0 0 0, 12);
   (ipv6_new 0x2600 0 0 0 0 0 0 0, 12);
   (ipv6_new 0x2610 0 0 0 0 0 0 0, 23);
   (ipv6_new 0x2620 0 0 0 0 0 0 0, 23);
   (ipv6_new 0x2630 0 0 0 0 0 0 0, 12);
   (ipv6_new 0x2800 0 0 0 0 0 0 0, 12);
   (ipv6_new 0x2a00 0 0 0 0 0 0 0, 12);
   (ipv6_new 0x2a10 0 0 0 0 0 0 0, 12);
   (ipv6_new 0x2c00 0 0 0 0 0 0 0, 12)].

Inductive BlockedIpKind :=
| LinkLocal | Loopback | Metadata | Multicast | Private | SpecialUse | Unspecified.

#[export] Instance BlockedIpKind_eq_dec : EqDecision BlockedIpKind.
Proof. solve_decision. Defined.

#[export] Instance octets_eq_dec : EqDecision (Z * Z * Z * Z) := _.

Definition is_metadata_v4 (address : Z) : bool :=
  bool_decide (octets4 address ∈ [(169, 254, 169, 254); (169, 254, 170, 2); (100, 100, 100, 200)]).

Definition is_metadata_v6 (address : Z) : bool := address =? IPV6_METADATA.

Definition is_non_global_ietf_protocol_assignment_v4 (address : Z) : bool :=
  ipv4_in_prefix address (ipv4_new 192 0 0 0) 24
  && negb (address =? IPV4_PCP_ANYCAST)
  && negb (address =? IPV4_TURN_ANYCAST).

Definition is_special_use_v4 (address : Z) : bool :=
  ipv4_in_prefix address 0 8
  || ipv4_in_prefix address (ipv4_new 100 64 0 0) 10
  || is_non_global_ietf_protocol_assignment_v4 address
  || ipv4_in_prefix address (ipv4_new 192 0 2 0) 24
  || ipv4_in_prefix address (ipv4_new 192 88 99 0) 24
  || ipv4_in_prefix address (ipv4_new 198 18 0 0) 15
  || ipv4_in_prefix address (ipv4_new 198 51 100 0) 24
  || ipv4_in_prefix address (ipv4_new 203 0 113 0) 24
  || ipv4_in_prefix address (ipv4_new 240 0 0 0) 4.

Definition is_allocated_global_unicast_v6 (address : Z) : bool :=
  ipv6_in_prefix address IPV6_NAT64_WELL_KNOWN 96
  || existsb (fun '(network, prefix) => ipv6_in_prefix address network prefix)
       IPV6_ALLOCATED_GLOBAL_UNICAST.

Definition is_non_global_ietf_protocol_assignment (address : Z) : bool :=
  ipv6_in_prefix address IPV6_IETF_PROTOCOL_ASSIGNMENTS 23
  && negb (address =? IPV6_PCP_ANYCAST)
  && negb (address =? IPV6_TURN_ANYCAST)
  && negb (address =? IPV6_DNSSD_ANYCAST)
  && negb (ipv6_in_prefix address IPV6_AMT 32)
  && negb (ipv6_in_prefix address IPV6_AS112 48)
  && negb (ipv6_in_prefix address IPV6_ORCHID_V2 28)
  && negb (ipv6_in_prefix address IPV6_DET 28).

Definition is_special_use_v6 (address : Z) : bool :=
  negb (is_allocated_global_unicast_v6 address)
  || is_non_global_ietf_protocol_assignment address
  || ipv6_in_prefix address IPV6_DOCUMENTATION 32
  || ipv6_in_prefix address IPV6_6TO4 16.

Definition embedded_ipv4 (address : Z) : option Z :=
  if negb (ipv6_in_prefix address IPV6_COMPATIBLE 96)
     && negb (ipv6_in_prefix address IPV6_NAT64_WELL_KNOWN 96)
  then None
  else Some (ipv4_new (octet 16 12 address) (octet 16 13 address)
                      (octet 16 14 address) (octet 16 15 address)).

Definition blocked_ipv4_kind (address : Z) : option BlockedIpKind :=
  if is_metadata_v4 address then Some Metadata
  else if is_loopback_v4 address then Some Loopback
  else if is_private address then Some Private
  else if is_link_local address then Some LinkLocal
  else if is_multicast_v4 address then Some Multicast
  else if is_unspecified_v4 address then Some Unspecified
  else if is_special_use_v4 address then Some SpecialUse
  else None.

Definition blocked_ipv6_kind (address : Z) : option BlockedIpKind :=
  if is_metadata_v6 address then Some Metadata
  else if is_loopback_v6 address then Some Loopback
  else if is_unique_local address then Some Private
  else if is_unicast_link_local address then Some LinkLocal
  else if is_multicast_v6 address then Some Multicast
  else if is_unspecified_v6 address then Some Unspecified
  else match embedded_ipv4 address with
       | Some embedded => blocked_ipv4_kind embedded
       | None => if is_special_use_v6 address then Some SpecialUse else None
       end.

Definition blocked_ip_kind (address : IpAddr) : option BlockedIpKind :=
  match to_canonical address with
  | V4 address => blocked_ipv4_kind address
  | V6 address => blocked_ipv6_kind address
  end.

(** ** Normalisation of the configuration *)

Record SsrfPolicy := {
  schemes : gset string;
  origins : gset string;
  domains : list string;
}.

Definition SUPPORTED_SCHEMES : list string := ["http"; "https"]%string.
Definition ORIGIN_ONLY_ERROR : string :=
  "SSRFPolicy.allowed_origins must contain origin-only HTTP(S) URLs".
Definition INVALID_DOMAIN_ERROR : string :=
  "SSRFPolicy.allowed_domains contains an invalid domain".

Definition normalize_scheme (scheme : string) : result string string :=
  if negb (String.eqb scheme (trim scheme))
  then Err "SSRFPolicy.allowed_schemes contains surrounding whitespace"%string
  else
    let scheme := to_ascii_lowercase scheme in
    if negb (bool_decide (scheme ∈ SUPPORTED_SCHEMES))
    then Err "SSRFPolicy.allowed_schemes supports only http and https"%string
    else Ok scheme.

Definition normalize_schemes (schemes : list string) : result (gset string) string :=
  let? normalized := collect_results (normalize_scheme <$> schemes) in
  let normalized := list_to_set normalized : gset string in
  if bool_decide (normalized = ∅)
  then Err "SSRFPolicy.allowed_schemes must not be empty"%string
  else Ok normalized.

Definition contains_control_or_whitespace (value : string) : bool :=
  existsb (fun character => is_whitespace character || is_ascii_control character) (chars value).

(** [pattern.contains(character)] for a pattern of ASCII characters. *)
Definition contains_any_of (pattern value : string) : bool :=
  existsb (fun character => bool_decide (character ∈ bytes pattern)) (chars value).

Definition without_slash (authority_and_path : string) : string :=
  default authority_and_path (strip_suffix "/" authority_and_path).

Definition is_strict_origin_input (origin : string) : bool :=
  if negb (String.eqb origin (trim origin))
     || contains_control_or_whitespace origin
     || contains_any_of "%\@?#" origin
  then false
  else match split_once "://" origin with
       | None => false
       | Some (scheme, authority_and_path) =>
           if is_empty scheme || is_empty authority_and_path then false
           else
             let authority := without_slash authority_and_path in
             negb (is_empty authority)
             && negb (string_exists (Ascii.eqb "/") authority)
             && negb (ends_with ":" authority)
       end.

Definition original_origin_host (origin : string) : option string :=
  '(_, authority_and_path) ← split_once "://" origin;
  let authority := without_slash authority_and_path in
  match strip_prefix "[" authority with
  | Some bracketed => fst <$> split_once "]" bracketed
  | None => Some (match rsplit_once ":" authority with
                  | Some (host, _) => host
                  | None => authority
                  end)
  end.

Definition is_valid_label (label : string) : bool :=
  negb (is_empty label)
  && (len label <=? 63)
  && match head (String.list_ascii_of_string label) with
     | Some c => is_ascii_alphanumeric c | None => false end
  && match last (String.list_ascii_of_string label) with
     | Some c => is_ascii_alphanumeric c | None => false end
  && string_forall (fun c => is_ascii_alphanumeric c || Ascii.eqb c "-") label.

Definition is_valid_domain (host : string) : bool :=
  (len host <=? 253) && forallb is_valid_label (split "." host).

Definition domain_matches (host domain : string) : bool :=
  String.eqb host domain
  || match strip_suffix domain host with
     | Some prefix => ends_with "." prefix
     | None => false
     end.

(** [sort_unstable] on strings, in the order of their bytes, then [dedup]. *)
Definition string_le (a b : string) : Prop := String.leb a b = true.
#[export] Instance string_le_dec : RelDecision string_le.
Proof. intros a b. unfold string_le. apply _. Defined.

Fixpoint dedup (l : list string) : list string :=
  match l with
  | [] => []
  | a :: rest =>
      match rest with
      | [] => [a]
      | b :: _ => if String.eqb a b then dedup rest else a :: dedup rest
      end
  end.

Section url.
Context `{UrlCrate}.

Definition has_unambiguous_ip_host (origin : string) (url : HttpUrl) : bool :=
  match parse_ip_addr (host url) with
  | None => true
  | Some normalized_address =>
      match original_origin_host origin ≫= parse_ip_addr with
      | Some address => bool_decide (address = normalized_address)
      | None => false
      end
  end.

Definition normalize_origin (schemes : gset string) (origin : string) : result string string :=
  if negb (is_strict_origin_input origin) then Err ORIGIN_ONLY_ERROR
  else
    let? url := http_url_parse origin in
    if negb (is_origin_only url) || negb (has_unambiguous_ip_host origin url)
    then Err ORIGIN_ONLY_ERROR
    else if negb (bool_decide (scheme url ∈ schemes))
    then Err "SSRFPolicy.allowed_origins contains a disabled scheme"%string
    else Ok (Http.origin url).

Definition normalize_origins (origins : list string) (schemes : gset string) :
    result (gset string) string :=
  let? normalized := collect_results (normalize_origin schemes <$> origins) in
  Ok (list_to_set normalized).

Definition normalize_domain (domain : string) : result string string :=
  if is_empty domain
     || negb (String.eqb domain (trim domain))
     || contains_control_or_whitespace domain
     || starts_with "." domain
     || ends_with "." domain
     || contains_any_of ":/?#@[]*%\" domain
  then Err INVALID_DOMAIN_ERROR
  else
    let? url := http_url_parse ("http://" ++ domain) in
    let host := host url in
    if bool_decide (is_Some (parse_ip_addr host))
    then Err "SSRFPolicy.allowed_domains must not contain IP addresses"%string
    else if negb (is_valid_domain host) then Err INVALID_DOMAIN_ERROR
    else Ok host.

Definition normalize_domains (domains : list string) : result (list string) string :=
  let? normalized := collect_results (normalize_domain <$> domains) in
  Ok (dedup (merge_sort string_le normalized)).

Definition ssrf_policy_new (allowed_schemes allowed_origins allowed_domains : list string) :
    result SsrfPolicy string :=
  let? allowed_schemes := normalize_schemes allowed_schemes in
  let? allowed_origins := normalize_origins allowed_origins allowed_schemes in
  let? allowed_domains := normalize_domains allowed_domains in
  Ok {| schemes := allowed_schemes; origins := allowed_origins; domains := allowed_domains |}.

(** ** Checks *)

Definition has_destination_allowlist (p : SsrfPolicy) : bool :=
  negb (bool_decide (origins p = ∅)) || negb (bool_decide (domains p = [])).

Definition validate_url (p : SsrfPolicy) (url : HttpUrl) : result unit SsrfViolation :=
  let origin := Http.origin url in
  if negb (bool_decide (scheme url ∈ schemes p))
  then Err {| target := origin; reason := SchemeNotAllowed |}
  else
    let host := host url in
    let origin_allowed := bool_decide (origin ∈ origins p) in
    if has_destination_allowlist p && negb origin_allowed
       && negb (existsb (domain_matches host) (domains p))
    then Err {| target := origin; reason := DestinationNotAllowed |}
    else match parse_ip_addr host with
         | None => Ok tt
         | Some address =>
             let blocked := blocked_ip_kind address in
             if origin_allowed
                && bool_decide (blocked ∈ [None; Some Private; Some Loopback; Some LinkLocal])
             then Ok tt
             else if bool_decide (is_Some blocked)
             then Err {| target := origin; reason := NonPublicAddress |}
             else Ok tt
         end.
End url.

Definition validate_resolved_address (target : string) (address : IpAddr) :
    result unit SsrfViolation :=
  if bool_decide (is_Some (blocked_ip_kind address))
  then Err {| target := target; reason := NonPublicAddress |}
  else Ok tt.

(** ** Prefixes are ranges *)

Lemma checked_shl_mask_testbit w prefix i : 0 <= prefix <= w -> 0 <= i ->
  Z.testbit (checked_shl_mask w prefix) i = (w - prefix <=? i) && (i <? w).
Proof.
  intros Hp Hi. unfold checked_shl_mask. destruct (Z.ltb_spec (w - prefix) w).
  - rewrite <- Z.land_ones, Z.land_spec, Z.shiftl_spec, !Z.testbit_ones by lia.
    destruct (Z.leb_spec (w - prefix) i), (Z.leb_spec 0 (i - (w - prefix))),
      (Z.ltb_spec (i - (w - prefix)) w), (Z.leb_spec 0 i), (Z.ltb_spec i w); cbn; lia.
  - rewrite Z.bits_0. destruct (Z.leb_spec (w - prefix) i), (Z.ltb_spec i w); cbn; lia.
Qed.

Lemma land_mask w prefix a : 0 <= prefix <= w -> 0 <= a < 2 ^ w ->
  Z.land a (checked_shl_mask w prefix) = a / 2 ^ (w - prefix) * 2 ^ (w - prefix).
Proof.
  intros Hp Ha. rewrite <- Z.shiftl_mul_pow2, <- Z.shiftr_div_pow2 by lia.
  apply Z.bits_inj'. intros i Hi.
  rewrite Z.land_spec, checked_shl_mask_testbit, Z.shiftl_spec by lia.
  destruct (Z.leb_spec (w - prefix) i); cbn [andb].
  - rewrite Z.shiftr_spec by lia. replace (i - (w - prefix) + (w - prefix)) with i by lia.
    destruct (Z.ltb_spec i w); cbn [andb]; [by rewrite andb_true_r|].
    rewrite andb_false_r. symmetry. rewrite <- (Z.mod_small a (2 ^ w)) by lia.
    apply Z.mod_pow2_bits_high. lia.
  - rewrite andb_false_r, Z.testbit_neg_r by lia. done.
Qed.

(** The two mask comparisons are membership in an aligned range. *)
Lemma land_mask_eqb w prefix a n : 0 <= prefix <= w -> 0 <= a < 2 ^ w -> 0 <= n < 2 ^ w ->
  (Z.land a (checked_shl_mask w prefix) =? Z.land n (checked_shl_mask w prefix)) =
  let size := 2 ^ (w - prefix) in (n / size * size <=? a) && (a <? n / size * size + size).
Proof.
  intros Hp Ha Hn. rewrite !land_mask by done. cbn zeta.
  assert (H2 : 0 < 2 ^ (w - prefix)) by (apply Z.pow_pos_nonneg; lia).
  set (size := 2 ^ (w - prefix)) in *.
  pose proof (Z.div_mod a size). pose proof (Z.mod_pos_bound a size).
  apply eq_true_iff_eq. rewrite andb_true_iff, Z.eqb_eq, Z.leb_le, Z.ltb_lt.
  set (q := a / size) in *. set (k := n / size) in *. split; [nia|].
  intros [H3 H4]. f_equal. nia.
Qed.

(** ** The IPv4 classification, as ranges of addresses *)

Definition is_ipv4 (a : Z) : Prop := 0 <= a < 2 ^ 32.
Definition is_ipv6 (a : Z) : Prop := 0 <= a < 2 ^ 128.

Definition in_range (r : Z * Z) (a : Z) : Prop := fst r <= a <= snd r.

(** The special-purpose blocks of the IANA registry the policy refuses. *)
Definition NON_PUBLIC_IPV4 : list (Z * Z) :=
  [(ipv4_new 0 0 0 0, ipv4_new 0 255 255 255);
   (ipv4_new 10 0 0 0, ipv4_new 10 255 255 255);
   (ipv4_new 100 64 0 0, ipv4_new 100 127 255 255);
   (ipv4_new 127 0 0 0, ipv4_new 127 255 255 255);
   (ipv4_new 169 254 0 0, ipv4_new 169 254 255 255);
   (ipv4_new 172 16 0 0, ipv4_new 172 31 255 255);
   (ipv4_new 192 0 0 0, ipv4_new 192 0 0 8);
   (ipv4_new 192 0 0 11, ipv4_new 192 0 0 255);
   (ipv4_new 192 0 2 0, ipv4_new 192 0 2 255);
   (ipv4_new 192 88 99 0, ipv4_new 192 88 99 255);
   (ipv4_new 192 168 0 0, ipv4_new 192 168 255 255);
   (ipv4_new 198 18 0 0, ipv4_new 198 19 255 255);
   (ipv4_new 198 51 100 0, ipv4_new 198 51 100 255);
   (ipv4_new 203 0 113 0, ipv4_new 203 0 113 255);
   (ipv4_new 224 0 0 0, ipv4_new 255 255 255 255)].

Ltac octet_arith :=
  unfold is_loopback_v4, is_private, is_link_local, is_multicast_v4, is_unspecified_v4,
    octets4, octet, is_ipv4, in_range, ipv4_new in *;
  repeat match goal with
  | |- context [2 ^ ?e] => let v := eval vm_compute in (2 ^ e) in change (2 ^ e) with v
  | H : context [2 ^ ?e] |- _ => let v := eval vm_compute in (2 ^ e) in change (2 ^ e) with v in H
  end;
  cbn [fst snd] in *;
  rewrite ?orb_true_iff, ?andb_true_iff, ?Z.eqb_eq, ?Z.leb_le, ?pair_equal_spec in *;
  Z.div_mod_to_equations; lia.

Lemma octets4_ipv4_new a w x y z : is_ipv4 a ->
  0 <= w < 256 -> 0 <= x < 256 -> 0 <= y < 256 -> 0 <= z < 256 ->
  octets4 a = (w, x, y, z) <-> a = ipv4_new w x y z.
Proof. intros. octet_arith. Qed.

Lemma is_loopback_v4_range a : is_ipv4 a ->
  is_loopback_v4 a = true <-> in_range (ipv4_new 127 0 0 0, ipv4_new 127 255 255 255) a.
Proof. intros. octet_arith. Qed.

Lemma is_private_range a : is_ipv4 a ->
  is_private a = true <->
  in_range (ipv4_new 10 0 0 0, ipv4_new 10 255 255 255) a
  \/ in_range (ipv4_new 172 16 0 0, ipv4_new 172 31 255 255) a
  \/ in_range (ipv4_new 192 168 0 0, ipv4_new 192 168 255 255) a.
Proof. intros. octet_arith. Qed.

Lemma is_link_local_range a : is_ipv4 a ->
  is_link_local a = true <-> in_range (ipv4_new 169 254 0 0, ipv4_new 169 254 255 255) a.
Proof. intros. octet_arith. Qed.

Lemma is_multicast_v4_range a : is_ipv4 a ->
  is_multicast_v4 a = true <-> in_range (ipv4_new 224 0 0 0, ipv4_new 239 255 255 255) a.
Proof. intros. octet_arith. Qed.

Lemma is_metadata_v4_spec a : is_ipv4 a ->
  is_metadata_v4 a = true <->
  a = ipv4_new 169 254 169 254 \/ a = ipv4_new 169 254 170 2 \/ a = ipv4_new 100 100 100 200.
Proof.
  intros Ha. unfold is_metadata_v4. rewrite bool_decide_eq_true, !elem_of_cons, elem_of_nil.
  rewrite !octets4_ipv4_new by (done || lia). tauto.
Qed.

Lemma ipv4_in_prefix_range a n prefix : is_ipv4 a -> is_ipv4 n -> 0 <= prefix <= 32 ->
  ipv4_in_prefix a n prefix = true <->
  let size := 2 ^ (32 - prefix) in in_range (n / size * size, n / size * size + size - 1) a.
Proof.
  intros Ha Hn Hp. unfold ipv4_in_prefix, in_range. rewrite land_mask_eqb by done.
  cbn [fst snd]. rewrite andb_true_iff, Z.leb_le, Z.ltb_lt. lia.
Qed.

Lemma ipv6_in_prefix_range a n prefix : is_ipv6 a -> is_ipv6 n -> 0 <= prefix <= 128 ->
  ipv6_in_prefix a n prefix = true <->
  let size := 2 ^ (128 - prefix) in in_range (n / size * size, n / size * size + size - 1) a.
Proof.
  intros Ha Hn Hp. unfold ipv6_in_prefix, in_range. rewrite land_mask_eqb by done.
  cbn [fst snd]. rewrite andb_true_iff, Z.leb_le, Z.ltb_lt. lia.
Qed.

(** Evaluate the closed bounds of ranges, then decide the linear goal. *)
Ltac eval_ranges :=
  repeat match goal with
  | |- context [in_range ?r] =>
      let v := eval vm_compute in r in progress change (in_range r) with (in_range v)
  | H : context [in_range ?r] |- _ =>
      let v := eval vm_compute in r in progress change (in_range r) with (in_range v) in H
  end; unfold in_range in *; cbn [fst snd] in *.

Lemma is_special_use_v4_range a : is_ipv4 a ->
  is_special_use_v4 a = true <->
  Exists (fun r => in_range r a)
    [(ipv4_new 0 0 0 0, ipv4_new 0 255 255 255);
     (ipv4_new 100 64 0 0, ipv4_new 100 127 255 255);
     (ipv4_new 192 0 0 0, ipv4_new 192 0 0 8);
     (ipv4_new 192 0 0 11, ipv4_new 192 0 0 255);
     (ipv4_new 192 0 2 0, ipv4_new 192 0 2 255);
     (ipv4_new 192 88 99 0, ipv4_new 192 88 99 255);
     (ipv4_new 198 18 0 0, ipv4_new 198 19 255 255);
     (ipv4_new 198 51 100 0, ipv4_new 198 51 100 255);
     (ipv4_new 203 0 113 0, ipv4_new 203 0 113 255);
     (ipv4_new 240 0 0 0, ipv4_new 255 255 255 255)].
Proof.
  intros Ha. unfold is_special_use_v4, is_non_global_ietf_protocol_assignment_v4.
  rewrite !orb_true_iff, !andb_true_iff, !negb_true_iff, !Z.eqb_neq.
  rewrite !ipv4_in_prefix_range by (done || (vm_compute; split; congruence)).
  rewrite !Exists_cons, Exists_nil. cbn zeta.
  change IPV4_PCP_ANYCAST with 3221225481. change IPV4_TURN_ANYCAST with 3221225482.
  eval_ranges. lia.
Qed.

Lemma blocked_ipv4_kind_None a :
  is_Some (blocked_ipv4_kind a) <->
  is_metadata_v4 a = true \/ is_loopback_v4 a = true \/ is_private a = true
  \/ is_link_local a = true \/ is_multicast_v4 a = true \/ is_unspecified_v4 a = true
  \/ is_special_use_v4 a = true.
Proof.
  unfold blocked_ipv4_kind.
  destruct (is_metadata_v4 a), (is_loopback_v4 a), (is_private a), (is_link_local a),
    (is_multicast_v4 a), (is_unspecified_v4 a), (is_special_use_v4 a);
    (split; [intros [k Hk]; first [discriminate Hk | auto 10]
            | intros; first [by eexists | exfalso; intuition discriminate]]).
Qed.

(** The bit-mask classification of IPv4 addresses computed by
    [blocked_ipv4_kind] is exactly membership in the registry ranges of
    non-public addresses: no address of a special-purpose block passes, and no
    other address is refused. *)
Theorem blocked_ipv4_kind_ranges (a : Z) : is_ipv4 a ->
  is_Some (blocked_ipv4_kind a) <-> Exists (fun r => in_range r a) NON_PUBLIC_IPV4.
Proof.
  intros Ha. rewrite blocked_ipv4_kind_None, is_metadata_v4_spec, is_loopback_v4_range,
    is_private_range, is_link_local_range, is_multicast_v4_range, is_special_use_v4_range by done.
  unfold is_unspecified_v4, NON_PUBLIC_IPV4. rewrite Z.eqb_eq, !Exists_cons, !Exists_nil.
  unfold is_ipv4 in Ha. change (2 ^ 32) with 4294967296 in Ha.
  change (ipv4_new 169 254 169 254) with 2852039166.
  change (ipv4_new 169 254 170 2) with 2852039170.
  change (ipv4_new 100 100 100 200) with 1684301000.
  eval_ranges. lia.
Qed.

(** ** IPv6 forms of an IPv4 address *)

Definition ipv4_mapped (a : Z) : IpAddr := V6 (65535 * 2 ^ 32 + a).
Definition ipv4_compatible (a : Z) : IpAddr := V6 a.
Definition ipv4_nat64 (a : Z) : IpAddr := V6 (IPV6_NAT64_WELL_KNOWN + a).

Lemma embedded_octets base a : is_ipv4 a -> 0 <= base -> base mod 2 ^ 32 = 0 ->
  ipv4_new (octet 16 12 (base + a)) (octet 16 13 (base + a))
           (octet 16 14 (base + a)) (octet 16 15 (base + a)) = a.
Proof.
  intros Ha Hb Hm. unfold octet, ipv4_new, is_ipv4 in *.
  change (8 * (16 - 1 - 12)) with 24. change (8 * (16 - 1 - 13)) with 16.
  change (8 * (16 - 1 - 14)) with 8. change (8 * (16 - 1 - 15)) with 0.
  change (2 ^ 32) with 4294967296 in *. change (2 ^ 24) with 16777216.
  change (2 ^ 16) with 65536. change (2 ^ 8) with 256. change (2 ^ 0) with 1.
  Z.div_mod_to_equations. lia.
Qed.

Ltac v6_arith :=
  unfold is_metadata_v6, is_loopback_v6, is_unspecified_v6, is_ipv4 in *;
  change (2 ^ 32) with 4294967296 in *;
  repeat match goal with
  | |- context [IPV6_METADATA] =>
      let v := eval vm_compute in IPV6_METADATA in change IPV6_METADATA with v
  | |- context [IPV6_NAT64_WELL_KNOWN] =>
      let v := eval vm_compute in IPV6_NAT64_WELL_KNOWN in change IPV6_NAT64_WELL_KNOWN with v
  end; rewrite ?Z.eqb_neq, ?Z.eqb_eq; try lia.

(** The classes decided by the leading bits are those of the base address. *)
Lemma leading_bits base a : is_ipv4 a -> 0 <= base -> base mod 2 ^ 32 = 0 ->
  segment0 (base + a) = segment0 base /\ octet 16 0 (base + a) = octet 16 0 base.
Proof.
  intros Ha Hb Hm. unfold segment0, octet, is_ipv4 in *.
  assert (Hd : forall k, 32 <= k -> (base + a) / 2 ^ k = base / 2 ^ k).
  { intros k Hk. replace (2 ^ k) with (2 ^ 32 * 2 ^ (k - 32)) by (rewrite <- Z.pow_add_r; [f_equal|..]; lia).
    assert (0 < 2 ^ (k - 32)) by (apply Z.pow_pos_nonneg; lia).
    assert (0 < 2 ^ 32) by (apply Z.pow_pos_nonneg; lia).
    rewrite <- !Z.div_div by lia.
    f_equal. set (m := 2 ^ 32) in *. apply Z.mod_divide in Hm as [q ->]; [|lia].
    rewrite Z.div_add_l, Z.div_mul by lia. rewrite Z.div_small; lia. }
  split; rewrite Hd; done.
Qed.

Lemma ipv4_in_v6_kind base a : is_ipv4 a -> 0 <= base -> base mod 2 ^ 32 = 0 ->
  base + a <> 0 -> base + a <> 1 -> segment0 base = 0 \/ segment0 base = 100 ->
  octet 16 0 base = 0 -> embedded_ipv4 (base + a) = Some a ->
  base + a <> IPV6_METADATA ->
  blocked_ipv6_kind (base + a) = blocked_ipv4_kind a.
Proof.
  intros Ha Hb Hm H0 H1 Hs Ho He Hmeta.
  destruct (leading_bits base a Ha Hb Hm) as [Hseg Hoct].
  unfold blocked_ipv6_kind, is_metadata_v6, is_loopback_v6, is_unique_local,
    is_unicast_link_local, is_multicast_v6, is_unspecified_v6.
  rewrite Hseg, Hoct, Ho, He.
  apply Z.eqb_neq in H0, H1, Hmeta. rewrite H0, H1, Hmeta.
  destruct Hs as [-> | ->]; reflexivity.
Qed.

Lemma nat64_kind a : is_ipv4 a -> blocked_ip_kind (ipv4_nat64 a) = blocked_ipv4_kind a.
Proof.
  intros Ha. unfold blocked_ip_kind, ipv4_nat64, to_canonical.
  destruct (Z.eqb_spec ((IPV6_NAT64_WELL_KNOWN + a) / 2 ^ 32) 65535) as [He|_].
  { exfalso. revert He. unfold is_ipv4 in Ha. v6_arith. Z.div_mod_to_equations. lia. }
  apply ipv4_in_v6_kind; try done; [v6_arith..| |v6_arith].
  - by right.
  - unfold embedded_ipv4.
    assert (Hp : ipv6_in_prefix (IPV6_NAT64_WELL_KNOWN + a) IPV6_NAT64_WELL_KNOWN 96 = true).
    { apply ipv6_in_prefix_range.
      - unfold is_ipv6, is_ipv4 in *. change (2 ^ 128) with 340282366920938463463374607431768211456.
        v6_arith.
      - vm_compute; split; congruence.
      - lia.
      - cbn zeta. unfold in_range; cbn [fst snd].
        change (2 ^ (128 - 96)) with 4294967296.
        replace (IPV6_NAT64_WELL_KNOWN / 4294967296 * 4294967296) with IPV6_NAT64_WELL_KNOWN
          by reflexivity.
        unfold is_ipv4 in Ha. change (2 ^ 32) with 4294967296 in Ha. lia. }
    rewrite Hp, andb_false_r. f_equal. by apply embedded_octets.
Qed.

Lemma compatible_kind a : is_ipv4 a ->
  is_Some (blocked_ip_kind (ipv4_compatible a)) <-> is_Some (blocked_ipv4_kind a).
Proof.
  intros Ha. unfold blocked_ip_kind, ipv4_compatible, to_canonical.
  unfold is_ipv4 in *. rewrite Z.div_small by lia.
  change (0 =? 65535) with false. cbn match.
  destruct (Z.eq_dec a 0) as [->|H0]; [by vm_compute|].
  destruct (Z.eq_dec a 1) as [->|H1]; [split; intros _; by eexists|].
  pose proof (ipv4_in_v6_kind 0 a) as Hk. rewrite Z.add_0_l in Hk.
  rewrite Hk; try done; [by left | | v6_arith].
  unfold embedded_ipv4.
  assert (Hp : ipv6_in_prefix a IPV6_COMPATIBLE 96 = true).
  { apply ipv6_in_prefix_range.
    - unfold is_ipv6. change (2 ^ 128) with 340282366920938463463374607431768211456. v6_arith.
    - vm_compute; split; congruence.
    - lia.
    - cbn zeta. unfold in_range; cbn [fst snd]. change (2 ^ (128 - 96)) with (2 ^ 32).
      unfold IPV6_COMPATIBLE. rewrite Z.div_0_l by done. lia. }
  rewrite Hp. cbn [negb andb]. f_equal.
  pose proof (embedded_octets 0 a) as Ho. rewrite Z.add_0_l in Ho. by apply Ho.
Qed.

(** An IPv4 destination cannot be smuggled past the policy inside an IPv6
    address: the IPv4-mapped ([::ffff:a]), IPv4-compatible ([::a]) and NAT64
    ([64:ff9b::a]) forms of an address are refused exactly when the IPv4 address
    itself is. *)
Theorem embedded_ipv4_blocked (a : Z) : is_ipv4 a ->
  forall form, form = ipv4_mapped a \/ form = ipv4_compatible a \/ form = ipv4_nat64 a ->
  is_Some (blocked_ip_kind form) <-> is_Some (blocked_ip_kind (V4 a)).
Proof.
  intros Ha form [-> | [-> | ->]].
  - unfold blocked_ip_kind, ipv4_mapped, to_canonical. unfold is_ipv4 in Ha.
    rewrite Z.div_add_l, Z.div_small by lia.
    by rewrite (Z.add_comm (65535 * 2 ^ 32) a), Z.mod_add, Z.mod_small by lia.
  - by apply compatible_kind.
  - by rewrite nat64_kind.
Qed.

(** ** Accepted destinations *)

Lemma domain_matches_spec host domain :
  domain_matches host domain = true <->
  host = domain \/ exists sub, host = (sub ++ "." ++ domain)%string.
Proof.
  unfold domain_matches. rewrite orb_true_iff, String.eqb_eq.
  split; (intros [H|H]; [by left | right]).
  - destruct (strip_suffix domain host) as [prefix|] eqn:Hs; [|done].
    apply strip_suffix_Some in Hs as ->. apply ends_with_spec in H as [sub ->].
    exists sub. by rewrite <- string_app_assoc.
  - destruct H as [sub ->]. rewrite string_app_assoc.
    destruct (strip_suffix domain _) as [prefix|] eqn:Hs.
    + apply strip_suffix_Some, string_app_inv_r in Hs as <-. apply ends_with_spec. by eexists.
    + pose proof (proj2 (strip_suffix_Some domain ((sub ++ ".") ++ domain)%string _) eq_refl).
      congruence.
Qed.

#[export] Instance string_le_total : Total string_le.
Proof. intros a b. apply String.leb_total. Qed.

Lemma string_le_cons x a y b :
  string_le (String x a) (String y b) <->
  (N_of_ascii x < N_of_ascii y)%N \/ x = y /\ string_le a b.
Proof.
  unfold string_le, String.leb; cbn. unfold Ascii.compare.
  destruct (N.compare_spec (N_of_ascii x) (N_of_ascii y)) as [He|Hl|Hg].
  - apply (f_equal ascii_of_N) in He. rewrite !ascii_N_embedding in He. subst y.
    split; [by right|]. intros [?|[_ ?]]; [lia|done].
  - split; [by left|done].
  - split; [done|]. intros [?|[-> _]]; lia.
Qed.

#[export] Instance string_le_transitive : Transitive string_le.
Proof.
  intros a. induction a as [|x a IH]; intros [|y b] [|z c]; try done.
  rewrite !string_le_cons. intros [?|[-> ?]] [?|[-> ?]]; [left; lia|by left|by left|].
  right. split; [done|]. by apply (IH b).
Qed.

Lemma elem_of_dedup x l : x ∈ dedup l <-> x ∈ l.
Proof.
  induction l as [|a [|b rest] IH]; [done|done|].
  cbn [dedup]. destruct (String.eqb_spec a b) as [->|_]; rewrite ?elem_of_cons in *; [|by rewrite IH].
  rewrite IH. tauto.
Qed.

Lemma dedup_strict l : StronglySorted string_le l ->
  StronglySorted (fun a b => string_le a b /\ a <> b) (dedup l).
Proof.
  induction l as [|a [|b rest] IH]; intros Hs; [constructor|cbn; repeat constructor|].
  inversion Hs as [|? ? Hrest Hall]; subst.
  change (dedup (a :: b :: rest)) with
    (if String.eqb a b then dedup (b :: rest) else a :: dedup (b :: rest)).
  destruct (String.eqb_spec a b) as [->|Hne]; [by apply IH|].
  constructor; [by apply IH|]. apply Forall_forall. intros x Hx. rewrite elem_of_dedup in Hx.
  rewrite Forall_forall in Hall. split; [by apply Hall|]. intros <-.
  inversion Hrest as [|? ? _ Hb]; subst. rewrite Forall_forall in Hb.
  apply elem_of_cons in Hx as [Hx|Hx]; [done|].
  apply Hne, String.leb_antisym; [apply Hall, list_elem_of_here | by apply Hb].
Qed.

Lemma collect_results_elem {A B E} (f : A -> result B E) l out b :
  collect_results (f <$> l) = Ok out -> b ∈ out <-> exists a, a ∈ l /\ f a = Ok b.
Proof.
  rewrite collect_results_Ok. revert out; induction l as [|a l IH]; intros out H.
  - inversion H; subst. set_solver.
  - inversion H as [|? b' ? out' Hb Hl]; subst. rewrite elem_of_cons, (IH _ Hl). split.
    + intros [->|(x & ? & ?)]; [exists a | exists x]; set_solver.
    + intros (x & [->|Hx]%elem_of_cons & Hf); [left; congruence | eauto].
Qed.

Section policy.
Context `{UrlCrate}.

(** What [ssrf_policy_new] establishes. *)
Record ssrf_policy_wf (p : SsrfPolicy) : Prop := {
  wf_schemes : forall s, s ∈ schemes p -> s = "http"%string \/ s = "https"%string;
  wf_some_scheme : schemes p <> ∅;
  wf_origins : forall o, o ∈ origins p ->
    exists url, Http.origin url = o /\ scheme url ∈ schemes p /\ validated url;
  wf_domains : forall d, d ∈ domains p -> is_valid_domain d = true /\ parse_ip_addr d = None;
  wf_domains_sorted : StronglySorted (fun a b => string_le a b /\ a <> b) (domains p);
}.

Lemma normalize_domain_Ok domain d :
  normalize_domain domain = Ok d -> is_valid_domain d = true /\ parse_ip_addr d = None.
Proof.
  unfold normalize_domain. case_match; [done|].
  destruct (http_url_parse _) as [url|]; [|done].
  case_bool_decide as Hip; [done|]. destruct (is_valid_domain (host url)) eqn:Hv; [|done].
  cbn. intros [= <-]. split; [done|]. by apply eq_None_not_Some.
Qed.

Lemma normalize_origin_Ok schemes origin o :
  normalize_origin schemes origin = Ok o ->
  exists url, Http.origin url = o /\ scheme url ∈ schemes /\ validated url.
Proof.
  unfold normalize_origin. case_match; [done|].
  destruct (http_url_parse origin) as [url|] eqn:Hu; [|done].
  case_match; [done|]. case_bool_decide; [|done]. cbn. intros [= <-].
  exists url. split_and!; [done|done|]. by eapply parse_validates.
Qed.

(** A policy that [SsrfPolicy::new] accepts is well formed: only http and
    https schemes and at least one, every allowed origin is the origin of a URL
    with an enabled scheme, every allowed domain is a valid domain name and not an
    IP address, and the domains are strictly sorted. *)
Theorem ssrf_policy_new_wf (allowed_schemes allowed_origins allowed_domains : list string)
    (p : SsrfPolicy) :
  ssrf_policy_new allowed_schemes allowed_origins allowed_domains = Ok p ->
  ssrf_policy_wf p.
Proof.
  unfold ssrf_policy_new, normalize_schemes, normalize_origins, normalize_domains.
  destruct (collect_results (normalize_scheme <$> _)) as [ss|] eqn:Hs; [|done].
  case_bool_decide as Hne; [done|].
  destruct (collect_results (normalize_origin _ <$> _)) as [os|] eqn:Ho; [|done].
  destruct (collect_results (normalize_domain <$> _)) as [ds|] eqn:Hd; [|done].
  intros [= <-]. split; cbn.
  - intros s. rewrite elem_of_list_to_set, (collect_results_elem _ _ _ _ Hs).
    intros (x & _ & Hx). revert Hx. unfold normalize_scheme. case_match; [done|].
    case_bool_decide as Hin; [|done]. cbn. intros [= <-]. unfold SUPPORTED_SCHEMES in Hin.
    set_solver.
  - done.
  - intros o. rewrite elem_of_list_to_set, (collect_results_elem _ _ _ _ Ho).
    intros (x & _ & Hx). by apply normalize_origin_Ok in Hx.
  - intros d. rewrite elem_of_dedup, merge_sort_Permutation, (collect_results_elem _ _ _ _ Hd).
    intros (x & _ & Hx). by apply normalize_domain_Ok in Hx.
  - apply dedup_strict, StronglySorted_merge_sort; apply _.
Qed.

(** The destinations a policy means to allow. *)
Record destination_allowed (p : SsrfPolicy) (url : HttpUrl) : Prop := {
  allowed_scheme : scheme url ∈ schemes p;
  allowed_target : (origins p = ∅ /\ domains p = [])
    \/ Http.origin url ∈ origins p
    \/ exists d, d ∈ domains p /\
         (host url = d \/ exists sub, host url = (sub ++ "." ++ d)%string);
  allowed_address : forall address kind, parse_ip_addr (host url) = Some address ->
    blocked_ip_kind address = Some kind ->
    Http.origin url ∈ origins p /\ kind ∈ [Private; Loopback; LinkLocal];
}.

Lemma has_destination_allowlist_false p :
  has_destination_allowlist p = false <-> origins p = ∅ /\ domains p = [].
Proof.
  unfold has_destination_allowlist.
  by rewrite orb_false_iff, !negb_false_iff, !bool_decide_eq_true.
Qed.

Lemma some_domain_matches p url :
  existsb (domain_matches (host url)) (domains p) = true <->
  exists d, d ∈ domains p /\ (host url = d \/ exists sub, host url = (sub ++ "." ++ d)%string).
Proof.
  rewrite existsb_exists. split; intros (d & Hd & Hm); exists d;
    (split; [by apply list_elem_of_In | by apply domain_matches_spec]).
Qed.

Lemma validate_url_spec (p : SsrfPolicy) (url : HttpUrl) :
  validate_url p url = Ok tt <-> destination_allowed p url.
Proof.
  unfold validate_url. split.
  - case_bool_decide as Hsch; cbn [negb]; [|done].
    destruct (has_destination_allowlist p && _ && _) eqn:Hdest; [done|]. intros Hip.
    split; [done| |].
    + rewrite !andb_false_iff, !negb_false_iff, bool_decide_eq_true,
        has_destination_allowlist_false, some_domain_matches in Hdest. tauto.
    + intros address kind Ha Hk. rewrite Ha, Hk in Hip.
      destruct (bool_decide (_ ∈ origins p)) eqn:Ho; [|by destruct kind].
      apply bool_decide_eq_true in Ho. split; [done|].
      destruct kind; cbn in Hip; (discriminate Hip || set_solver).
  - intros [Hsch Hdest Hip]. rewrite (bool_decide_eq_true_2 _ Hsch). cbn [negb].
    assert (has_destination_allowlist p && negb (bool_decide (Http.origin url ∈ origins p))
            && negb (existsb (domain_matches (host url)) (domains p)) = false) as ->.
    { rewrite !andb_false_iff, !negb_false_iff, bool_decide_eq_true,
        has_destination_allowlist_false, some_domain_matches. tauto. }
    destruct (parse_ip_addr (host url)) as [address|]; [|done].
    destruct (blocked_ip_kind address) as [kind|] eqn:Hk; [|by destruct (bool_decide _)].
    destruct (Hip _ _ eq_refl Hk) as [Ho Hkind].
    rewrite (bool_decide_eq_true_2 _ Ho), bool_decide_eq_true_2; [done|].
    set_solver.
Qed.

(** C39: [validate_url] accepts exactly the destinations the policy means to allow:
    an enabled scheme, an allowlisted origin or (sub)domain when there is an
    allowlist, and no non-public IP literal, except that an explicitly allowed
    origin may be a private, loopback or link-local address; a cloud metadata,
    multicast, unspecified or special-use address is never accepted. *)
Theorem validate_url_correct (p : SsrfPolicy) (url : HttpUrl) :
  validate_url p url = Ok tt <-> destination_allowed p url.
Proof. apply validate_url_spec. Qed.

(** A refusal names the origin it refuses. *)
Lemma validate_url_target (p : SsrfPolicy) (url : HttpUrl) v :
  validate_url p url = Err v -> target v = Http.origin url.
Proof. unfold validate_url. repeat case_match; intros; by simplify_eq. Qed.
End policy.

(** ** Witnesses *)

Lemma blocked_ipv4_kind_ranges_witness :
  is_ipv4 (ipv4_new 192 0 0 9) /\
  (is_Some (blocked_ipv4_kind (ipv4_new 192 0 0 9)) <->
   Exists (fun r => in_range r (ipv4_new 192 0 0 9)) NON_PUBLIC_IPV4).
Proof.
  split; [by vm_compute | apply (blocked_ipv4_kind_ranges (ipv4_new 192 0 0 9)); by vm_compute].
Defined.

Lemma embedded_ipv4_blocked_witness :
  is_ipv4 (ipv4_new 10 0 0 1) /\
  (is_Some (blocked_ip_kind (ipv4_nat64 (ipv4_new 10 0 0 1))) <->
   is_Some (blocked_ip_kind (V4 (ipv4_new 10 0 0 1)))).
Proof.
  split; [by vm_compute|].
  apply (embedded_ipv4_blocked (ipv4_new 10 0 0 1)); [by vm_compute|]. by right; right.
Defined.

Lemma ssrf_policy_new_wf_witness :
  let new := ssrf_policy_new (H := simple_url_crate) in
  exists p, new ["HTTPS"; "http"] ["https://api.example.com"] ["b.com"; "a.com"; "b.com"] = Ok p
  /\ domains p = ["a.com"; "b.com"] /\ ssrf_policy_wf (H := simple_url_crate) p.
Proof.
  eexists. split; [vm_compute; reflexivity|]. split; [reflexivity|].
  apply (ssrf_policy_new_wf (H := simple_url_crate)
           ["HTTPS"; "http"] ["https://api.example.com"] ["b.com"; "a.com"; "b.com"]).
  vm_compute. reflexivity.
Defined.
