(* ===== verification/Pipeline.v ===== *)
(** * The policy pipeline

    [src/src/core/policy/pipeline.rs]: the proxy, redirect, retry and SSRF policies
    of one request, composed the way the transport consults them: before sending,
    on a retryable response or network error, on response headers and after the
    response body. *)

From S2P Require Import Prelude RustStr Http Numeric Policy Redirect Retry Ssrf.

Local Open Scope Z_scope.

Record RedirectPolicy := { max_redirects : Z }.

Record PolicyPipeline := {
  pipeline_proxy : ProxyPolicy;
  pipeline_redirect : option RedirectPolicy;
  pipeline_retry : option RetryPolicy;
  pipeline_ssrf : option SsrfPolicy;
}.

Section pipeline.
Context `{UrlCrate} `{HttpCrate} `{HttpDate}.

Record ResponsePolicyAction := {
  action_decision : RedirectDecision;
  action_max_redirects : Z;
}.

(** [PolicyMutation::Redirect], the only constructor. *)
Record PolicyMutation := {
  mutation_body : RequestBodyMutation;
  mutation_header_policy : RedirectHeaderPolicy;
  mutation_method : string;
  mutation_url : HttpUrl;
}.

Definition retries_enabled (p : PolicyPipeline) : bool :=
  bool_decide (is_Some (pipeline_retry p)).

Definition policy_pipeline_new (proxy_policy : string) (initial_use_proxy_transport : bool)
    (initial_url : HttpUrl) (follow_redirects : bool) (max_redirects : Z)
    (retry : option RetryPolicy) (ssrf : option SsrfPolicy) :
    result PolicyPipeline PolicyError :=
  let initial_route := if initial_use_proxy_transport then RouteProxy else RouteDirect in
  let? proxy := proxy_parse proxy_policy initial_route initial_url in
  let redirect := if follow_redirects then Some {| max_redirects := max_redirects |} else None in
  Ok {| pipeline_proxy := proxy; pipeline_redirect := redirect;
        pipeline_retry := retry; pipeline_ssrf := ssrf |}.

Definition on_retryable_response (p : PolicyPipeline) (request : PolicyRequest)
    (response : ResponseHead) (completed_retries : Z) (jitter_sample : f64) (now : Z) :
    option (option RetryDecision) :=
  let_some retry := pipeline_retry p else None in
  on_response retry request response completed_retries jitter_sample now.

Definition pipeline_on_network_error (p : PolicyPipeline) (request : PolicyRequest)
    (completed_retries : Z) (jitter_sample : f64) : option (option RetryDecision) :=
  let_some retry := pipeline_retry p else None in
  on_network_error retry request completed_retries jitter_sample.

Definition before_send (p : PolicyPipeline) (request : PolicyRequest) :
    result TransportRoute PolicyError :=
  let? _ := match pipeline_ssrf p with
            | Some ssrf => map_err PolicySsrfViolation (validate_url ssrf (req_url request))
            | None => Ok tt
            end in
  let? route := proxy_route (pipeline_proxy p) (req_url request) in
  if bool_decide (route = RouteProxy) && bool_decide (is_Some (pipeline_ssrf p))
  then Err (PolicySsrfViolation (ssrf_violation_proxy (origin (req_url request))))
  else Ok route.

Definition on_response_headers (p : PolicyPipeline) (request : PolicyRequest)
    (response : ResponseHead) : option ResponsePolicyAction :=
  let_some redirect := pipeline_redirect p else None in
  (fun decision => {| action_decision := decision;
                      action_max_redirects := max_redirects redirect |})
    <$> redirect_decision request response.

Definition redirect_mutation (p : PolicyPipeline) (request : PolicyRequest)
    (decision : RedirectDecision) : result PolicyMutation PolicyError :=
  match decision with
  | Block error => Err error
  | Follow action =>
      if bool_decide (action_body action = Preserve) && negb (can_replay (req_body request))
      then Err NonReplayableRequestBodyRedirect
      else
        let? _ := validate_redirect (pipeline_proxy p) (action_url action) in
        Ok {| mutation_body := action_body action;
              mutation_header_policy := action_header_policy action;
              mutation_method := action_method action;
              mutation_url := action_url action |}
  end.

Definition after_response_body (p : PolicyPipeline) (request : PolicyRequest)
    (action : ResponsePolicyAction) (completed_redirects : Z) :
    result PolicyMutation PolicyError :=
  if action_max_redirects action <=? completed_redirects
  then Err (RedirectLimitExceeded (action_max_redirects action) (origin (req_url request)))
  else redirect_mutation p request (action_decision action).

(** ** Properties *)

(** What [before_send] checked, for the requests that use the pipeline. *)
Lemma before_send_facts (p : PolicyPipeline) (request : PolicyRequest) (route : TransportRoute) :
  before_send p request = Ok route ->
  proxy_route (pipeline_proxy p) (req_url request) = Ok route /\
  forall ssrf, pipeline_ssrf p = Some ssrf ->
    destination_allowed ssrf (req_url request) /\ route = RouteDirect.
Proof.
  unfold before_send.
  destruct (pipeline_ssrf p) as [ssrf|] eqn:Hs.
  - destruct (validate_url ssrf _) as [[]|v] eqn:Hv; [|done]. cbn.
    destruct (proxy_route _ _) as [route'|e]; [|done].
    destruct route'; cbn; intros [= <-]. split; [done|]. intros ? [= <-].
    split; [by apply validate_url_spec | done].
  - destruct (proxy_route _ _) as [route'|e]; [|done].
    rewrite andb_false_r. intros [= <-]. done.
Qed.

(** A request that passes [before_send] under an SSRF policy goes directly to a
    destination the policy allows, never through a proxy; without an SSRF policy
    the route is the one of the proxy policy. *)
Theorem before_send_sound (p : PolicyPipeline) (request : PolicyRequest)
    (route : TransportRoute) :
  before_send p request = Ok route ->
  proxy_route (pipeline_proxy p) (req_url request) = Ok route /\
  forall ssrf, pipeline_ssrf p = Some ssrf ->
    destination_allowed ssrf (req_url request) /\ route = RouteDirect.
Proof. apply before_send_facts. Qed.

(** The request as the redirect mutation changes it. *)
Definition redirected (request : PolicyRequest) (mutation : PolicyMutation) : PolicyRequest :=
  {| req_body := match mutation_body mutation with
                 | Drop => BodyEmpty | Preserve => req_body request end;
     req_method := mutation_method mutation;
     req_url := mutation_url mutation |}.

(** C7: What a mutation returned by the pipeline guarantees, from the response
    headers to the next request: the redirect limit is respected, an https request
    is not redirected to http, a cross-origin redirect drops the body, a kept body
    is replayable and goes with the same method, and the next URL is validated and
    has a transport route, the same as before. *)
Theorem redirect_step_sound (p : PolicyPipeline) (request : PolicyRequest)
    (response : ResponseHead) (action : ResponsePolicyAction) (completed_redirects : Z)
    (mutation : PolicyMutation) :
  on_response_headers p request response = Some action ->
  after_response_body p request action completed_redirects = Ok mutation ->
  (exists policy, pipeline_redirect p = Some policy /\ completed_redirects < max_redirects policy) /\
  ~ (scheme (req_url request) = "https"%string /\ scheme (mutation_url mutation) = "http"%string) /\
  (mutation_header_policy mutation = SameOrigin <->
   is_same_origin (req_url request) (mutation_url mutation) = true) /\
  (mutation_header_policy mutation = CrossOrigin -> mutation_body mutation = Drop) /\
  (mutation_body mutation = Preserve ->
   can_replay (req_body request) = true /\ mutation_method mutation = req_method request) /\
  can_replay (req_body (redirected request mutation)) = true /\
  validated (mutation_url mutation) /\
  exists route, proxy_route (pipeline_proxy p) (mutation_url mutation) = Ok route /\
    forall before, proxy_route (pipeline_proxy p) (req_url request) = Ok before -> before = route.
Proof.
  unfold on_response_headers, after_response_body.
  destruct (pipeline_redirect p) as [policy|] eqn:Hp; [|done].
  destruct (redirect_decision request response) as [d|] eqn:Hd; [|done].
  cbn. intros [= <-]; cbn.
  destruct (Z.leb_spec (max_redirects policy) completed_redirects); [done|].
  destruct d as [error|a]; [done|]. cbn.
  destruct (redirect_decision_follow_facts _ _ _ Hd) as (Hhttps & Hsame & Hcross & Hmeth & Hval).
  destruct (_ && negb _) eqn:Hrep; [done|].
  destruct (validate_redirect _ _) as [[]|] eqn:Hv; [|done]. intros [= <-]; cbn.
  assert (Hkeep : action_body a = Preserve -> can_replay (req_body request) = true).
  { intros Hb. rewrite (bool_decide_eq_true_2 _ Hb) in Hrep. by apply negb_false_iff in Hrep. }
  split_and!; try done; [by exists policy | by auto | |].
  - unfold redirected; cbn. destruct (action_body a); [done | by apply Hkeep].
  - destruct (validate_redirect_routes _ _ Hv) as [route Hr]. exists route.
    split; [done|]. intros before Hbefore. by eapply proxy_route_constant.
Qed.
End pipeline.

(** ** Witnesses *)

Definition sample_ssrf : SsrfPolicy :=
  {| schemes := {["https"%string]}; origins := ∅; domains := ["example"%string] |}.
Definition sample_pipeline : PolicyPipeline :=
  {| pipeline_proxy := Direct; pipeline_redirect := Some {| max_redirects := 2 |};
     pipeline_retry := None; pipeline_ssrf := Some sample_ssrf |}.

Lemma before_send_sound_witness :
  before_send (H := simple_url_crate) sample_pipeline sample_request = Ok RouteDirect /\
  destination_allowed (H := simple_url_crate) sample_ssrf (req_url sample_request).
Proof.
  assert (Hb : before_send (H := simple_url_crate) sample_pipeline sample_request
               = Ok RouteDirect) by reflexivity.
  split; [exact Hb|].
  exact (proj1 (proj2 (before_send_sound (H := simple_url_crate) _ _ _ Hb) sample_ssrf eq_refl)).
Defined.

Definition sample_policy_action : @ResponsePolicyAction simple_url_crate :=
  Build_ResponsePolicyAction (H := simple_url_crate) (Follow sample_action) 2.
Definition sample_mutation : @PolicyMutation simple_url_crate :=
  Build_PolicyMutation (H := simple_url_crate) Drop CrossOrigin "POST"
    (simple_http_url "https" "b.example" "/next").

Lemma redirect_step_sound_witness :
  on_response_headers (H := simple_url_crate) (H0 := pair_http_crate)
    sample_pipeline sample_request sample_redirect = Some sample_policy_action /\
  after_response_body (H := simple_url_crate) sample_pipeline sample_request
    sample_policy_action 1 = Ok sample_mutation /\
  exists policy, pipeline_redirect sample_pipeline = Some policy /\ 1 < max_redirects policy.
Proof.
  assert (Ha : on_response_headers (H := simple_url_crate) (H0 := pair_http_crate)
    sample_pipeline sample_request sample_redirect = Some sample_policy_action) by reflexivity.
  assert (Hm : after_response_body (H := simple_url_crate) sample_pipeline sample_request
    sample_policy_action 1 = Ok sample_mutation) by reflexivity.
  split_and!; [exact Ha | exact Hm |].
  exact (proj1 (redirect_step_sound (H := simple_url_crate) (H0 := pair_http_crate)
                  _ _ _ _ _ _ Ha Hm)).
Defined.
