(* ===== verification/Cookies.v ===== *)
(** * The cookie jar

    [src/src/core/policy/cookies.rs]: parsing of [Set-Cookie] values, storage with
    per-domain and total capacity, and the [Cookie] header of a request.  The
    primitives of RFC 6265 (dates, domain and path matching, name prefixes) come
    from the [rfc_6265] crate, the calendar from the [time] crate: both are the
    class [CookieCrates].  An [OffsetDateTime] is a [Z].  The jar's mutex makes
    each of its operations one step, so they are state transformers. *)

From stdpp Require Import sorting.
From S2P Require Import Prelude RustStr Http IpAddr.
From Stdlib Require Import Ascii.
From Stdlib Require String.

Local Open Scope Z_scope.

Class CookieCrates := {
  parse_cookie_date : string -> option Z;
  rfc_domain_matches : string -> string -> bool;
  domain_to_ascii : string -> option string;
  has_host_prefix : string -> bool;
  has_secure_prefix : string -> bool;
  default_path : string -> string;
  path_matches : string -> string -> bool;
  (** [now.saturating_add(Duration::seconds(s))] *)
  date_saturating_add : Z -> Z -> Z;
}.

Definition MAX_COOKIE_PAIR_OCTETS : Z := 4096.
Definition MAX_COOKIE_ATTRIBUTE_VALUE_OCTETS : Z := 1024.
Definition MAX_SET_COOKIE_OCTETS : Z := 16 * 1024.
Definition MAX_COOKIES_PER_DOMAIN : nat := 50.
Definition MAX_COOKIES : nat := Z.to_nat 3000.
Definition MAX_COOKIE_AGE_SECONDS : Z := 400 * 24 * 60 * 60.
Definition SET_COOKIE_HEADER_NAME : string := "set-cookie".
Definition I64_MAX : Z := 9223372036854775807.

Record StoredCookie := {
  cookie_name : string;
  wire_pair : string;
  cookie_domain : string;
  cookie_path : string;
  host_only : bool;
  cookie_secure : bool;
  expires_at : option Z;
  creation : Z;
  last_access : Z;
}.

#[export] Instance eta_StoredCookie : Eta StoredCookie := fun c =>
  Build_StoredCookie (cookie_name c) (wire_pair c) (cookie_domain c) (cookie_path c)
    (host_only c) (cookie_secure c) (expires_at c) (creation c) (last_access c).

Record CookieStore := {
  cookies : list StoredCookie;
  next_creation : Z;
  next_access : Z;
}.

#[export] Instance eta_CookieStore : Eta CookieStore := fun s =>
  Build_CookieStore (cookies s) (next_creation s) (next_access s).

Definition cookie_store_default : CookieStore :=
  {| cookies := []; next_creation := 0; next_access := 0 |}.

Record CookieAttributes := {
  attr_domain : option string;
  attr_path : option string;
  attr_secure : bool;
  attr_expires : option Z;
  attr_max_age : option Z;
}.

#[export] Instance eta_CookieAttributes : Eta CookieAttributes := fun a =>
  Build_CookieAttributes (attr_domain a) (attr_path a) (attr_secure a)
    (attr_expires a) (attr_max_age a).

(** ** Lexical helpers *)

Definition trim_cookie_whitespace (value : string) : string := trim_space_tab value.

Definition contains_disallowed_control (value : string) : bool :=
  existsb (fun byte => ((0 <=? byte) && (byte <=? 8)) || ((10 <=? byte) && (byte <=? 31))
                       || (byte =? 127)) (bytes value).

Fixpoint octet_len_from (octets : Z) (characters : list Z) : option Z :=
  match characters with
  | [] => Some octets
  | character :: rest => if 255 <? character then None else octet_len_from (octets + 1) rest
  end.

Definition response_header_octet_len (value : string) : option Z :=
  octet_len_from 0 (chars value).

Definition parse_cookie_pair (value : string) : option (string * string) :=
  let cookie := match split_once ";" value with Some (before, _) => before | None => value end in
  let '(name, cookie_value) := default (""%string, cookie) (split_once "=" cookie) in
  let name := trim_cookie_whitespace name in
  let cookie_value := trim_cookie_whitespace cookie_value in
  if negb (is_empty name) || negb (is_empty cookie_value) then Some (name, cookie_value) else None.

Definition serialize_cookie_pair `{HttpCrate} (name value : string) : option string :=
  if (MAX_COOKIE_PAIR_OCTETS <? len name + len value)
     || negb (is_ascii name) || negb (is_ascii value)
  then None
  else
    let wire := ((if is_empty name then "" else name ++ "=") ++ value)%string in
    match header_value_from_str wire with Ok _ => Some wire | Err _ => None end.

Definition saturating_i64 (z : Z) : Z := Z.min I64_MAX z.

Section cookies.
Context `{CookieCrates}.

Definition parse_max_age (value : string) (now : Z) : option Z :=
  let (negative, digits) :=
    match strip_prefix "-" value with Some digits => (true, digits) | None => (false, value) end in
  if is_empty digits || negb (string_forall is_ascii_digit digits) then None
  else if negative || string_forall (Ascii.eqb "0") digits then Some now
  else
    let seconds := fold_left (fun seconds byte =>
      Z.min (saturating_i64 (saturating_i64 (seconds * 10) + (byte - 48)))
            MAX_COOKIE_AGE_SECONDS) (bytes digits) 0 in
    Some (date_saturating_add now seconds).

Definition clamp_cookie_expiry (expires now : Z) : Z :=
  Z.min expires (date_saturating_add now MAX_COOKIE_AGE_SECONDS).

Definition parse_attribute (now : Z) (attributes : CookieAttributes) (raw_attribute : string) :
    CookieAttributes :=
  let '(name, attribute_value) := default (raw_attribute, ""%string) (split_once "=" raw_attribute) in
  let name := trim_cookie_whitespace name in
  let attribute_value := trim_cookie_whitespace attribute_value in
  if match response_header_octet_len attribute_value with
     | None => true
     | Some octets => MAX_COOKIE_ATTRIBUTE_VALUE_OCTETS <? octets
     end
  then attributes
  else if eq_ignore_ascii_case name "domain" then attributes <| attr_domain := Some attribute_value |>
  else if eq_ignore_ascii_case name "path" then attributes <| attr_path := Some attribute_value |>
  else if eq_ignore_ascii_case name "secure" then attributes <| attr_secure := true |>
  else if eq_ignore_ascii_case name "expires" then
    match parse_cookie_date attribute_value with
    | Some expires => attributes <| attr_expires := Some (clamp_cookie_expiry expires now) |>
    | None => attributes
    end
  else if eq_ignore_ascii_case name "max-age" then
    match parse_max_age attribute_value now with
    | Some expires => attributes <| attr_max_age := Some expires |>
    | None => attributes
    end
  else attributes.

Definition cookie_attributes_parse (value : string) (now : Z) : CookieAttributes :=
  fold_left (parse_attribute now) (drop 1 (split ";" value))
    {| attr_domain := None; attr_path := None; attr_secure := false;
       attr_expires := None; attr_max_age := None |}.

Definition canonical_cookie_domain (value : string) : option string :=
  match parse_ip_addr value with
  | Some address => Some (ip_to_string address)
  | None => domain_to_ascii value
  end.

Definition is_trustworthy_origin `{UrlCrate} (url : HttpUrl) : bool :=
  if String.eqb (scheme url) "https" then true
  else
    let host := host url in
    match parse_ip_addr host with
    | Some address => is_loopback address
    | None => eq_ignore_ascii_case host "localhost"
              || ends_with ".localhost" (to_ascii_lowercase host)
    end.

(** ** One cookie *)

(** The domain of the cookie and its host-only flag. *)
Definition cookie_scope (domain_attribute : option string) (origin_host : string) :
    option (string * bool) :=
  match domain_attribute with
  | Some domain =>
      if is_empty domain then Some (origin_host, true)
      else if negb (is_ascii domain) then None
      else
        domain ← canonical_cookie_domain domain;
        if negb (rfc_domain_matches origin_host domain) then None else Some (domain, false)
  | None => Some (origin_host, true)
  end.

Definition stored_cookie_parse `{HttpCrate} (value origin_host request_path : string)
    (origin_secure : bool) (now : Z) : option StoredCookie :=
  if contains_disallowed_control value then None
  else
    '(name, cookie_value) ← parse_cookie_pair value;
    wire_pair ← serialize_cookie_pair name cookie_value;
    let attributes := cookie_attributes_parse value now in
    let domain_attribute :=
      (fun domain => default domain (strip_prefix "." domain)) <$> attr_domain attributes in
    '(domain, host_only) ← cookie_scope domain_attribute origin_host;
    let path_attribute_present := bool_decide (is_Some (attr_path attributes)) in
    let path := match attr_path attributes with
                | Some path => if starts_with "/" path then path else default_path request_path
                | None => default_path request_path
                end in
    let secure := attr_secure attributes in
    if secure && negb origin_secure then None
    else if has_secure_prefix name && negb secure then None
    else if has_host_prefix name
            && (negb secure || negb host_only || negb path_attribute_present
                || negb (String.eqb path "/"))
    then None
    else if is_empty name && (has_secure_prefix cookie_value || has_host_prefix cookie_value)
    then None
    else Some {| cookie_name := name; wire_pair := wire_pair; cookie_domain := domain;
                 cookie_path := path; host_only := host_only; cookie_secure := secure;
                 expires_at := match attr_max_age attributes with
                               | Some m => Some m | None => attr_expires attributes end;
                 creation := 0; last_access := 0 |}.

Definition has_same_identity (c other : StoredCookie) : bool :=
  String.eqb (cookie_name c) (cookie_name other)
  && String.eqb (cookie_domain c) (cookie_domain other)
  && Bool.eqb (host_only c) (host_only other)
  && String.eqb (cookie_path c) (cookie_path other).

Definition is_expired (now : Z) (c : StoredCookie) : bool :=
  match expires_at c with Some e => e <=? now | None => false end.

Definition cookie_matches (host path : string) (secure : bool) (c : StoredCookie) : bool :=
  (if host_only c then String.eqb (cookie_domain c) host
   else rfc_domain_matches host (cookie_domain c))
  && path_matches path (cookie_path c)
  && (negb (cookie_secure c) || secure).

(** ** Capacity *)

(** [min_by_key(|(_, cookie)| (last_access, creation))] over the cookies selected
    by [p]: the index of the first minimum. *)
Definition age_lt (a b : StoredCookie) : bool :=
  (last_access a <? last_access b)
  || ((last_access a =? last_access b) && (creation a <? creation b)).

Fixpoint oldest_from (p : StoredCookie -> bool) (i : nat) (best : option (nat * StoredCookie))
    (l : list StoredCookie) : option nat :=
  match l with
  | [] => fst <$> best
  | c :: rest =>
      let best := if p c then
                    match best with
                    | Some (_, b) => if age_lt c b then Some (i, c) else best
                    | None => Some (i, c)
                    end
                  else best in
      oldest_from p (S i) best rest
  end.

Definition oldest_index (p : StoredCookie -> bool) (l : list StoredCookie) : option nat :=
  oldest_from p 0 None l.

Definition in_domain (domain : string) (c : StoredCookie) : bool :=
  String.eqb (cookie_domain c) domain.

(** The cookies one of which a domain over its capacity gives up. *)
Definition evictable (domain : string) (l : list StoredCookie) (c : StoredCookie) : bool :=
  let has_non_secure := existsb (fun c => in_domain domain c && negb (cookie_secure c)) l in
  in_domain domain c && (negb has_non_secure || negb (cookie_secure c)).

(** The two loops; [None] is the [expect] failing, or the fuel running out.  Each
    iteration removes a cookie, so the number of cookies is enough fuel. *)
Fixpoint enforce_domain_capacity (fuel : nat) (domain : string) (l : list StoredCookie) :
    option (list StoredCookie) :=
  if (MAX_COOKIES_PER_DOMAIN <? length (filter (fun c => in_domain domain c = true) l))%nat then
    match fuel with
    | O => None
    | S fuel' =>
        index ← oldest_index (evictable domain l) l;
        enforce_domain_capacity fuel' domain (delete index l)
    end
  else Some l.

Fixpoint enforce_total_capacity (fuel : nat) (l : list StoredCookie) :
    option (list StoredCookie) :=
  if (MAX_COOKIES <? length l)%nat then
    match fuel with
    | O => None
    | S fuel' =>
        index ← oldest_index (fun _ => true) l;
        enforce_total_capacity fuel' (delete index l)
    end
  else Some l.

Definition enforce_capacity (domain : string) (l : list StoredCookie) :
    option (list StoredCookie) :=
  l ← enforce_domain_capacity (length l) domain l;
  enforce_total_capacity (length l) l.

(** ** The store *)

Definition would_overlay_secure_cookie (s : CookieStore) (candidate : StoredCookie) : bool :=
  existsb (fun existing =>
    cookie_secure existing
    && String.eqb (cookie_name existing) (cookie_name candidate)
    && (rfc_domain_matches (cookie_domain candidate) (cookie_domain existing)
        || rfc_domain_matches (cookie_domain existing) (cookie_domain candidate))
    && path_matches (cookie_path candidate) (cookie_path existing)) (cookies s).

Fixpoint position (p : StoredCookie -> bool) (l : list StoredCookie) : option nat :=
  match l with
  | [] => None
  | c :: rest => if p c then Some O else S <$> position p rest
  end.

(** [None] is a panic. *)
Definition cookie_store_store `{HttpCrate} (s : CookieStore)
    (value origin_host request_path : string) (origin_secure : bool) (now : Z) :
    option CookieStore :=
  let_some candidate := stored_cookie_parse value origin_host request_path origin_secure now
    else Some s in
  if negb origin_secure && would_overlay_secure_cookie s candidate then Some s
  else
    let existing := position (fun c => has_same_identity c candidate) (cookies s) in
    if is_expired now candidate then
      Some (match existing with
            | Some index => s <| cookies ::= delete index |>
            | None => s
            end)
    else
      let candidate := candidate <| last_access := next_access s |> in
      let s := s <| next_access ::= saturating_add 1 |> in
      match existing with
      | Some index =>
          old ← cookies s !! index;
          Some (s <| cookies ::= <[index := candidate <| creation := creation old |>]> |>)
      | None =>
          let candidate := candidate <| creation := next_creation s |> in
          let domain := cookie_domain candidate in
          let s := s <| next_creation ::= saturating_add 1 |> in
          kept ← enforce_capacity domain (cookies s ++ [candidate]);
          Some (s <| cookies := kept |>)
      end.

(** [sort_by] (a stable sort) with the comparison of the code: longer paths first,
    then older cookies. *)
Definition send_before (a b : nat * StoredCookie) : Prop :=
  len (cookie_path (snd b)) < len (cookie_path (snd a))
  \/ (len (cookie_path (snd b)) = len (cookie_path (snd a)) /\ creation (snd a) <= creation (snd b)).

#[export] Instance send_before_dec : RelDecision send_before.
Proof. intros a b. unfold send_before. apply _. Defined.

Definition matching_cookies (s : CookieStore) (host path : string) (secure : bool) :
    list (nat * StoredCookie) :=
  filter (fun ic => cookie_matches host path secure (snd ic) = true)
    (imap (fun index cookie => (index, cookie)) (cookies s)).

Fixpoint push_pairs (header : string) (pairs : list string) : string :=
  match pairs with
  | [] => header
  | wire :: rest =>
      push_pairs ((header ++ (if is_empty header then "" else "; ")) ++ wire)%string rest
  end.

Definition touch (access : Z) (index : nat) (l : list StoredCookie) : list StoredCookie :=
  alter (fun c => c <| last_access := access |>) index l.

Definition store_request_header (s : CookieStore) (host path : string) (secure : bool) :
    option string * CookieStore :=
  let matching := merge_sort send_before (matching_cookies s host path secure) in
  match matching with
  | [] => (None, s)
  | _ =>
      let access := next_access s in
      let s := s <| next_access ::= saturating_add 1 |> in
      (Some (push_pairs "" ((fun ic => wire_pair (snd ic)) <$> matching)),
       s <| cookies ::= fun l => fold_left (fun l ic => touch access (fst ic) l) matching l |>)
  end.

Definition purge_expired (s : CookieStore) (now : Z) : CookieStore :=
  s <| cookies ::= filter (fun c => is_expired now c = false) |>.

(** ** The jar *)

Definition request_header_at `{UrlCrate} (s : CookieStore) (url : HttpUrl) (now : Z) :
    option string * CookieStore :=
  match canonical_cookie_domain (host url) with
  | None => (None, s)
  | Some host =>
      let secure := is_trustworthy_origin url in
      let s := purge_expired s now in
      store_request_header s host (path url) secure
  end.

Definition is_set_cookie (h : string * string) : bool :=
  eq_ignore_ascii_case (fst h) SET_COOKIE_HEADER_NAME
  && match response_header_octet_len (snd h) with
     | Some octets => octets <=? MAX_SET_COOKIE_OCTETS
     | None => false
     end.

Fixpoint store_headers `{HttpCrate} (s : CookieStore) (host path : string) (secure : bool)
    (now : Z) (headers : HeaderPairs) : option CookieStore :=
  match headers with
  | [] => Some s
  | h :: rest =>
      s ← (if is_set_cookie h then cookie_store_store s (snd h) host path secure now else Some s);
      store_headers s host path secure now rest
  end.

Definition store_response_at `{UrlCrate} `{HttpCrate} (s : CookieStore) (url : HttpUrl)
    (headers : HeaderPairs) (now : Z) : option CookieStore :=
  match canonical_cookie_domain (host url) with
  | None => Some s
  | Some host =>
      let secure := is_trustworthy_origin url in
      let s := purge_expired s now in
      store_headers s host (path url) secure now headers
  end.

(** ** Well-formed stores *)

(** What distinguishes cookies in the store. *)
Definition identity (c : StoredCookie) : string * string * bool * string :=
  (cookie_name c, cookie_domain c, host_only c, cookie_path c).

Definition domain_count (domain : string) (l : list StoredCookie) : nat :=
  length (filter (fun c => in_domain domain c = true) l).

(** The invariant of the jar: at most one cookie per identity, the capacity per
    domain, the total capacity, and no empty pair. *)
Record jar_wf (s : CookieStore) : Prop := {
  wf_identity : NoDup (identity <$> cookies s);
  wf_domain : forall domain, (domain_count domain (cookies s) <= MAX_COOKIES_PER_DOMAIN)%nat;
  wf_total : (length (cookies s) <= MAX_COOKIES)%nat;
  wf_pairs : Forall (fun c => wire_pair c <> ""%string) (cookies s);
}.

Definition fresh (now : Z) (s : CookieStore) : Prop :=
  Forall (fun c => is_expired now c = false) (cookies s).

Lemma has_same_identity_spec c d : has_same_identity c d = true <-> identity c = identity d.
Proof.
  unfold has_same_identity, identity.
  rewrite !andb_true_iff, !String.eqb_eq, Bool.eqb_true_iff, !pair_equal_spec. tauto.
Qed.

Lemma domain_count_identity domain l l' :
  identity <$> l = identity <$> l' -> domain_count domain l = domain_count domain l'.
Proof.
  unfold domain_count. revert l'; induction l as [|c l IH]; intros [|c' l'] Hl; try done.
  injection Hl as Hn Hd Hh Hp Hl. specialize (IH _ Hl).
  rewrite !filter_cons. unfold in_domain in *. rewrite Hd. case_decide; cbn; by rewrite ?IH.
Qed.

Lemma domain_count_sublist domain l l' :
  l `sublist_of` l' -> (domain_count domain l <= domain_count domain l')%nat.
Proof. intros Hl. unfold domain_count. apply sublist_length. by apply filter_sublist. Qed.

Lemma domain_count_app domain l c :
  domain_count domain (l ++ [c]) =
  (domain_count domain l + if in_domain domain c then 1 else 0)%nat.
Proof.
  unfold domain_count. rewrite filter_app, length_app. f_equal.
  destruct (in_domain domain c) eqn:Hd; [by rewrite filter_cons_True | by rewrite filter_cons_False; rewrite ?Hd].
Qed.

(** A sublist of a well-formed store is well formed. *)
Lemma jar_wf_sublist l s :
  l `sublist_of` cookies s -> jar_wf s ->
  forall s', cookies s' = l -> jar_wf s'.
Proof.
  intros Hl [Hi Hd Ht Hp] s' <-. split.
  - eapply sublist_NoDup; [done | by apply fmap_sublist].
  - intros domain. etrans; [by apply domain_count_sublist | apply Hd].
  - etrans; [by apply sublist_length | done].
  - rewrite Forall_forall in *. intros c Hc. apply Hp. by eapply elem_of_sublist.
Qed.

(** ** Searching *)

Lemma position_Some p l i : position p l = Some i -> exists c, l !! i = Some c /\ p c = true.
Proof.
  revert i; induction l as [|c l IH]; intros i; [done|]. cbn.
  destruct (p c) eqn:Hc; [intros [= <-]; by exists c|].
  intros (j & Hj & ->)%fmap_Some. by apply IH.
Qed.

Lemma position_None p l : position p l = None -> forall c, c ∈ l -> p c = false.
Proof.
  induction l as [|c l IH]; intros Hn d Hd; [by apply elem_of_nil in Hd|].
  cbn in Hn. destruct (p c) eqn:Hc; [done|]. apply fmap_None in Hn.
  apply elem_of_cons in Hd as [->|Hd]; [done | by apply IH].
Qed.

Lemma oldest_from_Some p i best l k :
  oldest_from p i best l = Some k ->
  (exists b, best = Some (k, b)) \/ exists c, l !! (k - i)%nat = Some c /\ p c = true /\ (i <= k)%nat.
Proof.
  revert i best; induction l as [|c l IH]; intros i best; cbn.
  - intros ([j b] & -> & ->)%fmap_Some. left. by exists b.
  - intros Ho. apply IH in Ho as [[b Hb]|(d & Hd & Hp & Hk)].
    + destruct (p c) eqn:Hc; [|left; by exists b].
      destruct best as [[j b']|]; [destruct (age_lt c b')|]; try (left; by exists b);
        injection Hb as <- <-; right; exists c; rewrite Nat.sub_diag; auto.
    + right. exists d. split_and!; [|done|lia].
      replace (k - i)%nat with (S (k - S i)) by lia. done.
Qed.

Lemma oldest_from_is_Some p i best l :
  is_Some best \/ (exists c, c ∈ l /\ p c = true) -> is_Some (oldest_from p i best l).
Proof.
  revert i best; induction l as [|c l IH]; intros i best Ho; cbn.
  - destruct Ho as [[b ->]|(c & Hc%elem_of_nil & _)]; [by eexists|done].
  - apply IH. destruct Ho as [[[j b] ->]|(d & [->|Hd]%elem_of_cons & Hp)].
    + left. destruct (p c); [destruct (age_lt c b)|]; by eexists.
    + left. rewrite Hp. destruct best as [[j b]|]; [destruct (age_lt c b)|]; by eexists.
    + right. by exists d.
Qed.

Lemma oldest_index_Some p l k :
  oldest_index p l = Some k -> exists c, l !! k = Some c /\ p c = true.
Proof.
  intros [[b Hb]|(c & Hc & Hp & _)]%oldest_from_Some; [done|].
  rewrite Nat.sub_0_r in Hc. by exists c.
Qed.

Lemma oldest_index_is_Some p l : (exists c, c ∈ l /\ p c = true) -> is_Some (oldest_index p l).
Proof. intros Ho. apply oldest_from_is_Some. by right. Qed.

(** ** Capacity *)

Lemma length_delete_lookup {A} (l : list A) i x : l !! i = Some x -> length l = S (length (delete i l)).
Proof.
  intros Hi. pose proof (lookup_lt_Some _ _ _ Hi). rewrite length_delete by (by eexists). lia.
Qed.

Lemma evictable_exists domain l :
  (0 < domain_count domain l)%nat -> exists c, c ∈ l /\ evictable domain l c = true.
Proof.
  unfold evictable.
  destruct (existsb (fun c => in_domain domain c && negb (cookie_secure c)) l) eqn:He.
  - intros _. apply existsb_exists in He as (c & Hc & Hp). exists c.
    split; [by apply list_elem_of_In|]. done.
  - unfold domain_count. intros Hpos.
    destruct (filter (fun c => in_domain domain c = true) l) as [|c rest] eqn:Hf; [cbn in Hpos; lia|].
    assert (Hc : c ∈ filter (fun c => in_domain domain c = true) l) by (rewrite Hf; apply list_elem_of_here).
    apply list_elem_of_filter in Hc as [Hd Hc]. exists c. split; [done|]. by rewrite Hd.
Qed.

Lemma enforce_domain_capacity_spec fuel domain l :
  (length l <= fuel)%nat ->
  exists l', enforce_domain_capacity fuel domain l = Some l' /\ l' `sublist_of` l /\
    (domain_count domain l' <= MAX_COOKIES_PER_DOMAIN)%nat.
Proof.
  revert l; induction fuel as [|fuel IH]; intros l Hl; cbn [enforce_domain_capacity];
    fold (domain_count domain l);
    destruct (Nat.ltb_spec MAX_COOKIES_PER_DOMAIN (domain_count domain l)) as [Hlt|Hge].
  - destruct l; [cbn in Hlt; lia | cbn in Hl; lia].
  - eexists; split_and!; [done | done | done].
  - destruct (oldest_index_is_Some (evictable domain l) l) as [i Hi].
    { apply evictable_exists. lia. }
    rewrite Hi. cbn [mbind option_bind].
    destruct (oldest_index_Some _ _ _ Hi) as (c & Hc & _).
    apply length_delete_lookup in Hc.
    destruct (IH (delete i l)) as (l' & -> & Hs & Hcount); [lia|].
    exists l'. split_and!; [done | | done]. etrans; [done | apply sublist_delete].
  - eexists; split_and!; [done | done | done].
Qed.

Lemma enforce_total_capacity_spec fuel l :
  (length l <= fuel)%nat ->
  exists l', enforce_total_capacity fuel l = Some l' /\ l' `sublist_of` l /\
    (length l' <= MAX_COOKIES)%nat /\ ((length l <= MAX_COOKIES)%nat -> l' = l).
Proof.
  revert l; induction fuel as [|fuel IH]; intros l Hl; cbn [enforce_total_capacity];
    destruct (Nat.ltb_spec MAX_COOKIES (length l)) as [Hlt|Hge].
  - lia.
  - eexists; split_and!; done.
  - destruct (oldest_index_is_Some (fun _ => true) l) as [i Hi].
    { destruct l as [|c l]; [cbn in Hlt; lia|]. exists c. split; [apply list_elem_of_here | done]. }
    rewrite Hi. cbn [mbind option_bind].
    destruct (oldest_index_Some _ _ _ Hi) as (c & Hc & _).
    apply length_delete_lookup in Hc.
    destruct (IH (delete i l)) as (l' & -> & Hs & Hcount & _); [lia|].
    exists l'. split_and!; [done | | done | lia]. etrans; [done | apply sublist_delete].
  - eexists; split_and!; done.
Qed.

(** ** Parsing *)

(** What the jar relies on: a domain matches itself, a path matches itself, and
    adding a non-negative duration to a date is monotone. *)
Class CookieLaws := {
  domain_matches_refl : forall d, rfc_domain_matches d d = true;
  path_matches_refl : forall p, path_matches p p = true;
  date_add_mono : forall now a b, 0 <= a <= b ->
    now <= date_saturating_add now a <= date_saturating_add now b;
}.

Lemma max_age_fold ds acc :
  Forall (fun d => 48 <= d <= 57) ds -> 0 <= acc ->
  fold_left (fun seconds byte =>
      Z.min (saturating_i64 (saturating_i64 (seconds * 10) + (byte - 48)))
            MAX_COOKIE_AGE_SECONDS) ds (Z.min acc MAX_COOKIE_AGE_SECONDS) =
  Z.min (fold_left (fun acc d => 10 * acc + (d - 48)) ds acc) MAX_COOKIE_AGE_SECONDS.
Proof.
  intros Hds. revert acc; induction Hds as [|d ds Hd _ IH]; intros acc Hacc; cbn [fold_left]; [done|].
  rewrite <- IH by lia. f_equal. unfold saturating_i64, I64_MAX, MAX_COOKIE_AGE_SECONDS. lia.
Qed.

Lemma all_digits s : string_forall is_ascii_digit s = true ->
  Forall (fun d => 48 <= d <= 57) (bytes s).
Proof.
  unfold string_forall. induction s as [|c s IH]; cbn; [constructor|].
  rewrite andb_true_iff. intros [Hc Hs]. constructor; [|by apply IH].
  unfold is_ascii_digit in Hc. lia.
Qed.

Lemma digits_value_nonneg ds acc :
  Forall (fun d => 48 <= d <= 57) ds -> 0 <= acc ->
  0 <= fold_left (fun acc d => 10 * acc + (d - 48)) ds acc.
Proof.
  intros Hds. revert acc; induction Hds; intros acc Hacc; cbn; [done|]. apply IHHds. lia.
Qed.

(** The saturating accumulation of [Max-Age] digits is the value of the digits,
    capped at 400 days. *)
Lemma parse_max_age_digits digits now :
  is_empty digits = false -> string_forall is_ascii_digit digits = true ->
  string_forall (Ascii.eqb "0") digits = false ->
  parse_max_age digits now =
  Some (date_saturating_add now (Z.min (digits_value (bytes digits)) MAX_COOKIE_AGE_SECONDS)).
Proof.
  intros He Hd Hz. unfold parse_max_age.
  assert (strip_prefix "-" digits = None) as ->.
  { destruct digits as [|c s]; [done|]. cbn [strip_prefix]. destruct (Ascii.eqb_spec "-" c) as [<-|]; [discriminate Hd | done]. }
  rewrite He, Hd, Hz. cbn [negb orb]. f_equal. f_equal.
  apply (max_age_fold (bytes digits) 0); [by apply all_digits | lia].
Qed.

Lemma parse_max_age_bound `{!CookieLaws} value now e :
  parse_max_age value now = Some e -> e <= date_saturating_add now MAX_COOKIE_AGE_SECONDS.
Proof.
  unfold parse_max_age.
  destruct (match strip_prefix "-" value with Some _ => _ | None => _ end) as [negative digits].
  destruct (is_empty digits || _) eqn:Hd; [done|].
  apply orb_false_iff in Hd as [_ Hd%negb_false_iff].
  case_match; intros [= <-].
  - destruct (date_add_mono now 0 MAX_COOKIE_AGE_SECONDS) as [? ?]; [done|lia].
  - apply date_add_mono. apply all_digits in Hd.
    pose proof (max_age_fold (bytes digits) 0 Hd) as Hf.
    change (Z.min 0 MAX_COOKIE_AGE_SECONDS) with 0 in Hf. rewrite Hf by done.
    pose proof (digits_value_nonneg _ 0 Hd). unfold MAX_COOKIE_AGE_SECONDS. lia.
Qed.

Definition attributes_bounded (now : Z) (a : CookieAttributes) : Prop :=
  (forall e, attr_expires a = Some e -> e <= date_saturating_add now MAX_COOKIE_AGE_SECONDS) /\
  (forall e, attr_max_age a = Some e -> e <= date_saturating_add now MAX_COOKIE_AGE_SECONDS).

Lemma parse_attribute_bounded `{!CookieLaws} now a raw :
  attributes_bounded now a -> attributes_bounded now (parse_attribute now a raw).
Proof.
  intros [He Hm]. unfold parse_attribute.
  destruct (default _ _) as [name attribute_value]. case_match; [done|].
  destruct (eq_ignore_ascii_case _ "domain"); [by split|].
  destruct (eq_ignore_ascii_case _ "path"); [by split|].
  destruct (eq_ignore_ascii_case _ "secure"); [by split|].
  destruct (eq_ignore_ascii_case _ "expires").
  - destruct (parse_cookie_date _); [|by split]. split; cbn; [|done].
    intros e [= <-]. unfold clamp_cookie_expiry. lia.
  - destruct (eq_ignore_ascii_case _ "max-age"); [|by split].
    destruct (parse_max_age _ _) as [m|] eqn:Hp; [|by split]. split; cbn; [done|].
    intros e [= <-]. by eapply parse_max_age_bound.
Qed.

Lemma cookie_attributes_bounded `{!CookieLaws} value now :
  attributes_bounded now (cookie_attributes_parse value now).
Proof.
  unfold cookie_attributes_parse. generalize (drop 1 (split ";" value)). intros l.
  assert (Hi : attributes_bounded now {| attr_domain := None; attr_path := None;
    attr_secure := false; attr_expires := None; attr_max_age := None |}) by done.
  revert Hi. generalize ({| attr_domain := None; attr_path := None;
    attr_secure := false; attr_expires := None; attr_max_age := None |}).
  induction l as [|raw l IH]; intros a Ha; cbn; [done|]. by apply IH, parse_attribute_bounded.
Qed.

Lemma serialize_nonempty `{HttpCrate} name value wire :
  serialize_cookie_pair name value = Some wire -> is_empty name = false \/ is_empty value = false ->
  wire <> ""%string /\ len wire <= MAX_COOKIE_PAIR_OCTETS + 1.
Proof.
  unfold serialize_cookie_pair. destruct (_ || _ || _) eqn:Hl; [done|].
  apply orb_false_iff in Hl as [[Hl%Z.ltb_ge _]%orb_false_iff _].
  destruct (header_value_from_str _) as [v|e]; [|done].
  intros [= <-] Hne. unfold len in *. rewrite !string_app_length.
  destruct name as [|c name]; cbn [is_empty] in *; rewrite ?string_app_length;
    cbn [String.length] in *; (split; [|lia]).
  - by destruct value, Hne.
  - done.
Qed.

Lemma parse_cookie_pair_nonempty value name cookie_value :
  parse_cookie_pair value = Some (name, cookie_value) ->
  is_empty name = false \/ is_empty cookie_value = false.
Proof.
  unfold parse_cookie_pair. destruct (default _ _) as [n v].
  destruct (_ || _) eqn:Hne; [|done]. intros [= <- <-].
  apply orb_true_iff in Hne as [Hn|Hn]; apply negb_true_iff in Hn; auto.
Qed.

(** What the jar knows about a cookie it accepted from [host] over a connection
    that is secure or not. *)
Record accepted_cookie (host : string) (secure : bool) (now : Z) (c : StoredCookie) : Prop := {
  accepted_secure : cookie_secure c = true -> secure = true;
  accepted_domain : (host_only c = true /\ cookie_domain c = host)
    \/ (host_only c = false /\ rfc_domain_matches host (cookie_domain c) = true);
  accepted_secure_prefix : has_secure_prefix (cookie_name c) = true -> cookie_secure c = true;
  accepted_host_prefix : has_host_prefix (cookie_name c) = true ->
    cookie_secure c = true /\ host_only c = true /\ cookie_domain c = host
    /\ cookie_path c = "/"%string;
  accepted_expiry : forall e, expires_at c = Some e ->
    e <= date_saturating_add now MAX_COOKIE_AGE_SECONDS;
  accepted_pair : wire_pair c <> ""%string /\ len (wire_pair c) <= MAX_COOKIE_PAIR_OCTETS + 1;
}.

Lemma cookie_scope_sound attribute host domain ho :
  cookie_scope attribute host = Some (domain, ho) ->
  (ho = true /\ domain = host) \/ (ho = false /\ rfc_domain_matches host domain = true).
Proof.
  unfold cookie_scope. destruct attribute as [d|]; [|intros [= <- <-]; by left].
  destruct (is_empty d); [intros [= <- <-]; by left|]. destruct (negb (is_ascii d)); [done|].
  destruct (canonical_cookie_domain d) as [d'|]; [|done]. cbn [mbind option_bind].
  destruct (rfc_domain_matches host d') eqn:Hd; [|done]. intros [= <- <-]. by right.
Qed.

Lemma stored_cookie_parse_sound `{HttpCrate} `{!CookieLaws} value host path secure now c :
  stored_cookie_parse value host path secure now = Some c -> accepted_cookie host secure now c.
Proof.
  unfold stored_cookie_parse. destruct (contains_disallowed_control value); [done|].
  destruct (parse_cookie_pair value) as [[name cookie_value]|] eqn:Hpair; [|done].
  cbn [mbind option_bind].
  destruct (serialize_cookie_pair name cookie_value) as [wire|] eqn:Hwire; [|done].
  cbn [mbind option_bind].
  destruct (cookie_scope _ host) as [[domain ho]|] eqn:Hscope; [|done].
  cbn [mbind option_bind].
  destruct (attr_secure _ && negb secure) eqn:Hsec; [done|].
  destruct (has_secure_prefix name && _) eqn:Hspre; [done|].
  destruct (has_host_prefix name && _) eqn:Hhpre; [done|].
  destruct (is_empty name && _); [done|]. intros [= <-].
  apply cookie_scope_sound in Hscope.
  apply parse_cookie_pair_nonempty in Hpair.
  set (a := cookie_attributes_parse value now) in *.
  split; cbn.
  - intros Hs. rewrite Hs in Hsec. by apply negb_false_iff in Hsec.
  - tauto.
  - intros Hp. rewrite Hp in Hspre. by apply negb_false_iff in Hspre.
  - intros Hp. rewrite Hp in Hhpre. cbn [andb] in Hhpre.
    rewrite !orb_false_iff, !negb_false_iff, String.eqb_eq in Hhpre.
    destruct Hhpre as [[[Hs Hh] _] Hpath]. destruct Hscope as [[_ Hd]|[Hf _]]; [auto|congruence].
  - intros e He. destruct (cookie_attributes_bounded value now) as [Hx Hm]. fold a in Hx, Hm.
    destruct (attr_max_age a); [by apply Hm | by apply Hx].
  - by eapply serialize_nonempty.
Qed.

(** ** Storing *)

Lemma jar_wf_identity s s' :
  jar_wf s -> identity <$> cookies s' = identity <$> cookies s ->
  Forall (fun c => wire_pair c <> ""%string) (cookies s') -> jar_wf s'.
Proof.
  intros [Hi Hd Ht Hp] Hid Hp'. split; [by rewrite Hid | | | done].
  - intros domain. by rewrite (domain_count_identity domain _ _ Hid).
  - by rewrite <- (length_fmap identity), Hid, length_fmap.
Qed.

(** A new cookie, appended and then subject to the capacity. *)
Lemma insert_new_wf s c l :
  jar_wf s -> wire_pair c <> ""%string -> (forall d, d ∈ cookies s -> identity d <> identity c) ->
  enforce_capacity (cookie_domain c) (cookies s ++ [c]) = Some l ->
  forall s', cookies s' = l -> jar_wf s' /\ l `sublist_of` cookies s ++ [c].
Proof.
  intros [Hi Hd Ht Hp] Hw Hnew Hl s' <-. revert Hl. unfold enforce_capacity.
  destruct (enforce_domain_capacity_spec (length (cookies s ++ [c])) (cookie_domain c)
              (cookies s ++ [c])) as (l1 & -> & Hs1 & Hc1); [done|].
  cbn [mbind option_bind].
  destruct (enforce_total_capacity_spec (length l1) l1) as (l2 & -> & Hs2 & Hc2 & _); [done|].
  intros [= ->].
  assert (Hs : cookies s' `sublist_of` cookies s ++ [c]) by (by etrans). split; [|done]. split.
  - eapply sublist_NoDup; [|by apply fmap_sublist]. rewrite fmap_app. apply NoDup_app.
    split_and!; [done | | apply NoDup_singleton].
    intros i (d & -> & Hdin)%list_elem_of_fmap. cbn. rewrite list_elem_of_singleton.
    by apply Hnew.
  - intros domain. destruct (String.eqb_spec (cookie_domain c) domain) as [<-|Hne].
    + etrans; [apply (domain_count_sublist _ _ _ Hs2) | done].
    + etrans; [apply (domain_count_sublist _ _ _ Hs)|]. rewrite domain_count_app.
      unfold in_domain. apply String.eqb_neq in Hne. rewrite Hne. specialize (Hd domain). lia.
  - done.
  - apply Forall_forall. intros d Hdin. eapply elem_of_sublist in Hdin; [|done].
    rewrite elem_of_app, list_elem_of_singleton in Hdin. rewrite Forall_forall in Hp.
    destruct Hdin as [?| ->]; [by apply Hp | done].
Qed.

Lemma enforce_capacity_total domain l : is_Some (enforce_capacity domain l).
Proof.
  unfold enforce_capacity.
  destruct (enforce_domain_capacity_spec (length l) domain l) as (l1 & -> & _); [done|].
  cbn [mbind option_bind].
  destruct (enforce_total_capacity_spec (length l1) l1) as (l2 & -> & _); [done|]. by eexists.
Qed.

(** The ways [store] can change the list of cookies. *)
Inductive stored `{HttpCrate} (s : CookieStore) (host : string) (secure : bool) (now : Z) :
    list StoredCookie -> Prop :=
| stored_nothing : stored s host secure now (cookies s)
| stored_expired i c :
    accepted_cookie host secure now c -> is_expired now c = true ->
    (secure = false -> would_overlay_secure_cookie s c = false) ->
    position (fun d => has_same_identity d c) (cookies s) = Some i ->
    stored s host secure now (delete i (cookies s))
| stored_updated i c old :
    accepted_cookie host secure now c -> is_expired now c = false ->
    (secure = false -> would_overlay_secure_cookie s c = false) ->
    cookies s !! i = Some old -> identity old = identity c ->
    stored s host secure now (<[i := c]> (cookies s))
| stored_new c l :
    accepted_cookie host secure now c -> is_expired now c = false ->
    (forall d, d ∈ cookies s -> identity d <> identity c) ->
    enforce_capacity (cookie_domain c) (cookies s ++ [c]) = Some l ->
    stored s host secure now l.

Lemma accepted_restamp host secure now c cr la :
  accepted_cookie host secure now c ->
  accepted_cookie host secure now (c <| creation := cr |> <| last_access := la |>).
Proof. intros [? ? ? ? ? ?]. by split. Qed.

Lemma cookie_store_store_cases `{HttpCrate} `{!CookieLaws} s value host path secure now :
  exists s', cookie_store_store s value host path secure now = Some s' /\
    stored s host secure now (cookies s').
Proof.
  unfold cookie_store_store.
  destruct (stored_cookie_parse value host path secure now) as [c|] eqn:Hparse;
    [|eexists; split; [done | apply stored_nothing]].
  apply stored_cookie_parse_sound in Hparse as Hc.
  destruct (negb secure && would_overlay_secure_cookie s c) eqn:Hover;
    [eexists; split; [done | apply stored_nothing]|].
  assert (Hno : secure = false -> would_overlay_secure_cookie s c = false)
    by (intros ->; exact Hover).
  destruct (is_expired now c) eqn:Hexp.
  { destruct (position _ _) as [i|] eqn:Hpos; (eexists; split; [done|]); [|apply stored_nothing].
    by eapply stored_expired. }
  destruct (position _ _) as [i|] eqn:Hpos.
  - destruct (position_Some _ _ _ Hpos) as (old & Hold & Hsame).
    apply has_same_identity_spec in Hsame. cbn. rewrite Hold. cbn.
    eexists; split; [done|]. cbn. eapply stored_updated; try done.
    by apply (accepted_restamp _ _ _ _ (creation old) (next_access s)) in Hc.
  - set (c' := c <| creation := next_creation s |> <| last_access := next_access s |>).
    destruct (enforce_capacity_total (cookie_domain c) (cookies s ++ [c'])) as [l Hl].
    exists (s <| cookies := l |> <| next_creation ::= saturating_add 1 |>
              <| next_access ::= saturating_add 1 |>).
    split; [exact (f_equal (fun o : option (list StoredCookie) => kept ← o;
      Some (s <| next_access ::= saturating_add 1 |> <| next_creation ::= saturating_add 1 |>
              <| cookies := kept |>)) Hl)|].
    cbn. eapply (stored_new s host secure now c'); try done; [by apply accepted_restamp|].
    intros d Hd Heq. pose proof (position_None _ _ Hpos d Hd) as Hf. cbn in Hf.
    by rewrite (proj2 (has_same_identity_spec d c)) in Hf.
Qed.

Lemma stored_wf `{HttpCrate} s host secure now l s' :
  jar_wf s -> stored s host secure now l -> cookies s' = l -> jar_wf s'.
Proof.
  intros Hwf Hst Hl. destruct Hst as [|i c Ha He Ho Hpos|i c old Ha He Ho Hold Hid|c l Ha He Hnew Henf].
  - by eapply jar_wf_sublist.
  - eapply jar_wf_sublist; [apply sublist_delete | done | done].
  - eapply jar_wf_identity; [done | |].
    + rewrite Hl, list_fmap_insert. apply list_insert_id. by rewrite list_lookup_fmap, Hold, <- Hid.
    + rewrite Hl. apply Forall_insert; [apply Hwf | apply Ha].
  - eapply insert_new_wf; try done. apply Ha.
Qed.

Lemma stored_fresh `{HttpCrate} s host secure now l :
  jar_wf s -> fresh now s -> stored s host secure now l ->
  Forall (fun c => is_expired now c = false) l.
Proof.
  unfold fresh. intros Hwf Hf Hst.
  destruct Hst as [|i c Ha He Ho Hpos|i c old Ha He Ho Hold Hid|c l Ha He Hnew Henf]; [done| | |].
  - eapply Forall_sublist; [apply sublist_delete | done].
  - by apply Forall_insert.
  - eapply insert_new_wf with (s' := {| cookies := l; next_creation := 0; next_access := 0 |})
      in Henf as [_ Hs]; try done; [|apply Ha].
    eapply Forall_sublist; [exact Hs|]. apply Forall_app; split; [done | by repeat constructor].
Qed.

(** *** Secure cookies and insecure origins *)

Lemma elem_of_delete_ne {A} (l : list A) i x y :
  l !! i = Some y -> x ∈ l -> x <> y -> x ∈ delete i l.
Proof.
  revert i; induction l as [|z l IH]; intros i Hi Hx Hne; [done|].
  destruct i as [|i]; cbn in *.
  - injection Hi as ->. by apply elem_of_cons in Hx as [->|Hx].
  - apply elem_of_cons. apply elem_of_cons in Hx as [->|Hx]; [by left | right; by eapply IH].
Qed.

Lemma no_overlay_not_secure `{!CookieLaws} s c d :
  would_overlay_secure_cookie s c = false -> d ∈ cookies s -> identity d = identity c ->
  cookie_secure d = false.
Proof.
  intros Ho Hd Hid. destruct (cookie_secure d) eqn:Hs; [|done].
  injection Hid as Hn Hdom _ Hp. exfalso. rewrite <- not_true_iff_false in Ho. apply Ho.
  unfold would_overlay_secure_cookie. apply existsb_exists. exists d.
  split; [by apply list_elem_of_In|].
  by rewrite Hs, Hn, Hdom, Hp, domain_matches_refl, path_matches_refl, String.eqb_refl.
Qed.

Lemma enforce_domain_capacity_id fuel domain l :
  (domain_count domain l <= MAX_COOKIES_PER_DOMAIN)%nat ->
  enforce_domain_capacity fuel domain l = Some l.
Proof.
  intros Hc. destruct fuel; cbn [enforce_domain_capacity]; fold (domain_count domain l);
    by destruct (Nat.ltb_spec MAX_COOKIES_PER_DOMAIN (domain_count domain l)); [lia|].
Qed.

Lemma domain_count_delete domain l i c :
  l !! i = Some c -> in_domain domain c = true ->
  domain_count domain l = S (domain_count domain (delete i l)).
Proof.
  unfold domain_count. revert i; induction l as [|d l IH]; intros i Hi Hd; [done|].
  destruct i as [|i]; cbn in Hi.
  - injection Hi as ->. by rewrite filter_cons_True.
  - change (delete (S i) (d :: l)) with (d :: delete i l). rewrite !filter_cons.
    rewrite (IH _ Hi Hd) || specialize (IH _ Hi Hd). case_decide; cbn; by rewrite ?IH.
Qed.

(** Making room for one non-secure cookie costs no secure cookie. *)
Lemma enforce_capacity_keeps_secure domain l l' c :
  (domain_count domain l <= S MAX_COOKIES_PER_DOMAIN)%nat -> (length l <= MAX_COOKIES)%nat ->
  c ∈ l -> in_domain domain c = true -> cookie_secure c = false ->
  enforce_capacity domain l = Some l' ->
  forall d, d ∈ l -> cookie_secure d = true -> d ∈ l'.
Proof.
  intros Hcount Hlen Hc Hdom Hns Henf d Hd Hs. revert Henf. unfold enforce_capacity.
  destruct (decide (domain_count domain l <= MAX_COOKIES_PER_DOMAIN)%nat) as [Hle|Hgt].
  - rewrite enforce_domain_capacity_id by done. cbn [mbind option_bind].
    destruct (enforce_total_capacity_spec (length l) l) as (l2 & -> & _ & _ & Hid); [done|].
    rewrite Hid by done. by intros [= <-].
  - destruct (length l) as [|n] eqn:Hn; [destruct l; [by apply elem_of_nil in Hc | done]|].
    cbn [enforce_domain_capacity]. fold (domain_count domain l).
    destruct (Nat.ltb_spec MAX_COOKIES_PER_DOMAIN (domain_count domain l)) as [_|]; [|lia].
    destruct (oldest_index_is_Some (evictable domain l) l) as [i Hi];
      [apply evictable_exists; lia|].
    rewrite Hi. destruct (oldest_index_Some _ _ _ Hi) as (v & Hv & Hev).
    unfold evictable in Hev.
    assert (existsb (fun c => in_domain domain c && negb (cookie_secure c)) l = true) as Hex.
    { apply existsb_exists. exists c. split; [by apply list_elem_of_In | by rewrite Hdom, Hns]. }
    rewrite Hex in Hev. apply andb_true_iff in Hev as [Hvd Hvs%negb_true_iff].
    pose proof (domain_count_delete _ _ _ _ Hv Hvd) as Hcd. cbn [mbind option_bind].
    rewrite enforce_domain_capacity_id by lia. cbn [mbind option_bind].
    pose proof (length_delete_lookup _ _ _ Hv) as Hld.
    destruct (enforce_total_capacity_spec (length (delete i l)) (delete i l))
      as (l2 & -> & _ & _ & Hid); [done|]. rewrite Hid by lia. intros [= <-].
    eapply elem_of_delete_ne; [done..|]. congruence.
Qed.

Lemma stored_keeps_secure `{HttpCrate} `{!CookieLaws} s host now l :
  jar_wf s -> (length (cookies s) < MAX_COOKIES)%nat -> stored s host false now l ->
  forall d, cookie_secure d = true -> d ∈ l <-> d ∈ cookies s.
Proof.
  intros Hwf Hlen Hst d Hs.
  destruct Hst as [|i c Ha He Ho Hpos|i c old Ha He Ho Hold Hid|c l Ha He Hnew Henf]; [done| | |].
  - apply position_Some in Hpos as (old & Hold & Hid%has_same_identity_spec).
    pose proof (no_overlay_not_secure s c old (Ho eq_refl) (list_elem_of_lookup_2 _ _ _ Hold) Hid) as Hns.
    split; intros Hd; [eapply elem_of_sublist; [done | apply sublist_delete]|].
    eapply elem_of_delete_ne; [done..|]. congruence.
  - pose proof (no_overlay_not_secure s c old (Ho eq_refl) (list_elem_of_lookup_2 _ _ _ Hold) Hid) as Hns.
    assert (Hcs : cookie_secure c = false)
      by (destruct (cookie_secure c) eqn:E; [by apply Ha in E | done]).
    rewrite !list_elem_of_lookup. split; intros [j Hj].
    + destruct (decide (i = j)) as [->|Hij].
      * rewrite list_lookup_insert_eq in Hj by (by eapply lookup_lt_Some).
        injection Hj as <-. congruence.
      * rewrite list_lookup_insert_ne in Hj by done. by exists j.
    + exists j. rewrite list_lookup_insert_ne; [done|]. intros ->. congruence.
  - assert (Hcs : cookie_secure c = false)
      by (destruct (cookie_secure c) eqn:E; [by apply Ha in E | done]).
    assert (Hdom : in_domain (cookie_domain c) c = true) by apply String.eqb_refl.
    split; intros Hd.
    + destruct (insert_new_wf s c l Hwf (proj1 (accepted_pair _ _ _ _ Ha)) Hnew Henf
        {| cookies := l; next_creation := 0; next_access := 0 |} eq_refl) as [_ Hsub].
      eapply elem_of_sublist in Hd; [|exact Hsub].
      apply elem_of_app in Hd as [Hd|Hd%list_elem_of_singleton]; [done|congruence].
    + eapply (enforce_capacity_keeps_secure _ _ _ c); [| | | done | done | exact Henf | | done].
      * rewrite domain_count_app, Hdom. pose proof (wf_domain _ Hwf (cookie_domain c)). lia.
      * rewrite length_app. cbn. lia.
      * apply elem_of_app. right. by apply list_elem_of_singleton.
      * apply elem_of_app. by left.
Qed.

Lemma stored_length `{HttpCrate} s host secure now l :
  stored s host secure now l -> jar_wf s -> (length l <= S (length (cookies s)))%nat.
Proof.
  intros Hst Hwf.
  destruct Hst as [|i c Ha He Ho Hpos|i c old Ha He Ho Hold Hid|c l Ha He Hnew Henf].
  - lia.
  - etrans; [apply sublist_length, sublist_delete | lia].
  - rewrite length_insert. lia.
  - destruct (insert_new_wf s c l Hwf (proj1 (accepted_pair _ _ _ _ Ha)) Hnew Henf
      {| cookies := l; next_creation := 0; next_access := 0 |} eq_refl) as [_ Hsub].
    apply sublist_length in Hsub. rewrite length_app in Hsub. cbn in Hsub. lia.
Qed.

Lemma purge_expired_wf s now : jar_wf s -> jar_wf (purge_expired s now).
Proof.
  intros Hwf.
  apply (jar_wf_sublist (filter (fun c => is_expired now c = false) (cookies s)) s);
    [apply sublist_filter | done | done].
Qed.

Lemma purge_expired_fresh s now : fresh now (purge_expired s now).
Proof. unfold fresh. apply Forall_forall. intros c. cbn. by intros [? _]%list_elem_of_filter. Qed.

Lemma store_headers_spec `{HttpCrate} `{!CookieLaws} s host path secure now headers :
  jar_wf s -> fresh now s ->
  exists s', store_headers s host path secure now headers = Some s' /\ jar_wf s' /\ fresh now s' /\
    (secure = false ->
     (length (cookies s) + length (filter (fun h => is_set_cookie h = true) headers) <= MAX_COOKIES)%nat ->
     forall d, cookie_secure d = true -> d ∈ cookies s' <-> d ∈ cookies s).
Proof.
  revert s; induction headers as [|h headers IH]; intros s Hwf Hf; cbn [store_headers].
  { by exists s. }
  destruct (is_set_cookie h) eqn:Hh.
  - destruct (cookie_store_store_cases s (snd h) host path secure now) as (s1 & -> & Hst).
    cbn [mbind option_bind].
    pose proof (stored_wf _ _ _ _ _ _ Hwf Hst eq_refl) as Hwf1.
    destruct (IH s1 Hwf1 (stored_fresh _ _ _ _ _ Hwf Hf Hst)) as (s2 & -> & Hwf2 & Hf2 & Hsec).
    exists s2. split_and!; try done. rewrite filter_cons_True by done.
    intros -> Hlen d Hd. pose proof (stored_length _ _ _ _ _ Hst Hwf). cbn [length] in Hlen.
    rewrite Hsec by (done || lia). eapply stored_keeps_secure; [done | lia | done | done].
  - cbn [mbind option_bind]. rewrite filter_cons_False by (by rewrite Hh).
    by apply IH.
Qed.

(** C38: Storing the cookies of a response never fails and keeps the jar well
    formed: one cookie per name, domain, host-only flag and path, at most 50 per
    domain and 3000 in all, none empty; the cookies of a host the jar can name are
    all unexpired afterwards. *)
Theorem store_response_wf `{UrlCrate} `{HttpCrate} `{!CookieLaws}
    (s : CookieStore) (url : HttpUrl) (headers : HeaderPairs) (now : Z) :
  jar_wf s ->
  exists s', store_response_at s url headers now = Some s' /\ jar_wf s' /\
    (is_Some (canonical_cookie_domain (Http.host url)) -> fresh now s').
Proof.
  intros Hwf. unfold store_response_at.
  destruct (canonical_cookie_domain (Http.host url)) as [host|].
  - destruct (store_headers_spec (purge_expired s now) host (path url)
      (is_trustworthy_origin url) now headers) as (s' & Hs & Hwf' & Hf & _);
      [by apply purge_expired_wf | apply purge_expired_fresh | by exists s'].
  - exists s. split_and!; [done | done | by intros []].
Qed.

(** C37: A response from an untrustworthy (plain http) origin cannot plant, change
    or remove a secure cookie: as long as the jar has room for the response's
    cookies, exactly the unexpired secure cookies it held remain. *)
Theorem insecure_origin_keeps_secure `{UrlCrate} `{HttpCrate} `{!CookieLaws}
    (s s' : CookieStore) (url : HttpUrl) (headers : HeaderPairs) (now : Z) :
  jar_wf s -> is_trustworthy_origin url = false ->
  (length (cookies s) + length (filter (fun h => is_set_cookie h = true) headers) <= MAX_COOKIES)%nat ->
  store_response_at s url headers now = Some s' ->
  forall d, cookie_secure d = true -> is_expired now d = false ->
  d ∈ cookies s' <-> d ∈ cookies s.
Proof.
  intros Hwf Ht Hlen Hst d Hs He. revert Hst. unfold store_response_at.
  destruct (canonical_cookie_domain (Http.host url)) as [host|]; [|by intros [= <-]].
  rewrite Ht.
  destruct (store_headers_spec (purge_expired s now) host (path url) false now headers)
    as (s1 & -> & _ & _ & Hsec); [by apply purge_expired_wf | apply purge_expired_fresh |].
  intros [= <-]. rewrite Hsec; [|done| |done].
  - unfold purge_expired; cbn. rewrite list_elem_of_filter. tauto.
  - pose proof (sublist_length _ _ (sublist_filter (fun c => is_expired now c = false) (cookies s))).
    unfold purge_expired; cbn. lia.
Qed.

(** What a cookie accepted by [StoredCookie::parse] satisfies: it is secure only
    if the origin is, its domain is the host or one the host belongs to, the
    [__Secure-] and [__Host-] name prefixes have the attributes they promise, it
    expires within 400 days, and its pair fits the size limit. *)
Theorem stored_cookie_accepted `{HttpCrate} `{!CookieLaws}
    (value host request_path : string) (secure : bool) (now : Z) (c : StoredCookie) :
  stored_cookie_parse value host request_path secure now = Some c ->
  accepted_cookie host secure now c.
Proof. apply stored_cookie_parse_sound. Qed.

(** ** Sending *)

Lemma matching_cookies_snd s host path secure :
  snd <$> matching_cookies s host path secure =
  filter (fun c => cookie_matches host path secure c = true) (cookies s).
Proof.
  unfold matching_cookies.
  assert (Hg : forall f : nat -> nat, snd <$> filter (fun ic => cookie_matches host path secure (snd ic) = true)
            (imap (fun index cookie => (f index, cookie)) (cookies s)) =
          filter (fun c => cookie_matches host path secure c = true) (cookies s)).
  { generalize (cookies s) as l. induction l as [|c l IH]; intros f; [done|].
    rewrite imap_cons, !filter_cons. cbn [snd]. specialize (IH (f ∘ S)). unfold compose in IH.
    case_decide; [rewrite fmap_cons; f_equal; exact IH | exact IH]. }
  apply (Hg id).
Qed.

#[export] Instance send_before_total : Total send_before.
Proof. intros a b. unfold send_before. lia. Qed.

#[export] Instance send_before_trans : Transitive send_before.
Proof. intros a b c. unfold send_before. lia. Qed.

Lemma push_pairs_concat pairs header :
  header <> ""%string ->
  push_pairs header pairs = String.concat "; " (header :: pairs).
Proof.
  revert header; induction pairs as [|p pairs IH]; intros header Hne; [done|].
  cbn [push_pairs]. rewrite IH.
  - destruct header; [done|]. cbn [is_empty]. rewrite <- string_app_assoc.
    destruct pairs; [done|]. cbn [String.concat]. by rewrite <- !string_app_assoc.
  - by destruct header.
Qed.

Lemma touch_identity access i l : identity <$> touch access i l = identity <$> l.
Proof.
  unfold touch. apply list_eq. intros j. rewrite !list_lookup_fmap.
  destruct (decide (i = j)) as [->|Hij].
  - rewrite list_lookup_alter_eq. by destruct (l !! j).
  - by rewrite list_lookup_alter_ne.
Qed.

Lemma touch_pairs access i l :
  Forall (fun c => wire_pair c <> ""%string) l ->
  Forall (fun c => wire_pair c <> ""%string) (touch access i l).
Proof. unfold touch. intros Hl. apply Forall_alter; [done|]. by intros. Qed.

Lemma touch_all_wf s (m : list (nat * StoredCookie)) access s' :
  jar_wf s -> cookies s' = fold_left (fun l ic => touch access (fst ic) l) m (cookies s) ->
  jar_wf s'.
Proof.
  intros Hwf Hs. apply (jar_wf_identity s); rewrite ?Hs; [done | |].
  - clear Hs. generalize (cookies s). induction m as [|x m IH]; intros l; cbn; [done|].
    by rewrite IH, touch_identity.
  - clear Hs. pose proof (wf_pairs _ Hwf) as Hw. revert Hw. generalize (cookies s).
    induction m as [|x m IH]; intros l Hl; cbn; [done|]. by apply IH, touch_pairs.
Qed.

(** The [Cookie] header sends exactly the unexpired cookies that match the
    request's host and path, secure ones only to a trustworthy origin, longer paths
    first and older cookies first among equals, separated by "; "; the jar keeps
    its invariant. *)
Theorem request_header_sound `{UrlCrate} (s s' : CookieStore) (url : HttpUrl) (now : Z)
    (header : string) :
  jar_wf s -> request_header_at s url now = (Some header, s') ->
  jar_wf s' /\
  exists (host : string) (sent : list StoredCookie),
    canonical_cookie_domain (Http.host url) = Some host /\
    header = String.concat "; " (wire_pair <$> sent) /\
    sent ≡ₚ filter (fun c => cookie_matches host (path url) (is_trustworthy_origin url) c = true)
              (filter (fun c => is_expired now c = false) (cookies s)) /\
    StronglySorted (fun a b => send_before (0%nat, a) (0%nat, b)) sent /\
    (forall c, c ∈ sent -> cookie_secure c = true -> is_trustworthy_origin url = true).
Proof.
  intros Hwf. unfold request_header_at.
  destruct (canonical_cookie_domain (Http.host url)) as [host|]; [|done].
  set (t := is_trustworthy_origin url). set (p := purge_expired s now).
  assert (Hp : jar_wf p) by (by apply purge_expired_wf).
  unfold store_request_header.
  set (matching := merge_sort send_before (matching_cookies p host (path url) t)).
  assert (Hperm : snd <$> matching ≡ₚ filter (fun c => cookie_matches host (path url) t c = true) (cookies p))
    by (unfold matching; by rewrite merge_sort_Permutation, matching_cookies_snd).
  assert (Hsorted : StronglySorted send_before matching)
    by (apply StronglySorted_merge_sort; apply _).
  assert (Hne : Forall (fun c => wire_pair c <> ""%string) (snd <$> matching)).
  { rewrite Hperm. apply (Forall_sublist _ _ (cookies p)); [apply sublist_filter | apply Hp]. }
  destruct matching as [|ic rest] eqn:Hm; [done|]. intros [= <- <-]. split.
  - by eapply (touch_all_wf p (ic :: rest) (next_access p)).
  - exists host, (snd <$> ic :: rest). split_and!; [done | | done | |].
    + inversion Hne as [|? ? Hx _]; subst.
      assert (Hw : wire_pair <$> (snd <$> ic :: rest) = (fun ic => wire_pair (snd ic)) <$> ic :: rest)
        by (by rewrite <- list_fmap_compose).
      rewrite Hw. exact (push_pairs_concat _ (wire_pair (snd ic)) Hx).
    + clear -Hsorted. induction Hsorted as [|a l Hl IH Ha]; cbn; [constructor|].
      constructor; [exact IH|]. rewrite Forall_fmap. exact Ha.
    + intros c Hc Hs. rewrite Hperm in Hc. apply list_elem_of_filter in Hc as [Hmc _].
      unfold cookie_matches in Hmc. rewrite Hs in Hmc. by apply andb_true_iff in Hmc as [_ Hmc].
Qed.
End cookies.

(** The size limits on [Set-Cookie] values count the bytes of the response:
    the length of a header value decoded as Latin-1 by [response_headers] is the
    number of its bytes, whatever they are. *)
Theorem response_header_octet_len_bytes `{HttpCrate} (value : HeaderValue) :
  Forall (fun b => 0 <= b < 256) (header_value_as_bytes value) ->
  response_header_octet_len (response_header_value_as_latin_1 value) =
  Some (Z.of_nat (length (header_value_as_bytes value))).
Proof.
  intros Hb. unfold response_header_octet_len, response_header_value_as_latin_1.
  rewrite chars_encode by (eapply Forall_impl; [exact Hb | cbn; lia]).
  assert (Hg : forall n l, Forall (fun b => 0 <= b < 256) l ->
    octet_len_from n l = Some (n + Z.of_nat (length l))).
  { intros n l Hl. revert n. induction Hl as [|b l Hr _ IH]; intros n; cbn [octet_len_from length].
    - f_equal. lia.
    - destruct (Z.ltb_spec 255 b); [lia|]. rewrite IH. f_equal. lia. }
  by rewrite Hg.
Qed.

(** ** Witnesses *)

(** A small instance of the crates: host suffixes as domains, prefixes as paths,
    seconds as dates, no date syntax. *)
Definition simple_cookie_crates : CookieCrates := {|
  parse_cookie_date _ := None;
  rfc_domain_matches host domain :=
    String.eqb host domain || ends_with ("." ++ domain) host;
  domain_to_ascii d := Some (to_ascii_lowercase d);
  has_host_prefix name := starts_with "__Host-" name;
  has_secure_prefix name := starts_with "__Secure-" name;
  default_path _ := "/"%string;
  path_matches path cookie := starts_with cookie path;
  date_saturating_add now s := now + s;
|}.

#[export] Instance simple_cookie_laws : CookieLaws (H := simple_cookie_crates).
Proof.
  split; cbn.
  - intros d. by rewrite String.eqb_refl.
  - intros p. apply starts_with_spec. exists ""%string. by rewrite string_app_nil_r.
  - lia.
Qed.

Definition sample_cookie : StoredCookie :=
  {| cookie_name := "id"; wire_pair := "id=1"; cookie_domain := "a.example"; cookie_path := "/";
     host_only := true; cookie_secure := true; expires_at := None; creation := 0;
     last_access := 0 |}.
Definition sample_jar : CookieStore :=
  {| cookies := [sample_cookie]; next_creation := 1; next_access := 1 |}.
Definition plain_url : @HttpUrl simple_url_crate := simple_http_url "http" "a.example" "/".
Definition secure_url : @HttpUrl simple_url_crate := simple_http_url "https" "a.example" "/".
Definition overwrite : HeaderPairs := [("Set-Cookie", "id=2; Path=/")]%string.

Lemma sample_jar_wf : jar_wf sample_jar.
Proof.
  split.
  - apply NoDup_singleton.
  - intros domain. unfold domain_count.
    etrans; [apply sublist_length, sublist_filter | unfold MAX_COOKIES_PER_DOMAIN; cbn; lia].
  - unfold MAX_COOKIES. cbn. lia.
  - by repeat constructor.
Qed.

Lemma store_response_wf_witness :
  jar_wf sample_jar /\
  exists s', store_response_at (H := simple_cookie_crates) (H0 := simple_url_crate)
    (H1 := pair_http_crate) sample_jar secure_url overwrite 0 = Some s' /\ jar_wf s'.
Proof.
  split; [exact sample_jar_wf|].
  destruct (store_response_wf (H := simple_cookie_crates) (H0 := simple_url_crate)
    (H1 := pair_http_crate) sample_jar secure_url overwrite 0 sample_jar_wf) as (s' & Hs & Hwf & _).
  by exists s'.
Defined.

Lemma insecure_origin_keeps_secure_witness :
  store_response_at (H := simple_cookie_crates) (H0 := simple_url_crate)
    (H1 := pair_http_crate) sample_jar plain_url overwrite 0 = Some sample_jar /\
  (sample_cookie ∈ cookies sample_jar <-> sample_cookie ∈ cookies sample_jar).
Proof.
  assert (Hs : store_response_at (H := simple_cookie_crates) (H0 := simple_url_crate)
    (H1 := pair_http_crate) sample_jar plain_url overwrite 0 = Some sample_jar) by reflexivity.
  split; [exact Hs|].
  apply (insecure_origin_keeps_secure (H := simple_cookie_crates) (H0 := simple_url_crate)
    (H1 := pair_http_crate) sample_jar sample_jar plain_url overwrite 0 sample_jar_wf);
    [reflexivity | apply Nat.leb_le; reflexivity | exact Hs | reflexivity | reflexivity].
Defined.

Lemma stored_cookie_accepted_witness :
  let parse := stored_cookie_parse (H := simple_cookie_crates) (H0 := pair_http_crate) in
  exists c, parse "__Host-id=2; Secure; Path=/"%string "a.example"%string "/x"%string true 0 = Some c
  /\ cookie_path c = "/"%string.
Proof.
  set (c := {| cookie_name := "__Host-id"; wire_pair := "__Host-id=2";
     cookie_domain := "a.example"; cookie_path := "/"; host_only := true; cookie_secure := true;
     expires_at := None; creation := 0; last_access := 0 |}).
  assert (Hp : stored_cookie_parse (H := simple_cookie_crates) (H0 := pair_http_crate)
    "__Host-id=2; Secure; Path=/" "a.example" "/x" true 0 = Some c) by reflexivity.
  exists c. split; [exact Hp|].
  apply (stored_cookie_accepted (H := simple_cookie_crates) (H0 := pair_http_crate) _ _ _ _ _ _ Hp).
  reflexivity.
Defined.

Lemma request_header_sound_witness :
  exists s', request_header_at (H := simple_cookie_crates) (H0 := simple_url_crate)
    sample_jar secure_url 0 = (Some "id=1"%string, s') /\ jar_wf s'.
Proof.
  eexists. split; [reflexivity|].
  eapply (request_header_sound (H := simple_cookie_crates) (H0 := simple_url_crate)
    sample_jar _ secure_url 0 "id=1" sample_jar_wf). reflexivity.
Defined.

Lemma response_header_octet_len_bytes_witness :
  Forall (fun b => 0 <= b < 256) [233; 65] /\
  response_header_octet_len
    (response_header_value_as_latin_1 (H := pair_http_crate) [233; 65]) = Some 2.
Proof.
  assert (Hb : Forall (fun b => 0 <= b < 256) [233; 65]) by (repeat constructor; lia).
  split; [exact Hb|]. exact (response_header_octet_len_bytes (H := pair_http_crate) [233; 65] Hb).
Defined.
