(* ===== verification/Metrics.v ===== *)
(** * Client metrics

    [src/src/core/metrics/{mod,atomic,buffered,streaming,counters,telemetry}.rs]: the
    client-wide counters, as methods over the record of its atomics.  The two byte
    budgets and the snapshot sequence are compare-and-swap loops; their theorems
    hold under every interleaving of any number of threads. *)

From S2P Require Import Prelude Atomics.

Local Open Scope Z_scope.

(** ** Read-modify-write helpers ([atomic.rs]) *)

Definition duration_as_nanos (duration : Z) : Z := Z.min U64_MAX duration.

Definition saturating_atomic_u64_add {S} (target : S -> Z) `{!Setter target} (value : Z) :
    action S unit :=
  compare_exchange_loop target (fun current => Swap (saturating_add current value) tt).

Definition saturating_atomic_usize_sub {S} (target : S -> Z) `{!Setter target} (value : Z) :
    action S unit :=
  compare_exchange_loop target (fun current => Swap (saturating_sub current value) tt).

Definition update_max_attempt (value current : Z) : attempt unit :=
  if current <? value then Swap value tt else Done tt.

Definition update_atomic_usize_max {S} (target : S -> Z) `{!Setter target} (value : Z) :
    action S unit :=
  compare_exchange_loop target (update_max_attempt value).

Definition update_atomic_u64_max {S} (target : S -> Z) `{!Setter target} (value : Z) :
    action S unit :=
  compare_exchange_loop target (update_max_attempt value).

(** ** The counters *)

Inductive ResponseBodyLifecycleOutcome := ReuseEligible | Closed | Aborted.

(** The registries of origins and proxies are components of their own
    ([OriginMetrics], [ProxyMetrics]). *)
Record Metrics := {
  active_requests : Z;
  pending_requests : Z;
  peak_pending_requests : Z;
  total_requests : Z;
  failed_requests : Z;
  pool_acquire_attempts : Z;
  pool_acquire_immediate : Z;
  pool_acquire_waited : Z;
  pool_acquire_timeouts : Z;
  pool_acquire_wait_time_total_ns : Z;
  pool_acquire_wait_time_max_ns : Z;
  pool_acquire_wait_time_last_ns : Z;
  connection_acquire_attempts : Z;
  connection_acquire_immediate : Z;
  connection_acquire_waited : Z;
  connection_acquire_timeouts : Z;
  connection_acquire_wait_time_total_ns : Z;
  connection_acquire_wait_time_max_ns : Z;
  connection_acquire_wait_time_last_ns : Z;
  response_body_reuse_eligible : Z;
  response_body_closed : Z;
  response_body_aborted : Z;
  active_connections : Z;
  idle_connections : Z;
  connections_opened : Z;
  connections_open_failed : Z;
  connections_closed : Z;
  connections_reused : Z;
  connections_aborted : Z;
  idle_timeout_evictions : Z;
  buffered_response_bytes : Z;
  buffered_response_budget_rejections : Z;
  stream_decoder_reserved_bytes : Z;
  telemetry_snapshot_sequence : Z;
}.

#[export] Instance eta_Metrics : Eta Metrics := fun r =>
  Build_Metrics
    (active_requests r) (pending_requests r) (peak_pending_requests r) (total_requests r)
    (failed_requests r) (pool_acquire_attempts r) (pool_acquire_immediate r)
    (pool_acquire_waited r) (pool_acquire_timeouts r) (pool_acquire_wait_time_total_ns r)
    (pool_acquire_wait_time_max_ns r) (pool_acquire_wait_time_last_ns r)
    (connection_acquire_attempts r) (connection_acquire_immediate r)
    (connection_acquire_waited r) (connection_acquire_timeouts r)
    (connection_acquire_wait_time_total_ns r) (connection_acquire_wait_time_max_ns r)
    (connection_acquire_wait_time_last_ns r) (response_body_reuse_eligible r)
    (response_body_closed r) (response_body_aborted r) (active_connections r)
    (idle_connections r) (connections_opened r) (connections_open_failed r)
    (connections_closed r) (connections_reused r) (connections_aborted r)
    (idle_timeout_evictions r) (buffered_response_bytes r)
    (buffered_response_budget_rejections r) (stream_decoder_reserved_bytes r)
    (telemetry_snapshot_sequence r).

Definition metrics_default : Metrics :=
  Build_Metrics 0 0 0 0 0 0 0 0 0 0 0 0 0 0 0 0 0
    0 0 0 0 0 0 0 0 0 0 0 0 0 0 0 0 0.

Definition request_started : action Metrics unit := fetch_add total_requests 1 ;; mret tt.
Definition request_finished (failed : bool) : action Metrics unit :=
  if failed then fetch_add failed_requests 1 ;; mret tt else mret tt.
Definition active_request_started : action Metrics unit := fetch_add active_requests 1 ;; mret tt.
Definition active_request_finished : action Metrics unit := fetch_sub active_requests 1 ;; mret tt.
Definition pending_request_registered : action Metrics unit :=
  previous ← fetch_add pending_requests 1;
  update_atomic_usize_max peak_pending_requests (wrapping_add previous 1).
Definition pending_request_finished : action Metrics unit := fetch_sub pending_requests 1 ;; mret tt.
Definition pool_acquire_timeout : action Metrics unit := fetch_add pool_acquire_timeouts 1 ;; mret tt.
Definition pool_acquire_started : action Metrics unit := fetch_add pool_acquire_attempts 1 ;; mret tt.
Definition pool_acquire_finished_immediately : action Metrics unit := fetch_add pool_acquire_immediate 1 ;; mret tt.
Definition pool_acquire_waited_event : action Metrics unit := fetch_add pool_acquire_waited 1 ;; mret tt.
Definition pool_acquire_wait_finished (elapsed : Z) : action Metrics unit :=
  let elapsed_ns := duration_as_nanos elapsed in
  saturating_atomic_u64_add pool_acquire_wait_time_total_ns elapsed_ns ;;
  update_atomic_u64_max pool_acquire_wait_time_max_ns elapsed_ns ;;
  store pool_acquire_wait_time_last_ns elapsed_ns.
Definition connection_acquire_timeout : action Metrics unit := fetch_add connection_acquire_timeouts 1 ;; mret tt.
Definition connection_acquire_started : action Metrics unit := fetch_add connection_acquire_attempts 1 ;; mret tt.
Definition connection_acquire_finished_immediately : action Metrics unit := fetch_add connection_acquire_immediate 1 ;; mret tt.
Definition connection_acquire_waited_event : action Metrics unit :=
  fetch_add connection_acquire_waited 1 ;; mret tt.
Definition connection_acquire_wait_finished (elapsed : Z) : action Metrics unit :=
  let elapsed_ns := duration_as_nanos elapsed in
  saturating_atomic_u64_add connection_acquire_wait_time_total_ns elapsed_ns ;;
  update_atomic_u64_max connection_acquire_wait_time_max_ns elapsed_ns ;;
  store connection_acquire_wait_time_last_ns elapsed_ns.
Definition response_body_finished (outcome : ResponseBodyLifecycleOutcome) : action Metrics unit :=
  match outcome with
  | ReuseEligible => fetch_add response_body_reuse_eligible 1 ;; mret tt
  | Closed => fetch_add response_body_closed 1 ;; mret tt
  | Aborted => fetch_add response_body_aborted 1 ;; mret tt
  end.
Definition connection_opened : action Metrics unit :=
  fetch_add active_connections 1 ;; fetch_add connections_opened 1 ;; mret tt.
Definition connection_open_failed : action Metrics unit := fetch_add connections_open_failed 1 ;; mret tt.
Definition connection_closed : action Metrics unit :=
  saturating_atomic_usize_sub active_connections 1 ;; fetch_add connections_closed 1 ;; mret tt.
Definition connection_became_idle : action Metrics unit := fetch_add idle_connections 1 ;; mret tt.
Definition connection_left_idle : action Metrics unit :=
  saturating_atomic_usize_sub idle_connections 1.
Definition connection_reused : action Metrics unit := fetch_add connections_reused 1 ;; mret tt.
Definition connection_aborted : action Metrics unit := fetch_add connections_aborted 1 ;; mret tt.
Definition idle_timeout_eviction : action Metrics unit := fetch_add idle_timeout_evictions 1 ;; mret tt.

(** ** Snapshots *)

Record MetricsSnapshot := {
  snap_active_requests : Z;
  snap_pending_requests : Z;
  snap_peak_pending_requests : Z;
  snap_total_requests : Z;
  snap_failed_requests : Z;
  snap_pool_acquire_attempts : Z;
  snap_pool_acquire_immediate : Z;
  snap_pool_acquire_waited : Z;
  snap_pool_acquire_timeouts : Z;
  snap_pool_acquire_wait_time_total_ns : Z;
  snap_pool_acquire_wait_time_max_ns : Z;
  snap_pool_acquire_wait_time_last_ns : Z;
  snap_connection_acquire_attempts : Z;
  snap_connection_acquire_immediate : Z;
  snap_connection_acquire_waited : Z;
  snap_connection_acquire_timeouts : Z;
  snap_connection_acquire_wait_time_total_ns : Z;
  snap_connection_acquire_wait_time_max_ns : Z;
  snap_connection_acquire_wait_time_last_ns : Z;
  snap_response_body_reuse_eligible : Z;
  snap_response_body_closed : Z;
  snap_response_body_aborted : Z;
  snap_active_connections : Z;
  snap_idle_connections : Z;
  snap_connections_opened : Z;
  snap_connections_open_failed : Z;
  snap_connections_closed : Z;
  snap_connections_reused : Z;
  snap_connections_aborted : Z;
  snap_idle_timeout_evictions : Z;
  snap_buffered_response_bytes : Z;
  snap_buffered_response_budget_rejections : Z;
  snap_stream_decoder_reserved_bytes : Z;
}.

Definition snapshot : action Metrics MetricsSnapshot :=
  s_active_requests ← load active_requests;
  s_pending_requests ← load pending_requests;
  s_peak_pending_requests ← load peak_pending_requests;
  s_total_requests ← load total_requests;
  s_failed_requests ← load failed_requests;
  s_pool_acquire_attempts ← load pool_acquire_attempts;
  s_pool_acquire_immediate ← load pool_acquire_immediate;
  s_pool_acquire_waited ← load pool_acquire_waited;
  s_pool_acquire_timeouts ← load pool_acquire_timeouts;
  s_pool_acquire_wait_time_total_ns ← load pool_acquire_wait_time_total_ns;
  s_pool_acquire_wait_time_max_ns ← load pool_acquire_wait_time_max_ns;
  s_pool_acquire_wait_time_last_ns ← load pool_acquire_wait_time_last_ns;
  s_connection_acquire_attempts ← load connection_acquire_attempts;
  s_connection_acquire_immediate ← load connection_acquire_immediate;
  s_connection_acquire_waited ← load connection_acquire_waited;
  s_connection_acquire_timeouts ← load connection_acquire_timeouts;
  s_connection_acquire_wait_time_total_ns ← load connection_acquire_wait_time_total_ns;
  s_connection_acquire_wait_time_max_ns ← load connection_acquire_wait_time_max_ns;
  s_connection_acquire_wait_time_last_ns ← load connection_acquire_wait_time_last_ns;
  s_response_body_reuse_eligible ← load response_body_reuse_eligible;
  s_response_body_closed ← load response_body_closed;
  s_response_body_aborted ← load response_body_aborted;
  s_active_connections ← load active_connections;
  s_idle_connections ← load idle_connections;
  s_connections_opened ← load connections_opened;
  s_connections_open_failed ← load connections_open_failed;
  s_connections_closed ← load connections_closed;
  s_connections_reused ← load connections_reused;
  s_connections_aborted ← load connections_aborted;
  s_idle_timeout_evictions ← load idle_timeout_evictions;
  s_buffered_response_bytes ← load buffered_response_bytes;
  s_buffered_response_budget_rejections ← load buffered_response_budget_rejections;
  s_stream_decoder_reserved_bytes ← load stream_decoder_reserved_bytes;
  mret (Build_MetricsSnapshot
    s_active_requests s_pending_requests s_peak_pending_requests s_total_requests
    s_failed_requests s_pool_acquire_attempts s_pool_acquire_immediate s_pool_acquire_waited
    s_pool_acquire_timeouts s_pool_acquire_wait_time_total_ns s_pool_acquire_wait_time_max_ns
    s_pool_acquire_wait_time_last_ns s_connection_acquire_attempts
    s_connection_acquire_immediate s_connection_acquire_waited s_connection_acquire_timeouts
    s_connection_acquire_wait_time_total_ns s_connection_acquire_wait_time_max_ns
    s_connection_acquire_wait_time_last_ns s_response_body_reuse_eligible
    s_response_body_closed s_response_body_aborted s_active_connections s_idle_connections
    s_connections_opened s_connections_open_failed s_connections_closed s_connections_reused
    s_connections_aborted s_idle_timeout_evictions s_buffered_response_bytes
    s_buffered_response_budget_rejections s_stream_decoder_reserved_bytes).

Definition TELEMETRY_SNAPSHOT_SCHEMA_VERSION : Z := 4.

Record TelemetrySnapshotMetadata := { schema_version : Z; snapshot_sequence : Z }.
Record StatsSnapshot := { stats_metadata : TelemetrySnapshotMetadata; stats_metrics : MetricsSnapshot }.

Definition next_sequence_attempt (current : Z) : attempt Z :=
  let_some next := checked_add current 1 else Done U64_MAX in Swap next next.

Definition next_telemetry_snapshot_sequence : action Metrics Z :=
  compare_exchange_loop telemetry_snapshot_sequence next_sequence_attempt.

Definition next_telemetry_snapshot_metadata : action Metrics TelemetrySnapshotMetadata :=
  sequence ← next_telemetry_snapshot_sequence;
  mret {| schema_version := TELEMETRY_SNAPSHOT_SCHEMA_VERSION; snapshot_sequence := sequence |}.

Definition stats_snapshot : action Metrics StatsSnapshot :=
  metadata ← next_telemetry_snapshot_metadata;
  metrics ← snapshot;
  mret {| stats_metadata := metadata; stats_metrics := metrics |}.

(** ** Byte budgets *)

Inductive BufferedByteReservationError := CounterOverflow | LimitExceeded.

Definition reserve_attempt (byte_count : Z) (max_buffered_response_bytes : option Z)
    (current : Z) : attempt (result unit BufferedByteReservationError) :=
  let_some next := checked_add current byte_count else Done (Err CounterOverflow) in
  if match max_buffered_response_bytes with Some limit => limit <? next | None => false end
  then Done (Err LimitExceeded)
  else Swap next (Ok tt).

Definition reserve_buffered_response_bytes (byte_count : Z)
    (max_buffered_response_bytes : option Z) :
    action Metrics (result unit BufferedByteReservationError) :=
  if byte_count =? 0 then mret (Ok tt)
  else compare_exchange_loop buffered_response_bytes
         (reserve_attempt byte_count max_buffered_response_bytes).

(** The loop returns nothing; the result recorded here says whether it subtracted. *)
Definition release_attempt (byte_count : Z) (current : Z) : attempt bool :=
  let_some next := checked_sub current byte_count else Done false in Swap next true.

Definition release_buffered_response_bytes (byte_count : Z) : action Metrics unit :=
  if byte_count =? 0 then mret tt
  else compare_exchange_loop buffered_response_bytes (release_attempt byte_count) ;; mret tt.

Definition buffered_response_budget_rejected : action Metrics unit :=
  fetch_add buffered_response_budget_rejections 1 ;; mret tt.

Definition try_reserve_attempt (bytes max_bytes current : Z) : attempt bool :=
  match checked_add current bytes with
  | Some next => if next <=? max_bytes then Swap next true else Done false
  | None => Done false
  end.

Definition try_reserve_stream_decoder_bytes (bytes max_bytes : Z) : action Metrics bool :=
  compare_exchange_loop stream_decoder_reserved_bytes (try_reserve_attempt bytes max_bytes).

Definition release_stream_decoder_bytes (bytes : Z) : action Metrics unit :=
  compare_exchange_loop stream_decoder_reserved_bytes (release_attempt bytes) ;; mret tt.

(** ** The buffered byte budget, under every interleaving *)

Inductive budget_op :=
| ReserveBytes (byte_count : N)
| ReleaseBytes (byte_count : N).

(** The loop bodies of the two methods, for a client whose limit is [limit]; the
    result says whether the counter was changed. *)
Definition budget_body (limit : Z) (op : budget_op) (current : Z) : attempt bool :=
  match op with
  | ReserveBytes n =>
      match reserve_attempt (Z.of_N n) (Some limit) current with
      | Swap next _ => Swap next true
      | Done _ => Done false
      end
  | ReleaseBytes n => release_attempt (Z.of_N n) current
  end.

(** The bytes an operation has added to the counter. *)
Definition budget_effect (op : budget_op) (changed : bool) : Z :=
  match op, changed with
  | ReserveBytes n, true => Z.of_N n
  | ReleaseBytes n, true => - Z.of_N n
  | _, false => 0
  end.

Lemma budget_body_effect limit op m :
  snd (run_attempt (budget_body limit op) m) =
  m + budget_effect op (fst (run_attempt (budget_body limit op) m)).
Proof.
  unfold run_attempt, budget_body, reserve_attempt, release_attempt, checked_add, checked_sub.
  destruct op as [n|n]; repeat case_match; simplify_eq; cbn; lia.
Qed.

Lemma budget_body_bound limit op m :
  0 <= m <= limit -> 0 <= snd (run_attempt (budget_body limit op) m) <= limit.
Proof.
  intros Hm.
  unfold run_attempt, budget_body, reserve_attempt, release_attempt, checked_add, checked_sub.
  destruct op as [n|n]; repeat case_match; simplify_eq; cbn; lia.
Qed.

(** Whatever the interleaving of reserving and releasing threads, down to single
    loads and exchanges, the buffered response bytes stay between zero and the
    limit, and they are exactly the bytes of the successful reservations minus the
    bytes released: no update is lost. *)
Theorem buffered_bytes_bounded_and_conserved (limit initial : Z) (ops : list budget_op) (s : system) :
  0 <= initial <= limit ->
  rtc (system_step (budget_body limit)) (System initial (Start <$> ops)) s ->
  0 <= mem s <= limit /\
  mem s = initial + total_effect budget_effect (task_of (budget_body limit) <$> threads s).
Proof.
  intros Hi Hs. split.
  - apply (system_cell_invariant (budget_body limit) (fun m => 0 <= m <= limit)) in Hs; [done| |done].
    intros op m. apply budget_body_bound.
  - pose proof (system_effect _ budget_effect (budget_body_effect limit) _ _ Hs) as He.
    cbn in He. assert (total_effect budget_effect (task_of (budget_body limit) <$> (Start <$> ops)) = 0).
    { clear. induction ops; cbn; [done|]. lia. }
    lia.
Qed.

(** ** Snapshot sequence numbers *)

Definition sequence_body (_ : unit) : Z -> attempt Z := next_sequence_attempt.

Definition sequence_inv (initial : Z) (s : atomic_system) : Prop :=
  initial <= cell s <= U64_MAX /\
  (forall i r, tasks s !! i = Some (Finished tt r) -> initial < r <= cell s \/ r = U64_MAX) /\
  (forall i j r, tasks s !! i = Some (Finished tt r) -> tasks s !! j = Some (Finished tt r) ->
    i <> j -> r = U64_MAX).

Lemma sequence_inv_step initial s s' :
  atomic_step sequence_body s s' -> sequence_inv initial s -> sequence_inv initial s'.
Proof.
  destruct 1 as [s i [] Hi]. intros (Hc & Hr & Hu).
  unfold run_attempt, sequence_body, next_sequence_attempt, sequence_inv, checked_add.
  change USIZE_MAX with U64_MAX.
  destruct (Z.leb_spec (cell s + 1) U64_MAX) as [Hle|Hgt]; cbn.
  - split_and!; [lia|lia| |].
    + intros j r [(<- & [= <-] & _)|[Hne Hj]]%list_lookup_insert_Some; [lia|].
      destruct (Hr _ _ Hj); lia.
    + intros j k r [(<- & [= <-] & _)|[Hj Hjr]]%list_lookup_insert_Some
        [(<- & Hk & _)|[Hk Hkr]]%list_lookup_insert_Some Hjk; try done.
      * apply Hr in Hkr. lia.
      * injection Hk as <-. apply Hr in Hjr. lia.
      * exact (Hu j k r Hjr Hkr Hjk).
  - split_and!; [lia|lia| |].
    + intros j r [(<- & [= <-] & _)|[Hne Hj]]%list_lookup_insert_Some; [by right|].
      by eapply Hr.
    + intros j k r [(<- & [= <-] & _)|[Hj Hjr]]%list_lookup_insert_Some
        [(<- & Hk & _)|[Hk Hkr]]%list_lookup_insert_Some Hjk; try done.
      * by injection Hk.
      * exact (Hu j k r Hjr Hkr Hjk).
Qed.

(** Concurrent snapshots are ordered: threads taking a snapshot sequence number
    at the same time never get the same one, until the counter saturates at
    [u64::MAX], and every number is larger than the counter before. *)
Theorem snapshot_sequence_unique (initial : Z) (n : nat) (s : system) :
  0 <= initial <= U64_MAX ->
  rtc (system_step sequence_body) (System initial (replicate n (Start tt))) s ->
  (forall i r, threads s !! i = Some (Returned tt r) -> initial < r \/ r = U64_MAX) /\
  (forall i j r r', threads s !! i = Some (Returned tt r) -> threads s !! j = Some (Returned tt r') ->
    i <> j -> r <> r' \/ r = U64_MAX).
Proof.
  intros Hi Hs%system_refines_atomic.
  assert (Hinv : sequence_inv initial (abstraction sequence_body s)).
  { revert Hs. generalize (abstraction sequence_body s) as s'.
    assert (H0 : sequence_inv initial
              (abstraction sequence_body (System initial (replicate n (Start tt))))).
    { unfold sequence_inv, abstraction; cbn.
      assert (Hn : forall i r, task_of sequence_body <$> replicate n (Start tt) !! i
                               <> Some (Finished tt r)).
      { intros i r. destruct (replicate n (Start tt) !! i) eqn:Hl; [|done].
        apply lookup_replicate in Hl as [-> _]. done. }
      split_and!; [lia|lia| |]; setoid_rewrite list_lookup_fmap; intros *; by intros ?%Hn. }
    revert H0. generalize (abstraction sequence_body (System initial (replicate n (Start tt)))).
    intros s0 H0 s' Hs. induction Hs as [|x y z Hxy _ IH]; [done|].
    apply IH. by eapply sequence_inv_step. }
  destruct Hinv as (_ & Hr & Hu).
  assert (Hl : forall i r, threads s !! i = Some (Returned tt r) ->
    tasks (abstraction sequence_body s) !! i = Some (Finished tt r)).
  { intros i r Hir. cbn. by rewrite list_lookup_fmap, Hir. }
  split.
  - intros i r Hir%Hl. destruct (Hr _ _ Hir); [left; lia | by right].
  - intros i j r r' Hir%Hl Hjr%Hl Hij. destruct (decide (r = r')) as [->|]; [|by left].
    right. exact (Hu i j r' Hir Hjr Hij).
Qed.

(** ** Witnesses *)

Lemma buffered_bytes_bounded_and_conserved_witness :
  rtc (system_step (budget_body 10)) (System 0 (Start <$> [ReserveBytes 7; ReserveBytes 5]))
    (System 7 [Returned (ReserveBytes 7) true; Loaded (ReserveBytes 5) 7]) /\ 0 <= 7 <= 10.
Proof.
  assert (Hs : rtc (system_step (budget_body 10))
    (System 0 (Start <$> [ReserveBytes 7; ReserveBytes 5]))
    (System 7 [Returned (ReserveBytes 7) true; Loaded (ReserveBytes 5) 7])).
  { eapply rtc_l; [exact (step_load _ (System 0 [Start (ReserveBytes 7); Start (ReserveBytes 5)]) 0
                           (ReserveBytes 7) eq_refl)|].
    eapply rtc_l; [exact (step_load _ (System 0 [Loaded (ReserveBytes 7) 0; Start (ReserveBytes 5)]) 1
                           (ReserveBytes 5) eq_refl)|].
    eapply rtc_l; [exact (step_swap _ (System 0 [Loaded (ReserveBytes 7) 0; Loaded (ReserveBytes 5) 0]) 0
                           (ReserveBytes 7) 7 true eq_refl eq_refl)|].
    apply rtc_once.
    exact (step_fail _ (System 7 [Returned (ReserveBytes 7) true; Loaded (ReserveBytes 5) 0]) 1
             (ReserveBytes 5) 0 5 true eq_refl eq_refl). }
  split; [exact Hs|].
  exact (proj1 (buffered_bytes_bounded_and_conserved 10 0 [ReserveBytes 7; ReserveBytes 5] _
                  ltac:(lia) Hs)).
Defined.

Lemma snapshot_sequence_unique_witness :
  rtc (system_step sequence_body) (System 4 (replicate 2 (Start tt)))
    (System 5 [Returned tt 5; Start tt]) /\ (4 < 5 \/ 5 = U64_MAX).
Proof.
  assert (Hs : rtc (system_step sequence_body) (System 4 (replicate 2 (Start tt)))
    (System 5 [Returned tt 5; Start tt])).
  { eapply rtc_l; [exact (step_load _ (System 4 [Start tt; Start tt]) 0 tt eq_refl)|].
    apply rtc_once.
    exact (step_swap _ (System 4 [Loaded tt 4; Start tt]) 0 tt 5 5 eq_refl eq_refl). }
  split; [exact Hs|].
  apply (proj1 (snapshot_sequence_unique 4 2 _ ltac:(unfold U64_MAX; lia) Hs) 0%nat 5 eq_refl).
Defined.
