(* ===== verification/OriginMetrics.v ===== *)
(** * Metrics of one origin

    [src/src/core/metrics/origin/{metrics,waiters,blocking,snapshots,registry}.rs]:
    the counters, idle state and pending waiters of an origin, and the registry of
    origins.  [now] is the instant the clock returns; the origin's own times are
    nanoseconds since [started_at]. *)

From stdpp Require Import sorting.
From S2P Require Import Prelude Atomics RustStr Ssrf.
From S2P Require Metrics.
Import Metrics (duration_as_nanos, saturating_atomic_u64_add, saturating_atomic_usize_sub,
  update_atomic_usize_max, update_atomic_u64_max, ResponseBodyLifecycleOutcome(..),
  ReuseEligible, Closed, Aborted).

Local Open Scope Z_scope.

(** ** Pending waiters *)

Inductive PendingRequestBlockingReason :=
| BlockedByNone
| GlobalActiveRequests
| PerOriginActiveRequests
| PendingQueueOrder
| Mixed.

#[export] Instance PendingRequestBlockingReason_eq_dec : EqDecision PendingRequestBlockingReason.
Proof. solve_decision. Defined.

Record PendingWaiter := { waiter_started : Z; waiter_blocked_by : PendingRequestBlockingReason }.

Record PendingWaiters := { next_waiter_id : Z; waiters : gmap Z PendingWaiter }.

#[export] Instance eta_PendingWaiters : Eta PendingWaiters := fun w =>
  Build_PendingWaiters (next_waiter_id w) (waiters w).

Record PendingWaitersSnapshot := {
  waiting_requests : Z;
  oldest_wait_ns : Z;
  waiting_blocked_by : PendingRequestBlockingReason;
}.

Definition pending_waiters_default : PendingWaiters :=
  {| next_waiter_id := 1; waiters := ∅ |}.

Definition waiters_insert (blocked_by : PendingRequestBlockingReason) (now : Z)
    (w : PendingWaiters) : Z * PendingWaiters :=
  let waiter_id := next_waiter_id w in
  (waiter_id,
   w <| next_waiter_id ::= saturating_add 1 |>
     <| waiters ::= <[waiter_id := {| waiter_started := now; waiter_blocked_by := blocked_by |}]> |>).

Definition waiters_remove (waiter_id : Z) (w : PendingWaiters) : unit * PendingWaiters :=
  (tt, w <| waiters ::= delete waiter_id |>).

(** [values] is the order in which the hash map yields its values, any permutation
    of them. *)
Definition waiters_snapshot (values : list PendingWaiter) (now : Z) : PendingWaitersSnapshot :=
  match values with
  | [] => {| waiting_requests := 0; oldest_wait_ns := 0; waiting_blocked_by := BlockedByNone |}
  | first_waiter :: others =>
      let blocked_by := waiter_blocked_by first_waiter in
      let '(oldest, is_mixed) :=
        fold_left (fun '(oldest, is_mixed) waiter =>
            (Z.max oldest (duration_as_nanos (elapsed (waiter_started waiter) now)),
             is_mixed || negb (bool_decide (waiter_blocked_by waiter = blocked_by))))
          others (duration_as_nanos (elapsed (waiter_started first_waiter) now), false) in
      {| waiting_requests := Z.of_nat (length values);
         oldest_wait_ns := oldest;
         waiting_blocked_by := if is_mixed then Mixed else blocked_by |}
  end.

(** ** The counters *)

Record IdleState := { idle_state_connections : Z; idle_started_at_ns : Z }.

#[export] Instance eta_IdleState : Eta IdleState := fun i =>
  Build_IdleState (idle_state_connections i) (idle_started_at_ns i).

Record OriginMetrics := {
  origin : string;
  started_at : Z;
  active_requests : Z;
  pending_requests : Z;
  peak_pending_requests : Z;
  pool_acquire_attempts : Z;
  pool_acquire_immediate : Z;
  pool_acquire_waited : Z;
  pool_acquire_timeouts : Z;
  pool_acquire_wait_time_total_ns : Z;
  pool_acquire_wait_time_max_ns : Z;
  pool_acquire_wait_time_last_ns : Z;
  connection_acquire_attempts : Z;
  connection_acquire_immediate : Z;
  connection_acquire_waited : Z;
  connection_acquire_timeouts : Z;
  connection_acquire_wait_time_total_ns : Z;
  connection_acquire_wait_time_max_ns : Z;
  connection_acquire_wait_time_last_ns : Z;
  response_body_reuse_eligible : Z;
  response_body_closed : Z;
  response_body_aborted : Z;
  active_connections : Z;
  idle_state : IdleState;
  connections_opened : Z;
  connections_open_failed : Z;
  connections_closed : Z;
  connections_reused : Z;
  connections_aborted : Z;
  idle_timeout_evictions : Z;
  last_activity_at_ns : Z;
  pending_waiters : PendingWaiters;
}.

#[export] Instance eta_OriginMetrics : Eta OriginMetrics := fun r =>
  Build_OriginMetrics
    (origin r) (started_at r) (active_requests r) (pending_requests r)
    (peak_pending_requests r) (pool_acquire_attempts r) (pool_acquire_immediate r)
    (pool_acquire_waited r) (pool_acquire_timeouts r) (pool_acquire_wait_time_total_ns r)
    (pool_acquire_wait_time_max_ns r) (pool_acquire_wait_time_last_ns r)
    (connection_acquire_attempts r) (connection_acquire_immediate r)
    (connection_acquire_waited r) (connection_acquire_timeouts r)
    (connection_acquire_wait_time_total_ns r) (connection_acquire_wait_time_max_ns r)
    (connection_acquire_wait_time_last_ns r) (response_body_reuse_eligible r)
    (response_body_closed r) (response_body_aborted r) (active_connections r) (idle_state r)
    (connections_opened r) (connections_open_failed r) (connections_closed r)
    (connections_reused r) (connections_aborted r) (idle_timeout_evictions r)
    (last_activity_at_ns r) (pending_waiters r).

Definition origin_metrics_new (origin : string) (started_at now : Z) : OriginMetrics :=
  Build_OriginMetrics
    origin started_at 0 0 0 0 0 0 0 0 0 0 0 0 0 0 0 0 0 0 0 0 0 (Build_IdleState 0 0) 0 0 0 0 0
    0 (duration_as_nanos (elapsed started_at now)) pending_waiters_default.

Record OriginMetricsSnapshot := {
  snap_origin : string;
  snap_active_requests : Z;
  snap_pending_requests : Z;
  snap_peak_pending_requests : Z;
  snap_pool_acquire_attempts : Z;
  snap_pool_acquire_immediate : Z;
  snap_pool_acquire_waited : Z;
  snap_pool_acquire_timeouts : Z;
  snap_pool_acquire_wait_time_total_ns : Z;
  snap_pool_acquire_wait_time_max_ns : Z;
  snap_pool_acquire_wait_time_last_ns : Z;
  snap_connection_acquire_attempts : Z;
  snap_connection_acquire_immediate : Z;
  snap_connection_acquire_waited : Z;
  snap_connection_acquire_timeouts : Z;
  snap_connection_acquire_wait_time_total_ns : Z;
  snap_connection_acquire_wait_time_max_ns : Z;
  snap_connection_acquire_wait_time_last_ns : Z;
  snap_response_body_reuse_eligible : Z;
  snap_response_body_closed : Z;
  snap_response_body_aborted : Z;
  snap_active_connections : Z;
  snap_idle_connections : Z;
  snap_connections_opened : Z;
  snap_connections_open_failed : Z;
  snap_connections_closed : Z;
  snap_connections_reused : Z;
  snap_connections_aborted : Z;
  snap_idle_timeout_evictions : Z;
  snap_last_used_at_ns : Z;
  snap_idle_age_ns : Z;
  snap_last_activity_at_ns : Z;
}.

Record OriginPoolDiagnosticsSnapshot := {
  diag_origin : string;
  diag_active_requests : Z;
  diag_pending_requests : Z;
  diag_pool_acquire_timeouts : Z;
  diag_oldest_pending_request_wait_ns : Z;
  diag_blocked_by : PendingRequestBlockingReason;
  diag_last_activity_at_ns : Z;
}.

Section methods.
Context (now : Z).

Definition now_ns : action OriginMetrics Z :=
  started ← load started_at; mret (duration_as_nanos (elapsed started now)).

Definition touch : action OriginMetrics Z :=
  ns ← now_ns;
  update_atomic_u64_max last_activity_at_ns ns ;;
  mret ns.

Definition active_request_started : action OriginMetrics unit :=
  fetch_add active_requests 1 ;;
  touch ;;
  mret tt.
Definition active_request_finished : action OriginMetrics unit :=
  fetch_sub active_requests 1 ;;
  touch ;;
  mret tt.
Definition pending_request_started (blocked_by : PendingRequestBlockingReason) :
    action OriginMetrics Z :=
  previous ← fetch_add pending_requests 1;
  update_atomic_usize_max peak_pending_requests (wrapping_add previous 1) ;;
  waiter_id ← locked pending_waiters (waiters_insert blocked_by now);
  touch ;;
  mret waiter_id.
Definition pending_request_finished (waiter_id : Z) : action OriginMetrics unit :=
  locked pending_waiters (waiters_remove waiter_id) ;;
  fetch_sub pending_requests 1 ;;
  touch ;;
  mret tt.
Definition pool_acquire_started : action OriginMetrics unit :=
  fetch_add pool_acquire_attempts 1 ;;
  touch ;;
  mret tt.
Definition pool_acquire_finished_immediately : action OriginMetrics unit :=
  fetch_add pool_acquire_immediate 1 ;;
  touch ;;
  mret tt.
Definition pool_acquire_waited_event : action OriginMetrics unit :=
  fetch_add pool_acquire_waited 1 ;;
  touch ;;
  mret tt.
Definition pool_acquire_timeout : action OriginMetrics unit :=
  fetch_add pool_acquire_timeouts 1 ;;
  touch ;;
  mret tt.
Definition pool_acquire_wait_finished (elapsed : Z) : action OriginMetrics unit :=
  let elapsed_ns := duration_as_nanos elapsed in
  saturating_atomic_u64_add pool_acquire_wait_time_total_ns elapsed_ns ;;
  update_atomic_u64_max pool_acquire_wait_time_max_ns elapsed_ns ;;
  store pool_acquire_wait_time_last_ns elapsed_ns ;;
  touch ;;
  mret tt.
Definition connection_acquire_started : action OriginMetrics unit :=
  fetch_add connection_acquire_attempts 1 ;;
  touch ;;
  mret tt.
Definition connection_acquire_finished_immediately : action OriginMetrics unit :=
  fetch_add connection_acquire_immediate 1 ;;
  touch ;;
  mret tt.
Definition connection_acquire_waited_event : action OriginMetrics unit :=
  fetch_add connection_acquire_waited 1 ;;
  touch ;;
  mret tt.
Definition connection_acquire_timeout : action OriginMetrics unit :=
  fetch_add connection_acquire_timeouts 1 ;;
  touch ;;
  mret tt.
Definition connection_acquire_wait_finished (elapsed : Z) : action OriginMetrics unit :=
  let elapsed_ns := duration_as_nanos elapsed in
  saturating_atomic_u64_add connection_acquire_wait_time_total_ns elapsed_ns ;;
  update_atomic_u64_max connection_acquire_wait_time_max_ns elapsed_ns ;;
  store connection_acquire_wait_time_last_ns elapsed_ns ;;
  touch ;;
  mret tt.
Definition response_body_finished (outcome : ResponseBodyLifecycleOutcome) :
    action OriginMetrics unit :=
  (match outcome with
   | ReuseEligible => fetch_add response_body_reuse_eligible 1
   | Closed => fetch_add response_body_closed 1
   | Aborted => fetch_add response_body_aborted 1
   end) ;;
  touch ;;
  mret tt.
Definition connection_opened : action OriginMetrics unit :=
  fetch_add active_connections 1 ;;
  fetch_add connections_opened 1 ;;
  touch ;;
  mret tt.
Definition connection_open_failed : action OriginMetrics unit :=
  fetch_add connections_open_failed 1 ;;
  touch ;;
  mret tt.
Definition connection_closed : action OriginMetrics unit :=
  saturating_atomic_usize_sub active_connections 1 ;;
  fetch_add connections_closed 1 ;;
  touch ;;
  mret tt.
Definition became_idle (idle_started_at : Z) (i : IdleState) : unit * IdleState :=
  let i := if idle_state_connections i =? 0 then i <| idle_started_at_ns := idle_started_at |> else i in
  (tt, i <| idle_state_connections ::= fun n => saturating_add n 1 |>).
Definition connection_became_idle : action OriginMetrics unit :=
  idle_started_at ← touch;
  locked idle_state (became_idle idle_started_at).
Definition left_idle (i : IdleState) : unit * IdleState :=
  let i := i <| idle_state_connections ::= fun n => saturating_sub n 1 |> in
  (tt, if idle_state_connections i =? 0 then i <| idle_started_at_ns := 0 |> else i).
Definition connection_left_idle : action OriginMetrics unit :=
  locked idle_state left_idle ;;
  touch ;;
  mret tt.
Definition connection_reused : action OriginMetrics unit :=
  fetch_add connections_reused 1 ;;
  touch ;;
  mret tt.
Definition connection_aborted : action OriginMetrics unit :=
  fetch_add connections_aborted 1 ;;
  touch ;;
  mret tt.
Definition idle_timeout_eviction : action OriginMetrics unit :=
  fetch_add idle_timeout_evictions 1 ;;
  touch ;;
  mret tt.

(** ** Snapshots *)

Definition idle_state_snapshot : action OriginMetrics (Z * Z) :=
  i ← load idle_state;
  if (idle_state_connections i =? 0) || (idle_started_at_ns i =? 0) then mret (0, 0)
  else
    ns ← now_ns;
    mret (idle_state_connections i, saturating_sub ns (idle_started_at_ns i)).

Definition is_idle : action OriginMetrics bool :=
  a ← load active_requests;
  if negb (a =? 0) then mret false
  else
    p ← load pending_requests;
    if negb (p =? 0) then mret false
    else
      c ← load active_connections;
      mret (c =? 0).

Definition snapshot : action OriginMetrics OriginMetricsSnapshot :=
  s_active_connections ← load active_connections;
  idle ← idle_state_snapshot;
  s_last_used_at_ns ← load last_activity_at_ns;
  s_origin ← load origin;
  s_active_requests ← load active_requests;
  s_pending_requests ← load pending_requests;
  s_peak_pending_requests ← load peak_pending_requests;
  s_pool_acquire_attempts ← load pool_acquire_attempts;
  s_pool_acquire_immediate ← load pool_acquire_immediate;
  s_pool_acquire_waited ← load pool_acquire_waited;
  s_pool_acquire_timeouts ← load pool_acquire_timeouts;
  s_pool_acquire_wait_time_total_ns ← load pool_acquire_wait_time_total_ns;
  s_pool_acquire_wait_time_max_ns ← load pool_acquire_wait_time_max_ns;
  s_pool_acquire_wait_time_last_ns ← load pool_acquire_wait_time_last_ns;
  s_connection_acquire_attempts ← load connection_acquire_attempts;
  s_connection_acquire_immediate ← load connection_acquire_immediate;
  s_connection_acquire_waited ← load connection_acquire_waited;
  s_connection_acquire_timeouts ← load connection_acquire_timeouts;
  s_connection_acquire_wait_time_total_ns ← load connection_acquire_wait_time_total_ns;
  s_connection_acquire_wait_time_max_ns ← load connection_acquire_wait_time_max_ns;
  s_connection_acquire_wait_time_last_ns ← load connection_acquire_wait_time_last_ns;
  s_response_body_reuse_eligible ← load response_body_reuse_eligible;
  s_response_body_closed ← load response_body_closed;
  s_response_body_aborted ← load response_body_aborted;
  s_connections_opened ← load connections_opened;
  s_connections_open_failed ← load connections_open_failed;
  s_connections_closed ← load connections_closed;
  s_connections_reused ← load connections_reused;
  s_connections_aborted ← load connections_aborted;
  s_idle_timeout_evictions ← load idle_timeout_evictions;
  mret (Build_OriginMetricsSnapshot
    s_origin s_active_requests s_pending_requests s_peak_pending_requests
    s_pool_acquire_attempts s_pool_acquire_immediate s_pool_acquire_waited
    s_pool_acquire_timeouts s_pool_acquire_wait_time_total_ns s_pool_acquire_wait_time_max_ns
    s_pool_acquire_wait_time_last_ns s_connection_acquire_attempts
    s_connection_acquire_immediate s_connection_acquire_waited s_connection_acquire_timeouts
    s_connection_acquire_wait_time_total_ns s_connection_acquire_wait_time_max_ns
    s_connection_acquire_wait_time_last_ns s_response_body_reuse_eligible
    s_response_body_closed s_response_body_aborted s_active_connections (fst idle)
    s_connections_opened s_connections_open_failed s_connections_closed s_connections_reused
    s_connections_aborted s_idle_timeout_evictions s_last_used_at_ns (snd idle)
    s_last_used_at_ns).

(** [values] orders the waiters of the map read under the lock. *)
Definition pool_diagnostics_snapshot (values : gmap Z PendingWaiter -> list PendingWaiter) :
    action OriginMetrics OriginPoolDiagnosticsSnapshot :=
  w ← load pending_waiters;
  let waiting := waiters_snapshot (values (waiters w)) now in
  s_origin ← load origin;
  s_active_requests ← load active_requests;
  s_pool_acquire_timeouts ← load pool_acquire_timeouts;
  s_last_activity_at_ns ← load last_activity_at_ns;
  mret {| diag_origin := s_origin;
          diag_active_requests := s_active_requests;
          diag_pending_requests := waiting_requests waiting;
          diag_pool_acquire_timeouts := s_pool_acquire_timeouts;
          diag_oldest_pending_request_wait_ns := oldest_wait_ns waiting;
          diag_blocked_by := waiting_blocked_by waiting;
          diag_last_activity_at_ns := s_last_activity_at_ns |}.
End methods.

(** ** Waiters: what a snapshot reports *)

Definition wait_ns (now : Z) (w : PendingWaiter) : Z :=
  duration_as_nanos (elapsed (waiter_started w) now).

Lemma waiters_fold now reason others oldest mixed :
  fold_left (fun '(oldest, is_mixed) waiter =>
      (Z.max oldest (duration_as_nanos (elapsed (waiter_started waiter) now)),
       is_mixed || negb (bool_decide (waiter_blocked_by waiter = reason))))
    others (oldest, mixed) =
  (fold_left (fun o w => Z.max o (wait_ns now w)) others oldest,
   mixed || existsb (fun w => negb (bool_decide (waiter_blocked_by w = reason))) others).
Proof.
  revert oldest mixed; induction others as [|w others IH]; intros oldest mixed; cbn;
    [by rewrite orb_false_r|]. by rewrite IH, orb_assoc.
Qed.

Lemma fold_max_spec {A} (f : A -> Z) l z :
  (forall x, x ∈ l -> f x <= fold_left (fun o w => Z.max o (f w)) l z) /\
  z <= fold_left (fun o w => Z.max o (f w)) l z /\
  (fold_left (fun o w => Z.max o (f w)) l z = z \/
   exists x, x ∈ l /\ fold_left (fun o w => Z.max o (f w)) l z = f x).
Proof.
  revert z; induction l as [|x l IH]; intros z; cbn.
  - split_and!; [by intros x ?%elem_of_nil | lia | by left].
  - destruct (IH (Z.max z (f x))) as (Ha & Hb & Hc). split_and!.
    + intros y [->|Hy]%elem_of_cons; [lia | by apply Ha].
    + lia.
    + destruct Hc as [->|(y & Hy & ->)].
      * destruct (Z.max_spec z (f x)) as [[_ ->]|[_ ->]]; [|by left].
        right. exists x. split; [apply list_elem_of_here | done].
      * right. exists y. split; [by apply list_elem_of_further | done].
Qed.

(** The diagnostics of pending requests do not depend on the iteration order of
    the hash map: in whatever order it yields the waiters, the snapshot counts them,
    reports the longest wait, and gives the common blocking reason, [Mixed] exactly
    when two waiters are blocked for different reasons. *)
Theorem waiters_snapshot_correct (w : PendingWaiters) (values : list PendingWaiter) (now : Z) :
  values ≡ₚ (snd <$> map_to_list (waiters w)) ->
  let s := waiters_snapshot values now in
  waiting_requests s = Z.of_nat (size (waiters w)) /\
  (forall id v, waiters w !! id = Some v -> wait_ns now v <= oldest_wait_ns s) /\
  (waiters w = ∅ -> oldest_wait_ns s = 0 /\ waiting_blocked_by s = BlockedByNone) /\
  (waiters w <> ∅ -> exists id v, waiters w !! id = Some v /\ oldest_wait_ns s = wait_ns now v) /\
  (forall reason, waiters w <> ∅ ->
    (forall id v, waiters w !! id = Some v -> waiter_blocked_by v = reason) ->
    waiting_blocked_by s = reason) /\
  ((exists i j v v', waiters w !! i = Some v /\ waiters w !! j = Some v' /\
    waiter_blocked_by v <> waiter_blocked_by v') -> waiting_blocked_by s = Mixed).
Proof.
  intros Hperm.
  assert (Hin : forall v, v ∈ values <-> exists id, waiters w !! id = Some v).
  { intros v. rewrite Hperm, list_elem_of_fmap. split.
    - intros ([id v'] & -> & Hv%elem_of_map_to_list). by exists id.
    - intros [id Hv]. exists (id, v). split; [done|]. by apply elem_of_map_to_list. }
  assert (Hempty : waiters w = ∅ <-> values = []).
  { rewrite <- map_to_list_empty_iff. split; intros He.
    - apply Permutation_nil_r. rewrite Hperm, He. done.
    - apply (fmap_nil_inv snd), Permutation_nil_r. by rewrite <- Hperm, He. }
  assert (Hsize : length values = size (waiters w))
    by (by rewrite Hperm, length_fmap, length_map_to_list).
  destruct values as [|first others]; cbn zeta.
  - assert (He : waiters w = ∅) by (by apply Hempty).
    rewrite He in *. cbn. split_and!; try done. by intros (i & j & v & v' & Hv & _).
  - assert (Hne : waiters w <> ∅) by (by rewrite Hempty). unfold waiters_snapshot.
    rewrite waiters_fold. cbn [waiting_requests oldest_wait_ns waiting_blocked_by orb].
    fold (wait_ns now first).
    destruct (fold_max_spec (wait_ns now) others (wait_ns now first)) as (Ha & Hb & Hc).
    split_and!; [by rewrite Hsize | | done | | |].
    + intros id v Hv. assert (Hv' : v ∈ first :: others) by (apply Hin; by exists id).
      apply elem_of_cons in Hv' as [->|Hv']; [done | by apply Ha].
    + intros _. destruct Hc as [->|(x & Hx & ->)].
      * destruct (proj1 (Hin first) ltac:(apply list_elem_of_here)) as [id Hid]. by exists id, first.
      * destruct (proj1 (Hin x) ltac:(by apply list_elem_of_further)) as [id Hid]. by exists id, x.
    + intros reason _ Hall. destruct (existsb _ others) eqn:He.
      * apply existsb_exists in He as (x & Hx%list_elem_of_In & Hd).
        destruct (proj1 (Hin x) ltac:(by apply list_elem_of_further)) as [id Hid].
        destruct (proj1 (Hin first) ltac:(apply list_elem_of_here)) as [idf Hf].
        rewrite (Hall _ _ Hid), (Hall _ _ Hf), bool_decide_eq_true_2 in Hd; done.
      * destruct (proj1 (Hin first) ltac:(apply list_elem_of_here)) as [idf Hf]. by eapply Hall.
    + intros (i & j & v & v' & Hv & Hv' & Hd). destruct (existsb _ others) eqn:He; [done|].
      exfalso. apply Hd.
      assert (Hsame : forall x, x ∈ first :: others -> waiter_blocked_by x = waiter_blocked_by first).
      { intros x [->|Hx]%elem_of_cons; [done|]. apply not_true_iff_false in He.
        destruct (decide (waiter_blocked_by x = waiter_blocked_by first)) as [?|Hn]; [done|].
        exfalso. apply He, existsb_exists. exists x. split; [by apply list_elem_of_In|].
        by rewrite bool_decide_eq_false_2. }
      rewrite (Hsame v), (Hsame v'); [done | apply Hin; by exists j | apply Hin; by exists i].
Qed.

(** ** The idle clock, under every interleaving *)

(** The methods other threads may run. *)
Inductive origin_method (now : Z) : action OriginMetrics unit -> Prop :=
| method_active_started : origin_method now (active_request_started now)
| method_active_finished : origin_method now (active_request_finished now)
| method_pending_started reason : origin_method now (pending_request_started now reason ;; mret tt)
| method_pending_finished id : origin_method now (pending_request_finished now id)
| method_pool_started : origin_method now (pool_acquire_started now)
| method_pool_immediate : origin_method now (pool_acquire_finished_immediately now)
| method_pool_waited : origin_method now (pool_acquire_waited_event now)
| method_pool_timeout : origin_method now (pool_acquire_timeout now)
| method_pool_wait e : origin_method now (pool_acquire_wait_finished now e)
| method_connection_started : origin_method now (connection_acquire_started now)
| method_connection_immediate : origin_method now (connection_acquire_finished_immediately now)
| method_connection_waited : origin_method now (connection_acquire_waited_event now)
| method_connection_timeout : origin_method now (connection_acquire_timeout now)
| method_connection_wait e : origin_method now (connection_acquire_wait_finished now e)
| method_body o : origin_method now (response_body_finished now o)
| method_opened : origin_method now (connection_opened now)
| method_open_failed : origin_method now (connection_open_failed now)
| method_closed : origin_method now (connection_closed now)
| method_became_idle : origin_method now (connection_became_idle now)
| method_left_idle : origin_method now (connection_left_idle now)
| method_reused : origin_method now (connection_reused now)
| method_aborted : origin_method now (connection_aborted now)
| method_eviction : origin_method now (idle_timeout_eviction now).

Definition idle_clock_wf (since : Z) (m : OriginMetrics) : Prop :=
  since <= last_activity_at_ns m /\
  0 <= idle_state_connections (idle_state m) <= USIZE_MAX /\
  (idle_state_connections (idle_state m) = 0 -> idle_started_at_ns (idle_state m) = 0).

Lemma update_max_mono now since m :
  idle_clock_wf since m ->
  idle_clock_wf since (m <| last_activity_at_ns :=
    snd (run_attempt (Metrics.update_max_attempt now) (last_activity_at_ns m)) |>).
Proof.
  intros (Ha & Hb & Hc). unfold idle_clock_wf; cbn. split_and!; try done; try lia.
  unfold run_attempt, Metrics.update_max_attempt.
  destruct (Z.ltb_spec (last_activity_at_ns m) now); cbn; lia.
Qed.

Lemma became_idle_wf since t m :
  idle_clock_wf since m -> idle_clock_wf since (m <| idle_state := snd (became_idle t (idle_state m)) |>).
Proof.
  intros (Ha & Hb & Hc). unfold idle_clock_wf; cbn. destruct (idle_state m) as [n s]; cbn in *.
  destruct (Z.eqb_spec n 0); cbn; unfold saturating_add; split_and!; try done; unfold USIZE_MAX in *; lia.
Qed.

Lemma left_idle_wf since m :
  idle_clock_wf since m -> idle_clock_wf since (m <| idle_state := snd (left_idle (idle_state m)) |>).
Proof.
  intros (Ha & Hb & Hc). unfold idle_clock_wf; cbn. destruct (idle_state m) as [n s].
  unfold left_idle, saturating_sub; cbn in *.
  destruct (Z.eqb_spec (Z.max 0 (n - 1)) 0); cbn; split_and!; try done; unfold USIZE_MAX in *; lia.
Qed.

(** One atomic step of a method: it leaves the idle clock alone, or is one of the
    steps above. *)
Ltac keep_step :=
  let m := fresh "m" in let Hm := fresh "Hm" in
  intros m Hm; split;
  [ cbn [fst snd];
    lazymatch goal with
    | |- context [run_attempt (Metrics.update_max_attempt ?t) (last_activity_at_ns m)] =>
        generalize (update_max_mono t _ m Hm);
        by destruct (run_attempt (Metrics.update_max_attempt t) (last_activity_at_ns m))
    | |- _ => first [exact Hm | exact (became_idle_wf _ _ m Hm) | exact (left_idle_wf _ m Hm)
                   | by destruct (run_attempt _ _)]
    end
  | cbn ].

Lemma origin_method_keeps since now m :
  origin_method now m -> keeps (idle_clock_wf since) m.
Proof.
  destruct 1; try destruct o; cbn; repeat keep_step; exact I.
Qed.

(** Whatever methods other threads run and however their steps interleave, the
    origin's last activity never moves backwards and an origin without idle
    connections has no idle start, so its reported idle age is zero. *)
Theorem origin_idle_clock (m m' : OriginMetrics) (ts ts' : list (action OriginMetrics unit)) :
  idle_clock_wf (last_activity_at_ns m) m ->
  Forall (fun t => exists now, origin_method now t) ts ->
  rtc pool_step (m, ts) (m', ts') ->
  last_activity_at_ns m <= last_activity_at_ns m' /\
  forall now, idle_state_connections (idle_state m') = 0 ->
    idle_started_at_ns (idle_state m') = 0 /\ fst (run_action (idle_state_snapshot now) m') = (0, 0).
Proof.
  intros Hwf Hts Hs.
  assert (Hwf' : idle_clock_wf (last_activity_at_ns m) m').
  { apply (pool_invariant _ _ _ Hs); [done|]. eapply Forall_impl; [exact Hts|].
    cbn. intros t [now Ht]. by apply (origin_method_keeps _ now). }
  destruct Hwf' as (Ha & _ & Hc). split; [done|]. intros now Hi. split; [by apply Hc|].
  cbn. by rewrite Hi.
Qed.

(** ** Witnesses *)

Lemma waiters_snapshot_correct_witness :
  let w := snd (waiters_insert GlobalActiveRequests 3
             (snd (waiters_insert PendingQueueOrder 1 pending_waiters_default))) in
  let values := snd <$> map_to_list (waiters w) in
  values ≡ₚ (snd <$> map_to_list (waiters w)) /\
  waiting_requests (waiters_snapshot values 10) = Z.of_nat (size (waiters w)).
Proof.
  intros w values. split; [reflexivity|].
  exact (proj1 (waiters_snapshot_correct w values 10 (reflexivity _))).
Defined.

Lemma origin_idle_clock_witness :
  let m := origin_metrics_new "https://a" 0 7 in
  exists m' ts', rtc pool_step (m, [active_request_started 8; connection_became_idle 9]) (m', ts') /\
    active_requests m' = 1 /\ last_activity_at_ns m <= last_activity_at_ns m'.
Proof.
  intros m. eexists _, _.
  assert (Hs : rtc pool_step (m, [active_request_started 8; connection_became_idle 9]) _)
    by (apply rtc_once; eapply (step_thread _ _ 0); reflexivity).
  split; [exact Hs|]. split; [reflexivity|].
  refine (proj1 (origin_idle_clock m _ _ _ _ _ Hs)).
  - split_and!; vm_compute; congruence.
  - repeat (apply Forall_cons_2; [eexists; constructor|]). apply Forall_nil_2.
Defined.
