(* ===== verification/Registry.v ===== *)
(** * The registry of origins

    [src/src/core/metrics/origin/registry.rs].  The registry maps an origin to a
    shared [OriginMetrics] object ([Arc]): objects live in a heap, so that an object
    a request still holds survives its removal from the registry.  The sections
    under the read and the write lock are one step each. *)

From stdpp Require Import sorting.
From S2P Require Import Prelude Atomics RustStr Ssrf OriginMetrics.

Local Open Scope Z_scope.

Definition ORIGIN_PRESSURE_CLEANUP_THRESHOLD : nat := Z.to_nat 1024.

Abbreviation loc := positive.

Record OriginMetricsRegistry := {
  registry_started_at : Z;
  registry_origins : gmap string loc;
  pruned_idle_origins : bool;
}.

#[export] Instance eta_OriginMetricsRegistry : Eta OriginMetricsRegistry := fun r =>
  Build_OriginMetricsRegistry (registry_started_at r) (registry_origins r) (pruned_idle_origins r).

Record world := World { registry : OriginMetricsRegistry; heap : gmap loc OriginMetrics }.

#[export] Instance eta_world : Eta world := fun w => World (registry w) (heap w).

Definition registry_default (now : Z) : OriginMetricsRegistry :=
  {| registry_started_at := now; registry_origins := ∅; pruned_idle_origins := false |}.

Definition idle_now (w : world) (l : loc) : bool :=
  match heap w !! l with Some m => fst (run_action is_idle m) | None => false end.

(** [origins.retain(|_, metrics| !metrics.is_idle())] when the registry is full. *)
Definition cleanup (w : world) : world :=
  let origins := registry_origins (registry w) in
  if (ORIGIN_PRESSURE_CLEANUP_THRESHOLD <=? size origins)%nat then
    let retained := filter (fun '(_, l) => idle_now w l = false) origins in
    w <| registry ::= fun r =>
        r <| registry_origins := retained |>
          <| pruned_idle_origins := pruned_idle_origins r || (size retained <? size origins)%nat |> |>
  else w.

(** The section under the write lock. *)
Definition insert_origin (origin : string) (now : Z) (w : world) : loc * world :=
  match registry_origins (registry w) !! origin with
  | Some l => (l, w)
  | None =>
      let w := cleanup w in
      let l := fresh (dom (heap w)) in
      (l, w <| heap ::= <[l := origin_metrics_new origin (registry_started_at (registry w)) now]> |>
            <| registry ::= fun r => r <| registry_origins ::= <[origin := l]> |> |>)
  end.

Definition metrics_for (origin : string) (now : Z) : action world loc :=
  found ← Atomically (fun w => (registry_origins (registry w) !! origin, w)) Return;
  match found with
  | Some l => mret l
  | None => Atomically (insert_origin origin now) Return
  end.

Definition snapshots_include_all_historical_origins (w : world) : bool :=
  negb (pruned_idle_origins (registry w)).

(** The snapshots of the registered origins, sorted by origin; the loads are those
    of a moment without concurrent updates. *)
Definition registered (w : world) : list OriginMetrics :=
  omap (fun '(_, l) => heap w !! l) (map_to_list (registry_origins (registry w))).

Definition snapshot_le (a b : OriginMetricsSnapshot) : Prop :=
  string_le (snap_origin a) (snap_origin b).
#[export] Instance snapshot_le_dec : RelDecision snapshot_le.
Proof. intros a b. unfold snapshot_le. apply _. Defined.

Definition diagnostics_le (a b : OriginPoolDiagnosticsSnapshot) : Prop :=
  string_le (diag_origin a) (diag_origin b).
#[export] Instance diagnostics_le_dec : RelDecision diagnostics_le.
Proof. intros a b. unfold diagnostics_le. apply _. Defined.

Definition snapshots (now : Z) (w : world) : list OriginMetricsSnapshot :=
  merge_sort snapshot_le ((fun m => fst (run_action (snapshot now) m)) <$> registered w).

Definition pool_diagnostics_snapshots (values : gmap Z PendingWaiter -> list PendingWaiter)
    (now : Z) (w : world) : list OriginPoolDiagnosticsSnapshot :=
  merge_sort diagnostics_le
    ((fun m => fst (run_action (pool_diagnostics_snapshot now values) m)) <$> registered w).

(** ** Properties *)

(** Every registered origin has its object. *)
Definition registry_wf (w : world) : Prop :=
  forall o l, registry_origins (registry w) !! o = Some l ->
  exists m, heap w !! l = Some m /\ origin m = o.

Lemma cleanup_heap w : heap (cleanup w) = heap w.
Proof. unfold cleanup. by destruct (_ <=? _)%nat. Qed.

Lemma cleanup_retains w o l :
  registry_origins (registry w) !! o = Some l -> idle_now w l = false ->
  registry_origins (registry (cleanup w)) !! o = Some l.
Proof.
  intros Ho Hi. unfold cleanup. destruct (_ <=? _)%nat; [|done].
  by apply map_lookup_filter_Some.
Qed.

Lemma cleanup_subset w o l :
  registry_origins (registry (cleanup w)) !! o = Some l ->
  registry_origins (registry w) !! o = Some l.
Proof.
  unfold cleanup. destruct (_ <=? _)%nat; [|done]. by intros [? _]%map_lookup_filter_Some.
Qed.

Lemma cleanup_pruned w o l :
  registry_origins (registry w) !! o = Some l ->
  registry_origins (registry (cleanup w)) !! o = None ->
  idle_now w l = true /\ (ORIGIN_PRESSURE_CLEANUP_THRESHOLD <= size (registry_origins (registry w)))%nat
  /\ snapshots_include_all_historical_origins (cleanup w) = false.
Proof.
  intros Ho. unfold cleanup, snapshots_include_all_historical_origins.
  destruct (Nat.leb_spec ORIGIN_PRESSURE_CLEANUP_THRESHOLD (size (registry_origins (registry w))));
    [|by rewrite Ho].
  cbn. intros Hn. destruct (idle_now w l) eqn:Hi.
  - split_and!; [done | done |]. apply negb_false_iff, orb_true_iff. right. apply Nat.ltb_lt.
    apply map_subset_size, strict_spec_alt. split; [apply map_filter_subseteq|].
    intros Heq. rewrite Heq in Hn. congruence.
  - exfalso. rewrite (proj2 (map_lookup_filter_Some _ _ o l)) in Hn; [done | split; done].
Qed.

(** [metrics_for] returns the object registered for the origin, creating it when
    there is none; objects already handed out are left untouched.  When the
    registry is full only origins without active requests, pending requests and
    connections lose their entry, and losing one is recorded, so that historical
    totals are no longer compared. *)
Theorem metrics_for_correct (w w' : world) (o : string) (now : Z) (l : loc) :
  registry_wf w -> run_action (metrics_for o now) w = (l, w') ->
  registry_wf w' /\
  registry_origins (registry w') !! o = Some l /\
  (forall l' m, heap w !! l' = Some m -> heap w' !! l' = Some m) /\
  (forall l', registry_origins (registry w) !! o = Some l' -> l = l' /\ w' = w) /\
  (registry_origins (registry w) !! o = None ->
    heap w !! l = None /\
    heap w' !! l = Some (origin_metrics_new o (registry_started_at (registry w)) now)) /\
  (forall o' l', registry_origins (registry w) !! o' = Some l' ->
    registry_origins (registry w') !! o' = Some l' \/
    (idle_now w l' = true /\ snapshots_include_all_historical_origins w' = false)).
Proof.
  intros Hwf. unfold metrics_for. cbn.
  destruct (registry_origins (registry w) !! o) as [l0|] eqn:Ho; cbn.
  { intros [= <- <-]. split_and!; try done; [by intros ? [= <-] | by intros; left]. }
  unfold insert_origin. rewrite Ho. cbn.
  set (c := cleanup w). set (fl := fresh (dom (heap c))). intros [= <- <-]; cbn.
  assert (Hfresh : heap w !! fl = None).
  { apply not_elem_of_dom. unfold fl, c. rewrite cleanup_heap. apply is_fresh. }
  assert (Hstart : registry_started_at (registry c) = registry_started_at (registry w))
    by (unfold c, cleanup; by destruct (_ <=? _)%nat).
  unfold c at 1. split_and!.
  - intros o' l'. cbn. intros [[<- <-]|[Hne Ho']]%lookup_insert_Some.
    + eexists. split; [by rewrite lookup_insert_eq | done].
    + apply cleanup_subset in Ho'. destruct (Hwf _ _ Ho') as (m & Hm & Hmo). exists m.
      split; [|done]. rewrite lookup_insert_ne; [unfold c; by rewrite cleanup_heap | congruence].
  - by rewrite lookup_insert_eq.
  - intros l' m Hm. rewrite lookup_insert_ne by congruence. unfold c. by rewrite cleanup_heap.
  - done.
  - intros _. split; [done|]. by rewrite lookup_insert_eq, Hstart.
  - intros o' l' Ho'. assert (Hne : o <> o') by congruence.
    rewrite lookup_insert_ne by done.
    destruct (registry_origins (registry (cleanup w)) !! o') as [l1|] eqn:Hc.
    + left. apply cleanup_subset in Hc as Hc'. fold c in Hc. rewrite Hc. congruence.
    + right. by destruct (cleanup_pruned _ _ _ Ho' Hc) as (? & _ & ?).
Qed.

(** ** Witness *)

Definition empty_world : world := World (registry_default 0) ∅.

Lemma metrics_for_correct_witness :
  registry_wf empty_world /\
  exists l w', run_action (metrics_for "https://a" 5) empty_world = (l, w') /\
    registry_origins (registry w') !! "https://a"%string = Some l.
Proof.
  assert (Hwf : registry_wf empty_world) by (intros o l; cbn; by rewrite lookup_empty).
  split; [exact Hwf|].
  destruct (run_action (metrics_for "https://a" 5) empty_world) as [l w'] eqn:Hr.
  exists l, w'. split; [done|].
  exact (proj1 (proj2 (metrics_for_correct empty_world w' "https://a" 5 l Hwf Hr))).
Defined.
