(* ===== verification/TransportState.v ===== *)
(** * Transport state snapshots

    [src/src/core/metrics/snapshots.rs]: a snapshot of the client and of its origins,
    taken again until the two agree, at most eight times. *)

From S2P Require Import Prelude Atomics OriginMetrics Registry.
From S2P Require Metrics.
Import Metrics (MetricsSnapshot(..), TelemetrySnapshotMetadata(..)).

Local Open Scope Z_scope.

Definition TRANSPORT_STATE_SNAPSHOT_ATTEMPTS : nat := 8.

Record TransportStateSnapshot := {
  state_metadata : TelemetrySnapshotMetadata;
  state_metrics : MetricsSnapshot;
  state_origins : list OriginMetricsSnapshot;
  origins_include_all_historical_pressure : bool;
}.

Record OriginPressureTotals := {
  total_active_requests : Z;
  total_pending_requests : Z;
  total_active_connections : Z;
  total_idle_connections : Z;
  total_pool_acquire_attempts : Z;
  total_pool_acquire_immediate : Z;
  total_pool_acquire_waited : Z;
  total_pool_acquire_timeouts : Z;
  total_pool_acquire_wait_time_total_ns : Z;
  total_pool_acquire_wait_time_max_ns : Z;
  total_connection_acquire_attempts : Z;
  total_connection_acquire_immediate : Z;
  total_connection_acquire_waited : Z;
  total_connection_acquire_timeouts : Z;
  total_connection_acquire_wait_time_total_ns : Z;
  total_connection_acquire_wait_time_max_ns : Z;
  total_response_body_reuse_eligible : Z;
  total_response_body_closed : Z;
  total_response_body_aborted : Z;
  total_connections_opened : Z;
  total_connections_open_failed : Z;
  total_connections_closed : Z;
  total_connections_reused : Z;
  total_connections_aborted : Z;
  total_idle_timeout_evictions : Z;
}.

#[export] Instance eta_OriginPressureTotals : Eta OriginPressureTotals := fun r =>
  Build_OriginPressureTotals
    (total_active_requests r) (total_pending_requests r) (total_active_connections r)
    (total_idle_connections r) (total_pool_acquire_attempts r) (total_pool_acquire_immediate r)
    (total_pool_acquire_waited r) (total_pool_acquire_timeouts r)
    (total_pool_acquire_wait_time_total_ns r) (total_pool_acquire_wait_time_max_ns r)
    (total_connection_acquire_attempts r) (total_connection_acquire_immediate r)
    (total_connection_acquire_waited r) (total_connection_acquire_timeouts r)
    (total_connection_acquire_wait_time_total_ns r)
    (total_connection_acquire_wait_time_max_ns r) (total_response_body_reuse_eligible r)
    (total_response_body_closed r) (total_response_body_aborted r) (total_connections_opened r)
    (total_connections_open_failed r) (total_connections_closed r) (total_connections_reused r)
    (total_connections_aborted r) (total_idle_timeout_evictions r).

Definition totals_default : OriginPressureTotals :=
  Build_OriginPressureTotals 0 0 0 0 0 0 0 0 0 0 0 0 0 0 0 0 0 0 0 0 0 0 0 0 0.

Definition add_origin (totals : OriginPressureTotals) (origin : OriginMetricsSnapshot) :
    OriginPressureTotals :=
  totals
  <| total_active_requests ::= fun n => saturating_add n (OriginMetrics.snap_active_requests origin) |>
  <| total_pending_requests ::= fun n => saturating_add n (OriginMetrics.snap_pending_requests origin) |>
  <| total_active_connections ::= fun n => saturating_add n (OriginMetrics.snap_active_connections origin) |>
  <| total_idle_connections ::= fun n => saturating_add n (OriginMetrics.snap_idle_connections origin) |>
  <| total_pool_acquire_attempts ::= fun n => saturating_add n (OriginMetrics.snap_pool_acquire_attempts origin) |>
  <| total_pool_acquire_immediate ::= fun n => saturating_add n (OriginMetrics.snap_pool_acquire_immediate origin) |>
  <| total_pool_acquire_waited ::= fun n => saturating_add n (OriginMetrics.snap_pool_acquire_waited origin) |>
  <| total_pool_acquire_timeouts ::= fun n => saturating_add n (OriginMetrics.snap_pool_acquire_timeouts origin) |>
  <| total_pool_acquire_wait_time_total_ns ::= fun n => saturating_add n (OriginMetrics.snap_pool_acquire_wait_time_total_ns origin) |>
  <| total_pool_acquire_wait_time_max_ns ::= fun n => Z.max n (OriginMetrics.snap_pool_acquire_wait_time_max_ns origin) |>
  <| total_connection_acquire_attempts ::= fun n => saturating_add n (OriginMetrics.snap_connection_acquire_attempts origin) |>
  <| total_connection_acquire_immediate ::= fun n => saturating_add n (OriginMetrics.snap_connection_acquire_immediate origin) |>
  <| total_connection_acquire_waited ::= fun n => saturating_add n (OriginMetrics.snap_connection_acquire_waited origin) |>
  <| total_connection_acquire_timeouts ::= fun n => saturating_add n (OriginMetrics.snap_connection_acquire_timeouts origin) |>
  <| total_connection_acquire_wait_time_total_ns ::= fun n => saturating_add n (OriginMetrics.snap_connection_acquire_wait_time_total_ns origin) |>
  <| total_connection_acquire_wait_time_max_ns ::= fun n => Z.max n (OriginMetrics.snap_connection_acquire_wait_time_max_ns origin) |>
  <| total_response_body_reuse_eligible ::= fun n => saturating_add n (OriginMetrics.snap_response_body_reuse_eligible origin) |>
  <| total_response_body_closed ::= fun n => saturating_add n (OriginMetrics.snap_response_body_closed origin) |>
  <| total_response_body_aborted ::= fun n => saturating_add n (OriginMetrics.snap_response_body_aborted origin) |>
  <| total_connections_opened ::= fun n => saturating_add n (OriginMetrics.snap_connections_opened origin) |>
  <| total_connections_open_failed ::= fun n => saturating_add n (OriginMetrics.snap_connections_open_failed origin) |>
  <| total_connections_closed ::= fun n => saturating_add n (OriginMetrics.snap_connections_closed origin) |>
  <| total_connections_reused ::= fun n => saturating_add n (OriginMetrics.snap_connections_reused origin) |>
  <| total_connections_aborted ::= fun n => saturating_add n (OriginMetrics.snap_connections_aborted origin) |>
  <| total_idle_timeout_evictions ::= fun n => saturating_add n (OriginMetrics.snap_idle_timeout_evictions origin) |>.

Definition from_origins (origins : list OriginMetricsSnapshot) : OriginPressureTotals :=
  fold_left add_origin origins totals_default.

Definition has_coherent_current_pressure (s : TransportStateSnapshot)
    (totals : OriginPressureTotals) : bool :=
  let m := state_metrics s in
  (Metrics.snap_active_requests m =? total_active_requests totals)
  && (Metrics.snap_pending_requests m =? total_pending_requests totals)
  && (Metrics.snap_active_connections m =? total_active_connections totals)
  && (Metrics.snap_idle_connections m =? total_idle_connections totals).

Definition has_coherent_historical_transport_counters (s : TransportStateSnapshot)
    (totals : OriginPressureTotals) : bool :=
  let m := state_metrics s in
  (Metrics.snap_pool_acquire_attempts m =? total_pool_acquire_attempts totals)
  && (Metrics.snap_pool_acquire_immediate m =? total_pool_acquire_immediate totals)
  && (Metrics.snap_pool_acquire_waited m =? total_pool_acquire_waited totals)
  && (Metrics.snap_pool_acquire_timeouts m =? total_pool_acquire_timeouts totals)
  && (Metrics.snap_pool_acquire_wait_time_total_ns m =? total_pool_acquire_wait_time_total_ns totals)
  && (Metrics.snap_pool_acquire_wait_time_max_ns m =? total_pool_acquire_wait_time_max_ns totals)
  && (Metrics.snap_connection_acquire_attempts m =? total_connection_acquire_attempts totals)
  && (Metrics.snap_connection_acquire_immediate m =? total_connection_acquire_immediate totals)
  && (Metrics.snap_connection_acquire_waited m =? total_connection_acquire_waited totals)
  && (Metrics.snap_connection_acquire_timeouts m =? total_connection_acquire_timeouts totals)
  && (Metrics.snap_connection_acquire_wait_time_total_ns m =? total_connection_acquire_wait_time_total_ns totals)
  && (Metrics.snap_connection_acquire_wait_time_max_ns m =? total_connection_acquire_wait_time_max_ns totals)
  && (Metrics.snap_response_body_reuse_eligible m =? total_response_body_reuse_eligible totals)
  && (Metrics.snap_response_body_closed m =? total_response_body_closed totals)
  && (Metrics.snap_response_body_aborted m =? total_response_body_aborted totals)
  && (Metrics.snap_connections_opened m =? total_connections_opened totals)
  && (Metrics.snap_connections_open_failed m =? total_connections_open_failed totals)
  && (Metrics.snap_connections_closed m =? total_connections_closed totals)
  && (Metrics.snap_connections_reused m =? total_connections_reused totals)
  && (Metrics.snap_connections_aborted m =? total_connections_aborted totals)
  && (Metrics.snap_idle_timeout_evictions m =? total_idle_timeout_evictions totals).

Definition has_coherent_pressure (s : TransportStateSnapshot) : bool :=
  let totals := from_origins (state_origins s) in
  has_coherent_current_pressure s totals
  && (negb (origins_include_all_historical_pressure s)
      || has_coherent_historical_transport_counters s totals).

(** One reading of the client's metrics and of the registry. *)
Definition transport_state_snapshot_once (metadata : TelemetrySnapshotMetadata)
    (m : Metrics.Metrics) (w : world) (now : Z) : TransportStateSnapshot :=
  {| state_metadata := metadata;
     state_metrics := fst (run_action Metrics.snapshot m);
     state_origins := snapshots now w;
     origins_include_all_historical_pressure := snapshots_include_all_historical_origins w |}.

(** [once i] is the reading of attempt [i]. *)
Fixpoint retry_snapshot (attempts attempt : nat) (once : nat -> TransportStateSnapshot)
    (snapshot : TransportStateSnapshot) : TransportStateSnapshot :=
  match attempts with
  | O => snapshot
  | S attempts' =>
      if has_coherent_pressure snapshot then snapshot
      else retry_snapshot attempts' (S attempt) once (once attempt)
  end.

Definition transport_state_snapshot (once : nat -> TransportStateSnapshot) :
    TransportStateSnapshot :=
  retry_snapshot (TRANSPORT_STATE_SNAPSHOT_ATTEMPTS - 1) 1 once (once 0%nat).

(** ** Totals *)

Definition sum_of (f : OriginMetricsSnapshot -> Z) (origins : list OriginMetricsSnapshot) : Z :=
  fold_right (fun o acc => f o + acc) 0 origins.
Definition max_of (f : OriginMetricsSnapshot -> Z) (origins : list OriginMetricsSnapshot) : Z :=
  fold_right (fun o acc => Z.max (f o) acc) 0 origins.

(** A total is the saturated sum, or the maximum, over the origins. *)
Lemma fold_totals (proj : OriginPressureTotals -> Z) (f : OriginMetricsSnapshot -> Z) origins t :
  (forall t o, proj (add_origin t o) = saturating_add (proj t) (f o)) ->
  (forall o, o ∈ origins -> 0 <= f o) -> 0 <= proj t <= USIZE_MAX ->
  proj (fold_left add_origin origins t) = Z.min USIZE_MAX (proj t + sum_of f origins).
Proof.
  intros Hadd Hf. revert t; induction origins as [|o origins IH]; intros t Ht;
    cbn [fold_left sum_of fold_right].
  - lia.
  - assert (0 <= f o) by (apply Hf, list_elem_of_here).
    fold (sum_of f origins).
    assert (0 <= sum_of f origins).
    { clear -Hf. induction origins as [|x l IH]; cbn; [lia|]. fold (sum_of f l).
      assert (0 <= f x) by (apply Hf; set_solver). assert (0 <= sum_of f l) by (apply IH; set_solver).
      lia. }
    rewrite IH; [|by intros; apply Hf, list_elem_of_further|];
      rewrite Hadd; unfold saturating_add, USIZE_MAX in *; lia.
Qed.

Lemma fold_totals_max (proj : OriginPressureTotals -> Z) (f : OriginMetricsSnapshot -> Z) origins t :
  (forall t o, proj (add_origin t o) = Z.max (proj t) (f o)) -> 0 <= proj t ->
  proj (fold_left add_origin origins t) = Z.max (proj t) (max_of f origins).
Proof.
  intros Hadd. revert t; induction origins as [|o origins IH]; intros t Ht;
    cbn [fold_left max_of fold_right]; [lia|].
  fold (max_of f origins). rewrite IH by (rewrite Hadd; lia). rewrite Hadd. lia.
Qed.

Lemma max_of_nonneg f l : 0 <= max_of f l.
Proof. unfold max_of. induction l; cbn; lia. Qed.

Lemma sum_of_permutation f l l' : l ≡ₚ l' -> sum_of f l = sum_of f l'.
Proof. unfold sum_of. induction 1; cbn; lia. Qed.

Definition origin_snapshot_nonneg (o : OriginMetricsSnapshot) : Prop :=
  0 <= OriginMetrics.snap_active_requests o /\
  0 <= OriginMetrics.snap_pending_requests o /\
  0 <= OriginMetrics.snap_active_connections o /\
  0 <= OriginMetrics.snap_idle_connections o /\
  0 <= OriginMetrics.snap_pool_acquire_attempts o /\
  0 <= OriginMetrics.snap_pool_acquire_immediate o /\
  0 <= OriginMetrics.snap_pool_acquire_waited o /\
  0 <= OriginMetrics.snap_pool_acquire_timeouts o /\
  0 <= OriginMetrics.snap_pool_acquire_wait_time_total_ns o /\
  0 <= OriginMetrics.snap_pool_acquire_wait_time_max_ns o /\
  0 <= OriginMetrics.snap_connection_acquire_attempts o /\
  0 <= OriginMetrics.snap_connection_acquire_immediate o /\
  0 <= OriginMetrics.snap_connection_acquire_waited o /\
  0 <= OriginMetrics.snap_connection_acquire_timeouts o /\
  0 <= OriginMetrics.snap_connection_acquire_wait_time_total_ns o /\
  0 <= OriginMetrics.snap_connection_acquire_wait_time_max_ns o /\
  0 <= OriginMetrics.snap_response_body_reuse_eligible o /\
  0 <= OriginMetrics.snap_response_body_closed o /\
  0 <= OriginMetrics.snap_response_body_aborted o /\
  0 <= OriginMetrics.snap_connections_opened o /\
  0 <= OriginMetrics.snap_connections_open_failed o /\
  0 <= OriginMetrics.snap_connections_closed o /\
  0 <= OriginMetrics.snap_connections_reused o /\
  0 <= OriginMetrics.snap_connections_aborted o /\
  0 <= OriginMetrics.snap_idle_timeout_evictions o.

(** The agreement the check means: each client-wide gauge is the sum of the
    origins' gauges (saturated at the width of the counter). *)
Definition agrees (f : MetricsSnapshot -> Z) (g : OriginMetricsSnapshot -> Z)
    (s : TransportStateSnapshot) : Prop :=
  f (state_metrics s) = Z.min USIZE_MAX (sum_of g (state_origins s)).

Lemma total_agrees (proj : OriginPressureTotals -> Z) (f : MetricsSnapshot -> Z)
    (g : OriginMetricsSnapshot -> Z) s :
  (forall t o, proj (add_origin t o) = saturating_add (proj t) (g o)) ->
  (forall o, o ∈ state_origins s -> 0 <= g o) -> proj totals_default = 0 ->
  (f (state_metrics s) =? proj (from_origins (state_origins s))) = true <-> agrees f g s.
Proof.
  intros Hadd Hf Hd. unfold agrees, from_origins.
  rewrite Z.eqb_eq, (fold_totals proj g) by (done || rewrite Hd; unfold USIZE_MAX; lia).
  by rewrite Hd.
Qed.

(** A snapshot counts as coherent only if its current gauges are the sums over
    the origins, whatever the order of the origins; while no origin has been pruned
    the connection totals must agree as well. *)
Theorem has_coherent_pressure_correct (s : TransportStateSnapshot) :
  (forall o, o ∈ state_origins s -> origin_snapshot_nonneg o) ->
  has_coherent_pressure s = true ->
  agrees Metrics.snap_active_requests OriginMetrics.snap_active_requests s /\
  agrees Metrics.snap_pending_requests OriginMetrics.snap_pending_requests s /\
  agrees Metrics.snap_active_connections OriginMetrics.snap_active_connections s /\
  agrees Metrics.snap_idle_connections OriginMetrics.snap_idle_connections s /\
  (origins_include_all_historical_pressure s = true ->
    agrees Metrics.snap_connections_opened OriginMetrics.snap_connections_opened s /\
    agrees Metrics.snap_connections_closed OriginMetrics.snap_connections_closed s /\
    agrees Metrics.snap_pool_acquire_attempts OriginMetrics.snap_pool_acquire_attempts s /\
    Metrics.snap_pool_acquire_wait_time_max_ns (state_metrics s) =
      max_of OriginMetrics.snap_pool_acquire_wait_time_max_ns (state_origins s)).
Proof.
  intros Hnn. unfold has_coherent_pressure, has_coherent_current_pressure.
  rewrite !andb_true_iff, orb_true_iff. intros [[[[Ha Hp] Hc] Hi] Hh].
  split_and!;
    [eapply total_agrees, Ha | eapply total_agrees, Hp | eapply total_agrees, Hc
    |eapply total_agrees, Hi | ]; try done; try (by intros o Ho; apply (Hnn o Ho)).
  intros Hall. rewrite Hall in Hh. destruct Hh as [|Hh]; [done|].
  unfold has_coherent_historical_transport_counters in Hh. rewrite !andb_true_iff in Hh.
  split_and!.
  - eapply (total_agrees total_connections_opened); [done | | done | apply Hh].
    intros o Ho. by apply (Hnn o Ho).
  - eapply (total_agrees total_connections_closed); [done | | done | apply Hh].
    intros o Ho. by apply (Hnn o Ho).
  - eapply (total_agrees total_pool_acquire_attempts); [done | | done | apply Hh].
    intros o Ho. by apply (Hnn o Ho).
  - assert (Hm : (Metrics.snap_pool_acquire_wait_time_max_ns (state_metrics s) =?
      total_pool_acquire_wait_time_max_ns (from_origins (state_origins s))) = true) by apply Hh.
    apply Z.eqb_eq in Hm. rewrite Hm. unfold from_origins.
    rewrite (fold_totals_max _ OriginMetrics.snap_pool_acquire_wait_time_max_ns);
      [|done|done].
    pose proof (max_of_nonneg OriginMetrics.snap_pool_acquire_wait_time_max_ns (state_origins s)).
    change (total_pool_acquire_wait_time_max_ns totals_default) with 0. lia.
Qed.

(** [transport_state_snapshot] returns the first of its readings that is
    coherent, and the eighth reading when none of the first seven is; it always
    returns a reading. *)
Theorem transport_state_snapshot_correct (once : nat -> TransportStateSnapshot) :
  exists k, (k < TRANSPORT_STATE_SNAPSHOT_ATTEMPTS)%nat /\
    transport_state_snapshot once = once k /\
    (forall j, (j < k)%nat -> has_coherent_pressure (once j) = false) /\
    ((k < TRANSPORT_STATE_SNAPSHOT_ATTEMPTS - 1)%nat -> has_coherent_pressure (once k) = true).
Proof.
  unfold transport_state_snapshot, TRANSPORT_STATE_SNAPSHOT_ATTEMPTS. cbn [Nat.sub].
  assert (Hg : forall n i, exists k, (i <= k <= i + n)%nat /\
    retry_snapshot n (S i) once (once i) = once k /\
    (forall j, (i <= j < k)%nat -> has_coherent_pressure (once j) = false) /\
    ((k < i + n)%nat -> has_coherent_pressure (once k) = true)).
  { induction n as [|n IH]; intros i; cbn [retry_snapshot].
    - exists i. split_and!; [lia | lia | done | lia | lia].
    - destruct (has_coherent_pressure (once i)) eqn:Hi.
      + exists i. split_and!; [lia | lia | done | lia | done].
      + destruct (IH (S i)) as (k & Hk & He & Hj & Hlt). exists k.
        split_and!; [lia | lia | done | | intros; apply Hlt; lia].
        intros j Hij. destruct (decide (j = i)) as [->|]; [done|]. apply Hj. lia. }
  destruct (Hg 7%nat 0%nat) as (k & Hk & He & Hj & Hlt). exists k.
  split_and!; [lia | done | intros; apply Hj; lia | intros; apply Hlt; lia].
Qed.

(** ** Witness *)

Lemma has_coherent_pressure_correct_witness :
  let s := transport_state_snapshot_once {| Metrics.schema_version := 4; Metrics.snapshot_sequence := 1 |}
             Metrics.metrics_default empty_world 3 in
  has_coherent_pressure s = true /\
  agrees Metrics.snap_active_requests OriginMetrics.snap_active_requests s.
Proof.
  intros s. assert (Hc : has_coherent_pressure s = true) by reflexivity.
  split; [exact Hc|].
  refine (proj1 (has_coherent_pressure_correct s _ Hc)).
  intros o Ho. cbn in Ho. by apply elem_of_nil in Ho.
Defined.
