(* ===== verification/ProxyMetrics.v ===== *)
(** * Metrics of a proxy endpoint

    [src/src/core/metrics/proxy.rs]: the counters of a proxy endpoint and the
    ownership tokens that drive them: a connection attempt ends as a lease or a
    failure, a tunnel attempt as an established tunnel or a failure, and dropping a
    token accounts for what was not finished.  The registry of endpoints is a map
    to shared objects, like the one of origins but never pruned. *)

From stdpp Require Import sorting.
From S2P Require Import Prelude Atomics RustStr Ssrf.
From S2P Require Metrics.
Import Metrics (duration_as_nanos, saturating_atomic_usize_sub, update_atomic_u64_max,
  TelemetrySnapshotMetadata(..)).

Local Open Scope Z_scope.

Record ProxyEndpointMetrics := {
  endpoint : string;
  started_at : Z;
  connection_attempts : Z;
  connections_opened : Z;
  connections_open_failed : Z;
  connections_closed : Z;
  active_connections : Z;
  tunnel_attempts : Z;
  tunnels_established : Z;
  tunnel_failures : Z;
  tunnel_auth_failures : Z;
  tunnel_timeouts : Z;
  tunnel_early_closes : Z;
  active_tunnels : Z;
  last_activity_at_ns : Z;
}.

#[export] Instance eta_ProxyEndpointMetrics : Eta ProxyEndpointMetrics := fun r =>
  Build_ProxyEndpointMetrics
    (endpoint r) (started_at r) (connection_attempts r) (connections_opened r)
    (connections_open_failed r) (connections_closed r) (active_connections r)
    (tunnel_attempts r) (tunnels_established r) (tunnel_failures r) (tunnel_auth_failures r)
    (tunnel_timeouts r) (tunnel_early_closes r) (active_tunnels r) (last_activity_at_ns r).

Record ProxyEndpointMetricsSnapshot := {
  snap_endpoint : string;
  snap_connection_attempts : Z;
  snap_connections_opened : Z;
  snap_connections_open_failed : Z;
  snap_connections_closed : Z;
  snap_active_connections : Z;
  snap_tunnel_attempts : Z;
  snap_tunnels_established : Z;
  snap_tunnel_failures : Z;
  snap_tunnel_auth_failures : Z;
  snap_tunnel_timeouts : Z;
  snap_tunnel_early_closes : Z;
  snap_active_tunnels : Z;
  snap_last_activity_at_ns : Z;
}.

Definition proxy_endpoint_metrics_new (endpoint : string) (started_at : Z) : ProxyEndpointMetrics :=
  Build_ProxyEndpointMetrics endpoint started_at 0 0 0 0 0 0 0 0 0 0 0 0 0.

Inductive ProxyTunnelFailureKind := Authentication | Timeout | EarlyClose | Other.

Record ProxyConnectionAttempt := { attempt_finished : bool }.
Record ProxyConnectionLease := { tunnel_active : bool }.
Record ProxyTunnelAttempt := { tunnel_finished : bool }.

Section methods.
Context (now : Z).

Definition touch : action ProxyEndpointMetrics unit :=
  started ← load started_at;
  update_atomic_u64_max last_activity_at_ns (duration_as_nanos (elapsed started now)).

Definition connection_attempt : action ProxyEndpointMetrics ProxyConnectionAttempt :=
  fetch_add connection_attempts 1 ;; touch ;; mret {| attempt_finished := false |}.

Definition tunnel_attempt : action ProxyEndpointMetrics ProxyTunnelAttempt :=
  fetch_add tunnel_attempts 1 ;; touch ;; mret {| tunnel_finished := false |}.

Definition connection_opened : action ProxyEndpointMetrics unit :=
  fetch_add connections_opened 1 ;; fetch_add active_connections 1 ;; touch.

Definition connection_open_failed : action ProxyEndpointMetrics unit :=
  fetch_add connections_open_failed 1 ;; touch.

Definition connection_closed (tunnel_active : bool) : action ProxyEndpointMetrics unit :=
  (if tunnel_active then saturating_atomic_usize_sub active_tunnels 1 else mret tt) ;;
  saturating_atomic_usize_sub active_connections 1 ;;
  fetch_add connections_closed 1 ;;
  touch.

Definition tunnel_established : action ProxyEndpointMetrics unit :=
  fetch_add tunnels_established 1 ;; fetch_add active_tunnels 1 ;; touch.

Definition tunnel_failed (kind : ProxyTunnelFailureKind) : action ProxyEndpointMetrics unit :=
  fetch_add tunnel_failures 1 ;;
  (match kind with
   | Authentication => fetch_add tunnel_auth_failures 1 ;; mret tt
   | Timeout => fetch_add tunnel_timeouts 1 ;; mret tt
   | EarlyClose => fetch_add tunnel_early_closes 1 ;; mret tt
   | Other => mret tt
   end) ;;
  touch.

(** ** Tokens *)

Definition drop_connection_attempt (a : ProxyConnectionAttempt) : action ProxyEndpointMetrics unit :=
  if negb (attempt_finished a) then connection_open_failed else mret tt.

(** [self] is dropped, finished, when the method returns. *)
Definition opened (a : ProxyConnectionAttempt) : action ProxyEndpointMetrics ProxyConnectionLease :=
  connection_opened ;;
  drop_connection_attempt {| attempt_finished := true |} ;;
  mret {| tunnel_active := false |}.

Definition drop_connection_lease (l : ProxyConnectionLease) : action ProxyEndpointMetrics unit :=
  connection_closed (tunnel_active l).

Definition drop_tunnel_attempt (t : ProxyTunnelAttempt) : action ProxyEndpointMetrics unit :=
  if negb (tunnel_finished t) then tunnel_failed Other else mret tt.

Definition established (t : ProxyTunnelAttempt) (connection : ProxyConnectionLease) :
    action ProxyEndpointMetrics ProxyConnectionLease :=
  tunnel_established ;;
  drop_tunnel_attempt {| tunnel_finished := true |} ;;
  mret {| tunnel_active := true |}.

Definition failed (t : ProxyTunnelAttempt) (kind : ProxyTunnelFailureKind) :
    action ProxyEndpointMetrics unit :=
  tunnel_failed kind ;; drop_tunnel_attempt {| tunnel_finished := true |}.
End methods.

Definition snapshot : action ProxyEndpointMetrics ProxyEndpointMetricsSnapshot :=
  s_endpoint ← load endpoint;
  s_connection_attempts ← load connection_attempts;
  s_connections_opened ← load connections_opened;
  s_connections_open_failed ← load connections_open_failed;
  s_connections_closed ← load connections_closed;
  s_active_connections ← load active_connections;
  s_tunnel_attempts ← load tunnel_attempts;
  s_tunnels_established ← load tunnels_established;
  s_tunnel_failures ← load tunnel_failures;
  s_tunnel_auth_failures ← load tunnel_auth_failures;
  s_tunnel_timeouts ← load tunnel_timeouts;
  s_tunnel_early_closes ← load tunnel_early_closes;
  s_active_tunnels ← load active_tunnels;
  s_last_activity_at_ns ← load last_activity_at_ns;
  mret (Build_ProxyEndpointMetricsSnapshot
    s_endpoint s_connection_attempts s_connections_opened s_connections_open_failed
    s_connections_closed s_active_connections s_tunnel_attempts s_tunnels_established
    s_tunnel_failures s_tunnel_auth_failures s_tunnel_timeouts s_tunnel_early_closes
    s_active_tunnels s_last_activity_at_ns).

(** ** The registry *)

Abbreviation loc := positive.

Record ProxyEndpointMetricsRegistry := {
  registry_started_at : Z;
  endpoints : gmap string loc;
}.

Record world := World { registry : ProxyEndpointMetricsRegistry; heap : gmap loc ProxyEndpointMetrics }.

Definition insert_endpoint (name : string) (w : world) : loc * world :=
  match endpoints (registry w) !! name with
  | Some l => (l, w)
  | None =>
      let l := fresh (dom (heap w)) in
      let started := registry_started_at (registry w) in
      (l, World {| registry_started_at := started; endpoints := <[name := l]> (endpoints (registry w)) |}
                (<[l := proxy_endpoint_metrics_new name started]> (heap w)))
  end.

Definition metrics_for (name : string) : action world loc :=
  found ← Atomically (fun w => (endpoints (registry w) !! name, w)) Return;
  match found with
  | Some l => mret l
  | None => Atomically (insert_endpoint name) Return
  end.

Definition snapshot_le (a b : ProxyEndpointMetricsSnapshot) : Prop :=
  string_le (snap_endpoint a) (snap_endpoint b).
#[export] Instance snapshot_le_dec : RelDecision snapshot_le.
Proof. intros a b. unfold snapshot_le. apply _. Defined.

Definition snapshots (w : world) : list ProxyEndpointMetricsSnapshot :=
  merge_sort snapshot_le
    ((fun m => fst (run_action snapshot m)) <$>
       omap (fun '(_, l) => heap w !! l) (map_to_list (endpoints (registry w)))).

Record ProxyDiagnosticsSnapshot := {
  diagnostics_metadata : TelemetrySnapshotMetadata;
  diagnostics_endpoints : list ProxyEndpointMetricsSnapshot;
}.

Definition proxy_diagnostics_snapshot (m : Metrics.Metrics) (w : world) :
    ProxyDiagnosticsSnapshot * Metrics.Metrics :=
  let (metadata, m) := run_action Metrics.next_telemetry_snapshot_metadata m in
  ({| diagnostics_metadata := metadata; diagnostics_endpoints := snapshots w |}, m).

(** ** Ownership of the tokens *)

(** The endpoint and the tokens alive: unfinished connection attempts, leases,
    unfinished tunnel attempts. *)
Record ownership := Ownership {
  owned_metrics : ProxyEndpointMetrics;
  live_attempts : nat;
  live_leases : list ProxyConnectionLease;
  live_tunnel_attempts : nat;
}.

(** A lease carries at most one tunnel: a tunnel attempt is only established on a
    lease without one. *)
Inductive ownership_step : ownership -> ownership -> Prop :=
| own_attempt now m a ls t :
    ownership_step (Ownership m a ls t) (Ownership (exec (connection_attempt now) m) (S a) ls t)
| own_opened now m a ls t l m' :
    run_action (opened now {| attempt_finished := false |}) m = (l, m') ->
    ownership_step (Ownership m (S a) ls t) (Ownership m' a (ls ++ [l]) t)
| own_attempt_dropped now m a ls t :
    ownership_step (Ownership m (S a) ls t)
      (Ownership (exec (drop_connection_attempt now {| attempt_finished := false |}) m) a ls t)
| own_tunnel_attempt now m a ls t :
    ownership_step (Ownership m a ls t) (Ownership (exec (tunnel_attempt now) m) a ls (S t))
| own_established now m a ls t i l l' m' :
    ls !! i = Some l -> tunnel_active l = false ->
    run_action (established now {| tunnel_finished := false |} l) m = (l', m') ->
    ownership_step (Ownership m a ls (S t)) (Ownership m' a (<[i := l']> ls) t)
| own_failed now kind m a ls t :
    ownership_step (Ownership m a ls (S t))
      (Ownership (exec (failed now {| tunnel_finished := false |} kind) m) a ls t)
| own_tunnel_dropped now m a ls t :
    ownership_step (Ownership m a ls (S t))
      (Ownership (exec (drop_tunnel_attempt now {| tunnel_finished := false |}) m) a ls t)
| own_closed now m a ls t i l :
    ls !! i = Some l ->
    ownership_step (Ownership m a ls t)
      (Ownership (exec (drop_connection_lease now l) m) a (delete i ls) t).

Definition active_tunnel_count (ls : list ProxyConnectionLease) : Z :=
  Z.of_nat (length (filter (fun l => tunnel_active l = true) ls)).

(** The accounts after [n] steps. *)
Record accounts (n : Z) (o : ownership) : Prop := {
  account_attempts : connection_attempts (owned_metrics o) =
    connections_opened (owned_metrics o) + connections_open_failed (owned_metrics o)
    + Z.of_nat (live_attempts o);
  account_leases : connections_opened (owned_metrics o) =
    connections_closed (owned_metrics o) + Z.of_nat (length (live_leases o));
  account_active : active_connections (owned_metrics o) = Z.of_nat (length (live_leases o));
  account_tunnels : tunnel_attempts (owned_metrics o) =
    tunnels_established (owned_metrics o) + tunnel_failures (owned_metrics o)
    + Z.of_nat (live_tunnel_attempts o);
  account_active_tunnels : active_tunnels (owned_metrics o) = active_tunnel_count (live_leases o);
  account_failures : tunnel_auth_failures (owned_metrics o) + tunnel_timeouts (owned_metrics o)
    + tunnel_early_closes (owned_metrics o) <= tunnel_failures (owned_metrics o);
  account_bounds : 0 <= connections_open_failed (owned_metrics o) /\
    0 <= connections_closed (owned_metrics o) /\ 0 <= tunnels_established (owned_metrics o) /\
    0 <= tunnel_auth_failures (owned_metrics o) /\ 0 <= tunnel_timeouts (owned_metrics o) /\
    0 <= tunnel_early_closes (owned_metrics o) /\
    connection_attempts (owned_metrics o) + tunnel_attempts (owned_metrics o) <= n;
}.

Lemma active_tunnel_count_bounds ls :
  0 <= active_tunnel_count ls <= Z.of_nat (length ls).
Proof.
  unfold active_tunnel_count.
  pose proof (sublist_length _ _ (sublist_filter (fun l => tunnel_active l = true) ls)). lia.
Qed.

Lemma active_tunnel_count_app ls l :
  active_tunnel_count (ls ++ [l]) = active_tunnel_count ls + (if tunnel_active l then 1 else 0).
Proof.
  unfold active_tunnel_count. rewrite filter_app, length_app.
  destruct l as [[|]]; [rewrite filter_cons_True by done | rewrite filter_cons_False by done];
    cbn [length tunnel_active filter list_filter]; lia.
Qed.

Lemma active_tunnel_count_delete ls i l :
  ls !! i = Some l ->
  active_tunnel_count ls = active_tunnel_count (delete i ls) + (if tunnel_active l then 1 else 0)
  /\ Z.of_nat (length ls) = Z.of_nat (length (delete i ls)) + 1.
Proof.
  unfold active_tunnel_count. revert i; induction ls as [|x ls IH]; intros i Hi; [done|].
  destruct i as [|i]; cbn in Hi.
  - injection Hi as ->. cbn [delete list_delete]. rewrite filter_cons.
    destruct l as [[|]]; case_decide; try done; cbn [length tunnel_active]; lia.
  - destruct (IH _ Hi) as [H1 H2]. change (delete (S i) (x :: ls)) with (x :: delete i ls).
    rewrite !filter_cons. case_decide; cbn [length]; lia.
Qed.

Lemma active_tunnel_count_insert ls i l :
  ls !! i = Some l -> tunnel_active l = false ->
  active_tunnel_count (<[i := {| tunnel_active := true |}]> ls) = active_tunnel_count ls + 1.
Proof.
  unfold active_tunnel_count. revert i; induction ls as [|x ls IH]; intros i Hi Hl; [done|].
  destruct i as [|i]; cbn in Hi.
  - injection Hi as ->. cbn [insert list_insert]. rewrite !filter_cons.
    rewrite decide_True, decide_False by (cbn; congruence). cbn [length]. lia.
  - specialize (IH _ Hi Hl).
    change (<[S i:={| tunnel_active := true |}]> (x :: ls))
      with (x :: <[i:={| tunnel_active := true |}]> ls).
    rewrite !filter_cons. case_decide; cbn [length]; lia.
Qed.

Lemma saturating_sub_1 a : 0 <= a -> saturating_sub (a + 1) 1 = a.
Proof. unfold saturating_sub. lia. Qed.

(** Compute the method on the record, up to the value stored by [touch]. *)
Ltac run_method :=
  unfold exec; cbn;
  repeat match goal with
  | |- context [run_attempt (Metrics.update_max_attempt ?t) ?v] =>
      destruct (run_attempt (Metrics.update_max_attempt t) v) as [[] ?]; cbn
  end.

(** Solve the accounts of the new state from those of the old one. *)
Ltac solve_accounts :=
  cbn [owned_metrics live_attempts live_leases live_tunnel_attempts] in *;
  rewrite ?wrapping_add_small by (unfold USIZE_MAX in *; lia);
  rewrite ?length_app; cbn [length]; unfold saturating_sub; split_and?; lia.

Lemma ownership_step_accounts n o o' :
  0 <= n < USIZE_MAX -> ownership_step o o' -> accounts n o -> accounts (n + 1) o'.
Proof.
  intros Hn Hs [Ha Hl Hact Ht Hat Hf (H1 & H2 & H3 & H4 & H5 & H6 & Hb)].
  destruct Hs as [now m a ls t|now m a ls t l m' Hrun|now m a ls t|now m a ls t
    |now m a ls t i l l' m' Hi Hta Hrun|now kind m a ls t|now m a ls t|now m a ls t i l Hi].
  - pose proof (active_tunnel_count_bounds ls).
    split; run_method; solve_accounts.
  - assert (m' = snd (run_action (opened now {| attempt_finished := false |}) m)) as -> by (by rewrite Hrun).
    assert (l = fst (run_action (opened now {| attempt_finished := false |}) m)) as -> by (by rewrite Hrun).
    clear Hrun. pose proof (active_tunnel_count_bounds ls).
    split; run_method; rewrite ?active_tunnel_count_app; cbn [tunnel_active]; solve_accounts.
  - pose proof (active_tunnel_count_bounds ls).
    split; run_method; solve_accounts.
  - pose proof (active_tunnel_count_bounds ls).
    split; run_method; solve_accounts.
  - assert (m' = snd (run_action (established now {| tunnel_finished := false |} l) m)) as -> by (by rewrite Hrun).
    assert (l' = fst (run_action (established now {| tunnel_finished := false |} l) m)) as -> by (by rewrite Hrun).
    clear Hrun. pose proof (active_tunnel_count_bounds ls).
    pose proof (active_tunnel_count_insert _ _ _ Hi Hta).
    split; run_method; rewrite ?length_insert; solve_accounts.
  - pose proof (active_tunnel_count_bounds ls).
    split; destruct kind; run_method; solve_accounts.
  - pose proof (active_tunnel_count_bounds ls).
    split; run_method; solve_accounts.
  - destruct (active_tunnel_count_delete _ _ _ Hi) as [Hd Hlen].
    pose proof (active_tunnel_count_bounds (delete i ls)).
    split; destruct l as [[|]]; run_method; cbn [tunnel_active] in *; solve_accounts.
Qed.

(** The proxy counters are exact whatever the order in which connections and
    tunnels are attempted, opened, established, fail, or are abandoned by dropping
    their token: every attempt is opened, failed or still running, the active
    connections and tunnels are those of the live leases, and the gauges never
    wrap. *)
Theorem proxy_accounts (endpoint : string) (started_at : Z) (n : nat) (o : ownership) :
  Z.of_nat n <= USIZE_MAX ->
  nsteps ownership_step n (Ownership (proxy_endpoint_metrics_new endpoint started_at) 0 [] 0) o ->
  accounts (Z.of_nat n) o.
Proof.
  intros Hn Hs. revert Hn Hs. set (o0 := Ownership _ _ _ _).
  assert (H0 : accounts 0 o0) by (split; try reflexivity; cbn; lia).
  assert (Hg : forall k n x y, accounts k x -> 0 <= k -> k + Z.of_nat n <= USIZE_MAX ->
    nsteps ownership_step n x y -> accounts (k + Z.of_nat n) y).
  { clear. intros k n. revert k. induction n as [|n IH]; intros k x y Hx Hk Hn Hs.
    - inversion Hs; subst. by rewrite Z.add_0_r.
    - inversion Hs as [|? ? z ? Hxz Hzy]; subst.
      replace (k + Z.of_nat (S n)) with ((k + 1) + Z.of_nat n) by lia.
      eapply IH; [eapply ownership_step_accounts; [|done|done] | | | done]; lia. }
  intros Hn Hs. apply (Hg 0 n o0 o); [done | lia | lia | done].
Qed.

(** ** Witness *)

Lemma proxy_accounts_witness :
  let o := Ownership (exec (connection_attempt 4) (proxy_endpoint_metrics_new "p" 1)) 1 [] 0 in
  nsteps ownership_step 1 (Ownership (proxy_endpoint_metrics_new "p" 1) 0 [] 0) o /\
  connection_attempts (owned_metrics o) = 1 /\ active_connections (owned_metrics o) = 0.
Proof.
  intros o.
  assert (Hs : nsteps ownership_step 1 (Ownership (proxy_endpoint_metrics_new "p" 1) 0 [] 0) o)
    by (apply nsteps_once; constructor).
  split; [exact Hs|]. split; [reflexivity|].
  exact (account_active _ _ (proxy_accounts "p" 1 1 o ltac:(unfold USIZE_MAX; lia) Hs)).
Defined.
