(* ===== verification/ProxyConnect.v ===== *)
(** * Proxy connections

    [src/src/core/client/proxy/{authorization,endpoint,http,tunnel}.rs] and
    [src/src/core/client/ssrf.rs]: how a connection is opened through a proxy, plainly
    ([HttpProxyConnector]) or by a CONNECT tunnel ([HttpsTunnelConnector]), and how
    resolved addresses are checked ([SsrfResolver]).

    The inner transport is the list of what its reads return, one element per read; a read
    that returns no bytes is the end of the stream, and after the list no read returns.
    [Uri] of the [http] crate is the class [UriCrate]. *)

From stdpp Require Import pretty.
From Stdlib Require Import Ascii.
From S2P Require Import Prelude Atomics RustStr Http Policy IpAddr Ssrf ProxyMetrics.

Local Open Scope Z_scope.

(** ** Third-party code *)

Class UriCrate := {
  Uri : Type;
  uri_from_str : string -> result Uri string;
  uri_scheme_str : Uri -> option string;
  (** [authority()]: its text, its host and its port *)
  uri_authority : Uri -> option (string * string * option Z);
  uri_path_and_query : Uri -> option string;
}.

(** The documented syntax: an authority is visible text without line breaks. *)
Definition one_line (s : string) : Prop := Forall (fun b => b <> 13) (bytes s).

Class UriLaws `{UriCrate} := {
  authority_host_line : forall u text host port, uri_authority u = Some (text, host, port) -> one_line host;
}.

Class HeaderValueLaws `{HttpCrate} := {
  header_value_line : forall s v, header_value_from_str s = Ok v -> one_line s;
}.

(** ** Texts *)

Definition PROXY_CONNECT_CLOSED : string := "proxy closed the connection before the CONNECT tunnel was established".
Definition PROXY_CONNECT_INVALID_RESPONSE : string := "proxy returned an invalid response to the CONNECT request".
Definition PROXY_CONNECT_TIMEOUT : string := "proxy CONNECT tunnel setup timed out".
Definition PROXY_ENDPOINT_MISSING_HOST : string := "proxy URL must include a host".
Definition PROXY_ENDPOINT_PATH_OR_QUERY_UNSUPPORTED : string := "proxy URL must not include path or query".
Definition PROXY_ENDPOINT_SCHEME_UNSUPPORTED : string := "proxy URL scheme must be http".
Definition PROXY_ENDPOINT_USERINFO_UNSUPPORTED : string := "proxy URL must not include userinfo".

Definition proxy_connect_rejected (status : Z) : string :=
  ("proxy rejected the CONNECT tunnel with status " ++ pretty status)%string.

(** ** Endpoints and authorization *)

Section endpoint.
Context `{UriCrate} `{HttpCrate}.

Definition HTTP_PROXY_ENDPOINT_SCHEME : string := "http".

Definition parse_proxy_endpoint (proxy_url : string) : result Uri string :=
  let? uri := uri_from_str proxy_url in
  if bool_decide (uri_scheme_str uri <> Some HTTP_PROXY_ENDPOINT_SCHEME) then Err PROXY_ENDPOINT_SCHEME_UNSUPPORTED
  else
    match uri_authority uri with
    | None => Err PROXY_ENDPOINT_MISSING_HOST
    | Some (text, _, _) =>
        if string_exists (fun c => Ascii.eqb c "@"%char) text then Err PROXY_ENDPOINT_USERINFO_UNSUPPORTED
        else match uri_path_and_query uri with
             | Some p => if String.eqb p "/" then Ok uri else Err PROXY_ENDPOINT_PATH_OR_QUERY_UNSUPPORTED
             | None => Ok uri
             end
    end.

(** [expect]ed to have an authority. *)
Definition proxy_endpoint_name (uri : Uri) : option string :=
  '(text, _, _) ← uri_authority uri; Some (HTTP_PROXY_ENDPOINT_SCHEME ++ "://" ++ text)%string.

(** [ProxyAuthorization::parse]. *)
Definition authorization_parse (value : string) : result string string :=
  match header_value_from_str value with
  | Err _ => Err "proxy authorization header is invalid"%string
  | Ok v => match header_value_to_str v with
            | None => Err "proxy authorization header is invalid"%string
            | Some _ => Ok value
            end
  end.

(** [HttpProxyConnector::call]: where it connects, and whether to the proxy. *)
Definition http_proxy_target (proxy : option Uri) (uri : Uri) : Uri * bool :=
  match proxy with
  | Some p => if bool_decide (uri_scheme_str uri = Some "http"%string) then (p, true) else (uri, false)
  | None => (uri, false)
  end.

Definition tunnel_authority (uri : Uri) : result string string :=
  match uri_authority uri with
  | None => Err "proxied request target is missing an authority"%string
  | Some (_, host, port) => Ok (host ++ ":" ++ pretty (default 443 port))%string
  end.
End endpoint.

(** ** The response to CONNECT *)

Definition MAX_CONNECT_RESPONSE_BYTES : nat := 8 * 1024.

(** [buffer.windows(pat.len()).position(|window| window == pat)]. *)
Fixpoint position (pat l : list Z) : option nat :=
  if bool_decide (take (length pat) l = pat) then Some 0%nat
  else match l with [] => None | _ :: l => S <$> position pat l end.

Definition find_headers_end (buffer : list Z) : option nat := (fun i => i + 4)%nat <$> position [13; 10; 13; 10] buffer.

(** [std::str::from_utf8]: the well-formed sequences of the Unicode standard. *)
Fixpoint valid_utf8 (l : list Z) : bool :=
  let cont b := (128 <=? b) && (b <=? 191) in
  match l with
  | [] => true
  | b :: rest =>
      if b <? 128 then valid_utf8 rest
      else if (194 <=? b) && (b <=? 223) then
        match rest with b1 :: rest => cont b1 && valid_utf8 rest | _ => false end
      else if (224 <=? b) && (b <=? 239) then
        match rest with
        | b1 :: b2 :: rest =>
            ((if b =? 224 then 160 else 128) <=? b1) && (b1 <=? (if b =? 237 then 159 else 191)) && cont b2 && valid_utf8 rest
        | _ => false
        end
      else if (240 <=? b) && (b <=? 244) then
        match rest with
        | b1 :: b2 :: b3 :: rest =>
            ((if b =? 240 then 144 else 128) <=? b1) && (b1 <=? (if b =? 244 then 143 else 191)) && cont b2 && cont b3 &&
            valid_utf8 rest
        | _ => false
        end
      else false
  end.

(** [str::split_whitespace], on characters. *)
Fixpoint split_whitespace (cs : list Z) : list (list Z) :=
  match cs with
  | [] => []
  | c :: rest =>
      if is_whitespace c then split_whitespace rest
      else match rest with
           | [] => [[c]]
           | next :: _ =>
               if is_whitespace next then [c] :: split_whitespace rest
               else match split_whitespace rest with w :: ws => (c :: w) :: ws | [] => [[c]] end
           end
  end.

Definition parse_connect_status (response : list Z) : result Z string :=
  match position [13; 10] response with
  | None => Err PROXY_CONNECT_INVALID_RESPONSE
  | Some line_end =>
      let line := take line_end response in
      if negb (valid_utf8 line) then Err PROXY_CONNECT_INVALID_RESPONSE
      else
        match split_whitespace (decode line) with
        | version :: code :: _ =>
            if negb (bool_decide (version = bytes "HTTP/1.0") || bool_decide (version = bytes "HTTP/1.1"))
            then Err PROXY_CONNECT_INVALID_RESPONSE
            else
              let code := bytes (encode code) in
              if negb (Nat.eqb (length code) 3) || negb (forallb (fun b => (48 <=? b) && (b <=? 57)) code)
              then Err PROXY_CONNECT_INVALID_RESPONSE
              else if digits_value code <=? 65535 then Ok (digits_value code) else Err PROXY_CONNECT_INVALID_RESPONSE
        | _ => Err PROXY_CONNECT_INVALID_RESPONSE
        end
  end.

Example parse_plain : parse_connect_status (bytes "HTTP/1.1 200 Connection established" ++ [13; 10; 13; 10]) = Ok 200.
Proof. vm_compute. reflexivity. Qed.
Example parse_bad_version : parse_connect_status (bytes "HTTP/2 200" ++ [13; 10; 13; 10]) = Err PROXY_CONNECT_INVALID_RESPONSE.
Proof. vm_compute. reflexivity. Qed.

(** ** Establishing a tunnel *)

(** [io::ErrorKind], as far as it is told apart. *)
Inductive ErrorKind := BrokenPipe | ConnectionAborted | ConnectionReset | NotConnected | UnexpectedEof | OtherError.

Inductive TunnelErrorSource := IoError (kind : ErrorKind) | Message (text : string).

Record TunnelEstablishError := { error : TunnelErrorSource; kind : ProxyTunnelFailureKind }.

Definition tunnel_error_other (text : string) : TunnelEstablishError := {| error := Message text; kind := Other |}.

Definition tunnel_error_io (e : ErrorKind) : TunnelEstablishError :=
  {| error := IoError e; kind := match e with OtherError => Other | _ => EarlyClose end |}.

Abbreviation Read := (result (list Z) ErrorKind).

(** [HttpsTunnelConnection]: what the inner transport still returns and what was read of it
    already. *)
Record HttpsTunnelConnection := { inner_reads : list Read; read_prefix : option (list Z) }.

Inductive TunnelOutcome := TunnelWaiting | TunnelReady (c : HttpsTunnelConnection) | TunnelFailed (e : TunnelEstablishError).

Definition connect_request (authority : string) (authorization : option string) : string :=
  let crlf := String (of_byte 13) (String (of_byte 10) EmptyString) in
  ("CONNECT " ++ authority ++ " HTTP/1.1" ++ crlf ++ "Host: " ++ authority ++ crlf ++
   match authorization with Some a => "Proxy-Authorization: " ++ a ++ crlf | None => "" end ++ crlf)%string.

(** What a complete response head decides. *)
Definition connect_verdict (response : list Z) (headers_end : nat) (reads : list Read) : TunnelOutcome :=
  match parse_connect_status (take headers_end response) with
  | Err text => TunnelFailed (tunnel_error_other text)
  | Ok status =>
      if negb ((200 <=? status) && (status <? 300)) then
        TunnelFailed {| error := Message (proxy_connect_rejected status);
                        kind := if status =? 407 then Authentication else Other |}
      else if Nat.eqb (length response) headers_end then TunnelReady {| inner_reads := reads; read_prefix := None |}
      else TunnelReady {| inner_reads := reads; read_prefix := Some (drop headers_end response) |}
  end.

Fixpoint read_connect_response (response : list Z) (reads : list Read) : TunnelOutcome :=
  match reads with
  | [] => TunnelWaiting
  | Err e :: _ => TunnelFailed (tunnel_error_io e)
  | Ok [] :: _ => TunnelFailed {| error := Message PROXY_CONNECT_CLOSED; kind := EarlyClose |}
  | Ok chunk :: reads =>
      let response := response ++ chunk in
      match find_headers_end response with
      | Some headers_end => connect_verdict response headers_end reads
      | None =>
          if (MAX_CONNECT_RESPONSE_BYTES <? length response)%nat
          then TunnelFailed {| error := Message PROXY_CONNECT_INVALID_RESPONSE; kind := Other |}
          else read_connect_response response reads
      end
  end.

(** [establish_tunnel]: the writes of the request, [None] while one waits, and the reads. *)
Definition establish_tunnel (written flushed : option (result unit ErrorKind)) (reads : list Read) : TunnelOutcome :=
  match written with
  | None => TunnelWaiting
  | Some (Err e) => TunnelFailed (tunnel_error_io e)
  | Some (Ok _) =>
      match flushed with
      | None => TunnelWaiting
      | Some (Err e) => TunnelFailed (tunnel_error_io e)
      | Some (Ok _) => read_connect_response [] reads
      end
  end.

(** [poll_read] into a buffer with room for [remaining] bytes. *)
Definition poll_read (remaining : nat) (c : HttpsTunnelConnection) : option Read * HttpsTunnelConnection :=
  match read_prefix c with
  | Some (b :: prefix) =>
      let rest := drop remaining (b :: prefix) in
      (Some (Ok (take remaining (b :: prefix))),
       {| inner_reads := inner_reads c; read_prefix := match rest with [] => None | _ => Some rest end |})
  | _ =>
      match inner_reads c with
      | [] => (None, {| inner_reads := []; read_prefix := None |})
      | r :: rs => (Some r, {| inner_reads := rs; read_prefix := None |})
      end
  end.

Fixpoint poll_reads (sizes : list nat) (c : HttpsTunnelConnection) : list Read * HttpsTunnelConnection :=
  match sizes with
  | [] => ([], c)
  | n :: sizes =>
      let (r, c) := poll_read n c in
      let (rs, c) := poll_reads sizes c in (option_list r ++ rs, c)
  end.

(** The bytes of reads. *)
Definition read_data (reads : list Read) : list Z := mjoin ((fun r : Read => match r with Ok d => d | Err _ => [] end) <$> reads).

Definition unread (c : HttpsTunnelConnection) : list Z := default [] (read_prefix c) ++ read_data (inner_reads c).

(** *** The head ends where it ends *)

Lemma position_bound pat l i : position pat l = Some i -> (i + length pat <= length l)%nat.
Proof.
  revert i; induction l as [|x l IH]; intros i; cbn [position]; case_bool_decide as Ht.
  1,3: intros [= <-]; rewrite <- Ht at 1; rewrite length_take; lia.
  - done.
  - destruct (position pat l) as [k|]; cbn; [|done]. intros [= <-]. specialize (IH k eq_refl). cbn. lia.
Qed.

(** An occurrence that ends within a prefix is found there, and what is found there is
    found in the whole. *)
Lemma position_app pat l m i :
  (i + length pat <= length l)%nat -> position pat (l ++ m) = Some i <-> position pat l = Some i.
Proof.
  revert i; induction l as [|x l IH]; intros i Hi.
  - cbn in Hi. assert (pat = []) as -> by (destruct pat; [done|cbn in Hi; lia]). cbn. destruct m; cbn; naive_solver lia.
  - assert (Ht : (length pat <= length (x :: l))%nat) by lia.
    change ((x :: l) ++ m) with (x :: (l ++ m)). cbn [position]. change (x :: (l ++ m)) with ((x :: l) ++ m).
    rewrite take_app_le by done. case_bool_decide; [done|].
    destruct i as [|i].
    + split; [destruct (position pat (l ++ m))|destruct (position pat l)]; naive_solver.
    + specialize (IH i ltac:(cbn in Hi; lia)). destruct (position pat (l ++ m)), (position pat l); cbn; naive_solver.
Qed.

Lemma headers_end_bound l e : find_headers_end l = Some e -> (4 <= e <= length l)%nat.
Proof. unfold find_headers_end. intros (i & Hi & ->)%fmap_Some. apply position_bound in Hi. cbn in Hi. lia. Qed.

Lemma headers_end_app l m e : (e <= length l)%nat -> find_headers_end (l ++ m) = Some e <-> find_headers_end l = Some e.
Proof.
  intros He. unfold find_headers_end. rewrite !fmap_Some.
  split; intros (i & Hi & ->); exists i; (split; [|done]); apply (position_app _ l m i); cbn; try done; lia.
Qed.

(** *** A tunnel passes every byte on *)

Lemma read_data_one (d : list Z) : read_data (option_list (Some (Ok d))) = d.
Proof. apply app_nil_r. Qed.

Lemma poll_read_data n c r c' : poll_read n c = (r, c') -> read_data (option_list r) ++ unread c' = unread c.
Proof.
  unfold poll_read, unread. destruct (read_prefix c) as [[|b p]|].
  2:{ intros [= <- <-]. rewrite read_data_one, app_assoc. cbn [inner_reads read_prefix]. f_equal.
      cbn [default]. rewrite <- (take_drop n (b :: p)) at 3. f_equal. by destruct (drop n (b :: p)). }
  1,2: destruct (inner_reads c) as [|r0 rs]; intros [= <- <-]; [done|]; unfold read_data; cbn; rewrite app_nil_r; done.
Qed.

Lemma read_data_app a b : read_data (a ++ b) = read_data a ++ read_data b.
Proof. unfold read_data. by rewrite fmap_app, join_app. Qed.

Lemma poll_reads_data sizes c rs c' : poll_reads sizes c = (rs, c') -> read_data rs ++ unread c' = unread c.
Proof.
  revert c rs c'; induction sizes as [|n sizes IH]; intros c rs c'; cbn [poll_reads]; [by intros [= <- <-]|].
  destruct (poll_read n c) as [r c1] eqn:Hr. destruct (poll_reads sizes c1) as [rs1 c2] eqn:Hrs. intros [= <- <-].
  rewrite read_data_app, <- app_assoc, (IH _ _ _ Hrs). by eapply poll_read_data.
Qed.

(** What the loop found when it hands out a connection. *)
Record established_by (received : list Z) (reads : list Read) (c : HttpsTunnelConnection) (head : list Z) (consumed : list Read) :
    Prop := {
  eb_reads : reads = consumed ++ inner_reads c;
  eb_split : received ++ read_data consumed = head ++ default [] (read_prefix c);
  eb_head : find_headers_end (received ++ read_data consumed) = Some (length head);
  eb_status : exists status, parse_connect_status head = Ok status /\ 200 <= status < 300;
  eb_bound : (forall d, Ok d ∈ reads -> length d <= 256)%nat -> (length (received ++ read_data consumed) <= MAX_CONNECT_RESPONSE_BYTES + 256)%nat;
}.

Lemma connect_verdict_ready response e reads c :
  find_headers_end response = Some e -> connect_verdict response e reads = TunnelReady c ->
  inner_reads c = reads /\ response = take e response ++ default [] (read_prefix c) /\ length (take e response) = e /\
  exists status, parse_connect_status (take e response) = Ok status /\ 200 <= status < 300.
Proof.
  intros He%headers_end_bound. unfold connect_verdict. destruct (parse_connect_status (take e response)) as [status|] eqn:Hs; [|done].
  destruct (negb _) eqn:Hr; [done|]. assert (length (take e response) = e) by (rewrite length_take; lia).
  apply negb_false_iff, andb_prop in Hr as [H1 H2].
  destruct (Nat.eqb_spec (length response) e) as [E|E]; intros [= <-]; cbn; split_and!; try done.
  - rewrite app_nil_r, take_ge by lia. done.
  - exists status. split; [done|lia].
  - by rewrite take_drop.
  - exists status. split; [done|lia].
Qed.

Lemma read_connect_ready response reads c :
  (length response <= MAX_CONNECT_RESPONSE_BYTES)%nat -> read_connect_response response reads = TunnelReady c ->
  exists head consumed, established_by response reads c head consumed.
Proof.
  revert response; induction reads as [|r reads IH]; intros response Hlen; [done|].
  destruct r as [chunk|e]; [|done]. destruct chunk as [|b chunk]; [done|]. cbn [read_connect_response].
  set (ch := b :: chunk). set (response' := response ++ ch).
  destruct (find_headers_end response') as [e|] eqn:He.
  - intros Hv. destruct (connect_verdict_ready _ _ _ _ He Hv) as (E1 & E2 & E3 & E4).
    exists (take e response'), [Ok ch]. assert (Ed : response ++ read_data [Ok ch] = response').
    { unfold read_data, response'. cbn. by rewrite app_nil_r. }
    split; rewrite ?Ed; try done; [by rewrite E1|by rewrite E3|].
    intros Hb. specialize (Hb ch ltac:(left)). unfold response'. rewrite length_app. lia.
  - destruct (Nat.ltb_spec MAX_CONNECT_RESPONSE_BYTES (length response')) as [|Hle]; [done|]. intros Hr.
    destruct (IH response' Hle Hr) as (head & consumed & []). exists head, (Ok ch :: consumed).
    assert (Ed : response ++ read_data (Ok ch :: consumed) = response' ++ read_data consumed).
    { unfold response'. rewrite <- app_assoc. done. }
    split; rewrite ?Ed; try done; [by rewrite eb_reads0|].
    intros Hb. apply eb_bound0. intros d Hd. apply Hb. by right.
Qed.

(** C15: A tunnel loses, adds and reorders nothing: when it is established, what the proxy sent
    up to the end of the first response head is the answer to CONNECT, with a status of
    2xx, and whatever the sizes of the reads that follow, they return the bytes after that
    head in order, those that arrived with the head first; and at most 256 bytes more than
    the limit were buffered. *)
Theorem tunnel_transparent written flushed reads c sizes rs c' :
  establish_tunnel written flushed reads = TunnelReady c -> poll_reads sizes c = (rs, c') ->
  exists head consumed status, reads = consumed ++ inner_reads c /\
    find_headers_end (read_data reads) = Some (length head) /\
    read_data reads = head ++ read_data rs ++ unread c' /\
    parse_connect_status head = Ok status /\ 200 <= status < 300 /\
    ((forall d, Ok d ∈ reads -> length d <= 256)%nat -> (length (read_data consumed) <= MAX_CONNECT_RESPONSE_BYTES + 256)%nat).
Proof.
  unfold establish_tunnel. destruct written as [[[]|]|]; try done. destruct flushed as [[[]|]|]; try done.
  intros Hr Hp. destruct (read_connect_ready [] reads c ltac:(apply Nat.le_0_l) Hr) as (head & consumed & []).
  cbn [app] in *. destruct eb_status0 as (status & Hs1 & Hs2). exists head, consumed, status.
  assert (Ed : read_data reads = read_data consumed ++ read_data (inner_reads c)) by (by rewrite eb_reads0, read_data_app at 1).
  split_and!; try done; try lia.
  - rewrite Ed. apply headers_end_app; [|done]. rewrite eb_split0, length_app. lia.
  - rewrite (poll_reads_data _ _ _ _ Hp), Ed, eb_split0. unfold unread. by rewrite app_assoc.
Qed.

(** *** The verdict depends on the bytes alone *)

(** What a connection attempt comes to, with the bytes that are left to read. *)
Inductive Verdict := StillWaiting | Established (left : list Z) | Refused (e : TunnelEstablishError).

Definition verdict_of (o : TunnelOutcome) : Verdict :=
  match o with TunnelWaiting => StillWaiting | TunnelReady c => Established (unread c) | TunnelFailed e => Refused e end.

(** What a complete head stands for, with the bytes after it. *)
Definition head_verdict (head left : list Z) : Verdict :=
  match parse_connect_status head with
  | Ok status =>
      if (200 <=? status) && (status <? 300) then Established left
      else Refused {| error := Message (proxy_connect_rejected status); kind := if status =? 407 then Authentication else Other |}
  | Err text => Refused (tunnel_error_other text)
  end.

Definition oversized : Verdict := Refused {| error := Message PROXY_CONNECT_INVALID_RESPONSE; kind := Other |}.

(** What the bytes received and the way they end come to: the bytes in one piece. *)
Definition reference_verdict (received : list Z) (ending : list Read) : Verdict :=
  match find_headers_end received with
  | Some e => head_verdict (take e received) (drop e received ++ read_data ending)
  | None =>
      if (MAX_CONNECT_RESPONSE_BYTES <? length received)%nat then oversized
      else match ending with
           | [] => StillWaiting
           | Err e :: _ => Refused (tunnel_error_io e)
           | Ok _ :: _ => Refused {| error := Message PROXY_CONNECT_CLOSED; kind := EarlyClose |}
           end
  end.

(** The bytes are over: the proxy has not sent more, has closed, or the read failed. *)
Definition ends (ending : list Read) : Prop := match ending with Ok (_ :: _) :: _ => False | _ => True end.

(** How many bytes the first [i] reads returned, after [response]. *)
Abbreviation received_by response chunks i := (length (response ++ mjoin (take i chunks))).

Lemma connect_verdict_head response e chunks ending :
  find_headers_end response = Some e ->
  verdict_of (connect_verdict response e ((Ok <$> chunks) ++ ending)) =
  head_verdict (take e (response ++ mjoin chunks)) (drop e (response ++ mjoin chunks) ++ read_data ending).
Proof.
  intros He%headers_end_bound. unfold connect_verdict, head_verdict. rewrite take_app_le, drop_app_le by lia.
  destruct (parse_connect_status (take e response)) as [status|text]; [|done].
  destruct ((200 <=? status) && (status <? 300)); cbn [negb]; [|done].
  assert (Hd : read_data ((Ok <$> chunks) ++ ending) = mjoin chunks ++ read_data ending).
  { rewrite read_data_app. f_equal. unfold read_data. rewrite <- list_fmap_compose. cbn. by rewrite list_fmap_id. }
  destruct (Nat.eqb_spec (length response) e); unfold verdict_of, unread; cbn [read_prefix inner_reads default];
    rewrite Hd, <- app_assoc; [by rewrite drop_ge by lia|done].
Qed.

(** The first read either completes the head, ends the attempt, or is like what was received. *)
Lemma read_connect_cons response chunk chunks ending : chunk <> [] ->
  read_connect_response response ((Ok <$> chunk :: chunks) ++ ending) =
  match find_headers_end (response ++ chunk) with
  | Some e => connect_verdict (response ++ chunk) e ((Ok <$> chunks) ++ ending)
  | None =>
      if (MAX_CONNECT_RESPONSE_BYTES <? length (response ++ chunk))%nat
      then TunnelFailed {| error := Message PROXY_CONNECT_INVALID_RESPONSE; kind := Other |}
      else read_connect_response (response ++ chunk) ((Ok <$> chunks) ++ ending)
  end.
Proof. by destruct chunk. Qed.

(** A head in what was received so far is the head of it all, and the other way round. *)
Lemma head_so_far response chunks e : find_headers_end (response ++ mjoin chunks) = Some e ->
  find_headers_end response = if (e <=? length response)%nat then Some e else None.
Proof.
  intros He. destruct (Nat.leb_spec e (length response)) as [Hle|Hlt]; [by apply (headers_end_app response (mjoin chunks))|].
  destruct (find_headers_end response) as [e'|] eqn:He'; [|done]. pose proof (headers_end_bound _ _ He') as Hb.
  pose proof (proj2 (headers_end_app response (mjoin chunks) e' (proj2 Hb)) He') as Hw. rewrite He in Hw. injection Hw as ->. lia.
Qed.

Lemma verdict_in_time response chunks ending :
  Forall (fun d => d <> []) chunks -> ends ending -> find_headers_end response = None ->
  (length response <= MAX_CONNECT_RESPONSE_BYTES)%nat ->
  (forall e i, find_headers_end (response ++ mjoin chunks) = Some e -> (received_by response chunks i < e)%nat ->
     (received_by response chunks i <= MAX_CONNECT_RESPONSE_BYTES)%nat) ->
  verdict_of (read_connect_response response ((Ok <$> chunks) ++ ending)) = reference_verdict (response ++ mjoin chunks) ending.
Proof.
  intros Hne Hends. revert response. induction Hne as [|chunk chunks Hc _ IH]; intros response Hnone Hlen Htime.
  { unfold reference_verdict. change (mjoin []) with (@nil Z). rewrite app_nil_r, Hnone. destruct (Nat.ltb_spec MAX_CONNECT_RESPONSE_BYTES (length response)); [lia|].
    by destruct ending as [|[[|]|] ?]. }
  change (mjoin (chunk :: chunks)) with (chunk ++ mjoin chunks) in *. rewrite app_assoc in Htime |- *.
  rewrite read_connect_cons by done. destruct (find_headers_end (response ++ chunk)) as [e|] eqn:He.
  - pose proof (headers_end_bound _ _ He) as Hb. unfold reference_verdict.
    rewrite (proj2 (headers_end_app (response ++ chunk) (mjoin chunks) e (proj2 Hb)) He). by apply connect_verdict_head.
  - destruct (Nat.ltb_spec MAX_CONNECT_RESPONSE_BYTES (length (response ++ chunk))) as [Hlt|Hle].
    + unfold reference_verdict. destruct (find_headers_end ((response ++ chunk) ++ mjoin chunks)) as [e|] eqn:Hw.
      * pose proof (head_so_far _ _ _ Hw) as Hs. rewrite He in Hs. destruct (Nat.leb_spec e (length (response ++ chunk))) as [|Hl]; [done|].
        specialize (Htime e 1%nat eq_refl). cbn [take mjoin list_join] in Htime. rewrite app_nil_r in Htime. lia.
      * rewrite (proj2 (Nat.ltb_lt _ _)); [done|]. rewrite length_app. lia.
    + apply IH; try done. intros e i Hw Hi. specialize (Htime e (S i) Hw). cbn [take] in Htime.
      change (mjoin (chunk :: take i chunks)) with (chunk ++ mjoin (take i chunks)) in Htime. rewrite app_assoc in Htime. auto.
Qed.

Lemma verdict_late response chunks ending e i :
  Forall (fun d => d <> []) chunks -> (length response <= MAX_CONNECT_RESPONSE_BYTES)%nat ->
  find_headers_end (response ++ mjoin chunks) = Some e ->
  (MAX_CONNECT_RESPONSE_BYTES < received_by response chunks i < e)%nat ->
  verdict_of (read_connect_response response ((Ok <$> chunks) ++ ending)) = oversized.
Proof.
  intros Hne. revert response i. induction Hne as [|chunk chunks Hc _ IH]; intros response i Hlen He Hi.
  { rewrite take_nil in Hi. change (mjoin []) with (@nil Z) in Hi. rewrite app_nil_r in Hi. lia. }
  destruct i as [|i]; [cbn [take] in Hi; change (mjoin []) with (@nil Z) in Hi; rewrite app_nil_r in Hi; lia|]. cbn [take] in Hi.
  change (mjoin (chunk :: take i chunks)) with (chunk ++ mjoin (take i chunks)) in Hi.
  change (mjoin (chunk :: chunks)) with (chunk ++ mjoin chunks) in He. rewrite app_assoc in He, Hi.
  rewrite read_connect_cons, (head_so_far _ _ _ He) by done. rewrite (proj2 (Nat.leb_gt _ _)) by (rewrite length_app in Hi; lia).
  destruct (Nat.ltb_spec MAX_CONNECT_RESPONSE_BYTES (length (response ++ chunk))) as [|Hle]; [done|]. by eapply IH.
Qed.

(** C16: How the proxy's answer is cut into reads does not matter, as long as a first response
    head in it ends within the limit of 8192 bytes or there is none: the outcome is that of
    the same bytes in one piece, followed by the same ending, be it silence, the end of the
    stream or an error.  A status of 2xx goes on with exactly the bytes after the head, any
    other one and a malformed status line are the errors they stand for; without a head the
    attempt waits, was closed, failed to read, or was sent too much.  Of a head that ends
    beyond the limit the reads decide: it is refused as invalid if after one of them more
    than the limit was received and the head not yet complete, and counts otherwise. *)
Theorem tunnel_verdict_of_bytes chunks ending :
  Forall (fun d => d <> []) chunks -> ends ending ->
  let received := mjoin chunks in
  let verdict := verdict_of (read_connect_response [] ((Ok <$> chunks) ++ ending)) in
  ((forall e, find_headers_end received = Some e -> (e <= MAX_CONNECT_RESPONSE_BYTES)%nat) ->
     verdict = reference_verdict received ending) /\
  (forall e, find_headers_end received = Some e ->
     (forall i, (length (mjoin (take i chunks)) < e)%nat -> (length (mjoin (take i chunks)) <= MAX_CONNECT_RESPONSE_BYTES)%nat) ->
     verdict = reference_verdict received ending) /\
  (forall e i, find_headers_end received = Some e -> (MAX_CONNECT_RESPONSE_BYTES < length (mjoin (take i chunks)) < e)%nat ->
     verdict = oversized).
Proof.
  intros Hne Hends received verdict. pose proof (verdict_in_time [] chunks ending Hne Hends eq_refl (Nat.le_0_l _)) as Htime. split_and!.
  - intros Hin. apply Htime. intros e i He Hi. specialize (Hin e He). cbn [app] in *. lia.
  - intros e He Hin. apply Htime. intros e' i He' Hi. cbn [app] in *. fold received in He'. rewrite He in He'. injection He' as <-. auto.
  - intros e i He Hi. by apply (verdict_late [] chunks ending e i Hne (Nat.le_0_l _)).
Qed.

(** *** The request is one head *)

Lemma position_skip b l : b <> 13 -> position [13; 10; 13; 10] (b :: l) = S <$> position [13; 10; 13; 10] l.
Proof. intros Hb. cbn [position]. case_bool_decide as Ht; [|done]. by injection Ht as ->. Qed.

Lemma position_line l rest : Forall (fun b => b <> 13) l ->
  position [13; 10; 13; 10] (l ++ rest) = (fun i => length l + i)%nat <$> position [13; 10; 13; 10] rest.
Proof.
  induction 1 as [|b l Hb _ IH]; cbn [app length]; [by destruct (position _ rest)|].
  rewrite position_skip, IH by done. by destruct (position _ rest).
Qed.

Lemma position_crlf b rest : b <> 13 ->
  position [13; 10; 13; 10] (13 :: 10 :: b :: rest) = (fun i => S (S i)) <$> position [13; 10; 13; 10] (b :: rest).
Proof.
  intros Hb. remember (b :: rest) as l eqn:El. cbn [position]. rewrite !bool_decide_false.
  - by destruct (position _ l).
  - cbn. destruct l as [|? [|? ?]]; cbn; congruence.
  - subst l. cbn. destruct rest; cbn; congruence.
Qed.

Lemma one_line_app a b : one_line a -> one_line b -> one_line (a ++ b)%string.
Proof. unfold one_line. rewrite bytes_app. intros. by apply Forall_app. Qed.

Lemma one_line_by (s : string) : forallb (fun b => negb (b =? 13)) (bytes s) = true -> one_line s.
Proof.
  unfold one_line. rewrite forallb_forall, Forall_forall. intros H x Hx%list_elem_of_In. specialize (H x Hx).
  by apply negb_true_iff, Z.eqb_neq in H.
Qed.

(** A line of a head, and what follows it. *)
Lemma position_header (l : list Z) b rest : Forall (fun b => b <> 13) l -> b <> 13 ->
  position [13; 10; 13; 10] (l ++ 13 :: 10 :: b :: rest) = (fun i => length l + 2 + i)%nat <$> position [13; 10; 13; 10] (b :: rest).
Proof.
  intros Hl Hb. rewrite position_line, position_crlf by done. rewrite <- option_fmap_compose. apply option_fmap_ext. intros i. cbn. lia.
Qed.

Lemma position_last (l : list Z) : Forall (fun b => b <> 13) l ->
  position [13; 10; 13; 10] (l ++ [13; 10; 13; 10]) = Some (length l).
Proof.
  intros Hl. rewrite position_line by done. change (position _ [13; 10; 13; 10]) with (Some 0%nat). cbn [fmap option_fmap option_map].
  f_equal. lia.
Qed.

Lemma bytes_String c s : bytes (String c s) = byte c :: bytes s.
Proof. done. Qed.

Lemma one_line_pretty_N_go x s : one_line s -> one_line (pretty_N_go x s).
Proof.
  revert s. induction x as [x IH] using (well_founded_ind N.lt_wf_0). intros s Hs.
  destruct (decide (x = 0)%N) as [->|Hx]; [by rewrite pretty_N_go_0|].
  rewrite pretty_N_go_step by lia. apply IH; [apply N.div_lt; lia|]. unfold one_line. rewrite bytes_String. constructor; [|done].
  unfold pretty_N_char. by repeat case_match.
Qed.

Lemma one_line_pretty (z : Z) : one_line (pretty z).
Proof.
  assert (Hp : forall p : positive, one_line (pretty (Npos p))) 
    by (intros p; unfold pretty, pretty_N; rewrite decide_False by done; apply one_line_pretty_N_go; by constructor).
  destruct z as [|p|p]; [by apply one_line_by| |].
  - exact (Hp p).
  - apply (one_line_app "-"); [by apply one_line_by|]. exact (Hp p).
Qed.

Lemma connect_request_bytes authority value : one_line authority -> (forall v, value = Some v -> one_line v) ->
  let request := bytes (connect_request authority value) in find_headers_end request = Some (length request).
Proof.
  intros Ha Hv. unfold connect_request. cbn zeta.
  set (line1 := bytes "CONNECT " ++ bytes authority ++ bytes " HTTP/1.1").
  set (line2 := bytes "Host: " ++ bytes authority).
  assert (H1 : Forall (fun b => b <> 13) line1) by (apply Forall_app; split; [by apply one_line_by|apply Forall_app; split; [done|by apply one_line_by]]).
  assert (H2 : Forall (fun b => b <> 13) line2) by (apply Forall_app; split; [by apply one_line_by|done]).
  assert (E2 : exists l, line2 = 72 :: l) by (eexists; reflexivity). destruct E2 as [l2 E2].
  rewrite E2 in H2. destruct value as [v|].
  - set (line3 := bytes "Proxy-Authorization: " ++ bytes v).
    assert (H3 : Forall (fun b => b <> 13) line3) by (apply Forall_app; split; [by apply one_line_by|by apply Hv]).
    assert (E3 : exists l, line3 = 80 :: l) by (eexists; reflexivity). destruct E3 as [l3 E3].
    replace (bytes _) with (line1 ++ 13 :: 10 :: line2 ++ 13 :: 10 :: line3 ++ [13; 10; 13; 10]).
    2:{ unfold line1, line2, line3. rewrite !bytes_app. rewrite <- !app_assoc. reflexivity. }
    rewrite E2, E3 in *. unfold find_headers_end. cbn [app]. rewrite position_header by done.
    change (72 :: l2 ++ ?r) with ((72 :: l2) ++ r). rewrite position_header by done.
    change (80 :: l3 ++ ?r) with ((80 :: l3) ++ r). rewrite position_last by done. cbn. f_equal. rewrite !length_app. cbn.
    rewrite length_app. cbn. rewrite length_app. cbn. lia.
  - replace (bytes _) with (line1 ++ 13 :: 10 :: line2 ++ [13; 10; 13; 10]).
    2:{ unfold line1, line2. rewrite !bytes_app. rewrite <- !app_assoc. reflexivity. }
    rewrite E2. unfold find_headers_end. cbn [app]. rewrite position_header by done.
    change (72 :: l2 ++ ?r) with ((72 :: l2) ++ r). rewrite position_last by done. cbn. f_equal. rewrite !length_app. cbn.
    rewrite length_app. cbn. lia.
Qed.

(** What is sent to the proxy is one request: the first empty line of the CONNECT request is
    its end, whatever the target and the configured credentials, so neither can smuggle a
    header or a second request. *)
Theorem connect_request_framed `{UriLaws, HeaderValueLaws} uri authority value authorization :
  tunnel_authority uri = Ok authority -> authorization_parse value = Ok authorization ->
  forall configured : bool,
  let request := bytes (connect_request authority (if configured then Some authorization else None)) in
  find_headers_end request = Some (length request).
Proof.
  intros Ha Hv configured. apply connect_request_bytes.
  - unfold tunnel_authority in Ha. destruct (uri_authority uri) as [[[text host] port]|] eqn:Hu; [|done]. injection Ha as <-.
    apply one_line_app; [by eapply authority_host_line|]. apply one_line_app; [by apply one_line_by|apply one_line_pretty].
  - intros v E. destruct configured; [|done]. injection E as <-. unfold authorization_parse in Hv.
    destruct (header_value_from_str value) as [hv|] eqn:Hh; [|done]. destruct (header_value_to_str hv); [|done].
    injection Hv as <-. by eapply header_value_line.
Qed.

(** ** The connectors and their tokens *)

(** What [HttpsTunnelConnector::call] does to the tokens of the endpoint's metrics. *)
Inductive TokenEvent :=
| NewAttempt | AttemptOpened | AttemptDropped
| NewTunnel | TunnelEstablished | TunnelFailure (k : ProxyTunnelFailureKind) | TunnelDropped
| LeaseDropped.

(** How a wait ends that nothing else ends: the connect timeout, or the future is dropped. *)
Inductive WaitEnd := TimedOut | FutureDropped.

Inductive ConnectResult := Connected (c : HttpsTunnelConnection) | ConnectError (e : TunnelErrorSource) | NoResult.

(** The environment of a call: the target's authority, the inner connector's answer, the
    transport, and the end of a wait. *)
Record ConnectEnv := {
  authority : result string string;
  connect_answer : option (result unit string);
  written : option (result unit ErrorKind);
  flushed : option (result unit ErrorKind);
  transport : list Read;
  wait_end : WaitEnd;
}.

Definition timed_out (w : WaitEnd) : ConnectResult :=
  match w with TimedOut => ConnectError (Message PROXY_CONNECT_TIMEOUT) | FutureDropped => NoResult end.

(** The proxied branch of [HttpsTunnelConnector::call]. *)
Definition https_tunnel_call (env : ConnectEnv) : list TokenEvent * ConnectResult :=
  match authority env, connect_answer env with
  | Err e, _ => ([], ConnectError (Message e))
  | _, None => ([NewAttempt; AttemptDropped], timed_out (wait_end env))
  | _, Some (Err e) => ([NewAttempt; AttemptDropped], ConnectError (Message e))
  | _, Some (Ok _) =>
      let opened := [NewAttempt; AttemptOpened; NewTunnel] in
      match establish_tunnel (written env) (flushed env) (transport env) with
      | TunnelReady c => (opened ++ [TunnelEstablished], Connected c)
      | TunnelFailed e => (opened ++ [TunnelFailure (kind e); LeaseDropped], ConnectError (error e))
      | TunnelWaiting =>
          (opened ++ [LeaseDropped; match wait_end env with TimedOut => TunnelFailure Timeout | FutureDropped => TunnelDropped end],
           timed_out (wait_end env))
      end
  end.

(** [HttpProxyConnector::call] through a proxy; its caller's timeout drops the future. *)
Definition http_proxy_call (answer : option (result unit string)) : list TokenEvent * bool :=
  match answer with
  | Some (Ok _) => ([NewAttempt; AttemptOpened], true)
  | _ => ([NewAttempt; AttemptDropped], false)
  end.

(** An event on the tokens alive; the lease it is about is the newest. *)
Definition token_event (now : Z) (ev : TokenEvent) (o : ownership) : option ownership :=
  let '(Ownership m a ls t) := o in
  match ev, a, t with
  | NewAttempt, _, _ => Some (Ownership (exec (connection_attempt now) m) (S a) ls t)
  | AttemptOpened, S a, _ =>
      let (l, m) := run_action (opened now {| attempt_finished := false |}) m in Some (Ownership m a (ls ++ [l]) t)
  | AttemptDropped, S a, _ =>
      Some (Ownership (exec (drop_connection_attempt now {| attempt_finished := false |}) m) a ls t)
  | NewTunnel, _, _ => Some (Ownership (exec (tunnel_attempt now) m) a ls (S t))
  | TunnelEstablished, _, S t =>
      let i := pred (length ls) in
      l ← ls !! i;
      if tunnel_active l then None
      else let (l', m) := run_action (established now {| tunnel_finished := false |} l) m in
           Some (Ownership m a (<[i := l']> ls) t)
  | TunnelFailure k, _, S t => Some (Ownership (exec (failed now {| tunnel_finished := false |} k) m) a ls t)
  | TunnelDropped, _, S t => Some (Ownership (exec (drop_tunnel_attempt now {| tunnel_finished := false |}) m) a ls t)
  | LeaseDropped, _, _ =>
      let i := pred (length ls) in
      l ← ls !! i; Some (Ownership (exec (drop_connection_lease now l) m) a (delete i ls) t)
  | _, _, _ => None
  end.

Fixpoint token_events (now : Z) (evs : list TokenEvent) (o : ownership) : option ownership :=
  match evs with [] => Some o | ev :: evs => o' ← token_event now ev o; token_events now evs o' end.

Lemma token_event_owned now ev o o' : token_event now ev o = Some o' -> ownership_step o o'.
Proof.
  destruct o as [m a ls t]. destruct ev; cbn [token_event]; try (destruct a as [|a]; [done|]); try (destruct t as [|t]; [done|]).
  all: try (intros [= <-]; by constructor).
  - destruct (run_action (opened now {| attempt_finished := false |}) m) as [l m'] eqn:Hr. intros [= <-]. by apply own_opened with now.
  - destruct (ls !! pred (length ls)) as [l|] eqn:Hl; [|done]. cbn [mbind option_bind]. destruct (tunnel_active l) eqn:Ht; [done|].
    destruct (run_action (established now {| tunnel_finished := false |} l) m) as [l' m'] eqn:Hr. intros [= <-].
    by apply own_established with now l.
  - destruct (ls !! pred (length ls)) as [l|] eqn:Hl; [|done]. cbn [mbind option_bind]. intros [= <-]. by apply own_closed.
Qed.

Lemma token_events_owned now evs o o' n :
  token_events now evs o = Some o' -> 0 <= n -> n + Z.of_nat (length evs) <= USIZE_MAX -> accounts n o ->
  rtc ownership_step o o' /\ accounts (n + Z.of_nat (length evs)) o'.
Proof.
  revert o n; induction evs as [|ev evs IH]; intros o n; cbn [token_events length].
  - intros [= <-] _ _. rewrite Z.add_0_r. split; [apply rtc_refl|done].
  - destruct (token_event now ev o) as [o1|] eqn:He; [|done]. intros Hr Hn Hb Ha. apply token_event_owned in He.
    destruct (IH o1 (n + 1) Hr) as [H1 H2]; [lia|lia|apply (ownership_step_accounts n o); [lia|done|done]|].
    split; [by eapply rtc_l|]. by replace (n + Z.of_nat (S (length evs))) with (n + 1 + Z.of_nat (length evs)) by lia.
Qed.

(** The newest lease. *)
Lemma lookup_newest (ls : list ProxyConnectionLease) l : (ls ++ [l]) !! pred (length (ls ++ [l])) = Some l.
Proof. rewrite length_app. cbn. rewrite Nat.add_1_r. cbn. by apply list_lookup_middle. Qed.

Lemma insert_newest (ls : list ProxyConnectionLease) l l' : <[pred (length (ls ++ [l])) := l']> (ls ++ [l]) = ls ++ [l'].
Proof. rewrite length_app, Nat.add_1_r. cbn [pred]. by rewrite insert_app_r_alt, Nat.sub_diag by lia. Qed.

Lemma delete_newest (ls : list ProxyConnectionLease) l : delete (pred (length (ls ++ [l]))) (ls ++ [l]) = ls.
Proof. rewrite length_app, Nat.add_1_r. cbn [pred]. by rewrite delete_middle, app_nil_r. Qed.

(** A new lease carries no tunnel; an established one does. *)
Lemma opened_lease now m : fst (run_action (opened now {| attempt_finished := false |}) m) = {| tunnel_active := false |}.
Proof. by run_method. Qed.

Lemma established_lease now l m : fst (run_action (established now {| tunnel_finished := false |} l) m) = {| tunnel_active := true |}.
Proof. by run_method. Qed.

Lemma opened_prefix now m a ls t : exists m', forall evs,
  token_events now ([NewAttempt; AttemptOpened; NewTunnel] ++ evs) (Ownership m a ls t) =
  token_events now evs (Ownership m' a (ls ++ [{| tunnel_active := false |}]) (S t)).
Proof.
  pose proof (opened_lease now (exec (connection_attempt now) m)) as Hl. cbn [token_events token_event app mbind option_bind].
  destruct (run_action (opened now _) _) as [l m2]. cbn in Hl. subst l. exists (exec (tunnel_attempt now) m2). done.
Qed.

(** Opening a connection through a tunnel settles every token it takes, on every path: no
    target, the inner connector failing, each failure of the exchange, the connect timeout and the
    cancellation of the future at any wait.  Only a connection that is handed out leaves
    something alive, one lease that carries the tunnel, so that the endpoint's counters
    stay exact. *)
Theorem tunnel_tokens_settled now env o n :
  0 <= n -> n + 5 <= USIZE_MAX -> accounts n o ->
  exists o', token_events now (fst (https_tunnel_call env)) o = Some o' /\
    rtc ownership_step o o' /\ accounts (n + Z.of_nat (length (fst (https_tunnel_call env)))) o' /\
    live_attempts o' = live_attempts o /\ live_tunnel_attempts o' = live_tunnel_attempts o /\
    live_leases o' = live_leases o ++ match snd (https_tunnel_call env) with Connected _ => [{| tunnel_active := true |}] | _ => [] end.
Proof.
  intros Hn Hb Ha. assert (Hlen : (length (fst (https_tunnel_call env)) <= 5)%nat).
  { unfold https_tunnel_call. repeat case_match; cbn; lia. }
  assert (H : exists o', token_events now (fst (https_tunnel_call env)) o = Some o' /\ live_attempts o' = live_attempts o /\
    live_tunnel_attempts o' = live_tunnel_attempts o /\
    live_leases o' = live_leases o ++ match snd (https_tunnel_call env) with Connected _ => [{| tunnel_active := true |}] | _ => [] end).
  2:{ destruct H as (o' & Ho' & ?). exists o'. split; [done|].
      destruct (token_events_owned now _ o o' n Ho') as [H1 H2]; [lia|lia|done|]. tauto. }
  destruct o as [m a ls t]. unfold https_tunnel_call.
  destruct (authority env); [|cbn; eexists; split_and!; [reflexivity|done|done|cbn; by rewrite app_nil_r]].
  destruct (connect_answer env) as [[|e]|]; [| |destruct (wait_end env)];
    [|cbn; eexists; split_and!; [reflexivity|done|done|cbn; by rewrite app_nil_r]..].
  destruct (establish_tunnel _ _ _) as [|c|e]; [destruct (wait_end env)| |].
  all: destruct (opened_prefix now m a ls t) as [m' E]; cbn zeta; cbn [fst snd timed_out]; rewrite E; cbn [token_events token_event mbind option_bind];
    rewrite lookup_newest; cbn [mbind option_bind tunnel_active token_events token_event];
    rewrite ?delete_newest;
    try (pose proof (established_lease now {| tunnel_active := false |} m') as Hl;
         destruct (run_action (established now _ _) m') as [l' m2]; cbn in Hl; subst l'; cbn [mbind option_bind]);
    eexists; (split_and!; [reflexivity|done|done|]); cbn [live_leases fst snd];
    rewrite ?app_nil_r, ?insert_newest; done.
Qed.

(** ** Resolved addresses *)

(** [SsrfResolveFuture::poll]: [checked_host] is taken when the addresses are there. *)
Section resolver.
Context {E : Type}.

Inductive SsrfResolverError := Dns (e : E) | Violation (v : SsrfViolation).

Abbreviation SocketAddr := (IpAddr * Z)%type.

Fixpoint check_addresses (host : string) (addresses : list SocketAddr) : result (list SocketAddr) SsrfResolverError :=
  match addresses with
  | [] => Ok []
  | address :: rest =>
      match validate_resolved_address host (fst address) with
      | Err e => Err (Violation e)
      | Ok _ => let? checked := check_addresses host rest in Ok (address :: checked)
      end
  end.

Definition resolve_poll (checked_host : option string) (answer : option (result (list SocketAddr) E)) :
    option (result (list SocketAddr) SsrfResolverError) * option string :=
  match answer with
  | None => (None, checked_host)
  | Some (Err e) => (Some (Err (Dns e)), checked_host)
  | Some (Ok addresses) =>
      match checked_host with
      | None => (Some (Ok addresses), None)
      | Some host => (Some (check_addresses host addresses), None)
      end
  end.

(** [SsrfResolver::call] polled until the resolver answers. *)
Definition resolve (enabled : bool) (name : string) (answer : result (list SocketAddr) E) :
    result (list SocketAddr) SsrfResolverError :=
  default (Ok []) (fst (resolve_poll (if enabled then Some name else None) (Some answer))).

Lemma check_addresses_Ok host addresses l :
  check_addresses host addresses = Ok l <-> l = addresses /\ Forall (fun a => blocked_ip_kind (fst a) = None) addresses.
Proof.
  revert l; induction addresses as [|a rest IH]; intros l; cbn [check_addresses]; [split; [by intros [= <-]|by intros [-> _]]|].
  unfold validate_resolved_address. rewrite Forall_cons. case_bool_decide as Hb.
  - split; [done|]. intros (_ & H & _). rewrite H in Hb. by destruct Hb.
  - assert (blocked_ip_kind (fst a) = None) by (by apply eq_None_not_Some).
    destruct (check_addresses host rest) as [checked|e].
    + destruct (proj1 (IH checked) eq_refl) as [-> Hf]. split; [by intros [= <-]|by intros [-> _]].
    + split; [done|]. intros (_ & _ & Hf). by apply IH in Hf as [= ] || (pose proof (proj2 (IH rest) (conj eq_refl Hf)); done).
Qed.

Lemma check_addresses_Err host addresses e :
  check_addresses host addresses = Err e ->
  exists before a after, addresses = before ++ a :: after /\ Forall (fun a => blocked_ip_kind (fst a) = None) before /\
    is_Some (blocked_ip_kind (fst a)) /\ e = Violation {| target := host; reason := NonPublicAddress |}.
Proof.
  revert e; induction addresses as [|a rest IH]; intros e; cbn [check_addresses]; [done|].
  unfold validate_resolved_address. case_bool_decide as Hb.
  - intros [= <-]. exists [], a, rest. by split_and!.
  - destruct (check_addresses host rest) as [checked|e'] eqn:Hc; [done|]. intros [= <-].
    destruct (IH e' eq_refl) as (before & a' & after & -> & Hf & Hs & ->). exists (a :: before), a', after.
    split_and!; try done. constructor; [by apply eq_None_not_Some|done].
Qed.

(** C12: With the SSRF policy on, a name resolves to all of its addresses or to none: it is an
    error exactly when one of them is not public, whichever it is, so that no connection
    is ever tried to an address beside a blocked one; with the policy off the resolver's
    answer is passed on. *)
Theorem resolved_addresses_public enabled name addresses :
  match resolve enabled name (Ok addresses) with
  | Ok l => l = addresses /\ (enabled = true -> Forall (fun a => blocked_ip_kind (fst a) = None) l)
  | Err e => enabled = true /\ e = Violation {| target := name; reason := NonPublicAddress |} /\
      exists a, a ∈ addresses /\ is_Some (blocked_ip_kind (fst a))
  end.
Proof.
  unfold resolve. destruct enabled; cbn; [|done]. destruct (check_addresses name addresses) as [l|e] eqn:Hc.
  - apply check_addresses_Ok in Hc as [-> ?]. done.
  - apply check_addresses_Err in Hc as (before & a & after & -> & _ & Hs & ->). split_and!; [done..|].
    exists a. split; [set_solver|done].
Qed.
End resolver.

(** ** Concrete exchanges *)

(** The answer to CONNECT in two reads, the second with the first bytes of the server. *)
Definition sample_answer : list Read :=
  [Ok (bytes "HTTP/1.1 200 OK" ++ [13; 10; 13]); Ok ([10] ++ bytes "hello"); Ok (bytes " world"); Ok []].

Definition sample_tunnel : HttpsTunnelConnection :=
  {| inner_reads := [Ok (bytes " world"); Ok []]; read_prefix := Some (bytes "hello") |}.

Lemma tunnel_transparent_witness : exists (head : list Z) (rs : list Read),
  read_data sample_answer = head ++ read_data rs /\ read_data rs = bytes "hello world" /\ find_headers_end (read_data sample_answer) = Some 19%nat.
Proof.
  assert (Ht : establish_tunnel (Some (Ok tt)) (Some (Ok tt)) sample_answer = TunnelReady sample_tunnel) by (vm_compute; reflexivity).
  set (out := poll_reads [3; 9; 9]%nat sample_tunnel). assert (Hp : poll_reads [3; 9; 9]%nat sample_tunnel = (fst out, snd out)) by (vm_compute; reflexivity).
  destruct (tunnel_transparent _ _ _ _ _ _ _ Ht Hp) as (head & consumed & status & _ & He & Hd & _).
  assert (Hu : unread (snd out) = []) by (vm_compute; reflexivity). rewrite Hu, app_nil_r in Hd.
  exists head, (fst out). split; [exact Hd|]. split; vm_compute; reflexivity.
Defined.

Definition sample_rejection : list (list Z) := [bytes "HTTP/1.1 407 Proxy Authentication Required"; [13; 10; 13; 10]].

Lemma verdict_refused o e : verdict_of o = Refused e -> o = TunnelFailed e.
Proof. destruct o; cbn; congruence. Qed.

(** The answer in two reads, and an answer that stops before its head does. *)
Lemma tunnel_verdict_of_bytes_witness :
  read_connect_response [] ((Ok <$> sample_rejection) ++ []) =
    TunnelFailed {| error := Message "proxy rejected the CONNECT tunnel with status 407"; kind := Authentication |} /\
  verdict_of (read_connect_response [] ((Ok <$> [bytes "HTTP/1.1 200"]) ++ [Err ConnectionReset])) = Refused (tunnel_error_io ConnectionReset).
Proof.
  split.
  - destruct (tunnel_verdict_of_bytes sample_rejection [] ltac:(repeat constructor; discriminate) I) as (H & _ & _).
    assert (Hv : reference_verdict (mjoin sample_rejection) [] =
      Refused {| error := Message "proxy rejected the CONNECT tunnel with status 407"; kind := Authentication |}) by (vm_compute; reflexivity).
    rewrite Hv in H. apply verdict_refused, H.
    intros e He. vm_compute in He. injection He as <-. unfold MAX_CONNECT_RESPONSE_BYTES. lia.
  - destruct (tunnel_verdict_of_bytes [bytes "HTTP/1.1 200"] [Err ConnectionReset] ltac:(repeat constructor; discriminate) I) as (H & _ & _).
    rewrite H; [vm_compute; reflexivity|]. intros e He. vm_compute in He. discriminate He.
Defined.

(** URIs that are their authority. *)
Definition host_uri_crate : UriCrate := {|
  Uri := string;
  uri_from_str s := Ok s;
  uri_scheme_str _ := Some "https"%string;
  uri_authority u := if forallb (fun b => negb (b =? 13)) (bytes u) then Some (u, u, None) else None;
  uri_path_and_query _ := None;
|}.

Lemma host_uri_laws : @UriLaws host_uri_crate.
Proof.
  split. intros u text host port. cbn. destruct (forallb _ _) eqn:Hf; [|done]. intros [= <- <- <-]. by apply one_line_by.
Qed.

Lemma pair_header_value_laws : @HeaderValueLaws pair_http_crate.
Proof.
  split. intros s v. cbn. destruct (visible_ascii (bytes s)) eqn:Hv; [|done]. intros _. unfold one_line. rewrite Forall_forall.
  unfold visible_ascii in Hv. rewrite forallb_forall in Hv. intros b Hb%list_elem_of_In. specialize (Hv b Hb). cbn in Hv. intros ->. discriminate.
Qed.

Lemma connect_request_framed_witness :
  @tunnel_authority host_uri_crate "example.org"%string = Ok "example.org:443"%string /\
  find_headers_end (bytes (connect_request "example.org:443" (Some "Basic dTpw"%string))) = Some 92%nat.
Proof.
  assert (Ha : @tunnel_authority host_uri_crate "example.org"%string = Ok "example.org:443"%string) by (vm_compute; reflexivity).
  assert (Hv : @authorization_parse pair_http_crate "Basic dTpw"%string = Ok "Basic dTpw"%string) by (vm_compute; reflexivity).
  split; [exact Ha|].
  pose proof (@connect_request_framed host_uri_crate host_uri_laws pair_http_crate pair_header_value_laws _ _ _ _ Ha Hv true) as H.
  cbn zeta in H. rewrite H. vm_compute. reflexivity.
Defined.

Definition sample_env : ConnectEnv :=
  {| authority := Ok "example.org:443"%string; connect_answer := Some (Ok tt); written := Some (Ok tt); flushed := None; transport := []; wait_end := TimedOut |}.

Definition sample_owner : ownership := Ownership (proxy_endpoint_metrics_new "http://p" 0) 0 [] 0.

Lemma tunnel_tokens_settled_witness : exists o', rtc ownership_step sample_owner o' /\ accounts 5 o' /\ live_leases o' = [].
Proof.
  destruct (tunnel_tokens_settled 7 sample_env sample_owner 0) as (o' & _ & H1 & H2 & _ & _ & H3);
    [lia|unfold USIZE_MAX; lia|repeat constructor; cbn; lia|].
  exists o'. split; [exact H1|]. split; [exact H2|exact H3].
Defined.
