(* ===== verification/Body.v ===== *)
(** * Buffered response bodies

    [src/src/core/response/{error,body,budget,decompression}.rs]: collecting a body
    under a per-response limit and the client's byte budget, and decoding its
    content codings while moving the reservation from the encoded to the decoded
    bytes.  The decoders of [flate2] and [brotli] are parameters.

    A reservation refers to the client's [Metrics]; an operation on it takes and
    returns its reserved bytes and the metrics.  Each of them touches the shared
    byte counter in one compare-and-swap loop, so other responses interleave
    between the operations ([responses_step] below). *)

From stdpp Require Import pretty.
From Stdlib Require Import Ascii.
From S2P Require Import Prelude Atomics RustStr Http.
From S2P Require Metrics.
Import Metrics (Metrics, BufferedByteReservationError(..), buffered_response_bytes,
  reserve_buffered_response_bytes, release_buffered_response_bytes,
  buffered_response_budget_rejected).

Local Open Scope Z_scope.

(** The content decoders: each [read] of a decoder over the content fills at most
    [DECODE_BUFFER_SIZE] bytes; the list of results ends when a read returns no
    bytes. *)
Inductive Decoder := MultiGzDecoder | ZlibDecoder | DeflateDecoder | BrotliDecompressor.

Class ContentDecoders := {
  IoError : Type;
  io_error_display : IoError -> string;
  decoder_reads : Decoder -> list Z -> list (result (list Z) IoError);
}.

Definition DECODE_BUFFER_SIZE : Z := 8192.
Definition CONTENT_ENCODING_HEADER : string := "content-encoding".
Definition CONTENT_LENGTH_HEADER : string := "content-length".

Definition byte_len (l : list Z) : Z := Z.of_nat (length l).

(** ** Errors *)

Section errors.
Context `{ContentDecoders}.

Inductive ResponseBodyError :=
| TooLarge (limit : Z)
| BudgetExceeded (limit : Z)
| ResponseCounterOverflow
| ReservationOverflow
| ReservationUnderflow
| DecodeReservationOverflow
| Decode (coding : string) (source : IoError).

Definition response_body_too_large (limit : Z) : string :=
  "response body exceeded max_response_body_size of " ++ pretty limit ++ " bytes".
Definition buffered_response_body_budget_exceeded (limit : Z) : string :=
  "buffered response bodies exceeded max_buffered_response_bytes of " ++ pretty limit ++ " bytes".

Definition display_response_body_error (e : ResponseBodyError) : string :=
  match e with
  | TooLarge limit => response_body_too_large limit
  | BudgetExceeded limit => buffered_response_body_budget_exceeded limit
  | ResponseCounterOverflow => "buffered response byte counter overflow"
  | ReservationOverflow => "buffered response byte reservation overflow"
  | ReservationUnderflow => "buffered response byte reservation underflow"
  | DecodeReservationOverflow => "decoded response byte reservation overflow"
  | Decode coding source =>
      "failed to decode " ++ coding ++ " response body: " ++ io_error_display source
  end.
End errors.

(** ** The budget *)
Section body.
Context `{ContentDecoders}.

(** [max_buffered_response_bytes]; the metrics it counts in are threaded. *)
Record BufferedBodyBudget := { max_buffered_response_bytes : option Z }.

Record BufferedBodyReservation := { budget : BufferedBodyBudget; reserved_bytes : Z }.

#[export] Instance eta_BufferedBodyReservation : Eta BufferedBodyReservation := fun r =>
  Build_BufferedBodyReservation (budget r) (reserved_bytes r).

Definition start_response (b : BufferedBodyBudget) : BufferedBodyReservation :=
  {| budget := b; reserved_bytes := 0 |}.

Definition reserve_bytes (b : BufferedBodyBudget) (byte_count : Z) (m : Metrics) :
    result unit ResponseBodyError * Metrics :=
  match run_action (reserve_buffered_response_bytes byte_count (max_buffered_response_bytes b)) m with
  | (Ok _, m) => (Ok tt, m)
  | (Err LimitExceeded, m) =>
      let m := exec buffered_response_budget_rejected m in
      let limit := default 0 (max_buffered_response_bytes b) in
      (Err (BudgetExceeded limit), m)
  | (Err CounterOverflow, m) => (Err ResponseCounterOverflow, m)
  end.

Definition release_bytes (byte_count : Z) (m : Metrics) : Metrics :=
  exec (release_buffered_response_bytes byte_count) m.

Definition reserve_chunk (chunk_size : Z) (r : BufferedBodyReservation) (m : Metrics) :
    result unit ResponseBodyError * BufferedBodyReservation * Metrics :=
  let_some next_reserved_bytes := checked_add (reserved_bytes r) chunk_size
    else (Err ReservationOverflow, r, m) in
  match reserve_bytes (budget r) chunk_size m with
  | (Err e, m) => (Err e, r, m)
  | (Ok _, m) => (Ok tt, r <| reserved_bytes := next_reserved_bytes |>, m)
  end.

Definition release_chunk (chunk_size : Z) (r : BufferedBodyReservation) (m : Metrics) :
    result unit ResponseBodyError * BufferedBodyReservation * Metrics :=
  if chunk_size =? 0 then (Ok tt, r, m)
  else
    let_some next_reserved_bytes := checked_sub (reserved_bytes r) chunk_size
      else (Err ReservationUnderflow, r, m) in
    let m := release_bytes chunk_size m in
    (Ok tt, r <| reserved_bytes := next_reserved_bytes |>, m).

Definition drop_reservation (r : BufferedBodyReservation) (m : Metrics) : Metrics :=
  release_bytes (reserved_bytes r) m.

(** ** Collecting *)

Record CollectedBody := { content : list Z; reservation : BufferedBodyReservation }.

Record BufferedBodyCollector := {
  collected : CollectedBody;
  collector_max_size : option Z;
}.

(** [upper_size_hint] is [body.size_hint().upper()], a [u64]. *)
Definition enforce_response_size_hint (upper_size_hint max_response_body_size : option Z) :
    result unit ResponseBodyError :=
  let_some limit := max_response_body_size else Ok tt in
  let_some upper_size_hint := upper_size_hint else Ok tt in
  let exceeds_limit := (USIZE_MAX <? upper_size_hint) || (limit <? upper_size_hint) in
  if exceeds_limit then Err (TooLarge limit) else Ok tt.

Definition collector_new (upper_size_hint max_response_body_size : option Z)
    (b : BufferedBodyBudget) : result BufferedBodyCollector ResponseBodyError :=
  let? _ := enforce_response_size_hint upper_size_hint max_response_body_size in
  Ok {| collected := {| content := []; reservation := start_response b |};
        collector_max_size := max_response_body_size |}.

Definition enforce_response_body_limit (current_size chunk_size : Z)
    (max_response_body_size : option Z) : result unit ResponseBodyError :=
  let_some limit := max_response_body_size else Ok tt in
  let_some next_size := checked_add current_size chunk_size else Err (TooLarge limit) in
  if limit <? next_size then Err (TooLarge limit) else Ok tt.

Definition push_data (data : list Z) (c : BufferedBodyCollector) (m : Metrics) :
    result unit ResponseBodyError * BufferedBodyCollector * Metrics :=
  match enforce_response_body_limit (byte_len (content (collected c))) (byte_len data)
          (collector_max_size c) with
  | Err e => (Err e, c, m)
  | Ok _ =>
      match reserve_chunk (byte_len data) (reservation (collected c)) m with
      | (Err e, r, m) =>
          (Err e, {| collected := {| content := content (collected c); reservation := r |};
                     collector_max_size := collector_max_size c |}, m)
      | (Ok _, r, m) =>
          (Ok tt, {| collected := {| content := content (collected c) ++ data; reservation := r |};
                     collector_max_size := collector_max_size c |}, m)
      end
  end.

(** ** Content codings *)

Inductive ContentCoding := Gzip | Deflate | Brotli.

Inductive ContentCodingPlan :=
| DecodePlan (codings : list ContentCoding)
| LeaveEncoded.

Definition supported_content_coding (coding : string) : option ContentCoding :=
  if String.eqb coding "gzip" || String.eqb coding "x-gzip" then Some Gzip
  else if String.eqb coding "deflate" then Some Deflate
  else if String.eqb coding "br" then Some Brotli
  else None.

(** The codings of one header value appended to [codings]; [None] leaves the body
    encoded. *)
Fixpoint add_codings (items : list string) (codings : list ContentCoding) :
    option (list ContentCoding) :=
  match items with
  | [] => Some codings
  | item :: rest =>
      let coding := to_ascii_lowercase (trim item) in
      if is_empty coding || String.eqb coding "identity" then add_codings rest codings
      else
        supported ← supported_content_coding coding;
        add_codings rest (codings ++ [supported])
  end.

Fixpoint add_values `{HttpCrate} (values : list HeaderValue) (codings : list ContentCoding) :
    option (list ContentCoding) :=
  match values with
  | [] => Some codings
  | value :: rest =>
      value ← header_value_to_str value;
      codings ← add_codings (split ","%char value) codings;
      add_values rest codings
  end.

Definition content_coding_plan `{HttpCrate} (headers : HeaderMap) : ContentCodingPlan :=
  match add_values (header_map_get_all headers "content-encoding") [] with
  | None | Some [] => LeaveEncoded
  | Some codings => DecodePlan codings
  end.

Definition decoded_body_header (name : string) : bool :=
  eq_ignore_ascii_case name CONTENT_ENCODING_HEADER
  || eq_ignore_ascii_case name CONTENT_LENGTH_HEADER.

Definition decoded_response_headers (headers : HeaderPairs) (decoded : bool) : HeaderPairs :=
  if negb decoded then headers
  else filter (fun h => decoded_body_header (fst h) = false) headers.

(** ** Decoding *)

Inductive DecodeAttemptError :=
| Read (source : IoError)
| Runtime (error : ResponseBodyError).

Definition content_coding_name (coding : ContentCoding) : string :=
  match coding with Gzip => "gzip" | Deflate => "deflate" | Brotli => "br" end.

Definition decode_attempt_error (coding : ContentCoding) (err : DecodeAttemptError) :
    ResponseBodyError :=
  match err with
  | Read source => Decode (content_coding_name coding) source
  | Runtime err => err
  end.

(** Give back what the attempt reserved, then fail with [err]. *)
Definition abandon_attempt (attempt_reserved : Z) (err : DecodeAttemptError)
    (r : BufferedBodyReservation) (m : Metrics) :
    result (list Z) DecodeAttemptError * BufferedBodyReservation * Metrics :=
  match release_chunk attempt_reserved r m with
  | (Err release_error, r, m) => (Err (Runtime release_error), r, m)
  | (Ok _, r, m) => (Err err, r, m)
  end.

(** [decode_reader_result]: the loop over the reads of the decoder. *)
Fixpoint decode_loop (reads : list (result (list Z) IoError)) (decoded : list Z)
    (attempt_reserved : Z) (max_response_body_size : option Z)
    (r : BufferedBodyReservation) (m : Metrics) :
    result (list Z) DecodeAttemptError * BufferedBodyReservation * Metrics :=
  match reads with
  | [] => (Ok decoded, r, m)
  | Err err :: _ => abandon_attempt attempt_reserved (Read err) r m
  | Ok chunk :: rest =>
      let read := byte_len chunk in
      if read =? 0 then (Ok decoded, r, m)
      else match enforce_response_body_limit (byte_len decoded) read max_response_body_size with
      | Err err => abandon_attempt attempt_reserved (Runtime err) r m
      | Ok _ =>
          match reserve_chunk read r m with
          | (Err err, r, m) => abandon_attempt attempt_reserved (Runtime err) r m
          | (Ok _, r, m) =>
              let_some next_attempt_reserved := checked_add attempt_reserved read
                else abandon_attempt attempt_reserved (Runtime DecodeReservationOverflow) r m in
              decode_loop rest (decoded ++ chunk) next_attempt_reserved
                max_response_body_size r m
          end
      end
  end.

Definition decode_reader_result (decoder : Decoder) (content : list Z) :=
  decode_loop (decoder_reads decoder content) [] 0.

Definition decode_reader (coding : ContentCoding) (decoder : Decoder) (content : list Z)
    (max_response_body_size : option Z) (r : BufferedBodyReservation) (m : Metrics) :
    result (list Z) ResponseBodyError * BufferedBodyReservation * Metrics :=
  let '(result, r, m) := decode_reader_result decoder content max_response_body_size r m in
  (map_err (decode_attempt_error coding) result, r, m).

Definition decode_deflate (content : list Z) (max_response_body_size : option Z)
    (r : BufferedBodyReservation) (m : Metrics) :
    result (list Z) ResponseBodyError * BufferedBodyReservation * Metrics :=
  match decode_reader_result ZlibDecoder content max_response_body_size r m with
  | (Ok decoded, r, m) => (Ok decoded, r, m)
  | (Err (Read _), r, m) =>
      decode_reader Deflate DeflateDecoder content max_response_body_size r m
  | (Err (Runtime err), r, m) => (Err err, r, m)
  end.

Definition decode_content_coding (coding : ContentCoding) (content : list Z)
    (max_response_body_size : option Z) (r : BufferedBodyReservation) (m : Metrics) :
    result (list Z) ResponseBodyError * BufferedBodyReservation * Metrics :=
  match coding with
  | Gzip => decode_reader coding MultiGzDecoder content max_response_body_size r m
  | Deflate => decode_deflate content max_response_body_size r m
  | Brotli => decode_reader coding BrotliDecompressor content max_response_body_size r m
  end.

Record ResponseBody := {
  body_content : list Z;
  body_reservation : BufferedBodyReservation;
  body_decoded : bool;
}.

(** The loop of [decode_supported_body] over the codings, outermost first. *)
Fixpoint decode_codings (codings : list ContentCoding) (content : list Z)
    (max_response_body_size : option Z) (r : BufferedBodyReservation) (m : Metrics) :
    result (list Z) ResponseBodyError * BufferedBodyReservation * Metrics :=
  match codings with
  | [] => (Ok content, r, m)
  | coding :: rest =>
      let encoded_size := byte_len content in
      match decode_content_coding coding content max_response_body_size r m with
      | (Err e, r, m) => (Err e, r, m)
      | (Ok content, r, m) =>
          match release_chunk encoded_size r m with
          | (Err e, r, m) => (Err e, r, m)
          | (Ok _, r, m) => decode_codings rest content max_response_body_size r m
          end
      end
  end.

(** On an error the body is dropped, and its reservation with it. *)
Definition decode_supported_body (body : CollectedBody) (codings : list ContentCoding)
    (max_response_body_size : option Z) (m : Metrics) :
    result ResponseBody ResponseBodyError * Metrics :=
  match decode_codings (rev codings) (content body) max_response_body_size (reservation body) m with
  | (Ok content, r, m) =>
      (Ok {| body_content := content; body_reservation := r; body_decoded := true |}, m)
  | (Err e, r, m) => (Err e, drop_reservation r m)
  end.

Definition decode_body (body : CollectedBody) (plan : ContentCodingPlan)
    (max_response_body_size : option Z) (m : Metrics) :
    result ResponseBody ResponseBodyError * Metrics :=
  match plan with
  | DecodePlan codings => decode_supported_body body codings max_response_body_size m
  | LeaveEncoded =>
      (Ok {| body_content := content body; body_reservation := reservation body;
             body_decoded := false |}, m)
  end.

(** ** Accounting *)

(** The reservation's share of the counter, the rest of which is [base]. *)
Record holds (base : Z) (r : BufferedBodyReservation) (m : Metrics) : Prop := {
  holds_base : 0 <= base;
  holds_reserved : 0 <= reserved_bytes r;
  holds_counter : buffered_response_bytes m = base + reserved_bytes r;
  holds_range : buffered_response_bytes m <= USIZE_MAX;
}.

Lemma release_bytes_counter n m :
  0 <= n <= buffered_response_bytes m ->
  buffered_response_bytes (release_bytes n m) = buffered_response_bytes m - n.
Proof.
  intros Hn. unfold release_bytes, exec, release_buffered_response_bytes.
  destruct (Z.eqb_spec n 0) as [->|]; [cbn; lia|]. cbn.
  unfold Metrics.release_attempt, run_attempt, checked_sub.
  destruct (Z.leb_spec n (buffered_response_bytes m)); [cbn; lia | lia].
Qed.

Lemma reserve_bytes_counter b n m :
  0 <= n -> buffered_response_bytes m <= USIZE_MAX ->
  match reserve_bytes b n m with
  | (Ok _, m') => buffered_response_bytes m' = buffered_response_bytes m + n /\
      buffered_response_bytes m' <= USIZE_MAX /\
      (0 < n -> forall limit, max_buffered_response_bytes b = Some limit ->
        buffered_response_bytes m' <= limit)
  | (Err e, m') => buffered_response_bytes m' = buffered_response_bytes m /\
      (e = ResponseCounterOverflow \/ exists limit, e = BudgetExceeded limit)
  end.
Proof.
  intros Hn Hm. unfold reserve_bytes, reserve_buffered_response_bytes.
  destruct (Z.eqb_spec n 0) as [->|Hne]; [cbn; split_and!; lia|]. cbn.
  unfold Metrics.reserve_attempt, run_attempt, checked_add.
  destruct (Z.leb_spec (buffered_response_bytes m + n) USIZE_MAX); cbn; [|by split; [|left]].
  destruct (max_buffered_response_bytes b) as [limit|].
  - destruct (Z.ltb_spec limit (buffered_response_bytes m + n)); cbn; [split; [done|eauto]|].
    split_and!; [done | done |]. by intros _ ? [= <-].
  - cbn. done.
Qed.

Lemma reserve_chunk_spec base n r m :
  0 <= n -> holds base r m ->
  match reserve_chunk n r m with
  | (Ok _, r', m') => holds base r' m' /\ budget r' = budget r /\
      reserved_bytes r' = reserved_bytes r + n /\
      (0 < n -> forall limit, max_buffered_response_bytes (budget r) = Some limit ->
        buffered_response_bytes m' <= limit)
  | (Err e, r', m') => r' = r /\ holds base r m' /\
      (e = ResponseCounterOverflow \/ exists limit, e = BudgetExceeded limit)
      \/ base + reserved_bytes r + n > USIZE_MAX /\ r' = r /\ m' = m /\ e = ReservationOverflow
  end.
Proof.
  intros Hn [Hb Hr Hc Hx]. unfold reserve_chunk.
  destruct (checked_add (reserved_bytes r) n) as [next|] eqn:Hadd.
  - apply checked_add_Some in Hadd as [-> Hle].
    pose proof (reserve_bytes_counter (budget r) n m Hn Hx) as Hres.
    destruct (reserve_bytes (budget r) n m) as [[[]|e] m'].
    + destruct Hres as (Hc' & Hx' & Hl). split_and!; try done. by split; cbn; lia.
    + left. destruct Hres as [Hc' He]. split_and!; [done | split; lia | done].
  - right. apply checked_add_None in Hadd. split_and!; [lia | done..].
Qed.

Lemma release_chunk_spec base n r m :
  0 <= n <= reserved_bytes r -> holds base r m ->
  exists r' m', release_chunk n r m = (Ok tt, r', m') /\ holds base r' m' /\
    budget r' = budget r /\ reserved_bytes r' = reserved_bytes r - n.
Proof.
  intros Hn [Hb Hr Hc Hx]. unfold release_chunk. destruct (Z.eqb_spec n 0) as [->|].
  - exists r, m. split_and!; [done | by split | done | lia].
  - unfold checked_sub. destruct (Z.leb_spec n (reserved_bytes r)); [|lia].
    eexists _, _. split_and!; [done | | done | done].
    pose proof (release_bytes_counter n m). split; cbn; lia.
Qed.

Lemma drop_reservation_counter base r m :
  holds base r m -> buffered_response_bytes (drop_reservation r m) = base.
Proof.
  intros [Hb Hr Hc Hx]. unfold drop_reservation. rewrite release_bytes_counter; lia.
Qed.

(** ** Decoding keeps the accounts *)

(** Errors of the environment and of the limits; the internal accounting errors are
    not among them. *)
Definition external_error (e : ResponseBodyError) : Prop :=
  match e with
  | ReservationUnderflow | DecodeReservationOverflow => False
  | _ => True
  end.

Definition external_attempt (e : DecodeAttemptError) : Prop :=
  match e with Read _ => True | Runtime e => external_error e end.

Definition within (max : option Z) (n : Z) : Prop := forall limit, max = Some limit -> n <= limit.

Lemma byte_len_nonneg l : 0 <= byte_len l.
Proof. unfold byte_len. lia. Qed.

Lemma byte_len_app a b : byte_len (a ++ b) = byte_len a + byte_len b.
Proof. unfold byte_len. rewrite length_app. lia. Qed.

Lemma enforce_response_body_limit_Ok a b max :
  enforce_response_body_limit a b max = Ok tt -> within max (a + b).
Proof.
  unfold enforce_response_body_limit, within. destruct max as [limit|]; [|done].
  destruct (checked_add a b) as [next|] eqn:Ha; [|done].
  apply checked_add_Some in Ha as [-> _]. destruct (Z.ltb_spec limit (a + b)); [done|].
  by intros _ ? [= <-].
Qed.

Lemma enforce_response_body_limit_Err a b max e :
  enforce_response_body_limit a b max = Err e -> external_error e.
Proof. unfold enforce_response_body_limit. repeat case_match; intros [= <-]; done. Qed.

(** What an attempt over a content leaves: the bytes reserved before it ([kept])
    plus the decoded ones, or just [kept] when it fails. *)
Definition attempt_post {E} (ok : E -> Prop) (base kept : Z) (max : option Z)
    (b : BufferedBodyBudget)
    (out : result (list Z) E * BufferedBodyReservation * Metrics) : Prop :=
  match out with
  | (Ok decoded, r, m) => holds base r m /\ budget r = b /\
      reserved_bytes r = kept + byte_len decoded /\ within max (byte_len decoded)
  | (Err e, r, m) => holds base r m /\ budget r = b /\ reserved_bytes r = kept /\ ok e
  end.

Lemma abandon_attempt_spec base kept attempt err r m max :
  holds base r m -> 0 <= kept -> 0 <= attempt -> reserved_bytes r = kept + attempt -> external_attempt err ->
  attempt_post external_attempt base kept max (budget r) (abandon_attempt attempt err r m).
Proof.
  intros Hh Hk Ha Hr He. unfold abandon_attempt.
  destruct (release_chunk_spec base attempt r m) as (r' & m' & -> & Hh' & Hb & Hr'); [lia | done |].
  cbn. split_and!; [done | done | lia | done].
Qed.

Lemma decode_loop_spec reads decoded max base kept r m :
  holds base r m -> 0 <= kept -> reserved_bytes r = kept + byte_len decoded ->
  within max (byte_len decoded) ->
  attempt_post external_attempt base kept max (budget r)
    (decode_loop reads decoded (byte_len decoded) max r m).
Proof.
  revert decoded r m; induction reads as [|[chunk|err] reads IH]; intros decoded r m Hh Hk Hr Hmax;
    cbn [decode_loop].
  - by split_and!.
  - pose proof (byte_len_nonneg decoded). pose proof (byte_len_nonneg chunk).
    destruct (Z.eqb_spec (byte_len chunk) 0); [by split_and!|].
    destruct (enforce_response_body_limit _ _ max) as [[]|e] eqn:Hlim;
      [|apply abandon_attempt_spec; try done; by apply enforce_response_body_limit_Err in Hlim].
    apply enforce_response_body_limit_Ok in Hlim.
    pose proof (reserve_chunk_spec base (byte_len chunk) r m ltac:(done) Hh) as Hres.
    destruct (reserve_chunk (byte_len chunk) r m) as [[[[]|e] r'] m'].
    + destruct Hres as (Hh' & Hb & Hr' & _). rewrite <- Hb.
      destruct (checked_add (byte_len decoded) (byte_len chunk)) as [next|] eqn:Hadd.
      * apply checked_add_Some in Hadd as [-> _]. rewrite <- byte_len_app.
        apply IH; [done | done | rewrite byte_len_app; lia | by rewrite byte_len_app].
      * exfalso. apply checked_add_None in Hadd. destruct Hh' as [? ? Hc Hx]. lia.
    + destruct Hres as [(-> & Hh' & He)|(_ & -> & -> & ->)]; apply abandon_attempt_spec; try done.
      cbn. destruct He as [->|[? ->]]; done.
  - apply abandon_attempt_spec; try done. apply byte_len_nonneg.
Qed.

Lemma decode_reader_result_spec decoder content max base r m :
  holds base r m -> within max 0 ->
  attempt_post external_attempt base (reserved_bytes r) max (budget r)
    (decode_reader_result decoder content max r m).
Proof.
  intros Hh Hw. unfold decode_reader_result.
  apply (decode_loop_spec _ [] max base (reserved_bytes r)); [done | apply Hh | unfold byte_len; cbn; lia | done].
Qed.

Lemma decode_reader_spec coding decoder content max base r m :
  holds base r m -> within max 0 ->
  attempt_post external_error base (reserved_bytes r) max (budget r)
    (decode_reader coding decoder content max r m).
Proof.
  intros Hh Hw. unfold decode_reader.
  pose proof (decode_reader_result_spec decoder content max base r m Hh Hw) as Hl.
  destruct (decode_reader_result decoder content max r m) as [[[d|[e|e]] r'] m']; [done| |];
    destruct Hl as (? & ? & ? & ?); by split_and!.
Qed.

Lemma decode_content_coding_spec coding content max base r m :
  holds base r m -> within max 0 ->
  attempt_post external_error base (reserved_bytes r) max (budget r)
    (decode_content_coding coding content max r m).
Proof.
  intros Hh Hw. destruct coding; cbn [decode_content_coding]; try by apply decode_reader_spec.
  unfold decode_deflate.
  pose proof (decode_reader_result_spec ZlibDecoder content max base r m Hh Hw) as Hz.
  destruct (decode_reader_result ZlibDecoder content max r m) as [[[d|[e|e]] r'] m']; [done| |].
  - destruct Hz as (Hh' & Hb & Hr & _). rewrite <- Hb, <- Hr. by apply decode_reader_spec.
  - destruct Hz as (? & ? & ? & ?). by split_and!.
Qed.

Lemma decode_codings_spec codings content max base r m :
  holds base r m -> within max 0 -> reserved_bytes r = byte_len content ->
  match decode_codings codings content max r m with
  | (Ok out, r', m') => holds base r' m' /\ budget r' = budget r /\
      reserved_bytes r' = byte_len out /\ (codings <> [] -> within max (byte_len out))
  | (Err e, r', m') => holds base r' m' /\ external_error e
  end.
Proof.
  revert content r m; induction codings as [|coding codings IH]; intros content r m Hh Hw Hr;
    cbn [decode_codings]; [by split_and!|].
  pose proof (decode_content_coding_spec coding content max base r m Hh Hw) as Hd.
  destruct (decode_content_coding coding content max r m) as [[[d|e] r1] m1];
    [|by destruct Hd as (? & ? & ? & ?)].
  destruct Hd as (Hh1 & Hb1 & Hr1 & Hd). pose proof (byte_len_nonneg content).
  pose proof (byte_len_nonneg d).
  destruct (release_chunk_spec base (byte_len content) r1 m1) as (r2 & m2 & -> & Hh2 & Hb2 & Hr2);
    [lia | done |].
  specialize (IH d r2 m2 Hh2 Hw ltac:(lia)).
  destruct (decode_codings codings d max r2 m2) as [[[out|e] r3] m3] eqn:Hc; [|done].
  destruct IH as (Hh3 & Hb3 & Hr3 & Hout). split_and!; [done | congruence | done |].
  intros _. destruct codings as [|c codings]; [|by apply Hout].
  cbn in Hc. injection Hc as <- <- <-. done.
Qed.

(** Decoding a response body keeps the client's byte budget exact.  A decoded
    body owns exactly as many reserved bytes as it has, every decoded body is within
    the response size limit, and on any error, however deep in the codings, all the
    bytes the response held are given back; the internal accounting errors never
    occur. *)
Theorem decode_body_accounting (body : CollectedBody) (plan : ContentCodingPlan)
    (max : option Z) (m : Metrics) (base : Z) :
  holds base (reservation body) m -> within max 0 ->
  reserved_bytes (reservation body) = byte_len (content body) ->
  match decode_body body plan max m with
  | (Ok out, m') =>
      holds base (body_reservation out) m' /\
      reserved_bytes (body_reservation out) = byte_len (body_content out) /\
      (forall codings, plan = DecodePlan codings -> codings <> [] ->
        within max (byte_len (body_content out))) /\
      (plan = LeaveEncoded -> body_content out = content body /\ m' = m)
  | (Err e, m') => buffered_response_bytes m' = base /\ external_error e
  end.
Proof.
  intros Hh Hw Hr. destruct plan as [codings|]; cbn [decode_body]; [|by split_and!].
  unfold decode_supported_body.
  pose proof (decode_codings_spec (rev codings) (content body) max base (reservation body) m Hh Hw Hr) as Hd.
  destruct (decode_codings _ _ _ _ _) as [[[out|e] r] m'].
  - destruct Hd as (Hh' & _ & Hr' & Hout). split_and!; try done.
    intros ? [= <-] Hne. apply Hout. intros Hrev. apply Hne.
    by rewrite <- (rev_involutive codings), Hrev.
  - destruct Hd as [Hh' He]. split; [by apply (drop_reservation_counter base) | done].
Qed.

(** ** Collecting *)

(** A collector never holds more than the response limit nor more reserved bytes
    than content: pushing a chunk either appends it and reserves its length, or
    leaves content and reservation as they were. *)
Theorem push_data_correct (data : list Z) (c : BufferedBodyCollector) (m : Metrics) (base : Z) :
  holds base (reservation (collected c)) m ->
  reserved_bytes (reservation (collected c)) = byte_len (content (collected c)) ->
  match push_data data c m with
  | (Ok _, c', m') =>
      content (collected c') = content (collected c) ++ data /\
      collector_max_size c' = collector_max_size c /\
      within (collector_max_size c) (byte_len (content (collected c'))) /\
      holds base (reservation (collected c')) m' /\
      reserved_bytes (reservation (collected c')) = byte_len (content (collected c'))
  | (Err e, c', m') =>
      c' = c /\ holds base (reservation (collected c')) m' /\ external_error e
  end.
Proof.
  intros Hh Hr. unfold push_data.
  destruct (enforce_response_body_limit _ _ _) as [[]|e] eqn:Hlim;
    [|by apply enforce_response_body_limit_Err in Hlim].
  apply enforce_response_body_limit_Ok in Hlim.
  pose proof (byte_len_nonneg data). pose proof (byte_len_nonneg (content (collected c))).
  pose proof (reserve_chunk_spec base (byte_len data) _ m ltac:(done) Hh) as Hres.
  destruct (reserve_chunk (byte_len data) _ m) as [[[[]|e] r] m'].
  - destruct Hres as (Hh' & _ & Hr' & _). cbn. rewrite byte_len_app. split_and!; try done. lia.
  - destruct c as [[ct rs] mx]; cbn in *.
    destruct Hres as [(-> & Hh' & [->|[? ->]])|(_ & -> & -> & ->)]; by split_and!.
Qed.

(** ** Concurrent responses *)

(** The client's metrics and the live reservations of its responses. *)
Inductive responses_step (b : BufferedBodyBudget) :
    Metrics * list BufferedBodyReservation -> Metrics * list BufferedBodyReservation -> Prop :=
| response_starts m rs : responses_step b (m, rs) (m, rs ++ [start_response b])
| response_reserves m rs i r n out r' m' :
    rs !! i = Some r -> 0 <= n -> reserve_chunk n r m = (out, r', m') ->
    responses_step b (m, rs) (m', <[i := r']> rs)
| response_releases m rs i r n out r' m' :
    rs !! i = Some r -> 0 <= n -> release_chunk n r m = (out, r', m') ->
    responses_step b (m, rs) (m', <[i := r']> rs)
| response_dropped m rs i r :
    rs !! i = Some r -> responses_step b (m, rs) (drop_reservation r m, delete i rs).

Definition total_reserved (rs : list BufferedBodyReservation) : Z :=
  fold_right (fun r acc => reserved_bytes r + acc) 0 rs.
#[local] Arguments total_reserved : simpl never.

Lemma total_reserved_insert rs i r r' :
  rs !! i = Some r ->
  total_reserved (<[i := r']> rs) = total_reserved rs - reserved_bytes r + reserved_bytes r'.
Proof.
  unfold total_reserved. revert i; induction rs as [|x rs IH]; intros [|i] Hi; csimpl; try done.
  - injection Hi as ->. lia.
  - rewrite (IH _ Hi). lia.
Qed.

Lemma total_reserved_delete rs i r :
  rs !! i = Some r -> total_reserved rs = reserved_bytes r + total_reserved (delete i rs).
Proof.
  unfold total_reserved. revert i; induction rs as [|x rs IH]; intros [|i] Hi; csimpl; try done.
  - by injection Hi as ->.
  - rewrite (IH _ Hi). cbn. lia.
Qed.

Lemma total_reserved_app rs r : total_reserved (rs ++ [r]) = total_reserved rs + reserved_bytes r.
Proof. unfold total_reserved. induction rs as [|x rs IH]; cbn in *; lia. Qed.

Lemma total_reserved_nonneg rs :
  Forall (fun r => 0 <= reserved_bytes r) rs -> 0 <= total_reserved rs.
Proof. unfold total_reserved. induction 1; cbn in *; lia. Qed.

Record responses_wf (b : BufferedBodyBudget) (s : Metrics * list BufferedBodyReservation) : Prop := {
  responses_counter : buffered_response_bytes (fst s) = total_reserved (snd s);
  responses_nonneg : Forall (fun r => 0 <= reserved_bytes r /\ budget r = b) (snd s);
  responses_range : buffered_response_bytes (fst s) <= USIZE_MAX;
  responses_limit : within (max_buffered_response_bytes b) (buffered_response_bytes (fst s));
}.

Lemma responses_holds b m rs i r :
  responses_wf b (m, rs) -> rs !! i = Some r ->
  holds (total_reserved (delete i rs)) r m /\ budget r = b.
Proof.
  intros [Hc Hn Hx _] Hi. cbn in *. destruct (Forall_lookup_1 _ _ _ _ Hn Hi) as [Hr Hb].
  split; [|done]. pose proof (total_reserved_delete _ _ _ Hi). split; [|done|lia|done].
  apply total_reserved_nonneg. eapply Forall_sublist; [apply sublist_delete|].
  eapply Forall_impl; [exact Hn|]. by intros ? [? _].
Qed.

Lemma responses_replace b m rs i r r' m' :
  responses_wf b (m, rs) -> rs !! i = Some r ->
  holds (total_reserved (delete i rs)) r' m' -> budget r' = b ->
  within (max_buffered_response_bytes b) (buffered_response_bytes m') ->
  responses_wf b (m', <[i := r']> rs).
Proof.
  intros [Hc Hn Hx Hl] Hi [Hb Hr Hc' Hx'] Hbud Hl'. cbn in *.
  pose proof (total_reserved_delete _ _ _ Hi). split; cbn.
  - rewrite (total_reserved_insert _ _ _ _ Hi). lia.
  - by apply Forall_insert.
  - done.
  - done.
Qed.

Lemma responses_step_wf b s s' : responses_step b s s' -> responses_wf b s -> responses_wf b s'.
Proof.
  destruct 1 as [m rs|m rs i r n out r' m' Hi Hn Hop|m rs i r n out r' m' Hi Hn Hop|m rs i r Hi];
    intros Hwf.
  - destruct Hwf as [Hc Hf Hx Hl]. split; cbn in *; try done.
    + rewrite total_reserved_app. cbn. lia.
    + apply Forall_app. split; [done|]. by apply Forall_singleton.
  - destruct (responses_holds _ _ _ _ _ Hwf Hi) as [Hh Hb].
    pose proof (reserve_chunk_spec _ n r m Hn Hh) as Hs. rewrite Hop in Hs.
    destruct out as [[]|e].
    + destruct Hs as (Hh' & Hb' & Hr' & Hlim). eapply responses_replace; [done | done | done | congruence |].
      intros limit Hlimit. destruct (decide (0 < n)).
      * apply Hlim; [lia | by rewrite Hb].
      * assert (buffered_response_bytes m' = buffered_response_bytes m) as ->
          by (destruct Hh as [_ _ Hc1 _], Hh' as [_ _ Hc2 _]; lia).
        by apply (responses_limit _ _ Hwf).
    + destruct Hs as [(-> & Hh' & _)|(_ & -> & -> & _)].
      * eapply responses_replace; [done | done | done | done |].
        assert (buffered_response_bytes m' = buffered_response_bytes m) as ->
          by (destruct Hh as [_ _ Hc1 _], Hh' as [_ _ Hc2 _]; lia).
        apply (responses_limit _ _ Hwf).
      * eapply responses_replace; [done | done | done | done | apply (responses_limit _ _ Hwf)].
  - destruct (responses_holds _ _ _ _ _ Hwf Hi) as [Hh Hb].
    destruct (decide (n <= reserved_bytes r)) as [Hle|Hgt].
    + destruct (release_chunk_spec _ n r m ltac:(lia) Hh) as (r2 & m2 & Heq & Hh' & Hb' & Hr').
      rewrite Heq in Hop. injection Hop as _ <- <-.
      eapply responses_replace; [done | done | done | congruence |].
      intros limit Hlimit. pose proof (responses_limit _ _ Hwf limit Hlimit) as Hl. cbn in Hl.
      destruct Hh as [_ _ Hc1 _], Hh' as [_ _ Hc2 _]. lia.
    + unfold release_chunk in Hop. destruct (Z.eqb_spec n 0); [destruct Hh; lia|].
      unfold checked_sub in Hop. destruct (Z.leb_spec n (reserved_bytes r)); [lia|].
      injection Hop as _ <- <-.
      eapply responses_replace; [done | done | done | done | apply (responses_limit _ _ Hwf)].
  - destruct (responses_holds _ _ _ _ _ Hwf Hi) as [Hh Hb].
    pose proof (drop_reservation_counter _ _ _ Hh) as Hd.
    destruct Hwf as [Hc Hf Hx Hl]. cbn in *. pose proof (total_reserved_delete _ _ _ Hi).
    destruct Hh as [? ? ? ?]. split; cbn.
    + done.
    + eapply Forall_sublist; [apply sublist_delete | done].
    + lia.
    + intros limit Hlimit. specialize (Hl limit Hlimit). lia.
Qed.

(** C34: For any number of concurrent responses, whatever the order in which they
    reserve, release and are dropped, the client's buffered byte counter is the sum
    of what its live responses have reserved and never exceeds the configured limit;
    once every response is dropped it is zero, so no byte is ever leaked. *)
Theorem responses_exact (b : BufferedBodyBudget) (m m' : Metrics)
    (rs : list BufferedBodyReservation) :
  buffered_response_bytes m = 0 -> within (max_buffered_response_bytes b) 0 ->
  rtc (responses_step b) (m, []) (m', rs) ->
  buffered_response_bytes m' = total_reserved rs /\
  within (max_buffered_response_bytes b) (buffered_response_bytes m') /\
  (rs = [] -> buffered_response_bytes m' = 0).
Proof.
  intros Hm Hw Hs.
  assert (H0 : responses_wf b (m, [])) by (split; cbn; rewrite ?Hm; done).
  assert (Hwf : responses_wf b (m', rs)).
  { revert H0. induction Hs as [|s1 s2 s3 H12 _ IH]; [done|].
    intros Hwf. by apply IH, (responses_step_wf _ _ _ H12). }
  destruct Hwf as [Hc _ _ Hl]. split_and!; [done | done |]. intros ->. done.
Qed.

(** ** Decoding inverts encoding *)

(** The decoder of a coding, and what it means for [encode] to be its encoder: the
    reads of the decoder over [encode x] deliver [x] in non-empty chunks. *)
Definition primary_decoder (coding : ContentCoding) : Decoder :=
  match coding with
  | Gzip => MultiGzDecoder | Deflate => ZlibDecoder | Brotli => BrotliDecompressor
  end.

Definition encoder_of (encode : ContentCoding -> list Z -> list Z) : Prop :=
  forall coding x, exists chunks,
    decoder_reads (primary_decoder coding) (encode coding x) = Ok <$> chunks /\
    concat chunks = x /\ Forall (fun c => c <> []) chunks.

Definition unlimited : BufferedBodyBudget := {| max_buffered_response_bytes := None |}.

Lemma reserve_chunk_unlimited base n r m :
  budget r = unlimited -> 0 <= n -> holds base r m ->
  buffered_response_bytes m + n <= USIZE_MAX ->
  exists r' m', reserve_chunk n r m = (Ok tt, r', m') /\ holds base r' m' /\
    budget r' = unlimited /\ reserved_bytes r' = reserved_bytes r + n.
Proof.
  intros Hb Hn Hh Hx. pose proof (reserve_chunk_spec base n r m Hn Hh) as Hs.
  destruct (reserve_chunk n r m) as [[[[]|e] r'] m'] eqn:Heq.
  - destruct Hs as (? & ? & ? & _). exists r', m'. split_and!; [done | done | congruence | done].
  - exfalso. revert Heq. unfold reserve_chunk, reserve_bytes. rewrite Hb.
    destruct Hh as [H1 H2 H3 H4]. unfold checked_add.
    destruct (Z.leb_spec (reserved_bytes r + n) USIZE_MAX); [|lia].
    unfold reserve_buffered_response_bytes. destruct (n =? 0); [done|]. cbn.
    unfold run_attempt, Metrics.reserve_attempt, checked_add.
    destruct (Z.leb_spec (buffered_response_bytes m + n) USIZE_MAX); [done | lia].
Qed.

Lemma decode_loop_total chunks decoded base r m :
  budget r = unlimited -> holds base r m -> Forall (fun c => c <> []) chunks ->
  byte_len decoded <= reserved_bytes r ->
  buffered_response_bytes m + byte_len (concat chunks) <= USIZE_MAX ->
  exists r' m', decode_loop (Ok <$> chunks) decoded (byte_len decoded) None r m =
      (Ok (decoded ++ concat chunks), r', m') /\ holds base r' m' /\ budget r' = unlimited /\
    reserved_bytes r' = reserved_bytes r + byte_len (concat chunks).
Proof.
  revert decoded r m; induction chunks as [|c chunks IH]; intros decoded r m Hb Hh Hne Hd Hx.
  - exists r, m. cbn. rewrite app_nil_r. split_and!; [done | done | done |]. unfold byte_len. cbn. lia.
  - inversion Hne as [|? ? Hc Hrest]; subst. cbn [fmap list_fmap decode_loop concat] in *.
    rewrite byte_len_app in Hx. pose proof (byte_len_nonneg c). pose proof (byte_len_nonneg (concat chunks)).
    destruct (Z.eqb_spec (byte_len c) 0) as [Hz|_].
    { destruct c; [done|]. unfold byte_len in Hz. cbn in Hz. lia. }
    cbn [enforce_response_body_limit].
    destruct (reserve_chunk_unlimited base (byte_len c) r m) as (r1 & m1 & -> & Hh1 & Hb1 & Hr1);
      [done | done | done | lia |].
    destruct Hh as [Q1 Q2 Q3 Q4]. destruct Hh1 as [P1 P2 P3 P4].
    unfold checked_add. destruct (Z.leb_spec (byte_len decoded + byte_len c) USIZE_MAX); [|lia].
    rewrite <- byte_len_app.
    destruct (IH (decoded ++ c) r1 m1) as (r2 & m2 & -> & Hh2 & Hb2 & Hr2);
      [done | done | done | rewrite byte_len_app; lia | lia |].
    exists r2, m2. rewrite <- app_assoc, byte_len_app. split_and!; [done | done | done | lia].
Qed.

Lemma decode_content_coding_total encode coding x base r m :
  encoder_of encode -> budget r = unlimited -> holds base r m ->
  buffered_response_bytes m + byte_len x <= USIZE_MAX ->
  exists r' m', decode_content_coding coding (encode coding x) None r m = (Ok x, r', m') /\
    holds base r' m' /\ budget r' = unlimited /\ reserved_bytes r' = reserved_bytes r + byte_len x.
Proof.
  intros He Hb Hh Hx. destruct (He coding x) as (chunks & Hreads & <- & Hne).
  destruct (decode_loop_total chunks [] base r m Hb Hh Hne) as (r' & m' & Hl & Hrest);
    [apply Hh | done |].
  exists r', m'. split; [|done].
  destruct coding; cbn [decode_content_coding primary_decoder] in *;
    unfold decode_deflate, decode_reader, decode_reader_result; rewrite Hreads;
    change 0 with (byte_len []); by rewrite Hl.
Qed.

(** Apply codings in header order, as a server does. *)
Definition encode_all (encode : ContentCoding -> list Z -> list Z) (codings : list ContentCoding)
    (x : list Z) : list Z :=
  fold_left (fun x coding => encode coding x) codings x.

(** C35: A body the server encoded with the listed codings, in order, is decoded to
    the original content, by undoing the codings in the opposite order, whenever
    nothing limits its size; the decoded body owns exactly its length. *)
Theorem decode_body_inverts_encoding (encode : ContentCoding -> list Z -> list Z)
    (codings : list ContentCoding) (x : list Z) (r : BufferedBodyReservation) (m : Metrics)
    (base bound : Z) :
  encoder_of encode ->
  (forall n, byte_len (encode_all encode (take n codings) x) <= bound) ->
  budget r = unlimited -> holds base r m ->
  reserved_bytes r = byte_len (encode_all encode codings x) -> base + 2 * bound <= USIZE_MAX ->
  exists r' m', decode_body {| content := encode_all encode codings x; reservation := r |}
      (DecodePlan codings) None m =
    (Ok {| body_content := x; body_reservation := r'; body_decoded := true |}, m') /\
    reserved_bytes r' = byte_len x.
Proof.
  intros He Hbound Hb Hh Hr Hmax. cbn [decode_body]. unfold decode_supported_body. cbn.
  assert (Hg : exists r' m', decode_codings (rev codings) (encode_all encode codings x) None r m =
      (Ok x, r', m') /\ reserved_bytes r' = byte_len x);
    [|destruct Hg as (r' & m' & -> & Hr'); by exists r', m'].
  revert r m Hb Hh Hr. induction codings as [|c codings IH] using rev_ind; intros r m Hb Hh Hr.
  - by exists r, m.
  - rewrite rev_app_distr. cbn [rev app decode_codings].
    assert (Hall : encode_all encode (codings ++ [c]) x = encode c (encode_all encode codings x))
      by (unfold encode_all; by rewrite fold_left_app).
    rewrite Hall in *.
    pose proof (Hbound (length codings)) as Hb1. rewrite take_app_length in Hb1.
    pose proof (Hbound (length (codings ++ [c]))) as Hb2. rewrite firstn_all, Hall in Hb2.
    destruct (decode_content_coding_total encode c (encode_all encode codings x) base r m He Hb Hh)
      as (r1 & m1 & -> & Hh1 & Hbu1 & Hr1); [destruct Hh; lia|].
    pose proof (byte_len_nonneg (encode c (encode_all encode codings x))).
    pose proof (byte_len_nonneg (encode_all encode codings x)).
    destruct (release_chunk_spec base (byte_len (encode c (encode_all encode codings x))) r1 m1)
      as (r2 & m2 & -> & Hh2 & Hbu2 & Hr2); [lia | done |].
    apply IH; [|congruence | done | lia].
    intros n. destruct (decide (n <= length codings)%nat) as [Hle|Hgt].
    + specialize (Hbound n). by rewrite take_app_le in Hbound by done.
    + rewrite firstn_all2 by lia. done.
Qed.

End body.

(** ** Witnesses *)

(** Decoders that store: the encoding of a content is the content, read at once. *)
Definition stored_decoders : ContentDecoders := {|
  IoError := string;
  io_error_display e := e;
  decoder_reads _ content := match content with [] => [] | _ => [Ok content] end;
|}.

#[local] Existing Instance Metrics.eta_Metrics.

Definition sample_budget : BufferedBodyBudget := {| max_buffered_response_bytes := Some 100 |}.
Definition sample_metrics (n : Z) : Metrics := Metrics.metrics_default <| buffered_response_bytes := n |>.
Definition sample_body : CollectedBody :=
  {| content := [1; 2; 3]; reservation := {| budget := sample_budget; reserved_bytes := 3 |} |}.

Lemma decode_body_accounting_witness :
  exists out m', decode_body (H := stored_decoders) sample_body (DecodePlan [Gzip]) (Some 10)
      (sample_metrics 7) = (Ok out, m') /\
    reserved_bytes (body_reservation out) = byte_len (body_content out).
Proof.
  assert (Hh : holds 4 (reservation sample_body) (sample_metrics 7)) by (split; cbn; unfold USIZE_MAX; lia).
  assert (Hw : within (Some 10) 0) by (intros limit [= <-]; lia).
  pose proof (decode_body_accounting (H := stored_decoders) sample_body (DecodePlan [Gzip]) (Some 10)
    (sample_metrics 7) 4 Hh Hw eq_refl) as Ht.
  destruct (decode_body (H := stored_decoders) sample_body (DecodePlan [Gzip]) (Some 10)
    (sample_metrics 7)) as [[out|e] m'] eqn:Hd.
  - exists out, m'. split; [reflexivity|]. exact (proj1 (proj2 Ht)).
  - vm_compute in Hd. discriminate Hd.
Defined.

Lemma push_data_correct_witness :
  let c := {| collected := sample_body; collector_max_size := Some 5 |} in
  exists c' m', push_data (H := stored_decoders) [9] c (sample_metrics 7) = (Ok tt, c', m') /\
    content (collected c') = [1; 2; 3; 9].
Proof.
  intros c.
  assert (Hh : holds 4 (reservation (collected c)) (sample_metrics 7)) by (split; cbn; unfold USIZE_MAX; lia).
  pose proof (push_data_correct (H := stored_decoders) [9] c (sample_metrics 7) 4 Hh eq_refl) as Ht.
  destruct (push_data (H := stored_decoders) [9] c (sample_metrics 7)) as [[[[]|e] c'] m'] eqn:Hp.
  - exists c', m'. split; [reflexivity|]. exact (proj1 Ht).
  - vm_compute in Hp. discriminate Hp.
Defined.

Lemma responses_exact_witness :
  rtc (responses_step (H := stored_decoders) sample_budget) (sample_metrics 0, [])
    (sample_metrics 0, [start_response sample_budget]) /\
  buffered_response_bytes (sample_metrics 0) = total_reserved [start_response sample_budget].
Proof.
  assert (Hs : rtc (responses_step (H := stored_decoders) sample_budget) (sample_metrics 0, [])
    (sample_metrics 0, [start_response sample_budget])) by (apply rtc_once; apply response_starts).
  split; [exact Hs|].
  refine (proj1 (responses_exact (H := stored_decoders) sample_budget _ _ _ _ _ Hs)); [reflexivity|].
  intros limit [= <-]. lia.
Defined.

Lemma decode_body_inverts_encoding_witness :
  let r := {| budget := unlimited; reserved_bytes := 2 |} in
  exists r' m', decode_body (H := stored_decoders) {| content := [5; 6]; reservation := r |}
      (DecodePlan [Gzip; Brotli]) None (sample_metrics 2) =
    (Ok {| body_content := [5; 6]; body_reservation := r'; body_decoded := true |}, m')
    /\ reserved_bytes r' = 2.
Proof.
  intros r.
  assert (He : encoder_of (H := stored_decoders) (fun _ x => x)).
  { intros coding [|b x]; [exists [] | exists [b :: x]]; cbn; split_and!; try done.
    - by rewrite app_nil_r.
    - by repeat constructor. }
  assert (Hall : forall codings, encode_all (fun _ x => x) codings [5; 6] = [5; 6]).
  { unfold encode_all. induction codings; cbn; done. }
  refine (decode_body_inverts_encoding (H := stored_decoders) (fun _ x => x) [Gzip; Brotli] [5; 6]
           r (sample_metrics 2) 0 2 He _ eq_refl _ _ _).
  - intros n. rewrite Hall. unfold byte_len. cbn. lia.
  - split; cbn; unfold USIZE_MAX; lia.
  - reflexivity.
  - unfold USIZE_MAX. lia.
Defined.
