(* ===== verification/Streaming.v ===== *)
(** * Streaming content decoding

    [src/src/core/response/streaming/{mod,codec,gzip,error}.rs]: a chain of content
    decoders driven one codec call at a time.  The codecs of [flate2] and [brotli]
    are parameters: what one call consumes and writes into an output buffer of a
    given capacity ([CodecLaws] states that it stays within its buffers).  The
    theorems show that no byte is lost or duplicated between the layers, that the
    size limit holds for every layer, and that errors are final. *)

From stdpp Require Import pretty.
From Stdlib Require Import Ascii.
From S2P Require Import Prelude RustStr Http Body.

Local Open Scope Z_scope.

(** [io::Error] as far as the decoder uses it. *)
Inductive IoErrorKind := InvalidData | UnexpectedEof | WouldBlock | OtherKind.
#[export] Instance IoErrorKind_eq_dec : EqDecision IoErrorKind.
Proof. solve_decision. Defined.
Record io_error := { kind : IoErrorKind; reason : string }.

Inductive FlateStatus := FlateOk | FlateBufError | FlateStreamEnd.
Inductive BrotliResult := ResultSuccess | ResultFailure | NeedsMoreInput | NeedsMoreOutput.

(** One call of a codec: given its state, the offered input and the capacity of the
    output buffer, its result, the input bytes consumed, the bytes written and the
    next state. *)
Class StreamCodecs := {
  Decompress : Type;
  decompress_new : Decompress;
  decompress : Decompress -> list Z -> Z -> result FlateStatus string * nat * list Z * Decompress;
  BrotliState : Type;
  brotli_new : BrotliState;
  brotli_decompress_stream : BrotliState -> list Z -> Z -> BrotliResult * nat * list Z * BrotliState;
  (** [flate2::write::MultiGzDecoder] over a sink that accepts a given number of
      bytes and then blocks: [write] returns the input accepted. *)
  MultiGz : Type;
  multi_gz_new : MultiGz;
  gz_write : MultiGz -> list Z -> Z -> result nat io_error * list Z * MultiGz;
  gz_flush : MultiGz -> Z -> result unit io_error * list Z * MultiGz;
  gz_try_finish : MultiGz -> Z -> result unit io_error * list Z * MultiGz;
}.

Definition INPUT_SIZE : Z := 8 * 1024.
Definition OUTPUT_SIZE : Z := 64 * 1024.
Definition MAX_LAYERS : nat := 4.
Definition INFLATE_RESERVATION : Z := 1024 * 1024.
Definition BROTLI_RESERVATION : Z := 32 * 1024 * 1024.

(** ** Codings and the plan *)

Inductive Coding := StreamGzip | StreamDeflate | StreamBrotli.

Definition coding_name (c : Coding) : string :=
  match c with StreamGzip => "gzip" | StreamDeflate => "deflate" | StreamBrotli => "br" end.

Definition coding_reservation (c : Coding) : Z :=
  match c with StreamGzip | StreamDeflate => INFLATE_RESERVATION | StreamBrotli => BROTLI_RESERVATION end.

Inductive StreamDecodeError :=
| InvalidContentEncoding
| UnsupportedCoding
| TooManyLayers
| StreamTooLarge (coding : string) (layer : nat) (limit : Z)
| StreamCounterOverflow
| StreamDecode (coding : string) (layer : nat) (source : io_error).

Definition stream_decode_error (coding : string) (layer : nat) (reason : string) : StreamDecodeError :=
  StreamDecode coding layer {| kind := InvalidData; reason := reason |}.

Definition display_stream_decode_error (e : StreamDecodeError) : string :=
  match e with
  | InvalidContentEncoding => "invalid streaming content-encoding syntax"
  | UnsupportedCoding => "unsupported streaming content coding"
  | TooManyLayers => "streaming content coding exceeds four layers"
  | StreamTooLarge coding layer limit =>
      "streaming " ++ coding ++ " layer " ++ pretty layer ++ " exceeds decoded byte limit "
      ++ pretty limit
  | StreamCounterOverflow => "streaming response byte counter overflow"
  | StreamDecode coding layer source =>
      "failed to decode streaming " ++ coding ++ " layer " ++ pretty layer ++ ": "
      ++ reason source
  end.

Record StreamingDecodePlan := { codings : list Coding }.

Definition is_token_byte (c : ascii) : bool :=
  is_ascii_alphanumeric c || string_exists (Ascii.eqb c) "!#$%&'*+-.^_`|~".

Definition stream_coding (item : string) : option Coding :=
  if eq_ignore_ascii_case item "gzip" || eq_ignore_ascii_case item "x-gzip" then Some StreamGzip
  else if eq_ignore_ascii_case item "deflate" then Some StreamDeflate
  else if eq_ignore_ascii_case item "br" then Some StreamBrotli
  else None.

Fixpoint plan_items (items : list string) (codings : list Coding) :
    result (list Coding) StreamDecodeError :=
  match items with
  | [] => Ok codings
  | item :: rest =>
      let item := trim_space_tab item in
      if is_empty item || eq_ignore_ascii_case item "identity" then plan_items rest codings
      else if negb (string_forall is_token_byte item) then Err InvalidContentEncoding
      else
        let_some coding := stream_coding item else Err UnsupportedCoding in
        if (length codings =? MAX_LAYERS)%nat then Err TooManyLayers
        else plan_items rest (codings ++ [coding])
  end.

Fixpoint plan_values `{HttpCrate} (values : list HeaderValue) (codings : list Coding) :
    result (list Coding) StreamDecodeError :=
  match values with
  | [] => Ok codings
  | value :: rest =>
      let_some value := header_value_to_str value else Err InvalidContentEncoding in
      let? codings := plan_items (split ","%char value) codings in
      plan_values rest codings
  end.

Definition plan_from_headers `{HttpCrate} (headers : HeaderMap) :
    result StreamingDecodePlan StreamDecodeError :=
  let? codings := plan_values (header_map_get_all headers "content-encoding") [] in
  Ok {| codings := rev codings |}.

Definition is_encoded (p : StreamingDecodePlan) : bool :=
  negb (match codings p with [] => true | _ => false end).

Definition reservation_bytes (p : StreamingDecodePlan) : Z :=
  fold_right (fun c acc => coding_reservation c + acc) 0 (codings p)
  + (Z.of_nat (length (codings p)) + 2) * OUTPUT_SIZE.

(** ** Codecs *)

Inductive CodecStatus := CodecNeedsInput | CodecProgress | CodecEnded.

(** [produced] is the bytes written, of which the code returns the count. *)
Record CodecStep := { step_consumed : nat; step_produced : list Z; step_status : CodecStatus }.

Definition invalid (reason : string) : io_error := {| kind := InvalidData; reason := reason |}.
Definition truncated : io_error :=
  {| kind := UnexpectedEof; reason := "truncated content coding" |}.

Section codec.
Context `{StreamCodecs}.

Record GzipCodec := { decoder : MultiGz; flush_pending : bool }.

Inductive Codec :=
| CodecGzip (c : GzipCodec)
| CodecDeflate (c : Decompress)
| CodecBrotli (c : BrotliState).

Definition codec_new (c : Coding) : Codec :=
  match c with
  | StreamGzip => CodecGzip {| decoder := multi_gz_new; flush_pending := false |}
  | StreamDeflate => CodecDeflate decompress_new
  | StreamBrotli => CodecBrotli brotli_new
  end.

(** The library operation [Gzip::step] invokes, with the outcome it maps it to and
    the next value of [flush_pending]. *)
Definition gzip_operation (c : GzipCodec) (input : list Z) (eof : bool) (capacity : Z) :
    result (nat * CodecStatus) io_error * list Z * MultiGz * bool :=
  if flush_pending c then
    match gz_flush (decoder c) capacity with
    | (Ok _, produced, d) => (Ok (0%nat, CodecNeedsInput), produced, d, false)
    | (Err e, produced, d) => (Err e, produced, d, true)
    end
  else
    match input with
    | [] =>
        if eof then
          match gz_try_finish (decoder c) capacity with
          | (Ok _, produced, d) => (Ok (0%nat, CodecEnded), produced, d, false)
          | (Err e, produced, d) => (Err e, produced, d, false)
          end
        else (Ok (0%nat, CodecNeedsInput), [], decoder c, false)
    | _ =>
        match gz_write (decoder c) input capacity with
        | (Ok consumed, produced, d) => (Ok (consumed, CodecProgress), produced, d, true)
        | (Err e, produced, d) => (Err e, produced, d, false)
        end
    end.

Definition gzip_step (c : GzipCodec) (input : list Z) (eof : bool) (capacity : Z) :
    result CodecStep io_error * GzipCodec :=
  let '(result, produced, d, pending) := gzip_operation c input eof capacity in
  let finish consumed status pending :=
    let c := {| decoder := d; flush_pending := pending |} in
    if (consumed =? 0)%nat && (length produced =? 0)%nat
       && (match status with CodecProgress => true | _ => false end)
    then (Err (invalid "gzip decoder made no progress"), c)
    else (Ok {| step_consumed := consumed; step_produced := produced; step_status := status |}, c) in
  match result with
  | Ok (consumed, status) => finish consumed status pending
  | Err error =>
      if bool_decide (kind error = WouldBlock) then finish 0%nat CodecProgress true
      else (Err error, {| decoder := d; flush_pending := pending |})
  end.

Definition codec_step (c : Codec) (input : list Z) (eof : bool) (capacity : Z) :
    result CodecStep io_error * Codec :=
  match c with
  | CodecGzip c => let (r, c) := gzip_step c input eof capacity in (r, CodecGzip c)
  | CodecDeflate c =>
      let '(result, consumed, produced, c) := decompress c input capacity in
      (let? result := map_err invalid result in
       let step status :=
         {| step_consumed := consumed; step_produced := produced; step_status := status |} in
       match result with
       | FlateStreamEnd => Ok (step CodecEnded)
       | _ =>
           if negb (length produced =? 0)%nat
              || (negb (consumed =? 0)%nat && (consumed <? length input)%nat)
           then Ok (step CodecProgress)
           else if (consumed =? length input)%nat then
             if eof then Err truncated else Ok (step CodecNeedsInput)
           else Err (invalid "decoder made no progress")
       end, CodecDeflate c)
  | CodecBrotli c =>
      let '(result, consumed, produced, c) := brotli_decompress_stream c input capacity in
      let step status :=
        {| step_consumed := consumed; step_produced := produced; step_status := status |} in
      (match result with
       | ResultSuccess => Ok (step CodecEnded)
       | ResultFailure => Err (invalid "invalid Brotli stream")
       | NeedsMoreInput =>
           if eof then Err truncated
           else if negb (length produced =? 0)%nat then Ok (step CodecProgress)
           else Ok (step CodecNeedsInput)
       | NeedsMoreOutput =>
           if (consumed =? 0)%nat && (length produced =? 0)%nat
           then Err (invalid "decoder made no progress")
           else Ok (step CodecProgress)
       end, CodecBrotli c)
  end.

(** ** The decoder *)

Inductive StepStatus := NeedsInput | Progress | Finished.
#[export] Instance StepStatus_eq_dec : EqDecision StepStatus.
Proof. solve_decision. Defined.

Record Step := { consumed : nat; output : option (list Z); status : StepStatus }.

Inductive LayerState := LayerNeedsInput | LayerReady | LayerEnded | LayerFinished.
#[export] Instance LayerState_eq_dec : EqDecision LayerState.
Proof. solve_decision. Defined.

Record Layer := {
  layer_coding : Coding;
  layer_codec : Codec;
  layer_input : list Z;
  layer_produced : Z;
  layer_state : LayerState;
}.
#[export] Instance eta_Layer : Eta Layer := fun l =>
  Build_Layer (layer_coding l) (layer_codec l) (layer_input l) (layer_produced l) (layer_state l).

Record StreamingDecoder := {
  layers : list Layer;
  max_decoded_bytes : option Z;
  encoded_bytes : Z;
  identity_bytes : Z;
  finished : bool;
  failure : option StreamDecodeError;
}.
#[export] Instance eta_StreamingDecoder : Eta StreamingDecoder := fun d =>
  Build_StreamingDecoder (layers d) (max_decoded_bytes d) (encoded_bytes d) (identity_bytes d)
    (finished d) (failure d).

Definition new_layer (coding : Coding) : Layer :=
  {| layer_coding := coding; layer_codec := codec_new coding; layer_input := [];
     layer_produced := 0; layer_state := LayerNeedsInput |}.

Definition streaming_decoder_new (plan : StreamingDecodePlan) (max_decoded_bytes : option Z) :
    StreamingDecoder :=
  {| layers := new_layer <$> codings plan; max_decoded_bytes := max_decoded_bytes;
     encoded_bytes := 0; identity_bytes := 0; finished := false; failure := None |}.

Definition checked_output (current produced : Z) (limit : option Z) (coding : string) (layer : nat) :
    result Z StreamDecodeError :=
  let_some total := checked_add current produced else Err StreamCounterOverflow in
  match limit with
  | Some limit => if limit <? total then Err (StreamTooLarge coding layer limit) else Ok total
  | None => Ok total
  end.

(** [Bytes::copy_from_slice] when there are bytes. *)
Definition some_bytes (bytes : list Z) : option (list Z) :=
  match bytes with [] => None | _ => Some bytes end.

Definition identity (input : list Z) (real_eof : bool) (d : StreamingDecoder) :
    result Step StreamDecodeError * StreamingDecoder :=
  let taken := take (Z.to_nat INPUT_SIZE) input in
  match checked_output (identity_bytes d) (byte_len taken) (max_decoded_bytes d) "identity" 0 with
  | Err e => (Err e, d)
  | Ok total =>
      let d := d <| identity_bytes := total |> in
      match checked_add (encoded_bytes d) (byte_len taken) with
      | None => (Err StreamCounterOverflow, d)
      | Some encoded =>
          let done := (length taken =? 0)%nat && real_eof in
          let d := d <| encoded_bytes := encoded |> <| finished := done |> in
          (Ok {| consumed := length taken; output := some_bytes taken;
                 status := if done then Finished
                           else if (length taken =? 0)%nat then NeedsInput else Progress |}, d)
      end
  end.

(** The input of layer [index]: the caller's for the first, the slot the previous
    layer fills for the others. *)
Definition available (index : nat) (input : list Z) (layer : Layer) : list Z :=
  match index with O => input | S _ => layer_input layer end.

Definition upstream_eof (index : nat) (real_eof : bool) (ls : list Layer) : bool :=
  match index with
  | O => real_eof
  | S i => match ls !! i with
           | Some upstream => bool_decide (layer_state upstream = LayerFinished)
           | None => false
           end
  end.

(** The loop of [advance], downstream first, over the layers below [n]: the layer to
    run, if any, with the layers as the loop leaves them. *)
Fixpoint scan (n : nat) (input : list Z) (real_eof : bool) (ls : list Layer) :
    result (option (nat * bool)) StreamDecodeError * list Layer :=
  match n with
  | O => (Ok None, ls)
  | S index =>
      match ls !! index with
      | None => (Ok None, ls)
      | Some layer =>
          let eof := upstream_eof index real_eof ls in
          let ready :=
            match ls !! S index with
            | Some downstream =>
                if negb (length (layer_input downstream) =? 0)%nat
                then scan index input real_eof ls else (Ok (Some (index, eof)), ls)
            | None => (Ok (Some (index, eof)), ls)
            end in
          match layer_state layer with
          | LayerFinished => scan index input real_eof ls
          | LayerEnded =>
              match available index input layer with
              | _ :: _ =>
                  (Err (stream_decode_error (coding_name (layer_coding layer)) index "trailing data"), ls)
              | [] =>
                  scan index input real_eof
                    (if eof then <[index := layer <| layer_state := LayerFinished |>]> ls else ls)
              end
          | LayerNeedsInput =>
              match available index input layer with
              | [] => if negb eof then scan index input real_eof ls else ready
              | _ => ready
              end
          | LayerReady => ready
          end
      end
  end.

(** The room for output: one byte more than the limit leaves, to notice an excess. *)
Definition output_capacity (max_decoded_bytes : option Z) (produced : Z) : Z :=
  match max_decoded_bytes with
  | None => OUTPUT_SIZE
  | Some limit => Z.min (saturating_add (saturating_sub limit produced) 1) OUTPUT_SIZE
  end.

Definition state_after (s : CodecStatus) : LayerState :=
  match s with
  | CodecNeedsInput => LayerNeedsInput
  | CodecProgress => LayerReady
  | CodecEnded => LayerEnded
  end.

Definition run_layer (index : nat) (layer : Layer) (input : list Z) (upstream_eof : bool)
    (d : StreamingDecoder) : result Step StreamDecodeError * StreamingDecoder :=
  let available := available index input layer in
  let offered := take (Z.to_nat INPUT_SIZE) available in
  let eof := upstream_eof && (length offered =? length available)%nat in
  let capacity := output_capacity (max_decoded_bytes d) (layer_produced layer) in
  let name := coding_name (layer_coding layer) in
  let (result, codec) := codec_step (layer_codec layer) offered eof capacity in
  let layer := layer <| layer_codec := codec |> in
  let put layer d := d <| layers ::= <[index := layer]> |> in
  match result with
  | Err source => (Err (StreamDecode name index source), put layer d)
  | Ok step =>
      match checked_output (layer_produced layer) (byte_len (step_produced step))
              (max_decoded_bytes d) name index with
      | Err e => (Err e, put layer d)
      | Ok total =>
          let layer := layer <| layer_produced := total |> in
          let consumed := match index with O => step_consumed step | S _ => 0%nat end in
          let layer := match index with
                       | O => layer
                       | S _ => layer <| layer_input ::= drop (step_consumed step) |>
                       end in
          match checked_add (encoded_bytes d) (Z.of_nat consumed) with
          | None => (Err StreamCounterOverflow, put layer d)
          | Some encoded =>
              let d := put (layer <| layer_state := state_after (step_status step) |>)
                           (d <| encoded_bytes := encoded |>) in
              let output := some_bytes (step_produced step) in
              let '(output, d) :=
                match layers d !! S index with
                | Some downstream =>
                    (None, match output with
                           | Some bytes =>
                               d <| layers ::= <[S index := downstream <| layer_input := bytes |>]> |>
                           | None => d
                           end)
                | None => (output, d)
                end in
              (Ok {| consumed := consumed; output := output; status := Progress |}, d)
          end
      end
  end.

Definition advance (input : list Z) (real_eof : bool) (d : StreamingDecoder) :
    result Step StreamDecodeError * StreamingDecoder :=
  if finished d then
    match input with
    | _ :: _ => (Err (stream_decode_error "identity" 0 "input after completion"), d)
    | [] => (Ok {| consumed := 0; output := None; status := Finished |}, d)
    end
  else
    match layers d with
    | [] => identity input real_eof d
    | _ =>
        let (next, ls) := scan (length (layers d)) input real_eof (layers d) in
        let d := d <| layers := ls |> in
        match next with
        | Err e => (Err e, d)
        | Ok (Some (index, upstream_eof)) =>
            match ls !! index with
            | Some layer => run_layer index layer input upstream_eof d
            | None => (Err StreamCounterOverflow, d) (* an index below the length *)
            end
        | Ok None =>
            let all := forallb (fun l => bool_decide (layer_state l = LayerFinished)) ls in
            let d := d <| finished := all |> in
            (Ok {| consumed := 0; output := None;
                   status := if all then Finished else if real_eof then Progress else NeedsInput |}, d)
        end
    end.

Definition decoder_step (input : list Z) (real_eof : bool) (d : StreamingDecoder) :
    result Step StreamDecodeError * StreamingDecoder :=
  match failure d with
  | Some error => (Err error, d)
  | None =>
      let (result, d) := advance input real_eof d in
      match result with
      | Err error => (Err error, d <| failure := Some error |>)
      | Ok step => (Ok step, d)
      end
  end.

(** ** The layers as a pipeline *)

(** A codec call stays within the buffers it is given. *)
Class CodecLaws := {
  decompress_bounds : forall c input capacity r n out c',
    decompress c input capacity = (r, n, out, c') -> (n <= length input)%nat;
  brotli_bounds : forall c input capacity r n out c',
    brotli_decompress_stream c input capacity = (r, n, out, c') -> (n <= length input)%nat;
  gz_bounds : forall c input capacity n out c',
    gz_write c input capacity = (Ok n, out, c') -> (n <= length input)%nat;
}.

Lemma codec_step_bounds `{!CodecLaws} c input eof capacity s c' :
  codec_step c input eof capacity = (Ok s, c') -> (step_consumed s <= length input)%nat.
Proof.
  destruct c as [c|c|c]; cbn [codec_step].
  - destruct (gzip_step c input eof capacity) as [r g] eqn:Hg. intros [= -> <-].
    revert Hg. unfold gzip_step.
    destruct (gzip_operation c input eof capacity) as [[[r produced] d] pending] eqn:Ho.
    intros Hg. assert (Hs : step_consumed s = 0%nat \/ exists st, r = Ok (step_consumed s, st)).
    { destruct r as [[n st]|e].
      - right. destruct (_ && _ && _) in Hg; [done|]. injection Hg as <- _. by eexists.
      - left. destruct (bool_decide _); [|done]. destruct (_ && _ && _) in Hg; [done|].
        by injection Hg as <- _. }
    destruct Hs as [->|[st ->]]; [lia|]. revert Ho. unfold gzip_operation.
    destruct (flush_pending c).
    + destruct (gz_flush _ _) as [[[[]|e] p] d']; [|done]. intros [= <- _ _ _ _]. lia.
    + destruct input as [|b input].
      * destruct eof; [destruct (gz_try_finish _ _) as [[[[]|e] p] d']; [|done]|];
          intros [= <- _ _ _]; cbn; lia.
      * destruct (gz_write _ _ _) as [[[n|e] p] d'] eqn:Hw; [|done]. intros [= <- _ _ _ _].
        by eapply gz_bounds.
  - destruct (decompress c input capacity) as [[[r n] out] c1] eqn:Hd.
    apply decompress_bounds in Hd. destruct r as [st|e]; [|done]. cbn.
    destruct st; repeat case_match; intros [= <- _]; done.
  - destruct (brotli_decompress_stream c input capacity) as [[[r n] out] c1] eqn:Hd.
    apply brotli_bounds in Hd. destruct r; repeat case_match; intros [= <- _]; done.
Qed.

(** A finished layer has an empty slot and a finished upstream. *)
Definition states_ok (ls : list Layer) : Prop :=
  forall k l u, ls !! S k = Some l -> ls !! k = Some u -> layer_state l = LayerFinished ->
  layer_input l = [] /\ layer_state u = LayerFinished.

Definition core (l : Layer) : Coding * Codec * list Z * Z :=
  (layer_coding l, layer_codec l, layer_input l, layer_produced l).

Lemma finish_layer_ok index input real_eof ls layer :
  states_ok ls -> ls !! index = Some layer -> layer_state layer = LayerEnded ->
  available index input layer = [] -> upstream_eof index real_eof ls = true ->
  states_ok (<[index := layer <| layer_state := LayerFinished |>]> ls).
Proof.
  intros Hok Hl He Ha Hu k l u Hk Hk1 Hf.
  destruct (decide (index = S k)) as [->|Hn1].
  - rewrite list_lookup_insert_eq in Hk by (by eapply lookup_lt_Some). injection Hk as <-.
    rewrite list_lookup_insert_ne in Hk1 by lia. cbn in *. rewrite Hk1 in Hu.
    by apply bool_decide_eq_true in Hu.
  - rewrite list_lookup_insert_ne in Hk by done. destruct (decide (index = k)) as [->|Hn2].
    + destruct (Hok k l layer Hk Hl Hf) as [_ Hc]. congruence.
    + rewrite list_lookup_insert_ne in Hk1 by done. by eapply Hok.
Qed.

Lemma scan_spec n input real_eof ls r ls' :
  scan n input real_eof ls = (r, ls') -> states_ok ls ->
  states_ok ls' /\ length ls' = length ls /\ (forall k, core <$> ls' !! k = core <$> ls !! k) /\
  match r with
  | Ok (Some (index, _)) => exists layer, ls' !! index = Some layer /\
      (layer_state layer = LayerReady \/ layer_state layer = LayerNeedsInput) /\
      (forall downstream, ls' !! S index = Some downstream -> layer_input downstream = [])
  | _ => True
  end.
Proof.
  revert ls; induction n as [|index IH]; intros ls; cbn [scan]; [by intros [= <- <-]|].
  destruct (ls !! index) as [layer|] eqn:Hl; [|by intros [= <- <-]].
  set (eof := upstream_eof index real_eof ls).
  set (ready := match ls !! S index with Some _ => _ | None => _ end).
  assert (Hready : (layer_state layer = LayerReady \/ layer_state layer = LayerNeedsInput) ->
    ready = (r, ls') -> states_ok ls ->
    states_ok ls' /\ length ls' = length ls /\ (forall k, core <$> ls' !! k = core <$> ls !! k) /\
    match r with
    | Ok (Some (index, _)) => exists layer, ls' !! index = Some layer /\
        (layer_state layer = LayerReady \/ layer_state layer = LayerNeedsInput) /\
        (forall downstream, ls' !! S index = Some downstream -> layer_input downstream = [])
    | _ => True
    end).
  { intros Hst. unfold ready. destruct (ls !! S index) as [ds|] eqn:Hds.
    - destruct (Nat.eqb_spec (length (layer_input ds)) 0) as [Hz|Hnz]; cbn [negb]; [|by apply IH].
      intros [= <- <-] Hok. split_and!; [done | done | done |]. exists layer.
      split_and!; [done | done |]. intros ds'. rewrite Hds. intros [= <-].
      by apply length_zero_iff_nil.
    - intros [= <- <-] Hok. split_and!; [done | done | done |]. exists layer.
      split_and!; [done | done |]. intros ds'. by rewrite Hds. }
  destruct (layer_state layer) eqn:Hst; [| | |apply IH].
  - destruct (available index input layer); [destruct (negb eof); [apply IH|]|];
      apply Hready; by right.
  - apply Hready; by left.
  - destruct (available index input layer) eqn:Ha; [|by intros [= <- <-]].
    intros Hs Hok. destruct eof eqn:He; [|by apply IH].
    destruct (IH _ Hs) as (H1 & H2 & H3 & H4).
    { by apply (finish_layer_ok _ input real_eof). }
    split_and!; [done | by rewrite H2, length_insert | | done].
    intros k. rewrite H3. destruct (decide (index = k)) as [->|Hn].
    + rewrite list_lookup_insert_eq by (by eapply lookup_lt_Some). by rewrite Hl.
    + by rewrite list_lookup_insert_ne.
Qed.

(** ** The history of the codec calls *)

(** The call [advance] makes, if it makes one: the layer, the input its codec
    accepted and the bytes it produced. *)
Definition codec_call (index : nat) (layer : Layer) (input : list Z) (upstream_eof : bool)
    (d : StreamingDecoder) : option (nat * list Z * list Z) :=
  let available := available index input layer in
  let offered := take (Z.to_nat INPUT_SIZE) available in
  let eof := upstream_eof && (length offered =? length available)%nat in
  let capacity := output_capacity (max_decoded_bytes d) (layer_produced layer) in
  match codec_step (layer_codec layer) offered eof capacity with
  | (Ok step, _) => Some (index, take (step_consumed step) available, step_produced step)
  | _ => None
  end.

Definition advance_call (input : list Z) (real_eof : bool) (d : StreamingDecoder) :
    option (nat * list Z * list Z) :=
  if finished d then None
  else match scan (length (layers d)) input real_eof (layers d) with
       | (Ok (Some (index, eof)), ls) =>
           layer ← ls !! index; codec_call index layer input eof d
       | _ => None
       end.

(** The bytes accepted and produced so far by each layer. *)
Definition record_call (call : option (nat * list Z * list Z)) (h : list (list Z * list Z)) :
    list (list Z * list Z) :=
  match call with
  | Some (index, accepted, produced) =>
      alter (fun '(a, p) => (a ++ accepted, p ++ produced)) index h
  | None => h
  end.

(** A decoder in use: its history, the input it has consumed and its output. *)
Inductive decoding (plan : StreamingDecodePlan) (max : option Z) :
    StreamingDecoder -> list (list Z * list Z) -> list Z -> list Z -> Prop :=
| decoding_new :
    decoding plan max (streaming_decoder_new plan max) (replicate (length (codings plan)) ([], [])) [] []
| decoding_step d h i o input real_eof s d' :
    decoding plan max d h i o -> decoder_step input real_eof d = (Ok s, d') ->
    decoding plan max d' (record_call (advance_call input real_eof d) h)
      (i ++ take (consumed s) input) (o ++ default [] (output s)).

(** A codec driven from its initial state: the input it accepted, what it produced. *)
Inductive codec_run (c0 : Codec) : list Z -> list Z -> Codec -> Prop :=
| codec_run_new : codec_run c0 [] [] c0
| codec_run_step a p c offered eof capacity s c' :
    codec_run c0 a p c -> codec_step c offered eof capacity = (Ok s, c') ->
    codec_run c0 (a ++ take (step_consumed s) offered) (p ++ step_produced s) c'.

(** No byte is lost, duplicated or reordered between the layers. *)
Record flow (plan : StreamingDecodePlan) (max : option Z) (d : StreamingDecoder) (h : list (list Z * list Z)) (i o : list Z) :
    Prop := {
  flow_codings : layer_coding <$> layers d = codings plan;
  flow_length : length h = length (layers d);
  flow_codec : forall k l x, layers d !! k = Some l -> h !! k = Some x ->
    codec_run (codec_new (layer_coding l)) (fst x) (snd x) (layer_codec l);
  flow_states : states_ok (layers d);
  flow_produced : forall k l x, layers d !! k = Some l -> h !! k = Some x ->
    layer_produced l = byte_len (snd x) /\ within max (layer_produced l);
  flow_link : forall k l x y, layers d !! S k = Some l -> h !! k = Some x -> h !! S k = Some y ->
    snd x = fst y ++ layer_input l;
  flow_identity : layers d = [] -> i = o /\ identity_bytes d = byte_len o /\ within max (byte_len o);
  flow_first : forall x, h !! 0%nat = Some x -> i = fst x;
  flow_last : forall x, last h = Some x -> o = snd x;
  flow_encoded : encoded_bytes d = byte_len i;
  flow_max : max_decoded_bytes d = max;
  flow_finished : finished d = true -> Forall (fun l => layer_state l = LayerFinished) (layers d);
}.

Lemma checked_output_Ok current produced limit coding layer total :
  checked_output current produced limit coding layer = Ok total ->
  total = current + produced /\ within limit total.
Proof.
  unfold checked_output, within. destruct (checked_add current produced) as [t|] eqn:Ha; [|done].
  apply checked_add_Some in Ha as [-> _]. destruct limit as [limit|].
  - destruct (Z.ltb_spec limit (current + produced)); [done|]. intros [= <-].
    split; [done|]. by intros ? [= <-].
  - by intros [= <-].
Qed.

Lemma default_some_bytes p : default [] (some_bytes p) = p.
Proof. by destruct p. Qed.

(** The layer as [run_layer] leaves it. *)
Definition layer_after (index : nat) (layer : Layer) (step : CodecStep) (codec : Codec) : Layer :=
  {| layer_coding := layer_coding layer; layer_codec := codec;
     layer_input := match index with
                    | O => layer_input layer
                    | S _ => drop (step_consumed step) (layer_input layer)
                    end;
     layer_produced := layer_produced layer + byte_len (step_produced step);
     layer_state := state_after (step_status step) |}.

Definition fill_downstream (index : nat) (bytes : list Z) (ls : list Layer) : list Layer :=
  match ls !! S index, bytes with
  | Some downstream, _ :: _ => <[S index := downstream <| layer_input := bytes |>]> ls
  | _, _ => ls
  end.

Lemma run_layer_Ok index layer input eof d s d' :
  run_layer index layer input eof d = (Ok s, d') -> layers d !! index = Some layer ->
  exists step codec,
    codec_call index layer input eof d =
      Some (index, take (step_consumed step) (available index input layer), step_produced step) /\
    codec_step (layer_codec layer) (take (Z.to_nat INPUT_SIZE) (available index input layer))
      (eof && (length (take (Z.to_nat INPUT_SIZE) (available index input layer)) =?
               length (available index input layer))%nat)
      (output_capacity (max_decoded_bytes d) (layer_produced layer)) = (Ok step, codec) /\
    within (max_decoded_bytes d) (layer_produced layer + byte_len (step_produced step)) /\
    consumed s = (match index with O => step_consumed step | S _ => 0%nat end) /\
    output s = (match layers d !! S index with
                | Some _ => None | None => some_bytes (step_produced step) end) /\
    layers d' = fill_downstream index (step_produced step)
                  (<[index := layer_after index layer step codec]> (layers d)) /\
    encoded_bytes d' = encoded_bytes d + Z.of_nat (consumed s) /\
    max_decoded_bytes d' = max_decoded_bytes d /\ finished d' = finished d /\
    identity_bytes d' = identity_bytes d /\ failure d' = failure d /\ status s = Progress.
Proof.
  unfold run_layer, codec_call. intros Hrun Hl.
  destruct (codec_step _ _ _ _) as [[step|e] codec] eqn:Hc; [|done].
  destruct (checked_output _ _ _ _ _) as [total|e] eqn:Ho; [|done].
  apply checked_output_Ok in Ho as [-> Hw].
  destruct (checked_add (encoded_bytes d) _) as [encoded|] eqn:He; [|done].
  apply checked_add_Some in He as [-> _].
  exists step, codec. cbn in Hrun.
  rewrite list_lookup_insert_ne in Hrun by lia.
  assert (Hds : <[index:=layer_after index layer step codec]> (layers d) !! S index = layers d !! S index)
    by (apply list_lookup_insert_ne; lia).
  unfold fill_downstream. rewrite Hds.
  destruct (layers d !! S index) as [ds|], (step_produced step) as [|b p] eqn:Hp; cbn in Hrun;
    injection Hrun as <- <-; cbn; destruct index; cbn;
    unfold layer_after; rewrite ?Hp; split_and!; try done; by destruct layer.
Qed.

Definition fill (p : list Z) (l : Layer) : Layer :=
  match p with [] => l | _ => l <| layer_input := p |> end.

Lemma fill_input p l : layer_input l = [] -> layer_input (fill p l) = p.
Proof. by destruct p. Qed.

Lemma fill_other p l : layer_state (fill p l) = layer_state l /\
  layer_coding (fill p l) = layer_coding l /\ layer_codec (fill p l) = layer_codec l /\
  layer_produced (fill p l) = layer_produced l.
Proof. by destruct p. Qed.

(** The layers after a run: the layer itself and the slot downstream. *)
Definition layer_update (index : nat) (p : list Z) (after : Layer) (k : nat) (l : Layer) : Layer :=
  if decide (k = index) then after else if decide (k = S index) then fill p l else l.

Lemma lookup_run index layer p after ls k :
  ls !! index = Some layer ->
  fill_downstream index p (<[index := after]> ls) !! k = layer_update index p after k <$> ls !! k.
Proof.
  intros Hl. unfold fill_downstream, layer_update.
  rewrite list_lookup_insert_ne by lia.
  destruct (decide (k = index)) as [->|Hk].
  - assert (Hi : <[index := after]> ls !! index = Some after)
      by (apply list_lookup_insert_eq; by eapply lookup_lt_Some).
    rewrite Hl; cbn. destruct (ls !! S index), p; try done.
    by rewrite list_lookup_insert_ne by lia.
  - destruct (decide (k = S index)) as [->|Hk2].
    + destruct (ls !! S index) as [ds|] eqn:Hd; [destruct p|]; cbn.
      * by rewrite list_lookup_insert_ne by lia.
      * rewrite list_lookup_insert_eq; [done|]. rewrite length_insert.
        by eapply lookup_lt_Some.
      * by rewrite list_lookup_insert_ne by lia.
    + destruct (ls !! S index) as [ds|] eqn:Hd; [destruct p|]; cbn;
        rewrite ?list_lookup_insert_ne by lia; by destruct (ls !! k).
Qed.

Lemma length_run index p after ls :
  length (fill_downstream index p (<[index := after]> ls)) = length ls.
Proof.
  unfold fill_downstream. case_match; [case_match|]; by rewrite ?length_insert.
Qed.

Lemma flow_new plan max :
  within max 0 ->
  flow plan max (streaming_decoder_new plan max) (replicate (length (codings plan)) ([], [])) [] [].
Proof.
  intros Hw. split; cbn.
  - rewrite <- list_fmap_compose. apply list_fmap_id.
  - by rewrite length_replicate, length_fmap.
  - intros k l x Hl [-> _]%lookup_replicate. apply list_lookup_fmap_Some in Hl as (c & -> & _).
    constructor.
  - intros k l u Hl _ Hf. by apply list_lookup_fmap_Some in Hl as (c & -> & _).
  - intros k l x Hl [-> _]%lookup_replicate. by apply list_lookup_fmap_Some in Hl as (c & -> & _).
  - intros k l x y Hl [-> _]%lookup_replicate [-> _]%lookup_replicate.
    by apply list_lookup_fmap_Some in Hl as (c & -> & _).
  - done.
  - by intros x [-> _]%lookup_replicate.
  - intros x Hx. rewrite last_lookup in Hx. by apply lookup_replicate in Hx as [-> _].
  - done.
  - done.
  - done.
Qed.

(** [flow] depends on the cores of the layers only. *)
Lemma flow_same plan max d d' h i o :
  flow plan max d h i o ->
  states_ok (layers d') -> length (layers d') = length (layers d) ->
  (forall k, core <$> layers d' !! k = core <$> layers d !! k) ->
  encoded_bytes d' = encoded_bytes d -> identity_bytes d' = identity_bytes d ->
  max_decoded_bytes d' = max_decoded_bytes d ->
  (finished d' = true -> Forall (fun l => layer_state l = LayerFinished) (layers d')) ->
  flow plan max d' h i o.
Proof.
  intros [] Hs Hlen Hcore He Hi Hm Hfin.
  assert (Hold : forall k l', layers d' !! k = Some l' ->
    exists l, layers d !! k = Some l /\ core l = core l').
  { intros k l' Hl'. specialize (Hcore k). rewrite Hl' in Hcore.
    destruct (layers d !! k) as [l|]; [|done]. exists l. split; [done|].
    cbn in Hcore. congruence. }
  split; rewrite ?He, ?Hi, ?Hm; try done.
  - rewrite <- flow_codings0. apply list_eq. intros k. rewrite !list_lookup_fmap.
    specialize (Hcore k). destruct (layers d' !! k) as [[]|], (layers d !! k) as [[]|];
      unfold core in *; cbn in *; congruence.
  - congruence.
  - intros k l' x Hl'. destruct (Hold k l' Hl') as (l & Hl & [= E1 E2 E3 E4]).
    rewrite <- E1, <- E2. by apply flow_codec0.
  - intros k l' x Hl'. destruct (Hold k l' Hl') as (l & Hl & [= E1 E2 E3 E4]).
    rewrite <- E4. by apply flow_produced0.
  - intros k l' x y Hl'. destruct (Hold _ l' Hl') as (l & Hl & [= E1 E2 E3 E4]).
    rewrite <- E3. by apply flow_link0.
  - intros Hn. apply flow_identity0. apply length_zero_iff_nil. by rewrite <- Hlen, Hn.
Qed.

Lemma lookup_record index a p h k :
  record_call (Some (index, a, p)) h !! k =
  (fun x => if decide (k = index) then (fst x ++ a, snd x ++ p) else x) <$> h !! k.
Proof.
  cbn. destruct (decide (k = index)) as [->|Hn].
  - rewrite list_lookup_alter_eq. by destruct (h !! index) as [[]|].
  - rewrite list_lookup_alter_ne by done. by destruct (h !! k).
Qed.

Lemma states_ok_run index layer p after ls :
  ls !! index = Some layer -> layer_state layer <> LayerFinished ->
  layer_state after <> LayerFinished -> states_ok ls ->
  states_ok (fill_downstream index p (<[index := after]> ls)).
Proof.
  intros Hl Hn Ha Hok k l' u' Hl' Hu' Hf.
  rewrite (lookup_run index layer) in Hl', Hu' by done. unfold layer_update in *.
  destruct (ls !! S k) as [l|] eqn:Hlk; [|done]. destruct (ls !! k) as [u|] eqn:Huk; [|done].
  cbn in Hl', Hu'. injection Hl' as Hl'. injection Hu' as Hu'.
  destruct (decide (S k = index)); [congruence|].
  destruct (decide (k = index)) as [->|Hki].
  - rewrite decide_True in Hl' by done. subst l'. destruct (fill_other p l) as [Hs _].
    rewrite Hs in Hf. destruct (Hok _ _ _ Hlk Huk Hf). congruence.
  - rewrite decide_False in Hl' by lia. subst l'. destruct (Hok _ _ _ Hlk Huk Hf) as [Hi Hu].
    split; [done|]. subst u'. case_decide; [|done]. destruct (fill_other p u) as [Hs _]. congruence.
Qed.

Lemma flow_run `{!CodecLaws} plan max d h i o index layer input eof s d' :
  flow plan max d h i o -> finished d = false -> layers d !! index = Some layer ->
  layer_state layer = LayerReady \/ layer_state layer = LayerNeedsInput ->
  (forall downstream, layers d !! S index = Some downstream -> layer_input downstream = []) ->
  run_layer index layer input eof d = (Ok s, d') ->
  flow plan max d' (record_call (codec_call index layer input eof d) h)
    (i ++ take (consumed s) input) (o ++ default [] (output s)).
Proof.
  intros Hflow Hnf Hl Hst Hds Hrun.
  apply run_layer_Ok in Hrun as (step & codec & Hcall & Hc & Hw & Hcons & Hout & Hls & He & Hm & Hf & Hi & _);
    [|done].
  rewrite Hcall. clear Hcall. pose proof (codec_step_bounds _ _ _ _ _ _ Hc) as Hb.
  set (a := take _ _). set (p := step_produced step) in *.
  assert (Ha : a = take (step_consumed step) (take (Z.to_nat INPUT_SIZE) (available index input layer))).
  { unfold a. rewrite take_take. f_equal. rewrite length_take in Hb. lia. }
  rewrite length_take in Hb.
  assert (Hlook : forall k, layers d' !! k =
    layer_update index p (layer_after index layer step codec) k <$> layers d !! k)
    by (intros k; rewrite Hls; by apply (lookup_run index layer)).
  assert (Hnew : forall k l', layers d' !! k = Some l' -> exists l, layers d !! k = Some l /\
    l' = layer_update index p (layer_after index layer step codec) k l).
  { intros k l' Hk. rewrite Hlook in Hk. destruct (layers d !! k) as [l|]; [|done].
    exists l. by injection Hk as <-. }
  assert (Hhist : forall k x', record_call (Some (index, a, p)) h !! k = Some x' ->
    exists x, h !! k = Some x /\
      x' = if decide (k = index) then (fst x ++ a, snd x ++ p) else x).
  { intros k x' Hk. rewrite lookup_record in Hk. destruct (h !! k) as [x|]; [|done].
    exists x. by injection Hk as <-. }
  destruct Hflow. split.
  - rewrite <- flow_codings0. apply list_eq. intros k. rewrite !list_lookup_fmap, Hlook.
    destruct (layers d !! k) as [l|] eqn:Hk; [|done]. cbn. f_equal. unfold layer_update.
    repeat case_decide; subst; [by simplify_eq | by apply fill_other | done].
  - rewrite Hls, length_run. cbn. by rewrite length_alter.
  - intros k l' x' Hk Hx. apply Hnew in Hk as (l & Hk & ->). apply Hhist in Hx as (x & Hx & ->).
    specialize (flow_codec0 _ _ _ Hk Hx). unfold layer_update.
    repeat case_decide; subst; [|by destruct (fill_other p l) as (_ & -> & -> & _)|done].
    simplify_eq. rewrite Ha. cbn. by eapply codec_run_step.
  - rewrite Hls. apply (states_ok_run index layer); [done| |by cbn; destruct (step_status step)|done].
    by destruct Hst as [->| ->].
  - intros k l' x' Hk Hx. apply Hnew in Hk as (l & Hk & ->). apply Hhist in Hx as (x & Hx & ->).
    destruct (flow_produced0 _ _ _ Hk Hx) as [Hp1 Hp2]. unfold layer_update.
    repeat case_decide; subst; [|by destruct (fill_other p l) as (_ & _ & _ & ->)|done].
    simplify_eq. cbn. rewrite byte_len_app, <- Hp1. done.
  - intros k l' x' y' Hk Hx Hy. apply Hnew in Hk as (l & Hk & ->).
    apply Hhist in Hx as (x & Hx & ->). apply Hhist in Hy as (y & Hy & ->).
    specialize (flow_link0 _ _ _ _ Hk Hx Hy). unfold layer_update.
    destruct (decide (S k = index)) as [<-|Hn1].
    + rewrite (decide_False (P := k = S k)) by lia. rewrite flow_link0. simplify_eq. cbn.
      by rewrite <- app_assoc, take_drop.
    + destruct (decide (k = index)) as [->|Hn2].
      * rewrite decide_True by done. cbn. rewrite fill_input by (by apply Hds).
        by rewrite flow_link0, (Hds _ Hk), app_nil_r.
      * by rewrite decide_False by lia.
  - intros Hn. rewrite Hls in Hn. apply (f_equal length) in Hn. rewrite length_run in Hn.
    apply lookup_lt_Some in Hl. cbn in Hn. lia.
  - intros x' Hx. apply Hhist in Hx as (x & Hx & ->). rewrite (flow_first0 _ Hx).
    case_decide; subst; [by rewrite Hcons|]. destruct index; [done|].
    by rewrite Hcons, app_nil_r.
  - intros x' Hx. rewrite last_lookup in Hx. apply Hhist in Hx as (x & Hx & ->).
    cbn in Hx. rewrite length_alter, <- last_lookup in Hx. rewrite (flow_last0 _ Hx).
    cbn. rewrite length_alter, flow_length0. apply lookup_lt_Some in Hl as Hlt.
    rewrite Hout. case_decide; subst.
    + rewrite lookup_ge_None_2 by lia. cbn. by rewrite default_some_bytes.
    + destruct (lookup_lt_is_Some_2 (layers d) (S index)) as [ds ->]; [lia|].
      by rewrite app_nil_r.
  - rewrite He, byte_len_app, flow_encoded0. unfold byte_len. rewrite length_take.
    destruct index; rewrite Hcons; [cbn in Hb|]; lia.
  - by rewrite Hm.
  - rewrite Hf, Hnf. done.
Qed.

Lemma forallb_finished ls :
  forallb (fun l => bool_decide (layer_state l = LayerFinished)) ls = true ->
  Forall (fun l => layer_state l = LayerFinished) ls.
Proof.
  rewrite forallb_forall, Forall_forall. intros Hall l Hl.
  apply list_elem_of_In in Hl. by apply Hall in Hl as ?%bool_decide_eq_true.
Qed.

Lemma take_min_length {A} n (l : list A) : take (n `min` length l) l = take n l.
Proof. by rewrite <- take_take, firstn_all. Qed.

Lemma flow_identity_step plan max d h i o input real_eof s d' :
  flow plan max d h i o -> layers d = [] -> identity input real_eof d = (Ok s, d') ->
  flow plan max d' h (i ++ take (consumed s) input) (o ++ default [] (output s)).
Proof.
  intros [] Hn. unfold identity.
  destruct (checked_output _ _ _ _ _) as [total|] eqn:Ho; [|done].
  destruct (checked_add _ _) as [encoded|] eqn:He; [|done].
  apply checked_output_Ok in Ho as [-> Hw]. apply checked_add_Some in He as [-> _].
  intros [= <- <-]. destruct (flow_identity0 Hn) as (-> & Hi & _).
  cbn. rewrite default_some_bytes, length_take. rewrite Hn in flow_length0.
  apply length_zero_iff_nil in flow_length0 as ->.
  split; cbn; try rewrite Hn; try done.
  - by rewrite Hn in flow_codings0.
  - intros _. split_and!; [by rewrite take_min_length|by rewrite byte_len_app, Hi|].
    rewrite byte_len_app, <- Hi, <- flow_max0. exact Hw.
  - rewrite flow_encoded0, byte_len_app. unfold byte_len. rewrite !length_take. lia.
Qed.

Lemma advance_encoded input real_eof d :
  finished d = false -> layers d <> [] ->
  advance input real_eof d =
  let (next, ls) := scan (length (layers d)) input real_eof (layers d) in
  let d := d <| layers := ls |> in
  match next with
  | Err e => (Err e, d)
  | Ok (Some (index, upstream_eof)) =>
      match ls !! index with
      | Some layer => run_layer index layer input upstream_eof d
      | None => (Err StreamCounterOverflow, d)
      end
  | Ok None =>
      let all := forallb (fun l => bool_decide (layer_state l = LayerFinished)) ls in
      (Ok {| consumed := 0; output := None;
             status := if all then Finished else if real_eof then Progress else NeedsInput |},
       d <| finished := all |>)
  end.
Proof. unfold advance. intros -> Hn. by destruct (layers d). Qed.

Lemma decoder_step_flow `{!CodecLaws} plan max d h i o input real_eof s d' :
  flow plan max d h i o -> decoder_step input real_eof d = (Ok s, d') ->
  flow plan max d' (record_call (advance_call input real_eof d) h)
    (i ++ take (consumed s) input) (o ++ default [] (output s)).
Proof.
  intros Hflow. unfold decoder_step. destruct (failure d); [done|].
  destruct (advance input real_eof d) as [[s1|e1] d1] eqn:Ha; [|done]. intros [= <- <-].
  revert Ha. unfold advance, advance_call. destruct (finished d) eqn:Hf.
  { destruct input; [|done]. intros [= <- <-]. cbn. by rewrite !app_nil_r. }
  destruct (layers d) as [|l0 ls0] eqn:Hn.
  { intros Hid. by eapply flow_identity_step. }
  rewrite <- Hn. destruct (scan _ _ _ _) as [r ls] eqn:Hs. apply scan_spec in Hs as (Hok & Hlen & Hcore & Hr);
    [|by apply Hflow].
  assert (Hflow1 : flow plan max (d <| layers := ls |>) h i o)
    by (apply (flow_same _ _ d); [done..|cbn; by rewrite Hf]).
  destruct r as [[[index eof]|]|e]; [| |done].
  - destruct Hr as (layer & Hl & Hst & Hds). rewrite Hl. intros Hrun. cbn.
    change (codec_call index layer input eof d)
      with (codec_call index layer input eof (d <| layers := ls |>)).
    by apply (flow_run plan max (d <| layers := ls |>) h i o index layer input eof s1 d1).
  - intros [= <- <-]. cbn. rewrite !app_nil_r.
    apply (flow_same _ _ (d <| layers := ls |>)); [done..|].
    apply forallb_finished.
Qed.

Lemma decoding_flow `{!CodecLaws} plan max d h i o :
  within max 0 -> decoding plan max d h i o -> flow plan max d h i o.
Proof. intros Hw. induction 1; [by apply flow_new|by eapply decoder_step_flow]. Qed.

(** C36: While [StreamingDecoder] decodes a response in any number of steps, no byte
    is lost, duplicated or reordered: the input the caller was told is consumed is
    what the first codec accepted; each further codec accepted exactly what its
    upstream produced, but for one slot of pending bytes, which is empty at the end;
    the output is what the last codec produced (the input itself without codings);
    every layer's accepted and produced bytes are one run of that layer's codec; and
    no layer's output exceeds [max_decoded_bytes]. *)
Theorem streaming_pipeline_exact `{!CodecLaws} plan max d h i o :
  within max 0 -> decoding plan max d h i o ->
  length h = length (codings plan) /\ encoded_bytes d = byte_len i /\
  (codings plan = [] -> o = i /\ within max (byte_len o)) /\
  (forall x, h !! 0%nat = Some x -> fst x = i) /\
  (forall x, last h = Some x -> snd x = o) /\
  (forall k coding x, codings plan !! k = Some coding -> h !! k = Some x ->
     within max (byte_len (snd x)) /\ exists c, codec_run (codec_new coding) (fst x) (snd x) c) /\
  (forall k x y, h !! k = Some x -> h !! S k = Some y ->
     exists slot, snd x = fst y ++ slot /\ (finished d = true -> slot = [])).
Proof.
  intros Hw Hdec. destruct (decoding_flow _ _ _ _ _ _ Hw Hdec).
  assert (Hlen : length (layers d) = length (codings plan))
    by (by rewrite <- flow_codings0, length_fmap).
  assert (Hlayer : forall k (x : list Z * list Z), h !! k = Some x -> exists l, layers d !! k = Some l).
  { intros k x Hx. apply lookup_lt_is_Some_2. rewrite <- flow_length0. by eapply lookup_lt_Some. }
  split_and!; [congruence|done| | | | | ].
  - intros Hn. rewrite Hn in Hlen. apply length_zero_iff_nil in Hlen.
    by destruct (flow_identity0 Hlen) as (-> & _ & ?).
  - intros x Hx. by rewrite (flow_first0 x).
  - intros x Hx. by rewrite (flow_last0 x).
  - intros k coding x Hk Hx. destruct (Hlayer _ _ Hx) as [l Hl].
    destruct (flow_produced0 _ _ _ Hl Hx) as [Hp Hwi]. rewrite Hp in Hwi. split; [done|].
    rewrite <- flow_codings0, list_lookup_fmap, Hl in Hk. injection Hk as <-. eauto.
  - intros k x y Hx Hy. destruct (Hlayer _ _ Hx) as [u Hu]. destruct (Hlayer _ _ Hy) as [l Hl].
    exists (layer_input l). split; [by eapply flow_link0|]. intros Hfin.
    apply (flow_states0 k l u); [done..|].
    by apply (Forall_lookup_1 _ _ _ _ (flow_finished0 Hfin) Hl).
Qed.

(** The error of a failed decoder is final: every later step returns the same
    error and changes nothing. *)
Theorem decoder_failure_is_final input real_eof d e d' input2 real_eof2 :
  decoder_step input real_eof d = (Err e, d') -> decoder_step input2 real_eof2 d' = (Err e, d').
Proof.
  unfold decoder_step at 1. destruct (failure d) as [e1|] eqn:Hf.
  - intros [= <- <-]. unfold decoder_step. by rewrite Hf.
  - destruct (advance input real_eof d) as [[]]; [done|]. intros [= <- <-]. done.
Qed.

(** ** Progress at the end of the input *)

Definition finished_layers (ls : list Layer) : nat :=
  length (filter (fun l => layer_state l = LayerFinished) ls).

Lemma finished_layers_insert ls index layer l' :
  ls !! index = Some layer -> layer_state layer <> LayerFinished -> layer_state l' = LayerFinished ->
  finished_layers (<[index := l']> ls) = S (finished_layers ls).
Proof.
  unfold finished_layers. revert index; induction ls as [|l ls IH]; intros [|index];
    cbn [insert list_insert lookup list_lookup]; try done.
  - intros [= ->] Hn Hf. by rewrite filter_cons_True, filter_cons_False.
  - intros Hl Hn Hf. destruct (decide (layer_state l = LayerFinished)).
    + rewrite !filter_cons_True by done. cbn. by rewrite IH.
    + rewrite !filter_cons_False by done. by rewrite IH.
Qed.

Lemma scan_idle n input ls ls' :
  scan n input true ls = (Ok None, ls') -> states_ok ls -> (n <= length ls)%nat ->
  ((0 < n)%nat -> forall l, ls !! n = Some l -> layer_input l = []) ->
  (finished_layers ls < finished_layers ls')%nat \/
  (ls' = ls /\ forall k l, (k < n)%nat -> ls !! k = Some l -> layer_state l = LayerFinished).
Proof.
  revert ls; induction n as [|index IH]; intros ls; cbn [scan].
  { intros [= ->] _ _ _. right. split; [done|lia]. }
  intros Hs Hok Hlen Hslot. destruct (lookup_lt_is_Some_2 ls index Hlen) as [layer Hl].
  rewrite Hl in Hs. set (eof := upstream_eof index true ls) in *.
  assert (Hready : match ls !! S index with
                   | Some downstream => if negb (length (layer_input downstream) =? 0)%nat
                       then scan index input true ls else (Ok (Some (index, eof)), ls)
                   | None => (Ok (Some (index, eof)), ls) end = (Ok (Some (index, eof)), ls)).
  { destruct (ls !! S index) as [ds|]; [|done]. by rewrite (Hslot ltac:(lia) ds). }
  rewrite Hready in Hs. clear Hready.
  assert (Hskip : eof = false -> available index input layer = [] ->
    scan index input true ls = (Ok None, ls') -> (finished_layers ls < finished_layers ls')%nat).
  { destruct index as [|index]; [done|]. unfold eof; cbn. intros He Ha Hr.
    destruct (lookup_lt_is_Some_2 ls index ltac:(lia)) as [u Hu]. rewrite Hu in He.
    apply bool_decide_eq_false in He. destruct (IH ls Hr Hok) as [?|[_ Hall]]; [lia| |done|].
    - intros _ l. rewrite Hl. by intros [= <-].
    - destruct He. apply (Hall index); [lia|done]. }
  destruct (layer_state layer) eqn:Hst.
  - destruct (available index input layer) eqn:Ha; [|done]. destruct eof; [done|]. auto.
  - done.
  - destruct (available index input layer) eqn:Ha; [|done].
    destruct eof eqn:He; [|auto]. left.
    pose proof (finished_layers_insert ls index layer (layer <| layer_state := LayerFinished |>) Hl
                  ltac:(by rewrite Hst) eq_refl) as Hcount.
    apply IH in Hs.
    + destruct Hs as [?|[-> _]]; lia.
    + by apply (finish_layer_ok _ input true).
    + rewrite length_insert. lia.
    + intros Hi l. rewrite list_lookup_insert_eq by (by eapply lookup_lt_Some). intros [= <-].
      by destruct index; [lia|].
  - destruct (IH ls Hs Hok) as [?|[-> Hall]]; [lia| |by left|].
    + intros Hi l. rewrite Hl. intros [= <-]. destruct index as [|index]; [lia|].
      destruct (lookup_lt_is_Some_2 ls index ltac:(lia)) as [u Hu]. by apply (Hok index layer u).
    + right. split; [done|]. intros k l Hk Hlk.
      destruct (decide (k = index)) as [->|]; [congruence|]. apply (Hall k); [lia|done].
Qed.

(** At the end of the input the decoder never idles: a step that calls no codec
    either reports the end or finishes one more layer, so at most as many such steps
    as layers follow a codec call. *)
Theorem streaming_idle_step_progresses `{!CodecLaws} plan max d h i o input s d' :
  within max 0 -> decoding plan max d h i o -> codings plan <> [] ->
  decoder_step input true d = (Ok s, d') -> advance_call input true d = None ->
  status s = Finished \/ (finished_layers (layers d) < finished_layers (layers d'))%nat.
Proof.
  intros Hw Hdec Hn. pose proof (decoding_flow _ _ _ _ _ _ Hw Hdec) as Hflow.
  pose proof (flow_states _ _ _ _ _ _ Hflow) as Hok.
  unfold decoder_step. destruct (failure d); [done|].
  destruct (advance input true d) as [[s1|e1] d1] eqn:Ha; [|done]. intros [= <- <-].
  revert Ha. unfold advance_call. destruct (finished d) eqn:Hf.
  { unfold advance. rewrite Hf. destruct input; [|done]. intros [= <- <-] _. by left. }
  rewrite advance_encoded; [|done|].
  2: { intros Hl. rewrite <- (flow_codings _ _ _ _ _ _ Hflow), Hl in Hn. done. }
  destruct (scan _ _ _ _) as [r ls] eqn:Hs. pose proof (scan_spec _ _ _ _ _ _ Hs Hok) as (_ & Hlen & _ & Hr).
  destruct r as [[[index eof]|]|e]; [| |done].
  - destruct Hr as (layer & -> & _). intros Hrun Hcall. exfalso. revert Hrun Hcall.
    unfold run_layer, codec_call. cbn. by destruct (codec_step _ _ _ _) as [[]].
  - intros [= <- <-] _. cbn [status layers].
    destruct (scan_idle _ _ _ _ Hs Hok) as [Hc|[-> Hall]];
      [done|intros _ l; by rewrite lookup_ge_None_2|by right|left].
    replace (forallb _ _) with true; [done|]. symmetry. apply forallb_forall.
    intros l Hin%list_elem_of_In. apply list_elem_of_lookup in Hin as [k Hk].
    apply bool_decide_eq_true. eapply (Hall k l); [|done]. by eapply lookup_lt_Some.
Qed.

(** What a step reports is true: [Finished] comes without output and only from a
    finished decoder, which stays finished; [NeedsInput] is never reported once the
    caller has declared the end of the input. *)
Theorem step_status_sound input real_eof d s d' :
  decoder_step input real_eof d = (Ok s, d') ->
  (status s = Finished -> output s = None /\ finished d' = true) /\
  (real_eof = true -> status s <> NeedsInput) /\
  (finished d = true -> input = [] /\ s = {| consumed := 0; output := None; status := Finished |} /\
    d' = d).
Proof.
  unfold decoder_step. destruct (failure d); [done|].
  destruct (advance input real_eof d) as [[s1|e1] d1] eqn:Ha; [|done]. intros [= <- <-].
  revert Ha. unfold advance. destruct (finished d) eqn:Hf.
  { destruct input; [|done]. by intros [= <- <-]. }
  destruct (layers d) as [|l0 ls0] eqn:Hl.
  - unfold identity. destruct (checked_output _ _ _ _ _); [|done].
    destruct (checked_add _ _); [|done]. intros [= <- <-]. cbn.
    destruct (take _ input); cbn; destruct real_eof; cbn; by split_and!.
  - destruct (scan _ _ _ _) as [[[[index eof]|]|e] ls]; [| |done].
    + destruct (ls !! index) as [layer|] eqn:Hk; [|done]. intros Hrun.
      apply run_layer_Ok in Hrun as (step & codec & Hr); [|done].
      destruct Hr as (_ & _ & _ & _ & _ & _ & _ & _ & _ & _ & _ & ->). by split_and!.
    + intros [= <- <-]. cbn. destruct (forallb _ _), real_eof; by split_and!.
Qed.
(** ** The end of the source *)

(** The decoder has seen the end of its input. *)
Definition source_done (d : StreamingDecoder) : Prop :=
  finished d = true \/ exists l, layers d !! 0%nat = Some l /\ layer_state l = LayerFinished.

Definition first_finished (ls : list Layer) : Prop := exists l, ls !! 0%nat = Some l /\ layer_state l = LayerFinished.

Lemma scan_source n input real_eof ls r ls' :
  scan n input real_eof ls = (r, ls') -> first_finished ls' ->
  first_finished ls \/ input = [] /\ real_eof = true.
Proof.
  revert ls; induction n as [|index IH]; intros ls; cbn [scan]; [intros [= _ <-]; by left|].
  destruct (ls !! index) as [layer|] eqn:Hl; [|intros [= _ <-]; by left].
  set (eof := upstream_eof index real_eof ls).
  set (ready := match ls !! S index with Some _ => _ | None => _ end).
  assert (Hready : ready = (r, ls') -> first_finished ls' -> first_finished ls \/ input = [] /\ real_eof = true).
  { unfold ready. destruct (ls !! S index) as [ds|]; [|intros [= _ <-]; by left].
    destruct (negb _); [apply IH|intros [= _ <-]; by left]. }
  destruct (layer_state layer) eqn:Hst; [| |clear Hready|apply IH].
  - destruct (available index input layer); [destruct (negb eof); [apply IH|]|]; exact Hready.
  - exact Hready.
  - destruct (available index input layer) eqn:Ha; [|intros [= _ <-]; by left].
    intros Hs Hf. destruct (IH _ Hs Hf) as [Hi|?]; [|by right].
    destruct eof eqn:He; [|by left]. destruct index as [|index].
    + right. cbn in Ha. done.
    + left. destruct Hi as (l & Hl0 & Hlf). exists l. by rewrite list_lookup_insert_ne in Hl0.
Qed.

(** When no layer can run before the end, the first has taken all of its input. *)
Lemma scan_waits n input ls ls' :
  scan n input false ls = (Ok None, ls') -> states_ok ls -> (0 < n <= length ls)%nat ->
  (forall l, ls !! n = Some l -> layer_input l = []) ->
  input = [] \/ first_finished ls.
Proof.
  revert ls; induction n as [|index IH]; intros ls; cbn [scan]; [lia|].
  intros Hs Hok Hlen Hslot. destruct (lookup_lt_is_Some_2 ls index) as [layer Hl]; [lia|].
  rewrite Hl in Hs.
  assert (Hready : match ls !! S index with
                   | Some downstream => if negb (length (layer_input downstream) =? 0)%nat
                       then scan index input false ls else (Ok (Some (index, upstream_eof index false ls)), ls)
                   | None => (Ok (Some (index, upstream_eof index false ls)), ls) end =
                   (Ok (Some (index, upstream_eof index false ls)), ls)).
  { destruct (ls !! S index) as [ds|] eqn:Hds; [|done]. by rewrite (Hslot ds eq_refl). }
  rewrite Hready in Hs. clear Hready.
  assert (Hempty : available index input layer = [] -> forall ls1, (forall k, k <> index -> ls1 !! k = ls !! k) ->
    (forall l, ls1 !! index = Some l -> layer_input l = layer_input layer) -> length ls1 = length ls -> states_ok ls1 ->
    scan index input false ls1 = (Ok None, ls') -> input = [] \/ first_finished ls).
  { intros Ha ls1 Hsame Hi Hlen1 Hok1 Hs1. destruct index as [|index]; [by left|]. cbn in Ha.
    destruct (IH ls1 Hs1 Hok1) as [?|(l & Hl0 & Hf)]; [lia| |by left|].
    - intros l Hl1. rewrite (Hi l Hl1). done.
    - right. exists l. by rewrite Hsame in Hl0. }
  destruct (layer_state layer) eqn:Hst.
  - destruct (available index input layer) eqn:Ha; [|done]. destruct (upstream_eof index false ls); [done|].
    apply (Hempty eq_refl ls); try done. intros l Hl1. congruence.
  - done.
  - destruct (available index input layer) eqn:Ha; [|done].
    destruct (upstream_eof index false ls) eqn:He; [|apply (Hempty eq_refl ls); try done; intros l Hl1; congruence].
    apply (Hempty eq_refl (<[index := layer <| layer_state := LayerFinished |>]> ls)); [| | | |done].
    + intros k Hk. by rewrite list_lookup_insert_ne.
    + intros l. rewrite list_lookup_insert_eq by (by eapply lookup_lt_Some). by intros [= <-].
    + apply length_insert.
    + by apply (finish_layer_ok _ input false).
  - destruct index as [|index]; [right; by exists layer|].
    destruct (lookup_lt_is_Some_2 ls index) as [u Hu]; [lia|].
    destruct (Hok index layer u Hl Hu Hst) as [Hin _].
    apply (Hempty Hin ls); try done. intros l Hl1. congruence.
Qed.

Lemma run_source index layer input eof d s d' :
  run_layer index layer input eof d = (Ok s, d') -> layers d !! index = Some layer ->
  first_finished (layers d') -> first_finished (layers d).
Proof.
  intros Hrun Hl. destruct (run_layer_Ok _ _ _ _ _ _ _ Hrun Hl) as (step & codec & Hr).
  destruct Hr as (_ & _ & _ & _ & _ & -> & _).
  intros (l & Hl0 & Hf). rewrite (lookup_run _ layer) in Hl0 by done.
  destruct (layers d !! 0%nat) as [l0|] eqn:H0; [|done]. injection Hl0 as <-. exists l0. split; [done|].
  unfold layer_update in Hf. destruct (decide _).
  - unfold layer_after in Hf. cbn in Hf. by destruct (step_status step).
  - destruct (decide _); [|done]. by rewrite (proj1 (fill_other _ _)) in Hf.
Qed.

Lemma take_nil_inv {A} n (l : list A) : (0 < n)%nat -> take n l = [] -> l = [].
Proof. destruct n, l; cbn; intros; try done; lia. Qed.

(** What a step tells of the source: the decoder sees its end only when it is there;
    when it asks for more it has consumed all of what it was given; and it consumes no
    more than that. *)
Lemma decoder_step_source `{!CodecLaws} input real_eof d s d' :
  decoder_step input real_eof d = (Ok s, d') -> states_ok (layers d) ->
  (source_done d' -> source_done d \/ input = [] /\ real_eof = true) /\
  (status s = Finished -> source_done d') /\
  (status s = NeedsInput -> input = [] \/ source_done d) /\
  (consumed s <= length input)%nat.
Proof.
  unfold decoder_step. destruct (failure d); [done|].
  destruct (advance input real_eof d) as [[s1|e1] d1] eqn:Ha; [|done]. intros [= <- <-] Hok.
  revert Ha. unfold advance. destruct (finished d) eqn:Hf.
  { destruct input; [|done]. intros [= <- <-]. split_and!; try done; [by left|by left]. }
  destruct (layers d) as [|l0 ls0] eqn:Hl.
  - unfold identity. destruct (checked_output _ _ _ _ _); [|done]. destruct (checked_add _ _); [|done].
    intros [= <- <-]. cbn. assert (Hin : (0 < Z.to_nat INPUT_SIZE)%nat) by (unfold INPUT_SIZE; lia).
    rewrite length_take. destruct (take (Z.to_nat INPUT_SIZE) input) as [|b taken] eqn:Ht.
    + apply take_nil_inv in Ht as ->; [|done]. cbn. rewrite Nat.min_0_r. cbn. unfold source_done. cbn. rewrite Hl.
      destruct real_eof; cbn; split_and!; try done; auto; intros [?|(l & ? & _)]; auto; done.
    + assert (Hpos : (Z.to_nat INPUT_SIZE `min` length input =? 0)%nat = false).
      { apply Nat.eqb_neq. rewrite <- length_take, Ht. done. }
      rewrite Hpos. cbn. unfold source_done. cbn. rewrite Hl. split_and!; try done; [|lia].
      intros [?|(l & ? & _)]; done.
  - rewrite <- Hl in *. destruct (scan _ _ _ _) as [[[[index eof]|]|e] ls] eqn:Hs; [| |done].
    + destruct (ls !! index) as [layer|] eqn:Hk; [|done]. intros Hrun.
      pose proof (run_source _ _ _ _ _ _ _ Hrun Hk) as Hsrc.
      apply run_layer_Ok in Hrun as (step & codec & Hr); [|done].
      destruct Hr as (_ & Hc & _ & Hcons & _ & _ & _ & _ & Hf' & _ & _ & ->). cbn in Hf'. rewrite Hf in Hf'.
      split_and!; try done.
      * intros [?|Hff]; [congruence|]. destruct (scan_source _ _ _ _ _ _ Hs (Hsrc Hff)); [left; by right|by right].
      * rewrite Hcons. destruct index; [|lia]. apply codec_step_bounds in Hc. rewrite length_take in Hc. cbn in Hc. lia.
    + intros [= <- <-]. unfold source_done. cbn.
      assert (Hfirst : forallb (fun l => bool_decide (layer_state l = LayerFinished)) ls = true -> first_finished ls).
      { intros Hall%forallb_finished. pose proof (scan_spec _ _ _ _ _ _ Hs Hok) as (_ & Hlen & _).
        rewrite Hl in Hlen. destruct ls as [|l ls]; [done|]. exists l. by apply Forall_cons in Hall as [? _]. }
      split_and!; [| | |lia].
      * intros [?|Hff]; [pose proof (Hfirst ltac:(done)) as Hff|];
          (destruct (scan_source _ _ _ _ _ _ Hs Hff); [left; by right|by right]).
      * destruct (forallb _ ls) eqn:Hall; [intros _; by left|]. by destruct real_eof.
      * destruct (forallb _ ls) eqn:Hall; [done|]. destruct real_eof; [done|]. intros _.
        destruct (scan_waits _ _ _ _ Hs Hok); [rewrite Hl; cbn; lia|by intros l ?%lookup_lt_Some; lia|by left|right; by right].
Qed.
End codec.

(** ** The plan *)

Definition ignorable (item : string) : bool :=
  is_empty item || eq_ignore_ascii_case item "identity".

Definition items_of (values : list string) : list string :=
  flat_map (fun v => trim_space_tab <$> split ","%char v) values.

Lemma plan_items_Ok items cs cs' :
  plan_items items cs = Ok cs' -> (length cs <= MAX_LAYERS)%nat ->
  let items := trim_space_tab <$> items in
  (length cs' <= MAX_LAYERS)%nat /\
  Forall (fun item => ignorable item = true \/ is_Some (stream_coding item)) items /\
  cs' = cs ++ omap (fun item => if ignorable item then None else stream_coding item) items.
Proof.
  cbn. revert cs; induction items as [|item items IH]; intros cs; cbn [plan_items fmap list_fmap].
  { intros [= <-] ?. split_and!; [done|constructor|by rewrite app_nil_r]. }
  set (it := trim_space_tab item). fold (ignorable it). destruct (ignorable it) eqn:Hi.
  - intros Hp Hlen. destruct (IH cs Hp Hlen) as (H1 & H2 & H3).
    split_and!; [done| |by cbn; rewrite Hi]. constructor; [by left|done].
  - destruct (negb _); [done|]. destruct (stream_coding it) as [c|] eqn:Hc; [|done]. cbn.
    destruct (Nat.eqb_spec (length cs) MAX_LAYERS); [done|]. intros Hp Hlen.
    destruct (IH (cs ++ [c]) Hp) as (H1 & H2 & H3); [rewrite length_app; cbn; lia|].
    split_and!; [done| |]; [constructor; [by right|done]|].
    rewrite Hi, Hc. by rewrite H3, <- app_assoc.
Qed.

Lemma plan_values_Ok `{HttpCrate} values cs cs' :
  plan_values values cs = Ok cs' -> (length cs <= MAX_LAYERS)%nat ->
  exists strs, header_value_to_str <$> values = Some <$> strs /\
  (length cs' <= MAX_LAYERS)%nat /\
  Forall (fun item => ignorable item = true \/ is_Some (stream_coding item)) (items_of strs) /\
  cs' = cs ++ omap (fun item => if ignorable item then None else stream_coding item) (items_of strs).
Proof.
  revert cs; induction values as [|v values IH]; intros cs; cbn [plan_values].
  { intros [= <-] ?. exists []. split_and!; [done|done|constructor|by rewrite app_nil_r]. }
  destruct (header_value_to_str v) as [value|] eqn:Hv; [|done]. cbn.
  destruct (plan_items (split ","%char value) cs) as [cs1|] eqn:Hi; [|done]. intros Hp Hlen.
  destruct (plan_items_Ok _ _ _ Hi Hlen) as (Hlen1 & Hf1 & ->).
  destruct (IH _ Hp Hlen1) as (strs & Hs & Hlen2 & Hf2 & ->).
  exists (value :: strs). rewrite Hv, Hs. split_and!; [done|done|by apply Forall_app|].
  cbn. by rewrite omap_app, app_assoc.
Qed.

Lemma coding_reservation_bounds c : 0 <= coding_reservation c <= BROTLI_RESERVATION.
Proof. by destruct c. Qed.

Lemma reservations_bounded cs :
  0 <= fold_right (fun c acc => coding_reservation c + acc) 0 cs
    <= Z.of_nat (length cs) * BROTLI_RESERVATION.
Proof.
  induction cs as [|c cs IH]; cbn [fold_right length]; [done|].
  pose proof (coding_reservation_bounds c). lia.
Qed.

(** An accepted plan names exactly the codings of the [content-encoding] fields,
    every item known or ignorable, outermost coding first; it has at most four
    layers, so the memory the caller must reserve for it is bounded. *)
Theorem plan_from_headers_correct `{HttpCrate} headers plan :
  plan_from_headers headers = Ok plan ->
  exists strs, header_value_to_str <$> header_map_get_all headers "content-encoding" = Some <$> strs /\
  Forall (fun item => ignorable item = true \/ is_Some (stream_coding item)) (items_of strs) /\
  codings plan = rev (omap (fun item => if ignorable item then None else stream_coding item) (items_of strs)) /\
  (length (codings plan) <= MAX_LAYERS)%nat /\
  0 < reservation_bytes plan <= 4 * BROTLI_RESERVATION + 6 * OUTPUT_SIZE.
Proof.
  unfold plan_from_headers.
  destruct (plan_values _ []) as [cs|] eqn:Hp; [|done]. intros [= <-].
  apply plan_values_Ok in Hp as (strs & Hs & Hlen & Hf & ->); [|unfold MAX_LAYERS; cbn; lia].
  exists strs. cbn [codings app] in *. rewrite length_rev. split_and!; try done.
  all: unfold reservation_bytes; cbn [codings]; rewrite length_rev;
    match goal with |- context [fold_right _ _ (rev ?l)] =>
      pose proof (reservations_bounded (rev l)) as Hr end;
    rewrite length_rev in Hr; revert Hlen Hr; unfold MAX_LAYERS, BROTLI_RESERVATION, OUTPUT_SIZE; lia.
Qed.

(** ** Concrete runs *)

Fixpoint before_zero (l : list Z) : list Z :=
  match l with
  | [] => []
  | b :: l => if b =? 0 then [] else b :: before_zero l
  end.

(** Codecs that pass their input through: for [deflate] up to and without a zero
    byte, which ends the stream. *)
Definition copy_step (c : unit) (input : list Z) (capacity : Z) :
    result nat io_error * list Z * unit :=
  let n := Nat.min (length input) (Z.to_nat capacity) in (Ok n, take n input, c).

#[local] Instance pass_codecs : StreamCodecs := {|
  Decompress := unit;
  decompress_new := ();
  decompress c input capacity :=
    let body := take (Z.to_nat capacity) (before_zero input) in
    if (length body <? length input)%nat && bool_decide (input !! length body = Some 0)
    then (Ok FlateStreamEnd, S (length body), body, c)
    else (Ok FlateOk, length body, body, c);
  BrotliState := unit;
  brotli_new := ();
  brotli_decompress_stream c input capacity :=
    let n := Nat.min (length input) (Z.to_nat capacity) in
    (if (n =? 0)%nat then NeedsMoreInput else NeedsMoreOutput, n, take n input, c);
  MultiGz := unit;
  multi_gz_new := ();
  gz_write := copy_step;
  gz_flush c _ := (Ok (), [], c);
  gz_try_finish c _ := (Ok (), [], c);
|}.

Lemma before_zero_length l : (length (before_zero l) <= length l)%nat.
Proof. induction l as [|b l IH]; cbn; [lia|]. destruct (b =? 0); cbn; lia. Qed.

#[local] Instance pass_codecs_laws : CodecLaws.
Proof.
  split.
  - intros c input capacity r n out c'. pose proof (before_zero_length input). cbn.
    destruct (_ && _) eqn:Hb; intros [= _ <- _].
    + apply andb_prop in Hb as [Hb%Nat.ltb_lt _]. lia.
    + rewrite length_take. lia.
  - intros c input capacity r n out c' [= _ <- _]. lia.
  - intros c input capacity n out c' [= <- _]. lia.
Qed.

(** The state after a list of steps, each with its input and [real_eof]. *)
Fixpoint drive (steps : list (list Z * bool))
    (st : StreamingDecoder * list (list Z * list Z) * list Z * list Z) :
    option (StreamingDecoder * list (list Z * list Z) * list Z * list Z) :=
  match steps with
  | [] => Some st
  | (input, real_eof) :: steps =>
      let '(d, h, i, o) := st in
      match decoder_step input real_eof d with
      | (Ok s, d') =>
          drive steps (d', record_call (advance_call input real_eof d) h,
                       (i ++ take (consumed s) input)%list, (o ++ default [] (output s))%list)
      | _ => None
      end
  end.

Lemma drive_decoding plan max steps d h i o d' h' i' o' :
  decoding plan max d h i o -> drive steps (d, h, i, o) = Some (d', h', i', o') ->
  decoding plan max d' h' i' o'.
Proof.
  revert d h i o; induction steps as [|[input eof] steps IH]; intros d h i o Hd; cbn [drive].
  { by intros [= <- <- <- <-]. }
  destruct (decoder_step input eof d) as [[s|e] d1] eqn:Hs; [|done].
  apply IH. by econstructor.
Qed.

Definition sample_plan : StreamingDecodePlan := {| codings := [StreamDeflate; StreamGzip] |}.
Definition sample_start := (streaming_decoder_new sample_plan (Some 3), replicate 2 ([] : list Z, [] : list Z),
  [] : list Z, [] : list Z).
Definition sample_steps : list (list Z * bool) :=
  [([1; 2], false); ([3; 0], true); ([3; 0], true); ([3; 0], true); ([3; 0], true); ([0], true);
   ([], true); ([], true); ([], true); ([], true); ([], true); ([], true)].

(** The decoder after the first [n] steps. *)
Definition sample_after (n : nat) : StreamingDecoder :=
  match drive (take n sample_steps) sample_start with
  | Some (d, _, _, _) => d
  | None => streaming_decoder_new sample_plan None
  end.

Lemma sample_decoding n h i o :
  drive (take n sample_steps) sample_start = Some (sample_after n, h, i, o) ->
  decoding sample_plan (Some 3) (sample_after n) h i o.
Proof. intros Hd. eapply drive_decoding; [|exact Hd]. apply decoding_new. Qed.

Lemma sample_within : within (Some 3) 0.
Proof. by intros limit [= <-]. Qed.

Lemma streaming_pipeline_exact_witness :
  finished (sample_after 12) = true /\ encoded_bytes (sample_after 12) = 4.
Proof.
  assert (Hrun : drive (take 12 sample_steps) sample_start =
    Some (sample_after 12, [([1; 2; 3; 0], [1; 2; 3]); ([1; 2; 3], [1; 2; 3])],
          [1; 2; 3; 0], [1; 2; 3])) by (vm_compute; reflexivity).
  split; [vm_compute; reflexivity|].
  exact (proj1 (proj2 (streaming_pipeline_exact _ _ _ _ _ _ sample_within
    (sample_decoding 12 _ _ _ Hrun)))).
Defined.

Lemma streaming_idle_step_progresses_witness :
  let d' := snd (decoder_step [] true (sample_after 6)) in
  (Progress = Finished \/ finished_layers (layers (sample_after 6)) < finished_layers (layers d'))%nat.
Proof.
  assert (Hrun : drive (take 6 sample_steps) sample_start =
    Some (sample_after 6, [([1; 2; 3; 0], [1; 2; 3]); ([1; 2; 3], [1; 2; 3])],
          [1; 2; 3; 0], [1; 2; 3])) by (vm_compute; reflexivity).
  assert (Hstep : decoder_step [] true (sample_after 6) =
    (Ok {| consumed := 0; output := None; status := Progress |},
     snd (decoder_step [] true (sample_after 6)))) by (vm_compute; reflexivity).
  assert (Hcall : advance_call [] true (sample_after 6) = None) by (vm_compute; reflexivity).
  exact (streaming_idle_step_progresses sample_plan _ _ _ _ _ [] _ _ sample_within
    (sample_decoding 6 _ _ _ Hrun) ltac:(discriminate) Hstep Hcall).
Defined.

Lemma decoder_failure_is_final_witness : exists e d',
  decoder_step [1; 2; 3; 4] false (streaming_decoder_new {| codings := [] |} (Some 3)) = (Err e, d') /\
  decoder_step [5] true d' = (Err e, d').
Proof.
  eexists _, _. split; [reflexivity|]. exact (decoder_failure_is_final [1; 2; 3; 4] false
    (streaming_decoder_new {| codings := [] |} (Some 3)) _ _ [5] true eq_refl).
Defined.

Lemma step_status_sound_witness : exists d',
  decoder_step [] true (sample_after 12) =
    (Ok {| consumed := 0; output := None; status := Finished |}, d') /\ finished d' = true.
Proof.
  assert (Hstep : decoder_step [] true (sample_after 12) =
    (Ok {| consumed := 0; output := None; status := Finished |},
     snd (decoder_step [] true (sample_after 12)))) by (vm_compute; reflexivity).
  eexists. split; [exact Hstep|].
  exact (proj2 (proj1 (step_status_sound [] true (sample_after 12) _ _ Hstep) eq_refl)).
Defined.

Definition sample_encodings : list (string * list Z) :=
  [("content-encoding", bytes "gzip, identity"); ("content-encoding", bytes "br")].

Lemma plan_from_headers_correct_witness : exists plan,
  plan_from_headers (H := pair_http_crate) sample_encodings = Ok plan /\
  codings plan = [StreamBrotli; StreamGzip] /\ (length (codings plan) <= MAX_LAYERS)%nat.
Proof.
  exists {| codings := [StreamBrotli; StreamGzip] |}. split; [reflexivity|]. split; [reflexivity|].
  destruct (plan_from_headers_correct (H := pair_http_crate) sample_encodings
    {| codings := [StreamBrotli; StreamGzip] |} eq_refl) as (strs & _ & _ & _ & Hlen & _).
  exact Hlen.
Defined.
