(* ===== verification/Sync.v ===== *)
(** * Tokio's synchronisation primitives

    [tokio::sync::{Semaphore, Notify}] are parameters: their operations as one
    indivisible step each, with the documented behaviour the client relies on as
    laws.  A [Notify] here has a single waiter, the only way the client uses it.
    Sums over the tasks of a system are shared by the components built on them. *)

From S2P Require Import Prelude.

Local Open Scope Z_scope.

Inductive TryAcquireError := NoPermits | SemaphoreClosed.

Class TokioSync := {
  Semaphore : Type;
  semaphore_new : Z -> Semaphore;
  available_permits : Semaphore -> Z;
  is_closed : Semaphore -> bool;
  try_acquire_owned : Semaphore -> result Semaphore TryAcquireError;
  (** dropping an [OwnedSemaphorePermit] *)
  release_permit : Semaphore -> Semaphore;
  Notify : Type;
  notify_new : Notify;
  notify_one : Notify -> Notify;
  (** creating the future of [notified()] and enabling it *)
  notified_enable : Notify -> Notify;
  (** polling that future: the next state when it is ready *)
  notified_poll : Notify -> option Notify;
}.

Class TokioLaws `{TokioSync} := {
  available_new : forall n, 0 <= n -> available_permits (semaphore_new n) = n;
  open_new : forall n, is_closed (semaphore_new n) = false;
  try_acquire_spec : forall s, is_closed s = false ->
    match try_acquire_owned s with
    | Ok s' => 0 < available_permits s /\ available_permits s' = available_permits s - 1 /\
               is_closed s' = false
    | Err NoPermits => available_permits s = 0
    | Err SemaphoreClosed => False
    end;
  available_release : forall s, is_closed s = false ->
    available_permits (release_permit s) = available_permits s + 1 /\
    is_closed (release_permit s) = false;
  notify_one_ready : forall n, is_Some (notified_poll (notify_one n));
  enable_ready : forall n, is_Some (notified_poll n) -> is_Some (notified_poll (notified_enable n));
}.

(** Counting semaphores and a flag satisfy the laws. *)
Definition counting_semaphores : TokioSync := {|
  Semaphore := N;
  semaphore_new n := Z.to_N n;
  available_permits s := Z.of_N s;
  is_closed _ := false;
  try_acquire_owned s := if (s =? 0)%N then Err NoPermits else Ok (N.pred s);
  release_permit s := N.succ s;
  Notify := bool;
  notify_new := false;
  notify_one _ := true;
  notified_enable n := n;
  notified_poll n := if n then Some false else None;
|}.

#[export] Instance counting_laws : @TokioLaws counting_semaphores.
Proof.
  split; cbn.
  - intros n Hn. by rewrite Z2N.id.
  - done.
  - intros s _. destruct (N.eqb_spec s 0) as [->|Hs]; [done|]. cbn. split_and!; [lia|lia|done].
  - intros s _. split; [lia|done].
  - by eexists.
  - done.
Qed.

(** ** Sums over the tasks of a system *)
Section sums.
Context {T : Type} (f : T -> Z).

Fixpoint sum_over (ts : list T) : Z :=
  match ts with [] => 0 | t :: ts => f t + sum_over ts end.

Lemma sum_over_app ts ts' : sum_over (ts ++ ts') = sum_over ts + sum_over ts'.
Proof. induction ts as [|t ts IH]; cbn; [done|]. lia. Qed.

Lemma sum_over_insert ts i t t' :
  ts !! i = Some t -> sum_over (<[i := t']> ts) = sum_over ts - f t + f t'.
Proof.
  revert i; induction ts as [|x ts IH]; intros [|i] Hi; try done.
  - injection Hi as ->. cbn. lia.
  - cbn in Hi |- *. rewrite IH by done. lia.
Qed.

Lemma sum_over_zero ts : (forall t, t ∈ ts -> f t = 0) -> sum_over ts = 0.
Proof.
  induction ts as [|t ts IH]; intros Ht; cbn; [done|].
  rewrite Ht, IH by set_solver. done.
Qed.

Lemma sum_over_member ts i t :
  (forall t, 0 <= f t) -> ts !! i = Some t -> f t <= sum_over ts.
Proof.
  intros Hf. revert i; induction ts as [|x ts IH]; intros [|i] Hi; try done.
  - injection Hi as ->. cbn. enough (0 <= sum_over ts) by lia.
    clear IH. induction ts as [|y ts IH]; cbn; [done|]. specialize (Hf y). lia.
  - cbn in *. specialize (Hf x). specialize (IH _ Hi). lia.
Qed.

Lemma sum_over_witness ts : 0 < sum_over ts -> exists i t, ts !! i = Some t /\ 0 < f t.
Proof.
  induction ts as [|t ts IH]; cbn; [lia|]. intros Hs. destruct (decide (0 < f t)).
  - by exists 0%nat, t.
  - destruct IH as (i & t' & ? & ?); [lia|]. by exists (S i), t'.
Qed.

Lemma sum_over_nonneg ts : (forall t, 0 <= f t) -> 0 <= sum_over ts.
Proof. intros Hf. induction ts as [|t ts IH]; cbn; [done|]. specialize (Hf t). lia. Qed.

Lemma sum_over_elem ts t : (forall t, 0 <= f t) -> t ∈ ts -> f t <= sum_over ts.
Proof. intros Hf [i Hi]%list_elem_of_lookup. by eapply sum_over_member. Qed.
End sums.

Lemma sum_over_le {T} (f g : T -> Z) ts :
  (forall t, t ∈ ts -> f t <= g t) -> sum_over f ts <= sum_over g ts.
Proof.
  induction ts as [|t ts IH]; intros Hle; cbn; [done|].
  pose proof (Hle t ltac:(set_solver)).
  pose proof (IH ltac:(set_solver)). lia.
Qed.

#[export] Instance sum_over_proper T :
  Proper (pointwise_relation T eq ==> eq ==> eq) (@sum_over T).
Proof. intros f g Hfg ts ? <-. induction ts as [|t ts IH]; cbn; [done|]. by rewrite Hfg, IH. Qed.
