(* ===== verification/Tasks.v ===== *)
(** * Tasks that interleave

    A task is the list of what it still has to do.  Each action is one indivisible step on
    the shared state, a section under a lock or one atomic operation; it logs what others
    can observe and puts the actions that follow from it before the rest of its task.
    What tasks owe, what the log shows and what the state holds is kept in ledgers, and a
    measure of the work left bounds every run. *)

From S2P Require Import Prelude Sync.

Local Open Scope Z_scope.

Definition b2z (b : bool) : Z := if b then 1 else 0.

Section tasks.
Context {Action State Log Input : Type}.

Record System := { state : State; tasks : list (list Action); log : list Log }.

#[export] Instance eta_System : Eta System := fun s => Build_System (state s) (tasks s) (log s).

Definition actions (s : System) : list Action := mjoin (tasks s).

(** The actions around the first one of a task, before and after it. *)
Lemma actions_task s i (a : Action) rest : tasks s !! i = Some (a :: rest) ->
  exists before after : list Action, actions s = before ++ a :: rest ++ after /\
    forall todo, mjoin (<[i := todo ++ rest]> (tasks s)) = before ++ todo ++ rest ++ after.
Proof.
  intros Hi.
  assert (E : tasks s = take i (tasks s) ++ (a :: rest) :: drop (S i) (tasks s)) by (by rewrite take_drop_middle).
  exists (mjoin (take i (tasks s))), (mjoin (drop (S i) (tasks s))). unfold actions. split.
  - rewrite E at 1. rewrite join_app. cbn. by rewrite app_comm_cons.
  - intros todo. rewrite insert_take_drop by (by eapply lookup_lt_Some). rewrite join_app. cbn. by rewrite <- app_assoc.
Qed.

(** What is pending stays pending, but for the action taken and what it leaves to do. *)
Lemma existsb_task (f : Action -> bool) before a todo rest after :
  existsb f (before ++ a :: rest ++ after) = true -> (f a = true -> existsb f todo = true) ->
  existsb f (before ++ todo ++ rest ++ after) = true.
Proof. rewrite !existsb_app. cbn. rewrite existsb_app, !orb_true_iff. tauto. Qed.

Lemma existsb_todo (f : Action -> bool) before todo rest after :
  existsb f todo = true -> existsb f (before ++ todo ++ rest ++ after) = true.
Proof. rewrite !existsb_app, !orb_true_iff. auto. Qed.

(** ** Ledgers

    What a ledger counts: actions that owe, log entries that paid, what is held. *)
Record Ledger := { owed : Action -> Z; paid : Log -> Z; held : State -> Z }.

Definition balanced (L : Ledger) (s : System) : Prop :=
  sum_over (owed L) (actions s) + sum_over (paid L) (log s) = held L (state s).

(** An action moves from owed to paid what it changes of what is held. *)
Definition keeps (L : Ledger) (a : Action) (c : State) (todo : list Action) (c' : State) (l : list Log) : Prop :=
  sum_over (owed L) todo + sum_over (paid L) l + held L c = owed L a + held L c'.

Lemma balanced_task L s i a rest todo c' l :
  tasks s !! i = Some (a :: rest) -> keeps L a (state s) todo c' l -> balanced L s ->
  balanced L (s <| state := c' |> <| tasks ::= <[i := todo ++ rest]> |> <| log ::= fun l0 => l0 ++ l |>).
Proof.
  intros Hi Hk. destruct (actions_task _ _ _ _ Hi) as (before & after & E1 & E2). unfold balanced, keeps in *.
  unfold actions at 2. cbn. rewrite E1, E2. rewrite !sum_over_app. cbn. rewrite !sum_over_app. lia.
Qed.

Lemma balanced_started L s a c' :
  owed L a = 0 -> held L c' = held L (state s) -> balanced L s ->
  balanced L (s <| state := c' |> <| tasks ::= fun ts => ts ++ [[a]] |>).
Proof.
  intros Ho Hh. unfold balanced, actions. cbn. rewrite join_app, sum_over_app. cbn. rewrite Ho, Hh. lia.
Qed.

(** A ledger without payments holds all that is owed. *)
Lemma owed_held L s i a rest :
  (forall l, paid L l = 0) -> (forall a, 0 <= owed L a) -> balanced L s -> tasks s !! i = Some (a :: rest) ->
  owed L a <= held L (state s).
Proof.
  intros Hp Ho Hb Hi. destruct (actions_task _ _ _ _ Hi) as (before & after & E & _). unfold balanced in Hb.
  assert (E0 : sum_over (paid L) (log s) = 0) by (by apply sum_over_zero).
  rewrite E0 in Hb. assert (a ∈ actions s) by (rewrite E; set_solver). pose proof (sum_over_elem (owed L) (actions s) a Ho H). lia.
Qed.

(** ** Steps *)

Variable act : Input -> Action -> State -> option (list Action * State * list Log).

Definition task_step (inp : Input) (t : list Action) (c : State) : option (list Action * State * list Log) :=
  match t with
  | [] => None
  | a :: rest => '(todo, c, l) ← act inp a c; Some (todo ++ rest, c, l)
  end.

Lemma task_head inp t c t' c' l : task_step inp t c = Some (t', c', l) ->
  exists a rest todo, t = a :: rest /\ t' = todo ++ rest /\ act inp a c = Some (todo, c', l).
Proof.
  destruct t as [|a rest]; [done|]. cbn. destruct (act inp a c) as [[[todo c1] l1]|] eqn:Ha; [|done]. cbn.
  intros [= <- <- <-]. by exists a, rest, todo.
Qed.

(** A step of a task, for some input. *)
Definition task_move (s s' : System) : Prop :=
  exists i inp t t' c l, tasks s !! i = Some t /\ task_step inp t (state s) = Some (t', c, l) /\
    s' = s <| state := c |> <| tasks ::= <[i := t']> |> <| log ::= fun l0 => l0 ++ l |>.

(** ** Every run ends *)

(** The work that is pending, and what the state keeps for later. *)
Variable work : Action -> Z.
Variable reserve : State -> Z.
Hypothesis work_nonneg : forall a, 0 <= work a.
Hypothesis reserve_nonneg : forall c, 0 <= reserve c.
Hypothesis act_work : forall inp a c todo c' l, act inp a c = Some (todo, c', l) -> sum_over work todo + reserve c' < work a + reserve c.

Definition total_work (s : System) : Z := sum_over work (actions s) + reserve (state s).

Lemma total_work_nonneg s : 0 <= total_work s.
Proof. unfold total_work. pose proof (sum_over_nonneg work (actions s) work_nonneg). pose proof (reserve_nonneg (state s)). lia. Qed.

Lemma task_move_work s s' : task_move s s' -> total_work s' < total_work s.
Proof.
  intros (i & inp & t & t' & c & l & Hi & Ht & ->). apply task_head in Ht as (a & rest & todo & -> & -> & Ha).
  destruct (actions_task _ _ _ _ Hi) as (before & after & E1 & E2). unfold total_work. unfold actions at 1. cbn. rewrite E1, E2.
  pose proof (act_work _ _ _ _ _ _ Ha). rewrite !sum_over_app. cbn. rewrite sum_over_app. lia.
Qed.

Lemma task_moves_bounded n s s' : nsteps task_move n s s' -> Z.of_nat n <= total_work s.
Proof.
  revert s. induction n as [|n IH]; intros s Hn.
  - pose proof (total_work_nonneg s). lia.
  - inversion Hn as [|? ? s1 ? Hm Hn1]; subst. apply IH in Hn1. apply task_move_work in Hm. lia.
Qed.

Definition finished (s : System) : Prop := Forall (fun t => t = []) (tasks s).

Lemma finished_dec s : finished s \/ Exists (fun t => t <> []) (tasks s).
Proof.
  unfold finished. induction (tasks s) as [|[|a t] ts [IH|IH]]; [by left|left; by constructor|right; by right|right; by left|right; by right].
Qed.

Lemma finished_actions s : finished s -> actions s = [].
Proof. unfold finished, actions. induction 1 as [|t ts -> _ IH]; [done|]. exact IH. Qed.

(** Where an invariant guarantees that unfinished work can go on, it can be finished. *)
Lemma tasks_settle (I : System -> Prop) s :
  (forall s s', I s -> task_move s s' -> I s') ->
  (forall s, I s -> Exists (fun t => t <> []) (tasks s) -> exists s', task_move s s') ->
  I s -> exists s', rtc task_move s s' /\ finished s'.
Proof.
  intros Hstep Hgo. remember (Z.to_nat (total_work s)) as n eqn:Hn. revert s Hn.
  induction n as [n IH] using lt_wf_ind. intros s Hn Hs.
  destruct (finished_dec s) as [Hf|He]; [by exists s|]. destruct (Hgo s Hs He) as [s1 Hm].
  pose proof (task_move_work _ _ Hm). pose proof (total_work_nonneg s1).
  destruct (IH (Z.to_nat (total_work s1)) ltac:(lia) s1 eq_refl) as (s' & Hs' & Hf); [by eapply Hstep|].
  exists s'. split; [by eapply rtc_l|done].
Qed.
End tasks.

Arguments System : clear implicits.
Arguments Ledger : clear implicits.
