(* ===== verification/Upload.v ===== *)
(** * Upload bodies

    [src/src/core/client/body.rs]: the bounded channel from the Python producers of a
    streamed request body to the transport, the body that reads it, and the completion
    that tells whether everything the producers sent is on the wire.  Producers, the
    transport and whoever asks [is_complete] run concurrently: a section under the
    channel's mutex is split at its atomic operations, which others see without the
    mutex; a section under the completion's mutex at the two loads of
    [is_finished_and_drained]. *)

From S2P Require Import Prelude Atomics Sync.

Local Open Scope Z_scope.

(** An item of the channel: the bytes of a chunk or the message of a failure. *)
Definition UploadBodyItem : Type := result (list Z) string.

(** ** The producers' side of the completion *)

Inductive ProducerState := ProducerOpen | ProducerFinished | ProducerFailed | ProducerAborted.
#[export] Instance ProducerState_eq_dec : EqDecision ProducerState.
Proof. solve_decision. Defined.

Record ProducerCompletion := {
  producer_state : ProducerState;
  outstanding_data_frames : Z;
}.
#[export] Instance eta_ProducerCompletion : Eta ProducerCompletion := fun p =>
  Build_ProducerCompletion (producer_state p) (outstanding_data_frames p).

Definition producer_completion_new : ProducerCompletion :=
  {| producer_state := ProducerOpen; outstanding_data_frames := 0 |}.

Definition record_data_frame (p : ProducerCompletion) : ProducerCompletion :=
  p <| outstanding_data_frames ::= fun n => wrapping_add n 1 |>.

Definition data_frame_consumed_body (outstanding : Z) : attempt unit :=
  match checked_sub outstanding 1 with
  | Some next => Swap next tt
  | None => Done tt
  end.
Definition data_frame_consumed (p : ProducerCompletion) : ProducerCompletion :=
  p <| outstanding_data_frames ::= fun n => snd (run_attempt data_frame_consumed_body n) |>.

(** [compare_exchange(PRODUCER_OPEN, to)]. *)
Definition leave_open (to : ProducerState) (p : ProducerCompletion) : ProducerCompletion :=
  if bool_decide (producer_state p = ProducerOpen) then p <| producer_state := to |> else p.
Definition producer_finish : ProducerCompletion -> ProducerCompletion := leave_open ProducerFinished.
Definition producer_fail : ProducerCompletion -> ProducerCompletion := leave_open ProducerFailed.
Definition producer_abort : ProducerCompletion -> ProducerCompletion := leave_open ProducerAborted.

(** ** The completion of a request body *)

Record CompletionState := {
  emitted_bytes : Z;
  reached_eof : bool;
  failed : bool;
  in_flight_frames : Z;
  transport_flushed : bool;
  (** whether [write_timeout] is set *)
  write_timed_out : bool;
}.
#[export] Instance eta_CompletionState : Eta CompletionState := fun c =>
  Build_CompletionState (emitted_bytes c) (reached_eof c) (failed c) (in_flight_frames c)
    (transport_flushed c) (write_timed_out c).

Definition completion_new : CompletionState :=
  {| emitted_bytes := 0; reached_eof := false; failed := false; in_flight_frames := 0;
     transport_flushed := false; write_timed_out := false |}.

Definition body_ended (expected : option Z) (c : CompletionState) : bool :=
  match expected with
  | Some n => emitted_bytes c =? n
  | None => reached_eof c
  end.

Definition mark_transport_flushed (expected : option Z) (c : CompletionState) : CompletionState :=
  if body_ended expected c && (in_flight_frames c =? 0) then c <| transport_flushed := true |> else c.

Definition mark_eof (c : CompletionState) : CompletionState := c <| reached_eof := true |>.
Definition mark_failed (c : CompletionState) : CompletionState := c <| failed := true |>.
Definition mark_write_timeout (c : CompletionState) : CompletionState := c <| write_timed_out := true |>.

Definition track_data (data : list Z) (c : CompletionState) : CompletionState :=
  c <| in_flight_frames ::= fun n => wrapping_add n 1 |>
    <| emitted_bytes ::= fun n => saturating_add n (Z.of_nat (length data)) |>.

(** [data_consumed] of a body with producers. *)
Definition data_consumed (c : CompletionState) (p : ProducerCompletion) :
    CompletionState * ProducerCompletion :=
  (c <| in_flight_frames ::= fun n => saturating_sub n 1 |>, data_frame_consumed p).

(** [is_complete] evaluates its conditions in this order, the first load of
    [is_finished_and_drained] after the body's end, the second after the first. *)
Definition is_complete_first (expected : option Z) (c : CompletionState) (p : ProducerCompletion) : bool :=
  body_ended expected c && bool_decide (producer_state p = ProducerFinished).
Definition is_complete_rest (c : CompletionState) (p : ProducerCompletion) : bool :=
  (outstanding_data_frames p =? 0) && negb (failed c) && (in_flight_frames c =? 0) && transport_flushed c.

(** [is_complete] without interference. *)
Definition is_complete (expected : option Z) (c : CompletionState) (p : ProducerCompletion) : bool :=
  is_complete_first expected c p && is_complete_rest c p.

(** ** The channel *)

(** What producers, transport and observers share.  [channel_locked]: a producer is
    inside its section; [receive_waker]: the transport's waker is registered; [woken]:
    it was woken.  [pushed] and [popped] record the history of the queue. *)
Record Shared := {
  queue : list UploadBodyItem;
  closed : bool;
  receive_waker : bool;
  channel_locked : bool;
  producer : ProducerCompletion;
  woken : bool;
  pushed : list UploadBodyItem;
  popped : list UploadBodyItem;
}.
#[export] Instance eta_Shared : Eta Shared := fun s =>
  Build_Shared (queue s) (closed s) (receive_waker s) (channel_locked s) (producer s) (woken s)
    (pushed s) (popped s).

Definition upload_body_channel : Shared :=
  {| queue := []; closed := false; receive_waker := false; channel_locked := false;
     producer := producer_completion_new; woken := false; pushed := []; popped := [] |}.

Inductive SendResult := SendOk | SendFull | SendClosed.

(** A producer between two of its steps. *)
Inductive Sender :=
(** [send_blocking] and [send_nowait], with [finish], before they take the mutex *)
| Sending (item : UploadBodyItem) (finish blocking : bool)
(** in [wait_send_ready], and woken there *)
| Waiting (item : UploadBodyItem) (finish : bool)
| Retrying (item : UploadBodyItem) (finish : bool)
(** under the mutex: after [push_back], [record_data_frame] and [fail] *)
| Pushed (item : UploadBodyItem) (finish : bool)
| Recorded (item : UploadBodyItem) (finish : bool)
| Settled (finish : bool)
(** [finish] and [close] before they take the mutex *)
| Finishing
| Closing
(** after the mutex: what is left to signal *)
| Signalling (notify_all wake : bool) (r : SendResult)
| Waking (wake : bool) (r : SendResult)
| Done (r : SendResult).

(** What a step signals to the producers that wait. *)
Inductive Signal := NoSignal | NotifyOne | NotifyAll.

(** One iteration of [send_blocking_inner] and [send_nowait_inner] up to the push. *)
Definition send_attempt (capacity : nat) (item : UploadBodyItem) (finish blocking : bool) (s : Shared) :
    option (Sender * Shared) :=
  if channel_locked s then None
  else if closed s then Some (Done SendClosed, s)
  else if (length (queue s) <? capacity)%nat then
    Some (Pushed item finish,
          s <| queue ::= fun q => q ++ [item] |> <| pushed ::= fun q => q ++ [item] |>
            <| channel_locked := true |>)
  else if blocking then Some (Waiting item finish, s)
  else Some (Done SendFull, s).

(** Takes [receive_waker]; the section ends. *)
Definition unlock (s : Shared) : Shared := s <| receive_waker := false |> <| channel_locked := false |>.

Definition channel_finish (s : Shared) : option (Sender * Shared) :=
  if channel_locked s then None
  else if closed s then Some (Done SendClosed, s)
  else Some (Signalling true (receive_waker s) SendOk,
             unlock (s <| producer ::= producer_finish |> <| closed := true |>)).

Definition channel_abort (s : Shared) : option (Sender * Shared) :=
  if channel_locked s then None
  else if closed s then Some (Done SendClosed, s)
  else Some (Signalling true (receive_waker s) SendOk,
             unlock (s <| producer ::= producer_abort |> <| closed := true |> <| queue := [] |>)).

Definition is_data (item : UploadBodyItem) : bool := match item with Ok _ => true | Err _ => false end.

Definition sender_step (capacity : nat) (t : Sender) (s : Shared) : option (Sender * Shared * Signal) :=
  match t with
  | Sending item finish blocking => '(t, s) ← send_attempt capacity item finish blocking s; Some (t, s, NoSignal)
  | Waiting _ _ => None
  | Retrying item finish => '(t, s) ← send_attempt capacity item finish true s; Some (t, s, NoSignal)
  | Pushed item finish =>
      Some (Recorded item finish, if is_data item then s <| producer ::= record_data_frame |> else s, NoSignal)
  | Recorded item finish =>
      Some (Settled finish, if is_data item then s else s <| producer ::= producer_fail |>, NoSignal)
  | Settled finish =>
      let s' := if finish then s <| producer ::= producer_finish |> <| closed := true |> else s in
      Some (Signalling finish (receive_waker s) SendOk, unlock s', NoSignal)
  | Finishing => '(t, s) ← channel_finish s; Some (t, s, NoSignal)
  | Closing => '(t, s) ← channel_abort s; Some (t, s, NoSignal)
  | Signalling all wake r => Some (Waking wake r, s, if all then NotifyAll else NoSignal)
  | Waking wake r => Some (Done r, if wake then s <| woken := true |> else s, NoSignal)
  | Done _ => None
  end.

(** ** The transport *)

(** [poll_frame] of the tracked body between two of its steps: after [poll_recv],
    after [notify_sender], after a poll that timed out or found the end. *)
Inductive Phase :=
| Idle
| Parked
| Popped (item : UploadBodyItem)
| Notified (item : UploadBodyItem)
| Ended
| TimedOut
| TimedOutMarked
| Gone.

(** [StreamingUploadBody]; [pending_since] is set while its timeout runs. *)
Record StreamingBody := {
  write_timeout : option Z;
  pending_since : option Z;
  finished : bool;
}.
#[export] Instance eta_StreamingBody : Eta StreamingBody := fun b =>
  Build_StreamingBody (write_timeout b) (pending_since b) (finished b).

Inductive RecvPoll := RecvItem (item : UploadBodyItem) | RecvClosed | RecvPending.

Definition poll_recv (s : Shared) : option (RecvPoll * Shared) :=
  if channel_locked s then None
  else
    match queue s with
    | item :: rest => Some (RecvItem item, s <| queue := rest |> <| popped ::= fun q => q ++ [item] |>)
    | [] => if closed s then Some (RecvClosed, s)
            else Some (RecvPending, s <| receive_waker := true |> <| woken := false |>)
    end.

Definition clear_pending_timeout (b : StreamingBody) : StreamingBody := b <| pending_since := None |>.

(** Whether the timer, started at the first pending poll, has fired at [now]. *)
Definition poll_pending_timeout (now : Z) (b : StreamingBody) : bool * StreamingBody :=
  match write_timeout b with
  | None => (false, b)
  | Some timeout =>
      let started := default now (pending_since b) in
      if timeout <=? elapsed started now
      then (true, b <| pending_since := Some started |> <| finished := true |>)
      else (false, b <| pending_since := Some started |>)
  end.

(** [poll_frame] of [StreamingUploadBody]. *)
Definition poll_frame (now : Z) (b : StreamingBody) (s : Shared) : option (Phase * StreamingBody * Shared) :=
  if finished b then Some (Ended, b, s)
  else
    '(r, s) ← poll_recv s;
    Some (match r with
          | RecvItem (Ok chunk) => (Popped (Ok chunk), clear_pending_timeout b, s)
          | RecvItem (Err message) => (Popped (Err message), clear_pending_timeout b <| finished := true |>, s)
          | RecvClosed => (Ended, clear_pending_timeout b <| finished := true |>, s)
          | RecvPending =>
              let (fired, b) := poll_pending_timeout now b in
              (if fired then TimedOut else Parked, b, s)
          end).

(** The [Content-Length] of a streamed body: a length of zero is not announced. *)
Definition wire_content_length (content_length : option Z) : option Z :=
  match content_length with
  | Some n => if 0 <? n then Some n else None
  | None => None
  end.

(** ** The system *)

(** [checking] is the first half of an [is_complete] under way; [emitted] the chunks
    handed to the transport; [reported] whether an [is_complete] has returned true. *)
Record System := {
  shared : Shared;
  senders : list Sender;
  phase : Phase;
  body : StreamingBody;
  completion : CompletionState;
  checking : option bool;
  emitted : list (list Z);
  reported : bool;
}.
#[export] Instance eta_System : Eta System := fun s =>
  Build_System (shared s) (senders s) (phase s) (body s) (completion s) (checking s) (emitted s)
    (reported s).

(** The calls a producer can make. *)
Definition producer_call (t : Sender) : Prop :=
  match t with Sending _ _ _ | Finishing | Closing => True | _ => False end.

Definition wake_sender (t : Sender) : Sender :=
  match t with Waiting item finish => Retrying item finish | t => t end.
Definition is_waiting (t : Sender) : bool := match t with Waiting _ _ => true | _ => false end.

Definition signal (g : Signal) (ts : list Sender) : list Sender :=
  match g with NotifyAll => wake_sender <$> ts | _ => ts end.

Section system.
Context (capacity : nat) (expected : option Z).

Inductive system_step (s : System) : System -> Prop :=
| step_call t :
    producer_call t -> system_step s (s <| senders ::= fun ts => ts ++ [t] |>)
| step_sender i t t' sh g :
    senders s !! i = Some t -> sender_step capacity t (shared s) = Some (t', sh, g) ->
    system_step s (s <| shared := sh |> <| senders ::= fun ts => signal g (<[i := t']> ts) |>)
(** a notification chooses one of the producers that wait; wakeups may be spurious *)
| step_spurious i item finish :
    senders s !! i = Some (Waiting item finish) ->
    system_step s (s <| senders ::= <[i := Retrying item finish]> |>)
| step_notify_one i w finish item :
    phase s = Popped item -> senders s !! i = Some (Waiting w finish) ->
    system_step s (s <| phase := Notified item |> <| senders ::= <[i := Retrying w finish]> |>)
| step_notify_none item :
    phase s = Popped item -> (forall t, t ∈ senders s -> is_waiting t = false) ->
    system_step s (s <| phase := Notified item |>)
| step_poll now ph b sh :
    phase s = Idle \/ phase s = Parked -> poll_frame now (body s) (shared s) = Some (ph, b, sh) ->
    system_step s (s <| phase := ph |> <| body := b |> <| shared := sh |>)
| step_track chunk :
    phase s = Notified (Ok chunk) -> checking s = None ->
    system_step s (s <| phase := Idle |> <| completion ::= track_data chunk |>
                     <| emitted ::= fun l => l ++ [chunk] |>)
| step_failed message :
    phase s = Notified (Err message) -> checking s = None ->
    system_step s (s <| phase := Idle |> <| completion ::= mark_failed |>)
| step_eof :
    phase s = Ended -> checking s = None ->
    system_step s (s <| phase := Idle |> <| completion ::= mark_eof |>)
| step_timed_out :
    phase s = TimedOut -> checking s = None ->
    system_step s (s <| phase := TimedOutMarked |> <| completion ::= mark_write_timeout |>)
| step_timed_out_failed :
    phase s = TimedOutMarked -> checking s = None ->
    system_step s (s <| phase := Idle |> <| completion ::= mark_failed |>)
(** the receiver is dropped with the body: [abort], like a producer's [close] *)
| step_drop :
    phase s = Idle \/ phase s = Parked ->
    system_step s (s <| phase := Gone |> <| senders ::= fun ts => ts ++ [Closing] |>)
(** the transport drops the bytes of a frame it wrote *)
| step_consume c p :
    0 < in_flight_frames (completion s) -> checking s = None ->
    data_consumed (completion s) (producer (shared s)) = (c, p) ->
    system_step s (s <| completion := c |> <| shared ::= fun sh => sh <| producer := p |> |>)
| step_flush :
    checking s = None ->
    system_step s (s <| completion ::= mark_transport_flushed expected |>)
| step_check_first :
    checking s = None ->
    system_step s (s <| checking := Some (is_complete_first expected (completion s) (producer (shared s))) |>)
| step_check_rest first :
    checking s = Some first ->
    system_step s (s <| checking := None |>
                     <| reported ::= fun r => r || first && is_complete_rest (completion s) (producer (shared s)) |>).
End system.

Definition initial (write_timeout : option Z) : System :=
  {| shared := upload_body_channel; senders := []; phase := Idle;
     body := {| write_timeout := write_timeout; pending_since := None; finished := false |};
     completion := completion_new; checking := None; emitted := []; reported := false |}.

Definition reachable (capacity : nat) (expected write_timeout : option Z) (s : System) : Prop :=
  rtc (system_step capacity expected) (initial write_timeout) s.

(** ** What the channel delivers *)

Definition b2z (b : bool) : Z := if b then 1 else 0.

Definition in_section (t : Sender) : Z :=
  match t with Pushed _ _ | Recorded _ _ | Settled _ => 1 | _ => 0 end.
Definition unrecorded (t : Sender) : Z :=
  match t with Pushed item _ => b2z (is_data item) | _ => 0 end.
Definition unfailed (t : Sender) : Z :=
  match t with Pushed item _ | Recorded item _ => b2z (negb (is_data item)) | _ => 0 end.

Definition count_data (l : list UploadBodyItem) : Z := sum_over (fun i => b2z (is_data i)) l.
Definition count_errors (l : list UploadBodyItem) : Z := sum_over (fun i => b2z (negb (is_data i))) l.
Definition total_bytes (l : list (list Z)) : Z := sum_over (fun c => Z.of_nat (length c)) l.

Definition in_hand (ph : Phase) : list UploadBodyItem :=
  match ph with Popped (Ok c) | Notified (Ok c) => [Ok c] | _ => [] end.

(** The chunks among the items. *)
Definition chunks (l : list UploadBodyItem) : list (list Z) :=
  omap (fun i => match i with Ok c => Some c | Err _ => None end) l.

(** Fewer items and bytes than a [u64] counts. *)
Definition small (s : System) : Prop :=
  Z.of_nat (length (pushed (shared s))) < USIZE_MAX /\ total_bytes (chunks (pushed (shared s))) < U64_MAX.

Definition broken (p : ProducerCompletion) : Prop :=
  producer_state p = ProducerFailed \/ producer_state p = ProducerAborted.

(** What producers hold: the mutex, data not counted yet, failures not set yet. *)
Definition sections (ts : list Sender) : Z := sum_over in_section ts.
Definition data_unrecorded (ts : list Sender) : Z := sum_over unrecorded ts.
Definition errors_unset (ts : list Sender) : Z := sum_over unfailed ts.

(** [lost]: data an abort removed from the queue; [rest]: the items it removed. *)
Record channel_ok (capacity : nat) (s : System) : Prop := {
  ok_lock : sections (senders s) = b2z (channel_locked (shared s));
  ok_closed : closed (shared s) = true -> channel_locked (shared s) = false;
  ok_capacity : (length (queue (shared s)) <= capacity)%nat;
  ok_history : exists rest, pushed (shared s) = popped (shared s) ++ queue (shared s) ++ rest /\
    (rest = [] \/ queue (shared s) = [] /\ closed (shared s) = true /\ broken (producer (shared s)));
  ok_emitted : chunks (popped (shared s)) = emitted s ++ chunks (in_hand (phase s));
  ok_outstanding : exists lost,
    outstanding_data_frames (producer (shared s)) + data_unrecorded (senders s) =
    count_data (queue (shared s)) + count_data (in_hand (phase s)) + in_flight_frames (completion s) + lost /\
    0 <= lost /\ (lost = 0 \/ closed (shared s) = true /\ broken (producer (shared s)));
  ok_bound : outstanding_data_frames (producer (shared s)) + data_unrecorded (senders s) <=
    Z.of_nat (length (pushed (shared s)));
  ok_unrecorded : data_unrecorded (senders s) <= count_data (queue (shared s));
  ok_in_flight : 0 <= in_flight_frames (completion s) <= Z.of_nat (length (emitted s));
  ok_bytes : emitted_bytes (completion s) = total_bytes (emitted s);
  ok_finished : producer_state (producer (shared s)) = ProducerFinished -> closed (shared s) = true;
  ok_errors : producer_state (producer (shared s)) = ProducerOpen ->
    count_errors (pushed (shared s)) = errors_unset (senders s);
  ok_finished_errors : producer_state (producer (shared s)) = ProducerFinished ->
    count_errors (pushed (shared s)) = 0;
}.

Lemma unsafe_nonneg t : 0 <= in_section t /\ 0 <= unrecorded t <= in_section t /\ 0 <= unfailed t <= in_section t.
Proof. by destruct t as [| | |[]|[]| | | | | |]. Qed.

Lemma unlocked_none ts :
  sections ts = 0 -> data_unrecorded ts = 0 /\ errors_unset ts = 0.
Proof.
  intros Hs. pose proof (sum_over_le unrecorded in_section ts (fun t _ => proj2 (proj1 (proj2 (unsafe_nonneg t))))) as H1.
  pose proof (sum_over_le unfailed in_section ts (fun t _ => proj2 (proj2 (proj2 (unsafe_nonneg t))))) as H2.
  pose proof (sum_over_nonneg unrecorded ts (fun t => proj1 (proj1 (proj2 (unsafe_nonneg t))))).
  pose proof (sum_over_nonneg unfailed ts (fun t => proj1 (proj2 (proj2 (unsafe_nonneg t))))).
  unfold sections, data_unrecorded, errors_unset in *. lia.
Qed.

(** Waking producers changes none of the sums; a step changes one term. *)
Lemma sum_over_wake f ts : (forall t, f (wake_sender t) = f t) -> sum_over f (wake_sender <$> ts) = sum_over f ts.
Proof. intros Hf. induction ts as [|t ts IH]; cbn; [done|]. by rewrite Hf, IH. Qed.

Lemma sum_over_signal f g ts i t t' :
  (forall t, f (wake_sender t) = f t) -> ts !! i = Some t ->
  sum_over f (signal g (<[i := t']> ts)) = sum_over f ts - f t + f t'.
Proof.
  intros Hf Hi. rewrite <- (sum_over_insert f ts i t t' Hi).
  destruct g; cbn; [done|done|by apply sum_over_wake].
Qed.

Lemma senders_update g ts i t t' :
  ts !! i = Some t ->
  sections (signal g (<[i := t']> ts)) = sections ts - in_section t + in_section t' /\
  data_unrecorded (signal g (<[i := t']> ts)) = data_unrecorded ts - unrecorded t + unrecorded t' /\
  errors_unset (signal g (<[i := t']> ts)) = errors_unset ts - unfailed t + unfailed t'.
Proof. intros Hi. split_and!; apply sum_over_signal; try done; by intros []. Qed.

Lemma senders_add ts t :
  producer_call t ->
  sections (ts ++ [t]) = sections ts /\ data_unrecorded (ts ++ [t]) = data_unrecorded ts /\
  errors_unset (ts ++ [t]) = errors_unset ts.
Proof.
  intros Ht. unfold sections, data_unrecorded, errors_unset. rewrite !sum_over_app. cbn.
  destruct t; cbn in *; try done; lia.
Qed.

#[local] Arguments sections : simpl never.
#[local] Arguments data_unrecorded : simpl never.
#[local] Arguments errors_unset : simpl never.
#[local] Arguments count_data : simpl never.
#[local] Arguments count_errors : simpl never.
#[local] Arguments total_bytes : simpl never.

Lemma count_data_app l l' : count_data (l ++ l') = count_data l + count_data l'.
Proof. apply sum_over_app. Qed.
Lemma count_errors_app l l' : count_errors (l ++ l') = count_errors l + count_errors l'.
Proof. apply sum_over_app. Qed.
Lemma total_bytes_app l l' : total_bytes (l ++ l') = total_bytes l + total_bytes l'.
Proof. apply sum_over_app. Qed.
Lemma chunks_app l l' : chunks (l ++ l') = chunks l ++ chunks l'.
Proof. apply omap_app. Qed.
Lemma count_data_one i : count_data [i] = b2z (is_data i).
Proof. unfold count_data. cbn. lia. Qed.
Lemma count_errors_one i : count_errors [i] = b2z (negb (is_data i)).
Proof. unfold count_errors. cbn. lia. Qed.
Lemma count_data_nonneg l : 0 <= count_data l.
Proof. apply sum_over_nonneg. by intros []. Qed.
Lemma count_data_length l : count_data l = Z.of_nat (length (chunks l)).
Proof.
  unfold count_data, chunks. induction l as [|[c|e] l IH]; cbn; [done| |]; rewrite IH; [|done].
  cbn. lia.
Qed.
Lemma total_bytes_nonneg l : 0 <= total_bytes l.
Proof. apply sum_over_nonneg. lia. Qed.

Lemma chunks_length l : (length (chunks l) <= length l)%nat.
Proof. unfold chunks. induction l as [|[c|e] l IH]; cbn; [done| |]; lia. Qed.

Lemma leave_open_cases to p :
  (producer_state p = ProducerOpen /\ leave_open to p = p <| producer_state := to |>) \/
  (producer_state p <> ProducerOpen /\ leave_open to p = p).
Proof. unfold leave_open. case_bool_decide; auto. Qed.

Lemma others_unlocked ts i t :
  ts !! i = Some t -> in_section t - unfailed t <= sections ts - errors_unset ts.
Proof.
  intros Hi. pose proof (sum_over_member (fun t => in_section t - unfailed t) ts i t) as Hm.
  assert (Hsub : forall l, sum_over (fun t => in_section t - unfailed t) l =
                           sum_over in_section l - sum_over unfailed l)
    by (induction l as [|x l IH]; cbn; [done|lia]).
  rewrite Hsub in Hm. apply Hm; [|done]. intros t'. pose proof (unsafe_nonneg t'). lia.
Qed.

Lemma not_locked_sections capacity s : channel_ok capacity s -> channel_locked (shared s) = false ->
  sections (senders s) = 0 /\ data_unrecorded (senders s) = 0 /\ errors_unset (senders s) = 0.
Proof.
  intros Hok Hl. pose proof (ok_lock _ _ Hok) as H. rewrite Hl in H. cbn in H.
  split; [done|]. by apply unlocked_none.
Qed.

(** The producer that starts to send: nothing changes but the queue. *)
Lemma channel_ok_send capacity s i t item finish blocking t' sh :
  channel_ok capacity s -> senders s !! i = Some t ->
  in_section t = 0 -> unrecorded t = 0 -> unfailed t = 0 ->
  send_attempt capacity item finish blocking (shared s) = Some (t', sh) ->
  channel_ok capacity (s <| shared := sh |> <| senders ::= fun ts => <[i := t']> ts |>).
Proof.
  intros Hok Hi Hs Hu Hf. unfold send_attempt.
  destruct (channel_locked (shared s)) eqn:Hl; [done|].
  destruct (not_locked_sections _ _ Hok Hl) as (E1 & E2 & E3).
  pose proof (senders_update NoSignal _ _ _ t' Hi) as (U1 & U2 & U3). cbn in U1, U2, U3.
  assert (Hsame : in_section t' = 0 -> unrecorded t' = 0 -> unfailed t' = 0 ->
    channel_ok capacity (s <| shared := shared s |> <| senders ::= fun ts => <[i := t']> ts |>)).
  { intros S1 S2 S3. destruct Hok. split; cbn; rewrite ?U1, ?U2, ?U3, ?Hs, ?Hu, ?Hf, ?S1, ?S2, ?S3, ?Z.sub_0_r, ?Z.add_0_r; done. }
  destruct (closed (shared s)) eqn:Hc; [intros [= <- <-]; by apply Hsame|].
  destruct (Nat.ltb_spec (length (queue (shared s))) capacity);
    [|destruct blocking; intros [= <- <-]; by apply Hsame].
  intros [= <- <-]. destruct Hok. cbn in U1, U2, U3.
  destruct ok_history0 as (rest & Hpushed & [->|(_ & ? & _)]); [|congruence].
  rewrite app_nil_r in Hpushed. destruct ok_outstanding0 as (lost & Hout & Hlost & Hnone).
  assert (0 <= b2z (is_data item) <= 1) by (by destruct (is_data item)).
  split; cbn; rewrite ?U1, ?U2, ?U3, ?count_data_app, ?count_errors_app, ?length_app, ?count_data_one, ?count_errors_one;
    cbn; try done; try lia.
  - congruence.
  - exists []. rewrite app_nil_r, Hpushed, app_assoc. auto.
  - exists lost. split_and!; [lia|done|]. rewrite Hc in Hnone. destruct Hnone as [?|[? _]]; [by left|congruence].
  - intros Hp. specialize (ok_errors0 Hp). lia.
  - intros Hp. specialize (ok_finished0 Hp). congruence.
Qed.

Lemma leave_open_outstanding to p :
  outstanding_data_frames (leave_open to p) = outstanding_data_frames p.
Proof. destruct (leave_open_cases to p) as [[_ ->]|[_ ->]]; done. Qed.

Lemma broken_leave_open to p : broken p -> leave_open to p = p.
Proof. intros Hb. destruct (leave_open_cases to p) as [[Ho _]|[_ ->]]; [|done]. destruct Hb; congruence. Qed.

(** Under the mutex the channel is open and nothing was lost. *)
Lemma in_section_facts capacity s i t :
  channel_ok capacity s -> senders s !! i = Some t -> in_section t = 1 ->
  sections (senders s) = 1 /\ closed (shared s) = false /\
  pushed (shared s) = popped (shared s) ++ queue (shared s) /\
  outstanding_data_frames (producer (shared s)) + data_unrecorded (senders s) =
    count_data (queue (shared s)) + count_data (in_hand (phase s)) + in_flight_frames (completion s) /\
  producer_state (producer (shared s)) <> ProducerFinished.
Proof.
  intros [] Hi Ht.
  assert (Hpos : 1 <= sections (senders s)).
  { pose proof (sum_over_member in_section (senders s) i t (fun t => proj1 (unsafe_nonneg t)) Hi).
    unfold sections. lia. }
  assert (Hl : channel_locked (shared s) = true) by (destruct (channel_locked (shared s)); [done|]; cbn in *; lia).
  assert (Hc : closed (shared s) = false) by (destruct (closed (shared s)); [|done]; rewrite ok_closed0 in Hl; done).
  rewrite Hl in ok_lock0. destruct ok_history0 as (rest & Hp & [->|(_ & ? & _)]); [|congruence].
  destruct ok_outstanding0 as (lost & Hout & _ & [->|[? _]]); [|congruence].
  rewrite app_nil_r in Hp. split_and!; [done|done|done|lia|]. intros Hf. specialize (ok_finished0 Hf). congruence.
Qed.

Lemma channel_ok_section capacity s i t t' sh g :
  channel_ok capacity s -> small s -> senders s !! i = Some t -> in_section t = 1 ->
  sender_step capacity t (shared s) = Some (t', sh, g) ->
  channel_ok capacity (s <| shared := sh |> <| senders ::= fun ts => signal g (<[i := t']> ts) |>).
Proof.
  intros Hok [Hsmall _] Hi Ht Hstep.
  destruct (in_section_facts _ _ _ _ Hok Hi Ht) as (E1 & Hc & Hp & Hout & Hnf).
  pose proof (senders_update g _ _ _ t' Hi) as (U1 & U2 & U3).
  pose proof (others_unlocked _ _ _ Hi) as Hothers. pose proof (unlocked_none (senders s)) as Hnone.
  destruct Hok. destruct t as [| | |item finish|item finish|finish| | | | |]; try done; injection Hstep as <- <- <-;
    cbn in U1, U2, U3, Hothers |- *.
  - assert (Hrec : is_data item = true ->
      outstanding_data_frames (record_data_frame (producer (shared s))) =
      outstanding_data_frames (producer (shared s)) + 1).
    { intros Hd. rewrite Hd in *. cbn. pose proof (count_data_nonneg (queue (shared s))).
      pose proof (count_data_nonneg (in_hand (phase s))).
      pose proof (sum_over_member unrecorded (senders s) i (Pushed item finish)
        (fun t => proj1 (proj1 (proj2 (unsafe_nonneg t)))) Hi) as Hm. cbn in Hm. rewrite Hd in Hm. cbn in Hm.
      unfold data_unrecorded in *. rewrite wrapping_add_small; [done|]. unfold USIZE_MAX in *. lia. }
    destruct (is_data item) eqn:Hd; cbn in *; [specialize (Hrec eq_refl)|];
      (split; cbn; rewrite ?U1, ?U2, ?U3, ?Hrec; try done; try lia);
      try (exists []; rewrite app_nil_r; auto; fail); try (exists 0; auto with lia; fail);
      intros Ho; specialize (ok_errors0 Ho); lia.
  - destruct (leave_open_cases ProducerFailed (producer (shared s))) as [[Ho E]|[Ho E]];
      destruct (is_data item) eqn:Hd; cbn in *; unfold producer_fail;
      (split; cbn; rewrite ?U1, ?U2, ?U3, ?E; cbn; try done; try lia);
      try (exists []; rewrite app_nil_r; auto; fail); try (exists 0; auto with lia; fail);
      intros Ho'; specialize (ok_errors0 Ho'); lia.
  - destruct finish; cbn.
    + assert (Hu : errors_unset (senders s) = 0).
      { pose proof (sum_over_nonneg unfailed (senders s) (fun t => proj1 (proj2 (proj2 (unsafe_nonneg t))))).
        unfold errors_unset in *. lia. }
      destruct (leave_open_cases ProducerFinished (producer (shared s))) as [[Ho E]|[Ho E]]; unfold producer_finish;
      (split; cbn; rewrite ?U1, ?U2, ?U3, ?E; cbn; try done; try lia);
      try (exists []; rewrite app_nil_r; auto; fail); try (exists 0; auto with lia; fail);
      intros Ho'; specialize (ok_errors0 Ho); lia.
    + split; cbn; rewrite ?U1, ?U2, ?U3; cbn; try done; try lia;
      try (exists []; rewrite app_nil_r; auto; fail); try (exists 0; auto with lia; fail).
      intros Ho; specialize (ok_errors0 Ho); lia.
Qed.

Lemma not_locked_state capacity s :
  channel_ok capacity s -> channel_locked (shared s) = false -> closed (shared s) = false ->
  pushed (shared s) = popped (shared s) ++ queue (shared s) /\
  outstanding_data_frames (producer (shared s)) =
    count_data (queue (shared s)) + count_data (in_hand (phase s)) + in_flight_frames (completion s).
Proof.
  intros Hok Hl Hc. destruct (not_locked_sections _ _ Hok Hl) as (_ & E2 & _). destruct Hok.
  destruct ok_history0 as (rest & Hp & [->|(_ & ? & _)]); [|congruence]. rewrite app_nil_r in Hp.
  destruct ok_outstanding0 as (lost & Hout & _ & [->|[? _]]); [|congruence]. split; [done|]. lia.
Qed.

Lemma channel_ok_finish capacity s i t' sh :
  channel_ok capacity s -> senders s !! i = Some Finishing -> channel_finish (shared s) = Some (t', sh) ->
  channel_ok capacity (s <| shared := sh |> <| senders ::= fun ts => <[i := t']> ts |>).
Proof.
  intros Hok Hi. unfold channel_finish.
  destruct (channel_locked (shared s)) eqn:Hl; [done|].
  destruct (not_locked_sections _ _ Hok Hl) as (E1 & E2 & E3).
  pose proof (senders_update NoSignal _ _ _ t' Hi) as (U1 & U2 & U3). cbn in U1, U2, U3.
  destruct (closed (shared s)) eqn:Hc; intros [= <- <-]; cbn in U1, U2, U3.
  - destruct Hok. split; cbn; rewrite ?U1, ?U2, ?U3, ?Z.sub_0_r, ?Z.add_0_r; done.
  - destruct (not_locked_state _ _ Hok Hl Hc) as [Hp Hout]. destruct Hok.
    destruct (leave_open_cases ProducerFinished (producer (shared s))) as [[Ho E]|[Ho E]]; unfold producer_finish;
      (split; cbn; rewrite ?U1, ?U2, ?U3, ?E; cbn; try done; try lia);
      try (exists []; rewrite app_nil_r; auto; fail); try (exists 0; auto with lia; fail);
      intros Ho'; specialize (ok_errors0 Ho); lia.
Qed.

Lemma channel_ok_abort capacity s i t' sh :
  channel_ok capacity s -> senders s !! i = Some Closing -> channel_abort (shared s) = Some (t', sh) ->
  channel_ok capacity (s <| shared := sh |> <| senders ::= fun ts => <[i := t']> ts |>).
Proof.
  intros Hok Hi. unfold channel_abort.
  destruct (channel_locked (shared s)) eqn:Hl; [done|].
  destruct (not_locked_sections _ _ Hok Hl) as (E1 & E2 & E3).
  pose proof (senders_update NoSignal _ _ _ t' Hi) as (U1 & U2 & U3). cbn in U1, U2, U3.
  destruct (closed (shared s)) eqn:Hc; intros [= <- <-]; cbn in U1, U2, U3.
  - destruct Hok. split; cbn; rewrite ?U1, ?U2, ?U3, ?Z.sub_0_r, ?Z.add_0_r; done.
  - destruct (not_locked_state _ _ Hok Hl Hc) as [Hp Hout]. destruct Hok.
    assert (Hbroken : broken (producer_abort (producer (shared s)))).
    { unfold producer_abort, broken. destruct (leave_open_cases ProducerAborted (producer (shared s))) as [[Ho E]|[Ho E]];
        rewrite E; [by right|]. destruct (producer_state (producer (shared s))) eqn:Hs; auto; try done.
      specialize (ok_finished0 eq_refl). congruence. }
    assert (Eout : outstanding_data_frames (producer_abort (producer (shared s))) =
      outstanding_data_frames (producer (shared s))) by apply leave_open_outstanding.
    pose proof (count_data_nonneg (queue (shared s))).
    split; cbn; unfold unlock; cbn; rewrite ?U1, ?U2, ?U3, ?Eout; cbn; try done; try lia.
    + exists (queue (shared s)). auto.
    + exists (count_data (queue (shared s))). change (count_data []) with 0. split_and!; [lia|lia|by right].
    + change (count_data []) with 0. lia.
    + intros Hf. destruct Hbroken; congruence.
    + intros Hf. destruct Hbroken; congruence.
Qed.

Lemma channel_ok_sender capacity s i t t' sh g :
  channel_ok capacity s -> small s -> senders s !! i = Some t ->
  sender_step capacity t (shared s) = Some (t', sh, g) ->
  channel_ok capacity (s <| shared := sh |> <| senders ::= fun ts => signal g (<[i := t']> ts) |>).
Proof.
  intros Hok Hsmall Hi Hstep.
  destruct (decide (in_section t = 1)) as [Hin|Hin]; [by eapply channel_ok_section|].
  destruct t as [item finish blocking| |item finish| | | | | |all wake r|wake r|]; try done; cbn in Hstep.
  - destruct (send_attempt _ _ _ _ _) as [[t1 sh1]|] eqn:Ha; [|done]. injection Hstep as <- <- <-.
    by eapply channel_ok_send.
  - destruct (send_attempt _ _ _ _ _) as [[t1 sh1]|] eqn:Ha; [|done]. injection Hstep as <- <- <-.
    by eapply channel_ok_send.
  - destruct (channel_finish _) as [[t1 sh1]|] eqn:Ha; [|done]. injection Hstep as <- <- <-.
    by eapply channel_ok_finish.
  - destruct (channel_abort _) as [[t1 sh1]|] eqn:Ha; [|done]. injection Hstep as <- <- <-.
    by eapply channel_ok_abort.
  - injection Hstep as <- <- <-.
    destruct (senders_update (if all then NotifyAll else NoSignal) _ _ _ (Waking wake r) Hi) as (U1 & U2 & U3).
    cbn in U1, U2, U3.
    destruct Hok. split; cbn; rewrite ?U1, ?U2, ?U3, ?Z.sub_0_r, ?Z.add_0_r; done.
  - injection Hstep as <- <- <-. destruct (senders_update NoSignal _ _ _ (Done r) Hi) as (U1 & U2 & U3).
    cbn in U1, U2, U3.
    destruct Hok; destruct wake; split; cbn; rewrite ?U1, ?U2, ?U3, ?Z.sub_0_r, ?Z.add_0_r; done.
Qed.

Lemma channel_ok_poll capacity s now ph b sh :
  channel_ok capacity s -> phase s = Idle \/ phase s = Parked ->
  poll_frame now (body s) (shared s) = Some (ph, b, sh) ->
  channel_ok capacity (s <| phase := ph |> <| body := b |> <| shared := sh |>).
Proof.
  intros Hok Hph. assert (Hhand : in_hand (phase s) = []) by (by destruct Hph as [-> | ->]).
  unfold poll_frame, poll_recv.
  assert (Hquiet : forall ph b w x, in_hand ph = [] ->
    channel_ok capacity (s <| phase := ph |> <| body := b |>
      <| shared := (shared s) <| receive_waker := w |> <| woken := x |> |>)).
  { intros ph' b' w x Hh. destruct Hok. rewrite Hhand in *. split; cbn; rewrite ?Hh; done. }
  assert (Hsame : shared s = (shared s) <| receive_waker := receive_waker (shared s) |> <| woken := woken (shared s) |>)
    by (by destruct (shared s)).
  destruct (finished (body s)); [intros [= <- <- <-]; rewrite Hsame; by apply Hquiet|].
  destruct (channel_locked (shared s)) eqn:Hl; [done|].
  destruct (not_locked_sections _ _ Hok Hl) as (_ & E2 & _).
  destruct (queue (shared s)) as [|item rest] eqn:Hq.
  - destruct (closed (shared s)) eqn:Hc; cbn.
    + intros [= <- <- <-]. rewrite Hsame. by apply Hquiet.
    + destruct (poll_pending_timeout now (body s)) as [[] b1]; intros [= <- <- <-]; by apply Hquiet.
  - intros Hpoll.
    assert (Hr : exists b1, (ph, b, sh) = (Popped item, b1, (shared s) <| queue := rest |> <| popped ::= fun q => q ++ [item] |>)).
    { cbn in Hpoll. destruct item; injection Hpoll as <- <- <-; eauto. }
    destruct Hr as [b1 [= -> -> ->]]. clear Hpoll. destruct Hok.
    rewrite Hq in *. rewrite Hhand in *. pose proof (count_data_app [item] rest) as Happ. cbn in Happ.
    rewrite count_data_one in Happ.
    destruct ok_history0 as (lost_items & Hp & Hdis).
    split; cbn; rewrite ?chunks_app; try done; try lia.
    + cbn in ok_capacity0. lia.
    + exists lost_items. split; [by rewrite Hp, <- !app_assoc|]. left. by destruct Hdis as [?|[? _]].
    + rewrite ok_emitted0. cbn. rewrite app_nil_r. by destruct item.
    + destruct ok_outstanding0 as (lost & Hout & Hlost). exists lost. split; [|done].
      rewrite Hout, Happ. destruct item; cbn; rewrite ?count_data_one; change (count_data []) with 0; cbn; lia.
    + rewrite E2. apply count_data_nonneg.
Qed.

Lemma emitted_small capacity s chunk :
  channel_ok capacity s -> small s -> in_hand (phase s) = [Ok chunk] ->
  total_bytes (emitted s ++ [chunk]) <= U64_MAX /\ Z.of_nat (length (emitted s ++ [chunk])) < USIZE_MAX.
Proof.
  intros Hok [Hlen Hbytes] Hh. destruct Hok. rewrite Hh in ok_emitted0. cbn in ok_emitted0.
  rewrite <- ok_emitted0. destruct ok_history0 as (rest & Hp & _). rewrite Hp in *.
  rewrite chunks_app, total_bytes_app in Hbytes. rewrite length_app in Hlen.
  pose proof (total_bytes_nonneg (chunks (queue (shared s) ++ rest))).
  pose proof (chunks_length (popped (shared s))). lia.
Qed.

Lemma channel_ok_transport capacity expected s s' :
  channel_ok capacity s -> small s -> system_step capacity expected s s' -> channel_ok capacity s'.
Proof.
  intros Hok Hsmall. destruct 1 as [t Ht|i t t' sh g Hi Hstep|i item finish Hi|i w finish item Hph Hi|item Hph _
    |now ph b sh Hph Hp|chunk Hph _|message Hph _|Hph _|Hph _|Hph _|Hph|c p Hpos _ Hd|_|_|first _].
  - destruct (senders_add (senders s) t Ht) as (U1 & U2 & U3). destruct Hok.
    split; cbn; rewrite ?U1, ?U2, ?U3; done.
  - by eapply channel_ok_sender.
  - destruct (senders_update NoSignal _ _ _ (Retrying item finish) Hi) as (U1 & U2 & U3). cbn in U1, U2, U3.
    destruct Hok. split; cbn; rewrite ?U1, ?U2, ?U3, ?Z.sub_0_r, ?Z.add_0_r; done.
  - destruct (senders_update NoSignal _ _ _ (Retrying w finish) Hi) as (U1 & U2 & U3). cbn in U1, U2, U3.
    destruct Hok. rewrite Hph in *. split; cbn; rewrite ?U1, ?U2, ?U3, ?Z.sub_0_r, ?Z.add_0_r; done.
  - destruct Hok. rewrite Hph in *. split; cbn; done.
  - by eapply channel_ok_poll.
  - assert (Hh : in_hand (phase s) = [Ok chunk]) by (by rewrite Hph).
    destruct (emitted_small _ _ _ Hok Hsmall Hh) as [Hb Hl]. destruct Hok. rewrite Hh in *.
    rewrite length_app in Hl. rewrite total_bytes_app in Hb.
    assert (Hone : total_bytes [chunk] = Z.of_nat (length chunk)) by (unfold total_bytes; cbn; lia).
    assert (Hwrap : wrapping_add (in_flight_frames (completion s)) 1 = in_flight_frames (completion s) + 1)
      by (apply wrapping_add_small; cbn in Hl; lia).
    split; cbn; rewrite ?Hwrap, ?length_app, ?total_bytes_app, ?app_nil_r, ?Hone; try done; try (cbn; lia).
    + destruct ok_outstanding0 as (lost & Hout & Hlost). exists lost. split; [|done]. rewrite Hout.
      change (count_data []) with 0. rewrite count_data_one. cbn. lia.
    + unfold saturating_add. unfold USIZE_MAX, U64_MAX in *. lia.
  - destruct Hok. rewrite Hph in *. split; cbn; done.
  - destruct Hok. rewrite Hph in *. split; cbn; done.
  - destruct Hok. rewrite Hph in *. split; cbn; done.
  - destruct Hok. rewrite Hph in *. split; cbn; done.
  - destruct (senders_add (senders s) Closing I) as (U1 & U2 & U3). destruct Hok.
    assert (Hh : in_hand (phase s) = []) by (by destruct Hph as [-> | ->]). rewrite Hh in *.
    split; cbn; rewrite ?U1, ?U2, ?U3; done.
  - unfold data_consumed in Hd. injection Hd as <- <-. destruct Hok.
    destruct ok_outstanding0 as (lost & Hout & Hlost & Hdis).
    pose proof (count_data_nonneg (in_hand (phase s))).
    assert (Est : producer_state (data_frame_consumed (producer (shared s))) = producer_state (producer (shared s)))
      by done.
    assert (Eout : outstanding_data_frames (data_frame_consumed (producer (shared s))) =
      outstanding_data_frames (producer (shared s)) - 1).
    { unfold data_frame_consumed, data_frame_consumed_body, run_attempt. cbn.
      destruct (checked_sub (outstanding_data_frames (producer (shared s))) 1) as [n|] eqn:Hc; cbn.
      - by apply checked_sub_Some in Hc as [-> _].
      - apply checked_sub_None in Hc. lia. }
    assert (Esub : saturating_sub (in_flight_frames (completion s)) 1 = in_flight_frames (completion s) - 1)
      by (unfold saturating_sub; lia).
    generalize dependent (data_frame_consumed (producer (shared s))). intros p Est Eout.
    assert (Hbr : broken p <-> broken (producer (shared s))) by (unfold broken; by rewrite Est).
    split; cbn; rewrite ?Eout, ?Esub, ?Est, ?Hbr; try done; try lia.
    + destruct ok_history0 as (rest & ? & ?). exists rest. by rewrite Hbr.
    + exists lost. rewrite Hbr. split_and!; [lia|done|done].
  - destruct Hok. destruct (body_ended expected (completion s) && (in_flight_frames (completion s) =? 0)) eqn:E;
      split; cbn; unfold mark_transport_flushed; rewrite ?E; done.
  - destruct Hok. split; cbn; done.
  - destruct Hok. split; cbn; done.
Qed.

Lemma step_pushed capacity expected s s' :
  system_step capacity expected s s' -> exists l, pushed (shared s') = pushed (shared s) ++ l.
Proof.
  assert (Hnone : forall q : list UploadBodyItem, exists l, q = q ++ l) by (intros q; exists []; by rewrite app_nil_r).
  destruct 1 as [t Ht|i t t' sh g Hi Hstep|i item finish Hi|i w finish item Hph Hi|item Hph _
    |now ph b sh Hph Hp|chunk Hph _|message Hph _|Hph _|Hph _|Hph _|Hph|c p Hpos _ Hd|_|_|first _]; cbn; try apply Hnone.
  - assert (Hsend : forall item finish blocking t' sh', send_attempt capacity item finish blocking (shared s) = Some (t', sh') ->
      exists l, pushed sh' = pushed (shared s) ++ l).
    { intros item finish blocking t1 sh1. unfold send_attempt. destruct (channel_locked _); [done|].
      destruct (closed _); [intros [= <- <-]; apply Hnone|]. destruct (_ <? _)%nat; [intros [= <- <-]; by eexists|].
      destruct blocking; intros [= <- <-]; apply Hnone. }
    destruct t; cbn in Hstep; try done.
    + destruct (send_attempt _ _ _ _ _) as [[t1 sh1]|] eqn:Ha; [|done]. injection Hstep as _ <- _. by eapply Hsend.
    + destruct (send_attempt _ _ _ _ _) as [[t1 sh1]|] eqn:Ha; [|done]. injection Hstep as _ <- _. by eapply Hsend.
    + injection Hstep as _ <- _. destruct (is_data item); apply Hnone.
    + injection Hstep as _ <- _. destruct (is_data item); apply Hnone.
    + injection Hstep as _ <- _. destruct finish; apply Hnone.
    + unfold channel_finish in Hstep. destruct (channel_locked _); [done|].
      destruct (closed _); injection Hstep as _ <- _; apply Hnone.
    + unfold channel_abort in Hstep. destruct (channel_locked _); [done|].
      destruct (closed _); injection Hstep as _ <- _; apply Hnone.
    + injection Hstep as _ <- _. apply Hnone.
    + injection Hstep as _ <- _. destruct wake; apply Hnone.
  - unfold poll_frame, poll_recv in Hp. destruct (finished _); [injection Hp as _ _ <-; apply Hnone|].
    destruct (channel_locked _); [done|]. destruct (queue (shared s)) as [|[c|e] q].
    + destruct (closed _); cbn in Hp; [injection Hp as _ _ <-; apply Hnone|].
      destruct (poll_pending_timeout _ _) as [[] ?]; injection Hp as _ _ <-; apply Hnone.
    + injection Hp as _ _ <-. apply Hnone.
    + injection Hp as _ _ <-. apply Hnone.
Qed.

Lemma step_small capacity expected s s' : system_step capacity expected s s' -> small s' -> small s.
Proof.
  intros (l & E)%step_pushed [Hlen Hb]. rewrite E in *. rewrite length_app in Hlen.
  rewrite chunks_app, total_bytes_app in Hb. pose proof (total_bytes_nonneg (chunks l)). split; lia.
Qed.

Lemma channel_ok_initial capacity timeout : channel_ok capacity (initial timeout).
Proof.
  split; cbn; try done; try lia; try (exists []; auto; fail); exists 0; auto with lia.
Qed.

(** ** When an upload is complete *)

(** Everything the producers sent went to the transport, which let go of all of it, and
    it is what the announced length says; the producers ended without a failure. *)
Record uploaded (expected : option Z) (s : System) : Prop := {
  uploaded_producer : producer_state (producer (shared s)) = ProducerFinished;
  uploaded_chunks : pushed (shared s) = Ok <$> emitted s;
  uploaded_queue : queue (shared s) = [];
  uploaded_hand : in_hand (phase s) = [];
  uploaded_in_flight : in_flight_frames (completion s) = 0;
  uploaded_length : forall n, expected = Some n -> total_bytes (emitted s) = n;
  uploaded_flushed : transport_flushed (completion s) = true;
}.

Record check_ok (expected : option Z) (s : System) : Prop := {
  ok_checking : checking s = Some true ->
    producer_state (producer (shared s)) = ProducerFinished /\ body_ended expected (completion s) = true;
  ok_reported : reported s = true -> uploaded expected s;
}.

Lemma no_data_no_errors l : count_data l = 0 -> count_errors l = 0 -> l = [].
Proof.
  destruct l as [|[c|e] l]; [done| |]; unfold count_data, count_errors; cbn; intros.
  - pose proof (count_data_nonneg l). unfold count_data in *. lia.
  - pose proof (sum_over_nonneg (fun i => b2z (negb (is_data i))) l) as Hn.
    assert (0 <= sum_over (fun i => b2z (negb (is_data i))) l) by (apply Hn; by intros []). lia.
Qed.

Lemma count_errors_nonneg l : 0 <= count_errors l.
Proof. apply sum_over_nonneg. by intros []. Qed.

Lemma all_data l : count_errors l = 0 -> l = Ok <$> chunks l.
Proof.
  induction l as [|[c|e] l IH]; [done| |]; unfold count_errors; cbn; intros He.
  - f_equal. apply IH. unfold count_errors. lia.
  - pose proof (count_errors_nonneg l). unfold count_errors in *. lia.
Qed.

(** The check: its first half saw the producers finished and the body ended. *)
Lemma check_uploaded capacity expected s :
  channel_ok capacity s -> producer_state (producer (shared s)) = ProducerFinished ->
  body_ended expected (completion s) = true -> is_complete_rest (completion s) (producer (shared s)) = true ->
  uploaded expected s.
Proof.
  intros Hok Hp Hended Hrest. pose proof (ok_finished _ _ Hok Hp) as Hc.
  destruct (not_locked_sections _ _ Hok (ok_closed _ _ Hok Hc)) as (_ & E2 & _). destruct Hok.
  unfold is_complete_rest in Hrest. rewrite !andb_true_iff, !Z.eqb_eq in Hrest.
  destruct Hrest as [[[Hout _] Hfl] Hflushed].
  destruct ok_outstanding0 as (lost & Hsum & Hlost & Hdis).
  pose proof (count_data_nonneg (queue (shared s))) as Hq. pose proof (count_data_nonneg (in_hand (phase s))) as Hh.
  destruct ok_history0 as (rest & Hpushed & Hrest').
  assert (Hnb : ~ broken (producer (shared s))) by (unfold broken; intros []; congruence).
  assert (rest = []) as -> by (destruct Hrest' as [?|(_ & _ & ?)]; [done|contradiction]).
  rewrite app_nil_r in Hpushed. specialize (ok_finished_errors0 Hp).
  rewrite Hpushed, count_errors_app in ok_finished_errors0.
  pose proof (count_errors_nonneg (popped (shared s))). pose proof (count_errors_nonneg (queue (shared s))).
  assert (Hqueue : queue (shared s) = []) by (apply no_data_no_errors; lia).
  assert (Hhand : in_hand (phase s) = []).
  { destruct (phase s) as [| |[]|[]| | | |]; cbn in *; try done; rewrite ?count_data_one in Hsum; cbn in *; lia. }
  split; try done.
  - rewrite Hpushed, Hqueue, app_nil_r. rewrite Hhand, app_nil_r in ok_emitted0. rewrite <- ok_emitted0.
    apply all_data. lia.
  - intros n ->. cbn in Hended. apply Z.eqb_eq in Hended. lia.
Qed.

(** A closed channel stays as it is. *)
Lemma closed_sender capacity s i t t' sh g :
  channel_ok capacity s -> closed (shared s) = true -> senders s !! i = Some t ->
  sender_step capacity t (shared s) = Some (t', sh, g) ->
  exists w, sh = (shared s) <| woken := w |>.
Proof.
  intros Hok Hc Hi Hstep.
  destruct (decide (in_section t = 1)) as [Hin|Hin].
  { destruct (in_section_facts _ _ _ _ Hok Hi Hin) as (_ & ? & _). congruence. }
  assert (Hsame : shared s = (shared s) <| woken := woken (shared s) |>) by (by destruct (shared s)).
  destruct t; try done; cbn in Hstep; unfold send_attempt, channel_finish, channel_abort in Hstep;
    try destruct (channel_locked _); try done; rewrite ?Hc in Hstep; injection Hstep as <- <- <-; eauto.
  destruct wake; eauto.
Qed.

(** ... for the transport too: it finds the rest of the queue, then the end. *)
Lemma closed_poll s now ph b sh :
  closed (shared s) = true -> queue (shared s) = [] ->
  poll_frame now (body s) (shared s) = Some (ph, b, sh) -> ph = Ended /\ sh = shared s.
Proof.
  intros Hc Hq. unfold poll_frame, poll_recv. rewrite Hc, Hq.
  destruct (finished _); [by intros [= <- <- <-]|]. destruct (channel_locked _); [done|]. by intros [= <- <- <-].
Qed.

Lemma finished_stays capacity expected s s' :
  channel_ok capacity s -> system_step capacity expected s s' ->
  producer_state (producer (shared s)) = ProducerFinished ->
  producer_state (producer (shared s')) = ProducerFinished.
Proof.
  intros Hok Hstep Hp. pose proof (ok_finished _ _ Hok Hp) as Hc.
  destruct Hstep as [|i t t' sh g Hi Hstep| | | |now ph b sh Hph Hp'| | | | | | |c p Hpos _ Hd| | |]; try done.
  - by destruct (closed_sender _ _ _ _ _ _ _ Hok Hc Hi Hstep) as [w ->].
  - unfold poll_frame, poll_recv in Hp'. destruct (finished _); [by injection Hp' as <- <- <-|].
    destruct (channel_locked _); [done|]. cbn. rewrite Hc in Hp'.
    destruct (queue (shared s)) as [|[] q]; by injection Hp' as <- <- <-.
  - by injection Hd as <- <-.
Qed.

Lemma uploaded_stays capacity expected s s' :
  channel_ok capacity s -> system_step capacity expected s s' -> uploaded expected s -> uploaded expected s'.
Proof.
  intros Hok Hstep Hup. pose proof (finished_stays _ _ _ _ Hok Hstep (uploaded_producer _ _ Hup)) as Hp'.
  destruct Hup. pose proof (ok_finished _ _ Hok uploaded_producer0) as Hc.
  destruct Hstep as [|i t t' sh g Hi Hstep| |i w finish item Hph|item Hph|now ph b sh Hph Hp|chunk Hph|
    |Hph|Hph|Hph|Hph|c p Hpos _ Hd| | |]; try by split.
  - destruct (closed_sender _ _ _ _ _ _ _ Hok Hc Hi Hstep) as [w ->]. by split.
  - rewrite Hph in *. by split.
  - rewrite Hph in *. by split.
  - destruct (closed_poll _ _ _ _ _ Hc uploaded_queue0 Hp) as [-> ->]. by split.
  - by rewrite Hph in uploaded_hand0.
  - lia.
  - assert (Hm : mark_transport_flushed expected (completion s) = completion s \/
      mark_transport_flushed expected (completion s) = (completion s) <| transport_flushed := true |>)
      by (unfold mark_transport_flushed; case_match; auto).
    split; cbn; try done; destruct Hm as [-> | ->]; done.
Qed.

Lemma check_ok_step capacity expected s s' :
  channel_ok capacity s -> check_ok expected s -> system_step capacity expected s s' -> check_ok expected s'.
Proof.
  intros Hok Hcheck Hstep.
  pose proof (finished_stays _ _ _ _ Hok Hstep) as Hfin.
  pose proof (uploaded_stays _ _ _ _ Hok Hstep) as Hup.
  destruct Hcheck as [Hch Hrep].
  assert (Hgen : checking s' = checking s -> (checking s = Some true -> completion s' = completion s) ->
    reported s' = reported s -> check_ok expected s').
  { intros E1 E2 E3. split; [|rewrite E3; auto]. rewrite E1. intros Hc. rewrite E2 by done.
    destruct (Hch Hc). auto. }
  destruct Hstep as [| | | | | | | | | | | | | | |first Hfirst]; try (apply Hgen; cbn; congruence).
  - split; cbn; [|auto]. intros [= E]. unfold is_complete_first in E.
    by apply andb_true_iff in E as [? ?%bool_decide_eq_true].
  - split; cbn; [done|]. intros [Hr|[-> Hrest]%andb_true_iff]%orb_true_iff; [by apply Hup, Hrep|].
    apply Hup. destruct (Hch Hfirst). by eapply check_uploaded.
Qed.

Lemma reachable_ok capacity expected timeout s :
  reachable capacity expected timeout s -> small s -> channel_ok capacity s /\ check_ok expected s.
Proof.
  revert s. apply (rtc_ind_r (fun s => small s -> channel_ok capacity s /\ check_ok expected s)).
  - intros _. split; [apply channel_ok_initial|]. by split.
  - intros s s' _ Hstep IH Hsmall. destruct (IH (step_small _ _ _ _ Hstep Hsmall)) as [Hok Hcheck].
    split; [|by eapply check_ok_step].
    eapply channel_ok_transport; [done|by eapply step_small|done].
Qed.

(** C22: When [is_complete] has ever returned true for a streamed upload, in whatever
    interleaving of producers, transport and observers: the producers ended normally and
    without a failure, every chunk they sent was handed to the transport, in order and
    once, nothing is queued or in flight any more, the frames were flushed, and their
    bytes are exactly the announced length. *)
Theorem complete_upload_is_whole capacity expected timeout s :
  reachable capacity expected timeout s -> small s -> reported s = true -> uploaded expected s.
Proof. intros Hr Hsmall. destruct (reachable_ok _ _ _ _ Hr Hsmall) as [_ []]. auto. Qed.

(** The channel is a bounded queue: it never holds more items than its capacity, the
    transport gets a prefix of the chunks sent, in order, and all of them unless the
    channel was aborted; and no counter underflows. *)
Theorem upload_channel_in_order capacity expected timeout s :
  reachable capacity expected timeout s -> small s ->
  (length (queue (shared s)) <= capacity)%nat /\
  (exists rest, chunks (pushed (shared s)) = emitted s ++ chunks (in_hand (phase s)) ++ chunks (queue (shared s)) ++ rest /\
     (rest = [] \/ closed (shared s) = true /\ broken (producer (shared s)))) /\
  emitted_bytes (completion s) = total_bytes (emitted s) /\
  in_flight_frames (completion s) <= outstanding_data_frames (producer (shared s)).
Proof.
  intros Hr Hsmall. destruct (reachable_ok _ _ _ _ Hr Hsmall) as [[] _]. split_and!; [done| |done|].
  - destruct ok_history0 as (rest & -> & Hrest). exists (chunks rest).
    rewrite !chunks_app, ok_emitted0, <- app_assoc. split; [done|].
    destruct Hrest as [->|(_ & ? & ?)]; auto.
  - destruct ok_outstanding0 as (lost & ? & ? & _). pose proof (count_data_nonneg (in_hand (phase s))). lia.
Qed.

(** ** No lost wakeups *)

Definition pending_wake (t : Sender) : bool :=
  match t with Signalling _ wake _ | Waking wake _ => wake | _ => false end.
Definition pending_all (t : Sender) : bool := match t with Signalling all _ _ => all | _ => false end.
Definition retrying (t : Sender) : Z := match t with Retrying _ _ => 1 | _ => 0 end.
Definition popping (ph : Phase) : Z := match ph with Popped _ => 1 | _ => 0 end.

Definition some_sender (f : Sender -> bool) (ts : list Sender) : Prop := exists t, t ∈ ts /\ f t = true.

Record wake_ok (capacity : nat) (s : System) : Prop := {
  (** a parked transport is registered or about to be woken *)
  ok_parked : phase s = Parked -> woken (shared s) = false ->
    receive_waker (shared s) = true \/ some_sender pending_wake (senders s);
  ok_registered : receive_waker (shared s) = true ->
    queue (shared s) <> [] \/ closed (shared s) = true -> channel_locked (shared s) = true;
  (** free places are not more than the producers on their way to them *)
  ok_waiting : some_sender is_waiting (senders s) -> closed (shared s) = false ->
    Z.of_nat capacity - Z.of_nat (length (queue (shared s))) <=
    sum_over retrying (senders s) + popping (phase s);
  ok_waiting_closed : some_sender is_waiting (senders s) -> closed (shared s) = true ->
    some_sender pending_all (senders s);
  ok_gone : phase s = Gone -> closed (shared s) = true \/ Closing ∈ senders s;
}.

Lemma some_sender_insert f ts i t t' :
  ts !! i = Some t -> some_sender f (<[i := t']> ts) -> f t' = true \/ some_sender f ts.
Proof.
  intros Hi (x & Hx & Hf). apply list_elem_of_lookup in Hx as [j Hj].
  apply list_lookup_insert_Some in Hj as [(-> & -> & _)|[_ Hj]]; [by left|].
  right. exists x. split; [by eapply list_elem_of_lookup_2|done].
Qed.

Lemma some_sender_keep f ts i t t' :
  ts !! i = Some t -> (f t = true -> f t' = true) -> some_sender f ts -> some_sender f (<[i := t']> ts).
Proof.
  intros Hi Hft (x & Hx & Hf). apply list_elem_of_lookup in Hx as [j Hj].
  destruct (decide (j = i)) as [->|Hne].
  - exists t'. split; [|apply Hft; congruence]. apply (list_elem_of_lookup_2 _ i).
    apply list_lookup_insert_eq. by eapply lookup_lt_Some.
  - exists x. split; [|done]. apply (list_elem_of_lookup_2 _ j). by rewrite list_lookup_insert_ne.
Qed.

Lemma some_sender_new f ts i t t' : ts !! i = Some t -> f t' = true -> some_sender f (<[i := t']> ts).
Proof.
  intros Hi Hf. exists t'. split; [|done]. apply (list_elem_of_lookup_2 _ i).
  apply list_lookup_insert_eq. by eapply lookup_lt_Some.
Qed.

Lemma some_sender_app f ts t : some_sender f (ts ++ [t]) <-> some_sender f ts \/ f t = true.
Proof.
  unfold some_sender. split.
  - intros (x & [Hx|Hx%list_elem_of_singleton]%elem_of_app & Hf); [by left; exists x|right; congruence].
  - intros [(x & Hx & Hf)|Hf]; [exists x|exists t]; (split; [|done]); apply elem_of_app; [by left|right].
    by apply list_elem_of_singleton.
Qed.

Lemma no_waiting_after_all ts : ~ some_sender is_waiting (wake_sender <$> ts).
Proof. intros (x & Hx & Hf). apply list_elem_of_fmap in Hx as (t & -> & _). by destruct t. Qed.

Lemma retrying_insert ts i t t' :
  ts !! i = Some t -> sum_over retrying (<[i := t']> ts) = sum_over retrying ts - retrying t + retrying t'.
Proof. apply sum_over_insert. Qed.

Lemma retrying_nonneg ts : 0 <= sum_over retrying ts.
Proof. apply sum_over_nonneg. by intros []. Qed.

(** A step of a producer that neither waits, wakes, closes nor changes the queue. *)
Lemma wake_ok_quiet capacity s i t t' sh :
  wake_ok capacity s -> senders s !! i = Some t ->
  queue sh = queue (shared s) -> closed sh = closed (shared s) ->
  receive_waker sh = receive_waker (shared s) -> channel_locked sh = channel_locked (shared s) ->
  woken sh = woken (shared s) ->
  is_waiting t' = false -> (retrying t <= retrying t' \/ closed (shared s) = true) ->
  (pending_wake t = true -> pending_wake t' = true) -> (pending_all t = true -> pending_all t' = true) ->
  (t = Closing -> closed (shared s) = true) ->
  wake_ok capacity (s <| shared := sh |> <| senders ::= fun ts => <[i := t']> ts |>).
Proof.
  intros [] Hi E1 E2 E3 E4 E5 Hw Hr Hpw Hpa Hcl. split; cbn; rewrite ?E1, ?E2, ?E3, ?E4, ?E5.
  - intros Hph Hwk. destruct (ok_parked0 Hph Hwk); [by left|]. right. by eapply some_sender_keep.
  - done.
  - intros [Ht|Hs]%(some_sender_insert _ _ _ _ _ Hi) Hc; [congruence|]. rewrite (retrying_insert _ _ _ _ Hi).
    specialize (ok_waiting0 Hs Hc). destruct Hr as [?|?]; [lia|congruence].
  - intros [Ht|Hs]%(some_sender_insert _ _ _ _ _ Hi) Hc; [congruence|]. eapply some_sender_keep; eauto.
  - intros Hph. destruct (ok_gone0 Hph) as [?|Hin]; [by left|].
    apply list_elem_of_lookup in Hin as [j Hj]. destruct (decide (i = j)) as [->|Hne].
    + left. apply Hcl. congruence.
    + right. apply (list_elem_of_lookup_2 _ j). by rewrite list_lookup_insert_ne.
Qed.

Lemma closing_keep (ts : list Sender) i t t' :
  ts !! i = Some t -> t <> Closing -> Closing ∈ ts -> Closing ∈ <[i := t']> ts.
Proof.
  intros Hi Ht Hin. apply list_elem_of_lookup in Hin as [j Hj]. apply (list_elem_of_lookup_2 _ j).
  rewrite list_lookup_insert_ne; [done|]. intros ->. congruence.
Qed.

(** The end of a section: the waker goes to the producer, which signals it. *)
Lemma wake_ok_unlock capacity s i t sh finish :
  wake_ok capacity s -> senders s !! i = Some t -> closed (shared s) = false ->
  receive_waker sh = false -> woken sh = woken (shared s) -> closed sh = finish ->
  (finish = false -> queue sh = queue (shared s)) ->
  is_waiting t = false -> retrying t = 0 -> pending_wake t = false ->
  (finish = false -> t <> Closing) ->
  wake_ok capacity (s <| shared := sh |>
    <| senders ::= fun ts => <[i := Signalling finish (receive_waker (shared s)) SendOk]> ts |>).
Proof.
  intros [] Hi Hc E1 E2 E3 Hq Hw Hr Hpw Hcl. split; cbn; rewrite ?E1, ?E2, ?E3; try done.
  - intros Hph Hwk. right. destruct (ok_parked0 Hph Hwk) as [Hreg|Hs].
    + by eapply some_sender_new.
    + eapply some_sender_keep; [exact Hi|congruence|done].
  - intros [?|Hs]%(some_sender_insert _ _ _ _ _ Hi) ->; [done|]. rewrite (retrying_insert _ _ _ _ Hi), Hq by done.
    specialize (ok_waiting0 Hs Hc). cbn. lia.
  - intros _ ->. by eapply some_sender_new.
  - intros Hph. destruct finish; [by left|]. right. destruct (ok_gone0 Hph) as [?|?]; [congruence|].
    apply (closing_keep _ _ t); auto.
Qed.

Lemma wake_ok_send capacity s i t item finish blocking t' sh :
  wake_ok capacity s -> senders s !! i = Some t -> is_waiting t = false -> t <> Closing ->
  pending_wake t = false -> pending_all t = false -> (blocking = false -> retrying t = 0) -> retrying t <= 1 ->
  send_attempt capacity item finish blocking (shared s) = Some (t', sh) ->
  wake_ok capacity (s <| shared := sh |> <| senders ::= fun ts => <[i := t']> ts |>).
Proof.
  intros Hok Hi Hw Hncl Hpw Hpa Hr Hr1. unfold send_attempt.
  destruct (channel_locked (shared s)) eqn:Hl; [done|]. destruct (closed (shared s)) eqn:Hc.
  { intros [= <- <-]. eapply wake_ok_quiet; try done; [auto|by rewrite Hpw|by rewrite Hpa]. }
  destruct (Nat.ltb_spec (length (queue (shared s))) capacity).
  - intros [= <- <-]. destruct Hok. split; cbn; try done.
    + intros Hph Hwk. destruct (ok_parked0 Hph Hwk); [by left|]. right. eapply some_sender_keep; [exact Hi|congruence|done].
    + intros [?|Hs]%(some_sender_insert _ _ _ _ _ Hi) _; [done|]. rewrite (retrying_insert _ _ _ _ Hi), length_app.
      specialize (ok_waiting0 Hs Hc). cbn. lia.
    + congruence.
    + intros Hph. right. destruct (ok_gone0 Hph) as [?|?]; [congruence|]. by apply (closing_keep _ _ t).
  - destruct blocking; intros [= <- <-].
    + destruct Hok. split; cbn; try done.
      * intros Hph Hwk. destruct (ok_parked0 Hph Hwk); [by left|]. right. eapply some_sender_keep; [exact Hi|congruence|done].
      * intros _ _. pose proof (retrying_nonneg (<[i := Waiting item finish]> (senders s))).
        assert (0 <= popping (phase s)) by (by destruct (phase s)). lia.
      * congruence.
      * intros Hph. right. destruct (ok_gone0 Hph) as [?|?]; [congruence|]. by apply (closing_keep _ _ t).
    + eapply wake_ok_quiet; try done; [left; cbn; rewrite Hr by done; lia|by rewrite Hpw|by rewrite Hpa].
Qed.

Lemma wake_ok_sender capacity s i t t' sh g :
  channel_ok capacity s -> wake_ok capacity s -> senders s !! i = Some t ->
  sender_step capacity t (shared s) = Some (t', sh, g) ->
  wake_ok capacity (s <| shared := sh |> <| senders ::= fun ts => signal g (<[i := t']> ts) |>).
Proof.
  intros Hch Hok Hi Hstep.
  assert (Hopen : in_section t = 1 -> closed (shared s) = false)
    by (intros Hin; by destruct (in_section_facts _ _ _ _ Hch Hi Hin) as (_ & ? & _)).
  destruct t as [item finish blocking| |item finish|item finish|item finish|finish| | |all wake r|wake r|];
    cbn in Hstep; try done.
  - destruct (send_attempt _ _ _ _ _) as [[t1 sh1]|] eqn:Ha; [|done]. injection Hstep as <- <- <-.
    eapply wake_ok_send; try done; by intros [=].
  - destruct (send_attempt _ _ _ _ _) as [[t1 sh1]|] eqn:Ha; [|done]. injection Hstep as <- <- <-.
    eapply wake_ok_send; try done; by intros [=].
  - injection Hstep as <- <- <-. destruct (is_data item); eapply wake_ok_quiet; try done; by left.
  - injection Hstep as <- <- <-. destruct (is_data item); eapply wake_ok_quiet; try done; by left.
  - injection Hstep as <- <- <-. specialize (Hopen eq_refl).
    destruct finish; eapply wake_ok_unlock; try done.
  - unfold channel_finish in Hstep. destruct (channel_locked _) eqn:Hl; [done|].
    destruct (closed _) eqn:Hc; injection Hstep as <- <- <-.
    + eapply wake_ok_quiet; try done. by right.
    + eapply wake_ok_unlock; done.
  - unfold channel_abort in Hstep. destruct (channel_locked _) eqn:Hl; [done|].
    destruct (closed _) eqn:Hc; injection Hstep as <- <- <-.
    + eapply wake_ok_quiet; try done. by right.
    + eapply wake_ok_unlock; done.
  - injection Hstep as <- <- <-. destruct all.
    + destruct Hok. split; cbn; try done.
      * intros Hph Hwk. destruct (ok_parked0 Hph Hwk) as [?|Hs]; [by left|]. right.
        apply (some_sender_keep _ _ _ _ (Waking wake r) Hi) in Hs as (x & Hx & Hf); [|done].
        exists (wake_sender x). split; [by apply list_elem_of_fmap_2|by destruct x].
      * by intros ?%no_waiting_after_all.
      * by intros ?%no_waiting_after_all.
      * intros Hph. destruct (ok_gone0 Hph) as [?|Hin]; [by left|]. right.
        apply (closing_keep _ _ _ (Waking wake r) Hi) in Hin; [|done].
        apply list_elem_of_fmap. by exists Closing.
    + eapply wake_ok_quiet; try done; by left.
  - injection Hstep as <- <- <-. destruct wake.
    + destruct Hok. split; cbn; try done.
      * intros [?|Hs]%(some_sender_insert _ _ _ _ _ Hi) Hc; [done|]. rewrite (retrying_insert _ _ _ _ Hi).
        specialize (ok_waiting0 Hs Hc). cbn. lia.
      * intros [?|Hs]%(some_sender_insert _ _ _ _ _ Hi) Hc; [done|]. eapply some_sender_keep; eauto.
      * intros Hph. destruct (ok_gone0 Hph) as [?|?]; [by left|]. right. by apply (closing_keep _ _ _ _ Hi).
    + eapply wake_ok_quiet; try done; by left.
Qed.

Lemma wake_ok_step capacity expected s s' :
  channel_ok capacity s -> wake_ok capacity s -> system_step capacity expected s s' -> wake_ok capacity s'.
Proof.
  intros Hch Hok Hstep.
  (* the steps of the transport that leave the channel and the producers alone *)
  assert (Hphase : phase s' <> Parked -> phase s' <> Gone -> popping (phase s) = popping (phase s') ->
    shared s' = shared s -> senders s' = senders s -> wake_ok capacity s').
  { intros Hp1 Hp2 Hp E1 E2. destruct Hok. split; rewrite ?E1, ?E2; try done.
    intros Hs Hc. rewrite <- Hp. by apply ok_waiting0. }
  assert (Hmeta : shared s' = shared s -> senders s' = senders s -> phase s' = phase s -> wake_ok capacity s').
  { intros E1 E2 E3. destruct Hok. split; rewrite ?E1, ?E2, ?E3; done. }
  destruct Hstep as [t Ht|i t t' sh g Hi Hstep|i item finish Hi|i w finish item Hph Hi|item Hph Hnone
    |now ph b sh Hph Hp|chunk Hph _|message Hph _|Hph _|Hph _|Hph _|Hph|c p Hpos _ Hd|_|_|first _];
    try (apply Hmeta; done); try (by apply Hphase; rewrite ?Hph).
  - destruct Hok. split; cbn; try done.
    + intros Hph Hwk. destruct (ok_parked0 Hph Hwk) as [?|?]; [by left|]. right. apply some_sender_app. by left.
    + intros [Hs|Hs]%some_sender_app Hc; [|by destruct t]. rewrite sum_over_app. specialize (ok_waiting0 Hs Hc).
      pose proof (retrying_nonneg [t]). lia.
    + intros [Hs|Hs]%some_sender_app Hc; [|by destruct t]. apply some_sender_app. left. auto.
    + intros Hph. destruct (ok_gone0 Hph); [by left|right]. apply elem_of_app. by left.
  - by eapply wake_ok_sender.
  - destruct Hok. split; cbn; try done.
    + intros Hph Hwk. destruct (ok_parked0 Hph Hwk) as [?|?]; [by left|]. right. by eapply some_sender_keep.
    + intros [?|Hs]%(some_sender_insert _ _ _ _ _ Hi) Hc; [done|]. rewrite (retrying_insert _ _ _ _ Hi).
      specialize (ok_waiting0 Hs Hc). cbn. lia.
    + intros [?|Hs]%(some_sender_insert _ _ _ _ _ Hi) Hc; [done|]. eapply some_sender_keep; eauto.
    + intros Hph. destruct (ok_gone0 Hph) as [?|?]; [by left|]. right. by apply (closing_keep _ _ _ _ Hi).
  - destruct Hok. split; cbn; try done.
    + intros [?|Hs]%(some_sender_insert _ _ _ _ _ Hi) Hc; [done|]. rewrite (retrying_insert _ _ _ _ Hi).
      specialize (ok_waiting0 Hs Hc). rewrite Hph in ok_waiting0. cbn in *. lia.
    + intros [?|Hs]%(some_sender_insert _ _ _ _ _ Hi) Hc; [done|]. eapply some_sender_keep; eauto.
  - destruct Hok. split; cbn; try done. intros (t & Ht & Hw) _. by rewrite (Hnone t Ht) in Hw.
  - assert (Hpop : popping (phase s) = 0) by (by destruct Hph as [-> | ->]).
    assert (Hng : phase s <> Gone) by (by destruct Hph as [-> | ->]). destruct Hok.
    rewrite Hpop in ok_waiting0. unfold poll_frame, poll_recv in Hp.
    destruct (finished (body s)); [injection Hp as <- <- <-; split; cbn; try done; auto|].
    destruct (channel_locked (shared s)) eqn:Hl; [done|].
    destruct (queue (shared s)) as [|item rest] eqn:Hq.
    + destruct (closed (shared s)) eqn:Hc; cbn in Hp.
      { injection Hp as <- <- <-. split; cbn; rewrite ?Hq, ?Hc, ?Hl; try done; auto. }
      destruct (poll_pending_timeout now (body s)) as [[] b1]; injection Hp as <- <- <-;
        split; cbn; rewrite ?Hq, ?Hc, ?Hl; try done; try tauto; intros _ [?|?]; done.
    + assert (Hr : ph = Popped item /\ sh = (shared s) <| queue := rest |> <| popped ::= fun q => q ++ [item] |>).
      { cbn in Hp. destruct item; injection Hp as <- <- <-; auto. }
      destruct Hr as [-> ->]. split; cbn; try done.
      * intros Hw _. assert (false = true) by (apply ok_registered0; [done|by left]). done.
      * intros Hs Hc. specialize (ok_waiting0 Hs Hc). cbn in ok_waiting0. lia.
  - destruct Hok. assert (Hpop : popping (phase s) = 0) by (by destruct Hph as [-> | ->]).
    split; cbn; try done.
    + intros [Hs|Hs]%some_sender_app Hc; [|done]. rewrite sum_over_app. specialize (ok_waiting0 Hs Hc). cbn. lia.
    + intros [Hs|Hs]%some_sender_app Hc; [|done]. apply some_sender_app. left. auto.
    + intros _. right. apply elem_of_app. right. by apply list_elem_of_singleton.
  - destruct Hok. injection Hd as <- <-. by split.
Qed.

Lemma wake_ok_initial capacity timeout : wake_ok capacity (initial timeout).
Proof. split; cbn; try done. all: by intros (t & Ht%elem_of_nil & _). Qed.

Lemma reachable_wake_ok capacity expected timeout s :
  reachable capacity expected timeout s -> small s -> wake_ok capacity s.
Proof.
  revert s. apply (rtc_ind_r (fun s => small s -> wake_ok capacity s)).
  - intros _. apply wake_ok_initial.
  - intros s s' Hr Hstep IH Hsmall. pose proof (step_small _ _ _ _ Hstep Hsmall) as Hs.
    destruct (reachable_ok _ _ _ _ Hr Hs) as [Hch _]. eapply wake_ok_step; eauto.
Qed.

(** A producer that has returned or waits for a notification. *)
Definition resting (t : Sender) : bool := match t with Waiting _ _ | Done _ => true | _ => false end.

Lemma resting_unlocked capacity s :
  channel_ok capacity s -> (forall t, t ∈ senders s -> resting t = true) -> channel_locked (shared s) = false.
Proof.
  intros Hok Hrest. destruct Hok. assert (Hs : sections (senders s) = 0).
  { apply sum_over_zero. intros t Ht. specialize (Hrest t Ht). by destruct t. }
  destruct (channel_locked (shared s)); [cbn in *; lia|done].
Qed.

(** The transport sleeps: it waits for a wakeup that nobody owes it, or it has let go. *)
Definition transport_rests (s : System) : Prop := phase s = Parked /\ woken (shared s) = false \/ phase s = Gone.

Lemma none_resting f s : (forall t, t ∈ senders s -> resting t = true) -> (forall t, resting t = true -> f t = false) ->
  ~ some_sender f (senders s).
Proof. intros Hrest Hf (t & Ht & Hx). rewrite Hf in Hx; [done|auto]. Qed.

Lemma resting_channel capacity expected timeout s :
  reachable capacity expected timeout s -> small s -> (forall t, t ∈ senders s -> resting t = true) ->
  (phase s = Parked -> woken (shared s) = false -> queue (shared s) = [] /\ closed (shared s) = false) /\
  (phase s = Gone -> closed (shared s) = true).
Proof.
  intros Hr Hsmall Hrest. destruct (reachable_ok _ _ _ _ Hr Hsmall) as [Hch _].
  pose proof (resting_unlocked _ _ Hch Hrest) as Hl. destruct (reachable_wake_ok _ _ _ _ Hr Hsmall). split.
  - intros Hp Hw. destruct (ok_parked0 Hp Hw) as [Hreg|Hs]; [|by apply none_resting in Hs as []; [|intros []]].
    assert (Hl' : ~ (queue (shared s) <> [] \/ closed (shared s) = true)) by (intros H; by rewrite ok_registered0 in Hl).
    destruct (queue (shared s)), (closed (shared s)); try done; destruct Hl'; auto.
  - intros Hp. destruct (ok_gone0 Hp) as [?|Hin]; [done|]. by specialize (Hrest _ Hin).
Qed.

(** A producer waits only for a place in a full channel that somebody reads. *)
Lemma no_producer_waits capacity expected timeout s :
  (0 < capacity)%nat -> reachable capacity expected timeout s -> small s ->
  (forall t, t ∈ senders s -> resting t = true) ->
  transport_rests s \/ phase s = Idle /\ (length (queue (shared s)) < capacity)%nat ->
  forall t, t ∈ senders s -> is_waiting t = false.
Proof.
  intros Hcap Hr Hsmall Hrest Hph t Ht. destruct (is_waiting t) eqn:Hw; [|done]. exfalso.
  destruct (resting_channel _ _ _ _ Hr Hsmall Hrest) as [Hparked Hgone]. destruct (reachable_wake_ok _ _ _ _ Hr Hsmall).
  assert (Hs : some_sender is_waiting (senders s)) by (by exists t). destruct (closed (shared s)) eqn:Hc.
  - specialize (ok_waiting_closed0 Hs eq_refl). by apply none_resting in ok_waiting_closed0 as []; [|intros []].
  - assert (E : sum_over retrying (senders s) = 0).
    { apply sum_over_zero. intros t1 Ht1. specialize (Hrest t1 Ht1). by destruct t1. }
    specialize (ok_waiting0 Hs eq_refl). destruct Hph as [[[Hp Hwk]|Hp]|[Hp Hroom]].
    + destruct (Hparked Hp Hwk) as [Hq _]. rewrite Hq, Hp in ok_waiting0. cbn in ok_waiting0. lia.
    + by specialize (Hgone Hp).
    + rewrite Hp in ok_waiting0. cbn in ok_waiting0. lia.
Qed.

(** C23: No wakeup is lost between producers and transport.  When nothing of the program
    is left to run, because each producer has returned or waits for a place and the
    transport is parked and not woken or has dropped the body, then no producer waits; and
    a parked transport faces an empty channel that is still open.  So neither side sleeps
    while it has work, whatever the interleaving. *)
Theorem upload_no_deadlock capacity expected timeout s :
  (0 < capacity)%nat -> reachable capacity expected timeout s -> small s ->
  (forall t, t ∈ senders s -> resting t = true) ->
  phase s = Parked /\ woken (shared s) = false \/ phase s = Gone ->
  (forall t, t ∈ senders s -> is_waiting t = false) /\
  (phase s = Parked -> queue (shared s) = [] /\ closed (shared s) = false) /\
  (phase s = Gone -> closed (shared s) = true).
Proof.
  intros Hcap Hr Hsmall Hrest Hph. destruct (resting_channel _ _ _ _ Hr Hsmall Hrest) as [Hparked Hgone].
  split_and!; [|intros Hp; destruct Hph as [[_ ?]|?]; [auto|congruence]|done].
  eapply no_producer_waits; [done|done|done|done|by left].
Qed.

(** ** A run of the system *)

(** The steps as moves, to run the system on concrete schedules. *)
Inductive Move :=
| Call (t : Sender) | Run (i : nat) | NotifyWaiting (i : nat) | Poll (now : Z) | Deliver | Drop | Consume | Flush
| CheckFirst | CheckRest.

Definition move (capacity : nat) (expected : option Z) (m : Move) (s : System) : option System :=
  match m with
  | Call t =>
      match t with
      | Sending _ _ _ | Finishing | Closing => Some (s <| senders ::= fun ts => ts ++ [t] |>)
      | _ => None
      end
  | Run i =>
      t ← senders s !! i;
      '(t', sh, g) ← sender_step capacity t (shared s);
      Some (s <| shared := sh |> <| senders ::= fun ts => signal g (<[i := t']> ts) |>)
  | NotifyWaiting i =>
      match phase s, senders s !! i with
      | Popped item, Some (Waiting w finish) =>
          Some (s <| phase := Notified item |> <| senders ::= <[i := Retrying w finish]> |>)
      | _, _ => None
      end
  | Poll now =>
      match phase s with
      | Idle | Parked =>
          '(ph, b, sh) ← poll_frame now (body s) (shared s);
          Some (s <| phase := ph |> <| body := b |> <| shared := sh |>)
      | _ => None
      end
  | Deliver =>
      match checking s, phase s with
      | None, Popped item =>
          if existsb is_waiting (senders s) then None else Some (s <| phase := Notified item |>)
      | None, Notified (Ok chunk) =>
          Some (s <| phase := Idle |> <| completion ::= track_data chunk |> <| emitted ::= fun l => l ++ [chunk] |>)
      | None, Notified (Err _) => Some (s <| phase := Idle |> <| completion ::= mark_failed |>)
      | None, Ended => Some (s <| phase := Idle |> <| completion ::= mark_eof |>)
      | None, TimedOut => Some (s <| phase := TimedOutMarked |> <| completion ::= mark_write_timeout |>)
      | None, TimedOutMarked => Some (s <| phase := Idle |> <| completion ::= mark_failed |>)
      | _, _ => None
      end
  | Drop =>
      match phase s with
      | Idle | Parked => Some (s <| phase := Gone |> <| senders ::= fun ts => ts ++ [Closing] |>)
      | _ => None
      end
  | Consume =>
      match checking s with
      | None =>
          if 0 <? in_flight_frames (completion s) then
            let (c, p) := data_consumed (completion s) (producer (shared s)) in
            Some (s <| completion := c |> <| shared ::= fun sh => sh <| producer := p |> |>)
          else None
      | Some _ => None
      end
  | Flush =>
      match checking s with
      | None => Some (s <| completion ::= mark_transport_flushed expected |>)
      | Some _ => None
      end
  | CheckFirst =>
      match checking s with
      | None => Some (s <| checking := Some (is_complete_first expected (completion s) (producer (shared s))) |>)
      | Some _ => None
      end
  | CheckRest =>
      first ← checking s;
      Some (s <| checking := None |>
              <| reported ::= fun r => r || first && is_complete_rest (completion s) (producer (shared s)) |>)
  end.

Fixpoint drive (capacity : nat) (expected : option Z) (moves : list Move) (s : System) : option System :=
  match moves with
  | [] => Some s
  | m :: moves => s' ← move capacity expected m s; drive capacity expected moves s'
  end.

Lemma move_step capacity expected m s s' :
  move capacity expected m s = Some s' -> system_step capacity expected s s'.
Proof.
  destruct m as [t|i|i|now| | | | | |]; cbn.
  - destruct t; intros [= <-]; by constructor.
  - destruct (senders s !! i) as [t|] eqn:Hi; [|done]. cbn.
    destruct (sender_step _ _ _) as [[[t' sh] g]|] eqn:Hs; intros [= <-]. by eapply step_sender.
  - destruct (phase s) eqn:Hph; try done. destruct (senders s !! i) as [[]|] eqn:Hi; intros [= <-]. by eapply step_notify_one.
  - destruct (poll_frame _ _ _) as [[[ph b] sh]|] eqn:Hp; destruct (phase s) eqn:Hph; intros [= <-];
      eapply step_poll; eauto.
  - destruct (checking s) eqn:Hc; [done|]. destruct (phase s) as [| |item|[chunk|m]| | | |] eqn:Hph; try done;
      try (intros [= <-]; by econstructor).
    destruct (existsb _ _) eqn:He; intros [= <-]. apply step_notify_none; [done|].
    intros t Ht. destruct (is_waiting t) eqn:Hw; [|done]. rewrite <- He. symmetry. apply existsb_exists.
    exists t. split; [by apply list_elem_of_In|done].
  - destruct (phase s) eqn:Hph; intros [= <-]; apply step_drop; auto.
  - destruct (checking s) eqn:Hc; [done|]. destruct (Z.ltb_spec 0 (in_flight_frames (completion s))); [|done].
    intros [= <-]. eapply step_consume; [done|done|reflexivity].
  - destruct (checking s) eqn:Hc; intros [= <-]. by constructor.
  - destruct (checking s) eqn:Hc; intros [= <-]. by constructor.
  - destruct (checking s) eqn:Hc; intros [= <-]. by constructor.
Qed.

Lemma upload_drive_reachable capacity expected timeout moves s s' :
  reachable capacity expected timeout s -> drive capacity expected moves s = Some s' ->
  reachable capacity expected timeout s'.
Proof.
  revert s; induction moves as [|m moves IH]; intros s Hs; cbn [drive]; [by intros [= <-]|].
  destruct (move capacity expected m s) as [s1|] eqn:Hm; [|done]. apply IH.
  eapply rtc_r; [done|]. by eapply move_step.
Qed.

(** Two producers share a channel of one place: the second waits until the transport
    takes the first chunk; the transport parks before anything is sent. *)
Definition sample_moves : list Move :=
  [Poll 0; Call (Sending (Ok [104; 105]) false true); Call (Sending (Ok [33]) true true); Run 0; Run 0; Run 0; Run 0;
   Run 1; Run 0; Run 0; Poll 1; NotifyWaiting 1; Deliver; Run 1; Run 1; Run 1; Run 1; Poll 2; Deliver; Deliver; Run 1;
   Run 1; Consume; Consume; Flush; CheckFirst; CheckRest].
Definition sample_system : System := default (initial None) (drive 1 (Some 3) sample_moves (initial None)).

Lemma sample_upload_reachable : reachable 1 (Some 3) None sample_system.
Proof.
  apply (upload_drive_reachable 1 (Some 3) None sample_moves (initial None)); [apply rtc_refl|]. by vm_compute.
Qed.

Lemma sample_small : small sample_system.
Proof. split; vm_compute; reflexivity. Qed.

Lemma complete_upload_is_whole_witness :
  reported sample_system = true /\ emitted sample_system = [[104; 105]; [33]] /\ uploaded (Some 3) sample_system.
Proof.
  assert (Hr : reported sample_system = true) by (vm_compute; reflexivity).
  split; [exact Hr|]. split; [vm_compute; reflexivity|].
  exact (complete_upload_is_whole 1 (Some 3) None _ sample_upload_reachable sample_small Hr).
Defined.

Lemma upload_channel_in_order_witness :
  chunks (pushed (shared sample_system)) = [[104; 105]; [33]] /\ emitted_bytes (completion sample_system) = 3.
Proof.
  split; [vm_compute; reflexivity|].
  rewrite (proj1 (proj2 (proj2 (upload_channel_in_order 1 (Some 3) None _ sample_upload_reachable sample_small)))).
  vm_compute; reflexivity.
Defined.

(** The same run, stopped when the transport is parked and the producers have returned. *)
Definition parking_moves : list Move :=
  [Call (Sending (Ok [33]) false true); Run 0; Run 0; Run 0; Run 0; Run 0; Run 0; Poll 0; Deliver; Deliver; Poll 1].
Definition sample_parked : System := default (initial None) (drive 1 (Some 3) parking_moves (initial None)).

Lemma sample_parked_reachable : reachable 1 (Some 3) None sample_parked.
Proof.
  apply (upload_drive_reachable 1 (Some 3) None parking_moves (initial None)); [apply rtc_refl|]. by vm_compute.
Qed.

Lemma upload_no_deadlock_witness :
  phase sample_parked = Parked /\ queue (shared sample_parked) = [] /\ closed (shared sample_parked) = false.
Proof.
  assert (Hp : phase sample_parked = Parked) by (vm_compute; reflexivity).
  assert (Hw : woken (shared sample_parked) = false) by (vm_compute; reflexivity).
  assert (Hsmall : small sample_parked) by (split; vm_compute; reflexivity).
  assert (Hs : senders sample_parked = [Done SendOk]) by (vm_compute; reflexivity).
  split; [exact Hp|].
  apply (proj1 (proj2 (upload_no_deadlock 1 (Some 3) None _ (Nat.lt_0_1) sample_parked_reachable Hsmall
    ltac:(intros t; rewrite Hs; intros ->%list_elem_of_singleton; reflexivity) (or_introl (conj Hp Hw))))).
  exact Hp.
Defined.
