(* ===== verification/Telemetry.v ===== *)
(** * Telemetry events

    [src/src/core/telemetry.rs]: the events of one request ([RequestTelemetry]), and the
    journal they go to with those of connections ([ClientTelemetry]): a bounded channel
    that many producers fill without locks, that drains empty, and that closing the client
    seals after the last event of every open and every connection.

    The journal is a system of tasks; a step is one atomic operation or one section under
    a lock.  A request's operations are under its own lock, and functions here. *)

From S2P Require Import Prelude Atomics Sync.

Local Open Scope Z_scope.

(** ** Events *)

Definition NATIVE_TELEMETRY_JOURNAL_CAPACITY : Z := 4096.

Inductive TelemetryEventType :=
| PoolAcquireStarted | PoolAcquireFinished | ConnectionOpened | ConnectionOpenFailed | ConnectionReused
| ConnectionClosed | ConnectionAborted.

Inductive TelemetryRequestMode := Buffered | Stream.

Inductive TelemetryOutcome := OutcomeSuccess | OutcomeError | OutcomeClosed | OutcomeCancelled.

Inductive TelemetryErrorType :=
| RequestError | NetworkError | PoolTimeout | SsrfError | TimeoutError | ReadTimeout
| ResponseBodyBudgetExceededError | ResponseBodyTooLargeError | ResponseDecodingError | WriteTimeout
| CancelledError.
#[export] Instance TelemetryErrorType_eq_dec : EqDecision TelemetryErrorType.
Proof. solve_decision. Defined.

Definition telemetry_event_type_as_str (t : TelemetryEventType) : string :=
  match t with
  | PoolAcquireStarted => "pool_acquire_started"
  | PoolAcquireFinished => "pool_acquire_finished"
  | ConnectionOpened => "connection_opened"
  | ConnectionOpenFailed => "connection_open_failed"
  | ConnectionReused => "connection_reused"
  | ConnectionClosed => "connection_closed"
  | ConnectionAborted => "connection_aborted"
  end.

Definition telemetry_request_mode_as_str (m : TelemetryRequestMode) : string :=
  match m with Buffered => "buffered" | Stream => "stream" end.

Definition telemetry_outcome_as_str (o : TelemetryOutcome) : string :=
  match o with
  | OutcomeSuccess => "success"
  | OutcomeError => "error"
  | OutcomeClosed => "closed"
  | OutcomeCancelled => "cancelled"
  end.

Definition telemetry_error_type_as_str (e : TelemetryErrorType) : string :=
  match e with
  | RequestError => "RequestError"
  | NetworkError => "NetworkError"
  | PoolTimeout => "PoolTimeout"
  | SsrfError => "SSRFError"
  | TimeoutError => "TimeoutError"
  | ReadTimeout => "ReadTimeout"
  | ResponseBodyBudgetExceededError => "ResponseBodyBudgetExceededError"
  | ResponseBodyTooLargeError => "ResponseBodyTooLargeError"
  | ResponseDecodingError => "ResponseDecodingError"
  | WriteTimeout => "WriteTimeout"
  | CancelledError => "CancelledError"
  end.

Record TelemetryEventRecord := {
  event_type : TelemetryEventType;
  event_request_id : option Z;
  event_mode : option TelemetryRequestMode;
  event_method : option string;
  event_origin : option string;
  event_elapsed : option Z;
  event_redirect_hop : option Z;
  event_outcome : option TelemetryOutcome;
  event_error_type : option TelemetryErrorType;
}.

Record TelemetryEventBatch := { batch_events : list TelemetryEventRecord; batch_dropped_events : Z }.

(** [RawTelemetryEvent], of [py/telemetry.rs]. *)
Definition duration_as_nanos (duration : Z) : Z := Z.min U64_MAX duration.

Record RawTelemetryEvent := {
  raw_event_type : string;
  raw_request_id : option Z;
  raw_mode : option string;
  raw_method : option string;
  raw_origin : option string;
  raw_elapsed_ns : option Z;
  raw_redirect_hop : option Z;
  raw_outcome : option string;
  raw_error_type : option string;
}.

Definition raw_telemetry_event (e : TelemetryEventRecord) : RawTelemetryEvent :=
  {| raw_event_type := telemetry_event_type_as_str (event_type e); raw_request_id := event_request_id e;
     raw_mode := telemetry_request_mode_as_str <$> event_mode e; raw_method := event_method e;
     raw_origin := event_origin e; raw_elapsed_ns := duration_as_nanos <$> event_elapsed e;
     raw_redirect_hop := event_redirect_hop e; raw_outcome := telemetry_outcome_as_str <$> event_outcome e;
     raw_error_type := telemetry_error_type_as_str <$> event_error_type e |}.

Definition raw_telemetry_batch (batch : TelemetryEventBatch) : list RawTelemetryEvent * Z :=
  (raw_telemetry_event <$> batch_events batch, batch_dropped_events batch).

(** ** The events of a request *)

Inductive ActivePhaseType := PoolAcquire.
#[export] Instance ActivePhaseType_eq_dec : EqDecision ActivePhaseType.
Proof. solve_decision. Defined.

Record ActivePhase := { phase_type : ActivePhaseType; phase_origin : string; phase_hop : Z; phase_started : Z }.

(** [Arc<ConnectionUseToken>]: its identity. *)
Record ActiveConnectionUse := { use_token : nat; use_origin : string; use_hop : Z }.

Record RequestState := {
  active : option ActivePhase;
  connection_use : option ActiveConnectionUse;
  cancelled : bool;
  terminal_error_type : option TelemetryErrorType;
}.
#[export] Instance eta_RequestState : Eta RequestState := fun s =>
  Build_RequestState (active s) (connection_use s) (cancelled s) (terminal_error_type s).

(** [next_token] counts the tokens allocated. *)
Record RequestTelemetry := {
  request_id : Z;
  mode : TelemetryRequestMode;
  method : string;
  redirect_hop : Z;
  state : RequestState;
  next_token : nat;
}.
#[export] Instance eta_RequestTelemetry : Eta RequestTelemetry := fun r =>
  Build_RequestTelemetry (request_id r) (mode r) (method r) (redirect_hop r) (state r) (next_token r).

(** [ClientTelemetry::request]. *)
Definition client_request (id : Z) (m : TelemetryRequestMode) (meth : string) : RequestTelemetry :=
  {| request_id := id; mode := m; method := meth; redirect_hop := 0;
     state := {| active := None; connection_use := None; cancelled := false; terminal_error_type := None |};
     next_token := 0 |}.

Definition request_event (r : RequestTelemetry) (t : TelemetryEventType) (origin : string) (hop : Z) (el : option Z)
    (o : option TelemetryOutcome) (e : option TelemetryErrorType) : TelemetryEventRecord :=
  {| event_type := t; event_request_id := Some (request_id r); event_mode := Some (mode r);
     event_method := Some (method r); event_origin := Some origin; event_elapsed := el;
     event_redirect_hop := Some hop; event_outcome := o; event_error_type := e |}.

(** The operations return whether they did something, where the code does, and the
    events they record. *)
Definition begin_phase (pt : ActivePhaseType) (origin : string) (hop : Z) (emit_started : bool) (now : Z)
    (r : RequestTelemetry) : RequestTelemetry * list TelemetryEventRecord :=
  if cancelled (state r) then (r, [])
  else
    match active (state r) with
    | Some _ => (r, [])
    | None =>
        (r <| state ::= fun s => s <| active :=
           Some {| phase_type := pt; phase_origin := origin; phase_hop := hop; phase_started := now |} |> |>,
         if emit_started then [request_event r PoolAcquireStarted origin hop None None None] else [])
    end.

Definition begin_pool_acquire (origin : string) (hop now : Z) (r : RequestTelemetry) :
    RequestTelemetry * list TelemetryEventRecord :=
  begin_phase PoolAcquire origin hop true now (r <| redirect_hop := hop |>).

Definition finish_phase (pt : ActivePhaseType) (t : TelemetryEventType) (o : TelemetryOutcome)
    (e : option TelemetryErrorType) (now : Z) (r : RequestTelemetry) :
    bool * RequestTelemetry * list TelemetryEventRecord :=
  match active (state r) with
  | Some phase =>
      if bool_decide (phase_type phase <> pt) then (false, r, [])
      else
        (true, r <| state ::= fun s => s <| active := None |> |>,
         [request_event r t (phase_origin phase) (phase_hop phase) (Some (elapsed (phase_started phase) now))
            (Some o) e])
  | None => (false, r, [])
  end.

Definition finish_pool_acquire_success (now : Z) (r : RequestTelemetry) :=
  finish_phase PoolAcquire PoolAcquireFinished OutcomeSuccess None now r.
Definition finish_pool_acquire_error (e : TelemetryErrorType) (now : Z) (r : RequestTelemetry) :=
  finish_phase PoolAcquire PoolAcquireFinished OutcomeError (Some e) now r.

Definition connection_aborted (origin : string) (hop : Z) (o : TelemetryOutcome) (e : option TelemetryErrorType)
    (r : RequestTelemetry) : list TelemetryEventRecord :=
  [request_event r ConnectionAborted origin hop None (Some o) e].

Definition begin_connection_use (origin : string) (reused : bool) (r : RequestTelemetry) :
    option nat * RequestTelemetry * list TelemetryEventRecord :=
  let token := next_token r in
  let r := r <| next_token ::= S |> in
  let hop := redirect_hop r in
  if cancelled (state r) then (None, r, [])
  else
    match connection_use (state r) with
    | Some _ => (None, r, [])
    | None =>
        (Some token,
         r <| state ::= fun s => s <| connection_use :=
           Some {| use_token := token; use_origin := origin; use_hop := hop |} |> |>,
         if reused then [request_event r ConnectionReused origin hop None (Some OutcomeSuccess) None] else [])
    end.

Definition record_finished_phase (phase : ActivePhase) (o : TelemetryOutcome) (e : TelemetryErrorType) (now : Z)
    (r : RequestTelemetry) : list TelemetryEventRecord :=
  let t := match phase_type phase with PoolAcquire => PoolAcquireFinished end in
  [request_event r t (phase_origin phase) (phase_hop phase) (Some (elapsed (phase_started phase) now))
     (Some o) (Some e)].

(** [RequestTelemetry::cancel]. *)
Definition request_cancel (now : Z) (r : RequestTelemetry) : RequestTelemetry * list TelemetryEventRecord :=
  if cancelled (state r) then (r, [])
  else
    (r <| state := {| active := None; connection_use := None; cancelled := true;
                      terminal_error_type := Some CancelledError |} |>,
     match active (state r) with
     | Some phase => record_finished_phase phase OutcomeCancelled CancelledError now r
     | None => []
     end ++
     match connection_use (state r) with
     | Some u => connection_aborted (use_origin u) (use_hop u) OutcomeCancelled (Some CancelledError) r
     | None => []
     end).

Definition finish_active_phase_error (e : TelemetryErrorType) (now : Z) (r : RequestTelemetry) :
    RequestTelemetry * list TelemetryEventRecord :=
  if cancelled (state r) then (r, [])
  else
    (r <| state ::= fun s => s <| terminal_error_type := Some e |> <| active := None |> |>,
     match active (state r) with
     | Some phase => record_finished_phase phase OutcomeError e now r
     | None => []
     end).

Definition finish_connection_use (token : nat)
    (terminal : option (TelemetryOutcome * option TelemetryErrorType)) (r : RequestTelemetry) :
    bool * RequestTelemetry * list TelemetryEventRecord :=
  match connection_use (state r) with
  | Some u =>
      if (use_token u =? token)%nat then
        (true, r <| state ::= fun s => s <| connection_use := None |> |>,
         match terminal with
         | Some (o, e) => connection_aborted (use_origin u) (use_hop u) o e r
         | None => []
         end)
      else (false, r, [])
  | None => (false, r, [])
  end.

(** [RequestConnectionUseTelemetry::finish] and [::abort]. *)
Definition use_finish (token : nat) (r : RequestTelemetry) := finish_connection_use token None r.
Definition use_abort (token : nat) (o : TelemetryOutcome) (e : option TelemetryErrorType) (r : RequestTelemetry) :=
  finish_connection_use token (Some (o, e)) r.

Definition abort_active_connection_use (o : TelemetryOutcome) (e : option TelemetryErrorType)
    (r : RequestTelemetry) : bool * RequestTelemetry * list TelemetryEventRecord :=
  match connection_use (state r) with
  | Some u =>
      (true, r <| state ::= fun s => s <| connection_use := None |> |>,
       connection_aborted (use_origin u) (use_hop u) o e r)
  | None => (false, r, [])
  end.

Definition is_cancelled (r : RequestTelemetry) : bool := cancelled (state r).

(** The calls of a request, in the order of its lock. *)
Inductive RequestOp :=
| OpBeginAcquire (origin : string) (hop now : Z)
| OpAcquired (now : Z)
| OpAcquireFailed (e : TelemetryErrorType) (now : Z)
| OpAborted (origin : string) (hop : Z) (o : TelemetryOutcome) (e : option TelemetryErrorType)
| OpBeginUse (origin : string) (reused : bool)
| OpCancel (now : Z)
| OpPhaseError (e : TelemetryErrorType) (now : Z)
| OpUseFinish (token : nat)
| OpUseAbort (token : nat) (o : TelemetryOutcome) (e : option TelemetryErrorType)
| OpAbortUse (o : TelemetryOutcome) (e : option TelemetryErrorType).

(** A call with its result; calls without one return [true]. *)
Definition request_step (op : RequestOp) (r : RequestTelemetry) : bool * RequestTelemetry * list TelemetryEventRecord :=
  match op with
  | OpBeginAcquire origin hop now => let (r, es) := begin_pool_acquire origin hop now r in (true, r, es)
  | OpAcquired now => finish_pool_acquire_success now r
  | OpAcquireFailed e now => finish_pool_acquire_error e now r
  | OpAborted origin hop o e => (true, r, connection_aborted origin hop o e r)
  | OpBeginUse origin reused => let '(t, r, es) := begin_connection_use origin reused r in (is_some t, r, es)
  | OpCancel now => let (r, es) := request_cancel now r in (true, r, es)
  | OpPhaseError e now => let (r, es) := finish_active_phase_error e now r in (true, r, es)
  | OpUseFinish token => use_finish token r
  | OpUseAbort token o e => use_abort token o e r
  | OpAbortUse o e => abort_active_connection_use o e r
  end.

(** The results and the events of a sequence of calls. *)
Fixpoint request_run (ops : list RequestOp) (r : RequestTelemetry) :
    list (RequestOp * bool) * RequestTelemetry * list TelemetryEventRecord :=
  match ops with
  | [] => ([], r, [])
  | op :: ops =>
      let '(ok, r, es) := request_step op r in
      let '(oks, r, es') := request_run ops r in
      ((op, ok) :: oks, r, es ++ es')
  end.

(** Acquisitions open and close alternately, each closed where it was opened; [None] if
    they do not, or the acquisition still open. *)
Fixpoint bracketed (open : option (option string * option Z)) (es : list TelemetryEventRecord) :
    option (option (option string * option Z)) :=
  match es with
  | [] => Some open
  | e :: es =>
      match event_type e, open with
      | PoolAcquireStarted, None => bracketed (Some (event_origin e, event_redirect_hop e)) es
      | PoolAcquireStarted, Some _ | PoolAcquireFinished, None => None
      | PoolAcquireFinished, Some place =>
          if bool_decide (place = (event_origin e, event_redirect_hop e)) then bracketed None es else None
      | _, _ => bracketed open es
      end
  end.

Definition phase_place (phase : ActivePhase) : option string * option Z := (Some (phase_origin phase), Some (phase_hop phase)).

(** The calls that ended the use of a token. *)
Definition ends_use (token : nat) (call : RequestOp * bool) : bool :=
  match call with
  | (OpUseFinish t, ok) | (OpUseAbort t _ _, ok) => ok && (t =? token)%nat
  | _ => false
  end.
Definition ended_uses (token : nat) (calls : list (RequestOp * bool)) : Z :=
  sum_over (fun c => if ends_use token c then 1 else 0) calls.

Definition labelled (r : RequestTelemetry) (e : TelemetryEventRecord) : Prop :=
  event_request_id e = Some (request_id r) /\ event_mode e = Some (mode r) /\ event_method e = Some (method r).

Record request_ok (r0 : RequestTelemetry) (calls : list (RequestOp * bool)) (r : RequestTelemetry)
    (es : list TelemetryEventRecord) : Prop := {
  ok_bracketed : bracketed None es = Some (phase_place <$> active (state r));
  ok_labels : request_id r = request_id r0 /\ mode r = mode r0 /\ method r = method r0;
  ok_events : Forall (labelled r0) es;
  ok_cancelled : cancelled (state r) = true -> active (state r) = None /\ connection_use (state r) = None;
  ok_token : forall u, connection_use (state r) = Some u ->
    (use_token u < next_token r)%nat /\ ended_uses (use_token u) calls = 0;
  ok_fresh : forall t, (next_token r <= t)%nat -> ended_uses t calls = 0;
  ok_once : forall t, ended_uses t calls <= 1;
}.

Lemma bracketed_app open es es' :
  bracketed open (es ++ es') = match bracketed open es with Some open' => bracketed open' es' | None => None end.
Proof.
  revert open; induction es as [|e es IH]; intros open; cbn; [done|].
  destruct (event_type e), open as [place|]; try done; try (apply IH). by case_bool_decide.
Qed.

Lemma ended_uses_app t calls calls' : ended_uses t (calls ++ calls') = ended_uses t calls + ended_uses t calls'.
Proof. apply sum_over_app. Qed.

Lemma labelled_event r0 r t origin hop el o e :
  request_id r = request_id r0 /\ mode r = mode r0 /\ method r = method r0 ->
  labelled r0 (request_event r t origin hop el o e).
Proof. intros (H1 & H2 & H3). unfold labelled. cbn. by rewrite H1, H2, H3. Qed.

Create HintDb telemetry.
#[export] Hint Resolve labelled_event : telemetry.

(** A call that ends no use. *)
Lemma request_ok_call r0 calls r es op ok r' es' :
  request_ok r0 calls r es ->
  (forall t, ends_use t (op, ok) = false) ->
  request_id r' = request_id r -> mode r' = mode r -> method r' = method r ->
  (next_token r <= next_token r')%nat ->
  bracketed (phase_place <$> active (state r)) es' = Some (phase_place <$> active (state r')) ->
  Forall (labelled r0) es' ->
  (cancelled (state r') = true -> active (state r') = None /\ connection_use (state r') = None) ->
  (forall u, connection_use (state r') = Some u ->
     connection_use (state r) = Some u \/ use_token u = next_token r /\ next_token r' = S (next_token r)) ->
  request_ok r0 (calls ++ [(op, ok)]) r' (es ++ es').
Proof.
  intros [] Hend E1 E2 E3 Hnext Hb Hf Hc Hu.
  assert (Hsame : forall t, ended_uses t (calls ++ [(op, ok)]) = ended_uses t calls).
  { intros t. rewrite ended_uses_app. unfold ended_uses at 2. cbn [sum_over]. rewrite Hend. lia. }
  split.
  - by rewrite bracketed_app, ok_bracketed0.
  - by rewrite E1, E2, E3.
  - by apply Forall_app.
  - done.
  - intros u Eu. rewrite Hsame. destruct (Hu u Eu) as [E|[-> ->]].
    + destruct (ok_token0 u E). split; [lia|done].
    + split; [lia|]. by apply ok_fresh0.
  - intros t Ht. rewrite Hsame. apply ok_fresh0. lia.
  - intros t. by rewrite Hsame.
Qed.

(** Ending the use of a token. *)
Lemma request_ok_end r0 calls r es op ok r' es' token terminal :
  request_ok r0 calls r es -> op = OpUseFinish token \/ (exists o e, op = OpUseAbort token o e) ->
  finish_connection_use token terminal r = (ok, r', es') ->
  request_ok r0 (calls ++ [(op, ok)]) r' (es ++ es').
Proof.
  intros Hok Hop. unfold finish_connection_use.
  assert (Hends : forall t, ends_use t (op, false) = false).
  { intros t. by destruct Hop as [->|(o & e & ->)]. }
  destruct (connection_use (state r)) as [u|] eqn:Eu.
  2:{ intros [= <- <- <-]. destruct Hok. eapply request_ok_call; try done. by intros u ->; left. }
  destruct (Nat.eqb_spec (use_token u) token) as [Et|Et].
  2:{ intros [= <- <- <-]. destruct Hok. eapply request_ok_call; try done. by intros u' ->; left. }
  intros [= <- <- <-]. destruct Hok.
  assert (Hsame : forall t, ended_uses t (calls ++ [(op, true)]) = ended_uses t calls + if (token =? t)%nat then 1 else 0).
  { intros t. rewrite ended_uses_app. unfold ended_uses at 2.
    destruct Hop as [->|(o & e & ->)]; cbn; by destruct (_ =? _)%nat. }
  destruct (ok_token0 u Eu) as [Hlt Hz]. split; cbn; try done.
  - rewrite bracketed_app, ok_bracketed0. by destruct terminal as [[o e]|], (active (state r)).
  - apply Forall_app. split; [done|]. destruct terminal as [[o e]|]; [|done]. repeat constructor; apply labelled_event; done.
  - intros Hc. by destruct (ok_cancelled0 Hc).
  - intros t Ht. rewrite Hsame, ok_fresh0 by done. destruct (Nat.eqb_spec token t); [lia|done].
  - intros t. rewrite Hsame. destruct (Nat.eqb_spec token t); [|specialize (ok_once0 t); lia]. subst. lia.
Qed.

Lemma finished_phase_event phase o e now r :
  record_finished_phase phase o e now r =
    [request_event r PoolAcquireFinished (phase_origin phase) (phase_hop phase) (Some (elapsed (phase_started phase) now))
       (Some o) (Some e)].
Proof. unfold record_finished_phase. by destruct (phase_type phase). Qed.

(** The obligations of [request_ok_call] that hold by the shape of the call. *)
Ltac same_uses Hl Hcan :=
  eapply request_ok_call; try done; cbn; try done; try (by intros u ->; left);
  try (repeat (apply Forall_cons_2; [apply Hl|]); apply Forall_nil_2);
  try lia; try exact Hcan; try (intros Hcancelled; by destruct (Hcan Hcancelled)).

Lemma request_ok_step r0 calls r es op ok r' es' :
  request_ok r0 calls r es -> request_step op r = (ok, r', es') -> request_ok r0 (calls ++ [(op, ok)]) r' (es ++ es').
Proof.
  intros Hok. pose proof Hok as []. assert (Hl : forall t origin hop el o e, labelled r0 (request_event r t origin hop el o e))
    by auto with telemetry.
  destruct op as [origin hop now|now|e now|origin hop o e|origin reused|now|e now|token|token o e|o e]; cbn [request_step].
  - unfold begin_pool_acquire, begin_phase. cbn.
    destruct (cancelled (state r)) eqn:Hc; [|destruct (active (state r)) eqn:Ha]; intros [= <- <- <-]; same_uses Hl (ok_cancelled _ _ _ _ Hok);
      cbn; rewrite ?Hc, ?Ha; done.
  - unfold finish_pool_acquire_success, finish_phase.
    destruct (active (state r)) as [ph|] eqn:Ha; [case_bool_decide|]; intros [= <- <- <-]; same_uses Hl (ok_cancelled _ _ _ _ Hok);
      cbn; rewrite ?Ha; cbn; try done. by rewrite bool_decide_eq_true_2.
  - unfold finish_pool_acquire_error, finish_phase.
    destruct (active (state r)) as [ph|] eqn:Ha; [case_bool_decide|]; intros [= <- <- <-]; same_uses Hl (ok_cancelled _ _ _ _ Hok);
      cbn; rewrite ?Ha; cbn; try done. by rewrite bool_decide_eq_true_2.
  - intros [= <- <- <-]. same_uses Hl (ok_cancelled _ _ _ _ Hok).
  - unfold begin_connection_use. cbn.
    destruct (cancelled (state r)) eqn:Hc; [|destruct (connection_use (state r)) eqn:Hu]; intros [= <- <- <-]; same_uses Hl (ok_cancelled _ _ _ _ Hok).
    + by destruct reused, (active (state r)).
    + destruct reused; [apply Forall_cons_2; [apply Hl|]|]; apply Forall_nil_2.
    + congruence.
    + intros u [= <-]. by right.
  - unfold request_cancel.
    destruct (cancelled (state r)) eqn:Hc; intros [= <- <- <-]; same_uses Hl (ok_cancelled _ _ _ _ Hok).
    + destruct (active (state r)), (connection_use (state r)); rewrite ?finished_phase_event; cbn; rewrite ?bool_decide_eq_true_2 by done; done.
    + destruct (active (state r)), (connection_use (state r)); rewrite ?finished_phase_event; cbn; repeat (apply Forall_cons_2; [apply Hl|]); apply Forall_nil_2.
  - unfold finish_active_phase_error.
    destruct (cancelled (state r)) eqn:Hc; intros [= <- <- <-]; same_uses Hl (ok_cancelled _ _ _ _ Hok).
    + destruct (active (state r)); rewrite ?finished_phase_event; cbn; rewrite ?bool_decide_eq_true_2 by done; done.
    + destruct (active (state r)); rewrite ?finished_phase_event; cbn; repeat (apply Forall_cons_2; [apply Hl|]); apply Forall_nil_2.
  - intros Hf. eapply request_ok_end; [done|by left|exact Hf].
  - intros Hf. eapply request_ok_end; [done|right; eauto|exact Hf].
  - unfold abort_active_connection_use.
    destruct (connection_use (state r)) as [u|] eqn:Hu; intros [= <- <- <-]; same_uses Hl (ok_cancelled _ _ _ _ Hok).
Qed.

Lemma request_run_ok r0 calls r es ops calls' r' es' :
  request_ok r0 calls r es -> request_run ops r = (calls', r', es') -> request_ok r0 (calls ++ calls') r' (es ++ es').
Proof.
  revert calls r es calls' es'; induction ops as [|op ops IH]; intros calls r es calls' es' Hok; cbn [request_run].
  { intros [= <- <- <-]. by rewrite !app_nil_r. }
  destruct (request_step op r) as [[ok r1] es1] eqn:Hs. destruct (request_run ops r1) as [[calls2 r2] es2] eqn:Hr.
  intros [= <- <- <-]. pose proof (IH _ _ _ _ _ (request_ok_step _ _ _ _ _ _ _ _ Hok Hs) Hr) as H.
  by rewrite <- !app_assoc in H.
Qed.

Lemma request_ok_new id m meth : request_ok (client_request id m meth) [] (client_request id m meth) [].
Proof. by split. Qed.

(** Whatever a request and its environment call, in any order, the events of the
    request are well-formed: acquisitions start and finish alternately, each at its own
    origin and hop; every event carries the request's identity; the use of a connection
    ends at most once; after a cancellation nothing is open, and no call but the explicit
    report of an aborted connection records anything. *)
Theorem request_events_sound id m meth ops calls r es :
  request_run ops (client_request id m meth) = (calls, r, es) ->
  bracketed None es = Some (phase_place <$> active (state r)) /\
  Forall (fun e => event_request_id e = Some id /\ event_mode e = Some m /\ event_method e = Some meth) es /\
  (forall token, ended_uses token calls <= 1) /\
  (cancelled (state r) = true ->
     active (state r) = None /\ connection_use (state r) = None /\
     forall op, match op with OpAborted _ _ _ _ => True | _ => snd (request_step op r) = [] end).
Proof.
  intros Hrun. destruct (request_run_ok _ _ _ _ _ _ _ _ (request_ok_new id m meth) Hrun).
  split; [done|]. split; [done|]. split; [done|]. intros Hc. destruct (ok_cancelled0 Hc) as [Ha Hu]. split_and!; [done..|].
  intros [origin hop now|now|e now|origin hop o e|origin reused|now|e now|token|token o e|o e]; cbn; try done.
  - unfold begin_pool_acquire, begin_phase. cbn. by rewrite Hc.
  - unfold finish_pool_acquire_success, finish_phase. by rewrite Ha.
  - unfold finish_pool_acquire_error, finish_phase. by rewrite Ha.
  - unfold begin_connection_use. cbn. by rewrite Hc.
  - unfold request_cancel. by rewrite Hc.
  - unfold finish_active_phase_error. by rewrite Hc.
  - unfold use_finish, finish_connection_use. by rewrite Hu.
  - unfold use_abort, finish_connection_use. by rewrite Hu.
  - unfold abort_active_connection_use. by rewrite Hu.
Qed.

(** ** The journal *)

(** Whose event a record is. *)
Inductive Source := OfRequest | OfOpen (i : nat) | OfConnection (c : nat).
#[export] Instance Source_eq_dec : EqDecision Source.
Proof. solve_decision. Defined.

Record ConnectionOpenTelemetryInner := {
  open_origin : option string;
  open_started : Z;
  open_finished : bool;
  (** whether the client was open, and the open was entered in [pending_opens] *)
  open_registered : bool;
}.
#[export] Instance eta_ConnectionOpenTelemetryInner : Eta ConnectionOpenTelemetryInner := fun o =>
  Build_ConnectionOpenTelemetryInner (open_origin o) (open_started o) (open_finished o) (open_registered o).

(** [connection_alive]: whether a strong reference is left. *)
Record ConnectionEventTelemetryInner := {
  connection_origin : option string;
  connection_closed : bool;
  connection_alive : bool;
}.
#[export] Instance eta_ConnectionEventTelemetryInner : Eta ConnectionEventTelemetryInner := fun c =>
  Build_ConnectionEventTelemetryInner (connection_origin c) (connection_closed c) (connection_alive c).

(** [ClientTelemetryInner], with its channel and the objects it refers to by index. *)
Record ClientTelemetry := {
  channel : list TelemetryEventRecord;
  retained : list TelemetryEventRecord;
  journal_locked : bool;
  capacity : Z;
  queued_events : Z;
  dropped_events : Z;
  closed : bool;
  active_producers : Z;
  connections : list nat;
  connections_locked : bool;
  pending_opens : list nat;
  opens : list ConnectionOpenTelemetryInner;
  connection_telemetry : list ConnectionEventTelemetryInner;
}.
#[export] Instance eta_ClientTelemetry : Eta ClientTelemetry := fun c =>
  Build_ClientTelemetry (channel c) (retained c) (journal_locked c) (capacity c) (queued_events c) (dropped_events c)
    (closed c) (active_producers c) (connections c) (connections_locked c) (pending_opens c) (opens c)
    (connection_telemetry c).

Definition with_capacity (cap : Z) : ClientTelemetry :=
  {| channel := []; retained := []; journal_locked := false; capacity := cap; queued_events := 0; dropped_events := 0;
     closed := false; active_producers := 0; connections := []; connections_locked := false; pending_opens := [];
     opens := []; connection_telemetry := [] |}.

(** [ClientTelemetry::new]. *)
Definition client_telemetry_new : ClientTelemetry := with_capacity NATIVE_TELEMETRY_JOURNAL_CAPACITY.

Definition finished_open (c : ClientTelemetry) (i : nat) : bool :=
  match opens c !! i with Some o => open_finished o | None => true end.

(** [connection_open], a section under the lock of [pending_opens]. *)
Definition connection_open (origin : option string) (now : Z) (c : ClientTelemetry) : ClientTelemetry :=
  let i := length (opens c) in
  let o := {| open_origin := origin; open_started := now; open_finished := closed c; open_registered := negb (closed c) |} in
  let pending := filter (fun j => negb (finished_open c j)) (pending_opens c) in
  c <| opens ::= fun os => os ++ [o] |>
    <| pending_opens := if closed c then pending else pending ++ [i] |>.

(** The events without a request. *)
Definition connection_event (t : TelemetryEventType) (origin : option string) (el : option Z) (o : TelemetryOutcome)
    (e : option TelemetryErrorType) : TelemetryEventRecord :=
  {| event_type := t; event_request_id := None; event_mode := None; event_method := None; event_origin := origin;
     event_elapsed := el; event_redirect_hop := None; event_outcome := Some o; event_error_type := e |}.

Definition connection_opened_event (o : ConnectionOpenTelemetryInner) (now : Z) : TelemetryEventRecord :=
  connection_event ConnectionOpened (open_origin o) (Some (elapsed (open_started o) now)) OutcomeSuccess None.

(** [record_connection_open_failed_unchecked]. *)
Definition connection_open_failed_event (o : ConnectionOpenTelemetryInner) (e : TelemetryErrorType) (now : Z) :
    TelemetryEventRecord :=
  connection_event ConnectionOpenFailed (open_origin o) (Some (elapsed (open_started o) now))
    (if bool_decide (e = CancelledError) then OutcomeCancelled else OutcomeError) (Some e).

Definition connection_closed_event (c : ConnectionEventTelemetryInner) : TelemetryEventRecord :=
  connection_event ConnectionClosed (connection_origin c) None OutcomeClosed None.

(** [ConnectionOpenTelemetryInner::terminal_error_type], given what the request says. *)
Definition open_terminal_error_type (request : option TelemetryErrorType) : TelemetryErrorType :=
  default CancelledError request.

(** [drain_request], on one event. *)
Definition matches_request (req : option Z) (e : TelemetryEventRecord) : bool :=
  match req with
  | None => true
  | Some id => bool_decide (event_request_id e = None) || bool_decide (event_request_id e = Some id)
  end.

(** *** Tasks *)

(** What a task does once it counts as a producer: [record], [opened], [failed] or the
    drop of an open, [closed]. *)
Inductive Claim :=
| ClaimRecord (e : TelemetryEventRecord)
| ClaimOpened (i : nat)
| ClaimFailed (i : nat) (e : TelemetryErrorType)
| ClaimClosed (c : nat).

(** What follows a record. *)
Inductive After :=
| EndProducing
| UnlockConnections
| KeepClosing (os cs : list nat).

Inductive Task :=
(** [try_begin_production] *)
| Entering (cl : Claim)
| Announcing (cl : Claim)
| Announced (cl : Claim)
| Withdrawing
| Claiming (cl : Claim)
(** [record_unchecked]; the compare-and-swap loop of [reserve_event_slot] *)
| Recording (src : Source) (e : TelemetryEventRecord) (k : After)
| Reserving (queued : Z) (src : Source) (e : TelemetryEventRecord) (k : After)
| Sending (src : Source) (e : TelemetryEventRecord) (k : After)
| ReleasingSlot (src : Source) (e : TelemetryEventRecord) (k : After)
| NotingDropped (src : Source) (e : TelemetryEventRecord) (k : After)
| Unlocking
| EndingProduction
(** [close_connections] *)
| Sealing
| AwaitingProducers (os cs : list nat)
| ClosingRest (os cs : list nat)
| Sealed
(** [drain] *)
| DrainLocking (req : option Z)
| Draining (req : option Z) (matching : list TelemetryEventRecord)
| DrainCounting (req : option Z) (matching : list TelemetryEventRecord)
| DrainReporting (req : option Z) (matching : list TelemetryEventRecord)
| Ended.

Definition continue (k : After) : Task :=
  match k with
  | EndProducing => EndingProduction
  | UnlockConnections => Unlocking
  | KeepClosing os cs => ClosingRest os cs
  end.

(** What a step reads from outside: the clock, whether a weak exchange fails spuriously,
    the error of an open's request. *)
Record StepInput := { now : Z; spurious : bool; request_error : option TelemetryErrorType }.

(** Events that entered the journal or were dropped, and the batches drained. *)
Inductive Log :=
| Accepted (src : Source) (e : TelemetryEventRecord)
| Refused (src : Source) (e : TelemetryEventRecord)
| Drained (req : option Z) (batch : TelemetryEventBatch).

Definition alive (c : ClientTelemetry) (j : nat) : bool :=
  match connection_telemetry c !! j with Some conn => connection_alive conn | None => false end.

(** The section of [opened_connection] under the lock of [connections]. *)
Definition opened_connection (inp : StepInput) (i : nat) (c : ClientTelemetry) : option (Task * ClientTelemetry) :=
  if connections_locked c then None
  else
    o ← opens c !! i;
    let c := c <| connections_locked := true |> in
    Some (if closed c then (Unlocking, c)
          else if open_finished o then (Unlocking, c)
          else
            let conn := {| connection_origin := open_origin o; connection_closed := false; connection_alive := true |} in
            (Recording (OfOpen i) (connection_opened_event o (now inp)) UnlockConnections,
             c <| opens ::= alter (fun o => o <| open_finished := true |>) i |>
               <| connections := filter (fun j => alive c j) (connections c) ++ [length (connection_telemetry c)] |>
               <| connection_telemetry ::= fun cs => cs ++ [conn] |>)).

(** The swap of [finish_before_seal], which makes it the only author of the event. *)
Definition finish_before_seal (inp : StepInput) (i : nat) (e : TelemetryErrorType) (c : ClientTelemetry) :
    option (Task * ClientTelemetry) :=
  o ← opens c !! i;
  Some (if open_finished o then (EndingProduction, c)
        else (Recording (OfOpen i) (connection_open_failed_event o e (now inp)) EndProducing,
              c <| opens ::= alter (fun o => o <| open_finished := true |>) i |>)).

(** The swap of [ConnectionEventTelemetry::closed]. *)
Definition closed_before_seal (j : nat) (c : ClientTelemetry) : option (Task * ClientTelemetry) :=
  conn ← connection_telemetry c !! j;
  Some (if connection_closed conn then (EndingProduction, c)
        else (Recording (OfConnection j) (connection_closed_event conn) EndProducing,
              c <| connection_telemetry ::= alter (fun x => x <| connection_closed := true |>) j |>)).

Definition claim (inp : StepInput) (cl : Claim) (c : ClientTelemetry) : option (Task * ClientTelemetry) :=
  match cl with
  | ClaimRecord e => Some (Recording OfRequest e EndProducing, c)
  | ClaimOpened i => opened_connection inp i c
  | ClaimFailed i e => finish_before_seal inp i e c
  | ClaimClosed j => closed_before_seal j c
  end.

Definition finish_after_seal (inp : StepInput) (i : nat) (os cs : list nat) (c : ClientTelemetry) :
    option (Task * ClientTelemetry) :=
  o ← opens c !! i;
  Some (if open_finished o then (ClosingRest os cs, c)
        else (Recording (OfOpen i)
                (connection_open_failed_event o (open_terminal_error_type (request_error inp)) (now inp))
                (KeepClosing os cs),
              c <| opens ::= alter (fun o => o <| open_finished := true |>) i |>)).

Definition closed_after_seal (j : nat) (cs : list nat) (c : ClientTelemetry) : option (Task * ClientTelemetry) :=
  conn ← connection_telemetry c !! j;
  Some (if connection_closed conn then (ClosingRest [] cs, c)
        else (Recording (OfConnection j) (connection_closed_event conn) (KeepClosing [] cs),
              c <| connection_telemetry ::= alter (fun x => x <| connection_closed := true |>) j |>)).

(** The loops of [close_connections], over what it took. *)
Definition close_next (inp : StepInput) (os cs : list nat) (c : ClientTelemetry) : option (Task * ClientTelemetry) :=
  match os, cs with
  | i :: os, _ => finish_after_seal inp i os cs c
  | [], j :: cs => closed_after_seal j cs c
  | [], [] => Some (Sealed, c)
  end.

Definition drain_next (req : option Z) (matching : list TelemetryEventRecord) (c : ClientTelemetry) : Task * ClientTelemetry :=
  match channel c with
  | [] => (DrainCounting req matching, c <| journal_locked := false |>)
  | e :: rest =>
      let c := c <| channel := rest |> in
      if matches_request req e then (Draining req (matching ++ [e]), c)
      else (Draining req matching, c <| retained ::= fun l => l ++ [e] |>)
  end.

(** One step of a task: its next stage, the shared state, what it logs. *)
Definition task_step (inp : StepInput) (t : Task) (c : ClientTelemetry) : option (Task * ClientTelemetry * list Log) :=
  match t with
  | Entering cl => Some (if closed c then Ended else Announcing cl, c, [])
  | Announcing cl => Some (Announced cl, c <| active_producers ::= fun n => wrapping_add n 1 |>, [])
  | Announced cl => Some (if closed c then Withdrawing else Claiming cl, c, [])
  | Withdrawing | EndingProduction => Some (Ended, c <| active_producers ::= fun n => wrapping_sub n 1 |>, [])
  | Claiming cl => '(t, c) ← claim inp cl c; Some (t, c, [])
  | Recording src e k => Some (Reserving (queued_events c) src e k, c, [])
  | Reserving queued src e k =>
      Some (if queued <? capacity c then
              if (queued_events c =? queued) && negb (spurious inp) then
                (Sending src e k, c <| queued_events := queued + 1 |>, [])
              else (Reserving (queued_events c) src e k, c, [])
            else (NotingDropped src e k, c, []))
  | Sending src e k =>
      Some (if Z.of_nat (length (channel c)) <? capacity c then (continue k, c <| channel ::= fun l => l ++ [e] |>, [Accepted src e])
            else (ReleasingSlot src e k, c, []))
  | ReleasingSlot src e k => Some (NotingDropped src e k, c <| queued_events ::= fun n => wrapping_sub n 1 |>, [])
  | NotingDropped src e k =>
      Some (continue k, c <| dropped_events ::= fun n => wrapping_add n 1 |>, [Refused src e])
  | Unlocking => Some (EndingProduction, c <| connections_locked := false |>, [])
  | Sealing =>
      if connections_locked c then None
      else Some (AwaitingProducers (pending_opens c) (filter (fun j => alive c j) (connections c)),
                 c <| closed := true |> <| pending_opens := [] |> <| connections := [] |>, [])
  | AwaitingProducers os cs =>
      Some (if active_producers c =? 0 then ClosingRest os cs else AwaitingProducers os cs, c, [])
  | ClosingRest os cs => '(t, c) ← close_next inp os cs c; Some (t, c, [])
  | DrainLocking req =>
      if journal_locked c then None
      else Some (Draining req (filter (fun e => matches_request req e) (retained c)),
                 c <| journal_locked := true |> <| retained ::= filter (fun e => negb (matches_request req e)) |>, [])
  | Draining req matching => let (t, c) := drain_next req matching c in Some (t, c, [])
  | DrainCounting req matching =>
      Some (DrainReporting req matching, c <| queued_events ::= fun n => wrapping_sub n (Z.of_nat (length matching)) |>, [])
  | DrainReporting req matching =>
      Some (Ended, match req with None => c <| dropped_events := 0 |> | Some _ => c end,
            [Drained req {| batch_events := matching;
                            batch_dropped_events := match req with None => dropped_events c | Some _ => 0 end |}])
  | Ended | Sealed => None
  end.

(** *** The system *)

Record System := { client : ClientTelemetry; tasks : list Task; log : list Log }.
#[export] Instance eta_System : Eta System := fun s => Build_System (client s) (tasks s) (log s).

(** The tasks that may start: the calls of producers, of [close_connections] and [drain]. *)
Definition starting (t : Task) : bool :=
  match t with Entering _ | Sealing | DrainLocking _ => true | _ => false end.

Inductive system_step (s : System) : System -> Prop :=
| step_call t : starting t = true -> system_step s (s <| tasks ::= fun ts => ts ++ [t] |>)
| step_open origin at_ : system_step s (s <| client ::= connection_open origin at_ |>)
| step_task i inp t t' c l :
    tasks s !! i = Some t -> task_step inp t (client s) = Some (t', c, l) ->
    system_step s (s <| client := c |> <| tasks ::= <[i := t']> |> <| log ::= fun l0 => l0 ++ l |>)
(** a connection calls [closed] before its last reference goes *)
| step_release j conn :
    connection_telemetry (client s) !! j = Some conn -> connection_closed conn = true \/ closed (client s) = true ->
    system_step s (s <| client ::= fun c => c <| connection_telemetry ::= alter (fun x => x <| connection_alive := false |>) j |> |>).

Definition initial (cap : Z) : System := {| client := with_capacity cap; tasks := []; log := [] |}.

Definition reachable (cap : Z) : System -> Prop := rtc system_step (initial cap).

(** ** The journal is exact *)

(** A slot reserved and not yet filled or given back. *)
Definition holds_slot (t : Task) : Z := match t with Sending _ _ _ | ReleasingSlot _ _ _ => 1 | _ => 0 end.

(** Events taken from the journal and still counted. *)
Definition counted (t : Task) : Z :=
  match t with Draining _ m | DrainCounting _ m => Z.of_nat (length m) | _ => 0 end.

Definition draining (t : Task) : Z := match t with Draining _ _ => 1 | _ => 0 end.

Definition after_producing (k : After) : Z := match k with KeepClosing _ _ => 0 | _ => 1 end.

Definition producing (t : Task) : Z :=
  match t with
  | Announced _ | Withdrawing | Claiming _ | Unlocking | EndingProduction => 1
  | Recording _ _ k | Reserving _ _ _ k | Sending _ _ k | ReleasingSlot _ _ k | NotingDropped _ _ k => after_producing k
  | _ => 0
  end.

Definition matching_of (t : Task) : list TelemetryEventRecord :=
  match t with Draining _ m | DrainCounting _ m | DrainReporting _ m => m | _ => [] end.

Definition accepted (l : list Log) : list TelemetryEventRecord :=
  omap (fun x => match x with Accepted _ e => Some e | _ => None end) l.
Definition refused (l : list Log) : list TelemetryEventRecord :=
  omap (fun x => match x with Refused _ e => Some e | _ => None end) l.
Definition drained (l : list Log) : list TelemetryEventRecord :=
  mjoin (omap (fun x => match x with Drained _ b => Some (batch_events b) | _ => None end) l).
Definition reported_drops (l : list Log) : Z :=
  sum_over (fun x => match x with Drained _ b => batch_dropped_events b | _ => 0 end) l.

(** Sizes that do not wrap. *)
Definition small (s : System) : Prop :=
  Z.of_nat (length (tasks s)) <= USIZE_MAX /\ Z.of_nat (length (refused (log s))) <= U64_MAX.

Record journal_ok (cap : Z) (s : System) : Prop := {
  ok_capacity : capacity (client s) = cap;
  ok_queued : queued_events (client s) =
    Z.of_nat (length (channel (client s))) + Z.of_nat (length (retained (client s))) +
    sum_over holds_slot (tasks s) + sum_over counted (tasks s);
  ok_bound : 0 <= queued_events (client s) <= cap;
  ok_producers : active_producers (client s) = sum_over producing (tasks s);
  ok_journal_lock : sum_over draining (tasks s) = if journal_locked (client s) then 1 else 0;
  ok_room : forall src e k, ReleasingSlot src e k ∉ tasks s;
  ok_drops : Z.of_nat (length (refused (log s))) = reported_drops (log s) + dropped_events (client s);
  ok_dropped_range : 0 <= dropped_events (client s) /\ 0 <= reported_drops (log s);
}.

(** The part of the state that carries events. *)
Definition journal (c : ClientTelemetry) :=
  (channel c, retained c, journal_locked c, capacity c, queued_events c, dropped_events c, active_producers c).

(** The weights of a task in the sums above. *)
Definition weights (t : Task) := (holds_slot t, counted t, draining t, producing t).

Lemma claim_journal inp cl c t' c' :
  claim inp cl c = Some (t', c') -> journal c' = journal c /\ weights t' = (0, 0, 0, 1) /\ matching_of t' = [].
Proof.
  destruct cl as [e|i|i e|j]; cbn; [|unfold opened_connection|unfold finish_before_seal|unfold closed_before_seal].
  - by intros [= <- <-].
  - destruct (connections_locked c); [done|]. destruct (opens c !! i) as [o|]; [|done]. cbn.
    destruct (closed c); [by intros [= <- <-]|]. destruct (open_finished o); by intros [= <- <-].
  - destruct (opens c !! i) as [o|]; [|done]. cbn. destruct (open_finished o); by intros [= <- <-].
  - destruct (connection_telemetry c !! j) as [x|]; [|done]. cbn. destruct (connection_closed x); by intros [= <- <-].
Qed.

Lemma close_next_journal inp os cs c t' c' :
  close_next inp os cs c = Some (t', c') -> journal c' = journal c /\ weights t' = (0, 0, 0, 0) /\ matching_of t' = [].
Proof.
  destruct os as [|i os]; [destruct cs as [|j cs]|]; cbn; [|unfold closed_after_seal|unfold finish_after_seal].
  - by intros [= <- <-].
  - destruct (connection_telemetry c !! j) as [x|]; [|done]. cbn. destruct (connection_closed x); by intros [= <- <-].
  - destruct (opens c !! i) as [o|]; [|done]. cbn. destruct (open_finished o); by intros [= <- <-].
Qed.

Lemma continue_weights k : weights (continue k) = (0, 0, 0, after_producing k) /\ matching_of (continue k) = [].
Proof. by destruct k. Qed.

(** What a step does to the counters, less what its task accounts for. *)
Record step_balanced (t : Task) (c : ClientTelemetry) (t' : Task) (c' : ClientTelemetry) (l : list Log) : Prop := {
  bal_capacity : capacity c' = capacity c;
  bal_queued :
    queued_events c' - Z.of_nat (length (channel c')) - Z.of_nat (length (retained c')) - holds_slot t' - counted t' =
    queued_events c - Z.of_nat (length (channel c)) - Z.of_nat (length (retained c)) - holds_slot t - counted t;
  bal_bound : 0 <= queued_events c' <= capacity c;
  bal_producers : active_producers c' - producing t' = active_producers c - producing t;
  bal_lock : (if journal_locked c' then 1 else 0) - draining t' = (if journal_locked c then 1 else 0) - draining t;
  bal_room : forall src e k, t' <> ReleasingSlot src e k;
  bal_drops : Z.of_nat (length (refused l)) = reported_drops l + dropped_events c' - dropped_events c;
  bal_dropped : 0 <= dropped_events c' /\ 0 <= reported_drops l;
}.

Lemma filter_split {A} (f : A -> bool) (l : list A) : filter f l ++ filter (fun x => negb (f x)) l ≡ₚ l.
Proof.
  rewrite <- (filter_app_complement (fun x => f x) l) at 3. f_equiv.
  rewrite (list_filter_iff (fun x => negb (f x)) (fun x => ~ f x)); [done|]. intros x. destruct (f x); cbn; tauto.
Qed.

(** The balance of a step that wraps nothing. *)
Ltac balance :=
  split; cbn [client channel retained journal_locked capacity queued_events dropped_events active_producers update_field
    holds_slot counted draining producing after_producing refused reported_drops omap list_omap sum_over length] in *;
  rewrite ?length_app; try (rewrite wrapping_add_small by (cbn in *; lia)); try (rewrite wrapping_sub_small by (cbn in *; lia));
  cbn in *; try lia; try done.

Lemma task_step_balanced inp t c t' c' l :
  task_step inp t c = Some (t', c', l) ->
  Z.of_nat (length (channel c)) + Z.of_nat (length (retained c)) + holds_slot t + counted t <= queued_events c <= capacity c ->
  capacity c <= USIZE_MAX ->
  producing t <= active_producers c <= USIZE_MAX - 1 + producing t ->
  0 <= dropped_events c <= U64_MAX - Z.of_nat (length (refused l)) ->
  (draining t = 1 -> journal_locked c = true) ->
  (forall src e k, t <> ReleasingSlot src e k) ->
  step_balanced t c t' c' l.
Proof.
  intros Hstep Hq Hcap Hp Hd Hlock Hroom. change U64_MAX with USIZE_MAX in Hd.
  assert (Hq0 : 0 <= Z.of_nat (length (channel c)) /\ 0 <= Z.of_nat (length (retained c))) by lia.
  destruct t as [cl|cl|cl| |cl|src e k|q src e k|src e k|src e k|src e k| | | |os cs|os cs| |req|req m|req m|req m|];
    cbn [task_step] in Hstep; try done.
  - injection Hstep as <- <- <-. destruct (closed c); balance.
  - injection Hstep as <- <- <-. balance.
  - injection Hstep as <- <- <-. destruct (closed c); balance.
  - injection Hstep as <- <- <-. balance.
  - destruct (claim inp cl c) as [[t1 c1]|] eqn:Hc; [|done]. injection Hstep as <- <- <-.
    apply claim_journal in Hc as (Hj & Hw & _). injection Hj as E1 E2 E3 E4 E5 E6 E7. injection Hw as W1 W2 W3 W4.
    split; rewrite ?E1, ?E2, ?E3, ?E4, ?E5, ?E6, ?E7, ?W1, ?W2, ?W3, ?W4; cbn in *; try lia.
    intros src e k ->. done.
  - injection Hstep as <- <- <-. balance.
  - destruct (Z.ltb_spec q (capacity c)); [destruct (Z.eqb_spec (queued_events c) q); [destruct (spurious inp)|]|];
      cbn in Hstep; injection Hstep as <- <- <-; balance.
  - destruct (Z.ltb_spec (Z.of_nat (length (channel c))) (capacity c)); [|cbn in *; lia].
    injection Hstep as <- <- <-. destruct k; balance.
  - by destruct (Hroom src e k).
  - injection Hstep as <- <- <-. destruct k; balance.
  - injection Hstep as <- <- <-. balance.
  - injection Hstep as <- <- <-. balance.
  - destruct (connections_locked c); [done|]. injection Hstep as <- <- <-. balance.
  - injection Hstep as <- <- <-. destruct (active_producers c =? 0); balance.
  - destruct (close_next inp os cs c) as [[t1 c1]|] eqn:Hc; [|done]. injection Hstep as <- <- <-.
    apply close_next_journal in Hc as (Hj & Hw & _). injection Hj as E1 E2 E3 E4 E5 E6 E7. injection Hw as W1 W2 W3 W4.
    split; rewrite ?E1, ?E2, ?E3, ?E4, ?E5, ?E6, ?E7, ?W1, ?W2, ?W3, ?W4; cbn in *; try lia.
    intros src e k ->. done.
  - destruct (journal_locked c) eqn:Hl; [done|]. injection Hstep as <- <- <-.
    pose proof (Permutation_length (filter_split (matches_request req) (retained c))) as Hl2. rewrite length_app in Hl2. balance. by rewrite Hl.
  - specialize (Hlock eq_refl). unfold drain_next in Hstep. destruct (channel c) as [|e rest] eqn:Hch;
      [|destruct (matches_request req e)]; injection Hstep as <- <- <-; balance; rewrite ?Hch, ?Hlock; cbn; lia.
  - injection Hstep as <- <- <-. balance.
  - injection Hstep as <- <- <-. destruct req; balance.
Qed.

#[local] Arguments refused : simpl never.
#[local] Arguments accepted : simpl never.
#[local] Arguments drained : simpl never.
#[local] Arguments reported_drops : simpl never.

Lemma refused_app l l' : refused (l ++ l') = refused l ++ refused l'.
Proof. apply omap_app. Qed.

Lemma small_step s s' : system_step s s' -> small s' -> small s.
Proof.
  unfold small. destruct 1 as [t Ht|origin n|i inp t t' c l Hi Hs|j x Hj Hx]; cbn; intros [H1 H2].
  all: rewrite ?length_app in H1; rewrite ?length_insert in H1; rewrite ?refused_app in H2; rewrite ?length_app in H2; split; cbn in *; lia.
Qed.

Lemma weights_nonneg t : 0 <= holds_slot t /\ 0 <= counted t /\ 0 <= draining t /\ 0 <= producing t <= 1.
Proof. destruct t as [| | | | |? ? []|? ? ? []|? ? []|? ? []|? ? []| | | | | | | | | | |]; cbn; lia. Qed.

Lemma starting_weights t : starting t = true -> weights t = (0, 0, 0, 0) /\ matching_of t = [].
Proof. by destruct t. Qed.

(** The tasks beside [t] are fewer than all. *)
Lemma producing_others ts i t :
  ts !! i = Some t -> sum_over producing ts - producing t <= Z.of_nat (length ts) - 1.
Proof.
  revert i; induction ts as [|x ts IH]; intros [|i] Hi; try done; cbn [sum_over length].
  - injection Hi as ->. clear IH. enough (sum_over producing ts <= Z.of_nat (length ts)) by lia.
    induction ts as [|y ts IH]; cbn [sum_over length]; [lia|]. pose proof (weights_nonneg y). lia.
  - specialize (IH i Hi). pose proof (weights_nonneg x). lia.
Qed.

Lemma journal_ok_call cap s t :
  starting t = true -> journal_ok cap s -> journal_ok cap (s <| tasks ::= fun ts => ts ++ [t] |>).
Proof.
  intros Ht []. destruct (starting_weights t Ht) as [Hw _]. injection Hw as W1 W2 W3 W4.
  split; cbn; rewrite ?sum_over_app; cbn; rewrite ?W1, ?W2, ?W3, ?W4; try lia.
  intros src e k [Hin|Hin]%elem_of_app; [by apply ok_room0 in Hin|]. apply list_elem_of_singleton in Hin as <-. done.
Qed.

Lemma journal_ok_task cap s i inp t t' c l :
  cap <= USIZE_MAX -> journal_ok cap s -> small (s <| log ::= fun l0 => l0 ++ l |>) -> tasks s !! i = Some t ->
  task_step inp t (client s) = Some (t', c, l) ->
  journal_ok cap (s <| client := c |> <| tasks ::= <[i := t']> |> <| log ::= fun l0 => l0 ++ l |>).
Proof.
  intros Hcap [] [Hst Hsl] Hi Hstep. cbn in Hst, Hsl. rewrite refused_app, length_app in Hsl.
  pose proof (sum_over_member holds_slot (tasks s) i t ltac:(intros x; apply weights_nonneg) Hi).
  pose proof (sum_over_member counted (tasks s) i t ltac:(intros x; apply weights_nonneg) Hi).
  pose proof (sum_over_member draining (tasks s) i t ltac:(intros x; apply weights_nonneg) Hi).
  pose proof (sum_over_member producing (tasks s) i t ltac:(intros x; apply weights_nonneg) Hi).
  pose proof (producing_others _ _ _ Hi). pose proof (weights_nonneg t) as (? & ? & ? & ?).
  assert (Hbal : step_balanced t (client s) t' c l).
  { eapply task_step_balanced; [exact Hstep|lia|lia|lia|lia| |].
    - intros Hd. destruct (journal_locked (client s)); [done|lia].
    - intros src e k ->. apply (ok_room0 src e k). by eapply list_elem_of_lookup_2. }
  destruct Hbal.
  split; cbn; rewrite ?(sum_over_insert _ _ _ t t' Hi), ?refused_app, ?length_app; try lia.
  - intros src e k Hin. apply list_elem_of_lookup in Hin as [j Hj].
    apply list_lookup_insert_Some in Hj as [(_ & Heq & _)|[_ Hj]]; [by apply (bal_room0 src e k)|].
    apply (ok_room0 src e k). by eapply list_elem_of_lookup_2.
  - unfold reported_drops in *. rewrite sum_over_app. lia.
  - unfold reported_drops in *. rewrite sum_over_app. lia.
Qed.

Lemma journal_ok_step cap s s' :
  cap <= USIZE_MAX -> system_step s s' -> small s' -> journal_ok cap s -> journal_ok cap s'.
Proof.
  intros Hcap Hstep Hsmall Hok. destruct Hstep as [t Ht|origin n|i inp t t' c l Hi Hs|j x Hj Hx].
  - by apply journal_ok_call.
  - by destruct Hok.
  - eapply journal_ok_task; try done. destruct Hsmall as [H1 H2]. cbn in H1, H2. rewrite length_insert in H1. by split.
  - by destruct Hok.
Qed.

(** *** Conservation and order *)

Definition log_events (l : list Log) : list TelemetryEventRecord * list TelemetryEventRecord := (accepted l, drained l).

(** The journal from the point of view of a task: what it took, and what it may still take. *)
Definition pending (t : Task) (c : ClientTelemetry) : list TelemetryEventRecord :=
  match t with Draining _ m => m ++ channel c | _ => matching_of t end.

Definition matching_ok (t : Task) : Prop :=
  match t with
  | Draining req m | DrainCounting req m | DrainReporting req m => Forall (fun e => matches_request req e = true) m
  | _ => True
  end.

Record moved (t : Task) (c : ClientTelemetry) (t' : Task) (c' : ClientTelemetry) (l : list Log) : Prop := {
  mv_all : matching_of t ++ (retained c ++ channel c) ++ accepted l ≡ₚ drained l ++ matching_of t' ++ retained c' ++ channel c';
  mv_order : forall all, retained c ++ channel c `sublist_of` all -> retained c' ++ channel c' `sublist_of` all ++ accepted l;
  mv_pending : forall all, pending t c `sublist_of` all -> retained c ++ channel c `sublist_of` all ->
    pending t' c' `sublist_of` all ++ accepted l;
  mv_others : forall all m, m ++ channel c `sublist_of` all -> m ++ channel c' `sublist_of` all ++ accepted l;
  mv_batch : forall req b, Drained req b ∈ l -> batch_events b = matching_of t /\
    (matching_ok t -> Forall (fun e => matches_request req e = true) (batch_events b));
  mv_matching : matching_ok t -> matching_ok t';
}.

(** A step that leaves the events where they are. *)
Lemma moved_quiet t c t' c' l :
  channel c' = channel c -> retained c' = retained c -> matching_of t' = matching_of t ->
  pending t' c' = pending t c \/ pending t' c' = matching_of t ->
  accepted l = [] -> (forall req b, Drained req b ∉ l) -> drained l = [] -> (matching_ok t -> matching_ok t') ->
  moved t c t' c' l.
Proof.
  intros E1 E2 E3 E4 E5 E6 E7 E8. split; rewrite ?E1, ?E2, ?E3, ?E5, ?E7, ?app_nil_r; try done.
  - intros all. by rewrite app_nil_r.
  - intros all Hp _. rewrite app_nil_r. destruct E4 as [->|E4]; [done|]. rewrite E4. revert Hp. unfold pending.
    destruct t; try done. intros Hp. etrans; [|exact Hp]. by apply sublist_inserts_r.
  - intros all m. by rewrite app_nil_r.
  - intros req b Hb. by apply E6 in Hb.
Qed.

Lemma matching_not_draining t c : draining t = 0 -> pending t c = matching_of t.
Proof. by destruct t. Qed.

Lemma matching_pending t c : matching_of t `sublist_of` pending t c.
Proof. destruct t; cbn; try done. by apply sublist_inserts_r. Qed.

Lemma matching_ok_nil t : matching_of t = [] -> matching_ok t.
Proof. destruct t; cbn; try done; intros ->; apply Forall_nil_2. Qed.

Lemma task_step_moved inp t c t' c' l : task_step inp t c = Some (t', c', l) -> moved t c t' c' l.
Proof.
  assert (Hnil : forall req b, Drained req b ∉ ([] : list Log)) by (intros req b; apply not_elem_of_nil).
  destruct t as [cl|cl|cl| |cl|src e k|q src e k|src e k|src e k|src e k| | | |os cs|os cs| |req|req m|req m|req m|];
    cbn [task_step]; try done.
  - intros [= <- <- <-]. apply moved_quiet; destruct (closed c); auto.
  - intros [= <- <- <-]. apply moved_quiet; auto.
  - intros [= <- <- <-]. apply moved_quiet; destruct (closed c); auto.
  - intros [= <- <- <-]. apply moved_quiet; auto.
  - destruct (claim inp cl c) as [[t1 c1]|] eqn:Hc; [|done]. intros [= <- <- <-].
    apply claim_journal in Hc as (Hj & Hw & Hm). injection Hj as E1 E2 _ _ _ _ _. injection Hw as _ _ W3 _.
    apply moved_quiet; auto; [right; by rewrite matching_not_draining|]. intros _. by apply matching_ok_nil.
  - intros [= <- <- <-]. apply moved_quiet; auto.
  - destruct (q <? capacity c); [destruct (_ && _)|]; intros [= <- <- <-]; apply moved_quiet; auto.
  - destruct (_ <? _); intros [= <- <- <-]; [|apply moved_quiet; auto].
    destruct (continue_weights k) as [Hw Hm]. injection Hw as _ _ W3 _.
    split; cbn; unfold accepted, drained; cbn; rewrite ?Hm.
    + by rewrite <- app_assoc.
    + intros all Hs. rewrite app_assoc. by apply sublist_app.
    + intros all _ _. rewrite matching_not_draining, Hm by done. apply sublist_nil_l.
    + intros all m Hs. rewrite app_assoc. by apply sublist_app.
    + by intros req b ?%list_elem_of_singleton.
    + intros _. by apply matching_ok_nil.
  - intros [= <- <- <-]. apply moved_quiet; auto.
  - intros [= <- <- <-]. destruct (continue_weights k) as [Hw Hm]. injection Hw as _ _ W3 _.
    apply moved_quiet; auto; [right; by rewrite matching_not_draining|by intros req b ?%list_elem_of_singleton|].
    intros _. by apply matching_ok_nil.
  - intros [= <- <- <-]. apply moved_quiet; auto.
  - intros [= <- <- <-]. apply moved_quiet; auto.
  - destruct (connections_locked c); [done|]. intros [= <- <- <-]. apply moved_quiet; auto.
  - intros [= <- <- <-]. apply moved_quiet; destruct (active_producers c =? 0); auto.
  - destruct (close_next inp os cs c) as [[t1 c1]|] eqn:Hc; [|done]. intros [= <- <- <-].
    apply close_next_journal in Hc as (Hj & Hw & Hm). injection Hj as E1 E2 _ _ _ _ _. injection Hw as _ _ W3 _.
    apply moved_quiet; auto; [right; by rewrite matching_not_draining|]. intros _. by apply matching_ok_nil.
  - destruct (journal_locked c); [done|]. intros [= <- <- <-].
    split; cbn; unfold accepted, drained; cbn; rewrite ?app_nil_r.
    + by rewrite app_assoc, filter_split.
    + intros all Hs. rewrite app_nil_r. etrans; [|exact Hs]. apply sublist_app; [apply sublist_filter|done].
    + intros all _ Hs. rewrite app_nil_r. etrans; [|exact Hs]. apply sublist_app; [apply sublist_filter|done].
    + intros all m. by rewrite app_nil_r.
    + by intros req' b ?%elem_of_nil.
    + intros _. apply Forall_forall. intros x. rewrite list_elem_of_filter. intros [? _]. by apply Is_true_true.
  - unfold drain_next. destruct (channel c) as [|e rest] eqn:Hch; [|destruct (matches_request req e) eqn:Hm];
      intros [= <- <- <-].
    + apply moved_quiet; cbn; auto.
    + split; cbn; unfold accepted, drained; cbn; rewrite ?Hch.
      * rewrite app_nil_r, <- !app_assoc. f_equiv. cbn. rewrite <- Permutation_middle. done.
      * intros all Hs. rewrite app_nil_r. etrans; [|exact Hs]. by apply sublist_app, sublist_cons.
      * intros all Hs _. by rewrite app_nil_r, <- app_assoc.
      * intros all m' Hs. rewrite app_nil_r. etrans; [|exact Hs]. by apply sublist_app, sublist_cons.
      * by intros req' b ?%elem_of_nil.
      * intros Hf. apply Forall_app. split; [done|]. by apply Forall_singleton.
    + split; cbn; unfold accepted, drained; cbn; rewrite ?Hch.
      * by rewrite app_nil_r, <- app_assoc.
      * intros all Hs. by rewrite app_nil_r, <- app_assoc.
      * intros all Hs _. rewrite app_nil_r. etrans; [|exact Hs]. by apply sublist_app, sublist_cons.
      * intros all m' Hs. rewrite app_nil_r. etrans; [|exact Hs]. by apply sublist_app, sublist_cons.
      * by intros req' b ?%elem_of_nil.
      * done.
  - intros [= <- <- <-]. apply moved_quiet; auto.
  - intros [= <- <- <-]. split; cbn; unfold accepted, drained; cbn; rewrite ?app_nil_r.
    + by destruct req.
    + destruct req; intros all; by rewrite app_nil_r.
    + intros all _ _. apply sublist_nil_l.
    + destruct req; intros all m'; by rewrite app_nil_r.
    + intros req' b Hb%list_elem_of_singleton. injection Hb as -> ->. done.
    + done.
Qed.

Record events_ok (s : System) : Prop := {
  ev_all : accepted (log s) ≡ₚ drained (log s) ++ mjoin (matching_of <$> tasks s) ++ retained (client s) ++ channel (client s);
  ev_order : retained (client s) ++ channel (client s) `sublist_of` accepted (log s);
  ev_pending : forall t, t ∈ tasks s -> pending t (client s) `sublist_of` accepted (log s);
  ev_matching : forall t, t ∈ tasks s -> matching_ok t;
  ev_batch : forall req b, Drained req b ∈ log s ->
    batch_events b `sublist_of` accepted (log s) /\ Forall (fun e => matches_request req e = true) (batch_events b);
}.

Lemma accepted_app l l' : accepted (l ++ l') = accepted l ++ accepted l'.
Proof. apply omap_app. Qed.

Lemma drained_app l l' : drained (l ++ l') = drained l ++ drained l'.
Proof. unfold drained. by rewrite omap_app, !list_join_bind, bind_app. Qed.

Lemma events_ok_task s i inp t t' c l :
  events_ok s -> tasks s !! i = Some t -> task_step inp t (client s) = Some (t', c, l) ->
  events_ok (s <| client := c |> <| tasks ::= <[i := t']> |> <| log ::= fun l0 => l0 ++ l |>).
Proof.
  intros [] Hi Hstep. apply task_step_moved in Hstep as [].
  assert (Ht : t ∈ tasks s) by (by eapply list_elem_of_lookup_2).
  assert (Hin : forall x, x ∈ <[i := t']> (tasks s) -> x = t' \/ x ∈ tasks s).
  { intros x Hx. apply list_elem_of_lookup in Hx as [j Hj].
    apply list_lookup_insert_Some in Hj as [(_ & <- & _)|[_ Hj]]; [by left|]. right. by eapply list_elem_of_lookup_2. }
  destruct (join_insert matching_of _ _ _ Hi) as (before & after & E1 & E2).
  split; cbn; rewrite ?accepted_app, ?drained_app.
  - rewrite ev_all0, E1, E2.
    transitivity (drained (log s) ++ before ++ after ++ matching_of t ++ (retained (client s) ++ channel (client s)) ++ accepted l);
      [solve_Permutation|]. rewrite mv_all0. solve_Permutation.
  - auto.
  - intros x Hx. destruct (Hin x Hx) as [->|Hx']; [auto|]. specialize (ev_pending0 x Hx').
    destruct x; cbn in *; try (by apply sublist_inserts_r). auto.
  - intros x Hx. destruct (Hin x Hx) as [->|Hx']; auto.
  - intros req b [Hb|Hb]%elem_of_app.
    + destruct (ev_batch0 req b Hb) as [Hs Hf]. split; [|done]. etrans; [exact Hs|]. by apply sublist_inserts_r.
    + destruct (mv_batch0 req b Hb) as [-> Hf]. split; [|auto]. apply sublist_inserts_r.
      etrans; [|exact (ev_pending0 t Ht)]. apply matching_pending.
Qed.

Lemma events_ok_step s s' : system_step s s' -> events_ok s -> events_ok s'.
Proof.
  intros Hstep Hok. destruct Hstep as [t Ht|origin n|i inp t t' c l Hi Hs|j x Hj Hx].
  - destruct Hok. destruct (starting_weights t Ht) as [Hw Hm]. injection Hw as _ _ W3 _. split; cbn; try done.
    + by rewrite fmap_app, join_app, ev_all0; cbn; rewrite Hm, !app_nil_r.
    + intros x [Hx| ->%list_elem_of_singleton]%elem_of_app; [auto|]. rewrite matching_not_draining, Hm by done. apply sublist_nil_l.
    + intros x [Hx| ->%list_elem_of_singleton]%elem_of_app; [auto|]. by apply matching_ok_nil.
  - by destruct Hok.
  - by eapply events_ok_task.
  - by destruct Hok.
Qed.

Lemma reachable_journal cap s :
  0 <= cap <= USIZE_MAX -> reachable cap s -> small s -> journal_ok cap s /\ events_ok s.
Proof.
  intros Hcap. unfold reachable. revert s. apply (rtc_ind_r (fun s => small s -> journal_ok cap s /\ events_ok s)).
  - intros _. split; split; cbn; try done; try lia; try (by intros ? ?%elem_of_nil).
    + by intros src e k ?%elem_of_nil.
    + by intros req b ?%elem_of_nil.
  - intros s s' _ Hstep IH Hsmall. destruct (IH (small_step _ _ Hstep Hsmall)) as [Hj He].
    split; [apply (journal_ok_step cap s s'); [lia|done..]|by eapply events_ok_step].
Qed.

(** C32: The journal loses, invents and reorders nothing, however producers, drains and
    the shutdown interleave.  Every event accepted was drained once, or is in a drain under
    way, kept for other requests, or in the channel; no more than [capacity] wait; each
    batch is in the order of acceptance and has only what was asked for; an event that got
    a slot always finds room in the channel; every other one is counted, and the count is
    reported once. *)
Theorem journal_exact cap s :
  0 <= cap <= USIZE_MAX -> reachable cap s -> small s ->
  accepted (log s) ≡ₚ drained (log s) ++ mjoin (matching_of <$> tasks s) ++ retained (client s) ++ channel (client s) /\
  Z.of_nat (length (retained (client s))) + Z.of_nat (length (channel (client s))) <= cap /\
  (forall req b, Drained req b ∈ log s ->
     batch_events b `sublist_of` accepted (log s) /\ Forall (fun e => matches_request req e = true) (batch_events b)) /\
  (forall src e k inp t c l, Sending src e k ∈ tasks s -> task_step inp (Sending src e k) (client s) = Some (t, c, l) ->
     l = [Accepted src e]) /\
  Z.of_nat (length (refused (log s))) = reported_drops (log s) + dropped_events (client s).
Proof.
  intros Hcap Hr Hsmall. destruct (reachable_journal cap s Hcap Hr Hsmall) as [[] []].
  pose proof (sum_over_nonneg holds_slot (tasks s) ltac:(intros x; apply weights_nonneg)).
  pose proof (sum_over_nonneg counted (tasks s) ltac:(intros x; apply weights_nonneg)).
  split_and!; try done; [lia|].
  intros src e k inp t c l Hin Hs. apply list_elem_of_lookup in Hin as [i Hi].
  pose proof (sum_over_member holds_slot (tasks s) i _ ltac:(intros x; apply weights_nonneg) Hi) as Hslot. cbn in Hslot, Hs.
  destruct (Z.ltb_spec (Z.of_nat (length (channel (client s)))) (capacity (client s))); [by injection Hs as _ _ <-|lia].
Qed.

(** ** Closing seals the journal *)

(** The events of a source that a task is about to record, and those recorded. *)
Definition in_flight (src : Source) (t : Task) : Z :=
  match t with
  | Recording s _ _ | Reserving _ s _ _ | Sending s _ _ | ReleasingSlot s _ _ | NotingDropped s _ _ =>
      if bool_decide (s = src) then 1 else 0
  | _ => 0
  end.
Definition recorded (src : Source) (l : list Log) : Z :=
  sum_over (fun x => match x with
                     | Accepted s _ | Refused s _ => if bool_decide (s = src) then 1 else 0
                     | Drained _ _ => 0
                     end) l.

(** The events a source owes: one for an open that has ended, one for a closed connection. *)
Definition owed (c : ClientTelemetry) (src : Source) : Z :=
  match src with
  | OfRequest => 0
  | OfOpen i => match opens c !! i with
                | Some o => if open_finished o && open_registered o then 1 else 0
                | None => 0
                end
  | OfConnection j => match connection_telemetry c !! j with
                      | Some x => if connection_closed x then 1 else 0
                      | None => 0
                      end
  end.

Definition continuation (t : Task) : option After :=
  match t with
  | Recording _ _ k | Reserving _ _ _ k | Sending _ _ k | ReleasingSlot _ _ k | NotingDropped _ _ k => Some k
  | _ => None
  end.

(** What a closing task still has to close. *)
Definition closing_opens (t : Task) : list nat :=
  match t with
  | AwaitingProducers os _ | ClosingRest os _ => os
  | _ => match continuation t with Some (KeepClosing os _) => os | _ => [] end
  end.
Definition closing_connections (t : Task) : list nat :=
  match t with
  | AwaitingProducers _ cs | ClosingRest _ cs => cs
  | _ => match continuation t with Some (KeepClosing _ cs) => cs | _ => [] end
  end.

(** A producer past both checks of [closed]. *)
Definition committed (t : Task) : bool :=
  match t with
  | Claiming _ | Unlocking | EndingProduction => true
  | _ => match continuation t with Some (EndProducing | UnlockConnections) => true | _ => false end
  end.

(** A closing task that has seen no producer. *)
Definition past_wait (t : Task) : bool :=
  match t with
  | ClosingRest _ _ | Sealed => true
  | _ => match continuation t with Some (KeepClosing _ _) => true | _ => false end
  end.
Definition closer (t : Task) : bool := match t with AwaitingProducers _ _ => true | _ => past_wait t end.

Definition unregistered_finished (c : ClientTelemetry) : Prop :=
  forall i o, opens c !! i = Some o -> open_registered o = false -> open_finished o = true.

(** A step keeps what is to be closed within reach of the closing tasks. *)
Record registry_step (t : Task) (c : ClientTelemetry) (t' : Task) (c' : ClientTelemetry) (l : list Log) : Prop := {
  rs_owed : unregistered_finished c -> forall src, src <> OfRequest ->
    in_flight src t' + recorded src l - in_flight src t = owed c' src - owed c src;
  rs_closed : closed c = true -> closed c' = true;
  rs_unregistered : unregistered_finished c -> unregistered_finished c';
  rs_pending : closed c' = true -> closed c = true /\ pending_opens c' = pending_opens c \/ pending_opens c' = [];
  rs_opens : forall i o, opens c' !! i = Some o -> open_finished o = false ->
    opens c !! i = Some o /\ (i ∈ pending_opens c -> i ∈ pending_opens c' \/ i ∈ closing_opens t') /\
    (i ∈ closing_opens t -> i ∈ closing_opens t');
  rs_connections : forall j x, connection_telemetry c' !! j = Some x -> connection_closed x = false ->
    (connection_telemetry c !! j = Some x /\
     (closed c = false -> j ∈ connections c -> connection_alive x = true ->
        closed c' = false /\ j ∈ connections c' \/ j ∈ closing_connections t') /\
     (j ∈ closing_connections t -> j ∈ closing_connections t')) \/
    closed c' = false /\ j ∈ connections c' /\ connection_alive x = true;
  rs_closer : closer t' = true -> closer t = true \/ closed c' = true;
  rs_past : past_wait t' = true -> past_wait t = true \/ active_producers c = 0;
  rs_committed : committed t' = true -> committed t = true \/ closed c = false;
}.

Definition registry (c : ClientTelemetry) := (opens c, connection_telemetry c, pending_opens c, connections c, closed c).

Lemma registry_quiet t c t' c' l :
  registry c' = registry c -> closing_opens t' = closing_opens t -> closing_connections t' = closing_connections t ->
  (forall src, src <> OfRequest -> in_flight src t' + recorded src l = in_flight src t) ->
  (closer t' = true -> closer t = true) -> (past_wait t' = true -> past_wait t = true \/ active_producers c = 0) ->
  (committed t' = true -> committed t = true \/ closed c = false) ->
  registry_step t c t' c' l.
Proof.
  intros Hr E1 E2 Hf H1 H2 H3. injection Hr as R1 R2 R3 R4 R5.
  split; unfold unregistered_finished, owed; rewrite ?R1, ?R2, ?R3, ?R4, ?R5, ?E1, ?E2; auto.
  - intros _ src Hsrc. rewrite (Hf src Hsrc). lia.
  - intros j x Hj Hx. left. auto.
Qed.

(** Ending an open, and closing a connection, once. *)
Lemma finish_open_owed c c' i o src :
  opens c !! i = Some o -> open_finished o = false -> unregistered_finished c ->
  opens c' = alter (fun o => o <| open_finished := true |>) i (opens c) ->
  (forall j, owed c' (OfConnection j) = owed c (OfConnection j)) ->
  owed c' src - owed c src = if bool_decide (OfOpen i = src) then 1 else 0.
Proof.
  intros Hi Hf Hu Eo Ec. destruct src as [|i'|j]; [done| |rewrite Ec, bool_decide_eq_false_2 by done; lia]. cbn. rewrite Eo.
  destruct (decide (i = i')) as [<-|Hne].
  - rewrite list_lookup_alter_eq, Hi, bool_decide_eq_true_2 by done. cbn. rewrite Hf. cbn.
    destruct (open_registered o) eqn:Hr; [done|]. by rewrite (Hu i o Hi Hr) in Hf.
  - rewrite list_lookup_alter_ne, bool_decide_eq_false_2 by congruence. lia.
Qed.

Lemma close_connection_owed c c' j x src :
  connection_telemetry c !! j = Some x -> connection_closed x = false ->
  connection_telemetry c' = alter (fun x => x <| connection_closed := true |>) j (connection_telemetry c) -> opens c' = opens c ->
  owed c' src - owed c src = if bool_decide (OfConnection j = src) then 1 else 0.
Proof.
  intros Hj Hx Ec Eo. destruct src as [|i|j']; [done|cbn; rewrite Eo, bool_decide_eq_false_2 by done; lia|]. cbn. rewrite Ec.
  destruct (decide (j = j')) as [<-|Hne].
  - by rewrite list_lookup_alter_eq, Hj, bool_decide_eq_true_2 by done; cbn; rewrite Hx.
  - rewrite list_lookup_alter_ne, bool_decide_eq_false_2 by congruence. lia.
Qed.

(** An open that is still unfinished after one was finished. *)
Lemma unfinished_alter (os : list ConnectionOpenTelemetryInner) (i k : nat) o :
  alter (fun o => o <| open_finished := true |>) i os !! k = Some o -> open_finished o = false -> os !! k = Some o /\ k <> i.
Proof.
  destruct (decide (i = k)) as [<-|Hne]; [|rewrite list_lookup_alter_ne by done; by intros].
  rewrite list_lookup_alter_eq. destruct (os !! i) as [o0|]; [|done]. by intros [= <-].
Qed.

Lemma unclosed_alter (cs : list ConnectionEventTelemetryInner) (j k : nat) x :
  alter (fun x => x <| connection_closed := true |>) j cs !! k = Some x -> connection_closed x = false ->
  cs !! k = Some x /\ k <> j.
Proof.
  destruct (decide (j = k)) as [<-|Hne]; [|rewrite list_lookup_alter_ne by done; by intros].
  rewrite list_lookup_alter_eq. destruct (cs !! j) as [x0|]; [|done]. by intros [= <-].
Qed.

Lemma unregistered_alter c c' i :
  opens c' = alter (fun o => o <| open_finished := true |>) i (opens c) -> unregistered_finished c -> unregistered_finished c'.
Proof.
  intros E Hu k o. rewrite E. destruct (decide (i = k)) as [<-|Hne]; [|rewrite list_lookup_alter_ne by done; apply Hu].
  rewrite list_lookup_alter_eq. destruct (opens c !! i) as [o0|]; [|done]. by intros [= <-].
Qed.

Lemma claim_registry inp cl c t' c' : claim inp cl c = Some (t', c') -> registry_step (Claiming cl) c t' c' [].
Proof.
  destruct cl as [e|i|i e|j]; cbn; [|unfold opened_connection|unfold finish_before_seal|unfold closed_before_seal].
  - intros [= <- <-]. apply registry_quiet; try done; auto. intros src Hsrc. cbn. by rewrite bool_decide_eq_false_2.
  - destruct (connections_locked c); [done|]. destruct (opens c !! i) as [o|] eqn:Hi; [|done]. cbn.
    destruct (closed c) eqn:Hc; [intros [= <- <-]; by apply registry_quiet; auto|].
    destruct (open_finished o) eqn:Hf; intros [= <- <-]; [by apply registry_quiet; auto|].
    split; cbn; try done; auto.
    + intros Hu src Hsrc. rewrite Z.add_0_r, Z.sub_0_r. symmetry. apply (finish_open_owed _ _ i o); try done.
      intros j. cbn. destruct (connection_telemetry c !! j) as [x|] eqn:Hj.
      * by rewrite (lookup_app_l_Some _ _ _ _ Hj).
      * destruct (_ !! j) as [x|] eqn:Hj' at 1; [|done]. rewrite lookup_app_r in Hj' by (by apply lookup_ge_None).
        by apply list_lookup_singleton_Some in Hj' as [_ <-].
    + intros Hu. by eapply unregistered_alter.
    + intros k o' Hk Hf'. apply unfinished_alter in Hk as [Hk _]; [|done]. auto.
    + intros j x Hj Hx. apply lookup_app_Some in Hj as [Hj|[Hlen Hj]].
      * left. split; [done|]. split; [|done]. intros _ Hin Ha. left. split; [done|]. apply elem_of_app. left.
        apply list_elem_of_filter. split; [|done]. unfold alive. cbn. by rewrite Hj, Ha.
      * right. apply list_lookup_singleton_Some in Hj as [Hj <-]. split; [done|]. split; [|done].
        apply elem_of_app. right. apply list_elem_of_singleton. lia.
  - destruct (opens c !! i) as [o|] eqn:Hi; [|done]. cbn.
    destruct (open_finished o) eqn:Hf; intros [= <- <-]; [by apply registry_quiet; auto|].
    split; cbn; try done; auto.
    + intros Hu src Hsrc. rewrite Z.add_0_r, Z.sub_0_r. symmetry. by apply (finish_open_owed _ _ i o).
    + intros Hu. by eapply unregistered_alter.
    + intros k o' Hk Hf'. apply unfinished_alter in Hk as [Hk _]; [|done]. auto.
    + intros j x Hj Hx. left. auto.
  - destruct (connection_telemetry c !! j) as [x|] eqn:Hj; [|done]. cbn.
    destruct (connection_closed x) eqn:Hx; intros [= <- <-]; [by apply registry_quiet; auto|].
    split; cbn; try done; auto.
    + intros Hu src Hsrc. rewrite Z.add_0_r, Z.sub_0_r. symmetry. by apply (close_connection_owed _ _ j x).
    + intros k x' Hk Hx'. apply unclosed_alter in Hk as [Hk _]; [|done]. left. auto.
Qed.

Lemma close_next_registry inp os cs c t' c' :
  close_next inp os cs c = Some (t', c') -> registry_step (ClosingRest os cs) c t' c' [].
Proof.
  destruct os as [|i os]; [destruct cs as [|j cs]|]; cbn; [|unfold closed_after_seal|unfold finish_after_seal].
  - intros [= <- <-]. by apply registry_quiet; auto.
  - destruct (connection_telemetry c !! j) as [x|] eqn:Hj; [|done]. cbn.
    destruct (connection_closed x) eqn:Hx; intros [= <- <-]; split; cbn; try done; auto.
    + intros _ src _. lia.
    + intros k x' Hk Hx'. left. split; [done|]. split; [by left|]. intros [->|?]%elem_of_cons; [congruence|done].
    + intros Hu src Hsrc. rewrite Z.add_0_r, Z.sub_0_r. symmetry. by apply (close_connection_owed _ _ j x).
    + intros k x' Hk Hx'. apply unclosed_alter in Hk as [Hk Hne]; [|done]. left. split; [done|]. split; [by left|].
      by intros [->|?]%elem_of_cons.
  - destruct (opens c !! i) as [o|] eqn:Hi; [|done]. cbn.
    destruct (open_finished o) eqn:Hf; intros [= <- <-]; split; cbn; try done; auto.
    + intros _ src _. lia.
    + intros k o' Hk Hf'. split; [done|]. split; [by left|]. intros [->|?]%elem_of_cons; [congruence|done].
    + intros j x Hj Hx. left. auto.
    + intros Hu src Hsrc. rewrite Z.add_0_r, Z.sub_0_r. symmetry. by apply (finish_open_owed _ _ i o).
    + intros Hu. by eapply unregistered_alter.
    + intros k o' Hk Hf'. apply unfinished_alter in Hk as [Hk Hne]; [|done]. split; [done|]. split; [by left|].
      by intros [->|?]%elem_of_cons.
    + intros j x Hj Hx. left. auto.
Qed.

Lemma task_step_registry inp t c t' c' l : task_step inp t c = Some (t', c', l) -> registry_step t c t' c' l.
Proof.
  assert (Hz : forall src, recorded src [] = 0) by done.
  destruct t as [cl|cl|cl| |cl|src e k|q src e k|src e k|src e k|src e k| | | |os cs|os cs| |req|req m|req m|req m|];
    cbn [task_step]; try done.
  - intros [= <- <- <-]. apply registry_quiet; destruct (closed c); auto.
  - intros [= <- <- <-]. apply registry_quiet; auto.
  - intros [= <- <- <-]. apply registry_quiet; destruct (closed c); auto.
  - intros [= <- <- <-]. apply registry_quiet; auto.
  - destruct (claim inp cl c) as [[t1 c1]|] eqn:Hc; [|done]. intros [= <- <- <-]. by eapply claim_registry.
  - intros [= <- <- <-]. apply registry_quiet; auto. intros src' _. rewrite Hz. cbn. lia.
  - destruct (q <? capacity c); [destruct (_ && _)|]; intros [= <- <- <-]; apply registry_quiet; auto;
      intros src' _; rewrite Hz; cbn; lia.
  - destruct (_ <? _); intros [= <- <- <-]; apply registry_quiet; try (by destruct k; auto);
      intros src' _; destruct k; unfold recorded; cbn; lia.
  - intros [= <- <- <-]. apply registry_quiet; auto. intros src' _. rewrite Hz. cbn. lia.
  - intros [= <- <- <-]. apply registry_quiet; try (by destruct k; auto); intros src' _; destruct k; unfold recorded; cbn; lia.
  - intros [= <- <- <-]. apply registry_quiet; auto.
  - intros [= <- <- <-]. apply registry_quiet; auto.
  - destruct (connections_locked c); [done|]. intros [= <- <- <-]. split; cbn; try done; auto.
    + intros _ src _. unfold owed. cbn. lia.
    + intros i o Hi Hf. split; [done|]. split; [by right|by intros ?%elem_of_nil].
    + intros j x Hj Hx. left. split; [done|]. split; [|by intros ?%elem_of_nil]. intros _ Hin Ha. right.
      apply list_elem_of_filter. split; [|done]. unfold alive. by rewrite Hj, Ha.
  - intros [= <- <- <-]. apply registry_quiet; destruct (Z.eqb_spec (active_producers c) 0); auto.
  - destruct (close_next inp os cs c) as [[t1 c1]|] eqn:Hc; [|done]. intros [= <- <- <-]. by eapply close_next_registry.
  - destruct (journal_locked c); [done|]. intros [= <- <- <-]. apply registry_quiet; auto.
  - unfold drain_next. destruct (channel c) as [|e rest]; [|destruct (matches_request req e)];
      intros [= <- <- <-]; apply registry_quiet; auto.
  - intros [= <- <- <-]. apply registry_quiet; auto.
  - intros [= <- <- <-]. apply registry_quiet; auto; by destruct req.
Qed.

#[local] Arguments recorded : simpl never.

Record seal_ok (s : System) : Prop := {
  so_owed : forall src, src <> OfRequest ->
    sum_over (in_flight src) (tasks s) + recorded src (log s) = owed (client s) src;
  so_unregistered : unregistered_finished (client s);
  so_pending : closed (client s) = true -> pending_opens (client s) = [];
  so_opens : forall i o, opens (client s) !! i = Some o -> open_finished o = false ->
    i ∈ pending_opens (client s) \/ exists t, t ∈ tasks s /\ i ∈ closing_opens t;
  so_connections : forall j x, connection_telemetry (client s) !! j = Some x -> connection_closed x = false ->
    closed (client s) = false /\ j ∈ connections (client s) /\ connection_alive x = true \/
    exists t, t ∈ tasks s /\ j ∈ closing_connections t;
  so_closer : forall t, t ∈ tasks s -> closer t = true -> closed (client s) = true;
  so_past : forall t t', t ∈ tasks s -> past_wait t = true -> t' ∈ tasks s -> committed t' = false;
}.

Lemma past_not_committed t : past_wait t = true -> committed t = false.
Proof. destruct t as [| | | | |? ? []|? ? ? []|? ? []|? ? []|? ? []| | | | | | | | | | |]; done. Qed.

Lemma past_closer t : past_wait t = true -> closer t = true.
Proof. destruct t as [| | | | |? ? []|? ? ? []|? ? []|? ? []|? ? []| | | | | | | | | | |]; done. Qed.

Lemma committed_producing t : committed t = true -> producing t = 1.
Proof. destruct t as [| | | | |? ? []|? ? ? []|? ? []|? ? []|? ? []| | | | | | | | | | |]; done. Qed.

Lemma starting_idle t : starting t = true ->
  (forall src, in_flight src t = 0) /\ closing_opens t = [] /\ closing_connections t = [] /\ closer t = false /\
  past_wait t = false /\ committed t = false.
Proof. by destruct t. Qed.

Lemma recorded_app src l l' : recorded src (l ++ l') = recorded src l + recorded src l'.
Proof. apply sum_over_app. Qed.

Lemma insert_cases {A} (l : list A) i (x y : A) : y ∈ <[i := x]> l -> y = x \/ y ∈ l.
Proof.
  intros Hy. apply list_elem_of_lookup in Hy as [j Hj].
  apply list_lookup_insert_Some in Hj as [(_ & <- & _)|[_ Hj]]; [by left|]. right. by eapply list_elem_of_lookup_2.
Qed.

(** A member of a list is still there after another was replaced, or was the replaced one. *)
Lemma insert_keeps {A} (l : list A) i (t t' x : A) : l !! i = Some t -> x ∈ l -> x = t /\ t' ∈ <[i := t']> l \/ x ∈ <[i := t']> l.
Proof.
  intros Hi Hx. apply list_elem_of_lookup in Hx as [j Hj]. destruct (decide (i = j)) as [<-|Hne].
  - left. split; [congruence|]. apply list_elem_of_insert. by eapply lookup_lt_Some.
  - right. apply list_elem_of_lookup. exists j. by rewrite list_lookup_insert_ne.
Qed.

Lemma seal_ok_task cap s i inp t t' c l :
  journal_ok cap s -> seal_ok s -> tasks s !! i = Some t -> task_step inp t (client s) = Some (t', c, l) ->
  seal_ok (s <| client := c |> <| tasks ::= <[i := t']> |> <| log ::= fun l0 => l0 ++ l |>).
Proof.
  intros Hj [] Hi Hstep. apply task_step_registry in Hstep as [].
  assert (Ht : t ∈ tasks s) by (by eapply list_elem_of_lookup_2).
  assert (Hidle : active_producers (client s) = 0 -> forall x, x ∈ tasks s -> committed x = false).
  { intros Ha x Hx. destruct (committed x) eqn:Hc; [|done]. apply committed_producing in Hc.
    apply list_elem_of_lookup in Hx as [j Hx].
    pose proof (sum_over_member producing (tasks s) j x ltac:(intros y; apply weights_nonneg) Hx).
    destruct Hj. lia. }
  split; cbn.
  - intros src Hsrc. rewrite (sum_over_insert _ _ _ t), recorded_app by done.
    specialize (so_owed0 src Hsrc). specialize (rs_owed0 so_unregistered0 src Hsrc). lia.
  - auto.
  - intros Hc. destruct (rs_pending0 Hc) as [[Hc0 ->]|?]; auto.
  - intros k o Hk Hf. destruct (rs_opens0 k o Hk Hf) as (Hk0 & Hp & Hcl).
    destruct (so_opens0 k o Hk0 Hf) as [Hin|(x & Hx & Hin)].
    + destruct (Hp Hin) as [?|?]; [by left|]. right. exists t'. split; [|done]. apply list_elem_of_insert. by eapply lookup_lt_Some.
    + right. destruct (insert_keeps (tasks s) i t t' x Hi Hx) as [[-> ?]|?]; eauto.
  - intros j x Hjx Hx. destruct (rs_connections0 j x Hjx Hx) as [(Hj0 & Hp & Hcl)|?]; [|by left].
    destruct (so_connections0 j x Hj0 Hx) as [(H1 & H2 & H3)|(y & Hy & Hin)].
    + destruct (Hp H1 H2 H3) as [[? ?]|?]; [by left|]. right. exists t'. split; [|done]. apply list_elem_of_insert. by eapply lookup_lt_Some.
    + right. destruct (insert_keeps (tasks s) i t t' y Hi Hy) as [[-> ?]|?]; eauto.
  - intros x Hx Hc. destruct (insert_cases _ _ _ _ Hx) as [->|Hx']; [|by eauto].
    destruct (rs_closer0 Hc); eauto.
  - intros x y Hx Hp Hy. destruct (insert_cases _ _ _ _ Hx) as [->|Hx'], (insert_cases _ _ _ _ Hy) as [->|Hy'].
    + by apply past_not_committed.
    + destruct (rs_past0 Hp); eauto.
    + destruct (committed t') eqn:Hc; [|done]. destruct (rs_committed0 eq_refl) as [Hc'|Hc'].
      * by rewrite (so_past0 x t Hx' Hp Ht) in Hc'.
      * by rewrite (so_closer0 x Hx' (past_closer x Hp)) in Hc'.
    + eauto.
Qed.

Lemma seal_ok_open s origin n : seal_ok s -> seal_ok (s <| client ::= connection_open origin n |>).
Proof.
  intros []. unfold connection_open.
  assert (Hnew : forall i o, (opens (client s) ++ [Build_ConnectionOpenTelemetryInner origin n (closed (client s)) (negb (closed (client s)))]) !! i = Some o ->
    opens (client s) !! i = Some o \/ i = length (opens (client s)) /\ open_finished o = closed (client s) /\ open_registered o = negb (closed (client s))).
  { intros i o Hi. apply lookup_app_Some in Hi as [?|[Hlen Hi]]; [by left|]. right.
    apply list_lookup_singleton_Some in Hi as [Hi <-]. split; [lia|done]. }
  split; cbn; try done.
  - intros src Hsrc. rewrite (so_owed0 src Hsrc). destruct src as [|i|j]; cbn; try done.
    destruct (opens (client s) !! i) as [o|] eqn:Hi; [by rewrite (lookup_app_l_Some _ _ _ _ Hi)|].
    destruct (_ !! i) as [o|] eqn:Hi' at 1; [|done]. destruct (Hnew i o Hi') as [?|(_ & -> & ->)]; [congruence|].
    by destruct (closed (client s)).
  - intros i o Hi Hr. destruct (Hnew i o Hi) as [Hi'|(_ & Hf & Hreg)]; [by eapply so_unregistered0|].
    rewrite Hf. rewrite Hreg in Hr. by destruct (closed (client s)).
  - intros Hc. rewrite Hc, (so_pending0 Hc). done.
  - intros i o Hi Hf. destruct (Hnew i o Hi) as [Hi'|(-> & Hf' & _)].
    + destruct (so_opens0 i o Hi' Hf) as [Hin|?]; [|by right]. left.
      assert (Hin' : i ∈ filter (fun j => negb (finished_open (client s) j)) (pending_opens (client s))).
      { apply list_elem_of_filter. split; [|done]. unfold finished_open. by rewrite Hi', Hf. }
      destruct (closed (client s)); [done|]. apply elem_of_app. by left.
    + left. rewrite Hf in Hf'. rewrite <- Hf'. apply elem_of_app. right. by apply list_elem_of_singleton.
Qed.

Lemma seal_ok_step cap s s' : journal_ok cap s -> system_step s s' -> seal_ok s -> seal_ok s'.
Proof.
  intros Hj Hstep Hok. destruct Hstep as [t Ht|origin n|i inp t t' c l Hi Hs|j x Hjx Hx].
  - destruct (starting_idle t Ht) as (Hf & Ho & Hcn & Hcl & Hp & Hcm). destruct Hok. split; cbn; try done.
    + intros src Hsrc. rewrite <- (so_owed0 src Hsrc), sum_over_app. cbn. rewrite Hf. lia.
    + intros i o Hi Ho'. destruct (so_opens0 i o Hi Ho') as [?|(y & ? & ?)]; [by left|]. right. exists y. rewrite elem_of_app. auto.
    + intros j x Hjx Hx. destruct (so_connections0 j x Hjx Hx) as [?|(y & ? & ?)]; [by left|]. right. exists y. rewrite elem_of_app. auto.
    + intros y [Hy| ->%list_elem_of_singleton]%elem_of_app; [eauto|congruence].
    + intros y z [Hy| ->%list_elem_of_singleton]%elem_of_app; [|congruence]. intros Hpy.
      intros [Hz| ->%list_elem_of_singleton]%elem_of_app; [eauto|done].
  - by apply seal_ok_open.
  - by eapply seal_ok_task.
  - destruct Hok. split; cbn; try done.
    + intros src Hsrc. rewrite (so_owed0 src Hsrc). destruct src as [|i|k]; cbn; try done.
      destruct (decide (j = k)) as [<-|Hne]; [|by rewrite list_lookup_alter_ne].
      by rewrite list_lookup_alter_eq, Hjx.
    + intros k y Hk Hy. destruct (decide (j = k)) as [<-|Hne].
      * rewrite list_lookup_alter_eq, Hjx in Hk. injection Hk as <-. cbn in Hy.
        destruct (so_connections0 j x Hjx Hy) as [(Hc & _)|?]; [|by right]. destruct Hx; congruence.
      * rewrite list_lookup_alter_ne in Hk by done. eauto.
Qed.

Lemma seal_ok_initial cap : seal_ok (initial cap).
Proof.
  split; cbn; try done.
  - by intros [|i|j].
  - by intros t ?%elem_of_nil.
  - by intros t t' ?%elem_of_nil.
Qed.

Lemma reachable_seal cap s : 0 <= cap <= USIZE_MAX -> reachable cap s -> small s -> seal_ok s.
Proof.
  intros Hcap. unfold reachable. revert s. apply (rtc_ind_r (fun s => small s -> seal_ok s)).
  - intros _. apply seal_ok_initial.
  - intros s s' Hr Hstep IH Hsmall. pose proof (small_step _ _ Hstep Hsmall) as Hs.
    eapply seal_ok_step; [exact (proj1 (reachable_journal cap s Hcap Hr Hs))|exact Hstep|auto].
Qed.

(** Nothing is left to record. *)
Record quiet (s : System) : Prop := {
  qt_closed : closed (client s) = true;
  qt_tasks : forall t, t ∈ tasks s -> committed t = false /\ continuation t = None;
  qt_opens : forall i o, opens (client s) !! i = Some o -> open_finished o = true;
  qt_connections : forall j x, connection_telemetry (client s) !! j = Some x -> connection_closed x = true;
}.

Lemma quiet_task inp t t' c c' l :
  closed c = true -> committed t = false -> continuation t = None ->
  (forall i o, opens c !! i = Some o -> open_finished o = true) ->
  (forall j x, connection_telemetry c !! j = Some x -> connection_closed x = true) ->
  task_step inp t c = Some (t', c', l) ->
  closed c' = true /\ committed t' = false /\ continuation t' = None /\ opens c' = opens c /\
  connection_telemetry c' = connection_telemetry c /\ accepted l = [] /\ refused l = [].
Proof.
  intros Hc Hcm Hk Ho Hx.
  destruct t as [cl|cl|cl| |cl|src e k|q src e k|src e k|src e k|src e k| | | |os cs|os cs| |req|req m|req m|req m|];
    cbn [task_step]; try done.
  - rewrite Hc. by intros [= <- <- <-].
  - by intros [= <- <- <-].
  - rewrite Hc. by intros [= <- <- <-].
  - by intros [= <- <- <-].
  - destruct (connections_locked c); [done|]. by intros [= <- <- <-].
  - intros [= <- <- <-]. by destruct (_ =? 0).
  - destruct (close_next inp os cs c) as [[t1 c1]|] eqn:Hn; [|done]. intros [= <- <- <-]. revert Hn.
    destruct os as [|i os]; [destruct cs as [|j cs]|]; cbn; [|unfold closed_after_seal|unfold finish_after_seal].
    + by intros [= <- <-].
    + destruct (connection_telemetry c !! j) as [x|] eqn:Hj; [|done]. cbn. rewrite (Hx j x Hj). by intros [= <- <-].
    + destruct (opens c !! i) as [o|] eqn:Hi; [|done]. cbn. rewrite (Ho i o Hi). by intros [= <- <-].
  - destruct (journal_locked c); [done|]. by intros [= <- <- <-].
  - unfold drain_next. destruct (channel c) as [|e rest]; [|destruct (matches_request req e)]; by intros [= <- <- <-].
  - by intros [= <- <- <-].
  - intros [= <- <- <-]. by destruct req.
Qed.

Lemma quiet_step s s' : system_step s s' -> quiet s ->
  quiet s' /\ accepted (log s') = accepted (log s) /\ refused (log s') = refused (log s).
Proof.
  intros Hstep []. destruct Hstep as [t Ht|origin n|i inp t t' c l Hi Hs|j x Hj Hx]; cbn.
  - split; [|done]. split; cbn; try done. intros x [Hx| ->%list_elem_of_singleton]%elem_of_app; [auto|]. by destruct t.
  - split; [|done]. split; cbn; try done. intros i o Hi. apply lookup_app_Some in Hi as [?|[_ Hi]]; [eauto|].
    apply list_lookup_singleton_Some in Hi as [_ <-]. done.
  - destruct (qt_tasks0 t ltac:(by eapply list_elem_of_lookup_2)) as [Hcm Hk].
    destruct (quiet_task _ _ _ _ _ _ qt_closed0 Hcm Hk qt_opens0 qt_connections0 Hs) as (H1 & H2 & H3 & H4 & H5 & H6 & H7).
    rewrite accepted_app, refused_app, H6, H7, !app_nil_r. split; [|done].
    split; cbn; rewrite ?H4, ?H5; try done. intros x Hx. destruct (insert_cases _ _ _ _ Hx) as [->|Hx']; auto.
  - split; [|done]. split; cbn; try done. intros k y. destruct (decide (j = k)) as [<-|Hne].
    + rewrite list_lookup_alter_eq, Hj. intros [= <-]. cbn. by eapply qt_connections0.
    + rewrite list_lookup_alter_ne by done. eauto.
Qed.

Lemma quiet_stays s s' : rtc system_step s s' -> quiet s ->
  accepted (log s') = accepted (log s) /\ refused (log s') = refused (log s).
Proof.
  induction 1 as [s|s s1 s' Hstep _ IH]; intros Hq; [done|].
  destruct (quiet_step _ _ Hstep Hq) as (Hq' & <- & <-). by apply IH.
Qed.

Lemma closed_quiet s :
  seal_ok s -> Sealed ∈ tasks s -> (forall t, t ∈ tasks s -> closer t = true -> t = Sealed) -> quiet s.
Proof.
  intros [] Hsealed Hrest. pose proof (so_closer0 Sealed Hsealed eq_refl) as Hc.
  assert (Hnone : forall t, t ∈ tasks s -> closing_opens t = [] /\ closing_connections t = [] /\ continuation t = None).
  { intros t Ht. pose proof (so_past0 Sealed t Hsealed eq_refl Ht) as Hcm. specialize (Hrest t Ht).
    destruct t as [| | | | |? ? []|? ? ? []|? ? []|? ? []|? ? []| | | | | | | | | | |]; try done; by specialize (Hrest eq_refl). }
  split; [done| | |].
  - intros t Ht. split; [by apply (so_past0 Sealed t)|]. by apply Hnone.
  - intros i o Hi. destruct (open_finished o) eqn:Hf; [done|]. destruct (so_opens0 i o Hi Hf) as [Hin|(t & Ht & Hin)].
    + rewrite (so_pending0 Hc) in Hin. by apply elem_of_nil in Hin.
    + destruct (Hnone t Ht) as (E & _). rewrite E in Hin. by apply elem_of_nil in Hin.
  - intros j x Hj. destruct (connection_closed x) eqn:Hx; [done|].
    destruct (so_connections0 j x Hj Hx) as [(Hc' & _)|(t & Ht & Hin)]; [congruence|].
    destruct (Hnone t Ht) as (_ & E & _). rewrite E in Hin. by apply elem_of_nil in Hin.
Qed.

(** C33: Once [close_connections] has returned, and no other call of it runs, the journal
    is sealed, in every interleaving with producers: each open that began before has had
    exactly one event of its end, each connection exactly one of its close, one that began
    later has none; and whatever happens then, no event is accepted or dropped any more. *)
Theorem closing_seals cap s :
  0 <= cap <= USIZE_MAX -> reachable cap s -> small s ->
  Sealed ∈ tasks s -> (forall t, t ∈ tasks s -> closer t = true -> t = Sealed) ->
  (forall i o, opens (client s) !! i = Some o -> recorded (OfOpen i) (log s) = if open_registered o then 1 else 0) /\
  (forall j x, connection_telemetry (client s) !! j = Some x -> recorded (OfConnection j) (log s) = 1) /\
  (forall s', rtc system_step s s' -> accepted (log s') = accepted (log s) /\ refused (log s') = refused (log s)).
Proof.
  intros Hcap Hr Hsmall Hsealed Hrest. pose proof (reachable_seal cap s Hcap Hr Hsmall) as Hok.
  pose proof (closed_quiet s Hok Hsealed Hrest) as Hq. pose proof Hq as []. destruct Hok.
  assert (Hidle : forall src, sum_over (in_flight src) (tasks s) = 0).
  { intros src. apply sum_over_zero. intros t Ht. destruct (qt_tasks0 t Ht) as [_ Hk]. by destruct t. }
  split_and!.
  - intros i o Hi. specialize (so_owed0 (OfOpen i) ltac:(done)). rewrite Hidle in so_owed0. cbn in so_owed0.
    rewrite Hi, (qt_opens0 i o Hi) in so_owed0. exact so_owed0.
  - intros j x Hj. specialize (so_owed0 (OfConnection j) ltac:(done)). rewrite Hidle in so_owed0. cbn in so_owed0.
    rewrite Hj, (qt_connections0 j x Hj) in so_owed0. exact so_owed0.
  - intros s' Hs'. by apply quiet_stays.
Qed.

(** ** Concrete runs *)

Inductive Move := Call (t : Task) | OpenAt (origin : option string) (n : Z) | Run (i : nat) (spurious : bool).

Definition move (m : Move) (s : System) : option System :=
  match m with
  | Call t => if starting t then Some (s <| tasks ::= fun ts => ts ++ [t] |>) else None
  | OpenAt origin n => Some (s <| client ::= connection_open origin n |>)
  | Run i spur =>
      t ← tasks s !! i;
      '(t', c, l) ← task_step {| now := 7; spurious := spur; request_error := None |} t (client s);
      Some (s <| client := c |> <| tasks ::= <[i := t']> |> <| log ::= fun l0 => l0 ++ l |>)
  end.

Fixpoint drive_journal (moves : list Move) (s : System) : option System :=
  match moves with
  | [] => Some s
  | m :: moves => s' ← move m s; drive_journal moves s'
  end.

Lemma journal_move_step m s s' : move m s = Some s' -> system_step s s'.
Proof.
  destruct m as [t|origin n|i spur]; cbn.
  - destruct (starting t) eqn:Ht; intros [= <-]. by apply step_call.
  - intros [= <-]. apply step_open.
  - destruct (tasks s !! i) as [t|] eqn:Hi; [|done]. cbn.
    destruct (task_step _ _ _) as [[[t' c] l]|] eqn:Hs; intros [= <-]. by eapply step_task.
Qed.

Lemma journal_drive_reachable cap moves s s' :
  reachable cap s -> drive_journal moves s = Some s' -> reachable cap s'.
Proof.
  revert s; induction moves as [|m moves IH]; intros s Hs; cbn [drive_journal]; [by intros [= <-]|].
  destruct (move m s) as [s1|] eqn:Hm; [|done]. apply IH. eapply rtc_r; [done|]. by eapply journal_move_step.
Qed.

Definition sample_request (id : Z) : RequestTelemetry := client_request id Buffered "GET".
Definition sample_event (id : Z) : TelemetryEventRecord :=
  request_event (sample_request id) PoolAcquireStarted "http://a" 0 None None None.

(** Two requests record and one connection opens, interleaved, with room for two events;
    one request is drained, then the client closes with an open still pending. *)
Definition sample_journal_moves : list Move :=
  [OpenAt (Some "http://a") 2; OpenAt (Some "http://b") 3;
   Call (Entering (ClaimRecord (sample_event 1))); Call (Entering (ClaimRecord (sample_event 2))); Call (Entering (ClaimOpened 0))] ++
  mjoin (replicate 5 [Run 0 false; Run 1 false; Run 2 false]) ++
  replicate 3 (Run 0 false) ++ [Run 1 false; Run 1 true; Run 1 false; Run 1 false; Run 1 false] ++ replicate 5 (Run 2 false) ++
  [Call (DrainLocking (Some 1))] ++ replicate 6 (Run 3 false) ++ [Call Sealing] ++ replicate 12 (Run 4 false).

Definition sample_sealed : System := default (initial 2) (drive_journal sample_journal_moves (initial 2)).

Lemma sample_sealed_reachable : reachable 2 sample_sealed.
Proof. apply (journal_drive_reachable 2 sample_journal_moves (initial 2)); [apply rtc_refl|]. by vm_compute. Qed.

Lemma sample_sealed_small : small sample_sealed.
Proof. split; vm_compute; discriminate. Qed.

Lemma two_is_small : 0 <= 2 <= USIZE_MAX.
Proof. unfold USIZE_MAX. lia. Qed.

Lemma journal_exact_witness :
  length (accepted (log sample_sealed)) = 3%nat /\ length (refused (log sample_sealed)) = 2%nat /\
  dropped_events (client sample_sealed) = 2.
Proof.
  split; [vm_compute; reflexivity|]. split; [vm_compute; reflexivity|].
  assert (Hr : reported_drops (log sample_sealed) = 0) by (vm_compute; reflexivity).
  assert (Hl : Z.of_nat (length (refused (log sample_sealed))) = 2) by (vm_compute; reflexivity).
  pose proof (journal_exact 2 sample_sealed two_is_small sample_sealed_reachable sample_sealed_small) as (_ & _ & _ & _ & Hd).
  rewrite Hr, Hl in Hd. symmetry. exact Hd.
Defined.

Lemma closing_seals_witness :
  recorded (OfOpen 0) (log sample_sealed) = 1 /\ recorded (OfOpen 1) (log sample_sealed) = 1 /\
  recorded (OfConnection 0) (log sample_sealed) = 1.
Proof.
  assert (Ht : tasks sample_sealed = [Ended; Ended; Ended; Ended; Sealed]) by (vm_compute; reflexivity).
  assert (Hs : Sealed ∈ tasks sample_sealed) by (rewrite Ht; repeat constructor).
  assert (Hrest : forall t, t ∈ tasks sample_sealed -> closer t = true -> t = Sealed).
  { apply (proj1 (Forall_forall (fun t => closer t = true -> t = Sealed) _)). rewrite Ht. repeat constructor; discriminate. }
  destruct (closing_seals 2 sample_sealed two_is_small sample_sealed_reachable sample_sealed_small Hs Hrest) as (Ho & Hc & _).
  split_and!.
  - exact (Ho 0%nat {| open_origin := Some "http://a"; open_started := 2; open_finished := true; open_registered := true |}
      ltac:(vm_compute; reflexivity)).
  - exact (Ho 1%nat {| open_origin := Some "http://b"; open_started := 3; open_finished := true; open_registered := true |}
      ltac:(vm_compute; reflexivity)).
  - exact (Hc 0%nat {| connection_origin := Some "http://a"; connection_closed := true; connection_alive := true |}
      ltac:(vm_compute; reflexivity)).
Defined.

(** A request that waits for a permit, uses a connection twice and is cancelled. *)
Definition sample_ops : list RequestOp :=
  [OpBeginAcquire "http://a" 0 1; OpAcquired 3; OpBeginUse "http://a" false; OpUseFinish 0; OpUseFinish 0;
   OpBeginAcquire "http://a" 1 4; OpBeginUse "http://a" true; OpCancel 6; OpUseAbort 1 OutcomeError None].

Lemma request_events_sound_witness : exists calls r es,
  request_run sample_ops (client_request 5 Buffered "GET") = (calls, r, es) /\
  event_type <$> es = [PoolAcquireStarted; PoolAcquireFinished; PoolAcquireStarted; ConnectionReused;
                       PoolAcquireFinished; ConnectionAborted] /\
  bracketed None es = Some None /\ ended_uses 0 calls = 1.
Proof.
  destruct (request_run sample_ops (client_request 5 Buffered "GET")) as [[calls r] es] eqn:Hrun.
  exists calls, r, es. split; [reflexivity|].
  pose proof (proj1 (request_events_sound 5 Buffered "GET" sample_ops calls r es Hrun)) as Hb.
  vm_compute in Hrun. injection Hrun as <- <- <-. split; [reflexivity|]. split; [exact Hb|reflexivity].
Defined.
