(* ===== verification/Connection.v ===== *)
(** * The lifecycle of a connection

    [src/src/core/client/telemetry/mod.rs]: a pooled connection is used by one request
    after another ([ConnectionTelemetry], [ConnectionUseGuard]), read and written by
    hyper's driver ([InstrumentedConnection]), and times out writes that make no progress
    ([WriteTimeoutState]).  The requests, the driver and whoever ends a use interleave; a
    step is one section under a lock or one atomic operation. *)

From S2P Require Import Prelude Numeric Sync Telemetry Tasks.
From S2P Require Metrics Upload.

Local Open Scope Z_scope.

Inductive ConnectionAbortReason := AbortClosed | AbortCancelled | AbortError (e : option TelemetryErrorType).
#[export] Instance ConnectionAbortReason_eq_dec : EqDecision ConnectionAbortReason.
Proof. solve_decision. Defined.

Definition reason_outcome (reason : ConnectionAbortReason) : TelemetryOutcome :=
  match reason with
  | AbortClosed => OutcomeClosed
  | AbortCancelled => OutcomeCancelled
  | AbortError _ => OutcomeError
  end.

Definition reason_error_type (reason : ConnectionAbortReason) : option TelemetryErrorType :=
  match reason with
  | AbortClosed => None
  | AbortCancelled => Some CancelledError
  | AbortError e => e
  end.

(** The sources of an error, each with whether it is an [SsrfViolation]. *)
Fixpoint connection_open_error_type (chain : list bool) : TelemetryErrorType :=
  match chain with
  | [] => NetworkError
  | is_ssrf :: sources => if is_ssrf : bool then SsrfError else connection_open_error_type sources
  end.

(** ** The completion of a request body *)

(** [RequestBodyCompletion] of [core/client/body.rs], with a producer or without. *)
Record BodyCompletion := {
  expected_bytes : option Z;
  body_state : Upload.CompletionState;
  body_producer : option Upload.ProducerCompletion;
}.
#[export] Instance eta_BodyCompletion : Eta BodyCompletion := fun b =>
  Build_BodyCompletion (expected_bytes b) (body_state b) (body_producer b).

Definition is_complete (b : BodyCompletion) : bool :=
  match body_producer b with
  | Some p => Upload.is_complete (expected_bytes b) (body_state b) p
  | None => Upload.body_ended (expected_bytes b) (body_state b) && negb (Upload.failed (body_state b)) &&
            (Upload.in_flight_frames (body_state b) =? 0) && Upload.transport_flushed (body_state b)
  end.

Definition is_wire_finished (b : BodyCompletion) : bool := Upload.transport_flushed (body_state b).

Definition mark_transport_flushed (b : BodyCompletion) : BodyCompletion :=
  b <| body_state ::= Upload.mark_transport_flushed (expected_bytes b) |>.

Definition mark_write_timeout (b : BodyCompletion) : BodyCompletion := b <| body_state ::= Upload.mark_write_timeout |>.

(** ** Write timeouts *)

Record RequestWriteTimeoutContext := { timeout : Z; timeout_secs : f64; context_origin : string; context_hop : Z }.

Record RequestWriteTimeout := {
  timeout_elapsed : f64;
  timeout_seconds : f64;
  timeout_origin : string;
  timeout_hop : Z;
}.

Definition timeout_error (ctx : RequestWriteTimeoutContext) (started now : Z) : RequestWriteTimeout :=
  {| timeout_elapsed := as_secs_f64 (elapsed started now); timeout_seconds := timeout_secs ctx;
     timeout_origin := context_origin ctx; timeout_hop := context_hop ctx |}.

(** Requests and completions are shared objects, by index; a waker is its identity; a
    sleep is its deadline. *)
Record ActiveRequestWriteTimeout := {
  active_use_id : Z;
  active_context : option RequestWriteTimeoutContext;
  active_request : option nat;
  active_completion : option nat;
  write_started : bool;
}.
#[export] Instance eta_ActiveRequestWriteTimeout : Eta ActiveRequestWriteTimeout := fun a =>
  Build_ActiveRequestWriteTimeout (active_use_id a) (active_context a) (active_request a) (active_completion a) (write_started a).

Record WriteTimeoutState := {
  write_active : option ActiveRequestWriteTimeout;
  pending_since : option Z;
  sleep : option Z;
  pending_waker : option nat;
}.
#[export] Instance eta_WriteTimeoutState : Eta WriteTimeoutState := fun w =>
  Build_WriteTimeoutState (write_active w) (pending_since w) (sleep w) (pending_waker w).

Definition write_timeout_default : WriteTimeoutState :=
  {| write_active := None; pending_since := None; sleep := None; pending_waker := None |}.

Definition reset_progress (w : WriteTimeoutState) : WriteTimeoutState :=
  w <| pending_since := None |> <| sleep := None |> <| pending_waker := None |>.

(** The operations return the waker they took, to be woken after the lock. *)
Definition begin_request (use_id : Z) (ctx : option RequestWriteTimeoutContext) (req completion : option nat)
    (w : WriteTimeoutState) : option nat * WriteTimeoutState :=
  (pending_waker w,
   reset_progress w <| write_active := Some {| active_use_id := use_id; active_context := ctx; active_request := req;
                                               active_completion := completion; write_started := false |} |>).

Definition finish_request (use_id : Z) (w : WriteTimeoutState) : option nat * WriteTimeoutState :=
  if match write_active w with Some a => negb (active_use_id a =? use_id) | None => true end then (None, w)
  else (pending_waker w, reset_progress (w <| write_active := None |>)).

Definition clear_request (w : WriteTimeoutState) : option nat * WriteTimeoutState :=
  (pending_waker w, reset_progress (w <| write_active := None |>)).

Definition record_write_progress (w : WriteTimeoutState) : WriteTimeoutState :=
  reset_progress (w <| write_active ::= fmap (fun a => a <| write_started := true |>) |>).

(** The active request's completion. *)
Definition active_body (w : WriteTimeoutState) (bodies : list BodyCompletion) : option (nat * BodyCompletion) :=
  a ← write_active w; k ← active_completion a; b ← bodies !! k; Some (k, b).

Definition transport_flushed (w : WriteTimeoutState) (bodies : list BodyCompletion) :
    option nat * WriteTimeoutState * list BodyCompletion :=
  match write_active w with
  | None => (None, w, bodies)
  | Some a =>
      let '(complete, bodies) :=
        match (if write_started a then active_body w bodies else None) with
        | Some (k, b) => (is_complete (mark_transport_flushed b), <[k := mark_transport_flushed b]> bodies)
        | None => (false, bodies)
        end in
      let w := if complete : bool then w <| write_active := None |> else w in
      (pending_waker w, reset_progress w, bodies)
  end.

(** [update_pending_waker], after which the waker is the one of this poll. *)
Definition update_pending_waker (waker : nat) (w : WriteTimeoutState) : WriteTimeoutState :=
  w <| pending_waker := Some waker |>.

(** Whether a write may start; the state it leaves behind. *)
Definition poll_request_ready (waker : nat) (now : Z) (bodies : list BodyCompletion) (w : WriteTimeoutState) :
    bool * WriteTimeoutState :=
  let w := match active_body w bodies with
           | Some (_, b) => if is_complete b then reset_progress (w <| write_active := None |>) else w
           | None => w
           end in
  let wait := (false, update_pending_waker waker (w <| pending_since ::= fun p => Some (default now p) |>)) in
  if match active_body w bodies with Some (_, b) => is_wire_finished b | None => false end then wait
  else if is_some (write_active w) then (true, w) else wait.

(** The error and the request of a timeout that fired. *)
Definition poll_pending (waker : nat) (now : Z) (bodies : list BodyCompletion) (w : WriteTimeoutState) :
    option (RequestWriteTimeout * option nat) * WriteTimeoutState * list BodyCompletion :=
  let since := default now (pending_since w) in
  let w := w <| pending_since := Some since |> in
  match write_active w with
  | None => (None, update_pending_waker waker w, bodies)
  | Some a =>
      match active_context a with
      | None => (None, update_pending_waker waker w, bodies)
      | Some ctx =>
          let deadline := default (now + saturating_sub (timeout ctx) (elapsed since now)) (sleep w) in
          let w := w <| sleep := Some deadline |> in
          if now <? deadline then (None, w, bodies)
          else
            let bodies := match active_body w bodies with
                          | Some (k, b) => <[k := mark_write_timeout b]> bodies
                          | None => bodies
                          end in
            (Some (timeout_error ctx since now, active_request a), reset_progress w, bodies)
      end
  end.

(** *** Write timeouts are sound *)

Inductive WriteOp :=
| WBegin (use_id : Z) (ctx : option RequestWriteTimeoutContext) (req completion : option nat)
| WFinish (use_id : Z)
| WClear
| WProgress
| WFlushed
| WReady (waker : nat)
| WPending (waker : nat).

Definition write_step (now : Z) (op : WriteOp) (w : WriteTimeoutState) (bodies : list BodyCompletion) :
    option (RequestWriteTimeout * option nat) * WriteTimeoutState * list BodyCompletion :=
  match op with
  | WBegin use_id ctx req completion => (None, snd (begin_request use_id ctx req completion w), bodies)
  | WFinish use_id => (None, snd (finish_request use_id w), bodies)
  | WClear => (None, snd (clear_request w), bodies)
  | WProgress => (None, record_write_progress w, bodies)
  | WFlushed => let '(_, w, bodies) := transport_flushed w bodies in (None, w, bodies)
  | WReady waker => (None, snd (poll_request_ready waker now bodies w), bodies)
  | WPending waker => poll_pending waker now bodies w
  end.

(** Calls at the times of a monotone clock, with uploads moving on in between. *)
Inductive write_run : Z -> list (Z * WriteOp) -> WriteTimeoutState -> Prop :=
| write_run_new t : write_run t [] write_timeout_default
| write_run_step t t' hist w op bodies r w' bodies' :
    write_run t hist w -> t <= t' -> write_step t' op w bodies = (r, w', bodies') ->
    write_run t' (hist ++ [(t', op)]) w'.

(** Bytes moved, or a request began. *)
Definition progress (op : WriteOp) : bool := match op with WBegin _ _ _ _ | WProgress => true | _ => false end.

(** The request that began last. *)
Definition last_begun (hist : list (Z * WriteOp)) : option (option RequestWriteTimeoutContext * option nat) :=
  last (omap (fun x => match snd x with WBegin _ ctx req _ => Some (ctx, req) | _ => None end) hist).

Record write_ok (t : Z) (hist : list (Z * WriteOp)) (w : WriteTimeoutState) : Prop := {
  wo_since : forall p, pending_since w = Some p -> p <= t /\ forall t0 op, (t0, op) ∈ hist -> progress op = true -> t0 <= p;
  wo_sleep : forall d, sleep w = Some d -> exists p a ctx, pending_since w = Some p /\ write_active w = Some a /\
    active_context a = Some ctx /\ p + timeout ctx <= d;
  wo_active : forall a, write_active w = Some a -> last_begun hist = Some (active_context a, active_request a);
  wo_times : forall t0 op, (t0, op) ∈ hist -> t0 <= t;
}.

Lemma last_begun_other hist t op :
  match op with WBegin _ _ _ _ => False | _ => True end -> last_begun (hist ++ [(t, op)]) = last_begun hist.
Proof. unfold last_begun. rewrite omap_app. destruct op; cbn; try done; by rewrite app_nil_r. Qed.

Lemma times_snoc t t' hist (op : WriteOp) :
  (forall t0 op0, (t0, op0) ∈ hist -> t0 <= t) -> t <= t' -> forall t0 op0, (t0, op0) ∈ hist ++ [(t', op)] -> t0 <= t'.
Proof.
  intros Hh Ht t0 op0 [Hin|Hin%list_elem_of_singleton]%elem_of_app; [specialize (Hh _ _ Hin); lia|]. injection Hin as -> _. lia.
Qed.

(** A step that forgets the waiting, or starts it anew: the active request stays, ends or
    begins. *)
Lemma write_ok_reset t t' hist w op w' :
  write_ok t hist w -> t <= t' ->
  (forall a, write_active w' = Some a -> last_begun (hist ++ [(t', op)]) = Some (active_context a, active_request a)) ->
  sleep w' = None -> pending_since w' = None \/ pending_since w' = Some t' ->
  write_ok t' (hist ++ [(t', op)]) w'.
Proof.
  intros [] Ht Ha Hs Hp. pose proof (times_snoc t t' hist op wo_times0 Ht) as Hall. split; try done.
  - intros p Ep. destruct Hp as [Hp|Hp]; rewrite Hp in Ep; [done|]. injection Ep as <-. split; [done|]. by intros t0 op0 Hin _; eapply Hall.
  - intros d. by rewrite Hs.
Qed.

(** A step that leaves the state as it is, or only starts to wait. *)
Lemma write_ok_wait t t' hist w op w' :
  write_ok t hist w -> t <= t' -> progress op = false ->
  write_active w' = write_active w -> sleep w' = sleep w ->
  pending_since w' = pending_since w \/ pending_since w' = Some (default t' (pending_since w)) ->
  write_ok t' (hist ++ [(t', op)]) w'.
Proof.
  intros [] Ht Hp Ea Es Esince.
  assert (Hsince : forall p, pending_since w' = Some p -> pending_since w = Some p \/ p = t' /\ pending_since w = None).
  { intros p Hp'. destruct Esince as [E|E]; rewrite E in Hp'; [by left|]. destruct (pending_since w); cbn in Hp'; injection Hp' as <-; auto. }
  split.
  - intros p Hp'. destruct (Hsince p Hp') as [Hp0|[-> _]].
    + destruct (wo_since0 p Hp0) as [? Hb]. split; [lia|].
      intros t0 op0 [Hin|Hin%list_elem_of_singleton]%elem_of_app; [by apply Hb|]. injection Hin as -> ->. congruence.
    + split; [lia|]. intros t0 op0 [Hin|Hin%list_elem_of_singleton]%elem_of_app; [|by injection Hin as -> ->; congruence].
      intros _. specialize (wo_times0 _ _ Hin). lia.
  - intros d. rewrite Es, Ea. intros Hd. destruct (wo_sleep0 d Hd) as (p & a & ctx & Hpp & ?). exists p, a, ctx. split; [|done].
    destruct Esince as [->| ->]; [done|]. by rewrite Hpp.
  - intros a. rewrite Ea, last_begun_other by (by destruct op). apply wo_active0.
  - by eapply times_snoc.
Qed.

(** What a timeout says of the history before it. *)
Definition timely (hist : list (Z * WriteOp)) (t : Z) (e : RequestWriteTimeout) (req : option nat) : Prop :=
  exists ctx since, last_begun hist = Some (Some ctx, req) /\ e = timeout_error ctx since t /\ since + timeout ctx <= t /\
    forall t0 op, (t0, op) ∈ hist -> progress op = true -> t0 <= since.

Lemma poll_pending_ok t t' hist w waker bodies r w' bodies' :
  write_ok t hist w -> t <= t' -> poll_pending waker t' bodies w = (r, w', bodies') ->
  write_ok t' (hist ++ [(t', WPending waker)]) w' /\ (forall e req, r = Some (e, req) -> timely hist t' e req).
Proof.
  intros Hok Ht. pose proof Hok as []. unfold poll_pending. set (since := default t' (pending_since w)).
  assert (Hsince : since <= t' /\ forall t0 op, (t0, op) ∈ hist -> progress op = true -> t0 <= since).
  { unfold since. destruct (pending_since w) as [p|] eqn:Hp; cbn; [destruct (wo_since0 p eq_refl); split; [lia|done]|].
    split; [lia|]. intros t0 op Hin _. specialize (wo_times0 _ _ Hin). lia. }
  assert (Hquiet : forall w1, write_active w1 = write_active w -> sleep w1 = sleep w -> pending_since w1 = Some since ->
    write_ok t' (hist ++ [(t', WPending waker)]) w1 /\
    (forall e req, @None (RequestWriteTimeout * option nat) = Some (e, req) -> timely hist t' e req)).
  { intros w1 E1 E2 E3. split; [|done]. eapply write_ok_wait; try done. by right. }
  cbn. destruct (write_active w) as [a|] eqn:Ha; [|intros [= <- <- <-]; by apply Hquiet].
  destruct (active_context a) as [ctx|] eqn:Hctx; [|intros [= <- <- <-]; by apply Hquiet].
  assert (Hdeadline : since + timeout ctx <= default (t' + saturating_sub (timeout ctx) (elapsed since t')) (sleep w)).
  { destruct (sleep w) as [d|] eqn:Hd; cbn.
    - destruct (wo_sleep0 d eq_refl) as (p & a' & ctx' & Hp & Ha' & Hc' & Hle). unfold since. rewrite Hp. cbn. congruence.
    - unfold saturating_sub, elapsed. lia. }
  destruct (Z.ltb_spec t' (default (t' + saturating_sub (timeout ctx) (elapsed since t')) (sleep w))).
  - intros [= <- <- <-]. split; [|done]. split; cbn.
    + intros p [= <-]. split; [lia|]. intros t0 op [Hin|Hin%list_elem_of_singleton]%elem_of_app Hp; [by eapply Hsince|].
      by injection Hin as -> ->.
    + intros d [= <-]. exists since, a, ctx. done.
    + intros a'. rewrite Ha, last_begun_other by done. intros [= <-]. by apply wo_active0.
    + by eapply times_snoc.
  - intros [= <- <- <-]. split.
    + unfold reset_progress. cbn. apply write_ok_reset with t w; cbn; auto. intros a'. rewrite Ha, last_begun_other by done. auto.
    + intros e req [= <- <-]. exists ctx, since. split_and!; [|done|lia|apply Hsince]. rewrite <- Hctx. by apply wo_active0.
Qed.

Lemma write_step_ok t t' hist w op bodies r w' bodies' :
  write_ok t hist w -> t <= t' -> write_step t' op w bodies = (r, w', bodies') ->
  write_ok t' (hist ++ [(t', op)]) w' /\ (forall e req, r = Some (e, req) -> timely hist t' e req).
Proof.
  intros Hok Ht. pose proof Hok as [_ _ Hactive _].
  assert (Hsame : forall a op, match op with WBegin _ _ _ _ => False | _ => True end -> write_active w = Some a ->
    last_begun (hist ++ [(t', op)]) = Some (active_context a, active_request a)).
  { intros a op' Hop Ha. rewrite last_begun_other by done. by apply Hactive. }
  destruct op as [use_id ctx req completion|use_id| | | |waker|waker]; cbn [write_step].
  - intros [= <- <- <-]. split; [|done]. apply write_ok_reset with t w; cbn; auto. intros a [= <-]. unfold last_begun.
    rewrite omap_app. cbn. by rewrite last_snoc.
  - unfold finish_request. destruct (match write_active w with Some a => _ | None => _ end); intros [= <- <- <-]; (split; [|done]).
    + apply write_ok_wait with t w; cbn; auto.
    + apply write_ok_reset with t w; cbn; auto. done.
  - intros [= <- <- <-]. split; [|done]. apply write_ok_reset with t w; cbn; auto. done.
  - intros [= <- <- <-]. split; [|done]. apply write_ok_reset with t w; cbn; auto.
    intros a. destruct (write_active w) as [a0|] eqn:Ha; [|done]. intros [= <-]. cbn. by apply Hsame.
  - unfold transport_flushed. destruct (write_active w) as [a|] eqn:Ha.
    2:{ intros [= <- <- <-]. split; [|done]. apply write_ok_wait with t w; cbn; auto. }
    destruct (match (if write_started a then active_body w bodies else None) with Some _ => _ | None => _ end) as [complete bodies1].
    intros [= <- <- <-]. split; [|done]. destruct complete; apply write_ok_reset with t w; cbn; auto; try done.
    intros a'. rewrite Ha. intros [= <-]. by apply Hsame.
  - intros [= <- <- <-]. split; [|done]. unfold poll_request_ready.
    destruct (active_body w bodies) as [[k b]|] eqn:Hb; [destruct (is_complete b)|]; cbn.
    + apply write_ok_reset with t w; cbn; auto. done.
    + match goal with |- context [if ?B then _ else _] => destruct B end; [apply write_ok_wait with t w; cbn; auto|].
      destruct (write_active w); apply write_ok_wait with t w; cbn; auto.
    + rewrite Hb. destruct (write_active w) eqn:Ha; apply write_ok_wait with t w; cbn; auto.
  - by apply poll_pending_ok with t.
Qed.

Lemma write_run_ok t hist w : write_run t hist w -> write_ok t hist w.
Proof.
  induction 1 as [t|t t' hist w op bodies r w' bodies' _ IH Ht Hs]; [split; cbn; try done; by intros t0 op ?%elem_of_nil|].
  exact (proj1 (write_step_ok _ _ _ _ _ _ _ _ _ IH Ht Hs)).
Qed.

(** C26: A write times out only for the request that is writing, and only after as long
    without progress as that request allows: whatever was called before, the error is for
    the request that began last, names its context and the time waited, and since neither
    a byte was written nor a request begun for at least its timeout. *)
Theorem write_timeout_sound t hist w t' waker bodies e req w' bodies' :
  write_run t hist w -> t <= t' -> poll_pending waker t' bodies w = (Some (e, req), w', bodies') ->
  exists ctx since, last_begun hist = Some (Some ctx, req) /\ e = timeout_error ctx since t' /\ since + timeout ctx <= t' /\
    (forall t0 op, (t0, op) ∈ hist -> progress op = true -> t0 + timeout ctx <= t').
Proof.
  intros Hrun Ht Hp. pose proof (write_run_ok _ _ _ Hrun) as Hok.
  destruct (proj2 (poll_pending_ok _ _ _ _ _ _ _ _ _ Hok Ht Hp) e req eq_refl) as (ctx & since & H1 & H2 & H3 & H4).
  exists ctx, since. split_and!; try done. intros t0 op Hin Hprog. specialize (H4 t0 op Hin Hprog). lia.
Qed.

(** ** A connection and its uses *)

(** [ConnectionUseGuard]; the token is the request's [RequestConnectionUseTelemetry]. *)
Record ConnectionUseGuard := {
  use_id : Z;
  guard_request : option nat;
  guard_token : option nat;
  guard_completion : option nat;
}.

(** How a guard ends: [finish], [abort], [superseded], or dropped. *)
Inductive UseCall :=
| CallFinish (outcome : Metrics.ResponseBodyLifecycleOutcome)
| CallAbort (reason : ConnectionAbortReason)
| CallSuperseded
| CallDrop.

Inductive IoOp := IoRead | IoWrite | IoFlush | IoShutdown.

(** What the inner transport answers. *)
Inductive IoPoll := IoReady (n : Z) | IoFailed | IoPending.

Inductive IoResult := ResultOk | ResultError | ResultAborted | ResultTimedOut | ResultPending.

(** What a task still has to do; every action is one atomic step. *)
Inductive Action :=
(** [request_started_with_body_completion] *)
| StartUse (req : option nat) (ctx : option RequestWriteTimeoutContext) (completion : option nat)
| ReportReused (id : Z) (req : option nat) (ctx : option RequestWriteTimeoutContext) (completion : option nat)
| BeginUse (id : Z) (req : option nat) (ctx : option RequestWriteTimeoutContext) (completion : option nat)
| BeginWriteTimeout (g : ConnectionUseGuard) (ctx : option RequestWriteTimeoutContext)
| WakeWriter (waker : option nat)
| InUse (g : ConnectionUseGuard)
(** the end of a use *)
| CheckUpload (g : ConnectionUseGuard) (call : UseCall)
| WriteFinished (id : Z)
| ResponseFinished (g : ConnectionUseGuard) (outcome : Metrics.ResponseBodyLifecycleOutcome)
| CancelledAbort (g : ConnectionUseGuard) (check : option Z)
| EnterIdle (id : Z)
(** [abort_connection_use] for a use, [abort_current_connection_use] *)
| AbortUse (check : option Z) (req token : option nat) (reason : ConnectionAbortReason)
| AbortTakeWaker (req token : option nat) (reason : ConnectionAbortReason)
| AbortReport (req token : option nat) (reason : ConnectionAbortReason)
| AbortUnclaimed (req : nat) (reason : ConnectionAbortReason)
| AbortRecord (req : nat) (reason : ConnectionAbortReason)
| ReportEnd (req token : option nat) (reason : ConnectionAbortReason)
| Wake (w : nat)
| UnlockIdle
(** [InstrumentedConnection] *)
| PrepareIo (op : IoOp) (w : nat)
| WriteReady (w : nat)
| InnerIo (op : IoOp) (w : nat)
| RecordProgress
| MarkFlushed
| PendingTimeout (w : nat)
| ClearWriteTimeout
| EndIo (r : IoResult)
| CloseSwap
| CloseTakeWaker
| CloseIdle.

Abbreviation Task := (list Action).

(** Whether the driver is in a poll, or has dropped the connection. *)
Inductive Driver := DriverIdle | DriverBusy | DriverDropped.

(** [ConnectionTelemetryInner], with the requests and bodies it refers to.  [registered] is
    the driver's waker since its last registration, until it is woken. *)
Record Connection := {
  observed_uses : Z;
  idle_since : option Z;
  idle_locked : bool;
  idle_timeout : Z;
  connection_closed : bool;
  connection_aborted : bool;
  io_waker : option nat;
  write_timeout : WriteTimeoutState;
  native_telemetry : bool;
  connection_origin : option string;
  requests : list RequestTelemetry;
  bodies : list BodyCompletion;
  driver : Driver;
  registered : option nat;
}.
#[export] Instance eta_Connection : Eta Connection := fun c =>
  Build_Connection (observed_uses c) (idle_since c) (idle_locked c) (idle_timeout c) (connection_closed c)
    (connection_aborted c) (io_waker c) (write_timeout c) (native_telemetry c) (connection_origin c) (requests c)
    (bodies c) (driver c) (registered c).

(** Calls of [Metrics] and [OriginMetrics], the request's events, wakes, and the history. *)
Inductive Log :=
| MetricOpened | MetricReused | MetricIdle | MetricLeftIdle | MetricAborted | MetricClosed | MetricEviction
| NativeClosed
| RequestEvents (es : list TelemetryEventRecord)
| Woken (w : nat)
| IoReturned (r : IoResult)
| UseStarted (id : Z)
| UseEnded (id : Z) (call : UseCall) (complete : bool).

Record StepInput := { now : Z; inner : IoPoll; call : UseCall }.

(** [new_with_native_telemetry]. *)
Definition connection_new (timeout_of_idle : Z) (native : bool) (origin : option string) (rs : list RequestTelemetry)
    (bs : list BodyCompletion) : Connection * list Log :=
  ({| observed_uses := 0; idle_since := None; idle_locked := false; idle_timeout := timeout_of_idle;
      connection_closed := false; connection_aborted := false; io_waker := None; write_timeout := write_timeout_default;
      native_telemetry := native; connection_origin := origin; requests := rs; bodies := bs; driver := DriverIdle;
      registered := None |}, [MetricOpened]).

Inductive ConnectorEvent := OpenEventFailed (e : TelemetryErrorType) | OpenEventOpened | OpenFailureCounted.

(** [InstrumentedConnector::call], given whether the gate lets it through and what the inner
    connector answers: what it reports of the open, if the client records it, and the
    connection; [opened] is whether the client keeps a record for the connection. *)
Definition connector_call (timeout_of_idle : Z) (native opened permit : bool) (answer : result unit (list bool))
    (origin : option string) : list ConnectorEvent * option (Connection * list Log) :=
  let report e := if native then [e] else [] in
  if negb permit then (report (OpenEventFailed PoolTimeout), None)
  else
    match answer with
    | Ok _ => (report OpenEventOpened, Some (connection_new timeout_of_idle (native && opened) origin [] []))
    | Err chain => (report (OpenEventFailed (connection_open_error_type chain)) ++ [OpenFailureCounted], None)
    end.

Definition is_current_use (id : Z) (c : Connection) : bool := observed_uses c =? wrapping_add id 1.

(** [leave_idle_locked]; how long the connection was idle. *)
Definition leave_idle_locked (at_ : Z) (c : Connection) : option Z * Connection * list Log :=
  match idle_since c with
  | Some since => (Some (elapsed since at_), c <| idle_since := None |>, [MetricLeftIdle])
  | None => (None, c, [])
  end.

Definition enter_idle (id at_ : Z) (c : Connection) : Connection * list Log :=
  if connection_closed c || connection_aborted c || negb (is_current_use id c) then (c, [])
  else if is_some (idle_since c) then (c, [])
  else (c <| idle_since := Some at_ |>, [MetricIdle]).

(** A call of a request's telemetry. *)
Definition call_request (r : nat) (op : RequestOp) (c : Connection) : bool * Connection * list Log :=
  match requests c !! r with
  | Some rt =>
      let '(ok, rt, es) := request_step op rt in
      (ok, c <| requests ::= <[r := rt]> |>, [RequestEvents es])
  | None => (false, c, [])
  end.

(** How the request learns of an aborted use. *)
Definition end_op (token : option nat) (reason : ConnectionAbortReason) : RequestOp :=
  match token with
  | Some t => OpUseAbort t (reason_outcome reason) (reason_error_type reason)
  | None => OpAbortUse (reason_outcome reason) (reason_error_type reason)
  end.

Definition upload_complete (g : ConnectionUseGuard) (c : Connection) : bool :=
  match k ← guard_completion g; bodies c !! k with Some b => is_complete b | None => true end.

(** [finish], [abort], [superseded] and [drop] of a guard whose upload is complete or not. *)
Definition end_use (g : ConnectionUseGuard) (cl : UseCall) (complete : bool) : list Action :=
  let incomplete reason := [AbortUse None (guard_request g) (guard_token g) reason] in
  match cl with
  | CallFinish outcome =>
      if complete then [WriteFinished (use_id g); ResponseFinished g outcome]
      else incomplete AbortClosed ++ [WriteFinished (use_id g)]
  | CallAbort reason =>
      (if complete then [AbortUse (Some (use_id g)) (guard_request g) (guard_token g) reason] else incomplete reason) ++
      [WriteFinished (use_id g)]
  | CallSuperseded => [WriteFinished (use_id g); ResponseFinished g Metrics.Closed]
  | CallDrop => [CancelledAbort g (if complete then Some (use_id g) else None); WriteFinished (use_id g)]
  end.

(** [response_finished], given whether the request took the end of its use. *)
Definition after_response (g : ConnectionUseGuard) (outcome : Metrics.ResponseBodyLifecycleOutcome) (taken : bool) : list Action :=
  match outcome with
  | Metrics.Aborted => [CancelledAbort g (Some (use_id g))]
  | _ => if taken then match outcome with Metrics.ReuseEligible => [EnterIdle (use_id g)] | _ => [] end
         else [CancelledAbort g (Some (use_id g))]
  end.

(** [begin_request_write_timeout]. *)
Definition begin_write_timeout (g : ConnectionUseGuard) (ctx : option RequestWriteTimeoutContext) (c : Connection) :
    list Action * Connection :=
  if connection_closed c || connection_aborted c then ([], c)
  else
    let w := write_timeout c in
    if match active_body w (bodies c) with Some (_, b) => negb (is_complete b) | None => false end then
      ([AbortUse None (a ← write_active w; active_request a) None AbortClosed], c)
    else
      let (waker, w) := begin_request (use_id g) ctx (guard_request g) (guard_completion g) w in
      ([WakeWriter waker], c <| write_timeout := w |>).

Definition wake_of (waker : option nat) : list Action := match waker with Some w => [Wake w] | None => [] end.

(** The section of [abort_connection_use] and [abort_current_connection_use], up to the
    locks it takes inside. *)
Definition abort_section (at_ : Z) (check : option Z) (req token : option nat) (reason : ConnectionAbortReason)
    (c : Connection) : list Action * Connection * list Log :=
  if match check with Some id => negb (is_current_use id c) | None => false end then ([ReportEnd req token reason], c, [])
  else
    let c := c <| idle_locked := true |> in
    if connection_aborted c then ([ReportEnd req token reason; UnlockIdle], c, [])
    else
      let '(_, c, l) := leave_idle_locked at_ (c <| connection_aborted := true |>) in
      ([AbortTakeWaker req token reason], c, l).

(** [connection_closed], its last section. *)
Definition close_idle (at_ : Z) (c : Connection) : Connection * list Log :=
  let '(idle_for, c, l) := leave_idle_locked at_ c in
  (c, l ++ [MetricClosed] ++ (if native_telemetry c then [NativeClosed] else []) ++
      match idle_for with Some d => if idle_timeout c <=? d then [MetricEviction] else [] | None => [] end).

(** What a poll of the inner transport leads to. *)
Definition after_inner (op : IoOp) (w : nat) (p : IoPoll) : list Action :=
  match p, op with
  | IoReady n, IoWrite => (if 0 <? n then [RecordProgress] else []) ++ [EndIo ResultOk]
  | IoReady _, IoFlush => [MarkFlushed; EndIo ResultOk]
  | IoReady _, _ => [EndIo ResultOk]
  | IoFailed, _ => [EndIo ResultError]
  | IoPending, (IoWrite | IoFlush) => [PendingTimeout w]
  | IoPending, _ => [EndIo ResultPending]
  end.

(** *** The sections of the functions

    Each returns what is to be done next, the state and what it logs. *)

Definition step_result : Type := list Action * Connection * list Log.

(** The section of [request_started_with_body_completion] under the lock of [idle_since]. *)
Definition start_use (at_ : Z) (req : option nat) (ctx : option RequestWriteTimeoutContext) (completion : option nat)
    (c : Connection) : step_result :=
  let id := observed_uses c in
  let '(_, c, l) := leave_idle_locked at_ c in
  ([ReportReused id req ctx completion], c <| observed_uses := wrapping_add id 1 |>, l ++ [UseStarted id]).

(** [begin_connection_use], for a request and a connection with an origin. *)
Definition begin_use (id : Z) (req : option nat) (ctx : option RequestWriteTimeoutContext) (completion : option nat)
    (c : Connection) : step_result :=
  let g token := {| use_id := id; guard_request := req; guard_token := token; guard_completion := completion |} in
  match req, connection_origin c with
  | Some r, Some origin =>
      let token := next_token <$> requests c !! r in
      let '(ok, c, l) := call_request r (OpBeginUse origin (0 <? id)) c in
      ([BeginWriteTimeout (g (if ok : bool then token else None)) ctx], c, l)
  | _, _ => ([BeginWriteTimeout (g None) ctx], c, [])
  end.

(** The wakes that follow the start of a request's writes. *)
Definition wake_writer (waker : option nat) (c : Connection) : step_result :=
  (wake_of waker ++ match io_waker c with
                    | Some w => if bool_decide (waker = Some w) then [] else [Wake w]
                    | None => []
                    end, c, []).

(** [response_finished], up to the idle state or the abort it ends in. *)
Definition response_finished (g : ConnectionUseGuard) (outcome : Metrics.ResponseBodyLifecycleOutcome) (c : Connection) :
    step_result :=
  match outcome, guard_request g, guard_token g with
  | Metrics.Aborted, _, _ | _, _, None | _, None, _ => (after_response g outcome true, c, [])
  | _, Some r, Some token =>
      let '(ok, c, l) := call_request r (OpUseFinish token) c in (after_response g outcome ok, c, l)
  end.

(** The reason of an abort that nobody gave one for. *)
Definition default_reason (g : ConnectionUseGuard) (c : Connection) : ConnectionAbortReason :=
  if match r ← guard_request g; requests c !! r with Some rt => is_cancelled rt | None => false end
  then AbortCancelled else AbortError None.

(** What [abort_current_connection_use_locked] reports. *)
Definition abort_report (req token : option nat) (reason : ConnectionAbortReason) (c : Connection) : step_result :=
  match req, token with
  | Some r, Some _ => let '(_, c, l) := call_request r (end_op token reason) c in ([], c, [MetricAborted] ++ l)
  | Some r, None =>
      if is_some (connection_origin c) then
        let '(ok, c, l) := call_request r (end_op None reason) c in
        (if ok : bool then [] else [AbortUnclaimed r reason], c, [MetricAborted] ++ l)
      else ([], c, [MetricAborted])
  | None, _ => ([], c, [MetricAborted])
  end.

(** The event of an abort no use of the request took. *)
Definition abort_record (r : nat) (reason : ConnectionAbortReason) (c : Connection) : list Log :=
  match requests c !! r, connection_origin c with
  | Some rt, Some origin =>
      [RequestEvents (Telemetry.connection_aborted origin (redirect_hop rt) (reason_outcome reason)
                        (reason_error_type reason) rt)]
  | _, _ => []
  end.

(** [prepare_io_poll], then the poll. *)
Definition prepare_io_poll (op : IoOp) (w : nat) (c : Connection) : step_result :=
  if connection_aborted c then ([EndIo ResultAborted], c, [])
  else (match op with IoWrite => [WriteReady w] | _ => [InnerIo op w] end,
        c <| io_waker := Some w |> <| registered := Some w |>, []).

(** [poll_request_write_ready]. *)
Definition poll_request_write_ready (at_ : Z) (w : nat) (c : Connection) : step_result :=
  let (ready, wt) := poll_request_ready w at_ (bodies c) (write_timeout c) in
  ([if ready : bool then InnerIo IoWrite w else EndIo ResultPending], c <| write_timeout := wt |>, []).

(** [poll_pending_write_timeout], with the abort of a timeout that fired. *)
Definition poll_pending_write_timeout (at_ : Z) (w : nat) (c : Connection) : step_result :=
  let '(fired, wt, bs) := poll_pending w at_ (bodies c) (write_timeout c) in
  (match fired with
   | Some (_, req) => [ClearWriteTimeout; AbortUse None req None (AbortError (Some WriteTimeout)); EndIo ResultTimedOut]
   | None => [EndIo ResultPending]
   end, c <| write_timeout := wt |> <| bodies := bs |>, []).

Definition request_transport_flushed (c : Connection) : step_result :=
  let '(waker, wt, bs) := transport_flushed (write_timeout c) (bodies c) in
  (wake_of waker, c <| write_timeout := wt |> <| bodies := bs |>, []).

Definition finish_request_write_timeout (id : Z) (c : Connection) : step_result :=
  let (waker, w) := finish_request id (write_timeout c) in (wake_of waker, c <| write_timeout := w |>, []).

Definition clear_request_write_timeout (c : Connection) : step_result :=
  let (waker, wt) := clear_request (write_timeout c) in (wake_of waker, c <| write_timeout := wt |>, []).

(** The first section of [connection_closed]. *)
Definition close_swap (c : Connection) : step_result :=
  (if connection_closed c then [] else [ClearWriteTimeout; CloseTakeWaker; CloseIdle], c <| connection_closed := true |>, []).

(** One action: the actions it puts before the rest, the state, what it logs; [None] while
    it waits for the lock of [idle_since]. *)
Definition act (inp : StepInput) (a : Action) (c : Connection) : option step_result :=
  match a with
  | StartUse req ctx completion => if idle_locked c then None else Some (start_use (now inp) req ctx completion c)
  | ReportReused id req ctx completion =>
      Some ([BeginUse id req ctx completion], c, if 0 <? id then [MetricReused] else [])
  | BeginUse id req ctx completion => Some (begin_use id req ctx completion c)
  | BeginWriteTimeout g ctx => let (todo, c) := begin_write_timeout g ctx c in Some (todo ++ [InUse g], c, [])
  | WakeWriter waker => Some (wake_writer waker c)
  | InUse g =>
      Some (match call inp with
            | CallSuperseded => (end_use g CallSuperseded true, c, [UseEnded (use_id g) CallSuperseded true])
            | cl => ([CheckUpload g cl], c, [])
            end)
  | CheckUpload g cl =>
      let complete := upload_complete g c in Some (end_use g cl complete, c, [UseEnded (use_id g) cl complete])
  | WriteFinished id => Some (finish_request_write_timeout id c)
  | ResponseFinished g outcome => Some (response_finished g outcome c)
  | CancelledAbort g check => Some ([AbortUse check (guard_request g) (guard_token g) (default_reason g c)], c, [])
  | EnterIdle id => if idle_locked c then None else let (c, l) := enter_idle id (now inp) c in Some ([], c, l)
  | AbortUse check req token reason =>
      if idle_locked c then None else Some (abort_section (now inp) check req token reason c)
  | AbortTakeWaker req token reason =>
      Some ([AbortReport req token reason] ++ wake_of (io_waker c) ++ [UnlockIdle], c <| io_waker := None |>, [])
  | AbortReport req token reason => Some (abort_report req token reason c)
  | AbortUnclaimed r reason =>
      Some (match requests c !! r with
            | Some rt => if is_cancelled rt then [] else [AbortRecord r reason]
            | None => []
            end, c, [])
  | AbortRecord r reason => Some ([], c, abort_record r reason c)
  | ReportEnd req token reason =>
      Some (match req with
            | Some r => let '(_, c, l) := call_request r (end_op token reason) c in ([], c, l)
            | None => ([], c, [])
            end)
  | Wake w => Some ([], if bool_decide (registered c = Some w) then c <| registered := None |> else c, [Woken w])
  | UnlockIdle => Some ([], c <| idle_locked := false |>, [])
  | PrepareIo op w => Some (prepare_io_poll op w c)
  | WriteReady w => Some (poll_request_write_ready (now inp) w c)
  | InnerIo op w => Some (after_inner op w (inner inp), c, [])
  | RecordProgress => Some ([], c <| write_timeout ::= record_write_progress |>, [])
  | MarkFlushed => Some (request_transport_flushed c)
  | PendingTimeout w => Some (poll_pending_write_timeout (now inp) w c)
  | ClearWriteTimeout => Some (clear_request_write_timeout c)
  | EndIo r => Some ([], c <| driver := DriverIdle |>, [IoReturned r])
  | CloseSwap => Some (close_swap c)
  | CloseTakeWaker => Some ([], c <| io_waker := None |>, [])
  | CloseIdle => if idle_locked c then None else let (c, l) := close_idle (now inp) c in Some ([], c, l)
  end.

(** The guard's owner, not its task, ends a use: its call is an input of the step. *)
Abbreviation System := (Tasks.System Action Connection Log).
Abbreviation conn := (@Tasks.state Action Connection Log).
Abbreviation tasks := (@Tasks.tasks Action Connection Log).
Abbreviation log := (@Tasks.log Action Connection Log).
Abbreviation task_move := (Tasks.task_move act).

Inductive system_step (s : System) : System -> Prop :=
| step_use req ctx completion : system_step s (s <| tasks ::= fun ts => ts ++ [[StartUse req ctx completion]] |>)
| step_io op w : driver (conn s) = DriverIdle ->
    system_step s (s <| state ::= fun c => c <| driver := DriverBusy |> |> <| tasks ::= fun ts => ts ++ [[PrepareIo op w]] |>)
| step_drop : driver (conn s) = DriverIdle ->
    system_step s (s <| state ::= fun c => c <| driver := DriverDropped |> |> <| tasks ::= fun ts => ts ++ [[CloseSwap]] |>)
| step_task s' : task_move s s' -> system_step s s'
(** requests and uploads go on by themselves *)
| step_request r op rt : requests (conn s) !! r = Some rt ->
    system_step s (s <| state ::= fun c => c <| requests ::= <[r := snd (fst (request_step op rt))]> |> |>)
| step_body k b : (k < length (bodies (conn s)))%nat ->
    system_step s (s <| state ::= fun c => c <| bodies ::= <[k := b]> |> |>)
| step_new_request rt b : system_step s (s <| state ::= fun c => c <| requests ::= fun l => l ++ [rt] |> <| bodies ::= fun l => l ++ [b] |> |>).

Definition initial (idle : Z) (native : bool) (origin : option string) : System :=
  let (c, l) := connection_new idle native origin [] [] in Build_System c [] l.

Definition reachable (idle : Z) (native : bool) (origin : option string) : System -> Prop := rtc system_step (initial idle native origin).

(** ** The ledgers of a connection *)

Abbreviation Ledger := (Tasks.Ledger Action Connection Log).

Definition aborts : Ledger := {|
  owed a := match a with AbortTakeWaker _ _ _ | AbortReport _ _ _ => 1 | _ => 0 end;
  paid l := match l with MetricAborted => 1 | _ => 0 end;
  held c := b2z (connection_aborted c) |}.

Definition closes : Ledger := {|
  owed a := match a with CloseIdle => 1 | _ => 0 end;
  paid l := match l with MetricClosed => 1 | _ => 0 end;
  held c := b2z (connection_closed c) |}.

Definition idles : Ledger := {|
  owed _ := 0;
  paid l := match l with MetricIdle => 1 | MetricLeftIdle => -1 | _ => 0 end;
  held c := b2z (is_some (idle_since c)) |}.

Definition reuses : Ledger := {|
  owed a := match a with ReportReused id _ _ _ => b2z (0 <? id) | _ => 0 end;
  paid l := match l with MetricReused => 1 | UseStarted id => - b2z (0 <? id) | _ => 0 end;
  held _ := 0 |}.

(** The lock of [idle_since]. *)
Definition idle_lock : Ledger := {|
  owed a := match a with AbortTakeWaker _ _ _ | UnlockIdle => 1 | _ => 0 end;
  paid _ := 0;
  held c := b2z (idle_locked c) |}.

(** The driver's poll. *)
Definition polls : Ledger := {|
  owed a := match a with PrepareIo _ _ | WriteReady _ | InnerIo _ _ | PendingTimeout _ | EndIo _ => 1 | _ => 0 end;
  paid _ := 0;
  held c := match driver c with DriverBusy => 1 | _ => 0 end |}.

Ltac act_cases :=
  unfold act, start_use, begin_use, wake_writer, response_finished, abort_report, abort_record, prepare_io_poll, poll_request_write_ready,
    poll_pending_write_timeout, request_transport_flushed, finish_request_write_timeout, clear_request_write_timeout,
    close_swap, begin_write_timeout, abort_section, enter_idle, close_idle, leave_idle_locked, call_request, after_response,
    end_use, after_inner, wake_of; intros Hact; repeat case_match; simplify_eq; cbn in *;
  repeat match goal with
         | H : ?f ?c = _ |- context [?f ?c] => is_var c; rewrite H
         | H : is_some ?o = _ |- context [is_some ?o] => rewrite H
         | H : _ || _ = false |- _ => apply orb_false_iff in H as [? ?]
         end; cbn.

Lemma act_keeps inp a c todo c' l : act inp a c = Some (todo, c', l) ->
  keeps aborts a c todo c' l /\ keeps closes a c todo c' l /\ keeps idles a c todo c' l /\ keeps reuses a c todo c' l /\
  (owed idle_lock a <= held idle_lock c -> keeps idle_lock a c todo c' l) /\
  (owed polls a <= held polls c -> keeps polls a c todo c' l).
Proof.
  unfold keeps. destruct a; act_cases.
  all: split_and!; try lia; unfold b2z in *; intros; repeat case_match; simplify_eq; lia.
Qed.

(** *** Every reachable state balances *)

Record books_ok (s : System) : Prop := {
  bk_aborts : balanced aborts s;
  bk_closes : balanced closes s;
  bk_idles : balanced idles s;
  bk_reuses : balanced reuses s;
  bk_lock : balanced idle_lock s;
  bk_polls : balanced polls s;
}.

Lemma books_ok_step s s' : books_ok s -> system_step s s' -> books_ok s'.
Proof.
  intros Hb. pose proof Hb as []. destruct 1 as [| | |s' (i & inp & t & t' & c & l & Hi & Ht & ->)| | |].
  - split; by apply balanced_started.
  - split; [apply balanced_started; done..|]. revert bk_polls0. unfold balanced, actions. cbn.
    rewrite join_app, sum_over_app, H. cbn. lia.
  - split; try (by apply balanced_started). apply balanced_started; cbn; [done|by rewrite H|done].
  - apply task_head in Ht as (a & rest & todo & -> & -> & Ha).
    destruct (act_keeps _ _ _ _ _ _ Ha) as (K1 & K2 & K3 & K4 & K5 & K6).
    split; (eapply balanced_task; [done| |done]); try done; [apply K5|apply K6]; eapply owed_held; try done; by intros [].
  - by split.
  - by split.
  - by split.
Qed.

Lemma reachable_books_ok idle native origin s : reachable idle native origin s -> books_ok s.
Proof.
  apply (rtc_ind_r (fun s => books_ok s)); [by split|]. intros s1 s2 _ Hs IH. by eapply books_ok_step.
Qed.

(** ** The history of uses *)

Definition last_started (l : list Log) : option Z := last (omap (fun x => match x with UseStarted id => Some id | _ => None end) l).

(** What an action needs of the state: its use has begun; a use about to leave the
    connection idle was finished with the connection reusable; the driver is gone when its
    connection is closed. *)
Definition action_ok (c : Connection) (l : list Log) (a : Action) : Prop :=
  match a with
  | ReportReused id _ _ _ | BeginUse id _ _ _ => UseStarted id ∈ l
  | BeginWriteTimeout g _ | InUse g | CheckUpload g _ => UseStarted (use_id g) ∈ l
  | ResponseFinished g Metrics.ReuseEligible =>
      UseStarted (use_id g) ∈ l /\ UseEnded (use_id g) (CallFinish Metrics.ReuseEligible) true ∈ l
  | EnterIdle id => UseStarted id ∈ l /\ UseEnded id (CallFinish Metrics.ReuseEligible) true ∈ l
  | CloseSwap | CloseTakeWaker => driver c = DriverDropped
  | _ => True
  end.

Lemma action_ok_mono c c' l l' a :
  (driver c = DriverDropped -> driver c' = DriverDropped) -> action_ok c l a -> action_ok c' (l ++ l') a.
Proof. destruct a; cbn; rewrite ?elem_of_app; repeat case_match; rewrite ?elem_of_app; tauto. Qed.

Lemma act_driver inp a c todo c' l : act inp a c = Some (todo, c', l) ->
  driver c' = driver c \/ exists r, a = EndIo r.
Proof. destruct a; act_cases; eauto. Qed.

Lemma act_action_ok inp a c todo c' l0 l : act inp a c = Some (todo, c', l) ->
  (driver c = DriverDropped -> driver c' = DriverDropped) ->
  action_ok c l0 a -> Forall (action_ok c' (l0 ++ l)) todo.
Proof.
  intros Hact Hd Ha. revert Hact. destruct a; cbn in Ha; act_cases; repeat constructor; cbn; rewrite ?elem_of_app; eauto.
  all: repeat case_match; try done; rewrite ?elem_of_app; try tauto.
  all: rewrite ?elem_of_cons; tauto.
Qed.

(** What an action does to the idleness of the connection: it ends it, leaves all as it was,
    or, for the current use of an open connection, begins it. *)
Inductive idle_effect (a : Action) (c c' : Connection) (l : list Log) : Prop :=
| idle_over : idle_since c' = None ->
    observed_uses c' = observed_uses c /\ last_started l = None \/
    last_started l = Some (observed_uses c) /\ observed_uses c' = wrapping_add (observed_uses c) 1 -> idle_effect a c c' l
| idle_same : idle_since c' = idle_since c -> observed_uses c' = observed_uses c -> connection_aborted c' = connection_aborted c ->
    last_started l = None -> MetricClosed ∉ l -> idle_effect a c c' l
| idle_begun id : a = EnterIdle id -> connection_closed c = false -> connection_aborted c = false ->
    connection_aborted c' = false -> observed_uses c = wrapping_add id 1 -> observed_uses c' = observed_uses c ->
    l = [MetricIdle] -> idle_effect a c c' l.

Lemma act_idle inp a c todo c' l : act inp a c = Some (todo, c', l) ->
  (connection_aborted c = true -> idle_since c = None) -> idle_effect a c c' l.
Proof.
  destruct a; act_cases; intros Hidle.
  all: try (apply idle_same; [done..|]; rewrite ?elem_of_cons, ?elem_of_nil; naive_solver).
  all: try (apply idle_over; cbn; auto; fail).
  all: try (apply idle_begun with id; try done; unfold is_current_use in *; lia).
Qed.

Record history_ok (s : System) : Prop := {
  hs_actions : Forall (action_ok (conn s) (log s)) (actions s);
  hs_started : forall u, UseStarted u ∈ log s -> is_usize u;
  hs_observed : is_usize (observed_uses (conn s));
  hs_last : forall u, last_started (log s) = Some u -> is_usize u /\ observed_uses (conn s) = wrapping_add u 1;
  hs_aborted : connection_aborted (conn s) = true -> idle_since (conn s) = None;
  hs_closed : MetricClosed ∈ log s -> idle_since (conn s) = None;
  hs_idle : forall t, idle_since (conn s) = Some t ->
    exists u, last_started (log s) = Some u /\ UseEnded u (CallFinish Metrics.ReuseEligible) true ∈ log s;
}.

Lemma last_started_app l l' : last_started (l ++ l') = match last_started l' with Some u => Some u | None => last_started l end.
Proof.
  unfold last_started. rewrite omap_app. set (m := omap _ l'). set (m0 := omap _ l). destruct m as [|x m'] using rev_ind.
  - by rewrite app_nil_r.
  - by rewrite app_assoc, !last_snoc.
Qed.

Lemma last_started_elem l u : UseStarted u ∈ l -> exists v, last_started l = Some v.
Proof.
  intros Hu. apply list_elem_of_split in Hu as (l1 & l2 & ->). rewrite last_started_app.
  change (UseStarted u :: l2) with ([UseStarted u] ++ l2). rewrite last_started_app. destruct (last_started l2); eauto.
Qed.

Lemma started_effect a c c' l u : idle_effect a c c' l -> UseStarted u ∈ l -> last_started l = Some (observed_uses c).
Proof.
  intros He Hu. pose proof (last_started_elem _ _ Hu) as [v Hv]. destruct He as [_ [[_ E]|[E _]]|? ? ? E|? ? ? ? ? ? ? E];
    [congruence|done|congruence|]. subst l. apply list_elem_of_singleton in Hu. done.
Qed.

(** Wrapping addition of one forgets nothing of a [usize]. *)
Lemma wrapping_add_inj u v : is_usize u -> is_usize v -> wrapping_add u 1 = wrapping_add v 1 -> u = v.
Proof. intros Hu Hv E. rewrite <- (wrapping_add_sub u 1 Hu), <- (wrapping_add_sub v 1 Hv). by rewrite E. Qed.

(** Every logged start is the observed count before it. *)
Lemma act_started inp a c todo c' l u : act inp a c = Some (todo, c', l) -> UseStarted u ∈ l -> u = observed_uses c.
Proof.
  destruct a; act_cases; rewrite ?elem_of_cons, ?elem_of_nil; intros Hu; destruct_or?; try done; naive_solver.
Qed.

Lemma closed_for_good s : books_ok s -> MetricClosed ∈ log s -> connection_closed (conn s) = true.
Proof.
  intros [] Hin. pose proof (sum_over_elem (paid closes) (log s) MetricClosed ltac:(by intros []) Hin).
  pose proof (sum_over_nonneg (owed closes) (actions s) ltac:(by intros [])).
  revert bk_closes0. unfold balanced. cbn in *. destruct (connection_closed (conn s)); cbn; [done|lia].
Qed.

Lemma driver_gone s i inp a rest todo c' l :
  books_ok s -> tasks s !! i = Some (a :: rest) -> act inp a (conn s) = Some (todo, c', l) ->
  driver (conn s) = DriverDropped -> driver c' = DriverDropped.
Proof.
  intros [] Hi Ha Hd. destruct (act_driver _ _ _ _ _ _ Ha) as [->|[r ->]]; [done|].
  pose proof (owed_held polls s i _ _ ltac:(done) ltac:(by intros []) bk_polls0 Hi) as Ho. cbn in Ho. by rewrite Hd in Ho.
Qed.

Lemma history_ok_started s a c' :
  history_ok s -> action_ok c' (log s) a -> (driver (conn s) = DriverDropped -> driver c' = DriverDropped) ->
  observed_uses c' = observed_uses (conn s) -> connection_aborted c' = connection_aborted (conn s) ->
  idle_since c' = idle_since (conn s) ->
  history_ok (s <| state := c' |> <| tasks ::= fun ts => ts ++ [[a]] |>).
Proof.
  intros [] Ha Hd E1 E2 E3. split; cbn; rewrite ?E1, ?E2, ?E3; try done. unfold actions. cbn. rewrite join_app. cbn.
  apply Forall_app. split; [|by repeat constructor]. eapply Forall_impl; [exact hs_actions0|].
  intros b Hb. rewrite <- (app_nil_r (log s)). by apply action_ok_mono with (conn s).
Qed.

Lemma history_ok_task s i inp a rest todo c' l :
  books_ok s -> history_ok s -> tasks s !! i = Some (a :: rest) -> act inp a (conn s) = Some (todo, c', l) ->
  history_ok (s <| state := c' |> <| tasks ::= <[i := todo ++ rest]> |> <| log ::= fun l0 => l0 ++ l |>).
Proof.
  intros Hb [] Hi Ha. destruct (actions_task _ _ _ _ Hi) as (before & after & E1 & E2).
  pose proof (driver_gone _ _ _ _ _ _ _ _ Hb Hi Ha) as Hd. pose proof (act_idle _ _ _ _ _ _ Ha hs_aborted0) as He.
  rewrite E1 in hs_actions0. rewrite !Forall_app, Forall_cons, Forall_app in hs_actions0.
  destruct hs_actions0 as (Hbefore & Hok & Hrest & Hafter).
  assert (Hmono : forall l1, Forall (action_ok (conn s) (log s)) l1 -> Forall (action_ok c' (log s ++ l)) l1).
  { intros l1 Hl1. eapply Forall_impl; [exact Hl1|]. intros b Hb'. by apply action_ok_mono with (conn s). }
  assert (Huse : forall u, UseStarted u ∈ l -> u = observed_uses (conn s)) by (intros u; by eapply act_started).
  split; cbn.
  - unfold actions. cbn. rewrite E2, !Forall_app. split_and!; auto. by eapply act_action_ok.
  - intros u [Hu|Hu]%elem_of_app; [auto|]. by rewrite (Huse u Hu).
  - destruct He as [_ [[-> _]|[_ ->]]|_ -> _ _ _|? _ _ _ _ _ -> _]; auto with machine_int.
  - intros u. rewrite last_started_app. destruct He as [_ [[-> ->]|[-> ->]]|_ -> _ -> _|? _ _ _ _ _ -> ->]; auto.
    intros [= <-]. done.
  - destruct He as [|Ei _ -> _ _|? _ _ _ -> _ _ _]; [done| |done]. rewrite Ei. auto.
  - intros [Hc|Hc]%elem_of_app; destruct He as [|Ei _ _ _ Hn|? _ Ec _ _ _ _ E]; try done.
    + rewrite Ei. auto.
    + by rewrite (closed_for_good s Hb Hc) in Ec.
    + subst l. by apply list_elem_of_singleton in Hc.
  - intros t Ht. rewrite last_started_app. destruct He as [E _|Ei _ _ -> _|id -> _ _ _ Eo _ ->]; [congruence| |].
    + rewrite Ei in Ht. destruct (hs_idle0 t Ht) as (u & Hu & He). exists u. rewrite elem_of_app. auto.
    + cbn in Hok. destruct Hok as [Hs Hf]. destruct (last_started_elem _ _ Hs) as [v Hv]. cbn. exists v. split; [done|].
      destruct (hs_last0 v Hv) as [Hr Ev]. rewrite <- (wrapping_add_inj id v) by (auto; congruence). rewrite elem_of_app. auto.
Qed.

Lemma history_ok_step s s' : books_ok s -> history_ok s -> system_step s s' -> history_ok s'.
Proof.
  intros Hb Hh. pose proof Hh as []. destruct 1 as [| | |s' (i & inp & t & t' & c & l & Hi & Ht & ->)| | |].
  - by apply history_ok_started.
  - apply history_ok_started; cbn; try done. by rewrite H.
  - by apply history_ok_started.
  - apply task_head in Ht as (a & rest & todo & -> & -> & Ha). by apply history_ok_task with inp a.
  - by split.
  - by split.
  - by split.
Qed.

Lemma reachable_history_ok idle native origin s : reachable idle native origin s -> history_ok s.
Proof.
  intros Hr. assert (H : books_ok s /\ history_ok s); [|apply H]. revert Hr.
  apply (rtc_ind_r (fun s => books_ok s /\ history_ok s)).
  - split; [by split|]. split; cbn; try done. intros u Hu. set_solver.
  - intros s1 s2 _ Hs [Hb Hh]. split; [by eapply books_ok_step|by eapply history_ok_step].
Qed.

(** ** Cut uploads, and waking the driver *)

(** The abort that is due when an upload was cut short. *)
Definition aborts_any (a : Action) : bool := match a with AbortUse None _ _ _ | CancelledAbort _ None => true | _ => false end.

Definition cut (x : Log) : bool := match x with UseEnded _ CallSuperseded _ => false | UseEnded _ _ complete => negb complete | _ => false end.

Definition takes_waker (a : Action) : bool := match a with AbortTakeWaker _ _ _ => true | _ => false end.

Definition wakes (w : nat) (a : Action) : bool := match a with Wake w' => bool_decide (w' = w) | _ => false end.

Record waker_ok (s : System) : Prop := {
  wk_cut : existsb cut (log s) = true -> connection_aborted (conn s) = true \/ existsb aborts_any (actions s) = true;
  wk_registered : forall w, registered (conn s) = Some w ->
    driver (conn s) = DriverDropped \/ io_waker (conn s) = Some w \/ existsb (wakes w) (actions s) = true;
  wk_aborted : connection_aborted (conn s) = true -> io_waker (conn s) = None \/ existsb takes_waker (actions s) = true;
}.

Lemma act_cut inp a c todo c' l : act inp a c = Some (todo, c', l) ->
  (connection_aborted c = true -> connection_aborted c' = true) /\
  (aborts_any a = true -> connection_aborted c' = true \/ existsb aborts_any todo = true) /\
  (existsb cut l = true -> existsb aborts_any todo = true).
Proof. destruct a; act_cases; split_and!; repeat case_match; cbn in *; auto; congruence. Qed.

Lemma act_waker inp a c todo c' l : act inp a c = Some (todo, c', l) ->
  (forall w, registered c' = Some w -> io_waker c' = Some w \/ registered c = Some w /\ wakes w a = false /\
     (io_waker c = Some w -> io_waker c' = Some w \/ existsb (wakes w) todo = true \/ a = CloseTakeWaker)) /\
  (connection_aborted c' = true -> io_waker c' = None \/ existsb takes_waker todo = true \/
     connection_aborted c = true /\ io_waker c' = io_waker c /\ takes_waker a = false).
Proof.
  destruct a; act_cases; split; auto 6.
  - intros w Hw. right. split_and!; [done..|]. intros [= ->]. right. left. by rewrite bool_decide_true.
  - done.
  - intros w0 Hw0. right. split_and!; auto. apply bool_decide_eq_false. intros <-. by case_bool_decide.
Qed.

Lemma waker_ok_started s a c' :
  waker_ok s -> io_waker c' = io_waker (conn s) -> registered c' = registered (conn s) ->
  connection_aborted c' = connection_aborted (conn s) -> (driver (conn s) = DriverDropped -> driver c' = DriverDropped) ->
  waker_ok (s <| state := c' |> <| tasks ::= fun ts => ts ++ [[a]] |>).
Proof.
  intros [] E1 E2 E3 Hd. split; cbn; rewrite ?E1, ?E2, ?E3; unfold actions; cbn; rewrite join_app; setoid_rewrite existsb_app;
    change (mjoin (tasks s)) with (actions s).
  - intros Hc. destruct (wk_cut0 Hc) as [?|H]; [by left|right]. by rewrite H.
  - intros w Hw. destruct (wk_registered0 w Hw) as [?|[?|H]]; auto. right. right. by rewrite H.
  - intros Ha. destruct (wk_aborted0 Ha) as [?|H]; [by left|right]. by rewrite H.
Qed.

Lemma waker_ok_task s i inp a rest todo c' l :
  books_ok s -> history_ok s -> waker_ok s -> tasks s !! i = Some (a :: rest) -> act inp a (conn s) = Some (todo, c', l) ->
  waker_ok (s <| state := c' |> <| tasks ::= <[i := todo ++ rest]> |> <| log ::= fun l0 => l0 ++ l |>).
Proof.
  intros Hb Hh [] Hi Ha. destruct (actions_task _ _ _ _ Hi) as (before & after & E1 & E2).
  pose proof (driver_gone _ _ _ _ _ _ _ _ Hb Hi Ha) as Hd. pose proof (hs_actions _ Hh) as Hok.
  destruct (act_cut _ _ _ _ _ _ Ha) as (Habort & Hany & Hcut). destruct (act_waker _ _ _ _ _ _ Ha) as [Hreg Htake].
  rewrite E1 in *. rewrite !Forall_app, Forall_cons in Hok. destruct Hok as (_ & Hok & _).
  assert (Hpend : existsb aborts_any (before ++ a :: rest ++ after) = true ->
    connection_aborted c' = true \/ existsb aborts_any (before ++ todo ++ rest ++ after) = true).
  { intros H. destruct (aborts_any a) eqn:Hp; [destruct (Hany eq_refl) as [?|?]; [by left|right; by apply existsb_todo]|].
    right. apply (existsb_task _ _ _ _ _ _ H). by rewrite Hp. }
  split; unfold actions; cbn; rewrite E2.
  - rewrite existsb_app, orb_true_iff. intros [Hc|Hc]; [destruct (wk_cut0 Hc); auto|]. right. apply existsb_todo. auto.
  - intros w Hw. destruct (Hreg w Hw) as [?|(Hw0 & Hwa & Hio)]; [auto|].
    destruct (wk_registered0 w Hw0) as [?|[H|H]]; [auto| |].
    + destruct (Hio H) as [?|[?|E]]; [auto|right; right; by apply existsb_todo|]. left. rewrite E in Hok. auto.
    + right. right. apply (existsb_task _ _ _ _ _ _ H). by rewrite Hwa.
  - intros Hc. destruct (Htake Hc) as [?|[?|(Hc0 & -> & Hwa)]]; [by left|right; by apply existsb_todo|].
    destruct (wk_aborted0 Hc0) as [?|H]; [by left|right]. apply (existsb_task _ _ _ _ _ _ H). by rewrite Hwa.
Qed.

Lemma waker_ok_step s s' : books_ok s -> history_ok s -> waker_ok s -> system_step s s' -> waker_ok s'.
Proof.
  intros Hb Hh Hw. pose proof Hw as []. destruct 1 as [| | |s' (i & inp & t & t' & c & l & Hi & Ht & ->)| | |].
  - by apply waker_ok_started.
  - apply waker_ok_started; cbn; try done. by rewrite H.
  - by apply waker_ok_started.
  - apply task_head in Ht as (a & rest & todo & -> & -> & Ha). by apply waker_ok_task with inp a.
  - by split.
  - by split.
  - by split.
Qed.

Lemma reachable_waker_ok idle native origin s : reachable idle native origin s -> waker_ok s.
Proof.
  intros Hr. assert (H : books_ok s /\ history_ok s /\ waker_ok s); [|apply H]. revert Hr.
  apply (rtc_ind_r (fun s => books_ok s /\ history_ok s /\ waker_ok s)).
  - assert (Hr : reachable idle native origin (initial idle native origin)) by apply rtc_refl.
    split_and!; [by eapply reachable_books_ok|by eapply reachable_history_ok|]. by split; cbn.
  - intros s1 s2 _ Hs (Hb & Hh & Hw). split_and!; [by eapply books_ok_step|by eapply history_ok_step|by eapply waker_ok_step].
Qed.

(** ** Every task comes to its end *)

(** How many more steps an action can lead to. *)
Definition work (a : Action) : Z :=
  match a with
  | StartUse _ _ _ => 24 | ReportReused _ _ _ _ => 23 | BeginUse _ _ _ _ => 22 | BeginWriteTimeout _ _ => 21
  | WakeWriter _ => 3 | InUse _ => 13 | CheckUpload _ _ => 12
  | WriteFinished _ => 2 | ResponseFinished _ _ => 9 | CancelledAbort _ _ => 8 | EnterIdle _ => 1
  | AbortUse _ _ _ _ => 7 | AbortTakeWaker _ _ _ => 6 | AbortReport _ _ _ => 3 | AbortUnclaimed _ _ => 2
  | AbortRecord _ _ => 1 | ReportEnd _ _ _ => 1 | Wake _ => 1 | UnlockIdle => 1
  | PrepareIo _ _ => 14 | WriteReady _ => 13 | InnerIo _ _ => 12 | RecordProgress => 1 | MarkFlushed => 2
  | PendingTimeout _ => 11 | ClearWriteTimeout => 2 | EndIo _ => 1
  | CloseSwap => 5 | CloseTakeWaker => 1 | CloseIdle => 1
  end.

Lemma act_work inp a c todo c' l : act inp a c = Some (todo, c', l) -> sum_over work todo + 0 < work a + 0.
Proof. destruct a; act_cases; lia. Qed.

(** The actions that wait for the lock of [idle_since], and those done while it is held. *)
Definition waits (a : Action) : bool :=
  match a with StartUse _ _ _ | EnterIdle _ | AbortUse _ _ _ _ | CloseIdle => true | _ => false end.

Definition locked_work (a : Action) : bool :=
  match a with
  | AbortReport _ _ _ | AbortUnclaimed _ _ | AbortRecord _ _ | ReportEnd _ _ _ | Wake _ => true
  | _ => false
  end.

Fixpoint holds_lock (t : Task) : bool :=
  match t with
  | [] => false
  | (AbortTakeWaker _ _ _ | UnlockIdle) :: _ => true
  | a :: t => locked_work a && holds_lock t
  end.

Definition lock_ok (t : Task) : Prop :=
  sum_over (owed idle_lock) t = 0 \/ sum_over (owed idle_lock) t = 1 /\ holds_lock t = true.

Lemma act_enabled inp a c : (waits a = true -> idle_locked c = false) -> is_Some (act inp a c).
Proof.
  intros Hw. destruct a; cbn in *; try rewrite Hw by done; eauto; repeat case_match; eauto.
Qed.

Lemma holds_lock_work l t : forallb locked_work l = true -> holds_lock (l ++ t) = holds_lock t.
Proof. induction l as [|a l IH]; [done|]. cbn. intros [Ha Hl]%andb_prop. rewrite Ha, IH by done. by destruct a. Qed.

Lemma holds_lock_app t t' : holds_lock t = true -> holds_lock (t ++ t') = true.
Proof. induction t as [|a t IH]; [done|]. destruct a; cbn; try done; rewrite ?andb_true_iff; tauto. Qed.

Lemma act_lock inp a c todo c' l : act inp a c = Some (todo, c', l) ->
  match a with
  | AbortTakeWaker _ _ _ => sum_over (owed idle_lock) todo = 1 /\ holds_lock todo = true
  | UnlockIdle => todo = []
  | _ => sum_over (owed idle_lock) todo = 0 /\ (locked_work a = true -> forallb locked_work todo = true) \/
         locked_work a = false /\ sum_over (owed idle_lock) todo = 1 /\ holds_lock todo = true
  end.
Proof. destruct a; act_cases; auto. Qed.

Lemma lock_ok_act inp a c todo c' l rest : act inp a c = Some (todo, c', l) -> lock_ok (a :: rest) -> lock_ok (todo ++ rest).
Proof.
  intros Ha%act_lock. unfold lock_ok. rewrite sum_over_app. cbn [sum_over].
  pose proof (sum_over_nonneg (owed idle_lock) rest ltac:(by intros [])) as Hr. intros H.
  assert (Hgen : owed idle_lock a = 0 -> holds_lock (a :: rest) = locked_work a && holds_lock rest ->
    sum_over (owed idle_lock) todo = 0 /\ (locked_work a = true -> forallb locked_work todo = true) \/
      locked_work a = false /\ sum_over (owed idle_lock) todo = 1 /\ holds_lock todo = true ->
    sum_over (owed idle_lock) todo + sum_over (owed idle_lock) rest = 0 \/
    sum_over (owed idle_lock) todo + sum_over (owed idle_lock) rest = 1 /\ holds_lock (todo ++ rest) = true).
  { intros E1 E2 [[Ht Hl]|(Hl & Ht & Hh)]; rewrite E1, E2 in H.
    - destruct H as [H|[H [Hh Hb]%andb_prop]]; [left; lia|right]. split; [lia|]. rewrite holds_lock_work; auto.
    - rewrite Hl in H. destruct H as [H|[_ H]]; [|done]. right. split; [lia|]. by apply holds_lock_app. }
  assert (Hone : owed idle_lock a = 1 -> sum_over (owed idle_lock) rest = 0) by (intros E; rewrite E in H; destruct H; lia).
  destruct a; try (by apply Hgen); rewrite Hone by done.
  - destruct Ha as [-> Hh]. right. split; [done|]. by apply holds_lock_app.
  - subst todo. by left.
Qed.

Lemma lock_ok_step s s' : Forall lock_ok (tasks s) -> system_step s s' -> Forall lock_ok (tasks s').
Proof.
  intros Hl. destruct 1 as [| | |s' (i & inp & t & t' & c & l & Hi & Ht & ->)| | |]; cbn; try done; try (apply Forall_app; split; [done|repeat constructor]).
  apply Forall_insert; [done|]. apply task_head in Ht as (a & rest & todo & -> & -> & Ha). apply (lock_ok_act _ _ _ _ _ _ _ Ha).
  rewrite Forall_lookup in Hl. by apply Hl in Hi.
Qed.

Lemma reachable_lock_ok idle native origin s : reachable idle native origin s -> Forall lock_ok (tasks s).
Proof. apply (rtc_ind_r (fun s => Forall lock_ok (tasks s))); [constructor|]. intros s1 s2 _ Hs IH. by eapply lock_ok_step. Qed.

Definition some_input : StepInput := {| now := 0; inner := IoPending; call := CallDrop |}.

Lemma task_enabled s i a rest :
  tasks s !! i = Some (a :: rest) -> (waits a = true -> idle_locked (conn s) = false) -> exists s', task_move s s'.
Proof.
  intros Hi Hw. destruct (act_enabled some_input a (conn s) Hw) as [[[todo c] l] Ha].
  eexists. exists i, some_input, (a :: rest), (todo ++ rest), c, l. split_and!; [done| |reflexivity]. cbn. by rewrite Ha.
Qed.

(** The lock is held only by a task that can go on. *)
Lemma lock_holder s : balanced idle_lock s -> Forall lock_ok (tasks s) -> idle_locked (conn s) = true -> exists s', task_move s s'.
Proof.
  intros Hb Hl Hlocked. unfold balanced in Hb. cbn [held idle_lock] in Hb. rewrite Hlocked in Hb.
  rewrite (sum_over_zero (paid idle_lock)) in Hb by done.
  destruct (sum_over_witness (owed idle_lock) (actions s)) as (k & a & Ha & Hpos); [cbn in *; lia|].
  apply list_elem_of_lookup_2 in Ha.
  apply list_elem_of_join in Ha as (t & Ha & Ht). apply list_elem_of_lookup in Ht as [i Hi].
  rewrite Forall_lookup in Hl. destruct (Hl _ _ Hi) as [E|[_ Hh]].
  { pose proof (sum_over_elem (owed idle_lock) t a ltac:(by intros []) Ha). lia. }
  destruct t as [|b rest]; [done|]. apply (task_enabled s i b rest Hi). by destruct b.
Qed.

Lemma pending_task_moves idle native origin s :
  reachable idle native origin s -> Exists (fun t => t <> []) (tasks s) -> exists s', task_move s s'.
Proof.
  intros Hr He. destruct (idle_locked (conn s)) eqn:Hl.
  { apply lock_holder; [by eapply bk_lock, reachable_books_ok|by eapply reachable_lock_ok|done]. }
  apply Exists_exists in He as (t & Ht & Hne). apply list_elem_of_lookup in Ht as [i Hi]. destruct t as [|a rest]; [done|].
  by apply (task_enabled s i a rest Hi).
Qed.

(** What is still to be done for the driver to be woken. *)
Definition waking (a : Action) : bool := match a with AbortTakeWaker _ _ _ | Wake _ => true | _ => false end.

Lemma existsb_weaken {A} (f g : A -> bool) l : (forall x, f x = true -> g x = true) -> existsb f l = true -> existsb g l = true.
Proof. intros Hfg. induction l as [|x l IH]; [done|]. cbn. rewrite !orb_true_iff. naive_solver. Qed.

Lemma aborted_wakes s : waker_ok s -> connection_aborted (conn s) = true -> existsb waking (actions s) = false ->
  driver (conn s) = DriverDropped \/ registered (conn s) = None.
Proof.
  intros [] Ha Hn. destruct (registered (conn s)) as [w|] eqn:Hw; [|by right]. left.
  assert (Hio : io_waker (conn s) = None).
  { destruct (wk_aborted0 Ha) as [?|H]; [done|]. apply (existsb_weaken _ waking) in H; [congruence|]. by intros []. }
  destruct (wk_registered0 w eq_refl) as [?|[?|H]]; [done|congruence|].
  apply (existsb_weaken _ waking) in H; [congruence|]. by intros [].
Qed.

(** C24: A connection is in the pool only when it can be used again: while it is idle it is
    neither aborted nor recorded as closed, and the use that began last was finished as
    reusable with its upload complete; once any use was cut short in its upload, the
    connection is idle only as long as the abort of that use is still to be carried out. *)
Theorem idle_connection_reusable idle native origin s t :
  reachable idle native origin s -> idle_since (conn s) = Some t ->
  connection_aborted (conn s) = false /\ (MetricClosed ∉ log s) /\
  (exists u, last_started (log s) = Some u /\ UseEnded u (CallFinish Metrics.ReuseEligible) true ∈ log s) /\
  (existsb cut (log s) = true -> existsb aborts_any (actions s) = true).
Proof.
  intros Hr Ht. pose proof (reachable_history_ok _ _ _ _ Hr) as []. pose proof (reachable_waker_ok _ _ _ _ Hr) as [].
  assert (Hna : connection_aborted (conn s) = false) by (destruct (connection_aborted (conn s)); naive_solver).
  split_and!; [done| |by eapply hs_idle0|].
  - intros Hc. by rewrite hs_closed0 in Ht.
  - intros Hc. destruct (wk_cut0 Hc); congruence.
Qed.

(** The connection's counters follow its state, whatever interleaves: it has become idle
    once more than it left idleness exactly while it is idle; it is counted as aborted and
    as closed at most once, and only when it is; and when nothing is under way each is
    counted exactly, and so is every reuse. *)
Theorem connection_accounts idle native origin s : reachable idle native origin s ->
  sum_over (paid idles) (log s) = b2z (is_some (idle_since (conn s))) /\
  0 <= sum_over (paid aborts) (log s) <= b2z (connection_aborted (conn s)) /\
  0 <= sum_over (paid closes) (log s) <= b2z (connection_closed (conn s)) /\
  (finished s -> sum_over (paid aborts) (log s) = b2z (connection_aborted (conn s)) /\
     sum_over (paid closes) (log s) = b2z (connection_closed (conn s)) /\ sum_over (paid reuses) (log s) = 0).
Proof.
  intros Hr. pose proof (reachable_books_ok _ _ _ _ Hr) as []. unfold balanced in *.
  pose proof (sum_over_nonneg (owed aborts) (actions s) ltac:(by intros [])).
  pose proof (sum_over_nonneg (owed closes) (actions s) ltac:(by intros [])).
  pose proof (sum_over_nonneg (paid aborts) (log s) ltac:(by intros [])).
  pose proof (sum_over_nonneg (paid closes) (log s) ltac:(by intros [])).
  rewrite (sum_over_zero (owed idles)) in bk_idles0 by done. split_and!; try (cbn in *; lia).
  intros Hf%finished_actions. rewrite Hf in *. cbn in *. lia.
Qed.

(** An aborted connection does not leave its driver asleep: unless the driver has dropped
    the connection, the waker it registered last has been woken as soon as no abort is still
    to take it and no wake is still to be made; and a poll of an aborted connection fails
    before it touches the transport. *)
Theorem aborted_connection_wakes idle native origin s :
  reachable idle native origin s -> connection_aborted (conn s) = true ->
  (driver (conn s) <> DriverDropped -> existsb waking (actions s) = false -> registered (conn s) = None) /\
  (forall inp op w, act inp (PrepareIo op w) (conn s) = Some ([EndIo ResultAborted], conn s, [])).
Proof.
  intros Hr Ha. split.
  - intros Hd Hn. destruct (aborted_wakes s) as [?|?]; try done. by eapply reachable_waker_ok.
  - intros inp op w. cbn. unfold prepare_io_poll. by rewrite Ha.
Qed.

(** C25: Everything begun on a connection comes to its end, in any order of steps: the tasks
    can take no more steps than their work is worth, and while one is unfinished some task
    can go on, so that no task waits forever for the lock of [idle_since]; a run of the
    tasks that cannot go on has finished them all, holds no lock, and has woken the driver
    of an aborted connection. *)
Theorem connection_settles idle native origin s : reachable idle native origin s ->
  (forall n s', nsteps task_move n s s' -> Z.of_nat n <= sum_over work (actions s)) /\
  (exists s', rtc task_move s s' /\ finished s') /\
  (forall s', rtc task_move s s' -> ~ (exists s'', task_move s' s'') ->
     finished s' /\ idle_locked (conn s') = false /\
     (connection_aborted (conn s') = true -> driver (conn s') = DriverDropped \/ registered (conn s') = None)).
Proof.
  intros Hr. split_and!.
  - intros n s' Hn. apply (task_moves_bounded act work (fun _ => 0) ltac:(by intros []) ltac:(done) act_work) in Hn. unfold total_work in Hn. lia.
  - apply (tasks_settle act work (fun _ => 0) ltac:(by intros []) ltac:(done) act_work (reachable idle native origin)); [| |done].
    + intros s1 s2 Hs1 Hm. eapply rtc_r; [exact Hs1|by apply step_task].
    + apply pending_task_moves.
  - intros s' Hs Hstuck. assert (Hr' : reachable idle native origin s').
    { unfold reachable in *. etrans; [exact Hr|]. eapply rtc_congruence with (f := fun s => s); [|exact Hs]. by apply step_task. }
    destruct (finished_dec s') as [Hf|He]; [|by destruct Hstuck; eapply pending_task_moves].
    pose proof (finished_actions _ Hf) as Ea. split_and!; [done| |].
    + pose proof (bk_lock _ (reachable_books_ok _ _ _ _ Hr')) as Hb. unfold balanced in Hb. rewrite Ea in Hb.
      rewrite (sum_over_zero (paid idle_lock)) in Hb by done. cbn in Hb. by destruct (idle_locked (conn s')).
    + intros Ha. apply aborted_wakes; [by eapply reachable_waker_ok|done|]. by rewrite Ea.
Qed.

(** ** Concrete runs *)

Inductive ConnectionMove :=
| Use (req : option nat) (completion : option nat)
| Poll (op : IoOp) (w : nat)
| DropConnection
| Run (i : nat) (inp : StepInput)
| NewRequest (rt : RequestTelemetry) (b : BodyCompletion).

Definition connection_move (m : ConnectionMove) (s : System) : option System :=
  match m with
  | Use req completion => Some (s <| tasks ::= fun ts => ts ++ [[StartUse req None completion]] |>)
  | Poll op w =>
      match driver (conn s) with
      | DriverIdle => Some (s <| state ::= fun c => c <| driver := DriverBusy |> |> <| tasks ::= fun ts => ts ++ [[PrepareIo op w]] |>)
      | _ => None
      end
  | DropConnection =>
      match driver (conn s) with
      | DriverIdle => Some (s <| state ::= fun c => c <| driver := DriverDropped |> |> <| tasks ::= fun ts => ts ++ [[CloseSwap]] |>)
      | _ => None
      end
  | Run i inp =>
      t ← tasks s !! i; '(t', c, l) ← task_step act inp t (conn s);
      Some (s <| state := c |> <| tasks ::= <[i := t']> |> <| log ::= fun l0 => l0 ++ l |>)
  | NewRequest rt b =>
      Some (s <| state ::= fun c => c <| requests ::= fun l => l ++ [rt] |> <| bodies ::= fun l => l ++ [b] |> |>)
  end.

Fixpoint drive_connection (moves : list ConnectionMove) (s : System) : option System :=
  match moves with
  | [] => Some s
  | m :: moves => s' ← connection_move m s; drive_connection moves s'
  end.

Lemma connection_move_step m s s' : connection_move m s = Some s' -> system_step s s'.
Proof.
  destruct m as [req completion|op w| |i inp|rt b]; cbn.
  - intros [= <-]. apply step_use.
  - destruct (driver (conn s)) eqn:Hd; intros [= <-]. by apply step_io.
  - destruct (driver (conn s)) eqn:Hd; intros [= <-]. by apply step_drop.
  - destruct (tasks s !! i) as [t|] eqn:Hi; [|done]. cbn.
    destruct (task_step act inp t (conn s)) as [[[t' c] l]|] eqn:Ht; intros [= <-].
    apply step_task. by exists i, inp, t, t', c, l.
  - intros [= <-]. apply step_new_request.
Qed.

Lemma drive_connection_reachable idle native origin moves s s' :
  reachable idle native origin s -> drive_connection moves s = Some s' -> reachable idle native origin s'.
Proof.
  revert s; induction moves as [|m moves IH]; intros s Hs; cbn [drive_connection]; [by intros [= <-]|].
  destruct (connection_move m s) as [s1|] eqn:Hm; [|done]. apply IH. eapply rtc_r; [done|]. by eapply connection_move_step.
Qed.

Definition sample_input (t : Z) (p : IoPoll) (cl : UseCall) : StepInput := {| now := t; inner := p; call := cl |}.

Definition sample_connection : System := initial 100 true (Some "http://a").

Definition run_connection (moves : list ConnectionMove) : System := default sample_connection (drive_connection moves sample_connection).

Lemma run_connection_reachable moves :
  is_some (drive_connection moves sample_connection) = true -> reachable 100 true (Some "http://a") (run_connection moves).
Proof.
  unfold run_connection. intros H. destruct (drive_connection moves sample_connection) as [s|] eqn:E; [|done].
  eapply drive_connection_reachable; [apply rtc_refl|exact E].
Qed.

Definition reusable (t : Z) : StepInput := sample_input t IoPending (CallFinish Metrics.ReuseEligible).

(** A use that ends with the connection idle; the driver reads, a second use begins, the
    driver reads again, and the use is dropped. *)
Definition sample_idle_moves : list ConnectionMove := [Use None None] ++ replicate 10 (Run 0 (reusable 5)).

Definition sample_dropped_moves : list ConnectionMove :=
  sample_idle_moves ++ [Poll IoRead 3] ++ replicate 3 (Run 1 (reusable 6)) ++ [Use None None] ++
  replicate 6 (Run 2 (reusable 6)) ++ [Poll IoRead 4] ++ replicate 3 (Run 3 (reusable 6)) ++
  replicate 9 (Run 2 (sample_input 7 IoPending CallDrop)).

Lemma sample_dropped_finished : finished (run_connection sample_dropped_moves).
Proof.
  assert (E : tasks (run_connection sample_dropped_moves) = [[]; []; []; []]) by (vm_compute; reflexivity).
  unfold finished. rewrite E. by repeat constructor.
Qed.

Lemma idle_connection_reusable_witness :
  idle_since (conn (run_connection sample_idle_moves)) = Some 5 /\ connection_aborted (conn (run_connection sample_idle_moves)) = false.
Proof.
  assert (Hi : idle_since (conn (run_connection sample_idle_moves)) = Some 5) by (vm_compute; reflexivity).
  split; [exact Hi|].
  apply (idle_connection_reusable 100 true (Some "http://a") (run_connection sample_idle_moves) 5
    (run_connection_reachable sample_idle_moves eq_refl) Hi).
Defined.

Lemma connection_accounts_witness :
  finished (run_connection sample_dropped_moves) /\ sum_over (paid aborts) (log (run_connection sample_dropped_moves)) = 1.
Proof.
  pose proof sample_dropped_finished as Hf. split; [exact Hf|].
  destruct (connection_accounts 100 true (Some "http://a") (run_connection sample_dropped_moves)
    (run_connection_reachable sample_dropped_moves eq_refl)) as (_ & _ & _ & H).
  destruct (H Hf) as [-> _]. vm_compute. reflexivity.
Defined.

Lemma aborted_connection_wakes_witness :
  Woken 4 ∈ log (run_connection sample_dropped_moves) /\ registered (conn (run_connection sample_dropped_moves)) = None.
Proof.
  assert (Ha : connection_aborted (conn (run_connection sample_dropped_moves)) = true) by (vm_compute; reflexivity).
  assert (Hd : driver (conn (run_connection sample_dropped_moves)) = DriverIdle) by (vm_compute; reflexivity).
  assert (Hw : existsb waking (actions (run_connection sample_dropped_moves)) = false) by (vm_compute; reflexivity).
  assert (Hl : log (run_connection sample_dropped_moves) !! 12%nat = Some (Woken 4)) by (vm_compute; reflexivity).
  split; [by apply list_elem_of_lookup_2 in Hl|].
  apply (aborted_connection_wakes 100 true (Some "http://a") (run_connection sample_dropped_moves)
    (run_connection_reachable sample_dropped_moves eq_refl) Ha); [by rewrite Hd|exact Hw].
Defined.

Lemma connection_settles_witness :
  sum_over work (actions (run_connection [Use None None; Poll IoWrite 3])) = 38 /\
  exists s', rtc task_move (run_connection [Use None None; Poll IoWrite 3]) s' /\ finished s'.
Proof.
  split; [vm_compute; reflexivity|].
  apply (connection_settles 100 true (Some "http://a") (run_connection [Use None None; Poll IoWrite 3])
    (run_connection_reachable [Use None None; Poll IoWrite 3] eq_refl)).
Defined.

(** A request with a timeout of five seconds waits from its first poll on. *)
Definition sample_timeout : RequestWriteTimeoutContext :=
  {| timeout := 5000000000; timeout_secs := as_secs_f64 5000000000; context_origin := "http://a"; context_hop := 0 |}.

Definition sample_begun : WriteTimeoutState := snd (begin_request 0 (Some sample_timeout) (Some 2%nat) None write_timeout_default).

Definition sample_waiting : WriteTimeoutState := snd (fst (poll_pending 3 1000 [] sample_begun)).

Lemma sample_write_run :
  write_run 1000 [(10, WBegin 0 (Some sample_timeout) (Some 2%nat) None); (1000, WPending 3)] sample_waiting.
Proof.
  apply (write_run_step 10 1000 [(10, WBegin 0 (Some sample_timeout) (Some 2%nat) None)] sample_begun (WPending 3) [] None sample_waiting []).
  - apply (write_run_step 0 10 [] write_timeout_default (WBegin 0 (Some sample_timeout) (Some 2%nat) None) [] None sample_begun []);
      [constructor|lia|reflexivity].
  - lia.
  - reflexivity.
Qed.

Lemma write_timeout_sound_witness :
  exists e w', poll_pending 3 5000001000 [] sample_waiting = (Some (e, Some 2%nat), w', []) /\
    exists ctx since, e = timeout_error ctx since 5000001000 /\ since + timeout ctx <= 5000001000.
Proof.
  assert (E : poll_pending 3 5000001000 [] sample_waiting =
    (Some (timeout_error sample_timeout 1000 5000001000, Some 2%nat), reset_progress sample_waiting, [])) by reflexivity.
  exists (timeout_error sample_timeout 1000 5000001000), (reset_progress sample_waiting). split; [exact E|].
  destruct (write_timeout_sound 1000 _ sample_waiting 5000001000 3 [] _ (Some 2%nat) _ [] sample_write_run ltac:(lia) E)
    as (ctx & since & _ & H2 & H3 & _). exists ctx, since. split; [exact H2|exact H3].
Defined.
