(* ===== verification/AsyncRequests.v ===== *)
(** * Requests started from asyncio

    [src/src/py/client/async_requests/{active,registry,callback,spawn,stream_spawn}.rs] and
    the scheduling of [src/src/py/client/future.rs]: a request is a task of the runtime
    whose result completes a Python future; cancelling the future or closing the client
    aborts it.  The caller that spawns, the task, the event loop and whoever closes the
    client interleave.

    asyncio's futures are [FutureState]: only a pending future can be resolved or
    cancelled, and the done callback of a cancelled one runs on the loop.  Aborting a task
    of tokio takes effect at its first poll or its next await, if there is one left.
    Python may fail wherever it is called: creating the future or the callback, adding the
    callback, and scheduling on the loop, which refuses calls once it is closed and drops
    those it has not run.  The request itself is its result. *)

From S2P Require Import Prelude Sync Tasks.

Local Open Scope Z_scope.

Inductive FutureState := FuturePending | FutureCancelled | FutureResolved (ok : bool).

(** A request: its registry id, its [RequestCompletion], the state of its task and of its
    future.  A streamed request waits for its start signal, [start_sent] or
    [sender_dropped]; [stream_open] tells that its task produced the streamed response, which shares
    the completion.  [callback_lost]: the callback object could not be created; [loop_refused]:
    a call for the future was not scheduled, or dropped by a loop that closed. *)
Record Request := {
  req_id : Z;
  streaming : bool;
  completion_finished : bool;
  spawned : bool;
  launched : bool;
  registered : bool;
  abort_requested : bool;
  start_sent : bool;
  sender_dropped : bool;
  receiver_dropped : bool;
  stream_open : bool;
  callback_added : bool;
  spawn_failed : bool;
  callback_lost : bool;
  loop_refused : bool;
  future : FutureState;
}.
#[export] Instance eta_Request : Eta Request := fun r =>
  Build_Request (req_id r) (streaming r) (completion_finished r) (spawned r) (launched r) (registered r) (abort_requested r)
    (start_sent r) (sender_dropped r) (receiver_dropped r) (stream_open r) (callback_added r) (spawn_failed r)
    (callback_lost r) (loop_refused r) (future r).

(** [AsyncRequestRegistry], with the requests by index. *)
Record Registry := {
  active : gmap Z nat;
  next_request_id : Z;
  reqs : list Request;
}.
#[export] Instance eta_Registry : Eta Registry := fun c => Build_Registry (active c) (next_request_id c) (reqs c).

Inductive Action :=
(** [spawn_async_request], [spawn_async_stream_request] *)
| SpawnNext (stream : bool)
| SpawnCount (k : nat)
| SpawnTask (k : nat)
| Register (k : nat)
| CheckFinished (k : nat)
| Unregister (k : nat)
| AddCallback (k : nat)
| SendStart (k : nat)
| DropStart (k : nat)
(** the task *)
| TaskStart (k : nat)
| AwaitStart (k : nat)
| TaskRun (k : nat)
| TaskFinish (k : nat) (ok : bool)
| TaskRemove (k : nat)
| FinishFailed (k : nat)
| MetricFinish (k : nat) (failed : bool)
| Complete (k : nat) (ok : bool)
(** the event loop *)
| SetIfPending (k : nat) (ok : bool)
| CancelHandle (k : nat)
| LoopCancel (k : nat)
| Callback (k : nat)
(** aborts *)
| AbortRequest (k : nat)
| AbortFinish (k : nat) (cancel_python : bool)
| CancelTelemetry (k : nat)
| AbortTask (k : nat)
| CancelFuture (k : nat)
| AbortAll
(** the end of a streamed response *)
| StreamEnd (k : nat) (failed : bool).

Inductive Log :=
| RequestStarted (k : nat)
| RequestFinished (k : nat) (failed : bool)
| TelemetryCancelled (k : nat).

(** What [Py::new] and [add_done_callback] answer. *)
Inductive CallbackAnswer := Added | NotCreated | AddRaised.

(** What a step finds: whether there is a running loop and a future, what adding the
    callback does, the result of the request, whether the task notices an abort, and
    whether the loop takes a call, or runs the one it has. *)
Record StepInput := {
  future_created : bool;
  callback : CallbackAnswer;
  result_ok : bool;
  notices_abort : bool;
  loop_takes : bool;
}.

Definition new_request (id : Z) (stream : bool) : Request :=
  {| req_id := id; streaming := stream; completion_finished := false; spawned := false; launched := false; registered := false;
     abort_requested := false; start_sent := false; sender_dropped := false; receiver_dropped := false; stream_open := false; callback_added := false;
     spawn_failed := false; callback_lost := false; loop_refused := false; future := FuturePending |}.

(** An update of one request. *)
Definition on_request (k : nat) (f : Request -> Request) (c : Registry) : Registry := c <| reqs ::= alter f k |>.

(** [RequestCompletion::finish], with what follows a first and a later finish. *)
Definition finish_completion (k : nat) (first later : list Action) (c : Registry) : option (list Action * Registry * list Log) :=
  match reqs c !! k with
  | Some r =>
      if completion_finished r then Some (later, c, [])
      else Some (first, on_request k (fun r => r <| completion_finished := true |>) c, [])
  | None => None
  end.

(** [remove] of the id of request [k]. *)
Definition unregister (k : nat) (c : Registry) : Registry :=
  match reqs c !! k with Some r => c <| active ::= delete (req_id r) |> | None => c end.

(** [abort_request]: the request found under the id. *)
Definition abort_request (k : nat) (c : Registry) : list Action * Registry :=
  match r ← reqs c !! k; active c !! req_id r with
  | Some k' => ([AbortFinish k' false], unregister k c)
  | None => ([], c)
  end.

(** [abort_all]: the drained requests, in the map's order. *)
Definition abort_all (c : Registry) : list Action * Registry :=
  ((fun x : Z * nat => AbortFinish (snd x) true) <$> map_to_list (active c), c <| active := ∅ |>).

(** The first poll of a task: an aborted one is dropped. *)
Definition task_start (inp : StepInput) (k : nat) (r : Request) (c : Registry) : list Action * Registry :=
  if abort_requested r && notices_abort inp then ([], on_request k (fun r => r <| receiver_dropped := true |>) c)
  else ([if streaming r then AwaitStart k else TaskRun k], c).

(** The awaits of a task: for the start signal and for the response. *)
Definition await_start (inp : StepInput) (k : nat) (r : Request) (c : Registry) : option (list Action * Registry * list Log) :=
  if abort_requested r && notices_abort inp then Some ([], on_request k (fun r => r <| receiver_dropped := true |>) c, [])
  else if start_sent r then Some ([TaskRun k], c, [])
  else if sender_dropped r then Some ([], on_request k (fun r => r <| receiver_dropped := true |>) c, [])
  else None.

Definition task_run (inp : StepInput) (k : nat) (r : Request) (c : Registry) : list Action * Registry :=
  let ok := result_ok inp in
  if abort_requested r && notices_abort inp then ([], c)
  else if streaming r then
    ([TaskRemove k] ++ (if ok then [] else [FinishFailed k]) ++ [Complete k ok],
     if ok then on_request k (fun r => r <| stream_open := true |>) c else c)
  else ([TaskFinish k ok], c).

(** The callback is created and added, and what follows in either spawn: an error of
    [Py::new] returns at once, one of [add_done_callback] aborts the request; both drop the
    start sender. *)
Definition add_callback (inp : StepInput) (k : nat) (r : Request) (c : Registry) : list Action * Registry :=
  match callback inp with
  | Added =>
      ((if streaming r then [SendStart k] else []) ++ (match future r with FutureCancelled => [Callback k] | _ => [] end),
       on_request k (fun r => r <| callback_added := true |>) c)
  | NotCreated =>
      (if streaming r then [DropStart k] else [],
       on_request k (fun r => r <| spawn_failed := true |> <| callback_lost := true |>) c)
  | AddRaised =>
      ([AbortRequest k] ++ (if streaming r then [DropStart k] else []), on_request k (fun r => r <| spawn_failed := true |>) c)
  end.

(** A call that the loop does not take, its error written as unraisable, or drops. *)
Definition refuse (k : nat) (c : Registry) : Registry := on_request k (fun r => r <| loop_refused := true |>) c.

(** A streamed response nobody gets is dropped. *)
Definition drop_response (k : nat) (ok : bool) (r : Request) : list Action := if ok && streaming r then [StreamEnd k true] else [].

(** [set_result_if_pending], [set_exception_if_pending]. *)
Definition set_if_pending (inp : StepInput) (k : nat) (ok : bool) (r : Request) (c : Registry) : list Action * Registry :=
  if loop_takes inp then
    match future r with
    | FuturePending => ([], on_request k (fun r => r <| future := FutureResolved ok |>) c)
    | _ => (drop_response k ok r, c)
    end
  else (drop_response k ok r, refuse k c).

(** [Future.cancel]: the callback is scheduled, if the loop takes it. *)
Definition loop_cancel (inp : StepInput) (k : nat) (r : Request) (c : Registry) : list Action * Registry :=
  match future r with
  | FuturePending =>
      (if callback_added r && loop_takes inp then [Callback k] else [], on_request k (fun r => r <| future := FutureCancelled |>) c)
  | _ => ([], c)
  end.

(** A spawn begins: its request has the next id.  Without a running loop or a future it
    fails before. *)
Definition spawn_next (inp : StepInput) (stream : bool) (c : Registry) : list Action * Registry :=
  if future_created inp then
    ([SpawnCount (length (reqs c))],
     c <| next_request_id := (next_request_id c + 1) mod (U64_MAX + 1) |>
       <| reqs ::= fun l => l ++ [new_request (next_request_id c) stream] |>)
  else ([], c).

Definition register (k : nat) (r : Request) (c : Registry) : list Action * Registry :=
  ([CheckFinished k], on_request k (fun r => r <| registered := true |>) (c <| active ::= <[req_id r := k]> |>)).

(** A request whose task was faster than its registration. *)
Definition check_finished (k : nat) (r : Request) : list Action :=
  (if completion_finished r then [Unregister k] else []) ++ [AddCallback k].

(** The signal that starts the task of a streamed request. *)
Definition send_start (k : nat) (r : Request) (c : Registry) : list Action * Registry :=
  if receiver_dropped r then ([AbortRequest k], on_request k (fun r => r <| sender_dropped := true |> <| spawn_failed := true |>) c)
  else ([], on_request k (fun r => r <| start_sent := true |>) c).

(** The task of [spawn_async_request] after its result, and that of
    [spawn_async_stream_request] if it failed. *)
Definition task_finish (k : nat) (ok : bool) (c : Registry) : option (list Action * Registry * list Log) :=
  finish_completion k [TaskRemove k; MetricFinish k (negb ok); Complete k ok] [] c.

Definition finish_failed (k : nat) (c : Registry) : option (list Action * Registry * list Log) :=
  finish_completion k [MetricFinish k true] [] c.

(** [complete_python_future], [complete_python_stream_future]: what is scheduled on the loop. *)
Definition complete_python_future (inp : StepInput) (k : nat) (ok : bool) (r : Request) (c : Registry) : list Action * Registry :=
  if loop_takes inp then ([SetIfPending k ok], c) else (drop_response k ok r, refuse k c).

Definition cancel_python_future (inp : StepInput) (k : nat) (c : Registry) : list Action * Registry :=
  if loop_takes inp then ([CancelHandle k], c) else ([], refuse k c).

Definition cancel_handle (inp : StepInput) (k : nat) (c : Registry) : list Action * Registry :=
  if loop_takes inp then ([LoopCancel k], c) else ([], refuse k c).

(** [PythonFutureCancellation.__call__]. *)
Definition future_done (inp : StepInput) (k : nat) (r : Request) : list Action :=
  match future r with FutureCancelled => if loop_takes inp then [AbortRequest k] else [] | _ => [] end.

(** [abort] and [abort_and_cancel_python]. *)
Definition abort_python (k : nat) (cancel_python : bool) (c : Registry) : option (list Action * Registry * list Log) :=
  let cancel := if cancel_python then [CancelFuture k] else [] in
  finish_completion k ([CancelTelemetry k; AbortTask k; MetricFinish k true] ++ cancel) cancel c.

Definition act (inp : StepInput) (a : Action) (c : Registry) : option (list Action * Registry * list Log) :=
  match a with
  | SpawnNext stream => let (todo, c) := spawn_next inp stream c in Some (todo, c, [])
  | SpawnCount k => Some ([SpawnTask k], c, [RequestStarted k])
  | SpawnTask k => Some ([Register k], on_request k (fun r => r <| spawned := true |>) c, [])
  | Register k => r ← reqs c !! k; let (todo, c) := register k r c in Some (todo, c, [])
  | CheckFinished k => r ← reqs c !! k; Some (check_finished k r, c, [])
  | Unregister k => Some ([], unregister k c, [])
  | AddCallback k => r ← reqs c !! k; let (todo, c) := add_callback inp k r c in Some (todo, c, [])
  | SendStart k => r ← reqs c !! k; let (todo, c) := send_start k r c in Some (todo, c, [])
  | DropStart k => Some ([], on_request k (fun r => r <| sender_dropped := true |>) c, [])
  | TaskStart k => r ← reqs c !! k; let (todo, c) := task_start inp k r c in Some (todo, c, [])
  | AwaitStart k => r ← reqs c !! k; await_start inp k r c
  | TaskRun k => r ← reqs c !! k; let (todo, c) := task_run inp k r c in Some (todo, c, [])
  | TaskFinish k ok => task_finish k ok c
  | TaskRemove k => Some ([], unregister k c, [])
  | FinishFailed k => finish_failed k c
  | MetricFinish k failed => Some ([], c, [RequestFinished k failed])
  | Complete k ok => r ← reqs c !! k; let (todo, c) := complete_python_future inp k ok r c in Some (todo, c, [])
  | SetIfPending k ok => r ← reqs c !! k; let (todo, c) := set_if_pending inp k ok r c in Some (todo, c, [])
  | LoopCancel k => r ← reqs c !! k; let (todo, c) := loop_cancel inp k r c in Some (todo, c, [])
  | Callback k => r ← reqs c !! k; Some (future_done inp k r, c, [])
  | AbortRequest k => let (todo, c) := abort_request k c in Some (todo, c, [])
  | AbortFinish k cancel_python => abort_python k cancel_python c
  | CancelTelemetry k => Some ([], c, [TelemetryCancelled k])
  | AbortTask k => Some ([], on_request k (fun r => r <| abort_requested := true |>) c, [])
  | CancelFuture k => let (todo, c) := cancel_python_future inp k c in Some (todo, c, [])
  | CancelHandle k => let (todo, c) := cancel_handle inp k c in Some (todo, c, [])
  | AbortAll => let (todo, c) := abort_all c in Some (todo, c, [])
  | StreamEnd k failed => finish_completion k [MetricFinish k failed] [] c
  end.

(** The operations a step is made of. *)
Ltac unfold_ops H :=
  unfold spawn_next, register, check_finished, send_start, task_finish, finish_failed, complete_python_future, cancel_python_future,
    future_done, abort_python, task_start, await_start, task_run, add_callback, finish_completion, set_if_pending, loop_cancel,
    cancel_handle, drop_response, refuse in H.

Abbreviation System := (Tasks.System Action Registry Log).
Abbreviation registry := (@Tasks.state Action Registry Log).
Abbreviation tasks := (@Tasks.tasks Action Registry Log).
Abbreviation log := (@Tasks.log Action Registry Log).
Abbreviation task_move := (Tasks.task_move act).

(** A request is spawned, the runtime first polls its task, its future is cancelled, its
    streamed response ends, or the client closes. *)
Inductive system_step (s : System) : System -> Prop :=
| step_spawn stream : system_step s (s <| tasks ::= fun ts => ts ++ [[SpawnNext stream]] |>)
| step_launch k r : reqs (registry s) !! k = Some r -> spawned r = true -> launched r = false ->
    system_step s (s <| state ::= on_request k (fun r => r <| launched := true |>) |> <| tasks ::= fun ts => ts ++ [[TaskStart k]] |>)
| step_cancel k : (k < length (reqs (registry s)))%nat -> system_step s (s <| tasks ::= fun ts => ts ++ [[LoopCancel k]] |>)
| step_stream_end k r failed : reqs (registry s) !! k = Some r -> stream_open r = true ->
    system_step s (s <| tasks ::= fun ts => ts ++ [[StreamEnd k failed]] |>)
| step_close : system_step s (s <| tasks ::= fun ts => ts ++ [[AbortAll]] |>)
| step_task s' : task_move s s' -> system_step s s'.

Definition initial : System := Build_System {| active := ∅; next_request_id := 0; reqs := [] |} [] [].

Definition reachable : System -> Prop := rtc system_step initial.

(** ** What is pending for a request *)

Definition index (a : Action) : option nat :=
  match a with
  | SpawnNext _ | AbortAll => None
  | SpawnCount k | SpawnTask k | Register k | CheckFinished k | Unregister k | AddCallback k | SendStart k | DropStart k
  | TaskStart k | AwaitStart k | TaskRun k | TaskFinish k _ | TaskRemove k | FinishFailed k | MetricFinish k _ | Complete k _
  | SetIfPending k _ | CancelHandle k | LoopCancel k | Callback k | AbortRequest k | AbortFinish k _ | CancelTelemetry k | AbortTask k
  | CancelFuture k | StreamEnd k _ => Some k
  end.

Definition about (k : nat) (a : Action) : bool := match index a with Some j => Nat.eqb j k | None => false end.

(** Actions that come after the registration of a request. *)
Definition after_register (k : nat) (stream : bool) (a : Action) : bool :=
  about k a && match a with
               | CheckFinished _ | Unregister _ | AddCallback _ | SendStart _ | DropStart _ | AbortRequest _ | AbortFinish _ _
               | FinishFailed _ | Callback _ => true
               | TaskRun _ | TaskRemove _ => stream
               | _ => false
               end.

(** The caller on its way to the start signal. *)
Definition on_start (k : nat) (a : Action) : bool :=
  about k a && match a with
               | SpawnCount _ | SpawnTask _ | Register _ | CheckFinished _ | AddCallback _ | SendStart _ | DropStart _ => true
               | _ => false
               end.

(** A task that has not come to its result. *)
Definition on_task (k : nat) (a : Action) : bool :=
  about k a && match a with
               | TaskStart _ | AwaitStart _ | TaskRun _ | TaskFinish _ _ | FinishFailed _ => true
               | _ => false
               end.

(** The check after the registration, for a request that is finished already. *)
Definition checking (k : nat) (a : Action) : bool :=
  about k a && match a with CheckFinished _ | Unregister _ => true | _ => false end.

(** Actions that resolve or cancel the future. *)
Definition resolving (k : nat) (a : Action) : bool :=
  about k a && match a with Complete _ _ | SetIfPending _ _ | CancelFuture _ | CancelHandle _ | LoopCancel _ => true | _ => false end.

(** Actions taken for a future that is resolved, or for a spawn that fails. *)
Definition resolved_before (k : nat) (a : Action) : bool :=
  about k a && match a with FinishFailed _ | AbortRequest _ | AbortFinish _ false => true | _ => false end.

(** Actions of an open stream. *)
Definition of_stream (k : nat) (stream : bool) (a : Action) : bool :=
  about k a && match a with StreamEnd _ _ => true | Complete _ ok | SetIfPending _ ok => ok && stream | _ => false end.

Definition is_aborting (k : nat) (a : Action) : bool := about k a && match a with AbortFinish _ _ => true | _ => false end.
Definition is_finish (k : nat) (a : Action) : bool := about k a && match a with TaskFinish _ _ => true | _ => false end.
Definition is_awaiting (k : nat) (a : Action) : bool := about k a && match a with AwaitStart _ => true | _ => false end.
Definition is_failing (k : nat) (a : Action) : bool := about k a && match a with FinishFailed _ => true | _ => false end.
Definition is_removing (k : nat) (a : Action) : bool := about k a && match a with TaskRemove _ => true | _ => false end.
Definition is_unregister (k : nat) (a : Action) : bool := about k a && match a with Unregister _ => true | _ => false end.
Definition is_requesting (k : nat) (a : Action) : bool := about k a && match a with AbortRequest _ => true | _ => false end.
Definition is_dropping (k : nat) (a : Action) : bool := about k a && match a with DropStart _ => true | _ => false end.
Definition is_starting (k : nat) (a : Action) : bool := about k a && match a with SendStart _ | DropStart _ => true | _ => false end.
Definition is_task_abort (k : nat) (a : Action) : bool := about k a && match a with AbortTask _ => true | _ => false end.

Definition in_registry (k : nat) (r : Request) (c : Registry) : bool := bool_decide (active c !! req_id r = Some k).

Definition is_pending (f : FutureState) : bool := match f with FuturePending => true | _ => false end.

(** The invariant of a request, given the pending actions. *)
Record request_inv (p : list Action) (c : Registry) (k : nat) (r : Request) : Prop := {
  ri_in : in_registry k r c = true -> registered r = true;
  ri_after : existsb (after_register k (streaming r)) p = true -> registered r = true;
  ri_flags : start_sent r || sender_dropped r || stream_open r || callback_added r = true -> registered r = true;
  ri_stream : existsb (of_stream k (streaming r)) p = true -> stream_open r = true;
  ri_open : stream_open r = true -> streaming r = true;
  ri_plain : existsb (is_finish k) p = true -> streaming r = false;
  ri_aborting : existsb (is_aborting k) p = true -> in_registry k r c = false;
  ri_finished : completion_finished r = true -> in_registry k r c = true ->
    existsb (checking k) p = true \/ existsb (is_removing k) p = true;
  ri_removed : stream_open r = true \/ existsb (is_failing k) p = true -> in_registry k r c = true ->
    existsb (is_removing k) p = true;
  ri_removing : existsb (is_removing k) p = true ->
    completion_finished r = true \/ stream_open r = true \/ existsb (is_failing k) p = true;
  ri_unregister : existsb (is_unregister k) p = true -> completion_finished r = true;
  ri_resolved : completion_finished r = true \/ stream_open r = true \/ existsb (resolved_before k) p = true ->
    is_pending (future r) = false \/ spawn_failed r = true \/ loop_refused r = true \/ existsb (resolving k) p = true;
  ri_owned : registered r = true -> in_registry k r c = true \/ completion_finished r = true \/
    existsb (is_aborting k) p = true \/ stream_open r = true \/ existsb (is_failing k) p = true;
  ri_launched : launched r = true -> completion_finished r = true \/ stream_open r = true \/
    existsb (on_task k) p = true \/ sender_dropped r = true;
  ri_aborted : abort_requested r = true \/ existsb (is_task_abort k) p = true -> completion_finished r = true;
  ri_dropped : sender_dropped r = true \/ existsb (is_dropping k) p = true -> in_registry k r c = true ->
    callback_lost r = true \/ existsb (is_requesting k) p = true;
  ri_sender : sender_dropped r = true \/ existsb (is_starting k) p = true -> streaming r = true;
  ri_lost : callback_lost r = true -> spawn_failed r = true;
  ri_awaiting : existsb (is_awaiting k) p = true -> streaming r = true;
  ri_waiting : streaming r = true -> start_sent r = true \/ sender_dropped r = true \/ existsb (on_start k) p = true;
}.

(** *** Requests and their ids *)

Definition small (c : Registry) : Prop := Z.of_nat (length (reqs c)) <= U64_MAX + 1.

Record ids_ok (c : Registry) : Prop := {
  id_next : next_request_id c = Z.of_nat (length (reqs c)) mod (U64_MAX + 1);
  id_of : forall k r, reqs c !! k = Some r -> req_id r = Z.of_nat k mod (U64_MAX + 1);
  id_active : forall id k, active c !! id = Some k -> exists r, reqs c !! k = Some r /\ req_id r = id;
}.

Lemma ids_distinct c j k r r' : ids_ok c -> small c -> reqs c !! j = Some r -> reqs c !! k = Some r' -> req_id r = req_id r' -> j = k.
Proof.
  intros [] Hs Hj Hk E. rewrite (id_of0 _ _ Hj), (id_of0 _ _ Hk) in E. apply lookup_lt_Some in Hj, Hk. unfold small in Hs.
  rewrite !Z.mod_small in E by lia. lia.
Qed.

Lemma on_request_lookup j k f c : reqs (on_request j f c) !! k = (if Nat.eqb j k then f <$> reqs c !! k else reqs c !! k).
Proof.
  cbn. destruct (Nat.eqb_spec j k) as [->|Hjk]; [by rewrite list_lookup_alter_eq|by rewrite list_lookup_alter_ne].
Qed.

(** An update that leaves the id alone. *)
Lemma ids_ok_on_request j f c : (forall r, req_id (f r) = req_id r) -> ids_ok c -> ids_ok (on_request j f c).
Proof.
  intros Hf []. split.
  - cbn. by rewrite length_alter.
  - intros k r. rewrite on_request_lookup. destruct (Nat.eqb j k); [|apply id_of0].
    intros (r0 & Hr & ->)%fmap_Some. rewrite Hf. by apply id_of0.
  - intros id k Hid. destruct (id_active0 id k Hid) as (r & Hr & <-). rewrite on_request_lookup, Hr.
    destruct (Nat.eqb j k); cbn; eauto.
Qed.

(** *** Steps of other requests *)

Lemma existsb_not_about k (g : Action -> bool) l : existsb (about k) l = false -> existsb (fun a => about k a && g a) l = false.
Proof. induction l as [|a l IH]; [done|]. cbn. intros [-> Hl]%orb_false_iff. cbn. auto. Qed.

Ltac unfold_kinds := unfold after_register, of_stream, is_aborting, checking, is_removing, is_finish, is_awaiting, is_failing, is_unregister, resolved_before,
  resolving, on_task, is_task_abort, is_dropping, is_starting, is_requesting, on_start in *.

Lemma request_inv_frame old todo p c c' k r :
  existsb (about k) old = false -> existsb (about k) todo = false -> in_registry k r c' = in_registry k r c ->
  request_inv (old ++ p) c k r -> request_inv (todo ++ p) c' k r.
Proof.
  intros Hd Ht Hr H.
  assert (E : forall g, existsb (fun a => about k a && g a) (todo ++ p) = existsb (fun a => about k a && g a) (old ++ p)).
  { intros g. rewrite !existsb_app, (existsb_not_about k g old), (existsb_not_about k g todo); done. }
  destruct H. split; unfold_kinds; rewrite ?Hr, ?E; assumption.
Qed.

(** *** Steps of the request itself *)

#[local] Arguments about k !a /.
#[local] Arguments after_register k stream !a /.
#[local] Arguments of_stream k stream !a /.
#[local] Arguments is_aborting k !a /.
#[local] Arguments checking k !a /.
#[local] Arguments is_removing k !a /.
#[local] Arguments is_finish k !a /.
#[local] Arguments is_awaiting k !a /.
#[local] Arguments is_failing k !a /.
#[local] Arguments is_unregister k !a /.
#[local] Arguments resolved_before k !a /.
#[local] Arguments resolving k !a /.
#[local] Arguments on_task k !a /.
#[local] Arguments is_task_abort k !a /.
#[local] Arguments is_dropping k !a /.
#[local] Arguments is_requesting k !a /.
#[local] Arguments is_starting k !a /.
#[local] Arguments on_start k !a /.

(** Actions that come after the registration. *)
Lemma not_registered_none p c k r : request_inv p c k r -> registered r = false ->
  existsb (is_aborting k) p = false /\ existsb (is_failing k) p = false /\ existsb (is_dropping k) p = false /\
  existsb (is_unregister k) p = false /\ existsb (after_register k (streaming r)) p = false /\
  start_sent r = false /\ sender_dropped r = false /\ stream_open r = false /\ callback_added r = false.
Proof.
  intros [Hin Ha Hf _ _ _ _ _ _ _ _ _ _ _ _ _ _ _ _ _] Hr. rewrite Hr in *.
  assert (Hn : existsb (after_register k (streaming r)) p = false) by (destruct (existsb _ p); [by specialize (Ha eq_refl)|done]).
  assert (Hg : forall g : Action -> bool, (forall a, g a = true -> after_register k (streaming r) a = true) -> existsb g p = false).
  { intros g Hg. apply not_true_iff_false. intros (a & Hp & Hga)%existsb_exists. apply not_true_iff_false in Hn.
    apply Hn, existsb_exists. eauto. }
  destruct (start_sent r), (sender_dropped r), (stream_open r), (callback_added r); try (specialize (Hf eq_refl); done).
  repeat split; try done; apply Hg; intros []; cbn; try done; destruct (Nat.eqb _ _); done.
Qed.

(** Compute which kinds of action the pending ones are and what becomes of the registry: in
    the fields of the invariant, then in the goals. *)
Ltac kinds_before :=
  unfold in_registry in *; cbn in *; rewrite ?Nat.eqb_refl in *; cbn in *; rewrite ?orb_true_iff, ?andb_true_iff in *;
  repeat match goal with
  | E : streaming ?r = _, H : context [streaming ?r] |- _ => lazymatch type of H with streaming _ = _ => fail | _ => rewrite E in H end
  | E : future ?r = _, H : context [future ?r] |- _ => lazymatch type of H with future _ = _ => fail | _ => rewrite E in H end
  end; cbn in *.

Ltac kinds_after :=
  unfold in_registry; cbn; rewrite ?Nat.eqb_refl; cbn; rewrite ?lookup_insert_eq, ?lookup_delete_eq, ?orb_true_iff, ?andb_true_iff;
  repeat match goal with
  | |- context [bool_decide (Some ?k = Some ?k)] => rewrite (bool_decide_true (Some k = Some k)) by done
  | |- context [bool_decide (None = Some ?k)] => rewrite (bool_decide_false (None = Some k)) by done
  | E : streaming ?r = _ |- context [streaming ?r] => rewrite E
  | E : future ?r = _ |- context [future ?r] => rewrite E
  end; cbn.

Ltac pick_goal := first [reflexivity | assumption | left; pick_goal | right; pick_goal | split; pick_goal].

(** Forward chaining over the fields of the invariant. *)
Ltac chain_step :=
  match goal with
  | H : false = true |- _ => discriminate H
  | H : true = false |- _ => discriminate H
  | H : ?x = true, H1 : ?x = false |- _ => rewrite H in H1; discriminate H1
  | H : true = true |- _ => clear H
  | H : _ /\ _ |- _ => destruct H
  | H : true = true -> _ |- _ => specialize (H eq_refl)
  | H : false = true -> _ |- _ => clear H
  | H : ?A \/ ?B -> ?C |- _ => assert (A -> C) by (intros ?; apply H; left; assumption); assert (B -> C) by (intros ?; apply H; right; assumption); clear H
  | H : ?A /\ ?B -> ?C |- _ => assert (A -> B -> C) by (intros ? ?; apply H; split; assumption); clear H
  | H : ?A -> ?B, H1 : ?A |- _ => match type of A with Prop => specialize (H H1) end
  end.

Ltac chain :=
  repeat chain_step; try pick_goal;
  match goal with H : _ \/ _ |- _ => destruct H; chain end.

Ltac solve_request := kinds_before; split; kinds_after; try assumption; intros; try solve [chain].

(** A step of request [r], each way it can go. *)
Ltac own_step r Hr Hact Hinv :=
  unfold_ops Hact; unfold unregister in Hact; rewrite ?Hr in Hact;
  repeat match type of Hact with
  | context [if ?b then _ else _] => let E := fresh "E" in destruct b eqn:E
  | context [match ?x with Added => _ | NotCreated => _ | AddRaised => _ end] => destruct x eqn:?
  | context [match future r with FutureCancelled => _ | _ => _ end] => destruct (future r) eqn:?
  | context [match future r with FuturePending => _ | _ => _ end] => destruct (future r) eqn:?
  end;
  try discriminate Hact; injection Hact as <- <- <-;
  eexists; (split; [first [exact Hr | rewrite on_request_lookup, Nat.eqb_refl, Hr; reflexivity]|]); destruct Hinv;
  solve_request.

Lemma abort_request_own k r c : ids_ok c -> small c -> reqs c !! k = Some r ->
  abort_request k c = if in_registry k r c then ([AbortFinish k false], unregister k c) else ([], c).
Proof.
  intros Hids Hsmall Hr. unfold abort_request, in_registry. rewrite Hr. cbn. destruct (active c !! req_id r) as [k'|] eqn:Hk.
  - destruct (id_active _ Hids _ _ Hk) as (r' & Hr' & E). pose proof (ids_distinct _ _ _ _ _ Hids Hsmall Hr' Hr E) as ->.
    by rewrite bool_decide_true.
  - by rewrite bool_decide_false.
Qed.

Lemma act_own inp a c todo c' l k r p :
  ids_ok c -> small c -> index a = Some k -> reqs c !! k = Some r -> act inp a c = Some (todo, c', l) ->
  (a = Register k -> registered r = false) -> request_inv (a :: p) c k r ->
  exists r', reqs c' !! k = Some r' /\ request_inv (todo ++ p) c' k r'.
Proof.
  intros Hids Hsmall Hi Hr Hact Hreg Hinv. destruct a; cbn in Hi; try done; injection Hi as ->; cbn [act] in Hact;
  rewrite ?Hr in Hact; cbn [mbind option_bind] in Hact; try (rewrite (abort_request_own k r c Hids Hsmall Hr) in Hact);
  try (match goal with H : context [register] |- _ => fail 1 | |- _ => own_step r Hr Hact Hinv end).
  unfold register in Hact. injection Hact as <- <- <-. eexists. rewrite on_request_lookup, Nat.eqb_refl. cbn [reqs]. split; [cbn; rewrite Hr; reflexivity|].
  pose proof (not_registered_none _ _ _ _ Hinv (Hreg eq_refl)) as (E1 & E2 & E3 & E4 & E5 & E6 & E7 & E8 & E9). destruct Hinv. solve_request.
Qed.

(** What a step of one request leaves alone. *)
Lemma act_shape inp a c todo c' l k r :
  ids_ok c -> small c -> index a = Some k -> reqs c !! k = Some r -> act inp a c = Some (todo, c', l) ->
  Forall (fun b => index b = Some k) todo /\ (exists f, (forall r0, req_id (f r0) = req_id r0) /\ reqs c' = alter f k (reqs c)) /\
  next_request_id c' = next_request_id c /\
  (active c' = active c \/ active c' = delete (req_id r) (active c) \/ active c' = <[req_id r := k]> (active c)).
Proof.
  intros Hids Hsmall Hi Hr Hact. destruct a; cbn in Hi; try done; injection Hi as ->; cbn [act] in Hact;
  rewrite ?Hr in Hact; cbn [mbind option_bind] in Hact; try (rewrite (abort_request_own k r c Hids Hsmall Hr) in Hact);
  unfold_ops Hact; unfold unregister in Hact; rewrite ?Hr in Hact;
  repeat match type of Hact with
  | context [if ?b then _ else _] => let E := fresh "E" in destruct b eqn:E
  | context [match ?x with Added => _ | NotCreated => _ | AddRaised => _ end] => destruct x eqn:?
  | context [match future r with FutureCancelled => _ | _ => _ end] => destruct (future r) eqn:?
  | context [match future r with FuturePending => _ | _ => _ end] => destruct (future r) eqn:?
  end;
  try discriminate Hact; injection Hact as <- <- <-; cbn; (split; [repeat constructor|]);
  (split; [first [by exists id; rewrite list_alter_id | eexists; split; [|reflexivity]; done]|split; auto]).
Qed.

Lemma act_ids_ok inp a c todo c' l k r :
  ids_ok c -> small c -> index a = Some k -> reqs c !! k = Some r -> act inp a c = Some (todo, c', l) -> ids_ok c'.
Proof.
  intros Hids Hsmall Hi Hr Hact. destruct (act_shape _ _ _ _ _ _ _ _ Hids Hsmall Hi Hr Hact) as (_ & (f & Hf & Hl) & Hn & Hm).
  pose proof (ids_ok_on_request k f c Hf Hids) as [H1 H2 H3]. cbn in H1, H2, H3. rewrite <- Hl in H1, H2, H3.
  split; [by rewrite Hn|exact H2|]. intros id j. destruct Hm as [-> | [-> | ->]]; [apply H3| |].
  - intros [_ Hj]%lookup_delete_Some. by apply H3.
  - intros [[<- <-]|[_ Hj]]%lookup_insert_Some; [|by apply H3]. exists (f r). by rewrite Hl, list_lookup_alter_eq, Hr, Hf.
Qed.

Lemma act_other inp a c todo c' l k r j r' p :
  ids_ok c -> small c -> index a = Some k -> reqs c !! k = Some r -> act inp a c = Some (todo, c', l) -> j <> k ->
  reqs c' !! j = Some r' -> (forall r0, reqs c !! j = Some r0 -> request_inv (a :: p) c j r0) -> request_inv (todo ++ p) c' j r'.
Proof.
  intros Hids Hsmall Hi Hr Hact Hjk Hj Hinv.
  destruct (act_shape _ _ _ _ _ _ _ _ Hids Hsmall Hi Hr Hact) as (Ht & (f & Hf & Hl) & _ & Hm).
  rewrite Hl, list_lookup_alter_ne in Hj by done.
  assert (Hne : req_id r' <> req_id r) by (intros E; by pose proof (ids_distinct _ _ _ _ _ Hids Hsmall Hj Hr E)).
  apply (request_inv_frame [a] _ _ c); [| | |by apply Hinv].
  - cbn. rewrite orb_false_r. unfold about. rewrite Hi. by apply Nat.eqb_neq.
  - apply not_true_iff_false. intros (b & Hb & Hab)%existsb_exists. apply list_elem_of_In in Hb.
    eapply Forall_forall in Ht; [|exact Hb]. unfold about in Hab. rewrite Ht in Hab. by apply Nat.eqb_eq in Hab.
  - unfold in_registry. destruct Hm as [-> | [-> | ->]]; [done|by rewrite lookup_delete_ne|by rewrite lookup_insert_ne].
Qed.

(** The pending actions of a request, in any order. *)
Lemma request_inv_pending p p' c k r :
  (forall f : Action -> bool, existsb f p = existsb f p') -> request_inv p c k r -> request_inv p' c k r.
Proof. intros E H. destruct H. split; rewrite <- ?E; assumption. Qed.

Lemma existsb_middle {A} (f : A -> bool) before a rest after :
  existsb f (before ++ a :: rest ++ after) = existsb f (a :: before ++ rest ++ after).
Proof. rewrite !existsb_app. cbn. rewrite !existsb_app. destruct (existsb f before), (f a); done. Qed.

Lemma existsb_todo_first {A} (f : A -> bool) before todo rest after :
  existsb f (todo ++ before ++ rest ++ after) = existsb f (before ++ todo ++ rest ++ after).
Proof. rewrite !existsb_app. destruct (existsb f before), (existsb f todo); done. Qed.

(** ** The invariant of the system *)

(** The caller that has not registered its request yet. *)
Definition spawning (k : nat) : Ledger Action Registry Log :=
  {| owed a := match a with SpawnCount j | SpawnTask j | Register j => b2z (Nat.eqb j k) | _ => 0 end;
     paid _ := 0;
     held c := match reqs c !! k with Some r => b2z (negb (registered r)) | None => 0 end |}.

Record system_inv (s : System) : Prop := {
  si_ids : ids_ok (registry s);
  si_index : Forall (fun a => forall k, index a = Some k -> (k < length (reqs (registry s)))%nat) (actions s);
  si_requests : forall k r, reqs (registry s) !! k = Some r -> request_inv (actions s) (registry s) k r;
  si_spawning : forall k, balanced (spawning k) s;
}.

Lemma act_length inp a c todo c' l : act inp a c = Some (todo, c', l) -> (length (reqs c) <= length (reqs c'))%nat.
Proof.
  intros Hact. destruct a; cbn [act] in Hact;
  unfold_ops Hact; unfold abort_request, abort_all, unregister, mbind, option_bind in Hact;
  repeat case_match; try discriminate Hact; simplify_eq; cbn; rewrite ?length_alter, ?length_app; lia.
Qed.

Lemma not_about k p c : Forall (fun a => forall j, index a = Some j -> (j < length (reqs c))%nat) p -> (length (reqs c) <= k)%nat ->
  existsb (about k) p = false.
Proof.
  intros Hp Hk. apply not_true_iff_false. intros (a & Ha & Hab)%existsb_exists. apply list_elem_of_In in Ha.
  eapply Forall_forall in Hp; [|exact Ha]. unfold about in Hab. destruct (index a) as [j|]; [|done]. specialize (Hp j eq_refl).
  apply Nat.eqb_eq in Hab. lia.
Qed.

(** A request that has just been created. *)
Lemma request_inv_new stream p c c' : ids_ok c ->
  Forall (fun a => forall j, index a = Some j -> (j < length (reqs c))%nat) p -> active c' = active c ->
  request_inv (SpawnCount (length (reqs c)) :: p) c' (length (reqs c)) (new_request (next_request_id c) stream).
Proof.
  intros Hids Hp Ha. pose proof (not_about _ _ _ Hp (Nat.le_refl _)) as Hn.
  assert (E : forall g, existsb (fun a => about (length (reqs c)) a && g a) p = false) by (intros g; by apply existsb_not_about).
  assert (Hin : in_registry (length (reqs c)) (new_request (next_request_id c) stream) c' = false).
  { unfold in_registry. rewrite Ha. apply bool_decide_false. intros (r & Hr & _)%(id_active _ Hids). apply lookup_lt_Some in Hr. lia. }
  split; rewrite ?Hin; try done; unfold_kinds; cbn; rewrite ?E, ?Nat.eqb_refl; cbn; intuition congruence.
Qed.

Lemma abort_all_pending c j r (g : Action -> bool) : ids_ok c -> reqs c !! j = Some r ->
  existsb (fun a => about j a && g a) (fst (abort_all c)) = in_registry j r c && g (AbortFinish j true).
Proof.
  intros Hids Hr. apply eq_true_iff_eq. rewrite existsb_exists, andb_true_iff. unfold in_registry. rewrite bool_decide_eq_true. cbn. split.
  - intros (a & Ha & Hg). apply list_elem_of_In, list_elem_of_fmap in Ha as ([id k] & -> & Hid%elem_of_map_to_list).
    cbn in Hg. apply andb_true_iff in Hg as [->%Nat.eqb_eq Hg]. destruct (id_active _ Hids _ _ Hid) as (r' & Hr' & <-).
    rewrite Hr in Hr'. by injection Hr' as <-.
  - intros [Hid Hg]. exists (AbortFinish j true). split; [|cbn; by rewrite Nat.eqb_refl].
    apply list_elem_of_In, list_elem_of_fmap. exists (req_id r, j). split; [done|by apply elem_of_map_to_list].
Qed.

(** Every request of the registry is drained. *)
Lemma request_inv_abort_all c p j r : ids_ok c -> reqs c !! j = Some r -> request_inv (AbortAll :: p) c j r ->
  request_inv (fst (abort_all c) ++ p) (snd (abort_all c)) j r.
Proof.
  intros Hids Hr H. assert (E := fun g => abort_all_pending c j r g Hids Hr).
  assert (Hin : in_registry j r (snd (abort_all c)) = false) by done.
  destruct H. split; rewrite ?Hin; unfold_kinds; rewrite ?existsb_app, ?E; cbn in *; rewrite ?orb_true_iff, ?andb_true_iff; rewrite ?orb_true_iff in *; intros; try solve [chain].
Qed.

Lemma abort_all_ids_ok c : ids_ok c -> ids_ok (snd (abort_all c)).
Proof. intros []. by split. Qed.

Lemma spawn_next_ids_ok stream c : ids_ok c ->
  ids_ok (c <| next_request_id := (next_request_id c + 1) mod (U64_MAX + 1) |>
            <| reqs ::= fun l => l ++ [new_request (next_request_id c) stream] |>).
Proof.
  intros [Hn Ho Ha]. split; cbn.
  - rewrite length_app, Hn. cbn. rewrite Z.add_mod_idemp_l by done. f_equal. lia.
  - intros k r [Hr | [Hk Hr]]%lookup_app_Some; [by apply Ho|]. destruct (k - length (reqs c))%nat as [|m] eqn:Ek; [|done].
    injection Hr as <-. cbn. rewrite Hn. f_equal. lia.
  - intros id k (r & Hr & <-)%Ha. exists r. split; [|done]. by apply lookup_app_l_Some.
Qed.

Lemma lookup_last {A} (l : list A) x k : (l ++ [x]) !! k = if Nat.eqb (length l) k then Some x else l !! k.
Proof.
  destruct (Nat.eqb_spec (length l) k) as [<-|Hk]; [by apply list_lookup_middle|].
  destruct (decide (k < length l)%nat); [by apply lookup_app_l|].
  rewrite lookup_app_r, (lookup_ge_None_2 l) by lia. destruct (k - length l)%nat eqn:E; [lia|done].
Qed.

Lemma abort_all_owes (f : Action -> Z) (m : list (Z * nat)) : (forall j, f (AbortFinish j true) = 0) ->
  sum_over f ((fun x : Z * nat => AbortFinish (snd x) true) <$> m) = 0.
Proof. intros Hf. apply sum_over_zero. intros a (x & -> & _)%list_elem_of_fmap. apply Hf. Qed.

(** Every way a step can go. *)
Ltac act_cases Hact :=
  cbn [act] in Hact;
  unfold_ops Hact; unfold abort_request, abort_all, unregister, mbind, option_bind in Hact;
  repeat case_match; try discriminate Hact; simplify_eq.

(** What a ledger of request [k] holds, before and after. *)
Ltac ledger_cases k :=
  unfold keeps; cbn -[Nat.eqb]; rewrite ?abort_all_owes, ?lookup_last by done;
  try match goal with |- context [alter _ ?j _ !! k] =>
    destruct (decide (j = k)) as [->|]; [rewrite list_lookup_alter_eq|rewrite list_lookup_alter_ne by done] end;
  try match goal with |- context [Nat.eqb ?j k] => destruct (Nat.eqb_spec j k) as [<-|]; [|try lia] end;
  repeat match goal with H : reqs ?c !! k = Some ?r |- context [reqs ?c !! k] => rewrite H end;
  repeat match goal with |- context [match reqs ?c !! ?j with _ => _ end] => destruct (reqs c !! j) eqn:? end;
  rewrite ?Nat.eqb_refl; repeat match goal with H : completion_finished _ = _ |- _ => rewrite H; clear H end; cbn; try lia;
  try match goal with H : reqs ?c !! length (reqs ?c) = Some _ |- _ => by apply lookup_lt_Some, Nat.lt_irrefl in H end.

Lemma spawning_keeps inp a c todo c' l k : act inp a c = Some (todo, c', l) ->
  (forall j, index a = Some j -> (j < length (reqs c))%nat) ->
  (a = Register k -> forall r, reqs c !! k = Some r -> registered r = false) -> keeps (spawning k) a c todo c' l.
Proof.
  intros Hact Hlt Hreg. destruct a; act_cases Hact; ledger_cases k.
  match goal with H : reqs _ !! k = Some ?r |- _ => by rewrite (Hreg eq_refl r H) end.
Qed.

Lemma act_request_inv inp a c todo c' l p j r :
  act inp a c = Some (todo, c', l) -> ids_ok c -> small c' ->
  Forall (fun b => forall i, index b = Some i -> (i < length (reqs c))%nat) (a :: p) ->
  (forall i r0, a = Register i -> reqs c !! i = Some r0 -> registered r0 = false) ->
  (forall i r0, reqs c !! i = Some r0 -> request_inv (a :: p) c i r0) ->
  reqs c' !! j = Some r -> request_inv (todo ++ p) c' j r.
Proof.
  intros Hact Hids Hsmall [Ha Hp]%Forall_cons Hreg Hinv Hj.
  assert (Hc : small c) by (unfold small in *; pose proof (act_length _ _ _ _ _ _ Hact); lia).
  destruct (index a) as [k|] eqn:Hk.
  - destruct (lookup_lt_is_Some_2 _ _ (Ha k eq_refl)) as [r0 Hr0]. destruct (decide (j = k)) as [->|Hjk].
    + destruct (act_own inp a c todo c' l k r0 p) as (r' & Hr' & H); [..|by simplify_eq]; auto. intros ->. by apply (Hreg k).
    + eapply act_other; eauto.
  - destruct a; try discriminate Hk; cbn [act] in Hact.
    + unfold spawn_next in Hact. destruct (future_created inp); injection Hact as <- <- <-.
      2: { apply (request_inv_frame [SpawnNext stream] [] _ c); try done. by apply Hinv. }
      cbn in Hj. rewrite lookup_last in Hj. destruct (Nat.eqb_spec (length (reqs c)) j) as [<-|Hne].
      * injection Hj as <-. by apply request_inv_new.
      * apply (request_inv_frame [SpawnNext stream] _ _ c); [| | |by apply Hinv]; [done| |done]. cbn. rewrite orb_false_r. by apply Nat.eqb_neq.
    + pose proof (request_inv_abort_all c p) as Hall. destruct (abort_all c) as [t c1] eqn:Et. injection Hact as <- <- <-.
      apply Hall; [done|by injection Et as <- <-|apply Hinv; by injection Et as <- <-].
Qed.

Lemma act_ids inp a c todo c' l : act inp a c = Some (todo, c', l) -> ids_ok c -> small c' ->
  (forall i, index a = Some i -> (i < length (reqs c))%nat) -> ids_ok c'.
Proof.
  intros Hact Hids Hsmall Ha. assert (Hc : small c) by (unfold small in *; pose proof (act_length _ _ _ _ _ _ Hact); lia).
  destruct (index a) as [k|] eqn:Hk.
  - destruct (lookup_lt_is_Some_2 _ _ (Ha k eq_refl)) as [r0 Hr0]. by eapply act_ids_ok.
  - destruct a; try discriminate Hk; cbn [act] in Hact.
    + unfold spawn_next in Hact. destruct (future_created inp); injection Hact as <- <- <-; [by apply spawn_next_ids_ok|done].
    + pose proof (abort_all_ids_ok c Hids) as H. destruct (abort_all c). by injection Hact as <- <- <-.
Qed.

Lemma act_index inp a c todo c' l : act inp a c = Some (todo, c', l) -> ids_ok c -> small c' ->
  (forall i, index a = Some i -> (i < length (reqs c))%nat) ->
  Forall (fun b => forall i, index b = Some i -> (i < length (reqs c'))%nat) todo.
Proof.
  intros Hact Hids Hsmall Ha. pose proof (act_length _ _ _ _ _ _ Hact) as Hlen.
  assert (Hc : small c) by (unfold small in *; lia).
  destruct (index a) as [k|] eqn:Hk.
  - destruct (lookup_lt_is_Some_2 _ _ (Ha k eq_refl)) as [r0 Hr0].
    destruct (act_shape _ _ _ _ _ _ _ _ Hids Hc Hk Hr0 Hact) as (Ht & _). eapply Forall_impl; [exact Ht|].
    intros b E i Hi. rewrite E in Hi. injection Hi as <-. specialize (Ha k eq_refl). lia.
  - destruct a; try discriminate Hk; cbn [act] in Hact.
    + unfold spawn_next in Hact. destruct (future_created inp); injection Hact as <- <- <-; [|done].
      apply Forall_singleton. intros i [= <-]. cbn. rewrite length_app. cbn. lia.
    + injection Hact as <- <- <-. apply Forall_forall. intros b ([id k] & -> & Hid%elem_of_map_to_list)%list_elem_of_fmap i [= <-].
      destruct (id_active _ Hids _ _ Hid) as (r & Hr & _). by apply lookup_lt_Some in Hr.
Qed.

Lemma task_move_inv s s' : task_move s s' -> small (registry s') -> system_inv s -> system_inv s'.
Proof.
  intros (i & inp & t & t' & c' & l & Hi & Ht & ->) Hsmall [Hids Hidx Hreq Hsp]. apply task_head in Ht as (a & rest & todo & -> & -> & Hact).
  destruct (actions_task _ _ _ _ Hi) as (before & after & E1 & E2). cbn in Hsmall. rewrite E1 in Hidx.
  assert (Hreg : forall i0 r0, a = Register i0 -> reqs (registry s) !! i0 = Some r0 -> registered r0 = false).
  { intros k r -> Hr. pose proof (owed_held (spawning k) _ _ _ _ ltac:(done) ltac:(intros []; cbn; try done; by destruct (Nat.eqb _ _)) (Hsp k) Hi) as Ho.
    cbn in Ho. rewrite Nat.eqb_refl, Hr in Ho. by destruct (registered r). }
  assert (Hp : Forall (fun b => forall i, index b = Some i -> (i < length (reqs (registry s)))%nat) (a :: before ++ rest ++ after)).
  { rewrite Forall_app, Forall_cons, Forall_app in Hidx. rewrite Forall_cons, !Forall_app. tauto. }
  pose proof (act_length _ _ _ _ _ _ Hact) as Hlen. pose proof (Forall_inv Hp) as Ha. split; cbn [state].
  - by eapply act_ids.
  - unfold actions. cbn. rewrite E2. pose proof (act_index _ _ _ _ _ _ Hact Hids Hsmall Ha) as Ht.
    apply Forall_cons in Hp as [_ [Hb [Hrest Haft]%Forall_app]%Forall_app].
    rewrite !Forall_app. split_and!; [|done| |]; (eapply Forall_impl; [eassumption|]; intros b Hlt j Hj; specialize (Hlt j Hj); lia).
  - intros k r Hr. unfold actions. cbn. rewrite E2. eapply request_inv_pending; [intros f; apply existsb_todo_first|].
    eapply (act_request_inv _ _ _ _ _ _ (before ++ rest ++ after)); try eassumption.
    intros j r0 Hj. eapply request_inv_pending; [|by apply Hreq]. intros f. rewrite E1. apply existsb_middle.
  - intros k. eapply balanced_task; [exact Hi| |apply Hsp]. eapply spawning_keeps; [exact Hact|exact Ha|]. intros. by eapply Hreg.
Qed.

(** The tasks that others start. *)
Lemma request_inv_started a p c k r :
  match a with
  | SpawnNext _ | AbortAll | LoopCancel _ => True
  | StreamEnd j _ => j = k -> stream_open r = true
  | _ => False
  end -> request_inv p c k r -> request_inv (a :: p) c k r.
Proof.
  intros Ha H. destruct (about k a) eqn:Hk.
  - destruct a; try done; cbn in Hk; apply Nat.eqb_eq in Hk as ->; try specialize (Ha eq_refl); destruct H; solve_request.
  - apply (request_inv_frame [] [a] _ c); [done| |done|done]. cbn. by rewrite Hk.
Qed.

Lemma request_inv_launched p c c' k r : active c' = active c -> request_inv p c k r ->
  request_inv (TaskStart k :: p) c' k (r <| launched := true |>).
Proof.
  intros Ha H. assert (E : in_registry k (r <| launched := true |>) c' = in_registry k r c) by (unfold in_registry; by rewrite Ha).
  destruct H. split; rewrite ?E; cbn; rewrite ?Nat.eqb_refl; cbn; try done; rewrite ?orb_true_iff; intuition congruence.
Qed.

Lemma system_inv_started s a :
  match a with
  | SpawnNext _ | AbortAll => True
  | LoopCancel j => (j < length (reqs (registry s)))%nat
  | StreamEnd j _ => exists r, reqs (registry s) !! j = Some r /\ stream_open r = true
  | _ => False
  end -> system_inv s -> system_inv (s <| tasks ::= fun ts => ts ++ [[a]] |>).
Proof.
  intros Ha [Hids Hidx Hreq Hsp]. split.
  - done.
  - unfold actions. cbn. rewrite join_app. apply Forall_app. split; [done|]. apply Forall_singleton. intros j Hj.
    destruct a; cbn in *; try done; injection Hj as <-; [done|]. destruct Ha as (r & Hr & _). by apply lookup_lt_Some in Hr.
  - intros k r Hr. unfold actions. cbn. rewrite join_app. cbn. eapply (request_inv_pending (a :: actions s)).
    + intros f. rewrite existsb_app. cbn. unfold actions. destruct (f a), (existsb f (mjoin (tasks s))); done.
    + apply request_inv_started; [|by apply Hreq]. destruct a; try done. cbn in *. intros ->. destruct Ha as (r' & Hr' & Ho). by simplify_eq.
  - intros k. apply (balanced_started (spawning k) s a (registry s)); [by destruct a|done|apply Hsp].
Qed.

Lemma system_inv_launch s k r : reqs (registry s) !! k = Some r -> system_inv s ->
  system_inv (s <| state ::= on_request k (fun r => r <| launched := true |>) |> <| tasks ::= fun ts => ts ++ [[TaskStart k]] |>).
Proof.
  intros Hr [Hids Hidx Hreq Hsp]. split.
  - by apply ids_ok_on_request.
  - unfold actions. cbn. rewrite join_app, length_alter. apply Forall_app. split; [done|]. apply Forall_singleton. intros j [= <-].
    by apply lookup_lt_Some in Hr.
  - intros j r0. cbn [state]. intros Hj. unfold actions. cbn. rewrite join_app. cbn. eapply (request_inv_pending (TaskStart k :: actions s)).
    { intros f. rewrite existsb_app. cbn. unfold actions. destruct (f _), (existsb f (mjoin (tasks s))); done. }
    assert (Hj1 : reqs (on_request k (fun r1 => r1 <| launched := true |>) (registry s)) !! j = Some r0) by exact Hj. clear Hj. rename Hj1 into Hj.
    rewrite on_request_lookup in Hj. destruct (Nat.eqb_spec k j) as [<-|Hkj].
    + rewrite Hr in Hj. injection Hj as <-. eapply request_inv_launched; [|by apply Hreq]. done.
    + apply (request_inv_frame [] [TaskStart k] _ (registry s)); [done| |done|by apply Hreq]. cbn. rewrite orb_false_r. by apply Nat.eqb_neq.
  - intros j. apply balanced_started; [done| |apply Hsp]. cbn. destruct (decide (k = j)) as [->|]; [|by rewrite list_lookup_alter_ne].
    rewrite list_lookup_alter_eq, Hr. done.
Qed.

Lemma request_step_small s s' : system_step s s' -> small (registry s') -> small (registry s).
Proof.
  unfold small. destruct 1 as [| | | | |? (i & inp & t & t' & c' & l & Hi & Ht & ->)]; cbn; rewrite ?length_alter; try done.
  apply task_head in Ht as (a & rest & todo & -> & -> & Hact). pose proof (act_length _ _ _ _ _ _ Hact). lia.
Qed.

Lemma system_inv_step s s' : system_step s s' -> small (registry s') -> system_inv s -> system_inv s'.
Proof.
  intros Hstep Hsmall H. destruct Hstep as [stream|k r Hr Hs Hl|k Hk|k r failed Hr Ho| |s' Hm].
  - by apply system_inv_started.
  - by eapply system_inv_launch.
  - by apply system_inv_started.
  - apply system_inv_started; eauto.
  - by apply system_inv_started.
  - by eapply task_move_inv.
Qed.

Lemma initial_inv : system_inv initial.
Proof. split; try done. Qed.

(** Invariants hold as long as the ids have not wrapped. *)
Lemma reachable_ind (I : System -> Prop) :
  I initial -> (forall s s', system_inv s -> I s -> system_step s s' -> I s') ->
  forall s, reachable s -> small (registry s) -> system_inv s /\ I s.
Proof.
  intros H0 Hstep. unfold reachable.
  apply (rtc_ind_r (fun s => small (registry s) -> system_inv s /\ I s)); [split; [apply initial_inv|done]|]. intros s s' _ Hm IH Hsmall.
  destruct (IH (request_step_small _ _ Hm Hsmall)) as [H HI]. split; [by eapply system_inv_step|by eapply Hstep].
Qed.

Lemma reachable_inv s : reachable s -> small (registry s) -> system_inv s.
Proof. intros Hs Hsmall. by apply (reachable_ind (fun _ => True)). Qed.

(** ** Counts *)

(** A request is counted as started when it is spawned. *)
Definition starting (k : nat) : Ledger Action Registry Log :=
  {| owed a := match a with SpawnCount j => b2z (Nat.eqb j k) | _ => 0 end;
     paid l := match l with RequestStarted j => b2z (Nat.eqb j k) | _ => 0 end;
     held c := match reqs c !! k with Some _ => 1 | None => 0 end |}.

(** It is counted as finished when its completion is. *)
Definition finishing (k : nat) : Ledger Action Registry Log :=
  {| owed a := match a with MetricFinish j _ => b2z (Nat.eqb j k) | _ => 0 end;
     paid l := match l with RequestFinished j _ => b2z (Nat.eqb j k) | _ => 0 end;
     held c := match reqs c !! k with Some r => b2z (completion_finished r) | None => 0 end |}.

Lemma starting_keeps inp a c todo c' l k : act inp a c = Some (todo, c', l) -> keeps (starting k) a c todo c' l.
Proof. intros Hact. destruct a; act_cases Hact; ledger_cases k. Qed.

Lemma finishing_keeps inp a c todo c' l k : act inp a c = Some (todo, c', l) -> keeps (finishing k) a c todo c' l.
Proof. intros Hact. destruct a; act_cases Hact; ledger_cases k. Qed.

(** A ledger that all actions keep, and that owes nothing for the tasks others start. *)
Lemma balanced_step L s s' :
  (forall inp a c todo c' l, act inp a c = Some (todo, c', l) -> keeps L a c todo c' l) ->
  (forall a, match a with SpawnNext _ | TaskStart _ | LoopCancel _ | StreamEnd _ _ | AbortAll => owed L a = 0 | _ => True end) ->
  (forall k c, held L (on_request k (fun r => r <| launched := true |>) c) = held L c) ->
  system_step s s' -> balanced L s -> balanced L s'.
Proof.
  intros Hact Ho Hl Hstep Hb. destruct Hstep as [stream|k r Hr Hs Hl'|k Hk|k r failed Hr Hop| |s' (i & inp & t & t' & c' & l & Hi & Ht & ->)].
  - apply (balanced_started L s (SpawnNext stream) (registry s)); [apply (Ho (SpawnNext _))|done|done].
  - apply balanced_started; [apply (Ho (TaskStart k))|by apply Hl|done].
  - apply (balanced_started L s (LoopCancel k) (registry s)); [apply (Ho (LoopCancel k))|done|done].
  - apply (balanced_started L s (StreamEnd k failed) (registry s)); [apply (Ho (StreamEnd k failed))|done|done].
  - apply (balanced_started L s AbortAll (registry s)); [apply (Ho AbortAll)|done|done].
  - apply task_head in Ht as (a & rest & todo & -> & -> & Ha). eapply balanced_task; [exact Hi|by eapply Hact|done].
Qed.

Lemma held_launched (f : Request -> Z) k j c : (forall r, f (r <| launched := true |>) = f r) ->
  match reqs (on_request j (fun r => r <| launched := true |>) c) !! k with Some r => f r | None => 0 end =
  match reqs c !! k with Some r => f r | None => 0 end.
Proof. intros Hf. rewrite on_request_lookup. destruct (Nat.eqb j k), (reqs c !! k); cbn; auto. Qed.

Lemma reachable_counts s k : reachable s -> balanced (starting k) s /\ balanced (finishing k) s.
Proof.
  unfold reachable. apply (rtc_ind_r (fun s => balanced (starting k) s /\ balanced (finishing k) s)); [done|].
  intros s1 s2 _ Hstep [H1 H2]. split.
  - eapply balanced_step; [|by intros []| |exact Hstep|exact H1]; [intros; by eapply starting_keeps|]. intros j c. by apply (held_launched (fun _ => 1)).
  - eapply balanced_step; [|by intros []| |exact Hstep|exact H2]; [intros; by eapply finishing_keeps|]. intros j c. by apply (held_launched (fun r => b2z (completion_finished r))).
Qed.

Definition count_started (k : nat) (l : list Log) : Z := sum_over (paid (starting k)) l.
Definition count_finished (k : nat) (l : list Log) : Z := sum_over (paid (finishing k)) l.

(** No request is counted twice, whatever interleaves: a request is counted as started at
    most once and as finished at most once, as finished only when its completion is, and
    once nothing is pending it was started exactly once and finished exactly when its
    completion is; so the gauge of requests in flight is the number of requests not
    completed. *)
Theorem requests_counted_once s k r : reachable s -> reqs (registry s) !! k = Some r ->
  0 <= count_started k (log s) <= 1 /\ 0 <= count_finished k (log s) <= b2z (completion_finished r) /\
  (actions s = [] -> count_started k (log s) = 1 /\ count_finished k (log s) = b2z (completion_finished r)).
Proof.
  intros Hs Hr. destruct (reachable_counts s k Hs) as [H1 H2]. unfold balanced in H1, H2.
  assert (Hp : forall L : Ledger Action Registry Log, L = starting k \/ L = finishing k -> 0 <= sum_over (owed L) (actions s) /\ 0 <= sum_over (paid L) (log s)).
  { intros L [-> | ->]; split; apply sum_over_nonneg; intros []; cbn; try done; by destruct (Nat.eqb _ _). }
  pose proof (Hp _ (or_introl eq_refl)). pose proof (Hp _ (or_intror eq_refl)). unfold count_started, count_finished.
  assert (E1 : held (starting k) (registry s) = 1) by (cbn; by rewrite Hr).
  assert (E2 : held (finishing k) (registry s) = b2z (completion_finished r)) by (cbn; by rewrite Hr).
  rewrite E1 in H1. rewrite E2 in H2. split_and!; try lia; intros Ha; rewrite Ha in H1, H2; cbn [sum_over] in H1, H2; lia.
Qed.

(** ** What is left when nothing is pending *)

Lemma in_registry_none c k r : ids_ok c -> small c -> reqs c !! k = Some r -> in_registry k r c = false -> active c !! req_id r = None.
Proof.
  intros Hids Hsmall Hr Hin. destruct (active c !! req_id r) as [j|] eqn:Hj; [|done].
  destruct (id_active _ Hids _ _ Hj) as (r' & Hr' & E). pose proof (ids_distinct _ _ _ _ _ Hids Hsmall Hr' Hr E) as ->.
  unfold in_registry in Hin. by rewrite bool_decide_true in Hin.
Qed.

(** Its future is decided, or Python failed; its work is done, or it is streamed and its
    callback could not be created. *)
Definition decided (r : Request) : Prop := is_pending (future r) = false \/ spawn_failed r = true \/ loop_refused r = true.
Definition completed (r : Request) : Prop := completion_finished r = true \/ stream_open r = true.
Definition stranded (r : Request) : Prop := streaming r = true /\ callback_lost r = true /\ completion_finished r = false.

Lemma settled_request c k r : request_inv [] c k r -> launched r = true ->
  decided r /\ (completed r /\ in_registry k r c = false \/ stranded r /\ in_registry k r c = true).
Proof.
  unfold decided, completed, stranded. intros [] Hl. cbn in *. rewrite ?orb_true_iff in *.
  destruct (completion_finished r) eqn:Hc; [|destruct (stream_open r) eqn:Ho].
  - assert (in_registry k r c = false) by (destruct (in_registry k r c) eqn:?; [chain|done]). split; [chain|auto].
  - assert (in_registry k r c = false) by (destruct (in_registry k r c) eqn:?; [chain|done]). split; [chain|auto].
  - assert (Hd : sender_dropped r = true) by chain. assert (registered r = true) by (apply ri_flags0; auto).
    assert (Hin : in_registry k r c = true) by chain. split; [|right; split_and!; try done; chain].
    assert (callback_lost r = true) by chain. chain.
Qed.

(** C27: Nothing is lost: when nothing is pending, the future of every request whose task
    was launched is resolved or cancelled, unless the call that spawned it failed with an
    error, or the event loop refused or dropped a call for that future; and, whatever
    failed, its completion is finished or its streamed response was handed over, and the
    registry does not hold it any more, so that requests that end never accumulate.  The one
    exception is a streamed request whose callback object could not be created: its spawn
    failed, its task gave up, and the registry holds it, unfinished, until the client closes. *)
Theorem requests_settled s k r : reachable s -> small (registry s) -> actions s = [] ->
  reqs (registry s) !! k = Some r -> launched r = true ->
  (is_pending (future r) = false \/ spawn_failed r = true \/ loop_refused r = true) /\
  ((completion_finished r = true \/ stream_open r = true) /\ active (registry s) !! req_id r = None \/
   (streaming r = true /\ callback_lost r = true /\ completion_finished r = false) /\ active (registry s) !! req_id r = Some k).
Proof.
  intros Hs Hsmall Ha Hr Hl. pose proof (reachable_inv s Hs Hsmall) as [Hids _ Hreq _].
  specialize (Hreq k r Hr). rewrite Ha in Hreq. destruct (settled_request _ _ _ Hreq Hl) as (Hd & [[Hc Hin]|[Hst Hin]]); (split; [exact Hd|]).
  - left. split; [exact Hc|by eapply in_registry_none].
  - right. split; [exact Hst|]. unfold in_registry in Hin. by rewrite bool_decide_eq_true in Hin.
Qed.

(** ** Every run ends *)

Definition work (a : Action) : Z :=
  match a with
  | SpawnNext _ => 21 | SpawnCount _ => 20 | SpawnTask _ => 19 | Register _ => 18 | CheckFinished _ => 7 | AddCallback _ => 5
  | SendStart _ => 2 | TaskStart _ => 10 | AwaitStart _ => 9 | TaskRun _ => 8 | TaskFinish _ _ => 7 | FinishFailed _ => 2
  | Complete _ _ => 4 | SetIfPending _ _ => 3 | LoopCancel _ => 3 | Callback _ => 2 | AbortFinish _ _ => 9 | CancelFuture _ => 5
  | CancelHandle _ => 4
  | StreamEnd _ _ => 2 | _ => 1
  end.

(** A registered request may have to be aborted. *)
Definition reserve (c : Registry) : Z := 10 * Z.of_nat (size (active c)).

Lemma size_delete (m : gmap Z nat) i : (size (delete i m) <= size m)%nat.
Proof. rewrite map_size_delete. destruct (m !! i); cbn; lia. Qed.

Lemma size_delete_some (m : gmap Z nat) i k : m !! i = Some k -> (S (size (delete i m)) = size m)%nat.
Proof.
  intros H. pose proof (map_size_ne_0_lookup_2 m i ltac:(by rewrite H)). rewrite map_size_delete, H. cbn. lia.
Qed.

Lemma size_insert (m : gmap Z nat) i k : (size (<[i := k]> m) <= S (size m))%nat.
Proof. rewrite map_size_insert. destruct (m !! i); cbn; lia. Qed.

Lemma drained_work m : sum_over work ((fun x : Z * nat => AbortFinish (snd x) true) <$> m) = 9 * Z.of_nat (length m).
Proof. induction m as [|x m IH]; [done|]. cbn -[Z.mul] in *. rewrite IH. lia. Qed.

Lemma request_act_work inp a c todo c' l : act inp a c = Some (todo, c', l) -> sum_over work todo + reserve c' < work a + reserve c.
Proof.
  intros Hact. unfold reserve. destruct a; act_cases Hact; cbn -[Z.mul Z.of_nat];
  rewrite ?drained_work, ?length_map_to_list, ?map_size_empty;
  repeat match goal with
  | H : ?m !! ?i = Some ?k |- context [delete ?i ?m] => rewrite <- (size_delete_some m i k H)
  | |- context [size (delete ?i ?m)] => pose proof (size_delete m i); generalize dependent (size (delete i m)); intros
  | |- context [size (<[?i := ?k]> ?m)] => pose proof (size_insert m i k); generalize dependent (size (<[i := k]> m)); intros
  end; try lia.
Qed.

(** A task that waits for its start signal does nothing else. *)
Definition waits (a : Action) : bool := match a with TaskStart _ | AwaitStart _ => true | _ => false end.

Definition waits_alone (t : list Action) : Prop := forallb (fun a => negb (waits a)) t = true \/ exists a, t = [a].

Lemma act_waits inp a c todo c' l : act inp a c = Some (todo, c', l) ->
  forallb (fun a => negb (waits a)) todo = true \/ waits a = true /\ exists b, todo = [b].
Proof.
  intros Hact. destruct a; act_cases Hact; cbn; eauto. left. apply forallb_forall. intros b (x & -> & _)%list_elem_of_In%list_elem_of_fmap. done.
Qed.

Lemma task_move_waits s s' : task_move s s' -> Forall waits_alone (tasks s) -> Forall waits_alone (tasks s').
Proof.
  intros (i & inp & t & t' & c & l & Hi & Ht & ->) H. cbn. apply Forall_insert; [done|].
  apply task_head in Ht as (a & rest & todo & -> & -> & Ha). eapply Forall_lookup_1 in H; [|exact Hi].
  destruct H as [H | (b & [= <- ->])].
  - left. cbn in H. apply andb_true_iff in H as [Hw Hr]. rewrite forallb_app, Hr. destruct (act_waits _ _ _ _ _ _ Ha) as [-> | [Hw' _]]; [done|by rewrite Hw' in Hw].
  - rewrite app_nil_r. destruct (act_waits _ _ _ _ _ _ Ha) as [? | (_ & b & ->)]; [by left|right; eauto].
Qed.

Lemma reachable_waits s : reachable s -> Forall waits_alone (tasks s).
Proof.
  unfold reachable. apply (rtc_ind_r (fun s => Forall waits_alone (tasks s))); [done|].
  intros s1 s2 _ Hstep Hall. destruct Hstep; cbn; try (apply Forall_app; split; [done|]; apply Forall_singleton; by (left + right; eauto)). by eapply task_move_waits.
Qed.

(** Every action but the wait for the start signal can be taken. *)
Lemma act_total inp a c : (forall k, index a = Some k -> (k < length (reqs c))%nat) -> is_Some (act inp a c) \/
  exists k r, a = AwaitStart k /\ reqs c !! k = Some r /\ start_sent r = false /\ sender_dropped r = false.
Proof.
  intros Ha. destruct (index a) as [k|] eqn:Hk; [|left; destruct a; cbn in *; try done; destruct (spawn_next inp stream c); eauto].
  destruct (lookup_lt_is_Some_2 _ _ (Ha k eq_refl)) as [r Hr].
  destruct a; try discriminate Hk; injection Hk as ->; cbn [act];
  unfold task_finish, finish_failed, abort_python, await_start, finish_completion; rewrite ?Hr; cbn [mbind option_bind]; try (left; repeat case_match; eauto; done).
  destruct (abort_requested r && notices_abort inp); [left; eauto|]. destruct (start_sent r) eqn:E1; [left; eauto|].
  destruct (sender_dropped r) eqn:E2; [left; eauto|]. right. eauto 10.
Qed.

Definition some_input : StepInput := {| future_created := true; callback := Added; result_ok := true; notices_abort := true; loop_takes := true |}.

Lemma head_moves s i a rest : tasks s !! i = Some (a :: rest) -> is_Some (act some_input a (registry s)) -> exists s', task_move s s'.
Proof.
  intros Hi [[[todo c] l] Ha]. eexists. exists i, some_input, (a :: rest), (todo ++ rest), c, l. split_and!; [exact Hi| |reflexivity].
  cbn. by rewrite Ha.
Qed.

Lemma head_index s i a rest : system_inv s -> tasks s !! i = Some (a :: rest) -> forall k, index a = Some k -> (k < length (reqs (registry s)))%nat.
Proof.
  intros [_ Hidx _ _] Hi. destruct (actions_task _ _ _ _ Hi) as (before & after & E & _). rewrite E in Hidx.
  apply Forall_app in Hidx as [_ Hidx]. by apply Forall_cons in Hidx as [Ha _].
Qed.

(** The caller that a task waits for can go on. *)
Lemma pending_moves s : system_inv s -> Forall waits_alone (tasks s) -> Exists (fun t => t <> []) (tasks s) -> exists s', task_move s s'.
Proof.
  intros Hinv Hw (t & Ht & Hne)%list.Exists_exists. apply list_elem_of_lookup in Ht as [i Hi]. destruct t as [|a rest]; [done|].
  destruct (act_total some_input a (registry s) (head_index _ _ _ _ Hinv Hi)) as [Ha | (k & r & -> & Hr & H1 & H2)]; [by eapply head_moves|].
  pose proof (si_requests _ Hinv k r Hr) as Hreq. destruct (actions_task _ _ _ _ Hi) as (before & after & E & _).
  assert (Hs : streaming r = true).
  { apply (ri_awaiting _ _ _ _ Hreq). rewrite E, existsb_app. cbn. rewrite Nat.eqb_refl. by rewrite orb_true_r. }
  destruct (ri_waiting _ _ _ _ Hreq Hs) as [? | [? | Hon]]; [congruence|congruence|].
  apply existsb_exists in Hon as (b & Hb & Hon). apply list_elem_of_In, list_elem_of_join in Hb as (t & Hbt & Ht).
  apply list_elem_of_lookup in Ht as [j Hj]. destruct t as [|a' rest']; [by apply not_elem_of_nil in Hbt|].
  eapply head_moves; [exact Hj|]. destruct (act_total some_input a' (registry s) (head_index _ _ _ _ Hinv Hj)) as [?|(k' & r' & -> & _)]; [done|].
  eapply Forall_lookup_1 in Hw; [|exact Hj]. destruct Hw as [Hw | (b' & [= <- ->])]; [done|].
  apply list_elem_of_singleton in Hbt as ->. unfold on_start in Hon. by rewrite andb_false_r in Hon.
Qed.

(** The requests that the pending calls will add. *)
Definition spawns (a : Action) : Z := match a with SpawnNext _ => 1 | _ => 0 end.

(** No id is used twice, whatever is pending. *)
Definition room (s : System) : Prop := Z.of_nat (length (reqs (registry s))) + sum_over spawns (actions s) <= U64_MAX + 1.

Lemma room_small s : room s -> small (registry s).
Proof. unfold room, small. pose proof (sum_over_nonneg spawns (actions s) ltac:(by intros [])). lia. Qed.

Lemma act_spawns inp a c todo c' l : act inp a c = Some (todo, c', l) ->
  Z.of_nat (length (reqs c')) + sum_over spawns todo <= Z.of_nat (length (reqs c)) + spawns a.
Proof.
  intros Hact. destruct a; act_cases Hact; cbn; rewrite ?abort_all_owes, ?length_alter, ?length_app by done; cbn; lia.
Qed.

Lemma task_move_room s s' : task_move s s' -> room s -> room s'.
Proof.
  intros (i & inp & t & t' & c & l & Hi & Ht & ->) H. apply task_head in Ht as (a & rest & todo & -> & -> & Ha).
  destruct (actions_task _ _ _ _ Hi) as (before & after & E1 & E2). unfold room in *. rewrite E1 in H. unfold actions. cbn. rewrite E2.
  pose proof (act_spawns _ _ _ _ _ _ Ha). rewrite !sum_over_app in *. cbn in H. rewrite sum_over_app in H. lia.
Qed.

(** C28: Requests always come to an end, in any order of steps: the tasks can take no more
    steps than their work is worth, and as long as one is unfinished some task can go on -
    a streamed request that waits for its start signal is always waited for by a caller that
    will send or drop it - so that every run finishes them all. *)
Theorem requests_progress s : reachable s -> room s ->
  (forall n s', nsteps task_move n s s' -> Z.of_nat n <= total_work work reserve s) /\
  (exists s', rtc task_move s s' /\ finished s') /\
  (forall s', rtc task_move s s' -> ~ (exists s'', task_move s' s'') -> finished s').
Proof.
  intros Hs Hroom. pose (I := fun s => system_inv s /\ Forall waits_alone (tasks s) /\ room s).
  assert (HI : I s) by (split_and!; [apply reachable_inv; [|apply room_small]|apply reachable_waits|]; done).
  assert (Hstep : forall s s', I s -> task_move s s' -> I s').
  { intros s1 s2 (H1 & H2 & H3) Hm. pose proof (task_move_room _ _ Hm H3). split_and!; [|by eapply task_move_waits|done].
    eapply task_move_inv; [exact Hm|by apply room_small|done]. }
  assert (Hgo : forall s, I s -> Exists (fun t => t <> []) (tasks s) -> exists s', task_move s s') by (intros s1 (H1 & H2 & _); by apply pending_moves).
  split_and!.
  - intros n s'. apply task_moves_bounded; [by intros []|intros; unfold reserve; lia|exact request_act_work].
  - apply (tasks_settle act work reserve ltac:(by intros []) ltac:(intros; unfold reserve; lia) request_act_work I); done.
  - intros s' Hrtc Hstuck. assert (HI' : I s') by (clear - HI Hstep Hrtc; clearbody I; induction Hrtc; eauto).
    destruct (finished_dec s') as [Hf|He]; [done|]. destruct Hstuck. by apply Hgo.
Qed.

(** ** Runs *)

Inductive Move :=
| Spawn (stream : bool)
| Launch (k : nat)
| Cancel (k : nat)
| EndStream (k : nat) (failed : bool)
| Close
| Run (i : nat) (inp : StepInput).

Definition make_move (m : Move) (s : System) : option System :=
  match m with
  | Spawn stream => Some (s <| tasks ::= fun ts => ts ++ [[SpawnNext stream]] |>)
  | Launch k =>
      r ← reqs (registry s) !! k;
      if spawned r && negb (launched r)
      then Some (s <| state ::= on_request k (fun r => r <| launched := true |>) |> <| tasks ::= fun ts => ts ++ [[TaskStart k]] |>)
      else None
  | Cancel k => _ ← reqs (registry s) !! k; Some (s <| tasks ::= fun ts => ts ++ [[LoopCancel k]] |>)
  | EndStream k failed =>
      r ← reqs (registry s) !! k; if stream_open r then Some (s <| tasks ::= fun ts => ts ++ [[StreamEnd k failed]] |>) else None
  | Close => Some (s <| tasks ::= fun ts => ts ++ [[AbortAll]] |>)
  | Run i inp =>
      t ← tasks s !! i; '(t', c, l) ← task_step act inp t (registry s);
      Some (s <| state := c |> <| tasks ::= <[i := t']> |> <| log ::= fun l0 => l0 ++ l |>)
  end.

Fixpoint make_moves (ms : list Move) (s : System) : option System :=
  match ms with
  | [] => Some s
  | m :: ms => s' ← make_move m s; make_moves ms s'
  end.

Lemma make_move_step m s s' : make_move m s = Some s' -> system_step s s'.
Proof.
  destruct m; cbn; intros H.
  - injection H as <-. constructor.
  - destruct (reqs (registry s) !! k) as [r|] eqn:Hr; [|done]. cbn in H. destruct (spawned r && negb (launched r)) eqn:E; [|done].
    apply andb_true_iff in E as [E1 E2%negb_true_iff]. injection H as <-. by econstructor.
  - destruct (reqs (registry s) !! k) as [r|] eqn:Hr; [|done]. injection H as <-. apply lookup_lt_Some in Hr. by constructor.
  - destruct (reqs (registry s) !! k) as [r|] eqn:Hr; [|done]. cbn in H. destruct (stream_open r) eqn:E; [|done]. injection H as <-. by econstructor.
  - injection H as <-. constructor.
  - destruct (tasks s !! i) as [t|] eqn:Ht; [|done]. cbn in H. destruct (task_step act inp t (registry s)) as [[[t' c] l]|] eqn:E; [|done].
    injection H as <-. apply step_task. by exists i, inp, t, t', c, l.
Qed.

Lemma make_moves_reachable ms s s' : reachable s -> make_moves ms s = Some s' -> reachable s'.
Proof.
  revert s. induction ms as [|m ms IH]; cbn; intros s Hs H; [by injection H as <-|].
  destruct (make_move m s) as [s1|] eqn:E; [|done]. eapply IH; [|exact H]. eapply rtc_r; [exact Hs|by eapply make_move_step].
Qed.

Definition run (ms : list Move) : System := default initial (make_moves ms initial).

Lemma run_reachable ms : is_some (make_moves ms initial) = true -> reachable (run ms).
Proof.
  unfold run. destruct (make_moves ms initial) as [s|] eqn:E; [|done]. intros _. by eapply make_moves_reachable; [apply rtc_refl|].
Qed.

(** A request is spawned, its task runs before it is registered, the check after the
    registration removes it; a streamed request is cancelled by the caller while it waits
    for the response. *)
Definition responds : StepInput := {| future_created := true; callback := Added; result_ok := true; notices_abort := false; loop_takes := true |}.

Definition early_finish : list Move :=
  [Spawn false] ++ replicate 3 (Run 0 responds) ++ [Launch 0] ++ replicate 7 (Run 1 responds) ++ replicate 4 (Run 0 responds).

Definition cancelled_stream : list Move :=
  early_finish ++ [Spawn true] ++ replicate 7 (Run 2 some_input) ++ [Launch 1] ++ replicate 2 (Run 3 some_input) ++
  [Cancel 1] ++ replicate 7 (Run 4 some_input) ++ [Run 3 some_input].

(** The task of a streamed request waits, its caller has not come to the start signal. *)
Definition waiting_stream : list Move := [Spawn true] ++ replicate 4 (Run 0 some_input) ++ [Launch 0; Run 1 some_input].

Lemma requests_counted_once_witness :
  count_started 1 (log (run cancelled_stream)) = 1 /\ count_finished 1 (log (run cancelled_stream)) = 1.
Proof.
  assert (Ha : actions (run cancelled_stream) = []) by (vm_compute; reflexivity).
  destruct (reqs (registry (run cancelled_stream)) !! 1%nat) as [r|] eqn:Hr; [|vm_compute in Hr; discriminate Hr].
  assert (Hc : completion_finished r = true) by (vm_compute in Hr; injection Hr as <-; reflexivity).
  destruct (requests_counted_once (run cancelled_stream) 1 r (run_reachable cancelled_stream eq_refl) Hr) as (_ & _ & H).
  rewrite Hc in H. exact (H Ha).
Defined.

Lemma requests_settled_witness : active (registry (run cancelled_stream)) !! 1 = None /\
  (exists r, reqs (registry (run cancelled_stream)) !! 1%nat = Some r /\ future r = FutureCancelled).
Proof.
  assert (Ha : actions (run cancelled_stream) = []) by (vm_compute; reflexivity).
  assert (Hs : small (registry (run cancelled_stream))) by (vm_compute; discriminate).
  destruct (reqs (registry (run cancelled_stream)) !! 1%nat) as [r|] eqn:Hr; [|vm_compute in Hr; discriminate Hr].
  assert (Hid : req_id r = 1 /\ launched r = true /\ callback_lost r = false /\ future r = FutureCancelled)
    by (vm_compute in Hr; injection Hr as <-; by repeat split).
  destruct Hid as (<- & Hl & Hc & Hf).
  destruct (requests_settled (run cancelled_stream) 1 r (run_reachable cancelled_stream eq_refl) Hs Ha Hr Hl) as (_ & [[_ H]|[(_ & H & _) _]]).
  - split; [exact H|]. exists r. split; [exact eq_refl|exact Hf].
  - rewrite Hc in H; discriminate H.
Defined.

(** The callback of a streamed request is not created: its start signal never comes. *)
Definition lost_callback : list Move :=
  [Spawn true] ++ replicate 5 (Run 0 responds) ++
  [Run 0 {| future_created := true; callback := NotCreated; result_ok := true; notices_abort := false; loop_takes := true |}; Run 0 responds;
   Launch 0; Run 1 responds; Run 1 responds].

(** A streamed request whose callback object could not be created stays counted as in flight,
    and in the registry, although its call has failed and its task is gone. *)
Theorem lost_callback_strands_request :
  exists s r, reachable s /\ actions s = [] /\ reqs (registry s) !! 0%nat = Some r /\ launched r = true /\ spawn_failed r = true /\
    stranded r /\ active (registry s) !! 0 = Some 0%nat /\ count_started 0 (log s) = 1 /\ count_finished 0 (log s) = 0.
Proof.
  assert (Hr : reachable (run lost_callback)) by (apply run_reachable; vm_compute; reflexivity).
  revert Hr. vm_compute (run lost_callback). intros Hr. eexists _, _. split; [exact Hr|]. by repeat split.
Qed.

(** The loop closes before a request is done: the error of scheduling its result is written
    as unraisable, and the future stays pending. *)
Definition closes_early : StepInput :=
  {| future_created := true; callback := Added; result_ok := true; notices_abort := false; loop_takes := false |}.

Example refused_result_settles :
  let s := run ([Spawn false] ++ replicate 6 (Run 0 responds) ++ [Launch 0] ++ replicate 6 (Run 1 closes_early)) in
  actions s = [] /\ (fun r => (loop_refused r, completion_finished r, is_pending (future r))) <$> reqs (registry s) !! 0%nat = Some (true, true, true) /\
  active (registry s) !! 0 = None.
Proof. vm_compute. by repeat split. Qed.

Lemma requests_progress_witness :
  tasks (run waiting_stream) = [[CheckFinished 0]; [AwaitStart 0]] /\ exists s', rtc task_move (run waiting_stream) s' /\ finished s'.
Proof.
  assert (Hr : room (run waiting_stream)) by (vm_compute; discriminate).
  split; [vm_compute; reflexivity|]. apply (requests_progress (run waiting_stream) (run_reachable waiting_stream eq_refl) Hr).
Defined.
