(* ===== verification/StreamState.v ===== *)
(** * Streamed responses

    [src/src/py/client/streams/{state,state/decoded,coalescing,budget}.rs] and
    [src/src/py/client/lifecycle/mod.rs]: a streamed response shares the body, its
    decoder and what must be released with it between the Python object, the task that
    reads the next chunk and whoever closes, cancels or aborts the stream.  One step is
    one section under the stream's lock, one await of the body or one call of the
    decoder ([Streaming]); tasks are aborted at their awaits.

    hyper's [Incoming] is what it still yields: frames, and the polls that find none
    ready; after the last it ends. *)

From stdpp Require Import pretty.
From Stdlib Require Import Ascii.
From S2P Require Import Prelude RustStr Atomics Http Sync Telemetry Body Streaming.
From S2P Require Metrics Connection.
Import Connection(ConnectionAbortReason(..)).

Local Open Scope Z_scope.

(** ** The body of a response *)

Inductive BodyPoll :=
| FrameData (data : list Z)
| FrameTrailers
| FrameError (message : string)
| FramePending.

Definition Incoming : Type := list BodyPoll.

Definition body_data (body : Incoming) : list Z :=
  mjoin ((fun p => match p with FrameData data => data | _ => [] end) <$> body).

(** ** Coalescing *)

Definition READY_FRAME_COALESCE_TARGET_BYTES : Z := 256 * 1024.
Definition MAX_READY_FRAME_COALESCE_COUNT : nat := 16.

Inductive ReadyFrameDrain := DrainEof | DrainError (message : string) | DrainStopped.

Inductive ReadyBodyFrame := ReadyData (data : list Z) | ReadyEof | ReadyPending | ReadyError (message : string).

Fixpoint poll_ready_body_frame (body : Incoming) : ReadyBodyFrame * Incoming :=
  match body with
  | [] => (ReadyEof, [])
  | FramePending :: body => (ReadyPending, body)
  | FrameError message :: body => (ReadyError message, body)
  | FrameTrailers :: body => poll_ready_body_frame body
  | FrameData data :: body => (ReadyData data, body)
  end.

(** The loop; [frames_left] is the maximal count less [coalesced_frames]. *)
Fixpoint drain_loop (frames_left : nat) (chunk : list Z) (body : Incoming) : ReadyFrameDrain * list Z * Incoming :=
  match frames_left with
  | O => (DrainStopped, chunk, body)
  | S frames_left =>
      if READY_FRAME_COALESCE_TARGET_BYTES <=? byte_len chunk then (DrainStopped, chunk, body)
      else
        let (frame, body) := poll_ready_body_frame body in
        match frame with
        | ReadyData data => drain_loop frames_left (chunk ++ data) body
        | ReadyEof => (DrainEof, chunk, body)
        | ReadyError message => (DrainError message, chunk, body)
        | ReadyPending => (DrainStopped, chunk, body)
        end
  end.

Definition drain_ready_data_frames (chunk : list Z) (body : Incoming) : ReadyFrameDrain * list Z * Incoming :=
  drain_loop (MAX_READY_FRAME_COALESCE_COUNT - 1) chunk body.

Lemma poll_ready_data body frame rest :
  poll_ready_body_frame body = (frame, rest) ->
  body_data body = match frame with ReadyData data => data | _ => [] end ++ body_data rest /\
  (frame = ReadyEof -> rest = []).
Proof.
  revert rest; induction body as [|[data| |message|] body IH]; intros rest; cbn; intros Hp.
  - by injection Hp as <- <-.
  - by injection Hp as <- <-.
  - exact (IH _ Hp).
  - by injection Hp as <- <-.
  - by injection Hp as <- <-.
Qed.

Lemma drain_loop_data n chunk body outcome chunk' rest :
  drain_loop n chunk body = (outcome, chunk', rest) ->
  chunk ++ body_data body = chunk' ++ body_data rest /\ (outcome = DrainEof -> rest = []).
Proof.
  revert chunk body; induction n as [|n IH]; intros chunk body; cbn; [by intros [= <- <- <-]|].
  destruct (_ <=? _); [by intros [= <- <- <-]|]. destruct (poll_ready_body_frame body) as [frame body1] eqn:Hp.
  apply poll_ready_data in Hp as [Hd He]. rewrite Hd. destruct frame.
  - intros Hn. apply IH in Hn as [<- ?]. by rewrite <- app_assoc.
  - intros [= <- <- <-]. rewrite He by done. done.
  - by intros [= <- <- <-].
  - by intros [= <- <- <-].
Qed.

(** ** What a stream releases *)

Inductive StreamFinish := Success | Abort (reason : ConnectionAbortReason).

(** What the steps of a stream do to the world. *)
Inductive Effect :=
| ConnectionFinished (outcome : Metrics.ResponseBodyLifecycleOutcome)
| ConnectionAborted (reason : ConnectionAbortReason)
| BodyFinished (outcome : Metrics.ResponseBodyLifecycleOutcome)
| PermitReleased
| Unregistered
| RequestFinished (failed : bool)
| ReservationReleased
| ReadAborted (reader : nat).

(** [ResponseBodyLifecycle]: its outcome, once it has finished. *)
Definition ResponseBodyLifecycle : Type := option Metrics.ResponseBodyLifecycleOutcome.

Definition lifecycle_finish (outcome : Metrics.ResponseBodyLifecycleOutcome) (l : ResponseBodyLifecycle) :
    ResponseBodyLifecycle * list Effect :=
  match l with
  | Some _ => (l, [])
  | None => (Some outcome, [BodyFinished outcome])
  end.

Definition lifecycle_drop (l : ResponseBodyLifecycle) : list Effect := snd (lifecycle_finish Metrics.Aborted l).

Inductive Version := HTTP_09 | HTTP_10 | HTTP_11 | HTTP_2 | HTTP_3.

Definition http_version_reuses_by_default (version : Version) : bool :=
  match version with HTTP_09 | HTTP_10 => false | _ => true end.

Definition connection_close_requested `{HttpCrate} (headers : HeaderMap) : bool :=
  existsb (fun token => eq_ignore_ascii_case (trim token) "close")
    (mjoin (split ","%char <$> omap header_value_to_str (header_map_get_all headers "connection"))).

Definition successful_response_body_outcome `{HttpCrate} (version : Version) (headers : HeaderMap) :
    Metrics.ResponseBodyLifecycleOutcome :=
  if connection_close_requested headers || negb (http_version_reuses_by_default version)
  then Metrics.Closed else Metrics.ReuseEligible.

(** [StreamDecoderReservation::try_new]. *)
Definition reservation_error (max_bytes : Z) : string :=
  "Stream decoder reservation exceeds max_stream_decoder_memory_bytes=" +:+ pretty max_bytes.

Definition reservation_try_new (bytes max_bytes : Z) : action Metrics.Metrics (result Z string) :=
  reserved ← Metrics.try_reserve_stream_decoder_bytes bytes max_bytes;
  mret (if reserved : bool then Ok bytes else Err (reservation_error max_bytes)).

Definition reservation_drop (bytes : Z) : action Metrics.Metrics unit := Metrics.release_stream_decoder_bytes bytes.

(** ** The state of a stream *)

Inductive ReadFailure :=
| InProgress
(** [STREAM_RESPONSE_READ_ABORTED] *)
| ReadWasAborted
| ReadTimedOut
| TransportFailed (write_timed_out : bool) (message : string)
| DecodeFailed (e : StreamDecodeError).

Inductive ReadResult := Chunk (data : list Z) | NoChunk | ReadFailed (e : ReadFailure).

Section stream.
Context `{StreamCodecs}.

(** [DecodedStream], with the reservation it drops. *)
Record DecodedStream := { decoded_decoder : StreamingDecoder; decoded_input : list Z }.

Record StreamStateFields := {
  body : option Incoming;
  decoded : option DecodedStream;
  decoded_mode : bool;
  (** whether the permit is held *)
  permit : bool;
  lifecycle : option ResponseBodyLifecycle;
  connection_use : bool;
  (** the registered task, by its reader *)
  read_task : option nat;
  read_in_progress : bool;
  terminal : option StreamFinish;
  successful_body_outcome : Metrics.ResponseBodyLifecycleOutcome;
  deferred_body_error : option string;
  (** [RequestCompletion], shared with the request *)
  completed : bool;
  (** whether the stream is in [StreamRegistry] *)
  registered : bool;
  (** whether the connection's upload has timed out *)
  write_timed_out : bool;
}.
#[export] Instance eta_StreamStateFields : Eta StreamStateFields := fun f =>
  Build_StreamStateFields (body f) (decoded f) (decoded_mode f) (permit f) (lifecycle f) (connection_use f)
    (read_task f) (read_in_progress f) (terminal f) (successful_body_outcome f) (deferred_body_error f)
    (completed f) (registered f) (write_timed_out f).

(** [StreamState::new]. *)
Definition stream_state_new (incoming : Incoming) (stream : option DecodedStream) (used : bool)
    (outcome : Metrics.ResponseBodyLifecycleOutcome) : StreamStateFields :=
  {| body := Some incoming; decoded := stream; decoded_mode := is_some stream; permit := true;
     lifecycle := Some None; connection_use := used; read_task := None; read_in_progress := false;
     terminal := None; successful_body_outcome := outcome; deferred_body_error := None; completed := false;
     registered := true; write_timed_out := false |}.

Definition request_write_timeout (f : StreamStateFields) : bool := connection_use f && write_timed_out f.

(** [finish_successful_body] and [finish_aborted_body]. *)
Definition finish_lifecycle (outcome : Metrics.ResponseBodyLifecycleOutcome) (f : StreamStateFields) :
    StreamStateFields * list Effect :=
  match lifecycle f with
  | Some l =>
      let (l, es) := lifecycle_finish outcome l in
      (f <| lifecycle := None |>, es ++ lifecycle_drop l)
  | None => (f, [])
  end.

Definition finish_successful_body (f : StreamStateFields) : StreamStateFields * list Effect :=
  let es := if connection_use f then [ConnectionFinished (successful_body_outcome f)] else [] in
  let (f, es') := finish_lifecycle (successful_body_outcome f) (f <| connection_use := false |>) in
  (f, es ++ es').

Definition finish_aborted_body (reason : ConnectionAbortReason) (f : StreamStateFields) :
    StreamStateFields * list Effect :=
  let es := if connection_use f then [ConnectionAborted reason] else [] in
  let (f, es') := finish_lifecycle Metrics.Aborted (f <| connection_use := false |>) in
  (f, es ++ es').

Definition drop_decoded (d : option DecodedStream) : list Effect :=
  match d with Some _ => [ReservationReleased] | None => [] end.

(** [StreamState::finish]; the first component is what it returns. *)
Definition stream_finish (finish : StreamFinish) (abort_read_task : bool) (f : StreamStateFields) :
    bool * StreamStateFields * list Effect :=
  match terminal f with
  | Some _ => (false, f, [])
  | None =>
      let aborted := match read_task f with Some i => if abort_read_task then [ReadAborted i] else [] | None => [] end in
      let dropped := drop_decoded (decoded f) in
      let released := if permit f then [PermitReleased] else [] in
      let f := f <| terminal := Some finish |> <| registered := false |> <| read_task := None |>
                 <| body := None |> <| decoded := None |> in
      let (f, es) := match finish with
                     | Success => finish_successful_body f
                     | Abort reason => finish_aborted_body reason f
                     end in
      let finished_request := negb (completed f) in
      let f := f <| permit := false |> <| completed := true |> in
      (true, f, [Unregistered] ++ es ++ released ++ dropped ++ aborted ++
                if finished_request then [RequestFinished (match finish with Abort _ => true | Success => false end)]
                else [])
  end.

Definition close (f : StreamStateFields) := stream_finish (Abort AbortClosed) true f.
Definition cancel (f : StreamStateFields) := stream_finish (Abort AbortCancelled) true f.
Definition fail (e : option TelemetryErrorType) (f : StreamStateFields) := stream_finish (Abort (AbortError e)) true f.
Definition abort_from_read (reason : ConnectionAbortReason) (f : StreamStateFields) :=
  stream_finish (Abort reason) false f.

Definition finish_transport_from_read (f : StreamStateFields) : StreamStateFields * list Effect :=
  match terminal f with Some _ => (f, []) | None => finish_successful_body f end.

Definition finish_read_delivery (f : StreamStateFields) : StreamStateFields :=
  match terminal f with
  | Some _ => f
  | None => f <| read_task := None |> <| read_in_progress := false |>
  end.

Definition complete_read (incoming : Incoming) (error : option string) (f : StreamStateFields) : StreamStateFields :=
  match terminal f with
  | Some _ => f
  | None => f <| body := Some incoming |> <| deferred_body_error := error |>
  end.

Definition register_read_task (i : nat) (f : StreamStateFields) : StreamStateFields * list Effect :=
  if is_some (terminal f) || negb (read_in_progress f) then (f, [ReadAborted i])
  else (f <| read_task := Some i |>, []).

Definition terminal_error_type (f : StreamStateFields) : option string :=
  if decoded_mode f then
    match terminal f with
    | Some (Abort (AbortError e)) => Some (telemetry_error_type_as_str (default RequestError e))
    | _ => None
    end
  else None.

(** ** Reads *)

(** Where a read is: before a lock, an await or a call of the decoder. *)
Inductive ReadStage :=
| ReadStart
| RawRead
| RawFrame (frame : option (result (option (list Z)) string))
| RawFailed (message : string)
| RawChunk (chunk : list Z) (error : option string)
| Succeeding (r : ReadResult)
| DecodeOpen
| DecodeTransport (next : bool)
| DecodeStep
| DecodeRefill
| DecodeFrame (frame : option (result (option (list Z)) string))
| DecodeFrameFailed (message : string)
| DecodeChunk (chunk : list Z)
| DecodeFinish
| Aborting (reason : TelemetryErrorType) (e : ReadFailure)
| Dropping (r : option ReadResult)
| Returned (r : option ReadResult)
| Panicked.

(** [StreamReadGuard] and where its task is. *)
Record Reader := {
  guard_body : option Incoming;
  guard_decoded : option DecodedStream;
  guard_deferred : option string;
  guard_coalescing : bool;
  guard_disarmed : bool;
  read_stage : ReadStage;
}.
#[export] Instance eta_Reader : Eta Reader := fun r =>
  Build_Reader (guard_body r) (guard_decoded r) (guard_deferred r) (guard_coalescing r) (guard_disarmed r) (read_stage r).

(** [start_read]. *)
Definition start_read (coalescing : bool) (f : StreamStateFields) :
    result (option Reader) ReadFailure * StreamStateFields :=
  match terminal f with
  | Some t =>
      (match t with
       | Abort _ => if decoded_mode f then Err ReadWasAborted else Ok None
       | Success => Ok None
       end, f)
  | None =>
      if read_in_progress f then (Err InProgress, f)
      else
        let guard b d e := {| guard_body := b; guard_decoded := d; guard_deferred := e;
                              guard_coalescing := coalescing; guard_disarmed := false; read_stage := ReadStart |} in
        match deferred_body_error f with
        | Some error =>
            (Ok (Some (guard None None (Some error))),
             f <| deferred_body_error := None |> <| read_in_progress := true |>)
        | None =>
            match body f, decoded f with
            | None, None => (Ok None, f)
            | b, d =>
                (Ok (Some (guard b d None)), f <| body := None |> <| decoded := None |> <| read_in_progress := true |>)
            end
        end
  end.

Inductive ReadEvent := Go | TimeoutElapsed | AbortRead.

Definition decode_error_type (e : StreamDecodeError) : TelemetryErrorType :=
  match e with
  | StreamTooLarge _ _ _ | StreamCounterOverflow => ResponseBodyTooLargeError
  | _ => ResponseDecodingError
  end.

(** One poll of the body under its timeout; [to] is where the frame goes. *)
Definition await_frame (to : option (result (option (list Z)) string) -> ReadStage) (r : Reader) : Reader :=
  match guard_body r with
  | None => r <| read_stage := Panicked |>
  | Some [] => r <| read_stage := to None |>
  | Some (FrameData data :: b) => r <| guard_body := Some b |> <| read_stage := to (Some (Ok (Some data))) |>
  | Some (FrameTrailers :: b) => r <| guard_body := Some b |> <| read_stage := to (Some (Ok None)) |>
  | Some (FrameError message :: b) => r <| guard_body := Some b |> <| read_stage := to (Some (Err message)) |>
  | Some (FramePending :: b) => r <| guard_body := Some b |>
  end.

Definition timed_out (r : Reader) : option Reader :=
  match guard_body r with
  | Some (FramePending :: _) => Some (r <| read_stage := Aborting ReadTimeout ReadTimedOut |>)
  | _ => None
  end.

(** The frame's data with the ready frames behind it. *)
Definition raw_data (data : list Z) (r : Reader) : Reader :=
  if guard_coalescing r then
    match guard_body r with
    | None => r <| read_stage := Panicked |>
    | Some b =>
        let '(outcome, chunk, b) := drain_ready_data_frames data b in
        r <| guard_body := Some b |>
          <| read_stage := match outcome with
                           | DrainEof => Succeeding (Chunk chunk)
                           | DrainError message => RawChunk chunk (Some message)
                           | DrainStopped => RawChunk chunk None
                           end |>
    end
  else r <| read_stage := RawChunk data None |>.

(** One call of the decoder. *)
Definition decode_step (r : Reader) : Reader :=
  match guard_decoded r with
  | None => r <| read_stage := Panicked |>
  | Some ds =>
      let (res, d) := decoder_step (decoded_input ds) (negb (is_some (guard_body r))) (decoded_decoder ds) in
      let put input := r <| guard_decoded := Some {| decoded_decoder := d; decoded_input := input |} |> in
      match res with
      | Err e => (put (decoded_input ds)) <| read_stage := Aborting (decode_error_type e) (DecodeFailed e) |>
      | Ok step =>
          if (length (decoded_input ds) <? consumed step)%nat then (put []) <| read_stage := Panicked |>
          else
            (put (drop (consumed step) (decoded_input ds)))
              <| read_stage := match output step, status step with
                               | Some out, _ => DecodeChunk out
                               | None, Finished => DecodeFinish
                               | None, NeedsInput => DecodeRefill
                               | None, Progress => DecodeOpen
                               end |>
      end
  end.

Definition transport_failure (message : string) (f : StreamStateFields) (r : Reader) : Reader :=
  let w := request_write_timeout f in
  r <| read_stage := Aborting (if w then WriteTimeout else RequestError) (TransportFailed w message) |>.

(** [Body::is_end_stream], of hyper. *)
Context (is_end_stream : Incoming -> bool).

Definition decode_open (f : StreamStateFields) (r : Reader) : Reader :=
  if is_some (terminal f) then r <| read_stage := Dropping (Some (ReadFailed ReadWasAborted)) |>
  else
    match guard_body r with
    | Some b =>
        if is_end_stream b then r <| guard_body := None |> <| read_stage := DecodeTransport true |>
        else r <| read_stage := DecodeStep |>
    | None => r <| read_stage := DecodeStep |>
    end.

Definition decode_frame (frame : option (result (option (list Z)) string)) (f : StreamStateFields) (r : Reader) :
    Reader :=
  if is_some (terminal f) then r <| read_stage := Dropping (Some (ReadFailed ReadWasAborted)) |>
  else
    match frame with
    | None => r <| guard_body := None |> <| read_stage := DecodeTransport false |>
    | Some (Err message) => r <| read_stage := DecodeFrameFailed message |>
    | Some (Ok None) => r <| read_stage := DecodeOpen |>
    | Some (Ok (Some data)) =>
        match guard_decoded r with
        | None => r <| read_stage := Panicked |>
        | Some ds => r <| guard_decoded := Some (Build_DecodedStream (decoded_decoder ds) data) |>
                       <| read_stage := DecodeOpen |>
        end
    end.

(** [Drop] of the guard, then of its fields. *)
Definition drop_guard (r : Reader) (f : StreamStateFields) : StreamStateFields * list Effect :=
  let dropped := drop_decoded (guard_decoded r) in
  if guard_disarmed r then (f, dropped)
  else let '(_, f, es) := abort_from_read AbortCancelled f in (f, es ++ dropped).

Definition returns (res : option ReadResult) (r : Reader) : Reader :=
  r <| guard_body := None |> <| guard_decoded := None |> <| guard_disarmed := true |> <| read_stage := Returned res |>.

(** [read_next_chunk] and [read_decoded_chunk]. *)
Definition reader_go (r : Reader) (f : StreamStateFields) : option (Reader * StreamStateFields * list Effect) :=
  match read_stage r with
  | ReadStart =>
      Some (if is_some (guard_decoded r) then r <| read_stage := DecodeOpen |>
            else match guard_deferred r with
                 | Some message => r <| guard_deferred := None |> <| read_stage := RawFailed message |>
                 | None => r <| read_stage := RawRead |>
                 end, f, [])
  | RawRead => Some (await_frame RawFrame r, f, [])
  | RawFrame frame =>
      Some (if is_some (terminal f) then r <| read_stage := Dropping (Some NoChunk) |>
            else match frame with
                 | None => r <| read_stage := Succeeding NoChunk |>
                 | Some (Err message) => r <| read_stage := RawFailed message |>
                 | Some (Ok None) => r <| read_stage := RawRead |>
                 | Some (Ok (Some data)) => raw_data data r
                 end, f, [])
  | RawFailed message | DecodeFrameFailed message => Some (transport_failure message f r, f, [])
  | RawChunk chunk error =>
      Some (match guard_body r with
            | None => (r <| read_stage := Panicked |>, f)
            | Some b => (returns (Some (Chunk chunk)) r, complete_read b error f)
            end, [])
  | Succeeding res =>
      let '(_, f, es) := stream_finish Success false f in
      Some (returns (Some res) r, f, es ++ drop_decoded (guard_decoded r))
  | DecodeOpen => Some (decode_open f r, f, [])
  | DecodeTransport next =>
      let (f, es) := finish_transport_from_read f in
      Some (r <| read_stage := if next then DecodeStep else DecodeOpen |>, f, es)
  | DecodeStep => Some (decode_step r, f, [])
  | DecodeRefill => Some (await_frame DecodeFrame r, f, [])
  | DecodeFrame frame => Some (decode_frame frame f r, f, [])
  | DecodeChunk chunk =>
      Some (if is_some (terminal f) then (r <| read_stage := Dropping (Some (ReadFailed ReadWasAborted)) |>, f)
            else (returns (Some (Chunk chunk)) r, f <| body := guard_body r |> <| decoded := guard_decoded r |>), [])
  | DecodeFinish =>
      let dropped := drop_decoded (guard_decoded r) in
      let '(ok, f, es) := stream_finish Success false f in
      Some (if ok : bool then returns (Some NoChunk) r
            else r <| guard_decoded := None |> <| read_stage := Dropping (Some (ReadFailed ReadWasAborted)) |>,
            f, dropped ++ es)
  | Aborting reason e =>
      let '(_, f, es) := abort_from_read (AbortError (Some reason)) f in
      Some (r <| read_stage := Dropping (Some (ReadFailed e)) |>, f, es)
  | Dropping res =>
      let (f, es) := drop_guard r f in Some (returns res r, f, es)
  | Returned _ | Panicked => None
  end.

Definition reader_step (e : ReadEvent) (r : Reader) (f : StreamStateFields) :
    option (Reader * StreamStateFields * list Effect) :=
  match e with
  | Go => reader_go r f
  | TimeoutElapsed =>
      match read_stage r with
      | RawRead | DecodeRefill => r ← timed_out r; Some (r, f, [])
      | _ => None
      end
  (** the task is aborted at an await: before it starts, at the body, at [yield_now] *)
  | AbortRead =>
      match read_stage r with
      | ReadStart | RawRead | DecodeRefill | DecodeOpen => Some (r <| read_stage := Dropping None |>, f, [])
      | _ => None
      end
  end.

(** ** The system *)

(** [returned] are the chunks that reads have returned. *)
Record System := {
  fields : StreamStateFields;
  readers : list Reader;
  effects : list Effect;
  returned : list (list Z);
}.
#[export] Instance eta_System : Eta System := fun s => Build_System (fields s) (readers s) (effects s) (returned s).

(** Whether the read still runs. *)
Definition reading (r : Reader) : bool := match read_stage r with Dropping _ | Returned _ => false | _ => true end.

Definition returned_chunk (r : Reader) : list (list Z) :=
  match read_stage r with Returned (Some (Chunk chunk)) => [chunk] | _ => [] end.

Definition with_fields (o : StreamStateFields * list Effect) (s : System) : System :=
  s <| fields := fst o |> <| effects ::= fun l => l ++ snd o |>.

Inductive system_step (s : System) : System -> Prop :=
| step_read coalescing :
    system_step s (let (res, f) := start_read coalescing (fields s) in
                   s <| fields := f |>
                     <| readers ::= fun rs => rs ++ match res with Ok (Some r) => [r] | _ => [] end |>)
| step_reader i e r r' f es :
    readers s !! i = Some r -> reader_step e r (fields s) = Some (r', f, es) ->
    system_step s (with_fields (f, es) s <| readers ::= <[i := r']> |> <| returned ::= fun l => l ++ returned_chunk r' |>)
| step_register i :
    is_Some (readers s !! i) -> system_step s (with_fields (register_read_task i (fields s)) s)
(** a result is delivered when its read has ended *)
| step_deliver :
    (forall r, r ∈ readers s -> reading r = false) ->
    system_step s (with_fields (finish_read_delivery (fields s), []) s)
| step_close op :
    op = close \/ op = cancel \/ (exists e, op = fail e) ->
    system_step s (with_fields (snd (fst (op (fields s))), snd (op (fields s))) s)
(** [StreamRegistry::abort_all] *)
| step_abort_all :
    registered (fields s) = true ->
    system_step s (with_fields (snd (fst (close (fields s))), snd (close (fields s))) s)
(** the request is completed elsewhere; the upload of the connection times out *)
| step_complete : system_step s (s <| fields ::= fun f => f <| completed := true |> |>)
| step_write_timeout : system_step s (s <| fields ::= fun f => f <| write_timed_out := true |> |>).

Definition initial (f : StreamStateFields) : System := {| fields := f; readers := []; effects := []; returned := [] |}.

Definition reachable (f : StreamStateFields) : System -> Prop := rtc system_step (initial f).
End stream.

(** ** Everything is released once *)

Definition b2z (b : bool) : Z := if b then 1 else 0.

Definition count (p : Effect -> bool) (es : list Effect) : Z := sum_over (fun e => b2z (p e)) es.

Definition is_connection_end (e : Effect) : bool :=
  match e with ConnectionFinished _ | ConnectionAborted _ => true | _ => false end.
Definition is_body_end (e : Effect) : bool := match e with BodyFinished _ => true | _ => false end.
Definition is_permit_release (e : Effect) : bool := match e with PermitReleased => true | _ => false end.
Definition is_unregistered (e : Effect) : bool := match e with Unregistered => true | _ => false end.
Definition is_reservation_release (e : Effect) : bool := match e with ReservationReleased => true | _ => false end.
Definition is_request_end (e : Effect) : bool := match e with RequestFinished _ => true | _ => false end.

Definition is_abort (t : StreamFinish) : bool := match t with Abort _ => true | Success => false end.

Section released.
Context `{StreamCodecs}.

(** [f0] is the initial state, [g] the number of decoders that reads own, [es] the
    effects so far. *)
Record released (f0 f : StreamStateFields) (g : Z) (es : list Effect) : Prop := {
  ok_connection : count is_connection_end es = b2z (connection_use f0) - b2z (connection_use f);
  ok_body : count is_body_end es = 1 - b2z (is_some (lifecycle f));
  ok_lifecycle : lifecycle f = Some None \/ lifecycle f = None;
  ok_permit : count is_permit_release es = 1 - b2z (permit f);
  ok_registered : count is_unregistered es = 1 - b2z (registered f);
  ok_reservation : count is_reservation_release es = b2z (is_some (decoded f0)) - b2z (is_some (decoded f)) - g;
  ok_request : count is_request_end es <= b2z (is_some (terminal f));
  ok_outcome : successful_body_outcome f = successful_body_outcome f0;
  ok_open : terminal f = None -> permit f = true /\ registered f = true;
  ok_terminal : forall t, terminal f = Some t ->
    connection_use f = false /\ lifecycle f = None /\ permit f = false /\ registered f = false /\
    body f = None /\ decoded f = None /\ read_task f = None /\ completed f = true;
  ok_failed : forall b, RequestFinished b ∈ es -> exists t, terminal f = Some t /\ b = is_abort t;
  ok_end : forall o, BodyFinished o ∈ es ->
    o = successful_body_outcome f \/ o = Metrics.Aborted /\ exists reason, terminal f = Some (Abort reason);
}.

Lemma count_app p es es' : count p (es ++ es') = count p es + count p es'.
Proof. apply sum_over_app. Qed.

(** An update of the fields that releases nothing and only moves a decoder. *)
Lemma released_quiet f0 f f' g g' es :
  released f0 f g es ->
  connection_use f' = connection_use f -> lifecycle f' = lifecycle f -> permit f' = permit f ->
  registered f' = registered f -> terminal f' = terminal f ->
  successful_body_outcome f' = successful_body_outcome f ->
  b2z (is_some (decoded f')) + g' = b2z (is_some (decoded f)) + g ->
  (forall t, terminal f = Some t -> body f' = None /\ decoded f' = None /\ read_task f' = None /\ completed f' = true) ->
  released f0 f' g' es.
Proof.
  intros [] E1 E2 E3 E4 E5 E6 E7 Ht. split; rewrite ?E1, ?E2, ?E3, ?E4, ?E5, ?E6; try done.
  - lia.
  - intros t Hf. destruct (ok_terminal0 t Hf) as (? & ? & ? & ? & _). destruct (Ht t Hf) as (? & ? & ? & ?). done.
Qed.

Lemma released_drop f0 f d g es :
  released f0 f (b2z (is_some d) + g) es -> released f0 f g (es ++ drop_decoded d).
Proof.
  destruct d as [d|]; cbn; intros Hr; [|by rewrite app_nil_r]. destruct Hr.
  split; rewrite ?count_app; cbn; rewrite ?Z.add_0_r; try done; try (cbn in *; lia).
  - intros b [Hb|Hb%list_elem_of_singleton]%elem_of_app; [auto|done].
  - intros o [Hb|Hb%list_elem_of_singleton]%elem_of_app; [auto|done].
Qed.

Lemma released_other f0 f g es e :
  released f0 f g es -> (match e with ReadAborted _ => True | _ => False end) -> released f0 f g (es ++ [e]).
Proof.
  intros [] He. destruct e; try done. split; rewrite ?count_app; cbn; rewrite ?Z.add_0_r; try done.
  - intros b [Hb|Hb%list_elem_of_singleton]%elem_of_app; [auto|done].
  - intros o [Hb|Hb%list_elem_of_singleton]%elem_of_app; [auto|done].
Qed.

(** The end of the body, on which the connection use and the lifecycle end. *)
Lemma finish_successful_cases f :
  lifecycle f = Some None \/ lifecycle f = None ->
  finish_successful_body f =
    (f <| connection_use := false |> <| lifecycle := None |>,
     (if connection_use f then [ConnectionFinished (successful_body_outcome f)] else []) ++
     (if is_some (lifecycle f) then [BodyFinished (successful_body_outcome f)] else [])).
Proof. unfold finish_successful_body, finish_lifecycle. intros [Hl|Hl]; cbn; rewrite Hl; cbn; [done|]. destruct f; cbn in *; by subst. Qed.

Lemma finish_aborted_cases reason f :
  lifecycle f = Some None \/ lifecycle f = None ->
  finish_aborted_body reason f =
    (f <| connection_use := false |> <| lifecycle := None |>,
     (if connection_use f then [ConnectionAborted reason] else []) ++
     (if is_some (lifecycle f) then [BodyFinished Metrics.Aborted] else [])).
Proof. unfold finish_aborted_body, finish_lifecycle. intros [Hl|Hl]; cbn; rewrite Hl; cbn; [done|]. destruct f; cbn in *; by subst. Qed.

Lemma released_transport f0 f g es :
  released f0 f g es -> released f0 (fst (finish_transport_from_read f)) g (es ++ snd (finish_transport_from_read f)).
Proof.
  intros Hr. unfold finish_transport_from_read. destruct (terminal f) eqn:Ht; [cbn; by rewrite app_nil_r|].
  destruct Hr. rewrite finish_successful_cases by done. cbn.
  split; rewrite ?count_app; cbn; try done.
  - rewrite ok_connection0. destruct (connection_use f), (is_some (lifecycle f)); cbn; lia.
  - rewrite ok_body0. destruct (connection_use f), (is_some (lifecycle f)); cbn; lia.
  - by right.
  - rewrite ok_permit0. destruct (connection_use f), (is_some (lifecycle f)); cbn; lia.
  - rewrite ok_registered0. destruct (connection_use f), (is_some (lifecycle f)); cbn; lia.
  - rewrite ok_reservation0. destruct (connection_use f), (is_some (lifecycle f)); cbn; lia.
  - destruct (connection_use f), (is_some (lifecycle f)); cbn; lia.
  - intros t Hf. congruence.
  - intros b. rewrite !elem_of_app. destruct (connection_use f), (is_some (lifecycle f)); cbn; set_solver.
  - intros o. rewrite !elem_of_app. intros [Ho|Ho]; [auto|]. left.
    destruct (connection_use f), (is_some (lifecycle f)); set_solver.
Qed.

(** What the first [finish] releases. *)
Definition connection_end (finish : StreamFinish) (f : StreamStateFields) : Effect :=
  match finish with
  | Success => ConnectionFinished (successful_body_outcome f)
  | Abort reason => ConnectionAborted reason
  end.
Definition body_end (finish : StreamFinish) (f : StreamStateFields) : Effect :=
  BodyFinished (match finish with Success => successful_body_outcome f | Abort _ => Metrics.Aborted end).
Definition aborted_read (ab : bool) (f : StreamStateFields) : list Effect :=
  match read_task f with Some i => if ab then [ReadAborted i] else [] | None => [] end.
Definition closing_effects (finish : StreamFinish) (ab : bool) (f : StreamStateFields) : list Effect :=
  [Unregistered] ++
  ((if connection_use f then [connection_end finish f] else []) ++
   (if is_some (lifecycle f) then [body_end finish f] else [])) ++
  (if permit f then [PermitReleased] else []) ++ drop_decoded (decoded f) ++ aborted_read ab f ++
  (if completed f then [] else [RequestFinished (is_abort finish)]).

Lemma stream_finish_open finish ab f :
  terminal f = None -> lifecycle f = Some None \/ lifecycle f = None ->
  stream_finish finish ab f =
    (true,
     f <| terminal := Some finish |> <| registered := false |> <| read_task := None |> <| body := None |>
       <| decoded := None |> <| connection_use := false |> <| lifecycle := None |> <| permit := false |>
       <| completed := true |>,
     closing_effects finish ab f).
Proof.
  intros Ht Hl. unfold stream_finish, closing_effects, connection_end, body_end, aborted_read. rewrite Ht.
  destruct finish as [|reason].
  - rewrite finish_successful_cases by done. cbn. by destruct (completed f).
  - rewrite finish_aborted_cases by done. cbn. by destruct (completed f).
Qed.

(** [stream_finish] does nothing after the first. *)
Lemma stream_finish_closed finish ab f t : terminal f = Some t -> stream_finish finish ab f = (false, f, []).
Proof. unfold stream_finish. by intros ->. Qed.

Lemma closing_counts p finish ab f :
  (forall i, p (ReadAborted i) = false) ->
  count p (closing_effects finish ab f) =
    b2z (p Unregistered) + (if connection_use f then b2z (p (connection_end finish f)) else 0) +
    (if is_some (lifecycle f) then b2z (p (body_end finish f)) else 0) + (if permit f then b2z (p PermitReleased) else 0) +
    (if is_some (decoded f) then b2z (p ReservationReleased) else 0) +
    (if completed f then 0 else b2z (p (RequestFinished (is_abort finish)))).
Proof.
  intros Hp. unfold closing_effects. rewrite !count_app.
  assert (count p (aborted_read ab f) = 0) as ->.
  { unfold aborted_read. destruct (read_task f), ab; unfold count; cbn; by rewrite ?Hp. }
  destruct (connection_use f), (is_some (lifecycle f)), (permit f), (decoded f), (completed f); unfold count; cbn; lia.
Qed.

Lemma closing_ends finish ab f :
  Forall (fun e => match e with
                   | RequestFinished b => b = is_abort finish
                   | BodyFinished o => o = match finish with Success => successful_body_outcome f | Abort _ => Metrics.Aborted end
                   | _ => True
                   end) (closing_effects finish ab f).
Proof.
  unfold closing_effects, connection_end, body_end, aborted_read, drop_decoded.
  rewrite !Forall_app. split_and!; repeat case_match; by repeat constructor.
Qed.

#[local] Arguments closing_effects : simpl never.

Lemma released_finish f0 f g es finish ab :
  released f0 f g es ->
  released f0 (snd (fst (stream_finish finish ab f))) g (es ++ snd (stream_finish finish ab f)).
Proof.
  intros Hr. destruct (terminal f) as [t|] eqn:Ht.
  { rewrite (stream_finish_closed _ _ _ _ Ht). cbn. by rewrite app_nil_r. }
  destruct Hr. destruct (ok_open0 Ht) as [Hp Hreg]. rewrite Ht in ok_request0.
  rewrite stream_finish_open by done. cbn [fst snd].
  split; rewrite ?count_app, ?closing_counts by done; cbn; rewrite ?Hp, ?Hreg in *; try done.
  - rewrite ok_connection0. unfold connection_end.
    destruct (connection_use f), (is_some (lifecycle f)), (is_some (decoded f)), (completed f), finish; cbn; lia.
  - rewrite ok_body0.
    destruct (connection_use f), (is_some (lifecycle f)), (is_some (decoded f)), (completed f), finish; cbn; lia.
  - by right.
  - rewrite ok_permit0.
    destruct (connection_use f), (is_some (lifecycle f)), (is_some (decoded f)), (completed f), finish; cbn; lia.
  - rewrite ok_registered0.
    destruct (connection_use f), (is_some (lifecycle f)), (is_some (decoded f)), (completed f), finish; cbn; lia.
  - rewrite ok_reservation0.
    destruct (connection_use f), (is_some (lifecycle f)), (is_some (decoded f)), (completed f), finish; cbn; lia.
  - cbn in ok_request0.
    destruct (connection_use f), (is_some (lifecycle f)), (is_some (decoded f)), (completed f), finish; cbn; lia.
  - intros b [Hb|Hb]%elem_of_app; [destruct (ok_failed0 b Hb) as (? & ? & _); congruence|].
    pose proof (proj1 (Forall_forall _ _) (closing_ends finish ab f) _ Hb) as ->. eauto.
  - intros o [Ho|Ho]%elem_of_app.
    + destruct (ok_end0 o Ho) as [?|(_ & reason & ?)]; [by left|congruence].
    + pose proof (proj1 (Forall_forall _ _) (closing_ends finish ab f) _ Ho) as ->. destruct finish; [by left|right; eauto].
Qed.
End released.

#[local] Arguments closing_effects : simpl never.

Section invariant.
Context `{StreamCodecs} (is_end_stream : Incoming -> bool).

Abbreviation reader_step := (reader_step is_end_stream).
Abbreviation system_step := (system_step is_end_stream).
Abbreviation reachable := (reachable is_end_stream).

(** The stages of a read without a decoder: a raw one, and one that has ended. *)
Definition raw_stage (st : ReadStage) : bool :=
  match st with RawRead | RawFrame _ | RawFailed _ | RawChunk _ _ | Succeeding _ | Returned _ => true | _ => false end.

Definition decode_stage (st : ReadStage) : bool :=
  match st with
  | DecodeOpen | DecodeTransport _ | DecodeStep | DecodeRefill | DecodeFrame _ | DecodeFrameFailed _ | DecodeChunk _
  | DecodeFinish => true
  | _ => false
  end.

(** A read of a decoded stream owns the decoder, a raw read has none. *)
Definition reader_wf (r : Reader) : Prop :=
  (raw_stage (read_stage r) = true -> guard_decoded r = None) /\
  (decode_stage (read_stage r) = true -> is_some (guard_decoded r) = true).

Definition owns_decoder (r : Reader) : Z := b2z (is_some (guard_decoded r)).

Lemma released_same f0 f G es : released f0 f G es -> released f0 f G (es ++ []).
Proof. by rewrite app_nil_r. Qed.

Lemma released_finish_eq f0 f g es finish ab ok f' es' :
  released f0 f g es -> stream_finish finish ab f = (ok, f', es') -> released f0 f' g (es ++ es').
Proof. intros Hr E. pose proof (released_finish f0 f g es finish ab Hr) as Hr'. by rewrite E in Hr'. Qed.

Lemma owns_await to r : owns_decoder (await_frame to r) = owns_decoder r.
Proof. unfold await_frame. by destruct (guard_body r) as [[|[] b]|]. Qed.

Lemma owns_raw_data d r : owns_decoder (raw_data d r) = owns_decoder r.
Proof.
  unfold raw_data. destruct (guard_coalescing r), (guard_body r); try done.
  by destruct (drain_ready_data_frames _ _) as [[? ?] ?].
Qed.

Lemma owns_decode_step r : owns_decoder (decode_step r) = owns_decoder r.
Proof.
  unfold decode_step. destruct (guard_decoded r) as [ds|] eqn:Hd; [|done].
  unfold owns_decoder. rewrite Hd. destruct (decoder_step _ _ _) as [[step|e] d]; [|done]. by destruct (_ <? _)%nat.
Qed.

Lemma owns_decode_open f r : owns_decoder (decode_open is_end_stream f r) = owns_decoder r.
Proof. unfold decode_open. destruct (is_some _); [done|]. destruct (guard_body r) as [b|]; [|done]. by destruct (is_end_stream b). Qed.

Lemma owns_decode_frame fr f r : owns_decoder (decode_frame fr f r) = owns_decoder r.
Proof.
  unfold decode_frame. destruct (is_some _); [done|]. destruct fr as [[[d|]|m]|]; try done.
  unfold owns_decoder. by destruct (guard_decoded r) eqn:E; cbn; rewrite ?E.
Qed.

Lemma wf_await to r :
  reader_wf r -> (forall o, raw_stage (to o) = raw_stage (read_stage r) /\ decode_stage (to o) = decode_stage (read_stage r)) ->
  reader_wf (await_frame to r).
Proof.
  intros [H1 H2] Hto. unfold await_frame, reader_wf in *.
  destruct (guard_body r) as [[|[] b]|]; cbn; try done; match goal with |- context [to ?o] => destruct (Hto o) as [-> ->]; done end.
Qed.

(** A step to another stage keeps the decoder. *)
Lemma wf_stage st r : reader_wf r ->
  (raw_stage st = true -> raw_stage (read_stage r) = true) ->
  (decode_stage st = true -> decode_stage (read_stage r) = true) -> reader_wf (r <| read_stage := st |>).
Proof. intros [H1 H2] Hr Hd. split; cbn; auto. Qed.

(** The decoder of a reader after a change of its stage. *)
Ltac wf := solve [split; cbn; intros; first [done|match goal with E : guard_decoded _ = _ |- _ => by rewrite E end]].

Lemma reader_go_released f0 f G es r r' f' es' :
  0 <= G -> released f0 f (G + owns_decoder r) es -> reader_wf r -> reader_go is_end_stream r f = Some (r', f', es') ->
  released f0 f' (G + owns_decoder r') (es ++ es') /\ reader_wf r'.
Proof.
  intros HG Hr Hwf Hstep. pose proof Hwf as [Hraw Hdec].
  assert (Hsame : forall r1, owns_decoder r1 = owns_decoder r -> reader_wf r1 ->
    Some (r1, f, []) = Some (r', f', es') -> released f0 f' (G + owns_decoder r') (es ++ es') /\ reader_wf r').
  { intros r1 E W [= <- <- <-]. rewrite E. split; [by apply released_same|done]. }
  unfold reader_go in Hstep.
  destruct (read_stage r) as [| |frame|m|chunk error|res| |next| | |frame|m|chunk| |reason e|res|res|] eqn:Hst; try done;
    cbn in Hraw, Hdec; try specialize (Hraw eq_refl); try specialize (Hdec eq_refl).
  - eapply Hsame; [| |exact Hstep].
    + destruct (is_some (guard_decoded r)); [done|]. by destruct (guard_deferred r).
    + destruct (guard_decoded r) eqn:Hd; cbn; [wf|]. by destruct (guard_deferred r); wf.
  - apply (Hsame (await_frame RawFrame r)); [apply owns_await|apply wf_await; [done|by rewrite Hst]|exact Hstep].
  - eapply Hsame; [| |exact Hstep].
    + destruct (is_some (terminal f)); [done|]. destruct frame as [[[d|]|m]|]; try done. apply owns_raw_data.
    + destruct (is_some (terminal f)); [wf|]. destruct frame as [[[d|]|m]|]; try wf.
      unfold raw_data. destruct (guard_coalescing r), (guard_body r) as [b|]; try wf.
      destruct (drain_ready_data_frames d b) as [[[] ?] ?]; wf.
  - eapply Hsame; [| |exact Hstep]; [done|wf].
  - destruct (guard_body r) as [b|]; cbn in Hstep; [|(eapply Hsame; [| |exact Hstep]; [done|wf])].
    injection Hstep as <- <- <-. unfold owns_decoder in *. rewrite Hraw in Hr. cbn in *. rewrite app_nil_r. split; [|done].
    unfold complete_read. destruct (terminal f) eqn:Ht; [done|]. eapply released_quiet; try done. congruence.
  - destruct (stream_finish Success false f) as [[ok f1] es1] eqn:Hf. injection Hstep as <- <- <-.
    unfold owns_decoder in *. rewrite Hraw in *. cbn in *. rewrite app_nil_r. split; [|done].
    by eapply released_finish_eq.
  - eapply Hsame; [apply owns_decode_open| |exact Hstep]. unfold decode_open.
    destruct (is_some (terminal f)); [wf|]. destruct (guard_body r) as [b|]; [|wf]. destruct (is_end_stream b); wf.
  - pose proof (released_transport _ _ _ _ Hr) as Hr'. destruct (finish_transport_from_read f) as [f1 es1].
    injection Hstep as <- <- <-. split; [exact Hr'|]. destruct next; wf.
  - eapply Hsame; [apply owns_decode_step| |exact Hstep]. unfold decode_step.
    destruct (guard_decoded r) eqn:Hd; [|done]. destruct (decoder_step _ _ _) as [[step|e] d']; [|done].
    destruct (_ <? _)%nat; [done|]. destruct (output step), (status step); wf.
  - apply (Hsame (await_frame DecodeFrame r)); [apply owns_await|apply wf_await; [done|by rewrite Hst]|exact Hstep].
  - eapply Hsame; [apply owns_decode_frame| |exact Hstep]. unfold decode_frame.
    destruct (is_some (terminal f)); [wf|]. destruct frame as [[[d|]|m]|]; try wf. destruct (guard_decoded r); wf.
  - eapply Hsame; [| |exact Hstep]; [done|wf].
  - destruct (terminal f) eqn:Ht; cbn in Hstep; [by eapply Hsame; [| |exact Hstep]|].
    injection Hstep as <- <- <-. split; [|done]. rewrite app_nil_r. unfold owns_decoder in *. rewrite Hdec in *. cbn in *.
    assert (Hnone : decoded f = None).
    { destruct Hr. assert (0 <= count is_reservation_release es) by (apply sum_over_nonneg; intros []; cbn; lia).
      destruct (decoded f); [|done]. cbn in *. destruct (is_some (decoded f0)); cbn in *; lia. }
    eapply released_quiet; try done; cbn; [rewrite Hdec, Hnone; cbn; lia|congruence].
  - destruct (stream_finish Success false f) as [[ok f1] es1] eqn:Hf.
    assert (Hr1 : released f0 f1 G (es ++ drop_decoded (guard_decoded r) ++ es1)).
    { rewrite app_assoc. eapply released_finish_eq; [|done]. apply released_drop. by rewrite Z.add_comm. }
    destruct ok; injection Hstep as <- <- <-; unfold owns_decoder; cbn; rewrite Z.add_0_r; (split; [exact Hr1|done]).
  - unfold abort_from_read in Hstep. destruct (stream_finish _ false f) as [[ok f1] es1] eqn:Hf.
    injection Hstep as <- <- <-. split; [by eapply released_finish_eq|wf].
  - unfold drop_guard in Hstep.
    destruct (guard_disarmed r).
    + injection Hstep as <- <- <-. unfold owns_decoder. cbn. rewrite Z.add_0_r. split; [|done].
      apply released_drop. by rewrite Z.add_comm.
    + unfold abort_from_read in Hstep. destruct (stream_finish _ false f) as [[ok f1] es1] eqn:Hf.
      injection Hstep as <- <- <-. unfold owns_decoder. cbn. rewrite Z.add_0_r, app_assoc. split; [|done].
      apply released_drop. rewrite Z.add_comm. by eapply released_finish_eq.
Qed.

Lemma reader_step_released f0 f G es e r r' f' es' :
  0 <= G -> released f0 f (G + owns_decoder r) es -> reader_wf r -> reader_step e r f = Some (r', f', es') ->
  released f0 f' (G + owns_decoder r') (es ++ es') /\ reader_wf r'.
Proof.
  intros HG Hr Hwf. destruct e; cbn; [by apply reader_go_released| |].
  - unfold timed_out. destruct (read_stage r), (guard_body r) as [[|[] b]|]; try done; intros [= <- <- <-];
      (split; [by apply released_same|wf]).
  - destruct (read_stage r); try done; intros [= <- <- <-]; (split; [by apply released_same|wf]).
Qed.

Record system_released (f0 : StreamStateFields) (s : System) : Prop := {
  ok_released : released f0 (fields s) (sum_over owns_decoder (readers s)) (effects s);
  ok_readers : forall r, r ∈ readers s -> reader_wf r;
}.

Lemma owns_nonneg rs : 0 <= sum_over owns_decoder rs.
Proof. apply sum_over_nonneg. intros r. unfold owns_decoder. by destruct (guard_decoded r). Qed.

Lemma start_read_cases coalescing (f : StreamStateFields) :
  (exists r f', start_read coalescing f = (Ok (Some r), f') /\ terminal f = None /\ read_in_progress f = false /\
     read_stage r = ReadStart /\ guard_disarmed r = false /\
     (guard_body r = body f /\ guard_decoded r = decoded f /\ guard_deferred r = None /\
        is_some (body f) || is_some (decoded f) = true /\
        f' = f <| body := None |> <| decoded := None |> <| read_in_progress := true |> \/
      guard_body r = None /\ guard_decoded r = None /\ is_Some (guard_deferred r) /\
        f' = f <| deferred_body_error := None |> <| read_in_progress := true |>)) \/
  (exists res, start_read coalescing f = (res, f) /\ forall r, res <> Ok (Some r)).
Proof.
  unfold start_read. destruct (terminal f) as [[|reason]|] eqn:Ht.
  - right. by eexists.
  - right. eexists. split; [done|]. by destruct (decoded_mode f).
  - destruct (read_in_progress f) eqn:Hp; [right; by eexists|].
    destruct (deferred_body_error f) as [error|] eqn:He.
    + left. do 2 eexists. split_and!; try done. right. split_and!; by eauto.
    + destruct (body f) as [b|] eqn:Hb; [|destruct (decoded f) as [d|] eqn:Hd; [|right; by eexists]];
        (left; do 2 eexists; split_and!; try done; left; by rewrite ?Hb, ?Hd).
Qed.

Lemma system_released_step f0 s s' : system_released f0 s -> system_step s s' -> system_released f0 s'.
Proof.
  intros [Hr Hwf]. destruct 1 as [coalescing|i e r r' f es Hi Hstep|i Hi|Hall|op Hop|Hreg| |].
  - destruct (start_read_cases coalescing (fields s)) as [(r & f' & -> & Ht & _ & Hst & _ & Hcase)|(res & -> & Hno)].
    + split; cbn.
      * rewrite sum_over_app. cbn. rewrite Z.add_0_r.
        destruct Hcase as [(_ & Hd & _ & _ & ->)|(_ & Hd & _ & ->)]; unfold owns_decoder at 2; rewrite Hd;
          eapply released_quiet; try done; cbn; try lia; congruence.
      * intros x [Hx| ->%list_elem_of_singleton]%elem_of_app; [auto|]. split; by rewrite Hst.
    + assert (match res with Ok (Some r) => [r] | _ => [] end = []) as ->.
      { destruct res as [[r|]|]; try done. by destruct (Hno r). }
      split; cbn; rewrite ?app_nil_r; done.
  - assert (Hwfr : reader_wf r) by (apply Hwf; by eapply list_elem_of_lookup_2).
    pose proof (sum_over_insert owns_decoder _ _ _ r' Hi) as Hsum.
    assert (Hrest : 0 <= sum_over owns_decoder (readers s) - owns_decoder r).
    { pose proof (sum_over_member owns_decoder (readers s) i r) as Hm.
      enough (owns_decoder r <= sum_over owns_decoder (readers s)) by lia. apply Hm; [|done].
      intros x. unfold owns_decoder. by destruct (guard_decoded x). }
    destruct (reader_step_released f0 (fields s) (sum_over owns_decoder (readers s) - owns_decoder r) (effects s) e r r' f es)
      as [Hr' Hwf']; [done|by rewrite Z.sub_add|done|done|].
    split; cbn.
    + by rewrite Hsum.
    + intros x Hx. apply list_elem_of_lookup in Hx as [j Hj].
      apply list_lookup_insert_Some in Hj as [(_ & <- & _)|[_ Hj]]; [done|]. apply Hwf. by eapply list_elem_of_lookup_2.
  - split; [|done]. unfold register_read_task. destruct (terminal (fields s)) eqn:Ht; cbn.
    { by apply released_other. }
    destruct (read_in_progress (fields s)) eqn:Hp; cbn; [|by apply released_other].
    rewrite app_nil_r. eapply released_quiet; try done; cbn; congruence.
  - split; [|done]. cbn. rewrite app_nil_r. unfold finish_read_delivery. destruct (terminal (fields s)) eqn:Ht; [done|].
    eapply released_quiet; try done; cbn; congruence.
  - split; [|done]. cbn. destruct Hop as [->|[->|[e ->]]]; by apply released_finish.
  - split; [|done]. cbn. by apply released_finish.
  - split; [|done]. cbn. destruct Hr. split; try done. intros t Ht. destruct (ok_terminal0 t Ht) as (?&?&?&?&?&?&?&?). done.
  - split; [|done]. cbn. destruct Hr. split; try done. 
Qed.

Lemma system_released_initial incoming d used outcome :
  system_released (stream_state_new incoming d used outcome) (initial (stream_state_new incoming d used outcome)).
Proof.
  split; cbn; [|by intros r ?%elem_of_nil].
  split; cbn; try done; try lia; [by left|by intros b ?%elem_of_nil|by intros o ?%elem_of_nil].
Qed.

Lemma reachable_released incoming d used outcome s :
  reachable (stream_state_new incoming d used outcome) s ->
  system_released (stream_state_new incoming d used outcome) s.
Proof.
  revert s. apply rtc_ind_r; [apply system_released_initial|]. intros s s' _ Hstep IH. by eapply system_released_step.
Qed.

(** Whether a read has returned, or its task was dropped. *)
Definition ended (r : Reader) : bool := match read_stage r with Returned _ => true | _ => false end.

(** C31: A streamed response releases what it holds exactly once, however reads, [close],
    [cancel], failures, aborted tasks and the client's shutdown interleave.  The permit,
    the connection use, the body's lifecycle, the registration and the decoder's
    reservation are each released at most once; once the stream is terminal all of them
    are, the reservation as soon as the reads have ended; the request is reported at most
    once and failed exactly when the stream was aborted; before that the permit is kept.
    The body counts as aborted only if the stream was. *)
Theorem stream_released_once incoming d used outcome s :
  reachable (stream_state_new incoming d used outcome) s ->
  count is_connection_end (effects s) <= 1 /\ count is_body_end (effects s) <= 1 /\
  count is_permit_release (effects s) <= 1 /\ count is_unregistered (effects s) <= 1 /\
  count is_reservation_release (effects s) <= 1 /\ count is_request_end (effects s) <= 1 /\
  (forall t, terminal (fields s) = Some t ->
     count is_connection_end (effects s) = b2z used /\ count is_body_end (effects s) = 1 /\
     count is_permit_release (effects s) = 1 /\ count is_unregistered (effects s) = 1 /\
     (forall b, RequestFinished b ∈ effects s -> b = is_abort t) /\
     (forall o, BodyFinished o ∈ effects s -> o = outcome \/ o = Metrics.Aborted /\ is_abort t = true) /\
     ((forall r, r ∈ readers s -> ended r = true) -> count is_reservation_release (effects s) = b2z (is_some d))) /\
  (terminal (fields s) = None ->
     count is_permit_release (effects s) = 0 /\ count is_request_end (effects s) = 0 /\
     count is_unregistered (effects s) = 0).
Proof.
  intros Hr. destruct (reachable_released _ _ _ _ _ Hr) as [[] Hwf].
  assert (Hb : forall b, 0 <= b2z b <= 1) by (intros []; cbn; lia).
  pose proof (Hb (connection_use (fields s))). pose proof (Hb (is_some (lifecycle (fields s)))). pose proof (Hb used).
  pose proof (Hb (permit (fields s))). pose proof (Hb (registered (fields s))). pose proof (Hb (is_some d)).
  pose proof (Hb (is_some (decoded (fields s)))). pose proof (Hb (is_some (terminal (fields s)))).
  pose proof (owns_nonneg (readers s)).
  split_and!; try (cbn in *; lia).
  - intros t Ht. destruct (ok_terminal0 t Ht) as (E1 & E2 & E3 & E4 & _ & E5 & _).
    rewrite E1 in *. rewrite E2 in *. rewrite E3 in *. rewrite E4 in *. rewrite E5 in *. cbn in *.
    split_and!; try (cbn in *; lia).
    + intros b Hin. destruct (ok_failed0 b Hin) as (t' & ? & ->). congruence.
    + intros o Hin. destruct (ok_end0 o Hin) as [->|(-> & reason & Hab)]; [by left|]. right. rewrite Ht in Hab.
      by injection Hab as ->.
    + intros Hended. rewrite ok_reservation0, sum_over_zero; [lia|]. intros r Hin. destruct (Hwf r Hin) as [Hraw _].
      specialize (Hended r Hin). unfold ended in Hended. unfold owns_decoder. rewrite Hraw; [done|].
      by destruct (read_stage r).
  - intros Ht. destruct (ok_open0 Ht) as [E1 E2]. rewrite Ht, E1, E2 in *. cbn in *.
    assert (0 <= count is_request_end (effects s)) by (apply sum_over_nonneg; intros []; cbn; lia). lia.
Qed.
End invariant.

(** ** What reads return *)

Section delivery.
Context `{StreamCodecs, !CodecLaws} (is_end_stream : Incoming -> bool).
(** hyper: at the end of the stream no frame is left. *)
Context (end_stream_law : forall b, is_end_stream b = true -> body_data b = []).
(** the data of the response's body; how it is decoded, if it is *)
Context (all : list Z) (mode : option (StreamingDecodePlan * option Z)).
Context (limits : forall plan max, mode = Some (plan, max) -> within max 0).

(** Who holds the body or the decoder: with the data between them and the caller. *)
Record Holding := {
  h_body : option Incoming;
  h_decoded : option DecodedStream;
  h_out : list Z;
  h_in : list Z;
}.

Definition stage_out (st : ReadStage) : list Z :=
  match st with
  | RawFrame (Some (Ok (Some data))) => data
  | RawChunk chunk _ | Succeeding (Chunk chunk) | DecodeChunk chunk => chunk
  | _ => []
  end.
Definition stage_in (st : ReadStage) : list Z := match st with DecodeFrame (Some (Ok (Some data))) => data | _ => [] end.

Definition holds (st : ReadStage) : bool :=
  match st with
  | RawFailed _ | DecodeFrameFailed _ | Aborting _ _ | Dropping _ | Returned _ | Panicked => false
  | _ => true
  end.

Definition reader_holding (r : Reader) : option Holding :=
  if holds (read_stage r) && (is_some (guard_body r) || is_some (guard_decoded r)) then
    Some {| h_body := guard_body r; h_decoded := guard_decoded r; h_out := stage_out (read_stage r);
            h_in := stage_in (read_stage r) |}
  else None.

Definition fields_holding (f : StreamStateFields) : option Holding :=
  if is_some (body f) || is_some (decoded f) then
    Some {| h_body := body f; h_decoded := decoded f; h_out := []; h_in := [] |}
  else None.

(** What is held continues what was returned. *)
Definition holding_ok (ret : list Z) (h : Holding) : Prop :=
  match mode with
  | None => h_decoded h = None /\ exists b, h_body h = Some b /\ all = ret ++ h_out h ++ body_data b
  | Some (plan, max) => exists ds hist i,
      h_decoded h = Some ds /\ decoding plan max (decoded_decoder ds) hist i (ret ++ h_out h) /\
      all = i ++ decoded_input ds ++ h_in h ++ default [] (body_data <$> h_body h) /\
      (source_done (decoded_decoder ds) -> decoded_input ds = [] /\ h_body h = None /\ h_in h = [])
  end.

(** What was returned is a prefix of the content, and all of it after a success. *)
Definition deliver_ok (ret : list Z) (t : option StreamFinish) : Prop :=
  match mode with
  | None => exists rest, all = ret ++ rest /\ (t = Some Success -> rest = [])
  | Some (plan, max) => exists d hist i o rest undelivered,
      decoding plan max d hist i o /\ all = i ++ rest /\ o = ret ++ undelivered /\
      (t = Some Success -> rest = [] /\ undelivered = [] /\ finished d = true)
  end.

Definition reader_ok (r : Reader) : Prop :=
  match read_stage r with
  | ReadStart =>
      match guard_deferred r with
      | Some _ => guard_body r = None /\ guard_decoded r = None
      | None => is_some (guard_body r) || is_some (guard_decoded r) = true
      end
  | RawRead | RawChunk _ _ => guard_decoded r = None /\ is_Some (guard_body r)
  | RawFrame frame => guard_decoded r = None /\ is_Some (guard_body r) /\ (frame = None -> guard_body r = Some [])
  | Succeeding _ => guard_decoded r = None /\ guard_body r = Some []
  | DecodeOpen | DecodeTransport _ | DecodeStep | DecodeChunk _ => is_Some (guard_decoded r)
  | DecodeRefill => is_Some (guard_body r) /\ exists ds, guard_decoded r = Some ds /\ decoded_input ds = []
  | DecodeFrame frame => is_Some (guard_body r) /\ (frame = None -> guard_body r = Some []) /\
      exists ds, guard_decoded r = Some ds /\ decoded_input ds = []
  | DecodeFinish => exists ds, guard_decoded r = Some ds /\ finished (decoded_decoder ds) = true
  | Dropping (Some (Chunk _)) | Panicked => False
  | RawFailed _ | DecodeFrameFailed _ | Aborting _ _ | Dropping _ | Returned _ => True
  end.

Lemma holding_deliver ret h t : holding_ok ret h -> t <> Some Success -> deliver_ok ret t.
Proof.
  unfold holding_ok, deliver_ok. destruct mode as [[plan max]|].
  - intros (ds & hist & i & _ & Hd & Ha & _) Ht. do 6 eexists. split_and!; [exact Hd|exact Ha|done|done].
  - intros (_ & b & _ & Ha) Ht. eexists. split; [exact Ha|done].
Qed.

Lemma deliver_weaken ret t t' : deliver_ok ret t -> (t' = Some Success -> t = Some Success) -> deliver_ok ret t'.
Proof.
  unfold deliver_ok. intros Hdel Ht. destruct mode as [[plan max]|].
  - destruct Hdel as (d & hist & i & o & rest & un & H1 & H2 & H3 & H4). exists d, hist, i, o, rest, un. split_and!; auto.
  - destruct Hdel as (rest & H1 & H2). exists rest. auto.
Qed.

(** A step that only moves the stage, keeping what it holds. *)
Lemma holding_stage r st :
  holds (read_stage r) = true -> holds st = true -> stage_out st = stage_out (read_stage r) ->
  stage_in st = stage_in (read_stage r) -> reader_holding (r <| read_stage := st |>) = reader_holding r.
Proof. intros H1 H2 H3 H4. unfold reader_holding. cbn. by rewrite H1, H2, H3, H4. Qed.

(** Ending the body leaves the content and the terminal state alone. *)
Lemma finish_body_same f g es :
  (finish_successful_body f = (g, es) \/ exists reason, finish_aborted_body reason f = (g, es)) ->
  body g = body f /\ decoded g = decoded f /\ terminal g = terminal f.
Proof.
  unfold finish_successful_body, finish_aborted_body.
  assert (Hl : forall o f1 f2 es2, finish_lifecycle o f1 = (f2, es2) ->
    body f2 = body f1 /\ decoded f2 = decoded f1 /\ terminal f2 = terminal f1).
  { intros o f1 f2 es2. unfold finish_lifecycle. destruct (lifecycle f1) as [l|]; [|by intros [= <- _]].
    destruct (lifecycle_finish o l) as [l' es']. by intros [= <- _]. }
  intros [Hf|[reason Hf]];
    match type of Hf with context [finish_lifecycle ?o ?f1] =>
      destruct (finish_lifecycle o f1) as [f2 es2] eqn:E; injection Hf as <- _; by apply Hl in E end.
Qed.

Lemma finish_holding finish ab f ok f' es :
  stream_finish finish ab f = (ok, f', es) ->
  (fields_holding f' = fields_holding f \/ fields_holding f' = None) /\
  (ok = false /\ terminal f' = terminal f /\ is_Some (terminal f) \/
   terminal f = None /\ terminal f' = Some finish /\ ok = true).
Proof.
  unfold stream_finish. destruct (terminal f) as [t|] eqn:Ht; [intros [= <- <- <-]; split; eauto|].
  match goal with |- context [finish_successful_body ?F] => set (f1 := F) end.
  assert (Hg : forall g es1, (finish_successful_body f1 = (g, es1) \/ exists reason, finish_aborted_body reason f1 = (g, es1)) ->
    body g = None /\ decoded g = None /\ terminal g = Some finish).
  { intros g es1 Hg. by apply finish_body_same in Hg. }
  clearbody f1. destruct finish as [|reason].
  - destruct (finish_successful_body f1) as [g es1]. destruct (Hg g es1 (or_introl eq_refl)) as (Eb & Ed & Et).
    intros [= <- <- _]. unfold fields_holding. cbn. rewrite Eb, Ed. split; auto.
  - destruct (finish_aborted_body reason f1) as [g es1] eqn:E.
    destruct (Hg g es1 (or_intror (ex_intro _ reason E))) as (Eb & Ed & Et).
    intros [= <- <- _]. unfold fields_holding. cbn. rewrite Eb, Ed. split; auto.
Qed.

Lemma transport_holding f f' es :
  finish_transport_from_read f = (f', es) -> fields_holding f' = fields_holding f /\ terminal f' = terminal f.
Proof.
  unfold finish_transport_from_read. destruct (terminal f) eqn:Ht; [by intros [= <- _]|].
  intros E. destruct (finish_body_same _ _ _ (or_introl E)) as (Eb & Ed & Et).
  unfold fields_holding. by rewrite Eb, Ed, Et, Ht.
Qed.

(** What a step of a read does to the content: outcome of the reader [r'], of the fields
    [f'] and of the chunk it returns. *)
Definition content_step (ret : list Z) (r : Reader) (f : StreamStateFields) (r' : Reader) (f' : StreamStateFields) : Prop :=
  let ret' := ret ++ mjoin (returned_chunk r') in
  reader_ok r' /\
  (reader_holding r = None -> reader_holding r' = None /\ returned_chunk r' = [] /\
     (fields_holding f' = fields_holding f \/ fields_holding f' = None) /\
     (terminal f' = Some Success -> terminal f = Some Success)) /\
  (forall h, reader_holding r = Some h -> fields_holding f = None -> holding_ok ret h -> terminal f <> Some Success ->
     (exists h', reader_holding r' = Some h' /\ fields_holding f' = None /\ terminal f' <> Some Success /\
        returned_chunk r' = [] /\ holding_ok ret h') \/
     reader_holding r' = None /\
       ((exists h', fields_holding f' = Some h' /\ holding_ok ret' h' /\ terminal f' <> Some Success) \/
        fields_holding f' = None /\ deliver_ok ret' (terminal f'))).

(** The cases a step falls into. *)
Lemma content_keep ret r f r' :
  reader_ok r' -> returned_chunk r' = [] -> is_Some (reader_holding r) ->
  (forall h, reader_holding r = Some h -> holding_ok ret h -> exists h', reader_holding r' = Some h' /\ holding_ok ret h') ->
  content_step ret r f r' f.
Proof.
  intros Hok Hret [h0 Hh0] Hh. split; [done|]. split; [congruence|]. intros h Eh Hf Hholds Ht. left.
  destruct (Hh h Eh Hholds) as (h' & ? & ?). by exists h'.
Qed.

Lemma content_lose ret r f r' f' :
  reader_ok r' -> returned_chunk r' = [] -> reader_holding r' = None ->
  (fields_holding f' = fields_holding f \/ fields_holding f' = None) ->
  (terminal f' = Some Success -> terminal f = Some Success) -> content_step ret r f r' f'.
Proof.
  intros Hok Hret Hr Hf Hterm. split; [done|]. split; [done|]. intros h Eh Hfn Hholds Ht. right. split; [done|].
  right. rewrite Hret. cbn. rewrite app_nil_r. split; [destruct Hf; congruence|].
  eapply holding_deliver; [done|]. intros E. by apply Ht, Hterm.
Qed.

(** A poll of the body. *)
Lemma await_frame_cases to r b : guard_body r = Some b ->
  b = [] /\ await_frame to r = r <| read_stage := to None |> \/
  (exists b', body_data b = body_data b' /\ await_frame to r = r <| guard_body := Some b' |>) \/
  (exists b' fr, body_data b = (match fr with Ok (Some data) => data | _ => [] end) ++ body_data b' /\
     await_frame to r = r <| guard_body := Some b' |> <| read_stage := to (Some fr) |>).
Proof.
  intros Hb. unfold await_frame. rewrite Hb. destruct b as [|[data| |message|] b].
  - by left.
  - right. right. exists b, (Ok (Some data)). by split.
  - right. right. exists b, (Ok None). by split.
  - right. right. exists b, (Err message). by split.
  - right. left. by exists b.
Qed.

Lemma reader_holding_some r : holds (read_stage r) = true -> is_Some (guard_body r) \/ is_Some (guard_decoded r) ->
  reader_holding r = Some {| h_body := guard_body r; h_decoded := guard_decoded r; h_out := stage_out (read_stage r);
                             h_in := stage_in (read_stage r) |}.
Proof. intros Hh Hs. unfold reader_holding. rewrite Hh. by destruct Hs as [[x ->]|[x ->]]; rewrite ?orb_true_r. Qed.

Lemma reader_holding_none r : holds (read_stage r) = false -> reader_holding r = None.
Proof. intros Hh. unfold reader_holding. by rewrite Hh. Qed.

(** The raw content: the body continues the chunks. *)
Lemma raw_content ret r b : guard_decoded r = None -> guard_body r = Some b -> holds (read_stage r) = true ->
  stage_in (read_stage r) = [] ->
  forall h, reader_holding r = Some h -> holding_ok ret h <-> mode = None /\ all = ret ++ stage_out (read_stage r) ++ body_data b.
Proof.
  intros Hd Hb Hh Hin h. rewrite reader_holding_some by eauto. intros [= <-]. unfold holding_ok. cbn.
  destruct mode as [[plan max]|].
  - split; [intros (ds & ? & ? & ? & _); congruence|by intros [? _]].
  - split; [intros (_ & b' & E & ->); split; [done|congruence]|]. intros [_ ->]. split; [done|]. by exists b.
Qed.

Lemma raw_keep ret r f r' b b' :
  reader_ok r' -> guard_decoded r = None -> guard_body r = Some b -> holds (read_stage r) = true ->
  stage_in (read_stage r) = [] ->
  guard_decoded r' = None -> guard_body r' = Some b' -> holds (read_stage r') = true -> stage_in (read_stage r') = [] ->
  stage_out (read_stage r) ++ body_data b = stage_out (read_stage r') ++ body_data b' ->
  content_step ret r f r' f.
Proof.
  intros Hok Hd Hb Hh Hin Hd' Hb' Hh' Hin' E.
  apply content_keep; [done| | |].
  - unfold returned_chunk. by destruct (read_stage r').
  - rewrite reader_holding_some by eauto. by eexists.
  - intros h Eh Hholds. apply (raw_content ret r b Hd Hb Hh Hin h Eh) in Hholds as [Hm Ha].
    pose proof (reader_holding_some r' Hh' ltac:(eauto)) as Eh'. eexists. split; [exact Eh'|].
    apply (raw_content ret r' b' Hd' Hb' Hh' Hin' _ Eh'). split; [done|]. by rewrite <- E.
Qed.

Lemma raw_read_content ret r f :
  reader_ok r -> read_stage r = RawRead -> content_step ret r f (await_frame RawFrame r) f.
Proof.
  intros Hok Hst. unfold reader_ok in Hok. rewrite Hst in Hok. destruct Hok as [Hd [b Hb]].
  destruct (await_frame_cases RawFrame r b Hb) as [[-> ->]|[(b' & Eb & ->)|(b' & fr & Eb & ->)]];
    (eapply raw_keep; [|exact Hd|exact Hb|by rewrite Hst|by rewrite Hst| | | | |]; cbn; rewrite ?Hst; try done).
  unfold reader_ok. cbn. rewrite Hst. split; [done|by eexists].
Qed.

Lemma raw_frame_content ret r f frame :
  reader_ok r -> read_stage r = RawFrame frame ->
  content_step ret r f
    (if is_some (terminal f) then r <| read_stage := Dropping (Some NoChunk) |>
     else match frame with
          | None => r <| read_stage := Succeeding NoChunk |>
          | Some (Err message) => r <| read_stage := RawFailed message |>
          | Some (Ok None) => r <| read_stage := RawRead |>
          | Some (Ok (Some data)) => raw_data data r
          end) f.
Proof.
  intros Hok Hst. unfold reader_ok in Hok. rewrite Hst in Hok. destruct Hok as (Hd & [b Hb] & Hnone).
  assert (Hlose : forall st, holds st = false -> reader_ok (r <| read_stage := st |>) ->
    returned_chunk (r <| read_stage := st |>) = [] -> content_step ret r f (r <| read_stage := st |>) f).
  { intros st Hh Ho Hc. apply content_lose; auto. by apply reader_holding_none. }
  destruct (is_some (terminal f)); [by apply Hlose|].
  destruct frame as [[[data|]|message]|]; [| |by apply Hlose|].
  - unfold raw_data. rewrite Hb. destruct (guard_coalescing r).
    + destruct (drain_ready_data_frames data b) as [[outcome chunk] b'] eqn:Hdr.
      apply drain_loop_data in Hdr as [Hdata Heof].
      destruct outcome;
        (eapply raw_keep; [|exact Hd|exact Hb|by rewrite Hst|by rewrite Hst| | | | |]; cbn; rewrite ?Hst; try done).
      unfold reader_ok. cbn. by rewrite Heof.
    + eapply raw_keep; [|exact Hd|exact Hb|by rewrite Hst|by rewrite Hst| | | | |]; cbn; rewrite ?Hst; try done.
  - eapply raw_keep; [|exact Hd|exact Hb|by rewrite Hst|by rewrite Hst| | | | |]; cbn; rewrite ?Hst; try done.
  - eapply raw_keep; [|exact Hd|exact Hb|by rewrite Hst|by rewrite Hst| | | | |]; cbn; rewrite ?Hst; try done.
    unfold reader_ok. cbn. by rewrite Hnone.
Qed.

(** A read that has its chunk: the body goes back, unless the stream is over. *)
Lemma raw_chunk_content ret r f chunk error b :
  reader_ok r -> read_stage r = RawChunk chunk error -> guard_body r = Some b ->
  (terminal f = None \/ fields_holding f = None) ->
  content_step ret r f (returns (Some (Chunk chunk)) r) (complete_read b error f).
Proof.
  intros Hok Hst Hb Hf. unfold reader_ok in Hok. rewrite Hst in Hok. destruct Hok as [Hd _].
  split; [done|]. split.
  - intros Hn. rewrite reader_holding_some in Hn; [done|by rewrite Hst|rewrite Hb; left; by eexists].
  - intros h Eh Hfn Hh Ht. right. split; [done|].
    apply (raw_content ret r b Hd Hb ltac:(by rewrite Hst) ltac:(by rewrite Hst) h Eh) in Hh as [Hm Ha].
    rewrite Hst in Ha. cbn in Ha |- *. rewrite app_nil_r.
    unfold complete_read. destruct (terminal f) as [t|] eqn:Hterm.
    + right. split; [done|]. unfold deliver_ok. rewrite Hm. exists (body_data b). rewrite Hterm. split; [by rewrite <- app_assoc|congruence].
    + left. eexists. split; [reflexivity|]. split; [|cbn; by rewrite Hterm]. unfold holding_ok. rewrite Hm. cbn.
      unfold fields_holding in Hfn. destruct (decoded f); [by rewrite orb_true_r in Hfn|]. split; [done|].
      exists b. split; [done|]. by rewrite <- app_assoc.
Qed.

Lemma succeeding_content ret r f res f' es ok :
  reader_ok r -> read_stage r = Succeeding res -> stream_finish Success false f = (ok, f', es) ->
  content_step ret r f (returns (Some res) r) f'.
Proof.
  intros Hok Hst Hfin. unfold reader_ok in Hok. rewrite Hst in Hok. destruct Hok as [Hd Hb].
  apply finish_holding in Hfin as [Hfh Hterm].
  split; [done|]. split.
  - intros Hn. rewrite reader_holding_some in Hn; [done|by rewrite Hst|rewrite Hb; left; by eexists].
  - intros h Eh Hfn Hh Ht. right. split; [done|]. right. split; [destruct Hfh; congruence|].
    apply (raw_content ret r [] Hd Hb ltac:(by rewrite Hst) ltac:(rewrite Hst; by destruct res) h Eh) in Hh as [Hm Ha].
    rewrite Hst in Ha. unfold deliver_ok. rewrite Hm. exists []. split; [|done]. rewrite Ha.
    destruct res as [chunk| |e]; cbn; by rewrite ?app_nil_r.
Qed.

(** A step of a decoded read that keeps its decoder. *)
Lemma decode_keep ret r f r' ds ds' :
  reader_ok r' -> guard_decoded r = Some ds -> holds (read_stage r) = true -> stage_out (read_stage r) = [] ->
  guard_decoded r' = Some ds' -> holds (read_stage r') = true ->
  (forall plan max hist i, within max 0 -> decoding plan max (decoded_decoder ds) hist i ret ->
     all = i ++ decoded_input ds ++ stage_in (read_stage r) ++ default [] (body_data <$> guard_body r) ->
     (source_done (decoded_decoder ds) -> decoded_input ds = [] /\ guard_body r = None /\ stage_in (read_stage r) = []) ->
     exists hist' i', decoding plan max (decoded_decoder ds') hist' i' (ret ++ stage_out (read_stage r')) /\
       all = i' ++ decoded_input ds' ++ stage_in (read_stage r') ++ default [] (body_data <$> guard_body r') /\
       (source_done (decoded_decoder ds') ->
          decoded_input ds' = [] /\ guard_body r' = None /\ stage_in (read_stage r') = [])) ->
  content_step ret r f r' f.
Proof.
  intros Hok Hd Hh Hout Hd' Hh' Hstep.
  apply content_keep; [done| | |].
  - unfold returned_chunk. by destruct (read_stage r').
  - rewrite reader_holding_some by (rewrite ?Hd; eauto). by eexists.
  - intros h. rewrite reader_holding_some by (rewrite ?Hd; eauto). intros [= <-].
    rewrite (reader_holding_some r') by (rewrite ?Hd'; eauto). unfold holding_ok. cbn. rewrite Hout, app_nil_r.
    destruct mode as [[plan max]|] eqn:Hm; [|intros [? _]; congruence].
    intros (ds0 & hist & i & E & Hdec & Ha & Hs). rewrite Hd in E. injection E as <-.
    destruct (Hstep plan max hist i (limits plan max eq_refl) Hdec Ha Hs) as (hist' & i' & Hdec' & Ha' & Hs').
    eexists. split; [done|]. cbn. do 3 eexists. split_and!; [exact Hd'|exact Hdec'|exact Ha'|exact Hs'].
Qed.

(** The same decoder, with data moved between its input, the frame and the body. *)
Lemma decode_move ret r f r' ds ds' :
  reader_ok r' -> guard_decoded r = Some ds -> holds (read_stage r) = true -> stage_out (read_stage r) = [] ->
  guard_decoded r' = Some ds' -> holds (read_stage r') = true -> stage_out (read_stage r') = [] ->
  decoded_decoder ds' = decoded_decoder ds ->
  decoded_input ds ++ stage_in (read_stage r) ++ default [] (body_data <$> guard_body r) =
    decoded_input ds' ++ stage_in (read_stage r') ++ default [] (body_data <$> guard_body r') ->
  is_Some (guard_body r) \/
    decoded_input ds' = decoded_input ds /\ guard_body r' = guard_body r /\
    stage_in (read_stage r') = stage_in (read_stage r) ->
  content_step ret r f r' f.
Proof.
  intros Hok Hd Hh Hout Hd' Hh' Hout' Edec E Hmove. eapply decode_keep; [done..|].
  intros plan max hist i _ Hdec Ha Hs. exists hist, i. rewrite Hout', app_nil_r, Edec. split_and!; [done|by rewrite <- E|].
  intros Hsd. destruct (Hs Hsd) as (E1 & E2 & E3). destruct Hmove as [[b Hb]|(-> & -> & ->)]; [congruence|done].
Qed.

Lemma lose_stage ret r f st :
  holds st = false -> reader_ok (r <| read_stage := st |>) -> returned_chunk (r <| read_stage := st |>) = [] ->
  content_step ret r f (r <| read_stage := st |>) f.
Proof. intros Hh Ho Hc. apply content_lose; auto. by apply reader_holding_none. Qed.

Lemma decode_open_content ret r f :
  reader_ok r -> read_stage r = DecodeOpen -> content_step ret r f (decode_open is_end_stream f r) f.
Proof.
  intros Hok Hst. unfold reader_ok in Hok. rewrite Hst in Hok. destruct Hok as [ds Hd].
  unfold decode_open. destruct (is_some (terminal f)); [by apply lose_stage|].
  destruct (guard_body r) as [b|] eqn:Hb; [destruct (is_end_stream b) eqn:He|];
    (eapply decode_move; [|exact Hd|by rewrite Hst|by rewrite Hst|exact Hd|..]; cbn; rewrite ?Hst, ?Hb; try done).
  - cbn. by rewrite (end_stream_law b He).
  - left; eauto.
  - left; eauto.
  - by right.
Qed.

Lemma decode_transport_content ret r f next f' es :
  reader_ok r -> read_stage r = DecodeTransport next -> finish_transport_from_read f = (f', es) ->
  content_step ret r f (r <| read_stage := if next then DecodeStep else DecodeOpen |>) f'.
Proof.
  intros Hok Hst Hfin. unfold reader_ok in Hok. rewrite Hst in Hok. destruct Hok as [ds Hd].
  destruct (transport_holding _ _ _ Hfin) as [Ef Et].
  enough (Hkeep : content_step ret r f (r <| read_stage := if next then DecodeStep else DecodeOpen |>) f).
  { unfold content_step in *. by rewrite Ef, Et. }
  eapply (decode_move _ _ _ _ ds ds); cbn; rewrite ?Hst; try done; [|by destruct next..|].
  - unfold reader_ok. cbn. destruct next; by rewrite Hd.
  - right. by destruct next.
Qed.

Lemma decode_refill_content ret r f :
  reader_ok r -> read_stage r = DecodeRefill -> content_step ret r f (await_frame DecodeFrame r) f.
Proof.
  intros Hok Hst. unfold reader_ok in Hok. rewrite Hst in Hok. destruct Hok as ([b Hb] & ds & Hd & Hin).
  destruct (await_frame_cases DecodeFrame r b Hb) as [[-> ->]|[(b' & Eb & ->)|(b' & fr & Eb & ->)]];
    (eapply (decode_move _ _ _ _ ds ds); cbn; rewrite ?Hst, ?Hb; try done; try (by left; eauto)).
  - split_and!; [eauto|done|by exists ds].
  - unfold reader_ok. cbn. rewrite Hst. split; [eauto|by exists ds].
  - cbn. by rewrite Eb.
  - split_and!; [eauto|done|by exists ds].
  - cbn. by rewrite Eb.
Qed.

Lemma decode_frame_content ret r f frame :
  reader_ok r -> read_stage r = DecodeFrame frame -> content_step ret r f (decode_frame frame f r) f.
Proof.
  intros Hok Hst. unfold reader_ok in Hok. rewrite Hst in Hok. destruct Hok as ([b Hb] & Hnone & ds & Hd & Hin).
  unfold decode_frame. destruct (is_some (terminal f)); [by apply lose_stage|].
  destruct frame as [[[data|]|message]|]; [rewrite Hd| |by apply lose_stage|].
  - eapply (decode_move _ _ _ _ ds (Build_DecodedStream (decoded_decoder ds) data)); cbn; rewrite ?Hst, ?Hb; try done.
    + by rewrite Hin.
    + left; eauto.
  - eapply (decode_move _ _ _ _ ds ds); cbn; rewrite ?Hst, ?Hb; try done.
    + left; eauto.
  - eapply (decode_move _ _ _ _ ds ds); cbn; rewrite ?Hst, ?Hb; try done.
    + rewrite Hb in Hnone. by injection (Hnone eq_refl) as ->.
    + left; eauto.
Qed.

(** What a read that owns the decoder holds. *)
Lemma decoded_content ret r ds h :
  guard_decoded r = Some ds -> holds (read_stage r) = true -> reader_holding r = Some h -> holding_ok ret h ->
  exists plan max hist i, mode = Some (plan, max) /\
    decoding plan max (decoded_decoder ds) hist i (ret ++ stage_out (read_stage r)) /\
    all = i ++ decoded_input ds ++ stage_in (read_stage r) ++ default [] (body_data <$> guard_body r) /\
    (source_done (decoded_decoder ds) -> decoded_input ds = [] /\ guard_body r = None /\ stage_in (read_stage r) = []).
Proof.
  intros Hd Hh. rewrite reader_holding_some by (rewrite ?Hd; eauto). intros [= <-]. unfold holding_ok. cbn.
  destruct mode as [[plan max]|]; [|intros [? _]; congruence].
  intros (ds0 & hist & i & E & Hdec & Ha & Hs). rewrite Hd in E. injection E as <-. by exists plan, max, hist, i.
Qed.

(** A call of the decoder: what it consumes moves from the input to the content. *)
Lemma decode_step_content ret r f :
  reader_ok r -> read_stage r = DecodeStep -> (forall h, reader_holding r = Some h -> holding_ok ret h) ->
  content_step ret r f (decode_step r) f.
Proof.
  intros Hok Hst Hhold. unfold reader_ok in Hok. rewrite Hst in Hok. destruct Hok as [ds Hd].
  assert (Hh : holds (read_stage r) = true) by (by rewrite Hst).
  pose proof (reader_holding_some r Hh ltac:(rewrite ?Hd; eauto)) as Eh.
  destruct (decoded_content ret r ds _ Hd Hh Eh (Hhold _ Eh)) as (plan & max & hist & i & Hm & Hdec & _ & Hsd).
  pose proof (flow_states _ _ _ _ _ _ (decoding_flow _ _ _ _ _ _ (limits plan max Hm) Hdec)) as Hstates.
  unfold decode_step. rewrite Hd.
  destruct (decoder_step (decoded_input ds) (negb (is_some (guard_body r))) (decoded_decoder ds)) as [[st|e] d'] eqn:Hs;
    [|by apply content_lose; auto].
  destruct (decoder_step_source _ _ _ _ _ Hs Hstates) as (Hsource & Hfinish & Hneed & Hlen).
  destruct (step_status_sound _ _ _ _ _ Hs) as (Hfin & Heof & _).
  destruct (Nat.ltb_spec (length (decoded_input ds)) (consumed st)); [lia|].
  eapply (decode_keep _ _ _ _ ds (Build_DecodedStream d' (drop (consumed st) (decoded_input ds)))); cbn; rewrite ?Hst;
    try done.
  - unfold reader_ok. destruct (output st) as [out|]; cbn; [by eexists|]. destruct (status st); cbn; [|by eexists|].
    + split; [destruct (guard_body r); [by eexists|by destruct (Heof eq_refl)]|].
      eexists. split; [done|]. cbn. destruct (Hneed eq_refl) as [->|Hd1]; [by rewrite drop_nil|].
      by rewrite (proj1 (Hsd Hd1)), drop_nil.
    + eexists. split; [done|]. by apply Hfin.
  - by destruct (output st), (status st).
  - intros plan' max' hist' i' _ Hdec' Ha Hs'. do 2 eexists. split; [|split].
    + assert (stage_out (match output st, status st with
        | Some out, _ => DecodeChunk out | None, NeedsInput => DecodeRefill
        | None, Progress => DecodeOpen | None, Finished => DecodeFinish end) = default [] (output st)) as ->
        by (by destruct (output st), (status st)).
      by eapply decoding_step.
    + rewrite Ha. cbn. rewrite <- (take_drop (consumed st) (decoded_input ds)) at 1. rewrite <- !app_assoc.
      by destruct (output st), (status st).
    + intros Hd1. destruct (Hsource Hd1) as [Hd2|[E Hb]].
      * destruct (Hs' Hd2) as (-> & -> & _). rewrite drop_nil. split_and!; [done..|]. by destruct (output st), (status st).
      * rewrite E, drop_nil. split_and!; [done| |by destruct (output st), (status st)]. by destruct (guard_body r).
Qed.

(** A decoded chunk goes to the caller, the body and the decoder back. *)
Lemma decode_chunk_content ret r f chunk :
  reader_ok r -> read_stage r = DecodeChunk chunk -> terminal f = None ->
  content_step ret r f (returns (Some (Chunk chunk)) r) (f <| body := guard_body r |> <| decoded := guard_decoded r |>).
Proof.
  intros Hok Hst Hterm. unfold reader_ok in Hok. rewrite Hst in Hok. destruct Hok as [ds Hd].
  assert (Hh : holds (read_stage r) = true) by (by rewrite Hst).
  split; [done|]. split.
  - intros Hn. rewrite reader_holding_some in Hn by (rewrite ?Hd; eauto). done.
  - intros h Eh Hfn Hok Ht. right. split; [done|]. left.
    destruct (decoded_content ret r ds h Hd Hh Eh Hok) as (plan & max & hist & i & Hm & Hdec & Ha & Hs).
    rewrite Hst in Hdec, Ha, Hs. unfold fields_holding. cbn. rewrite Hd, orb_true_r.
    eexists. split; [done|]. split; [|by rewrite Hterm]. unfold holding_ok. rewrite Hm. cbn. rewrite !app_nil_r.
    by exists ds, hist, i.
Qed.

(** The end of the content, on which a decoded stream succeeds. *)
Lemma decode_finish_content ret r f ok f' es :
  reader_ok r -> read_stage r = DecodeFinish -> stream_finish Success false f = (ok, f', es) ->
  content_step ret r f
    (if ok : bool then returns (Some NoChunk) r
     else r <| guard_decoded := None |> <| read_stage := Dropping (Some (ReadFailed ReadWasAborted)) |>) f'.
Proof.
  intros Hok Hst Hfin. unfold reader_ok in Hok. rewrite Hst in Hok. destruct Hok as (ds & Hd & Hf).
  apply finish_holding in Hfin as [Hfh Hterm].
  assert (Hh : holds (read_stage r) = true) by (by rewrite Hst).
  destruct ok; [|destruct Hterm as [(_ & Et & _)|(_ & _ & ?)]; [|done]; apply content_lose; [done..|tauto|by rewrite Et]].
  split; [done|]. split.
  - intros Hn. rewrite reader_holding_some in Hn by (rewrite ?Hd; eauto). done.
  - intros h Eh Hfn Hok Ht. right. split; [done|]. right. split; [destruct Hfh; congruence|].
    destruct (decoded_content ret r ds h Hd Hh Eh Hok) as (plan & max & hist & i & Hm & Hdec & Ha & Hs).
    destruct (Hs (or_introl Hf)) as (Ei & Eb & _). rewrite Hst in Hdec, Ha. rewrite Ei, Eb in Ha. cbn in Hdec, Ha |- *.
    rewrite app_nil_r in Hdec |- *. unfold deliver_ok. rewrite Hm.
    exists (decoded_decoder ds), hist, i, ret, [], []. split_and!; rewrite ?app_nil_r in *; auto.
Qed.
(** A read that has nothing to lose keeps the content. *)
Lemma aborting_content ret r f r' f' finish ok es :
  reader_ok r' -> returned_chunk r' = [] -> holds (read_stage r') = false ->
  stream_finish finish false f = (ok, f', es) -> finish <> Success -> content_step ret r f r' f'.
Proof.
  intros Hok Hc Hh Hfin Hf. apply finish_holding in Hfin as [Hfh Hterm].
  apply content_lose; [done..|by apply reader_holding_none|done|].
  destruct Hterm as [(_ & -> & _)|(_ & -> & _)]; congruence.
Qed.

Lemma start_content ret r f :
  reader_ok r -> read_stage r = ReadStart ->
  content_step ret r f
    (if is_some (guard_decoded r) then r <| read_stage := DecodeOpen |>
     else match guard_deferred r with
          | Some message => r <| guard_deferred := None |> <| read_stage := RawFailed message |>
          | None => r <| read_stage := RawRead |>
          end) f.
Proof.
  intros Hok Hst. unfold reader_ok in Hok. rewrite Hst in Hok.
  destruct (guard_decoded r) as [ds|] eqn:Hd; cbn.
  - eapply (decode_move _ _ _ _ ds ds); cbn; rewrite ?Hst; try done. by right.
  - destruct (guard_deferred r) as [message|]; [by apply content_lose; auto|].
    destruct (guard_body r) as [b|] eqn:Hb; [|done].
    eapply raw_keep; [|exact Hd|exact Hb|by rewrite Hst|by rewrite Hst| | | | |]; cbn; rewrite ?Hst; try done.
Qed.

(** Every step of a read. *)
Lemma reader_go_content ret r f r' f' es :
  reader_ok r -> (forall h, reader_holding r = Some h -> holding_ok ret h) ->
  (is_Some (terminal f) -> fields_holding f = None) ->
  reader_go is_end_stream r f = Some (r', f', es) -> content_step ret r f r' f'.
Proof.
  intros Hok Hhold Hclosed. unfold reader_go.
  destruct (read_stage r) as [| |frame|m|chunk error|res| |next| | |frame|m|chunk| |reason e|res|res|] eqn:Hst; try done.
  - intros [= <- <- _]. by apply start_content.
  - intros [= <- <- _]. by apply raw_read_content.
  - intros [= <- <- _]. by apply raw_frame_content.
  - intros [= <- <- _]. by apply lose_stage.
  - destruct (guard_body r) as [b|] eqn:Hb.
    + intros [= <- <- _]. eapply raw_chunk_content; try done. destruct (terminal f); [right; eauto|by left].
    + unfold reader_ok in Hok. rewrite Hst, Hb in Hok. by destruct Hok as [_ [? ?]].
  - destruct (stream_finish Success false f) as [[ok f1] es1] eqn:Hf. intros [= <- <- _]. by eapply succeeding_content.
  - intros [= <- <- _]. by apply decode_open_content.
  - destruct (finish_transport_from_read f) as [f1 es1] eqn:Hf. intros [= <- <- _]. by eapply decode_transport_content.
  - intros [= <- <- _]. by apply decode_step_content.
  - intros [= <- <- _]. by apply decode_refill_content.
  - intros [= <- <- _]. by apply decode_frame_content.
  - intros [= <- <- _]. by apply lose_stage.
  - destruct (terminal f) eqn:Ht; intros [= <- <- _]; [by apply lose_stage|by apply decode_chunk_content].
  - destruct (stream_finish Success false f) as [[ok f1] es1] eqn:Hf. intros [= <- <- _]. by eapply decode_finish_content.
  - unfold abort_from_read. destruct (stream_finish _ false f) as [[ok f1] es1] eqn:Hf. intros [= <- <- _].
    by eapply aborting_content.
  - assert (Hc : returned_chunk (returns res r) = []).
    { unfold reader_ok in Hok. rewrite Hst in Hok. by destruct res as [[]|]. }
    unfold drop_guard. destruct (guard_disarmed r).
    + intros [= <- <- _]. apply content_lose; [done..|by left|done].
    + unfold abort_from_read. destruct (stream_finish _ false f) as [[ok f1] es1] eqn:Hf. intros [= <- <- _].
      eapply aborting_content; done.
Qed.
Lemma reader_step_content ret e r f r' f' es :
  reader_ok r -> (forall h, reader_holding r = Some h -> holding_ok ret h) ->
  (is_Some (terminal f) -> fields_holding f = None) ->
  reader_step is_end_stream e r f = Some (r', f', es) -> content_step ret r f r' f'.
Proof.
  intros Hok Hhold Hclosed. destruct e; cbn; [by apply reader_go_content| |].
  - unfold timed_out. destruct (read_stage r), (guard_body r) as [[|[] b]|]; try done; intros [= <- <- _]; by apply lose_stage.
  - destruct (read_stage r); try done; intros [= <- <- _]; by apply lose_stage.
Qed.

(** ** The content of a stream *)

#[local] Arguments fields_holding : simpl never.
#[local] Arguments reader_holding : simpl never.

(** Whoever holds the body or the decoder. *)
Definition owners (s : System) : list Holding := omap reader_holding (readers s) ++ option_list (fields_holding (fields s)).

(** What has been returned, in order. *)
Definition content (s : System) : list Z := mjoin (returned s).

Record system_content (s : System) : Prop := {
  content_owners : (length (owners s) <= 1)%nat;
  content_holding : forall h, h ∈ owners s -> holding_ok (content s) h /\ terminal (fields s) <> Some Success;
  content_delivered : deliver_ok (content s) (terminal (fields s));
  content_readers : forall r, r ∈ readers s -> reader_ok r;
  content_closed : is_Some (terminal (fields s)) -> fields_holding (fields s) = None;
}.

(** A change of the fields alone: what they hold stays or is dropped. *)
Lemma content_fields s f es :
  system_content s ->
  fields_holding f = fields_holding (fields s) \/ fields_holding f = None ->
  (terminal f = Some Success -> terminal (fields s) = Some Success) ->
  (is_Some (terminal f) -> fields_holding f = None) ->
  system_content (with_fields (f, es) s).
Proof.
  intros [Hlen Hhold Hdel Hok _] Hf Ht Hc.
  assert (Hown : forall h, h ∈ owners (with_fields (f, es) s) -> h ∈ owners s).
  { intros h. unfold owners. cbn. rewrite !elem_of_app. intros [Hin|Hin]; [by left|].
    destruct Hf as [E|E]; rewrite E in Hin; [by right|by apply elem_of_nil in Hin]. }
  split; cbn; try done.
  - unfold owners in *. cbn. rewrite length_app in *. destruct Hf as [->|E]; [done|]. rewrite E. cbn. lia.
  - intros h Hin. destruct (Hhold h (Hown h Hin)) as [Hh Hn]. split; [exact Hh|]. intros E. by apply Hn, Ht.
  - by apply (deliver_weaken _ (terminal (fields s))).
Qed.

Lemma readers_after s i (r' : Reader) : system_content s -> reader_ok r' ->
  forall x, x ∈ <[i := r']> (readers s) -> reader_ok x.
Proof.
  intros Hs Hok x Hx. apply list_elem_of_lookup in Hx as [j Hj].
  apply list_lookup_insert_Some in Hj as [(_ & <- & _)|[_ Hj]]; [done|].
  apply (content_readers s Hs). by eapply list_elem_of_lookup_2.
Qed.

Lemma content_reader s i (r r' : Reader) f es :
  system_content s -> readers s !! i = Some r ->
  content_step (content s) r (fields s) r' f -> (is_Some (terminal f) -> fields_holding f = None) ->
  system_content (with_fields (f, es) s <| readers ::= <[i := r']> |> <| returned ::= fun l => l ++ returned_chunk r' |>).
Proof.
  intros Hs Hi (Hok' & Hnone & Hsome) Hc. pose proof (readers_after s i r' Hs Hok') as Hreaders.
  destruct (omap_insert reader_holding (readers s) i r Hi) as (a & b & Ea & Eb). specialize (Eb r').
  destruct Hs as [Hlen Hhold Hdel _ _]. unfold owners in Hlen, Hhold. rewrite Ea in Hlen, Hhold.
  destruct (reader_holding r) as [h|] eqn:Hh.
  - rewrite !length_app in Hlen. cbn in Hlen.
    assert (a = [] /\ b = [] /\ fields_holding (fields s) = None) as (-> & -> & Hfn).
    { destruct a, b, (fields_holding (fields s)); cbn in Hlen; try done; lia. }
    destruct (Hhold h) as [Hh1 Ht1]; [set_solver|].
    destruct (Hsome h eq_refl Hfn Hh1 Ht1) as [(h' & Hh' & Hf' & Ht' & Hret & Hok)|(Hh' & Hcase)].
    + rewrite Hret. split; cbn; unfold owners, content; cbn; rewrite ?app_nil_r; try done.
      * rewrite Eb, Hh', Hf'. cbn. lia.
      * intros h1. rewrite Eb, Hh', Hf'. cbn. intros ->%list_elem_of_singleton. done.
      * by apply (holding_deliver _ h').
    + split; cbn; unfold owners, content; cbn; rewrite ?join_app; try done.
      * rewrite Eb, Hh'. destruct Hcase as [(h' & -> & _)|[-> _]]; cbn; lia.
      * intros h1. rewrite Eb, Hh'. destruct Hcase as [(h' & -> & Hok & Ht)|[-> _]]; cbn.
        -- intros ->%list_elem_of_singleton. by split.
        -- by intros ?%elem_of_nil.
      * destruct Hcase as [(h' & _ & Hok & Ht)|[_ ?]]; [by apply (holding_deliver _ h')|done].
  - destruct (Hnone eq_refl) as (Hh' & Hret & Hf & Ht). rewrite Hret.
    assert (Hown : forall h, h ∈ omap reader_holding (<[i := r']> (readers s)) ++ option_list (fields_holding f) ->
      h ∈ (a ++ option_list None ++ b) ++ option_list (fields_holding (fields s))).
    { intros h. rewrite Eb, Hh'. destruct Hf as [->| ->]; [done|]. cbn. rewrite app_nil_r. intros Hin. apply elem_of_app. by left. }
    split; cbn; unfold owners, content; cbn; rewrite ?app_nil_r; try done.
    + rewrite Eb, Hh'. destruct Hf as [->| ->]; [done|]. cbn in *. rewrite length_app in *. cbn. lia.
    + intros h Hin. destruct (Hhold h (Hown h Hin)) as [Hh1 Hn]. split; [exact Hh1|]. intros E. by apply Hn, Ht.
    + by apply (deliver_weaken _ (terminal (fields s))).
Qed.

Lemma content_start s coalescing res f :
  system_content s -> start_read coalescing (fields s) = (res, f) ->
  system_content (s <| fields := f |> <| readers ::= fun rs => rs ++ match res with Ok (Some r) => [r] | _ => [] end |>).
Proof.
  intros Hs Hstart.
  destruct (start_read_cases coalescing (fields s)) as [(r & f' & E & Ht & _ & Hst & _ & Hcase)|(res' & E & Hno)];
    rewrite E in Hstart; injection Hstart as <- <-.
  - destruct Hs as [Hlen Hhold Hdel Hok _].
    assert (omap reader_holding (readers s ++ [r]) ++ option_list (fields_holding f') = owners s /\
      terminal f' = None /\ reader_ok r) as (Hown & Ht' & Hr).
    { unfold owners. rewrite omap_app, <- app_assoc. unfold reader_ok. rewrite Hst.
      destruct Hcase as [(Hb & Hd & He & Hsome & ->)|(Hb & Hd & [e He] & ->)]; rewrite He, Hb, Hd; (split; [|done]);
        f_equal; cbn; unfold reader_holding, fields_holding; rewrite Hst, Hb, Hd; cbn; try done.
      by rewrite Hsome. }
    split; unfold owners; cbn; rewrite ?Hown, ?Ht'; try done.
    + intros h Hin. destruct (Hhold h Hin). done.
    + by rewrite Ht in Hdel.
    + intros x [Hx| ->%list_elem_of_singleton]%elem_of_app; [by apply Hok|done].
  - assert (match res' with Ok (Some r) => [r] | _ => [] end = []) as ->.
    { destruct res' as [[r|]|]; try done. by destruct (Hno r). }
    destruct Hs. split; unfold owners; cbn; rewrite ?app_nil_r; done.
Qed.

Lemma closed_holding f0 s : system_released f0 s -> is_Some (terminal (fields s)) -> fields_holding (fields s) = None.
Proof. intros [[] _] [t Ht]. destruct (ok_terminal0 t Ht) as (_ & _ & _ & _ & Eb & Ed & _). unfold fields_holding. by rewrite Eb, Ed. Qed.

Lemma content_step_system f0 s s' :
  system_released f0 s -> system_content s -> system_step is_end_stream s s' -> system_content s'.
Proof.
  intros Hrel Hs Hstep. pose proof (closed_holding f0 s' (system_released_step is_end_stream _ _ _ Hrel Hstep)) as Hc.
  assert (Hfinish : forall finish ab, finish <> Success -> let '(_, f, es) := stream_finish finish ab (fields s) in
    (is_Some (terminal f) -> fields_holding f = None) -> system_content (with_fields (f, es) s)).
  { intros finish ab Hf. destruct (stream_finish finish ab (fields s)) as [[ok f] es] eqn:E. intros Hcl.
    apply finish_holding in E as [Hfh Hterm]. apply content_fields; try done.
    destruct Hterm as [(_ & -> & _)|(_ & -> & _)]; congruence. }
  destruct Hstep as [coalescing|i e r r' f es Hi Hstep|i Hi|Hall|op Hop|Hreg| |].
  - destruct (start_read coalescing (fields s)) as [res f] eqn:E. by eapply content_start.
  - apply content_reader with r; try done. pose proof Hs as [_ Hhold _ Hok _]. eapply reader_step_content; [| | |exact Hstep].
    + apply Hok. by eapply list_elem_of_lookup_2.
    + intros h Hh. apply Hhold. unfold owners. apply elem_of_app. left. apply list_elem_of_omap.
      exists r. split; [by eapply list_elem_of_lookup_2|done].
    + apply (content_closed s Hs).
  - unfold register_read_task in *. destruct (is_some (terminal (fields s)) || negb (read_in_progress (fields s)));
      apply content_fields; auto.
  - apply content_fields; auto; unfold finish_read_delivery in *; destruct (terminal (fields s)) eqn:E; try done; auto; cbn; by rewrite E.
  - destruct Hop as [->|[->|[e ->]]]; [unfold close in *|unfold cancel in *|unfold fail in *];
      match type of Hc with context [stream_finish ?F ?A _] => specialize (Hfinish F A ltac:(done)) end;
      destruct (stream_finish _ _ _) as [[ok f] es]; by apply Hfinish.
  - unfold close in *. specialize (Hfinish (Abort AbortClosed) true ltac:(done)).
    destruct (stream_finish _ _ _) as [[ok f] es]; by apply Hfinish.
  - destruct Hs. by split.
  - destruct Hs. by split.
Qed.

(** The stream of a response: its body, and the decoder its headers ask for. *)
Definition decoded_start (incoming : Incoming) (d : option DecodedStream) : Prop :=
  all = body_data incoming /\
  match mode with
  | None => d = None
  | Some (plan, max) => d = Some {| decoded_decoder := streaming_decoder_new plan max; decoded_input := [] |}
  end.

Lemma content_initial incoming d used outcome :
  decoded_start incoming d -> system_content (initial (stream_state_new incoming d used outcome)).
Proof.
  intros [Ha Hmode].
  assert (Hh : holding_ok [] {| h_body := Some incoming; h_decoded := d; h_out := []; h_in := [] |}).
  { unfold holding_ok. cbn. destruct mode as [[plan max]|]; [|split; [done|]; by exists incoming].
    subst d. do 3 eexists. split_and!; [done|apply decoding_new|by rewrite Ha|].
    cbn. intros [Hf|(l & Hl & Hf)]; [done|]. cbn in Hl. rewrite list_lookup_fmap in Hl.
    destruct (codings plan !! 0%nat); [|done]. by injection Hl as <-. }
  split; cbn; try done.
  - intros h ->%list_elem_of_singleton. done.
  - by apply (holding_deliver [] _ None Hh).
  - by intros r ?%elem_of_nil.
Qed.

Lemma reachable_content incoming d used outcome s :
  decoded_start incoming d -> reachable is_end_stream (stream_state_new incoming d used outcome) s -> system_content s.
Proof.
  intros Hstart. unfold reachable. revert s. apply rtc_ind_r; [by apply content_initial|].
  intros s s' Hr Hstep IH. eapply content_step_system; [by eapply reachable_released|exact IH|exact Hstep].
Qed.

(** What reads of a streamed response return is the response's body in order,
    without loss or duplication: undecoded, the chunks are a prefix of the data; decoded,
    they are a prefix of what the decoder made of a prefix of the data.  A stream that
    has succeeded has delivered all of it, from a decoder at its end.  No read panics,
    nobody ever holds the body or the decoder twice, and the body is gone once the stream
    is terminal. *)
Theorem stream_delivers_in_order incoming d used outcome s :
  decoded_start incoming d -> reachable is_end_stream (stream_state_new incoming d used outcome) s ->
  match mode with
  | None => exists rest, body_data incoming = mjoin (returned s) ++ rest /\
      (terminal (fields s) = Some Success -> rest = [])
  | Some (plan, max) => exists decoder hist consumed produced rest undelivered,
      decoding plan max decoder hist consumed produced /\ body_data incoming = consumed ++ rest /\
      produced = mjoin (returned s) ++ undelivered /\
      (terminal (fields s) = Some Success -> rest = [] /\ undelivered = [] /\ finished decoder = true)
  end /\
  (forall r, r ∈ readers s -> read_stage r <> Panicked) /\
  (length (owners s) <= 1)%nat /\
  (is_Some (terminal (fields s)) -> body (fields s) = None /\ decoded (fields s) = None).
Proof.
  intros Hstart Hr. destruct (reachable_content _ _ _ _ _ Hstart Hr) as [Hlen _ Hdel Hok _].
  destruct Hstart as [Ha _]. split_and!; [by rewrite <- Ha| |done|].
  - intros r Hin E. specialize (Hok r Hin). unfold reader_ok in Hok. by rewrite E in Hok.
  - intros [t Ht]. destruct (reachable_released _ _ _ _ _ _ Hr) as [[] _].
    by destruct (ok_terminal0 t Ht) as (_ & _ & _ & _ & -> & -> & _).
Qed.
End delivery.

(** ** Concrete runs *)

#[local] Existing Instance pass_codecs.
#[local] Existing Instance pass_codecs_laws.

(** The steps as moves, to run the system on concrete schedules. *)
Inductive Move := Read (coalescing : bool) | Turn (i : nat) (e : ReadEvent) | Register (i : nat) | Deliver | Close | AbortAll.

Definition move (is_end_stream : Incoming -> bool) (m : Move) (s : System) : option System :=
  match m with
  | Read coalescing =>
      let (res, f) := start_read coalescing (fields s) in
      Some (s <| fields := f |> <| readers ::= fun rs => rs ++ match res with Ok (Some r) => [r] | _ => [] end |>)
  | Turn i e =>
      r ← readers s !! i;
      '(r', f, es) ← reader_step is_end_stream e r (fields s);
      Some (with_fields (f, es) s <| readers ::= <[i := r']> |> <| returned ::= fun l => l ++ returned_chunk r' |>)
  | Register i =>
      _ ← readers s !! i;
      Some (with_fields (register_read_task i (fields s)) s)
  | Deliver => if existsb reading (readers s) then None else Some (with_fields (finish_read_delivery (fields s), []) s)
  | Close => Some (with_fields (snd (fst (close (fields s))), snd (close (fields s))) s)
  | AbortAll =>
      if registered (fields s) then Some (with_fields (snd (fst (close (fields s))), snd (close (fields s))) s) else None
  end.

Fixpoint drive_stream (is_end_stream : Incoming -> bool) (moves : list Move) (s : System) : option System :=
  match moves with
  | [] => Some s
  | m :: moves => s' ← move is_end_stream m s; drive_stream is_end_stream moves s'
  end.

Lemma stream_move_step is_end_stream m s s' : move is_end_stream m s = Some s' -> system_step is_end_stream s s'.
Proof.
  destruct m as [coalescing|i e|i| | |]; cbn.
  - pose proof (step_read is_end_stream s coalescing) as Hs. destruct (start_read coalescing (fields s)) as [res f].
    by intros [= <-].
  - destruct (readers s !! i) as [r|] eqn:Hi; [|done]. cbn.
    destruct (reader_step _ _ _ _) as [[[r' f] es]|] eqn:Hs; intros [= <-]. by eapply step_reader.
  - destruct (readers s !! i) as [r|] eqn:Hi; [|done]. intros [= <-]. apply step_register. by eexists.
  - destruct (existsb reading (readers s)) eqn:He; intros [= <-]. apply step_deliver. intros r Hr.
    destruct (reading r) eqn:Hw; [|done]. rewrite <- He. symmetry. apply existsb_exists.
    exists r. split; [by apply list_elem_of_In|done].
  - intros [= <-]. apply step_close. by left.
  - destruct (registered (fields s)) eqn:Hr; intros [= <-]. by apply step_abort_all.
Qed.

Lemma stream_drive_reachable is_end_stream f moves s s' :
  reachable is_end_stream f s -> drive_stream is_end_stream moves s = Some s' -> reachable is_end_stream f s'.
Proof.
  revert s; induction moves as [|m moves IH]; intros s Hs; cbn [drive_stream]; [by intros [= <-]|].
  destruct (move is_end_stream m s) as [s1|] eqn:Hm; [|done]. apply IH. eapply rtc_r; [done|]. by eapply stream_move_step.
Qed.

Definition sample_end_stream (b : Incoming) : bool := match b with [] => true | _ => false end.

Lemma sample_end_stream_law b : sample_end_stream b = true -> body_data b = [].
Proof. by destruct b. Qed.

Definition sample_body : Incoming := [FrameData [1; 2]; FramePending; FrameTrailers; FrameData [3; 0]].
Definition deflate_plan : StreamingDecodePlan := {| codings := [StreamDeflate] |}.
Definition sample_decoded : DecodedStream :=
  {| decoded_decoder := streaming_decoder_new deflate_plan (Some 16); decoded_input := [] |}.
Definition sample_fields : StreamStateFields := stream_state_new sample_body (Some sample_decoded) true Metrics.ReuseEligible.

(** A decoded stream read to its end: three reads. *)
Definition read_moves (i n : nat) : list Move := [Read true; Register i] ++ replicate n (Turn i Go) ++ [Deliver].
Definition sample_moves : list Move := read_moves 0 8 ++ read_moves 1 16 ++ [Read true; Register 2] ++ replicate 4 (Turn 2 Go).
Definition sample_stream : System := default (initial sample_fields) (drive_stream sample_end_stream sample_moves (initial sample_fields)).

Lemma sample_stream_reachable : reachable sample_end_stream sample_fields sample_stream.
Proof.
  apply (stream_drive_reachable sample_end_stream sample_fields sample_moves (initial sample_fields)); [apply rtc_refl|].
  by vm_compute.
Qed.

Lemma deflate_limits plan max : Some (deflate_plan, Some 16) = Some (plan, max) -> within max 0.
Proof. intros [= <- <-] limit [= <-]. lia. Qed.

Lemma stream_delivers_in_order_witness :
  returned sample_stream = [[1; 2]; [3]] /\ terminal (fields sample_stream) = Some Success /\
  exists decoder, finished decoder = true.
Proof.
  assert (Ht : terminal (fields sample_stream) = Some Success) by (vm_compute; reflexivity).
  split; [vm_compute; reflexivity|]. split; [exact Ht|].
  destruct (stream_delivers_in_order sample_end_stream sample_end_stream_law (body_data sample_body)
    (Some (deflate_plan, Some 16)) deflate_limits sample_body (Some sample_decoded) true Metrics.ReuseEligible sample_stream
    ltac:(split; reflexivity) sample_stream_reachable) as [(decoder & hist & i & o & rest & un & _ & _ & _ & Hs) _].
  exists decoder. exact (proj2 (proj2 (Hs Ht))).
Defined.

(** The client shuts down during the second read, whose task is then dropped. *)
Definition closing_moves : list Move :=
  read_moves 0 8 ++ [Read true; Register 1] ++ replicate 5 (Turn 1 Go) ++ [AbortAll; Turn 1 AbortRead; Turn 1 Go].
Definition sample_closed : System := default (initial sample_fields) (drive_stream sample_end_stream closing_moves (initial sample_fields)).

Lemma stream_closed_reachable : reachable sample_end_stream sample_fields sample_closed.
Proof.
  apply (stream_drive_reachable sample_end_stream sample_fields closing_moves (initial sample_fields)); [apply rtc_refl|].
  by vm_compute.
Qed.

Lemma stream_released_once_witness :
  terminal (fields sample_closed) = Some (Abort AbortClosed) /\ count is_connection_end (effects sample_closed) = 1 /\
  count is_permit_release (effects sample_closed) = 1.
Proof.
  assert (Ht : terminal (fields sample_closed) = Some (Abort AbortClosed)) by (vm_compute; reflexivity).
  split; [exact Ht|].
  destruct (stream_released_once sample_end_stream sample_body (Some sample_decoded) true Metrics.ReuseEligible sample_closed
    stream_closed_reachable) as (_ & _ & _ & _ & _ & _ & Hs & _).
  destruct (Hs _ Ht) as (Hc & _ & Hp & _). split; [exact Hc|exact Hp].
Defined.
