(* ===== verification/ConnectionLimit.v ===== *)
(** * Connection limits

    [src/src/core/client/connection_limit.rs]: the gate that opens a connection only
    with a permit of its origin and a permit of the client.  Tasks open connections
    concurrently; one step is one access to a semaphore, or the section under the lock
    of the origins' gates.  [tokio::sync::Semaphore] with its queue of waiters is the
    interface [TokioSemaphore]; the gates of the origins are shared objects in a heap,
    whose [Arc]s are counted, since the cleanup looks at the counts. *)

From S2P Require Import Prelude Atomics Numeric Sync.
From S2P Require Metrics.

Local Open Scope Z_scope.

(** ** Tokio's semaphore

    An [acquire_owned()] future is named by the task that awaits it.  [granted] and
    [waiting] are what the documentation says of the queue: a released permit goes to
    the first waiter, which takes it when it is polled. *)
Class TokioSemaphore := {
  OwnedSemaphore : Type;
  new_semaphore : Z -> OwnedSemaphore;
  permits : OwnedSemaphore -> Z;
  closed : OwnedSemaphore -> bool;
  try_acquire : OwnedSemaphore -> result OwnedSemaphore TryAcquireError;
  (** the first poll of [acquire_owned()] enters the queue *)
  acquire_enter : nat -> OwnedSemaphore -> OwnedSemaphore;
  (** a poll: [None] when pending, an error when the semaphore is closed *)
  acquire_poll : nat -> OwnedSemaphore -> option (result OwnedSemaphore unit);
  acquire_drop : nat -> OwnedSemaphore -> OwnedSemaphore;
  permit_drop : OwnedSemaphore -> OwnedSemaphore;
  granted : OwnedSemaphore -> list nat;
  waiting : OwnedSemaphore -> list nat;
}.

(** A permit given back: to the first waiter, or to the semaphore. *)
Definition give_back (s : Z * list nat * list nat) : Z * list nat * list nat :=
  let '(n, g, w) := s in
  match w with id :: w => (n, g ++ [id], w) | [] => (n + 1, g, []) end.

Definition remove_id (id : nat) (l : list nat) : list nat := filter (fun j => j <> id) l.

Section view.
Context `{TokioSemaphore}.

Definition view (s : OwnedSemaphore) : Z * list nat * list nat := (permits s, granted s, waiting s).

(** The documented behaviour, of a semaphore that is never closed. *)
Class SemaphoreLaws := {
  new_view n : 0 <= n -> view (new_semaphore n) = (n, [], []) /\ closed (new_semaphore n) = false;
  try_view s : closed s = false ->
    match try_acquire s with
    | Ok s' => 0 < permits s /\ view s' = (permits s - 1, granted s, waiting s) /\ closed s' = false
    | Err NoPermits => permits s <= 0
    | Err SemaphoreClosed => False
    end;
  enter_view id s : closed s = false ->
    view (acquire_enter id s) =
      (if 0 <? permits s then (permits s - 1, granted s ++ [id], waiting s)
       else (permits s, granted s, waiting s ++ [id])) /\
    closed (acquire_enter id s) = false;
  poll_view id s : closed s = false ->
    match acquire_poll id s with
    | Some (Ok s') => id ∈ granted s /\ view s' = (permits s, remove_id id (granted s), waiting s) /\ closed s' = false
    | Some (Err _) => False
    | None => id ∉ granted s
    end;
  drop_view id s : closed s = false ->
    view (acquire_drop id s) =
      (if decide (id ∈ granted s) then give_back (permits s, remove_id id (granted s), waiting s)
       else (permits s, granted s, remove_id id (waiting s))) /\
    closed (acquire_drop id s) = false;
  permit_view s : closed s = false ->
    view (permit_drop s) = give_back (view s) /\ closed (permit_drop s) = false;
}.
End view.

(** A counter with two queues satisfies the laws. *)
Definition queued_semaphores : TokioSemaphore := {|
  OwnedSemaphore := Z * list nat * list nat;
  new_semaphore n := (n, [], []);
  permits s := fst (fst s);
  closed _ := false;
  try_acquire '(n, g, w) := if 0 <? n then Ok (n - 1, g, w) else Err NoPermits;
  acquire_enter id '(n, g, w) := if 0 <? n then (n - 1, g ++ [id], w) else (n, g, w ++ [id]);
  acquire_poll id '(n, g, w) :=
    if decide (id ∈ g) then Some (Ok (n, remove_id id g, w)) else None;
  acquire_drop id '(n, g, w) :=
    if decide (id ∈ g) then give_back (n, remove_id id g, w) else (n, g, remove_id id w);
  permit_drop s := give_back s;
  granted s := snd (fst s);
  waiting s := snd s;
|}.

#[export] Instance queued_laws : @SemaphoreLaws queued_semaphores.
Proof.
  split; unfold view; cbn.
  - done.
  - intros [[n g] w] _. cbn. destruct (Z.ltb_spec 0 n); [done|lia].
  - intros id [[n g] w] _. cbn. by destruct (0 <? n).
  - intros id [[n g] w] _. cbn. by case_decide.
  - intros id [[n g] w] _. cbn. case_decide; [|done]. by destruct w.
  - intros [[n g] w] _. cbn. by destruct w.
Qed.

(** ** Contexts and errors *)

Record ConnectionLimitContext := {
  timeout : Z;
  timeout_secs : f64;
  context_origin : string;
  redirect_hop : Z;
  record_timeout : bool;
}.

Record ConnectionAcquireTimeout := {
  timeout_elapsed : f64;
  timeout_of : f64;
  timeout_origin : string;
  timeout_redirect_hop : Z;
}.

Definition connection_limit_context_new (timeout : Z) (timeout_secs : f64) (origin : string) (redirect_hop : Z) :
    ConnectionLimitContext :=
  {| timeout := timeout; timeout_secs := timeout_secs; context_origin := origin;
     redirect_hop := redirect_hop; record_timeout := true |}.

Definition fallback (origin : option string) : ConnectionLimitContext :=
  {| timeout := 0; timeout_secs := f64_zero; context_origin := default "" origin; redirect_hop := 0;
     record_timeout := false |}.

(** [started.elapsed()], in nanoseconds; a clock that goes backwards gives zero. *)
Definition elapsed_since (started now : Z) : Z := Z.max 0 (now - started).

Definition remaining (context : ConnectionLimitContext) (started now : Z) : Z :=
  Z.max 0 (timeout context - elapsed_since started now).

Definition timeout_error (context : ConnectionLimitContext) (started now : Z) : ConnectionAcquireTimeout :=
  {| timeout_elapsed := as_secs_f64 (elapsed_since started now); timeout_of := timeout_secs context;
     timeout_origin := context_origin context; timeout_redirect_hop := redirect_hop context |}.

(** The error in a [BoxError]. *)
Inductive AcquireError :=
| LimiterClosed
| TimedOut (error : ConnectionAcquireTimeout).

(** An error and its sources: what [downcast_ref] gives of each. *)
Fixpoint connection_acquire_timeout_from_error (sources : list (option ConnectionAcquireTimeout)) :
    option ConnectionAcquireTimeout :=
  match sources with
  | [] => None
  | Some timeout :: _ => Some timeout
  | None :: sources => connection_acquire_timeout_from_error sources
  end.

(** ** Telemetry: the calls on [Metrics], and the same on [OriginMetrics] *)

Inductive AcquireCall :=
| AcquireStarted
| AcquireWaited
| WaitFinished (elapsed : Z)
| FinishedImmediately
| AcquireTimedOut.

Definition mark_waited (waited : bool) : list AcquireCall := if waited then [] else [AcquireWaited].

Definition finish_success (waited : bool) (started now : Z) : list AcquireCall :=
  if waited then [WaitFinished (elapsed_since started now)] else [FinishedImmediately].

Definition finish_timeout (context : ConnectionLimitContext) : list AcquireCall :=
  if record_timeout context then [AcquireTimedOut] else [].

(** What a call does to the counters of the client. *)
Definition acquire_call (c : AcquireCall) : action Metrics.Metrics unit :=
  match c with
  | AcquireStarted => Metrics.connection_acquire_started
  | AcquireWaited => Metrics.connection_acquire_waited_event
  | WaitFinished elapsed => Metrics.connection_acquire_wait_finished elapsed
  | FinishedImmediately => Metrics.connection_acquire_finished_immediately
  | AcquireTimedOut => Metrics.connection_acquire_timeout
  end.

Definition record_acquires (cs : list AcquireCall) : Metrics.Metrics :=
  foldl (fun m c => exec (acquire_call c) m) Metrics.metrics_default cs.

(** ** The gate *)

Record ConnectionGate := {
  max_connections : option Z;
  max_connections_per_host : option Z;
}.

Definition ORIGIN_GATE_CLEANUP_THRESHOLD : Z := 1024.

(** References into the heap of semaphores: the client's, if it has one, is first. *)
Definition global_ref (gate : ConnectionGate) : option nat :=
  match max_connections gate with Some _ => Some 0%nat | None => None end.

(** Which permit a task acquires; at the second it may hold a permit of its origin. *)
Inductive Target := OriginPermit | GlobalPermit (origin : option nat).

Inductive Outcome := Closed | Failed (e : AcquireError) | Cancelled.

(** A task between two of its steps. *)
Inductive Stage :=
| Begin
(** in [acquire_permit]: before [try_acquire_owned], before the first poll of
    [acquire_owned()], and awaiting it until [deadline] *)
| Trying (r : nat) (target : Target)
| Entering (r : nat) (target : Target)
| Awaiting (r : nat) (target : Target) (deadline : Z)
(** the permits of [ConnectionPermit] *)
| Connected (origin global : option nat)
(** the permit of the origin is dropped last *)
| Releasing (origin : nat) (outcome : Outcome)
| Ended (outcome : Outcome).

Record AcquireTask := {
  task_origin : option string;
  task_context : ConnectionLimitContext;
  task_started : Z;
  telemetry_started : Z;
  waited : bool;
  stage : Stage;
  calls : list AcquireCall;
}.
#[export] Instance eta_AcquireTask : Eta AcquireTask := fun t =>
  Build_AcquireTask (task_origin t) (task_context t) (task_started t) (telemetry_started t) (waited t) (stage t)
    (calls t).

(** [current_connection_limit_context()] is [context]. *)
Definition acquire_task (origin : option string) (context : option ConnectionLimitContext)
    (started telemetry : Z) : AcquireTask :=
  {| task_origin := origin; task_context := default (fallback origin) context; task_started := started;
     telemetry_started := telemetry; waited := false; stage := Begin; calls := [] |}.

(** The reference to a gate of an origin that a stage holds. *)
Definition origin_ref (st : Stage) : option nat :=
  match st with
  | Trying r OriginPermit | Entering r OriginPermit | Awaiting r OriginPermit _ => Some r
  | Trying _ (GlobalPermit o) | Entering _ (GlobalPermit o) | Awaiting _ (GlobalPermit o) _ => o
  | Connected o _ => o
  | Releasing o _ => Some o
  | Begin | Ended _ => None
  end.

(** The [Arc]s of a gate that a task holds: [acquire] and [acquire_permit] one each
    until there is a permit, which holds one. *)
Definition arcs (r : nat) (st : Stage) : Z :=
  match st with
  | Trying r' OriginPermit | Entering r' OriginPermit | Awaiting r' OriginPermit _ =>
      if bool_decide (r' = r) then 2 else 0
  | _ => if bool_decide (origin_ref st = Some r) then 1 else 0
  end.

Section gate.
Context `{TokioSemaphore} (gate : ConnectionGate).

Record System := {
  heap : list OwnedSemaphore;
  gates : gmap string nat;
  tasks : list AcquireTask;
}.
#[export] Instance eta_System : Eta System := fun s => Build_System (heap s) (gates s) (tasks s).

(** [ConnectionGate::new]. *)
Definition connection_gate_new : System :=
  {| heap := match max_connections gate with Some limit => [new_semaphore limit] | None => [] end;
     gates := ∅; tasks := [] |}.

Definition strong_count (r : nat) (ts : list AcquireTask) : Z :=
  1 + sum_over (fun t => arcs r (stage t)) ts.

Definition retained (limit : Z) (s : System) (r : nat) : bool :=
  (1 <? strong_count r (tasks s)) ||
  match heap s !! r with Some semaphore => permits semaphore <? limit | None => false end.

(** [OriginConnectionGates::semaphore]. *)
Definition origin_semaphore (limit : Z) (origin : string) (s : System) : nat * System :=
  match gates s !! origin with
  | Some r => (r, s)
  | None =>
      let kept :=
        if ORIGIN_GATE_CLEANUP_THRESHOLD <=? Z.of_nat (size (gates s))
        then filter (fun kv => retained limit s (snd kv) = true) (gates s) else gates s in
      let r := length (heap s) in
      (r, s <| heap ::= fun h => h ++ [new_semaphore limit] |> <| gates := <[origin := r]> kept |>)
  end.

(** What is next once the origin's permit is there, if there is one. *)
Definition after_origin (o : option nat) : Stage :=
  match global_ref gate with
  | Some g => Trying g (GlobalPermit o)
  | None => Connected o None
  end.

Definition after_permit (r : nat) (target : Target) : Stage :=
  match target with
  | OriginPermit => after_origin (Some r)
  | GlobalPermit o => Connected o (Some r)
  end.

(** An error or a cancellation drops the permit of the origin that is held. *)
Definition unwind (target : Target) (outcome : Outcome) : Stage :=
  match target with
  | GlobalPermit (Some o) => Releasing o outcome
  | GlobalPermit None | OriginPermit => Ended outcome
  end.

(** The task goes on to a stage; entering [Connected] ends the telemetry. *)
Definition go (now : Z) (st : Stage) (t : AcquireTask) : AcquireTask :=
  t <| stage := st |>
    <| calls ::= fun l => l ++ match st with
                               | Connected _ _ => finish_success (waited t) (telemetry_started t) now
                               | _ => []
                               end |>.

Inductive Event := Run (now : Z) | Cancel | Close.

(** One access to the semaphore [sem] that the stage is at. *)
Definition semaphore_step (e : Event) (id : nat) (t : AcquireTask) (sem : OwnedSemaphore) :
    option (AcquireTask * OwnedSemaphore) :=
  match stage t, e with
  | Trying r target, Run now =>
      match try_acquire sem with
      | Ok sem => Some (go now (after_permit r target) t, sem)
      | Err SemaphoreClosed => Some (go now (unwind target (Failed LimiterClosed)) t, sem)
      | Err NoPermits =>
          Some (t <| stage := Entering r target |> <| waited := true |>
                  <| calls ::= fun l => l ++ mark_waited (waited t) |>, sem)
      end
  | Entering r target, Run now =>
      Some (go now (Awaiting r target (now + remaining (task_context t) (task_started t) now)) t, acquire_enter id sem)
  | Awaiting r target deadline, Run now =>
      match acquire_poll id sem with
      | Some (Ok sem) => Some (go now (after_permit r target) t, sem)
      | Some (Err _) => Some (go now (unwind target (Failed LimiterClosed)) t, sem)
      | None =>
          if deadline <=? now then
            let error := timeout_error (task_context t) (task_started t) now in
            Some ((go now (unwind target (Failed (TimedOut error))) t)
                    <| calls ::= fun l => l ++ finish_timeout (task_context t) |>, acquire_drop id sem)
          else None
      end
  | Awaiting r target _, Cancel => Some (go 0 (unwind target Cancelled) t, acquire_drop id sem)
  | Connected o (Some g), Close =>
      Some (go 0 (match o with Some o => Releasing o Closed | None => Ended Closed end) t, permit_drop sem)
  | Connected (Some o) None, Close => Some (go 0 (Ended Closed) t, permit_drop sem)
  | Releasing o outcome, Run _ => Some (go 0 (Ended outcome) t, permit_drop sem)
  | _, _ => None
  end.

(** The semaphore a stage accesses next. *)
Definition next_ref (st : Stage) : option nat :=
  match st with
  | Trying r _ | Entering r _ | Awaiting r _ _ => Some r
  | Connected _ (Some g) => Some g
  | Connected o None => o
  | Releasing o _ => Some o
  | Begin | Ended _ => None
  end.

Definition begin_task (i : nat) (t : AcquireTask) (s : System) : System :=
  let t := t <| calls := [AcquireStarted] |> in
  match task_origin t, max_connections_per_host gate with
  | Some origin, Some limit =>
      let (r, s) := origin_semaphore limit origin s in
      s <| tasks ::= <[i := t <| stage := Trying r OriginPermit |>]> |>
  | _, _ => s <| tasks ::= <[i := go (telemetry_started t) (after_origin None) t]> |>
  end.

Definition step_task (i : nat) (e : Event) (s : System) : option System :=
  t ← tasks s !! i;
  match stage t, e with
  | Begin, Run _ => Some (begin_task i t s)
  | Connected None None, Close => Some (s <| tasks ::= <[i := go 0 (Ended Closed) t]> |>)
  | _, _ =>
      r ← next_ref (stage t);
      sem ← heap s !! r;
      '(t, sem) ← semaphore_step e i t sem;
      Some (s <| heap ::= <[r := sem]> |> <| tasks ::= <[i := t]> |>)
  end.

Inductive system_step (s : System) : System -> Prop :=
| step_open origin context started telemetry :
    system_step s (s <| tasks ::= fun ts => ts ++ [acquire_task origin context started telemetry] |>)
| step_run i e s' : step_task i e s = Some s' -> system_step s s'.

Definition reachable : System -> Prop := rtc system_step connection_gate_new.
End gate.

(** ** Permits are conserved *)

Definition b2z (b : bool) : Z := if b then 1 else 0.

Definition origin_held (st : Stage) : option nat :=
  match st with
  | Trying _ (GlobalPermit o) | Entering _ (GlobalPermit o) | Awaiting _ (GlobalPermit o) _ => o
  | Connected o _ => o
  | Releasing o _ => Some o
  | _ => None
  end.
Definition global_held (st : Stage) : option nat := match st with Connected _ g => g | _ => None end.
Definition awaited (st : Stage) : option nat := match st with Awaiting r _ _ => Some r | _ => None end.

(** The permits of the semaphore [r] a task holds. *)
Definition held (r : nat) (t : AcquireTask) : Z :=
  b2z (bool_decide (origin_held (stage t) = Some r)) + b2z (bool_decide (global_held (stage t) = Some r)).

Definition awaits (r : nat) (ts : list AcquireTask) (i : nat) : Prop :=
  exists t, ts !! i = Some t /\ awaited (stage t) = Some r.

Section laws.
Context `{TokioSemaphore, !SemaphoreLaws}.

(** A semaphore with [h] permits held outside of it and the futures [W] alive. *)
Record semaphore_ok (limit h : Z) (W : nat -> Prop) (s : OwnedSemaphore) : Prop := {
  ok_open : closed s = false;
  ok_permits : 0 <= permits s;
  ok_sum : permits s + h + Z.of_nat (length (granted s)) = limit;
  ok_queue : NoDup (granted s ++ waiting s);
  ok_futures : forall j, j ∈ granted s ++ waiting s <-> W j;
  ok_busy : waiting s <> [] -> permits s = 0;
}.

Lemma view_eq s n g w : view s = (n, g, w) -> permits s = n /\ granted s = g /\ waiting s = w.
Proof. by intros [= <- <- <-]. Qed.

Lemma semaphore_ok_new n : 0 <= n -> semaphore_ok n 0 (fun _ => False) (new_semaphore n).
Proof.
  intros Hn. destruct (new_view n Hn) as [(E1 & E2 & E3)%view_eq Hc].
  split; rewrite ?E1, ?E2, ?E3; cbn; try done; [lia|constructor|]. intros j. set_solver.
Qed.

Lemma semaphore_ok_iff limit h (W W' : nat -> Prop) s :
  (forall j, W j <-> W' j) -> semaphore_ok limit h W s -> semaphore_ok limit h W' s.
Proof. intros HW []. split; try done. intros j. by rewrite <- HW. Qed.

Lemma semaphore_ok_try limit h W s s' :
  semaphore_ok limit h W s -> try_acquire s = Ok s' -> semaphore_ok limit (h + 1) W s'.
Proof.
  intros [] Ht. pose proof (try_view s ok_open0) as Hv. rewrite Ht in Hv.
  destruct Hv as (Hpos & (E1 & E2 & E3)%view_eq & Hc). split; rewrite ?E1, ?E2, ?E3; try done; try lia.
  intros Hw. specialize (ok_busy0 Hw). lia.
Qed.

Lemma try_busy limit h W s : semaphore_ok limit h W s -> try_acquire s <> Err SemaphoreClosed.
Proof. intros [] Ht. pose proof (try_view s ok_open0) as Hv. by rewrite Ht in Hv. Qed.

Lemma semaphore_ok_enter limit h W s i :
  semaphore_ok limit h W s -> ~ W i -> semaphore_ok limit h (fun j => W j \/ j = i) (acquire_enter i s).
Proof.
  intros [] Hi. destruct (enter_view i s ok_open0) as [Hv Hc].
  assert (Hin : i ∉ granted s ++ waiting s) by (by rewrite ok_futures0).
  destruct (Z.ltb_spec 0 (permits s)) as [Hpos|Hpos]; apply view_eq in Hv as (E1 & E2 & E3);
    split; rewrite ?E1, ?E2, ?E3; try done; try lia.
  - rewrite length_app. cbn. lia.
  - rewrite <- app_assoc. apply NoDup_app in ok_queue0 as (Hg & Hgw & Hw). apply NoDup_app. split_and!; [done|set_solver|].
    apply NoDup_app. split_and!; [apply NoDup_singleton|set_solver|done].
  - intros j. rewrite <- ok_futures0. set_solver.
  - intros Hw. specialize (ok_busy0 Hw). lia.
  - rewrite app_assoc. apply NoDup_app. split_and!; [done|set_solver|apply NoDup_singleton].
  - intros j. rewrite <- ok_futures0. set_solver.
Qed.

Lemma remove_id_spec i l j : j ∈ remove_id i l <-> j ∈ l /\ j <> i.
Proof. unfold remove_id. rewrite list_elem_of_filter. tauto. Qed.

Lemma remove_id_length i l : NoDup l -> i ∈ l -> Z.of_nat (length (remove_id i l)) = Z.of_nat (length l) - 1.
Proof.
  intros Hnd. induction Hnd as [|x l Hx Hnd IH]; intros Hi; [by apply elem_of_nil in Hi|].
  unfold remove_id in *. rewrite filter_cons. case_decide as Hxi.
  - cbn. apply elem_of_cons in Hi as [->|Hi]; [done|]. specialize (IH Hi). lia.
  - subst x. cbn. enough (filter (fun j => j <> i) l = l) as -> by lia.
    clear -Hx. induction l as [|y l IH]; [done|]. rewrite filter_cons, decide_True, IH; set_solver.
Qed.

Lemma remove_id_NoDup i l : NoDup l -> NoDup (remove_id i l).
Proof. apply NoDup_filter. Qed.

Lemma semaphore_ok_poll limit h W s s' i :
  semaphore_ok limit h W s -> acquire_poll i s = Some (Ok s') ->
  semaphore_ok limit (h + 1) (fun j => W j /\ j <> i) s'.
Proof.
  intros [] Ht. pose proof (poll_view i s ok_open0) as Hv. rewrite Ht in Hv.
  destruct Hv as (Hin & (E1 & E2 & E3)%view_eq & Hc). apply NoDup_app in ok_queue0 as (Hg & Hgw & Hw).
  split; rewrite ?E1, ?E2, ?E3; try done.
  - rewrite remove_id_length by done. lia.
  - apply NoDup_app. split_and!; [by apply remove_id_NoDup| |done]. intros j. rewrite remove_id_spec. naive_solver.
  - intros j. rewrite <- ok_futures0, !elem_of_app, remove_id_spec. split; [|naive_solver].
    intros [?|Hj]; [naive_solver|]. split; [by right|]. intros ->. by apply (Hgw i).
Qed.

(** A permit given back goes to the first future that waits, or to the semaphore. *)
Lemma give_back_ok limit h W s s' g w :
  closed s' = false -> view s' = give_back (permits s, g, w) ->
  0 <= permits s -> (w <> [] -> permits s = 0) ->
  permits s + h + Z.of_nat (length g) + 1 = limit -> NoDup (g ++ w) -> (forall j, j ∈ g ++ w <-> W j) ->
  semaphore_ok limit h W s'.
Proof.
  intros Hc Hv Hp Hbusy Hsum Hnd HW. destruct w as [|id w]; apply view_eq in Hv as (E1 & E2 & E3);
    split; rewrite ?E1, ?E2, ?E3; try done; try lia.
  - rewrite length_app. cbn. lia.
  - by rewrite <- app_assoc.
  - intros j. by rewrite <- app_assoc.
  - intros _. by apply Hbusy.
Qed.

Lemma semaphore_ok_drop limit h W s i :
  semaphore_ok limit h W s -> W i -> semaphore_ok limit h (fun j => W j /\ j <> i) (acquire_drop i s).
Proof.
  intros [] Hi. destruct (drop_view i s ok_open0) as [Hv Hc]. rewrite <- ok_futures0 in Hi.
  apply NoDup_app in ok_queue0 as (Hg & Hgw & Hw). case_decide as Hin.
  - eapply give_back_ok; try done.
    + rewrite remove_id_length by done. lia.
    + apply NoDup_app. split_and!; [by apply remove_id_NoDup| |done]. intros j. rewrite remove_id_spec. naive_solver.
    + intros j. rewrite <- ok_futures0, !elem_of_app, remove_id_spec. split; [|naive_solver].
      intros [?|Hj]; [naive_solver|]. split; [by right|]. intros ->. by apply (Hgw i).
  - apply view_eq in Hv as (E1 & E2 & E3).
    split; rewrite ?E1, ?E2, ?E3; try done.
    + apply NoDup_app. split_and!; [done| |by apply remove_id_NoDup]. intros j. rewrite remove_id_spec. naive_solver.
    + intros j. rewrite <- ok_futures0, !elem_of_app, remove_id_spec. split; [|naive_solver].
      intros [?|?]; [|naive_solver]. split; [by left|]. by intros ->.
    + intros Hne. apply ok_busy0. intros E. by rewrite E in Hne.
Qed.

Lemma semaphore_ok_release limit h W s :
  semaphore_ok limit h W s -> semaphore_ok limit (h - 1) W (permit_drop s).
Proof.
  intros []. destruct (permit_view s ok_open0) as [Hv Hc]. eapply give_back_ok; try done. lia.
Qed.
End laws.

Section invariant.
Context `{TokioSemaphore, !SemaphoreLaws} (gate : ConnectionGate).

Definition limit_of (r : nat) : option Z :=
  if bool_decide (global_ref gate = Some r) then max_connections gate else max_connections_per_host gate.

(** Limits are not negative: the code has them as [usize]. *)
Definition valid_limits : Prop :=
  (forall n, max_connections gate = Some n -> 0 <= n) /\
  (forall n, max_connections_per_host gate = Some n -> 0 <= n).

Definition begun (st : Stage) : bool := match st with Begin | Ended _ => false | _ => true end.

(** The permit of the client a stage acquires or holds. *)
Definition global_use (st : Stage) : option nat :=
  match st with
  | Trying r (GlobalPermit _) | Entering r (GlobalPermit _) | Awaiting r (GlobalPermit _) _ => Some r
  | Connected _ g => g
  | _ => None
  end.

Definition needs_origin (t : AcquireTask) : option string :=
  match max_connections_per_host gate with Some _ => task_origin t | None => None end.

(** A task that runs refers to the gate of its origin, when it needs one, and a
    connection has the client's permit, when there is a limit. *)
Record task_ok (gs : gmap string nat) (t : AcquireTask) : Prop := {
  ok_origin : forall r, origin_ref (stage t) = Some r -> exists o, needs_origin t = Some o /\ gs !! o = Some r;
  ok_needs : begun (stage t) = true -> is_Some (needs_origin t) -> is_Some (origin_ref (stage t));
  ok_global : forall r, global_use (stage t) = Some r -> global_ref gate = Some r;
  ok_connected : forall o g, stage t = Connected o g -> g = global_ref gate;
}.

Record gate_ok (s : System) : Prop := {
  ok_semaphores : forall r sem, heap s !! r = Some sem -> exists limit,
    limit_of r = Some limit /\ semaphore_ok limit (sum_over (held r) (tasks s)) (awaits r (tasks s)) sem;
  ok_gates : forall o r, gates s !! o = Some r -> is_Some (heap s !! r) /\ global_ref gate <> Some r;
  ok_client : forall r, global_ref gate = Some r -> is_Some (heap s !! r);
  ok_tasks : forall t, t ∈ tasks s -> task_ok (gates s) t;
}.

Lemma awaits_insert ts i t t' r j :
  ts !! i = Some t ->
  awaits r (<[i := t']> ts) j <-> (j <> i /\ awaits r ts j) \/ (j = i /\ awaited (stage t') = Some r).
Proof.
  intros Hi. unfold awaits. destruct (decide (j = i)) as [->|Hne].
  - rewrite list_lookup_insert_eq by (by eapply lookup_lt_Some). naive_solver.
  - rewrite list_lookup_insert_ne by done. naive_solver.
Qed.

Lemma awaits_app ts t r j : awaited (stage t) = None -> awaits r (ts ++ [t]) j <-> awaits r ts j.
Proof.
  intros Ht. unfold awaits. split; intros (x & Hx & Hf); exists x; (split; [|done]).
  - apply lookup_app_Some in Hx as [?|[_ Hx]]; [done|].
    apply list_lookup_singleton_Some in Hx as [_ <-]. congruence.
  - by apply lookup_app_l_Some.
Qed.

(** What an access to [r] changes: only the permits and the future of this task at [r],
    and the semaphore stays balanced. *)
Definition balanced (limit : Z) (i : nat) (r : nat) (t t' : AcquireTask) (sem sem' : OwnedSemaphore) : Prop :=
  (forall r', r' <> r -> held r' t' = held r' t /\ (awaited (stage t') = Some r' <-> awaited (stage t) = Some r')) /\
  (forall h W W', semaphore_ok limit h W sem -> (W i <-> awaited (stage t) = Some r) ->
    (forall j, W' j <-> (j <> i /\ W j) \/ (j = i /\ awaited (stage t') = Some r)) ->
    semaphore_ok limit (h - held r t + held r t') W' sem').

Lemma held_stage r t : held r t =
  b2z (bool_decide (origin_held (stage t) = Some r)) + b2z (bool_decide (global_held (stage t) = Some r)).
Proof. done. Qed.

(** Getting a permit, failing, and dropping permits. *)
Lemma stage_after_permit r target :
  (target <> OriginPermit -> global_ref gate = Some r) ->
  awaited (after_permit gate r target) = None /\ begun (after_permit gate r target) = true /\
  (forall r', b2z (bool_decide (origin_held (after_permit gate r target) = Some r')) +
    b2z (bool_decide (global_held (after_permit gate r target) = Some r')) =
    match target with GlobalPermit o => b2z (bool_decide (o = Some r')) | OriginPermit => 0 end +
    b2z (bool_decide (r = r'))).
Proof.
  intros Hg. destruct target as [|o]; cbn.
  - unfold after_origin. destruct (global_ref gate); cbn; split_and!; try done; intros r';
      repeat case_bool_decide; simplify_eq; try done; cbn; congruence.
  - split_and!; try done. intros r'. repeat case_bool_decide; simplify_eq; try done; cbn; congruence.
Qed.

Lemma stage_unwind target outcome :
  awaited (unwind target outcome) = None /\ global_held (unwind target outcome) = None /\
  origin_held (unwind target outcome) = match target with GlobalPermit o => o | OriginPermit => None end.
Proof. by destruct target as [|[]]. Qed.

Lemma balanced_keep limit i r t t' sem sem' :
  (forall r', held r' t' = held r' t) -> awaited (stage t) = None -> awaited (stage t') = None -> sem' = sem ->
  balanced limit i r t t' sem sem'.
Proof.
  intros Hh H1 H2 ->. split; [intros r' _; rewrite Hh, H1, H2; done|].
  intros h W W' Hok HWi HW. rewrite Hh, Z.sub_add. eapply semaphore_ok_iff; [|done].
  intros j. rewrite HW, H2. rewrite H1 in HWi. split; [|naive_solver]. intros Hj. left. split; [|done].
  intros ->. by apply HWi in Hj.
Qed.

Lemma balanced_intro limit i r t t' sem sem' (d : Z) :
  (forall r', held r' t' = held r' t + (if bool_decide (r = r') then d else 0)) ->
  (forall r', r' <> r -> awaited (stage t) <> Some r' /\ awaited (stage t') <> Some r') ->
  (forall h W, semaphore_ok limit h W sem -> (W i <-> awaited (stage t) = Some r) ->
    semaphore_ok limit (h + d) (fun j => (j <> i /\ W j) \/ (j = i /\ awaited (stage t') = Some r)) sem') ->
  balanced limit i r t t' sem sem'.
Proof.
  intros Hh Ha Hs. split.
  - intros r' Hne. rewrite Hh, bool_decide_false by done. split; [lia|]. destruct (Ha r' Hne). split; done.
  - intros h W W' Hok HWi HW. rewrite Hh, bool_decide_true by done.
    replace (h - held r t + (held r t + d)) with (h + d) by lia.
    eapply semaphore_ok_iff; [|by apply Hs]. intros j. by rewrite HW.
Qed.

(** The futures when this task has none before or after. *)
Lemma ok_no_future limit h (W : nat -> Prop) sem i (P : Prop) :
  semaphore_ok limit h W sem -> ~ W i -> ~ P ->
  semaphore_ok limit h (fun j => (j <> i /\ W j) \/ (j = i /\ P)) sem.
Proof.
  intros Hok Hi HP. eapply semaphore_ok_iff; [|done]. intros j. split; [|naive_solver].
  intros Hj. left. split; [|done]. by intros ->.
Qed.

Lemma ok_less_future limit h (W : nat -> Prop) sem i (P : Prop) :
  semaphore_ok limit h (fun j => W j /\ j <> i) sem -> ~ P ->
  semaphore_ok limit h (fun j => (j <> i /\ W j) \/ (j = i /\ P)) sem.
Proof. intros Hok HP. eapply semaphore_ok_iff; [|done]. intros j. naive_solver. Qed.

Lemma semaphore_step_balanced gs limit e i t sem t' sem' r :
  task_ok gs t -> next_ref (stage t) = Some r ->
  semaphore_step gate e i t sem = Some (t', sem') -> balanced limit i r t t' sem sem'.
Proof.
  intros [_ _ Hglobal _] Hr. unfold semaphore_step.
  destruct (stage t) as [|r' target|r' target|r' target deadline|o g|o outcome|] eqn:Hst; cbn in Hr; try done.
  - injection Hr as ->. destruct e as [now| |]; try done.
    assert (Hg : target <> OriginPermit -> global_ref gate = Some r) by (intros ?; destruct target; [done|by apply Hglobal]).
    destruct (stage_after_permit r target Hg) as (Ha & _ & Hh).
    destruct (try_acquire sem) as [sem1|[]] eqn:Ht; intros [= <- <-].
    + apply (balanced_intro _ _ _ _ _ _ _ 1).
      * intros r'. unfold held. cbn. rewrite Hh, Hst. destruct target; cbn; repeat case_bool_decide; cbn; try done; lia.
      * intros r' _. rewrite Hst. cbn. by rewrite Ha.
      * intros h W Hok HWi. cbn. rewrite Ha. rewrite Hst in HWi. apply ok_no_future; [by eapply semaphore_ok_try|by rewrite HWi|done].
    + apply balanced_keep; try done; [intros r'; unfold held; cbn; by rewrite Hst|by rewrite Hst].
    + destruct (stage_unwind target (Failed LimiterClosed)) as (E1 & E2 & E3).
      apply balanced_keep; cbn; try done; [|by rewrite Hst].
      intros r'. unfold held. cbn. rewrite E2, E3, Hst. by destruct target.
  - injection Hr as ->. destruct e as [now| |]; try done. intros [= <- <-].
    apply (balanced_intro _ _ _ _ _ _ _ 0).
    + intros r'. unfold held. cbn. rewrite Hst. destruct target; cbn; repeat case_bool_decide; cbn; try done; lia.
    + intros r' Hne. rewrite Hst. cbn. split; congruence.
    + intros h W Hok HWi. rewrite Hst in HWi. rewrite Z.add_0_r.
      eapply semaphore_ok_iff; [|apply semaphore_ok_enter; [done|by rewrite HWi]].
      intros j. cbn. split; [|naive_solver]. intros [Hj| ->]; [|by right]. left. split; [|done].
      intros ->. by apply HWi in Hj.
  - injection Hr as ->.
    assert (Hdrop : forall now outcome extra,
      balanced limit i r t ((go now (unwind target outcome) t) <| calls ::= extra |>) sem (acquire_drop i sem)).
    { intros now outcome extra. destruct (stage_unwind target outcome) as (E1 & E2 & E3).
      apply (balanced_intro _ _ _ _ _ _ _ 0).
      - intros r'. unfold held. cbn. rewrite E2, E3, Hst. destruct target; cbn; repeat case_bool_decide; done.
      - intros r' Hne. rewrite Hst. cbn. rewrite E1. split; congruence.
      - intros h W Hok HWi. rewrite Hst in HWi. rewrite Z.add_0_r. cbn. rewrite E1.
        apply ok_less_future; [|done]. by apply semaphore_ok_drop; [|apply HWi]. }
    destruct e as [now| |]; try done.
    + assert (Hg : target <> OriginPermit -> global_ref gate = Some r) by (intros ?; destruct target; [done|by apply Hglobal]).
      destruct (stage_after_permit r target Hg) as (Ha & _ & Hh).
      destruct (acquire_poll i sem) as [[sem1|[]]|] eqn:Hp.
      * intros [= <- <-]. apply (balanced_intro _ _ _ _ _ _ _ 1).
        -- intros r'. unfold held. cbn. rewrite Hh, Hst. destruct target; cbn; repeat case_bool_decide; cbn; try done; lia.
        -- intros r' Hne. rewrite Hst. cbn. rewrite Ha. split; congruence.
        -- intros h W Hok HWi. cbn. rewrite Ha. apply ok_less_future; [by eapply semaphore_ok_poll|done].
      * intros [= <- <-]. destruct (stage_unwind target (Failed LimiterClosed)) as (E1 & E2 & E3).
        apply (balanced_intro _ _ _ _ _ _ _ 0).
        -- intros r'. unfold held. cbn. rewrite E2, E3, Hst. destruct target; cbn; repeat case_bool_decide; done.
        -- intros r' Hne. rewrite Hst. cbn. rewrite E1. split; congruence.
        -- intros h W Hok _. destruct Hok. pose proof (poll_view i sem ok_open0) as Hv. by rewrite Hp in Hv.
      * destruct (deadline <=? now); [|done]. intros [= <- <-].
        apply (Hdrop now _ (fun l => l ++ finish_timeout (task_context t))).
    + intros [= <- <-]. exact (Hdrop 0 Cancelled (fun l => l)).
  - assert (Hrel : forall t' d r, (forall r', held r' t' = held r' t + (if bool_decide (r = r') then d else 0)) ->
      d = -1 -> awaited (stage t) = None -> awaited (stage t') = None -> balanced limit i r t t' sem (permit_drop sem)).
    { intros t1 d r1 Hh -> H1 H2. apply (balanced_intro _ _ _ _ _ _ _ (-1)); [done|by rewrite H1, H2|].
      intros h W Hok HWi. rewrite H2. rewrite H1 in HWi. apply ok_no_future; [by apply semaphore_ok_release|by rewrite HWi|done]. }
    destruct g as [g|], o as [o|], e as [now| |]; cbn in Hr; try done; injection Hr as ->; intros [= <- <-];
      apply (Hrel _ (-1)); rewrite ?Hst; try done; intros r'; unfold held; cbn; rewrite Hst; cbn;
      repeat case_bool_decide; simplify_eq; try done; cbn; lia.
  - injection Hr as ->. destruct e as [now| |]; try done. intros [= <- <-].
    apply (balanced_intro _ _ _ _ _ _ _ (-1)).
    + intros r'. unfold held. cbn. rewrite Hst. cbn. repeat case_bool_decide; simplify_eq; try done; cbn; lia.
    + intros r' _. by rewrite Hst.
    + intros h W Hok HWi. cbn. rewrite Hst in HWi.
      apply ok_no_future; [by apply semaphore_ok_release|by rewrite HWi|done].
Qed.

(** ** The invariant is kept *)

Lemma task_ok_go gs now st t extra :
  (forall r, origin_ref st = Some r -> exists o, needs_origin t = Some o /\ gs !! o = Some r) ->
  (begun st = true -> is_Some (needs_origin t) -> is_Some (origin_ref st)) ->
  (forall r, global_use st = Some r -> global_ref gate = Some r) ->
  (forall o g, st = Connected o g -> g = global_ref gate) ->
  task_ok gs ((go now st t) <| calls ::= extra |>).
Proof. by split. Qed.

Lemma task_ok_same gs t t' :
  task_ok gs t -> task_origin t' = task_origin t -> stage t' = stage t -> task_ok gs t'.
Proof. intros [] E1 E2. split; rewrite E2; try done; unfold needs_origin; rewrite E1; done. Qed.

Lemma after_origin_ok gs now t o :
  (forall r, o = Some r -> exists origin, needs_origin t = Some origin /\ gs !! origin = Some r) ->
  (is_Some (needs_origin t) -> is_Some o) ->
  task_ok gs (go now (after_origin gate o) t).
Proof.
  intros Ho Hn. unfold after_origin. destruct (global_ref gate) as [g|] eqn:Hg.
  - apply (task_ok_go gs now _ t (fun l => l)); cbn; try done. by intros r [= <-].
  - apply (task_ok_go gs now _ t (fun l => l)); cbn; try done. intros o' g' [= _ <-]. done.
Qed.

Lemma semaphore_step_task gs e i t sem t' sem' r :
  task_ok gs t -> next_ref (stage t) = Some r ->
  semaphore_step gate e i t sem = Some (t', sem') -> task_ok gs t'.
Proof.
  intros Hok Hr. pose proof Hok as [Ho Hn Hg Hc]. unfold semaphore_step.
  assert (Hunwind : forall now target outcome extra,
    match target with GlobalPermit o => origin_ref (stage t) = o | OriginPermit => True end ->
    task_ok gs ((go now (unwind target outcome) t) <| calls ::= extra |>)).
  { intros now target outcome extra Ht. apply task_ok_go; destruct target as [|[o|]]; cbn; try done.
    intros r' [= <-]. by apply Ho. }
  assert (Hpermit : forall now r target, stage t <> Begin -> begun (stage t) = true ->
    match target with OriginPermit => origin_ref (stage t) = Some r
                    | GlobalPermit o => origin_ref (stage t) = o /\ global_ref gate = Some r end ->
    task_ok gs (go now (after_permit gate r target) t)).
  { intros now r' target _ Hb Ht. destruct target as [|o]; cbn.
    - apply after_origin_ok; [|by eexists]. intros r'' [= <-]. by apply Ho.
    - destruct Ht as [<- Ht]. apply (task_ok_go gs now _ t (fun l => l)); cbn; auto; [congruence|].
      by intros o g [= _ <-]. }
  destruct (stage t) as [|r' target|r' target|r' target deadline|o g|o outcome|] eqn:Hst; cbn in Hr; try done.
  - injection Hr as ->. destruct e as [now| |]; try done.
    destruct (try_acquire sem) as [sem1|[]]; intros [= <- <-].
    + apply Hpermit; try done. destruct target; [done|]. split; [done|]. by apply Hg.
    + split; cbn; destruct target; cbn in *; auto; done.
    + apply (Hunwind now target _ (fun l => l)). by destruct target.
  - injection Hr as ->. destruct e as [now| |]; try done. intros [= <- <-].
    split; cbn; destruct target; cbn in *; auto; done.
  - injection Hr as ->. destruct e as [now| |]; try done.
    + destruct (acquire_poll i sem) as [[sem1|[]]|].
      * intros [= <- <-]. apply Hpermit; try done. destruct target; [done|]. split; [done|]. by apply Hg.
      * intros [= <- <-]. apply (Hunwind now target _ (fun l => l)). by destruct target.
      * destruct (deadline <=? now); [|done]. intros [= <- <-].
        apply (Hunwind now target _ (fun l => l ++ finish_timeout (task_context t))). by destruct target.
    + intros [= <- <-]. apply (Hunwind 0 target _ (fun l => l)). by destruct target.
  - destruct g as [g|], o as [o|], e as [now| |]; cbn in Hr; try done; intros [= <- <-];
      apply (task_ok_go gs 0 _ t (fun l => l)); cbn; try done.
  - injection Hr as ->. destruct e as [now| |]; try done. intros [= <- <-].
    by apply (task_ok_go gs 0 _ t (fun l => l)).
Qed.

Lemma gate_ok_semaphore_step s e i t r sem t' sem' :
  gate_ok s -> tasks s !! i = Some t -> next_ref (stage t) = Some r -> heap s !! r = Some sem ->
  semaphore_step gate e i t sem = Some (t', sem') ->
  gate_ok (s <| heap ::= <[r := sem']> |> <| tasks ::= <[i := t']> |>).
Proof.
  intros [Hsem Hgates Hclient Htasks] Hi Hr Hrs Hstep.
  assert (Ht : task_ok (gates s) t) by (apply Htasks; by eapply list_elem_of_lookup_2).
  assert (Hsome : forall r', is_Some (heap s !! r') -> is_Some (<[r := sem']> (heap s) !! r')).
  { intros r' Hr'. apply lookup_lt_is_Some. rewrite length_insert. by apply lookup_lt_is_Some. }
  split; cbn.
  - intros r' sem1 Hl. apply list_lookup_insert_Some in Hl as [(-> & -> & _)|[Hne Hl]].
    + destruct (Hsem _ _ Hrs) as (limit & Hlim & Hok). exists limit. split; [done|].
      destruct (semaphore_step_balanced _ limit _ _ _ _ _ _ _ Ht Hr Hstep) as [_ Hbal].
      rewrite (sum_over_insert _ _ _ _ _ Hi). eapply Hbal; [exact Hok| |].
      * unfold awaits. rewrite Hi. naive_solver.
      * intros j. by eapply awaits_insert.
    + destruct (Hsem _ _ Hl) as (limit & Hlim & Hok). exists limit. split; [done|].
      destruct (semaphore_step_balanced _ limit _ _ _ _ _ _ _ Ht Hr Hstep) as [Hother _].
      destruct (Hother r') as [Eh Ea]; [done|]. rewrite (sum_over_insert _ _ _ _ _ Hi), Eh, Z.sub_add.
      eapply semaphore_ok_iff; [|done]. intros j. rewrite (awaits_insert _ _ _ _ _ _ Hi), Ea.
      destruct (decide (j = i)) as [->|]; unfold awaits; naive_solver.
  - intros o r' Hg. destruct (Hgates o r' Hg). auto.
  - auto.
  - intros x Hx. apply list_elem_of_lookup in Hx as [j Hj].
    apply list_lookup_insert_Some in Hj as [(_ & -> & _)|[_ Hj]].
    + by eapply semaphore_step_task.
    + apply Htasks. by eapply list_elem_of_lookup_2.
Qed.

Lemma held_quiet r t : origin_held (stage t) = None -> global_held (stage t) = None -> held r t = 0.
Proof. intros E1 E2. unfold held. by rewrite E1, E2. Qed.

Lemma arcs_nonneg r st : 0 <= arcs r st.
Proof. destruct st as [|? []|? []|? []| | |]; cbn; case_bool_decide; lia. Qed.

Lemma arcs_ref r st : origin_ref st = Some r -> 1 <= arcs r st.
Proof.
  destruct st as [|? []|? []|? []| | |]; cbn; try done; intros E; simplify_eq; rewrite ?bool_decide_true by done; lia.
Qed.

(** A step of a task without a permit to a stage without one. *)
Lemma gate_ok_quiet s i t t' :
  gate_ok s -> tasks s !! i = Some t -> (forall r, held r t' = held r t) ->
  awaited (stage t) = None -> awaited (stage t') = None -> task_ok (gates s) t' ->
  gate_ok (s <| tasks ::= <[i := t']> |>).
Proof.
  intros [Hsem Hgates Hclient Htasks] Hi Hh Ha Ha' Ht. split; cbn; auto.
  - intros r sem Hr. destruct (Hsem _ _ Hr) as (limit & Hlim & Hok). exists limit. split; [done|].
    rewrite (sum_over_insert _ _ _ _ _ Hi), Hh, Z.sub_add. eapply semaphore_ok_iff; [|done].
    intros j. rewrite (awaits_insert _ _ _ _ _ _ Hi), Ha'. destruct (decide (j = i)) as [->|]; [|naive_solver].
    unfold awaits. naive_solver.
  - intros x Hx. apply list_elem_of_lookup in Hx as [j Hj].
    apply list_lookup_insert_Some in Hj as [(_ & -> & _)|[_ Hj]]; [done|]. apply Htasks. by eapply list_elem_of_lookup_2.
Qed.

(** The cleanup keeps every gate that a task refers to. *)
Lemma retained_ref limit s t r : t ∈ tasks s -> origin_ref (stage t) = Some r -> retained limit s r = true.
Proof.
  intros Ht Hr. unfold retained, strong_count. apply list_elem_of_lookup in Ht as [i Hi].
  pose proof (sum_over_member (fun t => arcs r (stage t)) _ i t (fun t => arcs_nonneg r (stage t)) Hi).
  pose proof (arcs_ref r _ Hr). cbn in *. apply orb_true_iff. left. apply Z.ltb_lt. lia.
Qed.

Lemma origin_semaphore_ok s o limit r s' :
  valid_limits -> gate_ok s -> max_connections_per_host gate = Some limit -> origin_semaphore limit o s = (r, s') ->
  gate_ok s' /\ tasks s' = tasks s /\ gates s' !! o = Some r.
Proof.
  intros [_ Hv] Hok Hlim. unfold origin_semaphore. destruct (gates s !! o) as [r0|] eqn:Hg; [by intros [= <- <-]|].
  intros [= <- <-]. split_and!; [|done|apply lookup_insert_eq].
  set (kept := if ORIGIN_GATE_CLEANUP_THRESHOLD <=? Z.of_nat (size (gates s))
    then filter (fun kv => retained limit s (snd kv) = true) (gates s) else gates s).
  assert (Hkept : forall o r, kept !! o = Some r -> gates s !! o = Some r).
  { intros o' r'. unfold kept. case_match; [|done]. intros [? _]%map_lookup_filter_Some. done. }
  assert (Hrefs : forall t o r, t ∈ tasks s -> origin_ref (stage t) = Some r -> gates s !! o = Some r ->
    kept !! o = Some r).
  { intros t o' r' Ht Hr Hg'. unfold kept. case_match; [|done]. apply map_lookup_filter_Some. split; [done|].
    by eapply retained_ref. }
  clearbody kept. destruct Hok as [Hsem Hgates Hclient Htasks].
  assert (Hfresh : global_ref gate <> Some (length (heap s))).
  { intros Hr. apply Hclient, lookup_lt_is_Some in Hr. lia. }
  assert (Hnone : forall t, t ∈ tasks s -> held (length (heap s)) t = 0 /\ awaited (stage t) <> Some (length (heap s))).
  { intros t Ht. destruct (Htasks t Ht) as [Ho _ Hgl _].
    assert (Hnr : forall r, (origin_ref (stage t) = Some r \/ global_use (stage t) = Some r) -> r <> length (heap s)).
    { intros r [Hr|Hr] ->; [|by apply Hfresh, Hgl].
      destruct (Ho _ Hr) as (o' & _ & Hg'). apply Hgates in Hg' as [?%lookup_lt_is_Some _]. lia. }
    unfold held. split.
    - rewrite !bool_decide_false; [done| |].
      + intros E. apply (Hnr (length (heap s))); [|done]. right. destruct (stage t); done.
      + intros E. apply (Hnr (length (heap s))); [|done]. left. by destruct (stage t) as [|? []|? []|? []| | |].
    - intros E. apply (Hnr (length (heap s))); [|done]. destruct (stage t) as [|? []|? []|? []| | |]; auto; done. }
  split; cbn.
  - intros r sem Hr. apply lookup_app_Some in Hr as [Hr|[Hlt Hr]].
    + destruct (Hsem _ _ Hr) as (limit' & ? & ?). by exists limit'.
    + apply list_lookup_singleton_Some in Hr as [E <-]. assert (r = length (heap s)) as -> by lia.
      exists limit. unfold limit_of. rewrite bool_decide_false by done. split; [done|].
      rewrite sum_over_zero by (intros t Ht; by apply Hnone). eapply semaphore_ok_iff; [|apply semaphore_ok_new; auto].
      intros j. split; [done|]. intros (t & Ht & Ha). apply list_elem_of_lookup_2 in Ht. by apply (Hnone t Ht) in Ha.
  - intros o' r' Hl. destruct (decide (o' = o)) as [->|Hne].
    + rewrite lookup_insert_eq in Hl. injection Hl as <-. split; [|done]. rewrite lookup_app_r, Nat.sub_diag by done. by eexists.
    + rewrite lookup_insert_ne in Hl by done. destruct (Hgates _ _ (Hkept _ _ Hl)) as [[x Hx] ?]. split; [|done].
      exists x. by apply lookup_app_l_Some.
  - intros r' Hr. destruct (Hclient r' Hr) as [x Hx]. exists x. by apply lookup_app_l_Some.
  - intros t Ht. destruct (Htasks t Ht) as [Ho ? ? ?]. split; try done. intros r' Hr.
    destruct (Ho r' Hr) as (o' & Hno & Hg'). exists o'. split; [done|].
    rewrite lookup_insert_ne by congruence. by eapply Hrefs.
Qed.

Lemma begin_task_ok s i t :
  valid_limits -> gate_ok s -> tasks s !! i = Some t -> stage t = Begin -> gate_ok (begin_task gate i t s).
Proof.
  intros Hv Hok Hi Hst. unfold begin_task. cbn -[origin_semaphore].
  assert (Hcall : forall s', tasks s' = tasks s -> gate_ok s' ->
    forall t', (forall r, held r t' = 0) -> awaited (stage t') = None -> task_ok (gates s') t' ->
    gate_ok (s' <| tasks ::= <[i := t']> |>)).
  { intros s' Hts Hok' t' Hh Ha Ht. eapply gate_ok_quiet; [done|by rewrite Hts| |by rewrite Hst|done|done].
    intros r. by rewrite Hh, held_quiet by (by rewrite Hst). }
  assert (Hnone : needs_origin t = None -> gate_ok (s <| tasks ::=
    <[i := go (telemetry_started t) (after_origin gate None) (t <| calls := [AcquireStarted] |>)]> |>)).
  { intros Hn. apply Hcall; try done.
    - intros r. apply held_quiet; cbn; unfold after_origin; by destruct (global_ref gate).
    - cbn. unfold after_origin. by destruct (global_ref gate).
    - apply after_origin_ok; [done|]. unfold needs_origin in *. cbn. intros Hs. by rewrite Hn in Hs. }
  unfold needs_origin in Hnone.
  destruct (task_origin t) as [o|] eqn:Ho; [|apply Hnone; by destruct (max_connections_per_host gate)].
  destruct (max_connections_per_host gate) as [limit|] eqn:Hlim; [|by apply Hnone].
  destruct (origin_semaphore limit o s) as [r s'] eqn:Hs.
  destruct (origin_semaphore_ok _ _ _ _ _ Hv Hok Hlim Hs) as (Hok' & Hts & Hg).
  apply Hcall; try done.
  split; cbn; try done. intros r' [= <-]. exists o. unfold needs_origin. cbn. by rewrite Hlim, Ho.
Qed.

Lemma gate_ok_step s s' : valid_limits -> gate_ok s -> system_step gate s s' -> gate_ok s'.
Proof.
  intros Hv Hok [origin context started telemetry|i e s1 Hstep].
  - destruct Hok as [Hsem Hgates Hclient Htasks]. split; cbn; auto.
    + intros r sem Hr. destruct (Hsem _ _ Hr) as (limit & Hlim & Hs). exists limit. split; [done|].
      rewrite sum_over_app. cbn. rewrite held_quiet, !Z.add_0_r by done. eapply semaphore_ok_iff; [|done].
      intros j. by rewrite awaits_app.
    + intros t [Ht| ->%list_elem_of_singleton]%elem_of_app; [auto|]. by split.
  - unfold step_task in Hstep. destruct (tasks s !! i) as [t|] eqn:Hi; [|done]. cbn in Hstep.
    assert (Hgen : forall r, next_ref (stage t) = Some r ->
      (sem ← heap s !! r; '(t, sem) ← semaphore_step gate e i t sem;
       Some (s <| heap ::= <[r := sem]> |> <| tasks ::= <[i := t]> |>)) = Some s1 -> gate_ok s1).
    { intros r Hr. destruct (heap s !! r) as [sem|] eqn:Hh; [|done]. cbn.
      destruct (semaphore_step gate e i t sem) as [[t' sem']|] eqn:Hs; intros [= <-].
      by eapply gate_ok_semaphore_step. }
    destruct (stage t) as [|r target|r target|r target deadline|o g|o outcome|] eqn:Hst.
    + destruct e; try done. injection Hstep as <-. by apply begin_task_ok.
    + by apply (Hgen r).
    + by apply (Hgen r).
    + by apply (Hgen r).
    + destruct g as [g|], o as [o|]; [by apply (Hgen g)|by apply (Hgen g)|by apply (Hgen o)|].
      destruct e; try done. injection Hstep as <-.
      eapply gate_ok_quiet; [done|done| |by rewrite Hst|done|].
      * intros r. rewrite !held_quiet; cbn; by rewrite ?Hst.
      * by split.
    + by apply (Hgen o).
    + by destruct e.
Qed.

Lemma gate_ok_new : valid_limits -> gate_ok (connection_gate_new gate).
Proof.
  intros [Hv _]. split; cbn; try done.
  - intros r sem Hr. unfold limit_of, global_ref. destruct (max_connections gate) as [limit|]; [|done].
    apply list_lookup_singleton_Some in Hr as [<- <-]. exists limit. split; [by rewrite bool_decide_true|].
    eapply semaphore_ok_iff; [|apply semaphore_ok_new; auto]. intros j. split; [done|]. intros (t & Ht & _). by rewrite lookup_nil in Ht.
  - unfold global_ref. intros r. destruct (max_connections gate); [|done]. intros [= <-]. by eexists.
  - intros t Ht. by apply elem_of_nil in Ht.
Qed.

Lemma reachable_gate_ok s : valid_limits -> reachable gate s -> gate_ok s.
Proof.
  intros Hv. revert s. apply rtc_ind_r; [by apply gate_ok_new|].
  intros s s' _ Hstep IH. by eapply gate_ok_step.
Qed.
End invariant.

(** ** Limits *)

Definition is_connected (st : Stage) : bool := match st with Connected _ _ => true | _ => false end.

Definition connections (sel : AcquireTask -> bool) (ts : list AcquireTask) : Z :=
  sum_over (fun t => b2z (is_connected (stage t) && sel t)) ts.

Definition has_origin (o : string) (t : AcquireTask) : bool := bool_decide (task_origin t = Some o).

Section theorems.
Context `{TokioSemaphore, !SemaphoreLaws} (gate : ConnectionGate).

Lemma semaphore_bound limit h W s : semaphore_ok limit h W s -> h <= limit.
Proof. intros []. lia. Qed.

Lemma held_nonneg r t : 0 <= held r t.
Proof. unfold held. repeat case_bool_decide; cbn; lia. Qed.

(** C18: The limits hold in every interleaving, with timeouts, cancellations and the
    cleanup of origins' gates: there are never more connections than the client's limit,
    nor more connections of one origin than the limit per host; and permits are
    conserved, so that each semaphore's free, granted and held permits are its limit. *)
Theorem connections_bounded s :
  valid_limits gate -> reachable gate s ->
  (forall n, max_connections gate = Some n -> connections (fun _ => true) (tasks s) <= n) /\
  (forall n o, max_connections_per_host gate = Some n -> connections (has_origin o) (tasks s) <= n) /\
  (forall r sem, heap s !! r = Some sem ->
     limit_of gate r = Some (permits sem + Z.of_nat (length (granted sem)) + sum_over (held r) (tasks s))).
Proof.
  intros Hv Hr. destruct (reachable_gate_ok gate s Hv Hr) as [Hsem Hgates Hclient Htasks]. split_and!.
  - intros n Hn. assert (Hg : global_ref gate = Some 0%nat) by (unfold global_ref; by rewrite Hn).
    destruct (Hclient _ Hg) as [sem Hs]. destruct (Hsem _ _ Hs) as (limit & Hlim & Hok).
    unfold limit_of in Hlim. rewrite bool_decide_true in Hlim by done. replace limit with n in * by congruence.
    apply semaphore_bound in Hok. etrans; [|exact Hok]. apply sum_over_le. intros t Ht.
    destruct (Htasks t Ht) as [_ _ _ Hc]. unfold held. destruct (stage t) eqn:Hst; cbn;
      repeat case_bool_decide; cbn; try lia. specialize (Hc _ _ eq_refl). congruence.
  - intros n o Hn. destruct (gates s !! o) as [r|] eqn:Hg.
    + destruct (Hgates _ _ Hg) as [[sem Hs] Hng]. destruct (Hsem _ _ Hs) as (limit & Hlim & Hok).
      unfold limit_of in Hlim. rewrite bool_decide_false in Hlim by done. replace limit with n in * by congruence.
      apply semaphore_bound in Hok. etrans; [|exact Hok]. apply sum_over_le. intros t Ht.
      destruct (is_connected (stage t) && has_origin o t) eqn:Hb; [|apply held_nonneg].
      apply andb_true_iff in Hb as [Hc Ho%bool_decide_eq_true]. destruct (Htasks t Ht) as [Hor Hneed _ _].
      assert (Hno : needs_origin gate t = Some o) by (unfold needs_origin; by rewrite Hn).
      destruct (stage t) as [| | | |origin g| |] eqn:Hst; try done.
      destruct (Hneed eq_refl) as [r' Hr']; [by eexists|]. cbn in Hr'. subst origin.
      destruct (Hor r' eq_refl) as (o' & ? & ?). unfold held. rewrite Hst. cbn.
      rewrite bool_decide_true by congruence. case_bool_decide; cbn; lia.
    + unfold connections. rewrite sum_over_zero; [|].
      { destruct Hv as [_ Hv]. by apply Hv. }
      intros t Ht. destruct (is_connected (stage t) && has_origin o t) eqn:Hb; [|done]. exfalso.
      apply andb_true_iff in Hb as [Hc Ho%bool_decide_eq_true]. destruct (Htasks t Ht) as [Hor Hneed _ _].
      assert (Hno : needs_origin gate t = Some o) by (unfold needs_origin; by rewrite Hn).
      destruct (Hneed ltac:(by destruct (stage t))) as [r' Hr']; [by eexists|].
      destruct (Hor r' Hr') as (o' & ? & ?). congruence.
  - intros r sem Hs. destruct (Hsem _ _ Hs) as (limit & -> & []). f_equal. lia.
Qed.

(** ** Progress *)

(** How far a task is from its connection. *)
Definition rank (st : Stage) : nat :=
  match st with
  | Begin => 7
  | Trying _ OriginPermit => 6 | Entering _ OriginPermit => 5 | Awaiting _ OriginPermit _ => 4
  | Trying _ (GlobalPermit _) => 3 | Entering _ (GlobalPermit _) => 2 | Awaiting _ (GlobalPermit _) _ => 1
  | Connected _ _ | Releasing _ _ | Ended _ => 0
  end.

Definition has_connection (st : Stage) : bool :=
  match st with Connected _ _ | Releasing _ _ => true | _ => false end.

(** A task comes closer to its connection when it runs, whatever the time. *)
Definition approaches (i : nat) (s : System) : Prop :=
  forall now, exists t t' s', tasks s !! i = Some t /\ step_task gate i (Run now) s = Some s' /\
    tasks s' !! i = Some t' /\ (rank (stage t') < rank (stage t))%nat /\
    (is_connected (stage t') = true \/ (0 < rank (stage t'))%nat).

Lemma rank_after_permit r target :
  (rank (after_permit gate r target) < match target with OriginPermit => 4 | GlobalPermit _ => 1 end)%nat /\
  (is_connected (after_permit gate r target) = true \/ (0 < rank (after_permit gate r target))%nat).
Proof.
  destruct target; cbn; [|by split; [lia|left]]. unfold after_origin. destruct (global_ref gate); cbn; split; try lia; auto with lia.
Qed.

Lemma granted_exists limit W sem i :
  semaphore_ok limit 0 W sem -> 0 < limit -> W i -> exists j, j ∈ granted sem.
Proof.
  intros [] Hl Hi. apply ok_futures0 in Hi. destruct (granted sem) as [|j g]; [|exists j; by left].
  cbn in *. destruct (waiting sem) as [|x w]; [by apply elem_of_nil in Hi|]. specialize (ok_busy0 ltac:(done)). lia.
Qed.

Lemma approaches_ready s i t r target :
  gate_ok gate s -> tasks s !! i = Some t -> next_ref (stage t) = Some r ->
  stage t = Trying r target \/ stage t = Entering r target \/
    (exists deadline sem, stage t = Awaiting r target deadline /\ heap s !! r = Some sem /\ i ∈ granted sem) ->
  is_Some (heap s !! r) -> approaches i s.
Proof.
  intros Hok Hi Hr Hst [sem Hs] now. destruct (ok_semaphores _ _ Hok _ _ Hs) as (limit & _ & Hsem).
  pose proof (lookup_lt_Some _ _ _ Hi) as Hlt. destruct (rank_after_permit r target) as [Hrank Hnext].
  destruct Hst as [Hst|[Hst|(deadline & sem1 & Hst & Hs1 & Hin)]]; unfold step_task; rewrite Hi; cbn;
    rewrite Hst; cbn; rewrite Hs; cbn; unfold semaphore_step; rewrite Hst.
  - pose proof (try_busy _ _ _ _ Hsem) as Hbusy.
    destruct (try_acquire sem) as [sem1|[]]; [| |done]; do 3 eexists;
      (split_and!; [done|done|by apply list_lookup_insert_eq|rewrite Hst; destruct target; cbn in *; lia|]);
      [done|destruct target; cbn; auto with lia].
  - do 3 eexists. split_and!; [done|done|by apply list_lookup_insert_eq|rewrite Hst; destruct target; cbn; lia|].
    destruct target; cbn; auto with lia.
  - replace sem1 with sem in * by congruence. destruct Hsem. pose proof (poll_view i sem ok_open0) as Hv.
    destruct (acquire_poll i sem) as [[sem2|[]]|]; [|done|done]. do 3 eexists.
    split_and!; [done|done|by apply list_lookup_insert_eq|rewrite Hst; destruct target; cbn in *; lia|done].
Qed.

Lemma begin_stage s i t : tasks s !! i = Some t ->
  exists t', tasks (begin_task gate i t s) !! i = Some t' /\
    (stage t' = after_origin gate None \/ exists r, stage t' = Trying r OriginPermit).
Proof.
  intros Hi. pose proof (lookup_lt_Some _ _ _ Hi) as Hlt. unfold begin_task. cbn -[origin_semaphore].
  destruct (task_origin t) as [o|]; [destruct (max_connections_per_host gate) as [limit|]|].
  - destruct (origin_semaphore limit o s) as [r s1] eqn:Ho.
    assert (Hts : tasks s1 = tasks s) by (unfold origin_semaphore in Ho; repeat case_match; simplify_eq; done).
    eexists. cbn. rewrite Hts. split; [by apply list_lookup_insert_eq|]. right. by exists r.
  - eexists. split; [by apply list_lookup_insert_eq|]. by left.
  - eexists. split; [by apply list_lookup_insert_eq|]. by left.
Qed.

Lemma approaches_begin s i t : tasks s !! i = Some t -> stage t = Begin -> approaches i s.
Proof.
  intros Hi Hst now. destruct (begin_stage s i t Hi) as (t' & Ht' & Hstage).
  exists t, t', (begin_task gate i t s). split; [done|]. split; [unfold step_task; rewrite Hi; cbn; by rewrite Hst|].
  split; [done|]. rewrite Hst. destruct Hstage as [-> | [r ->]]; [|cbn; auto with lia].
  unfold after_origin. destruct (global_ref gate); cbn; auto with lia.
Qed.

Lemma next_ref_some s t r :
  gate_ok gate s -> t ∈ tasks s -> next_ref (stage t) = Some r -> is_Some (heap s !! r).
Proof.
  intros Hok Ht Hr. destruct (ok_tasks _ _ Hok t Ht) as [Hor _ Hgl _].
  assert (Horigin : origin_ref (stage t) = Some r -> is_Some (heap s !! r)).
  { intros Ho. destruct (Hor r Ho) as (? & _ & Hg). by apply (ok_gates _ _ Hok) in Hg as [? _]. }
  assert (Hglobal : global_use (stage t) = Some r -> is_Some (heap s !! r)).
  { intros Hg. by apply (ok_client _ _ Hok), Hgl. }
  destruct (stage t) as [|? []|? []|? []|o [g|]|o|]; auto; done.
Qed.

(** A task that waits at [r], whose permits nobody holds: a permit is granted there. *)
Lemma awaiting_progress s i t r target deadline :
  gate_ok gate s -> (forall limit, limit_of gate r = Some limit -> 0 < limit) ->
  tasks s !! i = Some t -> stage t = Awaiting r target deadline ->
  (forall t, t ∈ tasks s -> held r t = 0) -> exists j, approaches j s.
Proof.
  intros Hok Hpos Hi Hst Hheld.
  destruct (next_ref_some s t r Hok) as [sem Hs]; [by eapply list_elem_of_lookup_2|by rewrite Hst|].
  destruct (ok_semaphores _ _ Hok _ _ Hs) as (limit & Hlim & Hsem). rewrite sum_over_zero in Hsem by done.
  destruct (granted_exists _ _ _ i Hsem (Hpos _ Hlim)) as [j Hj]; [exists t; by rewrite Hst|].
  assert (Ha : awaits r (tasks s) j) by (apply (ok_futures _ _ _ _ Hsem), elem_of_app; by left).
  destruct Ha as (tj & Htj & Haw). exists j. destruct (stage tj) as [| | |rj target' deadline'| | |] eqn:Hstj; try done.
  cbn in Haw. simplify_eq. eapply (approaches_ready s j tj r target'); [done|done|by rewrite Hstj| |by eexists].
  right. right. by exists deadline', sem.
Qed.

Lemma task_progress s i t :
  gate_ok gate s -> (forall r limit, limit_of gate r = Some limit -> 0 < limit) ->
  tasks s !! i = Some t -> (0 < rank (stage t))%nat ->
  (forall r, next_ref (stage t) = Some r -> forall t, t ∈ tasks s -> held r t = 0) -> exists j, approaches j s.
Proof.
  intros Hok Hpos Hi Hrank Hheld. pose proof (list_elem_of_lookup_2 _ _ _ Hi) as Hin.
  pose proof (next_ref_some s t) as Hsome.
  destruct (stage t) as [|r target|r target|r target deadline| | |] eqn:Hst; cbn in *; try lia.
  - exists i. by eapply approaches_begin.
  - exists i. eapply approaches_ready; [done|done|by rewrite Hst|by left|by eapply Hsome].
  - exists i. eapply approaches_ready; [done|done|by rewrite Hst|right; by left|by eapply Hsome].
  - eapply awaiting_progress; eauto.
Qed.

(** C19: Acquiring cannot deadlock: with positive limits, when tasks acquire permits but
    no task has a connection or is giving its permits back, one of them comes closer to
    its connection at its next step, whatever the time; so permits of origins taken
    before the client's never block each other, and no permit is lost. *)
Theorem acquire_progress s i t :
  valid_limits gate -> (forall r limit, limit_of gate r = Some limit -> 0 < limit) ->
  reachable gate s -> tasks s !! i = Some t -> (0 < rank (stage t))%nat ->
  (forall t, t ∈ tasks s -> has_connection (stage t) = false) ->
  exists j, approaches j s.
Proof.
  intros Hv Hpos Hr Hi Hrank Hnone. pose proof (reachable_gate_ok gate s Hv Hr) as Hok.
  assert (Hquiet : forall t, t ∈ tasks s -> global_held (stage t) = None).
  { intros x Hx. specialize (Hnone x Hx). by destruct (stage x). }
  destruct (existsb (fun t => (0 <? rank (stage t)) && (rank (stage t) <=? 3))%nat (tasks s)) eqn:Hex.
  - (* some task acquires the client's permit, which nobody holds *)
    apply existsb_exists in Hex as (x & Hx%list_elem_of_In & Hrk). apply list_elem_of_lookup in Hx as [k Hk].
    pose proof (list_elem_of_lookup_2 _ _ _ Hk) as Hx. pose proof (ok_tasks _ _ Hok x Hx) as [_ _ Hgl _].
    apply (task_progress s k x Hok Hpos Hk); [by destruct (stage x) as [|? []|? []|? []| | |]; cbn in *; try lia|].
    intros r Hnr y Hy. unfold held. rewrite Hquiet by done. cbn. rewrite bool_decide_false; [done|]. intros Ho.
    destruct (ok_tasks _ _ Hok y Hy) as [Hor _ _ _].
    destruct (Hor r) as (? & _ & Hg); [by destruct (stage y) as [|? []|? []|? []| | |]|].
    apply (ok_gates _ _ Hok) in Hg as [_ Hne]. apply Hne, Hgl.
    by destruct (stage x) as [|? []|? []|? []| | |].
  - (* otherwise nobody holds a permit of an origin *)
    assert (Hall : forall t, t ∈ tasks s -> (rank (stage t) = 0 \/ 3 < rank (stage t))%nat).
    { intros y Hy. destruct (decide (rank (stage y) = 0 \/ 3 < rank (stage y))%nat) as [|Hn]; [done|]. exfalso.
      enough (false = true) by done. rewrite <- Hex. apply existsb_exists. exists y. split; [by apply list_elem_of_In|].
      apply andb_true_iff. rewrite Nat.ltb_lt, Nat.leb_le. lia. }
    apply (task_progress s i t Hok Hpos Hi Hrank). intros r _ y Hy. specialize (Hall y Hy). specialize (Hnone y Hy).
    unfold held. rewrite Hquiet by done. destruct (stage y) as [|? []|? []|? []| | |]; cbn in *; try done; lia.
Qed.

(** ** Telemetry *)

(** The calls a task has made, by where it is. *)
Definition waiting_calls (t : AcquireTask) : list AcquireCall :=
  AcquireStarted :: (if waited t then [AcquireWaited] else []).

Definition connected_calls (t : AcquireTask) : Prop :=
  exists now, calls t = waiting_calls t ++ finish_success (waited t) (telemetry_started t) now.

Definition failed_calls (e : AcquireError) (t : AcquireTask) : Prop :=
  match e with
  | LimiterClosed => False
  | TimedOut error =>
      waited t = true /\ calls t = waiting_calls t ++ finish_timeout (task_context t) /\
      exists now, error = timeout_error (task_context t) (task_started t) now
  end.

Definition outcome_calls (outcome : Outcome) (t : AcquireTask) : Prop :=
  match outcome with
  | Closed => connected_calls t
  | Failed e => failed_calls e t
  | Cancelled => waited t = true /\ calls t = waiting_calls t
  end.

Definition calls_ok (t : AcquireTask) : Prop :=
  match stage t with
  | Begin => waited t = false /\ calls t = []
  | Trying _ _ => calls t = waiting_calls t
  | Entering _ _ | Awaiting _ _ _ => waited t = true /\ calls t = waiting_calls t
  | Connected _ _ => connected_calls t
  | Releasing _ outcome | Ended outcome => outcome_calls outcome t
  end.

Lemma calls_ok_next now st t :
  calls t = waiting_calls t -> match st with Connected _ _ | Trying _ _ => True | _ => False end ->
  calls_ok (go now st t).
Proof.
  intros Hc Hst. destruct st; try done; unfold calls_ok, connected_calls, waiting_calls in *; cbn.
  - by rewrite Hc, app_nil_r.
  - exists now. by rewrite Hc.
Qed.

Lemma after_permit_stage r target :
  match after_permit gate r target with Connected _ _ | Trying _ _ => True | _ => False end.
Proof. destruct target; [|done]. cbn. unfold after_origin. by destruct (global_ref gate). Qed.

Lemma calls_ok_unwind target outcome t :
  outcome_calls outcome t ->
  match unwind target outcome with
  | Releasing _ outcome | Ended outcome => outcome_calls outcome t
  | _ => False
  end.
Proof. by destruct target as [|[]]. Qed.

Lemma semaphore_step_calls e i t sem t' sem' :
  closed sem = false -> calls_ok t -> semaphore_step gate e i t sem = Some (t', sem') -> calls_ok t'.
Proof.
  intros Hopen Hok. unfold semaphore_step. unfold calls_ok in Hok.
  assert (Hend : forall now outcome,
    outcome_calls outcome t -> calls_ok (go now (Ended outcome) t) /\ forall o, calls_ok (go now (Releasing o outcome) t)).
  { intros now outcome Ho. destruct outcome as [|[|]|]; unfold calls_ok, outcome_calls, failed_calls, connected_calls,
      waiting_calls in *; cbn in *; rewrite ?app_nil_r; auto. }
  destruct (stage t) as [|r target|r target|r target deadline|o g|o outcome|] eqn:Hst; try (by destruct e).
  - destruct e as [now| |]; try done. pose proof (try_view sem Hopen) as Hv.
    destruct (try_acquire sem) as [sem1|[]]; [| |done]; intros [= <- <-].
    + apply calls_ok_next; [done|apply after_permit_stage].
    + unfold calls_ok, waiting_calls in *. cbn. split; [done|]. rewrite Hok. by destruct (waited t).
  - destruct e as [now| |]; try done. intros [= <- <-]. unfold calls_ok, waiting_calls in *. cbn. by rewrite app_nil_r.
  - destruct Hok as [Hw Hc]. destruct e as [now| |]; try done.
    + pose proof (poll_view i sem Hopen) as Hv. destruct (acquire_poll i sem) as [[sem1|[]]|]; [|done|].
      * intros [= <- <-]. apply calls_ok_next; [done|apply after_permit_stage].
      * destruct (deadline <=? now); [|done]. intros [= <- <-].
        unfold calls_ok, outcome_calls, failed_calls, waiting_calls in *.
        destruct target as [|[]]; cbn; rewrite ?app_nil_r, Hc; split_and!; eauto.
    + intros [= <- <-]. destruct (Hend 0 Cancelled) as [H1 H2]; [done|]. destruct target as [|[]]; cbn; auto.
  - destruct (Hend 0 Closed Hok) as [H1 H2]. destruct g as [g|], o as [o|], e as [now| |]; try done; intros [= <- <-]; auto.
  - destruct e as [now| |]; try done. intros [= <- <-]. by apply Hend.
Qed.

Lemma begin_task_calls s i t t' :
  tasks s !! i = Some t -> calls_ok t -> stage t = Begin -> tasks (begin_task gate i t s) !! i = Some t' -> calls_ok t'.
Proof.
  intros Hi Hok Hst. pose proof (lookup_lt_Some _ _ _ Hi) as Hlt. unfold begin_task. cbn -[origin_semaphore].
  unfold calls_ok in Hok. rewrite Hst in Hok. destruct Hok as [Hw Hc].
  assert (Hafter : calls_ok (go (telemetry_started t) (after_origin gate None) (t <| calls := [AcquireStarted] |>))).
  { apply calls_ok_next; [unfold waiting_calls; cbn; by rewrite Hw|]. unfold after_origin. by destruct (global_ref gate). }
  destruct (task_origin t) as [o|]; [destruct (max_connections_per_host gate) as [limit|]|].
  - destruct (origin_semaphore limit o s) as [r s1] eqn:Ho.
    assert (Hts : tasks s1 = tasks s) by (unfold origin_semaphore in Ho; repeat case_match; simplify_eq; done).
    cbn. rewrite Hts, list_lookup_insert_eq by done. intros [= <-]. unfold calls_ok, waiting_calls. cbn. by rewrite Hw.
  - cbn. rewrite list_lookup_insert_eq by done. by intros [= <-].
  - cbn. rewrite list_lookup_insert_eq by done. by intros [= <-].
Qed.

Lemma begin_task_others s i j t : j <> i -> tasks (begin_task gate i t s) !! j = tasks s !! j.
Proof.
  intros Hne. unfold begin_task. cbn -[origin_semaphore].
  destruct (task_origin t) as [o|]; [destruct (max_connections_per_host gate) as [limit|]|];
    [|cbn; by rewrite list_lookup_insert_ne..].
  destruct (origin_semaphore limit o s) as [r s1] eqn:Ho.
  assert (Hts : tasks s1 = tasks s) by (unfold origin_semaphore in Ho; repeat case_match; simplify_eq; done).
  cbn. by rewrite Hts, list_lookup_insert_ne.
Qed.

Lemma step_task_calls i e s s' :
  gate_ok gate s -> (forall j t, tasks s !! j = Some t -> calls_ok t) -> step_task gate i e s = Some s' ->
  forall j t, tasks s' !! j = Some t -> calls_ok t.
Proof.
  intros Hok Hall Hstep j t Hj. unfold step_task in Hstep. destruct (tasks s !! i) as [ti|] eqn:Hi; [|done]. cbn in Hstep.
  pose proof (Hall i ti Hi) as Hti.
  assert (Hgen : (r ← next_ref (stage ti); sem ← heap s !! r; '(t, sem) ← semaphore_step gate e i ti sem;
       Some (s <| heap ::= <[r := sem]> |> <| tasks ::= <[i := t]> |>)) = Some s' -> calls_ok t).
  { destruct (next_ref (stage ti)) as [r|]; [|done]. cbn. destruct (heap s !! r) as [sem|] eqn:Hh; [|done]. cbn.
    destruct (semaphore_step gate e i ti sem) as [[t' sem']|] eqn:Hs; intros [= <-]. cbn in Hj.
    apply list_lookup_insert_Some in Hj as [(_ & <- & _)|[_ Hj]]; [|by eapply Hall].
    destruct (ok_semaphores _ _ Hok _ _ Hh) as (limit & _ & []). by eapply semaphore_step_calls. }
  destruct (stage ti) as [|r target|r target|r target deadline|o g|o outcome|] eqn:Hst; auto.
  - destruct e; try done. injection Hstep as <-. destruct (decide (j = i)) as [->|Hne].
    + exact (begin_task_calls _ _ _ _ Hi Hti Hst Hj).
    + rewrite begin_task_others in Hj by done. by eapply Hall.
  - destruct g as [g|], o as [o|]; auto. destruct e; try done. injection Hstep as <-. cbn in Hj.
    apply list_lookup_insert_Some in Hj as [(_ & <- & _)|[_ Hj]]; [|by eapply Hall].
    unfold calls_ok, connected_calls, waiting_calls in *. rewrite Hst in Hti.
    destruct Hti as [now Hti]. exists now. cbn. by rewrite app_nil_r.
Qed.

Lemma reachable_calls s j t :
  valid_limits gate -> reachable gate s -> tasks s !! j = Some t -> calls_ok t.
Proof.
  intros Hv Hr. revert j t.
  enough (gate_ok gate s /\ forall j t, tasks s !! j = Some t -> calls_ok t) by tauto. revert s Hr.
  apply (rtc_ind_r (fun s => gate_ok gate s /\ forall j t, tasks s !! j = Some t -> calls_ok t)).
  - split; [by apply gate_ok_new|]. intros j t Hj. by destruct j.
  - intros s s' _ Hstep [Hok IH]. split; [by eapply gate_ok_step|]. destruct Hstep as [o c st te|i e s' Hs].
    + intros j t Hj. cbn in Hj. apply lookup_app_Some in Hj as [Hj|[_ Hj]]; [by eapply IH|].
      apply list_lookup_singleton_Some in Hj as [_ <-]. by split.
    + by eapply step_task_calls.
Qed.

Definition is_started (c : AcquireCall) : Z := match c with AcquireStarted => 1 | _ => 0 end.
Definition is_waited (c : AcquireCall) : Z := match c with AcquireWaited => 1 | _ => 0 end.
Definition is_immediate (c : AcquireCall) : Z := match c with FinishedImmediately => 1 | _ => 0 end.
Definition is_timed_out (c : AcquireCall) : Z := match c with AcquireTimedOut => 1 | _ => 0 end.

#[local] Existing Instance Metrics.eta_Metrics.

(** The counters of acquires: attempts, waited, immediate, timed out. *)
Definition counters (m : Metrics.Metrics) : list Z :=
  [Metrics.connection_acquire_attempts m; Metrics.connection_acquire_waited m;
   Metrics.connection_acquire_immediate m; Metrics.connection_acquire_timeouts m].
Definition call_counts (c : AcquireCall) : list Z := [is_started c; is_waited c; is_immediate c; is_timed_out c].
Definition counts (cs : list AcquireCall) : list Z :=
  [sum_over is_started cs; sum_over is_waited cs; sum_over is_immediate cs; sum_over is_timed_out cs].

Lemma acquire_call_counters c m :
  Forall is_usize (counters m) -> counters (exec (acquire_call c) m) = zip_with wrapping_add (counters m) (call_counts c).
Proof.
  intros Hm. assert (Hz : forall x, is_usize x -> wrapping_add x 0 = x).
  { intros x Hx. rewrite wrapping_add_small; unfold is_usize in *; lia. }
  unfold counters in Hm. repeat match goal with Hm : Forall _ (_ :: _) |- _ => apply Forall_cons in Hm as [? Hm] end.
  destruct c; unfold exec, counters; cbn;
    repeat match goal with |- context [run_attempt ?body ?x] => destruct (run_attempt body x) end; cbn; by rewrite ?Hz.
Qed.

Lemma record_acquires_counters cs :
  counters (record_acquires cs) = (fun n => n mod (USIZE_MAX + 1)) <$> counts cs.
Proof.
  induction cs as [|c cs IH] using rev_ind; [done|]. unfold record_acquires in *. rewrite foldl_app. cbn [foldl].
  rewrite acquire_call_counters, IH.
  - unfold counts. rewrite !sum_over_app. unfold call_counts, wrapping_add. cbn.
    by rewrite !Zplus_mod_idemp_l, !Z.add_0_r.
  - rewrite IH. repeat constructor; unfold is_usize;
      match goal with |- context [?a mod ?b] => pose proof (Z.mod_pos_bound a b) end; arith.
Qed.

Lemma counts_perm cs cs' : cs ≡ₚ cs' -> counts cs = counts cs'.
Proof.
  intros Hp. unfold counts.
  enough (forall f : AcquireCall -> Z, sum_over f cs = sum_over f cs') as E by (by rewrite !E).
  intros f. induction Hp; cbn; lia.
Qed.

Lemma sum_over_join (f : AcquireCall -> Z) (ts : list AcquireTask) :
  sum_over f (mjoin (calls <$> ts)) = sum_over (fun t => sum_over f (calls t)) ts.
Proof.
  induction ts as [|t ts IH]; [done|].
  change (mjoin (calls <$> t :: ts)) with (calls t ++ mjoin (calls <$> ts)). by rewrite sum_over_app, IH.
Qed.

(** What a task contributes to the counters. *)
Definition had_connection (st : Stage) : bool :=
  match st with Connected _ _ | Releasing _ Closed | Ended Closed => true | _ => false end.
Definition timed_out (t : AcquireTask) : bool :=
  match stage t with
  | Releasing _ (Failed (TimedOut _)) | Ended (Failed (TimedOut _)) => record_timeout (task_context t)
  | _ => false
  end.
Definition not_begun (st : Stage) : bool := match st with Begin => true | _ => false end.

Lemma calls_ok_counts t : calls_ok t ->
  counts (calls t) = [b2z (negb (not_begun (stage t))); b2z (waited t);
                      b2z (had_connection (stage t) && negb (waited t)); b2z (timed_out t)].
Proof.
  unfold calls_ok, connected_calls, outcome_calls, timed_out, waiting_calls.
  assert (Hc : forall now, calls t = AcquireStarted :: (if waited t then [AcquireWaited] else []) ++
      finish_success (waited t) (telemetry_started t) now ->
    counts (calls t) = [1; b2z (waited t); b2z (negb (waited t)); 0])
    by (intros now ->; by destruct (waited t)).
  assert (Hf : forall e, failed_calls e t -> counts (calls t) =
    [1; b2z (waited t); 0; b2z (match e with TimedOut _ => record_timeout (task_context t) | LimiterClosed => false end)]).
  { intros [|error]; [done|]. unfold failed_calls, waiting_calls, finish_timeout. intros (-> & -> & _).
    by destruct (record_timeout (task_context t)). }
  destruct (stage t) as [|r target|r target|r target deadline|o g|o [|e|]|[|e|]]; cbn; intros Hok.
  all: lazymatch type of Hok with
       | exists _, _ => destruct Hok as [now Hok]; by apply (Hc now)
       | connected_calls _ => destruct Hok as [now Hok]; by apply (Hc now)
       | failed_calls ?e _ => rewrite (Hf e Hok); by destruct e
       | _ /\ _ => by destruct Hok as [-> ->]
       | _ => rewrite Hok; by destruct (waited t)
       end.
Qed.

(** The acquire counters of the client are true.  Every task has made exactly the
    calls of its way through the gate: one start, at most one wait, and at its end one of
    immediate success, finished wait or recorded timeout.  So, in whatever order the
    calls of concurrent tasks take effect, the counters are the number of tasks that
    began, that waited, that got a connection without waiting, and that timed out. *)
Theorem acquire_counters_true s cs :
  valid_limits gate -> reachable gate s -> cs ≡ₚ mjoin (calls <$> tasks s) ->
  (forall i t, tasks s !! i = Some t -> calls_ok t) /\
  counters (record_acquires cs) = (fun n => n mod (USIZE_MAX + 1)) <$>
    [sum_over (fun t => b2z (negb (not_begun (stage t)))) (tasks s);
     sum_over (fun t => b2z (waited t)) (tasks s);
     sum_over (fun t => b2z (had_connection (stage t) && negb (waited t))) (tasks s);
     sum_over (fun t => b2z (timed_out t)) (tasks s)].
Proof.
  intros Hv Hr Hcs. assert (Hall : forall i t, tasks s !! i = Some t -> calls_ok t) by (intros i t; by apply reachable_calls).
  split; [done|]. rewrite record_acquires_counters, (counts_perm _ _ Hcs). f_equal. unfold counts.
  rewrite !sum_over_join. clear Hcs Hr cs. induction (tasks s) as [|t ts IH]; [done|]. cbn.
  specialize (IH (fun i t' Hi => Hall (S i) t' Hi)). injection IH as -> -> -> ->.
  pose proof (calls_ok_counts t (Hall 0%nat t eq_refl)) as Hc. unfold counts in Hc. by injection Hc as -> -> -> ->.
Qed.
End theorems.

(** ** A run of the gate *)

Inductive Move :=
| Open (origin : string) (started : Z)
| Step (i : nat) (e : Event).

Definition move `{TokioSemaphore} (gate : ConnectionGate) (m : Move) (s : System) : option System :=
  match m with
  | Open origin started =>
      Some (s <| tasks ::= fun ts => ts ++ [acquire_task (Some origin)
        (Some (connection_limit_context_new 100 (f64_of_Z 1) origin 0)) started started] |>)
  | Step i e => step_task gate i e s
  end.

Fixpoint drive `{TokioSemaphore} (gate : ConnectionGate) (ms : list Move) (s : System) : option System :=
  match ms with
  | [] => Some s
  | m :: ms => s' ← move gate m s; drive gate ms s'
  end.

Lemma acquire_drive_reachable `{TokioSemaphore} gate ms s s' :
  reachable gate s -> drive gate ms s = Some s' -> reachable gate s'.
Proof.
  revert s; induction ms as [|m ms IH]; intros s Hs; cbn [drive]; [by intros [= <-]|].
  destruct (move gate m s) as [s1|] eqn:Hm; [|done]. apply IH. eapply rtc_r; [done|].
  destruct m as [o st|i e]; cbn in Hm; [injection Hm as <-; apply step_open|by eapply step_run].
Qed.

Definition sample_gate : ConnectionGate := {| max_connections := Some 1; max_connections_per_host := Some 1 |}.

(** Two connections to one origin: the second waits for the first, then for its turn. *)
Definition sample_moves : list Move :=
  [Open "https://a" 0; Open "https://a" 1; Step 0 (Run 0); Step 0 (Run 0); Step 0 (Run 0); Step 1 (Run 1); Step 1 (Run 1);
   Step 1 (Run 1)].
Definition sample_system : @System queued_semaphores :=
  default (@connection_gate_new queued_semaphores sample_gate)
    (@drive queued_semaphores sample_gate sample_moves (connection_gate_new sample_gate)).

Lemma sample_gate_reachable : @reachable queued_semaphores sample_gate sample_system.
Proof.
  apply (@acquire_drive_reachable queued_semaphores sample_gate sample_moves (connection_gate_new sample_gate));
    [apply rtc_refl|]. by vm_compute.
Qed.

Lemma sample_limits : valid_limits sample_gate.
Proof. split; intros n [= <-]; discriminate. Qed.

Lemma connections_bounded_witness :
  map stage (tasks sample_system) = [Connected (Some 1%nat) (Some 0%nat); Awaiting 1 OriginPermit 101] /\
  connections (fun _ => true) (tasks sample_system) <= 1.
Proof.
  split; [vm_compute; reflexivity|].
  exact (proj1 (connections_bounded (H := queued_semaphores) sample_gate _ sample_limits sample_gate_reachable) 1 eq_refl).
Defined.

(** The first connection is closed: its permit is granted to the second task. *)
Definition closing_moves : list Move := sample_moves ++ [Step 0 Close; Step 0 (Run 5)].
Definition sample_closed : @System queued_semaphores :=
  default (@connection_gate_new queued_semaphores sample_gate)
    (@drive queued_semaphores sample_gate closing_moves (connection_gate_new sample_gate)).

Lemma sample_closed_reachable : @reachable queued_semaphores sample_gate sample_closed.
Proof.
  apply (@acquire_drive_reachable queued_semaphores sample_gate closing_moves (connection_gate_new sample_gate));
    [apply rtc_refl|]. by vm_compute.
Qed.

Lemma acquire_progress_witness :
  map stage (tasks sample_closed) = [Ended Closed; Awaiting 1 OriginPermit 101] /\
  exists j, @approaches queued_semaphores sample_gate j sample_closed.
Proof.
  assert (Hts : map stage (tasks sample_closed) = [Ended Closed; Awaiting 1 OriginPermit 101]) by (vm_compute; reflexivity).
  split; [exact Hts|].
  eapply (acquire_progress (H := queued_semaphores) sample_gate sample_closed 1).
  - exact sample_limits.
  - intros r limit Hl. unfold limit_of in Hl. case_bool_decide; injection Hl as <-; reflexivity.
  - exact sample_closed_reachable.
  - vm_compute; reflexivity.
  - vm_compute. lia.
  - intros t Ht. apply (list_elem_of_fmap_2 stage) in Ht.
    change (stage <$> tasks sample_closed) with (map stage (tasks sample_closed)) in Ht. rewrite Hts in Ht.
    destruct (stage t); try reflexivity; exfalso; clear -Ht; set_solver.
Defined.

Lemma acquire_counters_true_witness :
  counters (record_acquires (mjoin (calls <$> tasks sample_closed))) = [2; 1; 1; 0].
Proof.
  rewrite (proj2 (acquire_counters_true (H := queued_semaphores) sample_gate sample_closed _ sample_limits
    sample_closed_reachable (Permutation_refl _))).
  vm_compute; reflexivity.
Defined.
