(* ===== verification/Errors.v ===== *)
(** * Errors and timeouts at the boundary to Python

    [src/src/errors.rs], [src/src/py/client/transport/errors.rs],
    [src/src/py/client/timeout_diagnostics.rs] and the searches of
    [src/src/core/client/write_timeout.rs]: the exceptions of the client, the error of a
    transport with its sources, and what the first says of the second. *)

From stdpp Require Import pretty.
From S2P Require Import Prelude RustStr Numeric Policy Telemetry.
From S2P Require Body Connection ConnectionLimit.
Import Connection(RequestWriteTimeout).
Import ConnectionLimit(ConnectionAcquireTimeout).

Local Open Scope Z_scope.

(** ** The exceptions *)

Inductive Exception :=
| PyValueError
| PyTypeError
| PyRuntimeError
(** what Python code raises *)
| PythonException (class_name : string)
| FogHttpError
| FogHttpNetworkError
| FogHttpSsrfError
| FogHttpTimeoutError
| FogHttpPoolTimeoutError
| FogHttpReadTimeoutError
| FogHttpWriteTimeoutError
| FogHttpLifecycleError
| FogHttpResponseDecodingError
| FogHttpResponseBodyTooLargeError
| FogHttpResponseBodyBudgetExceededError.

#[export] Instance Exception_eq_dec : EqDecision Exception.
Proof. solve_decision. Defined.

(** The class an exception is created under, [None] for a class of Python. *)
Definition base_class (e : Exception) : option Exception :=
  match e with
  | PyValueError | PyTypeError | PyRuntimeError | PythonException _ | FogHttpError => None
  | FogHttpPoolTimeoutError | FogHttpReadTimeoutError | FogHttpWriteTimeoutError => Some FogHttpTimeoutError
  | _ => Some FogHttpError
  end.

(** [isinstance]: the classes are nested three deep. *)
Definition is_instance_of (class e : Exception) : bool :=
  bool_decide (e = class) ||
  match base_class e with
  | None => false
  | Some b => bool_decide (b = class) || match base_class b with None => false | Some b => bool_decide (b = class) end
  end.

Inductive PyArguments :=
| ArgMessage (message : string)
| ArgTimeout (message phase : string) (elapsed timeout : f64) (origin : string) (hop : Z)
| ArgSsrf (message code : string).

Record PyErr := { exception : Exception; arguments : PyArguments }.

Definition new_err (e : Exception) (message : string) : PyErr := {| exception := e; arguments := ArgMessage message |}.

(** ** Timeouts *)

Definition POOL_ACQUIRE_QUEUE_FULL : string := "request acquire queue is full".
Definition POOL_ACQUIRE_TIMEOUT : string := "request acquire timeout expired".
Definition CONNECTION_ACQUIRE_TIMEOUT : string := "connection acquire timeout expired".
Definition REQUEST_BODY_WRITE_TIMEOUT : string := "request body write timeout expired".
Definition RESPONSE_BODY_READ_TIMEOUT : string := "response body read timeout expired".
Definition REQUEST_TOTAL_TIMEOUT : string := "request total timeout expired".

Inductive TimeoutPhase :=
| PhaseConnectionAcquire | PhasePoolAcquire | PhaseRequestBody | PhaseRetryBackoff | PhaseResponseBody | PhaseResponseHeaders.

Definition phase_as_str (p : TimeoutPhase) : string :=
  match p with
  | PhaseConnectionAcquire => "connection_acquire"
  | PhasePoolAcquire => "pool_acquire"
  | PhaseRequestBody => "request_body"
  | PhaseRetryBackoff => "retry_backoff"
  | PhaseResponseBody => "response_body"
  | PhaseResponseHeaders => "response_headers"
  end.

Record TimeoutContext := { phase : TimeoutPhase; started : Z; timeout : f64; context_origin : string; context_redirect_hop : Z }.

Definition context_args (context : TimeoutContext) (message : string) (now : Z) : PyArguments :=
  ArgTimeout message (phase_as_str (phase context)) (as_secs_f64 (elapsed (started context) now)) (timeout context)
    (context_origin context) (context_redirect_hop context).

Definition timeout_error (context : TimeoutContext) (message : string) (now : Z) : PyErr :=
  {| exception := FogHttpTimeoutError; arguments := context_args context message now |}.

Definition pool_timeout_error (context : TimeoutContext) (message : string) (now : Z) : PyErr :=
  {| exception := FogHttpPoolTimeoutError; arguments := context_args context message now |}.

Definition read_timeout_error (context : TimeoutContext) (message : string) (now : Z) : PyErr :=
  {| exception := FogHttpReadTimeoutError; arguments := context_args context message now |}.

Definition connection_acquire_timeout_error (message : string) (elapsed timeout : f64) (origin : string) (redirect_hop : Z) : PyErr :=
  {| exception := FogHttpPoolTimeoutError;
     arguments := ArgTimeout message (phase_as_str PhaseConnectionAcquire) elapsed timeout origin redirect_hop |}.

Definition write_timeout_error (t : RequestWriteTimeout) : PyErr :=
  {| exception := FogHttpWriteTimeoutError;
     arguments := ArgTimeout REQUEST_BODY_WRITE_TIMEOUT (phase_as_str PhaseRequestBody) (Connection.timeout_elapsed t) (Connection.timeout_seconds t)
                    (Connection.timeout_origin t) (Connection.timeout_hop t) |}.

Definition response_body_transport_error (write_timeout : option RequestWriteTimeout) (message : string) : PyErr :=
  match write_timeout with
  | Some timeout => write_timeout_error timeout
  | None => new_err FogHttpError message
  end.

Definition remaining_duration (name : string) (context : TimeoutContext) (now : Z) : result (option Z) PyErr :=
  map_err (new_err PyValueError) (Numeric.remaining_duration name (timeout context) (started context) now).

(** ** Errors with their sources

    A [dyn Error]: what it displays, what [downcast_ref] finds it to be, its [source]. *)
Inductive DynError :=
| dyn_error (display : string) (downcast : Downcast) (source : option DynError)
with Downcast :=
| IsWriteTimeout (timeout : RequestWriteTimeout)
| IsAcquireTimeout (timeout : ConnectionAcquireTimeout)
| IsSsrfViolation (violation : SsrfViolation)
| IsHyperError (is_user : bool)
| IsIoError (get_ref : option DynError)
| IsOther.

Definition error_display (e : DynError) : string := match e with dyn_error display _ _ => display end.
Definition error_downcast (e : DynError) : Downcast := match e with dyn_error _ downcast _ => downcast end.
Definition error_source (e : DynError) : option DynError := match e with dyn_error _ _ source => source end.

(** The error and its sources. *)
Fixpoint chain (e : DynError) : list DynError :=
  match e with dyn_error _ _ source => e :: match source with Some s => chain s | None => [] end end.

Fixpoint request_write_timeout_from_error (e : DynError) : option RequestWriteTimeout :=
  match e with
  | dyn_error _ downcast source =>
      match downcast with
      | IsWriteTimeout timeout => Some timeout
      | _ =>
          match (match downcast with IsIoError (Some inner) => request_write_timeout_from_error inner | _ => None end) with
          | Some timeout => Some timeout
          | None => match source with Some s => request_write_timeout_from_error s | None => None end
          end
      end
  end.

Definition connection_acquire_timeout_from_error (e : DynError) : option ConnectionAcquireTimeout :=
  ConnectionLimit.connection_acquire_timeout_from_error
    ((fun e => match error_downcast e with IsAcquireTimeout timeout => Some timeout | _ => None end) <$> chain e).

Fixpoint ssrf_violation_from_error (e : DynError) : option SsrfViolation :=
  match e with
  | dyn_error _ downcast source =>
      match downcast with
      | IsSsrfViolation violation => Some violation
      | _ => match source with Some s => ssrf_violation_from_error s | None => None end
      end
  end.

Fixpoint error_chain_contains_user_error (e : DynError) : bool :=
  match e with
  | dyn_error _ downcast source =>
      match downcast with
      | IsHyperError true => true
      | _ => match source with Some s => error_chain_contains_user_error s | None => false end
      end
  end.

(** ** The exception of a transport error *)

Inductive TransportErrorKind := KindWriteTimeout | KindPoolTimeout | KindSsrf | KindRequest | KindNetwork.

#[export] Instance TransportErrorKind_eq_dec : EqDecision TransportErrorKind.
Proof. solve_decision. Defined.

Definition transport_error_kind (e : DynError) : TransportErrorKind :=
  if is_some (request_write_timeout_from_error e) then KindWriteTimeout
  else if is_some (connection_acquire_timeout_from_error e) then KindPoolTimeout
  else if is_some (ssrf_violation_from_error e) then KindSsrf
  else if error_chain_contains_user_error e then KindRequest
  else KindNetwork.

Definition contains (pattern s : string) : bool := is_some (split_once pattern s).

Definition MAX_DEPTH : nat := 5.

(** The loop of [transport_error_message], with what is left of [MAX_DEPTH]. *)
Fixpoint add_causes (depth_left : nat) (source : option DynError) (message : string) : string :=
  match source, depth_left with
  | Some cause, S depth_left =>
      let cause_text := error_display cause in
      let message := if negb (is_empty cause_text) && negb (contains cause_text message)
                     then (message +:+ ": " +:+ cause_text)%string else message in
      add_causes depth_left (error_source cause) message
  | _, _ => message
  end.

Definition transport_error_message (e : DynError) : string := add_causes MAX_DEPTH (error_source e) (error_display e).

Definition ssrf_error (violation : SsrfViolation) : PyErr :=
  {| exception := FogHttpSsrfError; arguments := ArgSsrf (display_violation violation) (as_code (reason violation)) |}.

(** [None] is a panic of [expect]. *)
Definition transport_error (e : DynError) : option PyErr :=
  match transport_error_kind e with
  | KindWriteTimeout => t ← request_write_timeout_from_error e; Some (write_timeout_error t)
  | KindPoolTimeout =>
      t ← connection_acquire_timeout_from_error e;
      Some (connection_acquire_timeout_error CONNECTION_ACQUIRE_TIMEOUT (ConnectionLimit.timeout_elapsed t)
              (ConnectionLimit.timeout_of t) (ConnectionLimit.timeout_origin t) (ConnectionLimit.timeout_redirect_hop t))
  | KindSsrf => v ← ssrf_violation_from_error e; Some (ssrf_error v)
  | KindRequest => Some (new_err FogHttpError (transport_error_message e))
  | KindNetwork => Some (new_err FogHttpNetworkError (transport_error_message e))
  end.

Definition transport_telemetry_error_type (e : DynError) : TelemetryErrorType :=
  match transport_error_kind e with
  | KindWriteTimeout => WriteTimeout
  | KindPoolTimeout => PoolTimeout
  | KindSsrf => SsrfError
  | KindRequest => RequestError
  | KindNetwork => NetworkError
  end.

Definition is_retryable_network_error (e : DynError) : bool := bool_decide (transport_error_kind e = KindNetwork).

Definition display_policy_error (e : PolicyError) : string :=
  match e with
  | InvalidProxyPolicy value => "unknown proxy transport policy: " +:+ value
  | RedirectLimitExceeded max_redirects origin =>
      "redirect limit exceeded after " +:+ pretty max_redirects +:+ " redirects for " +:+ origin
  | HttpsToHttpRedirectBlocked => "https-to-http redirect blocked by redirect security policy"
  | NonReplayableRequestBodyRedirect => "cannot follow redirect with non-replayable request body"
  | ProxyRedirectPolicyRecomputeUnsupported =>
      "cross-origin redirect with environment proxy policy requires per-hop proxy decisions"
  | PolicySsrfViolation violation => display_violation violation
  end.

Definition policy_error (e : PolicyError) : PyErr :=
  match e with
  | PolicySsrfViolation violation => ssrf_error violation
  | _ => new_err FogHttpError (display_policy_error e)
  end.

Section response_errors.
Context `{Body.ContentDecoders}.

Definition response_body_error (e : Body.ResponseBodyError) : PyErr :=
  match e with
  | Body.TooLarge _ => new_err FogHttpResponseBodyTooLargeError (Body.display_response_body_error e)
  | Body.BudgetExceeded _ => new_err FogHttpResponseBodyBudgetExceededError (Body.display_response_body_error e)
  | Body.ResponseCounterOverflow | Body.ReservationOverflow | Body.ReservationUnderflow
  | Body.DecodeReservationOverflow | Body.Decode _ _ => new_err FogHttpError (Body.display_response_body_error e)
  end.
End response_errors.

(** What the telemetry says of an exception of the response's body. *)
Definition response_body_error_type (e : PyErr) : TelemetryErrorType :=
  if is_instance_of FogHttpReadTimeoutError (exception e) then ReadTimeout
  else if is_instance_of FogHttpWriteTimeoutError (exception e) then WriteTimeout
  else if is_instance_of FogHttpTimeoutError (exception e) then TimeoutError
  else if is_instance_of FogHttpResponseBodyTooLargeError (exception e) then ResponseBodyTooLargeError
  else if is_instance_of FogHttpResponseBodyBudgetExceededError (exception e) then ResponseBodyBudgetExceededError
  else if is_instance_of FogHttpResponseDecodingError (exception e) then ResponseDecodingError
  else RequestError.

(** ** Substrings *)

Lemma split_once_prefix p s : is_some (strip_prefix p s) = true -> is_some (split_once p s) = true.
Proof. destruct s; cbn; by destruct (strip_prefix p _). Qed.

Lemma split_once_app p a b : is_some (split_once p (a ++ p ++ b)%string) = true.
Proof.
  induction a as [|c a IH].
  - apply split_once_prefix. change (is_some (strip_prefix p (p ++ b)%string) = true). by rewrite (proj2 (strip_prefix_Some p (p ++ b) b)).
  - change (is_some (split_once p (String c (a ++ p ++ b)%string)) = true). cbn [split_once].
    destruct (strip_prefix p _); [done|]. by destruct (split_once p (a ++ p ++ b)%string) as [[]|].
Qed.

Lemma split_once_Some p s before after : split_once p s = Some (before, after) -> s = (before ++ p ++ after)%string.
Proof.
  revert before after. induction s as [|c s IH]; intros before after; cbn [split_once].
  - destruct (strip_prefix p "") as [r|] eqn:E; [|done]. intros [= <- <-]. by apply strip_prefix_Some in E.
  - destruct (strip_prefix p (String c s)) as [r|] eqn:E; [intros [= <- <-]; by apply strip_prefix_Some in E|].
    destruct (split_once p s) as [[b0 a0]|]; [|done]. intros [= <- <-]. cbn. by rewrite (IH b0 a0 eq_refl).
Qed.

Lemma contains_spec p s : contains p s = true <-> exists before after, s = (before ++ p ++ after)%string.
Proof.
  unfold contains. split; [|intros (a & b & ->); apply split_once_app].
  destruct (split_once p s) as [[a b]|] eqn:E; [|done]. intros _. exists a, b. by apply split_once_Some.
Qed.

Lemma contains_refl s : contains s s = true.
Proof. apply contains_spec. exists "", "". cbn. by rewrite string_app_nil_r. Qed.

Lemma contains_app p s t : contains p s = true -> contains p (s ++ t) = true.
Proof. rewrite !contains_spec. intros (a & b & ->). exists a, (b ++ t)%string. by rewrite !string_app_assoc. Qed.

(** ** The message *)

Lemma add_causes_keeps n source message p : contains p message = true -> contains p (add_causes n source message) = true.
Proof.
  revert source message. induction n as [|n IH]; intros [cause|] message Hp; cbn [add_causes]; try done.
  apply IH. destruct (_ && _); [|done]. by apply contains_app.
Qed.

Lemma chain_unfold e : chain e = e :: match error_source e with Some s => chain s | None => [] end.
Proof. by destruct e. Qed.

Lemma add_causes_complete n source message i cause :
  (i < n)%nat -> match source with Some s => chain s | None => [] end !! i = Some cause ->
  contains (error_display cause) (add_causes n source message) = true \/ error_display cause = "".
Proof.
  revert i source message. induction n as [|n IH]; intros i [s|] message Hi Hc; try lia; [|done].
  rewrite chain_unfold in Hc. destruct i as [|i]; cbn [lookup list_lookup] in Hc.
  - injection Hc as <-. cbn [add_causes]. destruct (is_empty (error_display s)) eqn:He; [right; by destruct (error_display s)|]. left.
    apply add_causes_keeps. cbn [negb andb]. destruct (contains (error_display s) message) eqn:E; [done|]. cbn [negb].
    apply contains_spec. exists (message ++ ": ")%string, "". by rewrite string_app_nil_r, string_app_assoc.
  - cbn [add_causes]. by apply (IH i); [lia|].
Qed.

(** The message of a transport error names the error and each of its first five causes,
    and begins with the error itself: nothing that led to the failure is hidden by the generic
    phase that hyper displays. *)
Theorem transport_error_message_complete e i cause :
  (i <= MAX_DEPTH)%nat -> chain e !! i = Some cause ->
  (contains (error_display cause) (transport_error_message e) = true \/ error_display cause = "") /\
  starts_with (error_display e) (transport_error_message e) = true.
Proof.
  intros Hi Hc. unfold transport_error_message. split.
  - rewrite chain_unfold in Hc. destruct i as [|i]; cbn in Hc.
    + injection Hc as <-. left. apply add_causes_keeps, contains_refl.
    + by apply (add_causes_complete _ _ _ i); [lia|].
  - assert (Hs : forall n s m, starts_with (error_display e) m = true -> starts_with (error_display e) (add_causes n s m) = true).
    { induction n as [|n IH]; intros [s|] m Hm; cbn [add_causes]; try done. apply IH. destruct (_ && _); [|done]. 
      apply starts_with_spec in Hm as [r ->]. apply starts_with_spec. eexists. by rewrite <- string_app_assoc. }
    apply Hs, starts_with_spec. exists "". by rewrite string_app_nil_r.
Qed.

Definition sample_timeout_error : DynError :=
  dyn_error "client error (Connect)" IsOther
    (Some (dyn_error "operation timed out" (IsIoError None) (Some (dyn_error "timed out" IsOther None)))).

Lemma transport_error_message_complete_witness :
  transport_error_message sample_timeout_error = "client error (Connect): operation timed out" /\
  contains "timed out" (transport_error_message sample_timeout_error) = true.
Proof.
  split; [vm_compute; reflexivity|].
  destruct (transport_error_message_complete sample_timeout_error 2 (dyn_error "timed out" IsOther None)) as [[H|H] _];
    [unfold MAX_DEPTH; lia|reflexivity|exact H|discriminate H].
Defined.

(** ** The classification *)

(** An error that only the network can have caused. *)
Definition plain_cause (e : DynError) : bool :=
  match error_downcast e with IsAcquireTimeout _ | IsSsrfViolation _ | IsHyperError true => false | _ => true end.

Lemma chain_ind (P : DynError -> Prop) :
  (forall e, (forall s, error_source e = Some s -> P s) -> P e) -> forall e, P e.
Proof.
  intros HP. assert (H : forall n e, (length (chain e) <= n)%nat -> P e).
  { induction n as [|n IH]; intros e Hn; rewrite chain_unfold in Hn; cbn in Hn; [lia|].
    apply HP. intros s Hs. rewrite Hs in Hn. apply IH. lia. }
  intros e. by apply (H (length (chain e))).
Qed.

Lemma plain_chain e : forallb plain_cause (chain e) =
  negb (is_some (connection_acquire_timeout_from_error e)) && negb (is_some (ssrf_violation_from_error e)) &&
  negb (error_chain_contains_user_error e).
Proof.
  induction e as [e IH] using chain_ind. unfold connection_acquire_timeout_from_error in *.
  destruct e as [display downcast [s|]]; [specialize (IH s eq_refl)|]; cbn [chain fmap list_fmap forallb];
    [|by destruct downcast as [| | |[]| |]].
  destruct downcast as [| | |[]| |]; cbn [plain_cause error_downcast ConnectionLimit.connection_acquire_timeout_from_error
    ssrf_violation_from_error error_chain_contains_user_error is_some negb andb]; rewrite ?andb_false_r; try done; apply IH.
Qed.

(** What is searched for a write timeout: of an [io::Error], what it wraps before its source. *)
Fixpoint searched (e : DynError) : list DynError :=
  match e with
  | dyn_error _ downcast source =>
      e :: (match downcast with IsIoError (Some inner) => searched inner | _ => [] end) ++
      match source with Some s => searched s | None => [] end
  end.

Definition as_write_timeout (e : DynError) : option RequestWriteTimeout :=
  match error_downcast e with IsWriteTimeout t => Some t | _ => None end.
Definition as_acquire_timeout (e : DynError) : option ConnectionAcquireTimeout :=
  match error_downcast e with IsAcquireTimeout t => Some t | _ => None end.
Definition as_violation (e : DynError) : option SsrfViolation :=
  match error_downcast e with IsSsrfViolation v => Some v | _ => None end.
Definition as_misuse (e : DynError) : option unit := match error_downcast e with IsHyperError true => Some tt | _ => None end.

Lemma head_or {A} (l l' : list A) : head (l ++ l') = match head l with Some x => Some x | None => head l' end.
Proof. by destruct l. Qed.

Lemma first_write_timeout : forall e, request_write_timeout_from_error e = head (omap as_write_timeout (searched e)).
Proof.
  fix IH 1. intros [display downcast source].
  destruct downcast as [t|t|v|u|[inner|]|]; destruct source as [s|]; cbn; rewrite ?omap_app, ?head_or, ?IH; try done;
    try (destruct (head _); done).
Qed.

Lemma first_acquire_timeout e : connection_acquire_timeout_from_error e = head (omap as_acquire_timeout (chain e)).
Proof.
  unfold connection_acquire_timeout_from_error. induction (chain e) as [|x l IH]; [done|]. cbn. unfold as_acquire_timeout at 1.
  by destruct (error_downcast x).
Qed.

Lemma first_violation e : ssrf_violation_from_error e = head (omap as_violation (chain e)).
Proof.
  induction e as [e IH] using chain_ind. destruct e as [display downcast [s|]]; [specialize (IH s eq_refl)|];
    by destruct downcast.
Qed.

Lemma misuse_found e : error_chain_contains_user_error e = is_some (head (omap as_misuse (chain e))).
Proof.
  induction e as [e IH] using chain_ind. destruct e as [display downcast [s|]]; [specialize (IH s eq_refl)|];
    by destruct downcast as [| | |[]| |].
Qed.

Definition acquire_timeout_exception (t : ConnectionAcquireTimeout) : PyErr :=
  connection_acquire_timeout_error CONNECTION_ACQUIRE_TIMEOUT (ConnectionLimit.timeout_elapsed t)
    (ConnectionLimit.timeout_of t) (ConnectionLimit.timeout_origin t) (ConnectionLimit.timeout_redirect_hop t).

(** C11: Every failed exchange becomes one exception of the client, and classifying it never
    panics.  The first cause found decides, in this order, wherever in the chain of sources it
    is: a write timeout of ours, which is also searched in what [io::Error]s wrap; a timeout of
    acquiring a connection; a violation of the SSRF policy; a misuse of hyper; and otherwise
    the network.  The exception carries the details of the outermost error of that kind, the
    telemetry of the failure agrees with it, and what counts as retryable is exactly what none
    of the others caused. *)
Theorem transport_error_sound e : exists err, transport_error e = Some err /\
  (err, transport_telemetry_error_type e) =
    (match omap as_write_timeout (searched e), omap as_acquire_timeout (chain e), omap as_violation (chain e), omap as_misuse (chain e) with
     | t :: _, _, _, _ => (write_timeout_error t, WriteTimeout)
     | [], t :: _, _, _ => (acquire_timeout_exception t, PoolTimeout)
     | [], [], v :: _, _ => (ssrf_error v, SsrfError)
     | [], [], [], _ :: _ => (new_err FogHttpError (transport_error_message e), RequestError)
     | [], [], [], [] => (new_err FogHttpNetworkError (transport_error_message e), NetworkError)
     end) /\
  is_instance_of FogHttpError (exception err) = true /\
  (is_retryable_network_error e = true <-> exception err = FogHttpNetworkError) /\
  (is_retryable_network_error e = true <->
     request_write_timeout_from_error e = None /\ forallb plain_cause (chain e) = true).
Proof.
  rewrite plain_chain. unfold transport_error, transport_telemetry_error_type, is_retryable_network_error, transport_error_kind.
  rewrite first_write_timeout, first_acquire_timeout, first_violation, misuse_found.
  destruct (omap as_write_timeout _); [destruct (omap as_acquire_timeout _); [destruct (omap as_violation _); [destruct (omap as_misuse _)|]|]|];
    cbn; eexists; (split; [reflexivity|]); (split; [reflexivity|]); (split; [reflexivity|]); rewrite bool_decide_eq_true; cbn; intuition congruence.
Qed.

(** The write timeout decides, though the SSRF violation is the outer error. *)
Example write_timeout_first t v :
  transport_error (dyn_error "" (IsSsrfViolation v) (Some (dyn_error "" (IsIoError (Some (dyn_error "" (IsWriteTimeout t) None))) None))) =
  Some (write_timeout_error t).
Proof. reflexivity. Qed.

