(* ===== verification/UploadBody.v ===== *)
(** * Upload bodies of Python

    [src/src/py/client/upload_body.rs]: the object through which Python producers write a
    streamed request body.  Its owner is shared by the client and the package; each attempt
    to send the request takes a receiver from it, and a replayable body has a new channel
    for each attempt, whose producers get a body of their own.  The channels are those of
    file [Upload].  Any number of calls run concurrently, on the owner and on the bodies of
    attempts, over the steps of every channel; a call is split where it leaves the owner's
    mutex and wherever the channel's code is split.  The interpreter's lock is not modelled,
    so calls interleave more than it lets them; the callbacks are Python code, and what the
    start callback does is its answer. *)

From S2P Require Import Prelude Atomics Sync Errors Upload.

Local Open Scope Z_scope.

Definition UPLOAD_BODY_CHANNEL_CAPACITY : nat := 8.
Definition STREAMING_BODY_CONSUMED : string := "streaming request body was already consumed".

(** Senders and receivers are the number of their channel. *)
Record RawUploadBodyState := { state_sender : option nat; state_receiver : option nat }.
#[export] Instance eta_RawUploadBodyState : Eta RawUploadBodyState := fun o =>
  Build_RawUploadBodyState (state_sender o) (state_receiver o).

Inductive RawUploadBody := Owner | Attempt (channel : nat).

(** The methods Python calls, and [take_receiver], which the transport calls. *)
Inductive Call :=
| Send (chunk : list Z)
| SendFinal (chunk : list Z)
| SendNowait (chunk : list Z)
| SendFinalNowait (chunk : list Z)
| IsClosed
| Finish
| Fail (message : string)
| FailNowait (message : string)
| Close
| TakeReceiver.

Inductive Value :=
| Unit
| Bool (b : bool)
| Receiver (channel : nat) (content_length : option Z)
| Raised (e : PyErr).

(** What a call does with the result of an operation of a channel. *)
Inductive Next :=
| ReturnSent
| ReturnUnit
| ReturnTrue
(** [fail] then calls [finish] on the same sender *)
| FinishAfter
| FailedNowait
(** [take_receiver]: the previous sender is closed; the attempt's sender is closed; the
    receiver is dropped *)
| StartAttempt (receiver attempt_sender : nat)
| DropThenRaise (receiver : nat) (e : PyErr)
| RaiseAfter (e : PyErr).

Inductive Progress :=
| Begun
(** an operation of the channel, its sender number [i] *)
| OnChannel (ch i : nat) (k : Next)
(** before [sender.is_closed()], whose negation is returned or not *)
| ToRead (ch : nat) (negated : bool)
(** [fail_nowait] before [take_sender] *)
| ToTake (ch : nat)
(** [take_receiver] after the owner's section: the start callback runs *)
| ToStart (receiver attempt_sender : nat)
| Returned (v : Value).

Record Running := { run_body : RawUploadBody; run_call : Call; progress : Progress }.
#[export] Instance eta_Running : Eta Running := fun r => Build_Running (run_body r) (run_call r) (progress r).

Record World := {
  owner : RawUploadBodyState;
  channels : list System;
  calls : list Running;
}.
#[export] Instance eta_World : Eta World := fun w => Build_World (owner w) (channels w) (calls w).

(** What Python answers to a start: the attempt's body is not created, the callback raises. *)
Inductive StartAnswer := Started | NotCreated (e : PyErr) | CallbackRaised (e : PyErr).

Section body.
Context (content_length : option Z) (replayable : bool) (timeout : option Z).

Abbreviation new_upload_body_channel := (Upload.initial timeout).

Definition new_body : World :=
  {| owner := {| state_sender := Some 0%nat; state_receiver := Some 0%nat |};
     channels := [new_upload_body_channel]; calls := [] |}.

(** ** Operations *)

Definition sender (body : RawUploadBody) (w : World) : option nat :=
  match body with Owner => state_sender (owner w) | Attempt ch => Some ch end.

Definition take_sender (body : RawUploadBody) (w : World) : option nat * World :=
  match body with
  | Owner => (state_sender (owner w), w <| owner ::= fun o => o <| state_sender := None |> |>)
  | Attempt ch => (Some ch, w)
  end.

(** A call of an operation of a channel. *)
Definition on_channel (ch : nat) (t : Sender) (k : Next) (w : World) : Progress * World :=
  (OnChannel ch (length (default [] (senders <$> channels w !! ch))) k,
   w <| channels ::= alter (fun s => s <| senders ::= fun ts => ts ++ [t] |>) ch |>).

(** [Drop] of the receiver aborts its channel. *)
Definition drop_receiver (rc : nat) (e : PyErr) (w : World) : Progress * World :=
  (OnChannel rc (length (default [] (senders <$> channels w !! rc))) (RaiseAfter e),
   w <| channels ::= alter (fun s => s <| phase := Gone |> <| senders ::= fun ts => ts ++ [Closing] |>) rc |>).

Definition send_item (finish blocking : bool) (item : UploadBodyItem) (body : RawUploadBody) (w : World) : Progress * World :=
  match sender body w with
  | None => (Returned (Bool false), w)
  | Some ch => on_channel ch (Sending item finish blocking) ReturnSent w
  end.

Definition send_empty (body : RawUploadBody) (w : World) : Progress * World :=
  match sender body w with
  | None => (Returned (Bool false), w)
  | Some ch => (ToRead ch true, w)
  end.

Definition finish_with (k : Next) (none : Value) (body : RawUploadBody) (w : World) : Progress * World :=
  let (s, w) := take_sender body w in
  match s with
  | None => (Returned none, w)
  | Some ch => on_channel ch Finishing k w
  end.

Definition send (chunk : list Z) : RawUploadBody -> World -> Progress * World :=
  match chunk with [] => send_empty | _ => send_item false true (Ok chunk) end.

Definition send_final (chunk : list Z) : RawUploadBody -> World -> Progress * World :=
  match chunk with [] => finish_with ReturnSent (Bool false) | _ => send_item true true (Ok chunk) end.

Definition send_nowait (chunk : list Z) : RawUploadBody -> World -> Progress * World :=
  match chunk with [] => send_empty | _ => send_item false false (Ok chunk) end.

Definition send_final_nowait (chunk : list Z) : RawUploadBody -> World -> Progress * World :=
  match chunk with [] => finish_with ReturnSent (Bool false) | _ => send_item true false (Ok chunk) end.

Definition is_closed (body : RawUploadBody) (w : World) : Progress * World :=
  match sender body w with
  | Some ch => (ToRead ch false, w)
  | None => (Returned (Bool true), w)
  end.

Definition finish : RawUploadBody -> World -> Progress * World := finish_with ReturnUnit Unit.

Definition fail (message : string) (body : RawUploadBody) (w : World) : Progress * World :=
  let (s, w) := take_sender body w in
  match s with
  | None => (Returned Unit, w)
  | Some ch => on_channel ch (Sending (Err message) false true) FinishAfter w
  end.

Definition fail_nowait (message : string) (body : RawUploadBody) (w : World) : Progress * World :=
  match sender body w with
  | None => (Returned (Bool true), w)
  | Some ch => on_channel ch (Sending (Err message) false false) FailedNowait w
  end.

Definition close (body : RawUploadBody) (w : World) : Progress * World :=
  let (s, w) := take_sender body w in
  match s with
  | None => (Returned Unit, w)
  | Some ch => on_channel ch Closing ReturnUnit w
  end.

Definition consumed : PyErr := new_err PyRuntimeError STREAMING_BODY_CONSUMED.

Definition reset_channel (w : World) : option nat * World :=
  let fresh := length (channels w) in
  (state_sender (owner w),
   w <| channels ::= fun cs => cs ++ [new_upload_body_channel] |>
     <| owner := {| state_sender := Some fresh; state_receiver := Some fresh |} |>).

(** The end of the owner's section: the receiver leaves its slot. *)
Definition take_slots (previous_sender : option nat) (w : World) : Progress * World :=
  match state_receiver (owner w) with
  | None => (Returned (Raised consumed), w)
  | Some rc =>
      let w := w <| owner ::= fun o => o <| state_receiver := None |> |> in
      match state_sender (owner w) with
      | None => drop_receiver rc consumed w
      | Some attempt_sender =>
          match previous_sender with
          | Some previous => on_channel previous Closing (StartAttempt rc attempt_sender) w
          | None => (ToStart rc attempt_sender, w)
          end
      end
  end.

Definition take_receiver (body : RawUploadBody) (w : World) : Progress * World :=
  match body with
  | Attempt _ => (Returned (Raised consumed), w)
  | Owner =>
      match state_receiver (owner w) with
      | None =>
          if negb replayable then (Returned (Raised consumed), w)
          else let (previous_sender, w) := reset_channel w in take_slots previous_sender w
      | Some _ => take_slots None w
      end
  end.

(** The start callback has returned, or has not been called. *)
Definition start (answer : StartAnswer) (rc attempt_sender : nat) (w : World) : Progress * World :=
  match answer with
  | Started => (Returned (Receiver rc content_length), w)
  | NotCreated e => drop_receiver rc e w
  | CallbackRaised e => on_channel attempt_sender Closing (DropThenRaise rc e) w
  end.

(** ** Calls *)

Definition begin (c : Call) : RawUploadBody -> World -> Progress * World :=
  match c with
  | Send chunk => send chunk
  | SendFinal chunk => send_final chunk
  | SendNowait chunk => send_nowait chunk
  | SendFinalNowait chunk => send_final_nowait chunk
  | IsClosed => is_closed
  | Finish => finish
  | Fail message => fail message
  | FailNowait message => fail_nowait message
  | Close => close
  | TakeReceiver => take_receiver
  end.

Definition resume (ch : nat) (k : Next) (r : SendResult) (w : World) : Progress * World :=
  match k with
  | ReturnSent => (Returned (Bool (match r with SendOk => true | _ => false end)), w)
  | ReturnUnit => (Returned Unit, w)
  | ReturnTrue => (Returned (Bool true), w)
  | FinishAfter => on_channel ch Finishing ReturnUnit w
  | FailedNowait =>
      match r with
      | SendOk => (ToTake ch, w)
      | SendFull => (Returned (Bool false), w)
      | SendClosed => (Returned (Bool true), w)
      end
  | StartAttempt rc attempt_sender => (ToStart rc attempt_sender, w)
  | DropThenRaise rc e => drop_receiver rc e w
  | RaiseAfter e => (Returned (Raised e), w)
  end.

(** The next step of a call, if it is not blocked. *)
Definition call_step (answer : StartAnswer) (r : Running) (w : World) : option (Progress * World) :=
  match progress r with
  | Begun => Some (begin (run_call r) (run_body r) w)
  | OnChannel ch i k =>
      s ← channels w !! ch;
      match senders s !! i with Some (Done result) => Some (resume ch k result w) | _ => None end
  | ToRead ch negated =>
      s ← channels w !! ch;
      if channel_locked (shared s) then None else Some (Returned (Bool (xorb negated (closed (shared s)))), w)
  | ToTake ch =>
      let (_, w) := take_sender (run_body r) w in Some (on_channel ch Finishing ReturnTrue w)
  | ToStart rc attempt_sender => Some (start answer rc attempt_sender w)
  | Returned _ => None
  end.

(** The receiver a call has returned, and the one it holds. *)
Definition given (p : Progress) : list nat := match p with Returned (Receiver rc _) => [rc] | _ => [] end.
Definition held (p : Progress) : list nat :=
  match p with
  | OnChannel _ _ (StartAttempt rc _) | OnChannel _ _ (DropThenRaise rc _) | ToStart rc _ => [rc]
  | _ => []
  end.

Definition handed_out (w : World) : list nat := calls w ≫= fun r => given (progress r).

(** A step of a channel whose receiver nobody reads yet is one of its producers. *)
Definition unread (s s' : System) : Prop :=
  phase s' = phase s /\ body s' = body s /\ completion s' = completion s /\ checking s' = checking s.

Definition existing (body : RawUploadBody) (w : World) : Prop :=
  match body with Owner => True | Attempt ch => (ch < length (channels w))%nat end.

(** The producers of a channel are the calls; only the drop of its receiver adds another. *)
Inductive world_step (w : World) : World -> Prop :=
| step_begin body c :
    existing body w ->
    world_step w (w <| calls ::= fun l => l ++ [{| run_body := body; run_call := c; progress := Begun |}] |>)
| step_run i r answer p w' :
    calls w !! i = Some r -> call_step answer r w = Some (p, w') ->
    world_step w (w' <| calls ::= <[i := r <| progress := p |>]> |>)
| step_channel ch s s' :
    channels w !! ch = Some s ->
    system_step UPLOAD_BODY_CHANNEL_CAPACITY (wire_content_length content_length) s s' ->
    length (senders s') = length (senders s) \/ phase s <> Gone /\ phase s' = Gone ->
    ch ∈ handed_out w \/ unread s s' ->
    world_step w (w <| channels ::= <[ch := s']> |>).

Definition body_reachable (w : World) : Prop := rtc world_step new_body w.

(** ** What holds in every world *)

Definition reachable_channel (s : System) : Prop :=
  Upload.reachable UPLOAD_BODY_CHANNEL_CAPACITY (wire_content_length content_length) timeout s.

(** Closed, or about to be by one of its producers. *)
Definition closing (s : System) : Prop := closed (shared s) = true \/ Finishing ∈ senders s \/ Closing ∈ senders s.

(** ... or by a call of [fail]. *)
Definition will_finish (ch : nat) (p : Progress) : Prop := exists i, p = OnChannel ch i FinishAfter.

Definition owner_fail_nowait (r : Running) : Prop := run_body r = Owner /\ exists m, run_call r = FailNowait m.

Definition next_ok (cs : list System) (c : Call) (k : Next) : Prop :=
  match k with
  | FailedNowait => exists m, c = FailNowait m
  | StartAttempt rc att => (rc < length cs)%nat /\ (att < length cs)%nat
  | DropThenRaise rc _ => (rc < length cs)%nat
  | _ => True
  end.

(** Every channel a call names exists. *)
Definition refs_ok (cs : list System) (r : Running) : Prop :=
  (match run_body r with Owner => True | Attempt ch => (ch < length cs)%nat end) /\
  match progress r with
  | OnChannel ch i k => (exists s, cs !! ch = Some s /\ (i < length (senders s))%nat) /\ next_ok cs (run_call r) k
  | ToRead ch _ => (ch < length cs)%nat
  | ToTake ch => (ch < length cs)%nat /\ exists m, run_call r = FailNowait m
  | ToStart rc att => (rc < length cs)%nat /\ (att < length cs)%nat
  | Begun | Returned _ => True
  end.

Definition slot (o : RawUploadBodyState) : list nat := option_list (state_receiver o).
Definition unclaimed (rs : list Running) (o : RawUploadBodyState) : list nat :=
  (rs ≫= fun r => held (progress r)) ++ slot o.
Definition owned (rs : list Running) (o : RawUploadBodyState) : list nat :=
  (rs ≫= fun r => given (progress r)) ++ unclaimed rs o.

(** [taken]: senders that left the owner's slot and are about to be used. *)
Record body_ok (taken : list nat) (rs : list Running) (o : RawUploadBodyState) (cs : list System) : Prop := {
  ok_reachable c s : cs !! c = Some s -> reachable_channel s;
  ok_receivers : NoDup (owned rs o);
  ok_owned c : c ∈ owned rs o -> (c < length cs)%nat;
  ok_idle c s : c ∈ unclaimed rs o -> cs !! c = Some s -> phase s = Idle;
  ok_sender c : state_sender o = Some c -> (c < length cs)%nat;
  ok_once : replayable = false -> length cs = 1%nat;
  ok_refs r : r ∈ rs -> refs_ok cs r;
  ok_closing c s : (forall r, r ∈ rs -> ~ owner_fail_nowait r) -> cs !! c = Some s ->
    state_sender o = Some c \/ c ∈ taken \/ closing s \/ exists r, r ∈ rs /\ will_finish c (progress r);
}.

End body.

(** ** The channels *)

Lemma closing_step capacity expected s s' : system_step capacity expected s s' -> closing s -> closing s'.
Proof.
  unfold closing. intros Hstep Hs.
  assert (Happ : forall t, closed (shared s) = true \/ Finishing ∈ senders s ++ [t] \/ Closing ∈ senders s ++ [t])
    by (intros t; rewrite !elem_of_app; tauto).
  assert (Hins : forall i t t' ts, senders s !! i = Some t -> t <> Finishing -> t <> Closing ->
    ts = <[i := t']> (senders s) \/ ts = wake_sender <$> <[i := t']> (senders s) ->
    closed (shared s) = true \/ Finishing ∈ ts \/ Closing ∈ ts).
  { intros i t t' ts Hi Hf Hc Hts. assert (Hkeep : forall x, x ∈ senders s -> x <> t -> wake_sender x = x -> x ∈ ts).
    { intros x [j Hj]%list_elem_of_lookup Hx Hw. assert (j <> i) by congruence.
      assert (Hin : <[i := t']> (senders s) !! j = Some x) by (by rewrite list_lookup_insert_ne by done).
      destruct Hts as [-> | ->]; [by eapply list_elem_of_lookup_2|]. apply list_elem_of_fmap. exists x. split; [done|].
      by eapply list_elem_of_lookup_2. }
    destruct Hs as [?|[Hin|Hin]]; [by left|right; left; by apply Hkeep|right; right; by apply Hkeep]. }
  destruct Hstep as [t _|i t t' sh g Hi Hstep|i item fin Hi|i w fin item _ Hi| |now ph b sh _ Hp| | | | | | |c p _ _ Hd| | |];
    cbn -[elem_of]; try exact Hs; try apply Happ.
  - assert (Hclosed : closed (shared s) = true -> closed sh = true).
    { intros Hc. destruct t; cbn in Hstep; unfold send_attempt, channel_finish, channel_abort in Hstep;
        repeat case_match; try done; rewrite ?Hc in *; cbn in *; simplify_eq/=; done. }
    assert (Hend : t = Finishing \/ t = Closing -> closed sh = true).
    { intros [-> | ->]; cbn in Hstep; unfold channel_finish, channel_abort in Hstep;
        repeat case_match; try done; cbn in *; simplify_eq/=; done. }
    assert (Hother : t <> Finishing -> t <> Closing ->
      closed sh = true \/ Finishing ∈ signal g (<[i := t']> (senders s)) \/ Closing ∈ signal g (<[i := t']> (senders s))).
    { intros Hf Hc. assert (Hts : signal g (<[i := t']> (senders s)) = <[i := t']> (senders s) \/
        signal g (<[i := t']> (senders s)) = wake_sender <$> <[i := t']> (senders s)) by (destruct g; auto).
      destruct (Hins i t t' _ Hi Hf Hc Hts); [left; by apply Hclosed|by right]. }
    destruct t; try (left; apply Hend; tauto); by apply Hother.
  - by eapply Hins; [exact Hi| | |left].
  - by eapply Hins; [exact Hi| | |left].
  - assert (Hclosed : closed sh = closed (shared s)); [|by rewrite Hclosed].
    unfold poll_frame, poll_recv in Hp. destruct (finished _); [by injection Hp as _ _ <-|].
    destruct (channel_locked _); [done|]. destruct (queue _) as [|[] q]; cbn in Hp; try by injection Hp as _ _ <-.
    destruct (closed (shared s)) eqn:Hc; cbn in Hp; [by injection Hp as _ _ <-|].
    destruct (poll_pending_timeout _ _) as [[] b']; by injection Hp as _ _ <-.
Qed.

Lemma senders_grow capacity expected s s' :
  system_step capacity expected s s' -> (length (senders s) <= length (senders s'))%nat.
Proof.
  destruct 1 as [|i t t' sh g Hi Hstep| | | | | | | | | | | | | |]; cbn; rewrite ?length_app, ?length_insert; try lia.
  destruct g; cbn; rewrite ?length_fmap, ?length_insert; done.
Qed.

(** ** Steps of a call *)

Lemma alter_lookup_inv {A} (f : A -> A) (l : list A) i j y :
  alter f i l !! j = Some y -> exists x, l !! j = Some x /\ (y = x /\ i <> j \/ y = f x /\ i = j).
Proof.
  intros Hy. destruct (decide (i = j)) as [->|Hne].
  - rewrite list_lookup_alter_eq in Hy. destruct (l !! j) as [x|]; [|done]. injection Hy as <-. eauto.
  - rewrite list_lookup_alter_ne in Hy by done. eauto.
Qed.

Section body_ok.
Context (content_length : option Z) (replayable : bool) (timeout : option Z).
#[local] Abbreviation ok := (body_ok content_length replayable timeout).
#[local] Abbreviation reach := (reachable_channel content_length timeout).

Lemma body_ok_perm tk rs rs' o cs : rs ≡ₚ rs' -> ok tk rs o cs -> ok tk rs' o cs.
Proof.
  intros Hp []. assert (Ho : owned rs o ≡ₚ owned rs' o) by (unfold owned, unclaimed; by rewrite Hp).
  assert (Hu : unclaimed rs o ≡ₚ unclaimed rs' o) by (unfold unclaimed; by rewrite Hp).
  split; try done.
  - by rewrite <- Ho.
  - intros c. rewrite <- Ho. apply ok_owned0.
  - intros c s. rewrite <- Hu. apply ok_idle0.
  - intros r. rewrite <- Hp. apply ok_refs0.
  - intros c s Hr Hc. destruct (ok_closing0 c s) as [?|[?|[?|(r & Hin & ?)]]]; auto.
    + intros r Hin. apply Hr. by rewrite <- Hp.
    + right; right; right. exists r. by rewrite <- Hp.
Qed.

Lemma owned_cons r p rest o : owned ((r <| progress := p |>) :: rest) o ≡ₚ (given p ++ held p) ++ owned rest o.
Proof. unfold owned, unclaimed. cbn. solve_Permutation. Qed.

Lemma unclaimed_cons r p rest o : unclaimed ((r <| progress := p |>) :: rest) o = held p ++ unclaimed rest o.
Proof. unfold unclaimed. cbn. by rewrite <- app_assoc. Qed.

(** A step of one call, over what it does to the channels. *)
Lemma body_ok_move tk tk' r p p' rest o o' cs cs' :
  ok tk ((r <| progress := p |>) :: rest) o cs ->
  (exists l, (given p ++ held p) ++ owned rest o ≡ₚ l ++ (given p' ++ held p') ++ owned rest o') ->
  (forall c, c ∈ held p' ++ unclaimed rest o' -> c ∈ held p ++ unclaimed rest o) ->
  length cs' = length cs ->
  (forall c s', cs' !! c = Some s' -> exists s, cs !! c = Some s /\ reach s' /\
     (c ∈ held p' ++ unclaimed rest o' -> phase s' = phase s) /\ (closing s -> closing s') /\
     (length (senders s) <= length (senders s'))%nat) ->
  (forall c, state_sender o' = Some c -> state_sender o = Some c) ->
  refs_ok cs' (r <| progress := p' |>) ->
  (forall c s', cs' !! c = Some s' -> state_sender o = Some c \/ c ∈ tk \/ will_finish c p ->
     state_sender o' = Some c \/ c ∈ tk' \/ closing s' \/ will_finish c p') ->
  ok tk' ((r <| progress := p' |>) :: rest) o' cs'.
Proof.
  intros [Hreach Hrecv Howned Hidle Hsender Honce Hrefs Hclosing] (l & Hl) Hun Hlen Hcs Hs Hr Hc.
  rewrite owned_cons, Hl in Hrecv. rewrite unclaimed_cons in Hidle. setoid_rewrite owned_cons in Howned.
  setoid_rewrite Hl in Howned. split.
  - intros c s' Hs'. by destruct (Hcs c s' Hs') as (s & _ & ? & _).
  - rewrite owned_cons. by apply NoDup_app in Hrecv as (_ & _ & ?).
  - intros c. rewrite owned_cons, Hlen. intros Hin. apply Howned. rewrite elem_of_app. by right.
  - intros c s'. rewrite unclaimed_cons. intros Hin Hs'. destruct (Hcs c s' Hs') as (s & Hs0 & _ & -> & _); [|done].
    eapply Hidle; [|exact Hs0]. by apply Hun.
  - intros c. rewrite Hlen. auto.
  - by rewrite Hlen.
  - intros q [->|Hq]%elem_of_cons; [done|]. specialize (Hrefs q ltac:(by right)). revert Hrefs. unfold refs_ok, next_ok.
    rewrite Hlen. destruct (progress q) as [|ch i k| | | |]; try done. intros (Hb & (s & Hch & Hi) & Hk). split; [done|]. split; [|done].
    destruct (cs' !! ch) as [s'|] eqn:Hs'.
    + exists s'. split; [done|]. destruct (Hcs ch s' Hs') as (s2 & Hs2 & _ & _ & _ & ?). assert (s2 = s) as -> by congruence. lia.
    + apply lookup_ge_None in Hs'. apply lookup_lt_Some in Hch. lia.
  - intros c s' Hno Hs'. destruct (Hcs c s' Hs') as (s & Hs0 & _ & _ & Hcl & _).
    destruct (Hclosing c s) as [?|[?|[?|(q & [->|Hq]%elem_of_cons & ?)]]].
    + intros q [->|Hq]%elem_of_cons; [exact (Hno (r <| progress := p' |>) ltac:(by left))|apply Hno; by right].
    + done.
    + destruct (Hc c s' Hs') as [?|[?|[?|?]]]; auto. right; right; right. eexists. split; [by left|done].
    + destruct (Hc c s' Hs') as [?|[?|[?|?]]]; auto. right; right; right. eexists. split; [by left|done].
    + auto.
    + destruct (Hc c s' Hs') as [?|[?|[?|?]]]; auto. right; right; right. eexists. split; [by left|done].
    + right; right; right. exists q. split; [by right|done].
Qed.

Lemma body_ok_progress tk r p p' rest o cs :
  ok tk ((r <| progress := p |>) :: rest) o cs ->
  (exists l, given p ++ held p ≡ₚ l ++ given p' ++ held p') -> (forall c, c ∈ held p' -> c ∈ held p) ->
  refs_ok cs (r <| progress := p' |>) -> (forall c, ~ will_finish c p) ->
  ok tk ((r <| progress := p' |>) :: rest) o cs.
Proof.
  intros Hok [l Hl] Hh Hr Hw. eapply body_ok_move; [exact Hok|..]; try done.
  - exists l. by rewrite Hl, <- !app_assoc.
  - intros c. rewrite !elem_of_app. intros [?|?]; auto.
  - intros c s' Hs'. exists s'. split_and!; try done. by eapply (ok_reachable _ _ _ _ _ _ _ Hok).
  - intros c s' _ [?|[?|[]%Hw]]; auto.
Qed.

Lemma body_ok_call tk tk' r p rest o cs ch t k :
  ok tk ((r <| progress := p |>) :: rest) o cs -> producer_call t -> (ch < length cs)%nat ->
  given p = [] -> held p = held (OnChannel ch 0 k) -> next_ok cs (run_call r) k ->
  (forall c, c ∈ tk \/ will_finish c p -> c ∈ tk' \/ c = ch /\ (t = Finishing \/ t = Closing \/ k = FinishAfter)) ->
  ok tk' ((r <| progress := OnChannel ch (length (default [] (senders <$> cs !! ch))) k |>) :: rest) o
    (alter (fun s => s <| senders ::= fun ts => ts ++ [t] |>) ch cs).
Proof.
  intros Hok Ht Hch Hg Hh Hk Hc. assert (Hheld : held (OnChannel ch (length (default [] (senders <$> cs !! ch))) k) = held p)
    by (rewrite Hh; by destruct k).
  eapply body_ok_move; [exact Hok|..].
  - exists []. rewrite Hg, Hheld. done.
  - by rewrite Hheld.
  - apply length_alter.
  - intros c s' Hs'. apply alter_lookup_inv in Hs' as (s & Hs & [[-> _]|[-> _]]); exists s; split; try done.
    + split_and!; try done. by eapply (ok_reachable _ _ _ _ _ _ _ Hok).
    + split_and!; [|done| |cbn; rewrite length_app; lia].
      * eapply rtc_r; [by eapply (ok_reachable _ _ _ _ _ _ _ Hok)|]. by apply Upload.step_call.
      * unfold closing. cbn -[elem_of]. rewrite !elem_of_app. tauto.
  - done.
  - destruct (ok_refs _ _ _ _ _ _ _ Hok (r <| progress := p |>) ltac:(by left)) as [Hb _].
    split; [cbn in *; by rewrite length_alter|].
    destruct (lookup_lt_is_Some_2 cs ch Hch) as [s Hs]. cbn. split.
    + exists (s <| senders ::= fun ts => ts ++ [t] |>). rewrite list_lookup_alter_eq, Hs. split; [done|]. cbn. rewrite length_app. cbn. lia.
    + unfold next_ok. rewrite length_alter. done.
  - intros c s' Hs' [?|Hor]; [by left|]. right. destruct (Hc c Hor) as [?|(-> & Hw)]; [by left|]. right.
    apply alter_lookup_inv in Hs' as (s & Hs & [[_ ?]|[-> _]]); [done|].
    destruct Hw as [->|[->| ->]]; [left|left|right; by eexists]; unfold closing; cbn -[elem_of]; rewrite !elem_of_app, !list_elem_of_singleton; tauto.
  Unshelve. all: done.
Qed.

(** A receiver that is held, or was just taken, is dropped: nobody polls it. *)
Lemma body_ok_drop tk r p rest o cs rc e :
  ok tk ((r <| progress := p |>) :: rest) o cs -> given p = [] -> held p = [rc] -> (forall c, ~ will_finish c p) ->
  ok tk ((r <| progress := OnChannel rc (length (default [] (senders <$> cs !! rc))) (RaiseAfter e) |>) :: rest) o
    (alter (fun s => s <| phase := Gone |> <| senders ::= fun ts => ts ++ [Closing] |>) rc cs).
Proof.
  intros Hok Hg Hh Hw. pose proof (ok_receivers _ _ _ _ _ _ _ Hok) as Hrecv. rewrite owned_cons, Hg, Hh in Hrecv.
  assert (Hrc : (rc < length cs)%nat).
  { apply (ok_owned _ _ _ _ _ _ _ Hok). rewrite owned_cons, Hg, Hh. by left. }
  destruct (lookup_lt_is_Some_2 cs rc Hrc) as [s0 Hs0].
  assert (Hidle : phase s0 = Idle).
  { apply (ok_idle _ _ _ _ _ _ _ Hok rc s0); [|done]. rewrite unclaimed_cons, Hh. by left. }
  eapply body_ok_move; [exact Hok|..].
  - exists [rc]. rewrite Hg, Hh. done.
  - intros c Hc. cbn in Hc. rewrite elem_of_app. by right.
  - apply length_alter.
  - intros c s' Hs'. apply alter_lookup_inv in Hs' as (s & Hs & [[-> Hne]|[-> ->]]); exists s; (split; [done|]).
    + split_and!; try done. by eapply (ok_reachable _ _ _ _ _ _ _ Hok).
    + assert (s = s0) as -> by congruence. split_and!; [| | |cbn; rewrite length_app; lia].
      * eapply rtc_r; [by eapply (ok_reachable _ _ _ _ _ _ _ Hok)|]. apply Upload.step_drop. by left.
      * cbn -[elem_of]. intros Hin. apply NoDup_app in Hrecv as (_ & Hnot & _). destruct (Hnot c); [by left|].
        unfold owned. rewrite elem_of_app. by right.
      * unfold closing. cbn -[elem_of]. rewrite !elem_of_app. tauto.
  - done.
  - destruct (ok_refs _ _ _ _ _ _ _ Hok (r <| progress := p |>) ltac:(by left)) as [Hb _].
    split; [cbn in *; by rewrite length_alter|]. cbn. split; [|done].
    eexists. rewrite list_lookup_alter_eq, Hs0. split; [done|]. cbn. rewrite length_app. cbn. lia.
  - intros c s' _ [?|[?|[]%Hw]]; auto.
Qed.

Lemma body_ok_take_sender tk rs o cs :
  ok tk rs o cs -> ok (option_list (state_sender o) ++ tk) rs (o <| state_sender := None |>) cs.
Proof.
  intros []. split; try done. intros c s Hno Hs. right. rewrite elem_of_app.
  destruct (ok_closing0 c s Hno Hs) as [->|?]; [left; left; by left|tauto].
Qed.

Lemma body_ok_racing tk tk' rs r o cs : r ∈ rs -> owner_fail_nowait r -> ok tk rs o cs -> ok tk' rs o cs.
Proof. intros Hr Hf []. split; try done. intros c s Hno. by destruct (Hno r Hr). Qed.

(** The receiver leaves its slot for the call that holds it. *)
Lemma body_ok_take_slot tk r p rest o cs rc att :
  ok tk ((r <| progress := p |>) :: rest) o cs -> given p = [] -> held p = [] -> (forall c, ~ will_finish c p) ->
  state_receiver o = Some rc -> (att < length cs)%nat ->
  ok tk ((r <| progress := ToStart rc att |>) :: rest) (o <| state_receiver := None |>) cs.
Proof.
  intros Hok Hg Hh Hw Hrc Hatt.
  assert (Hslot : forall rest, owned rest o ≡ₚ rc :: owned rest (o <| state_receiver := None |>)).
  { intros rs. unfold owned, unclaimed, slot. rewrite Hrc. cbn. solve_Permutation. }
  eapply body_ok_move; [exact Hok|..]; try done.
  - exists []. rewrite Hg, Hh, Hslot. done.
  - intros c. rewrite Hh. unfold unclaimed, slot. rewrite Hrc. cbn -[elem_of]. rewrite elem_of_cons, !elem_of_app, list_elem_of_singleton.
    rewrite elem_of_nil. tauto.
  - intros c s' Hs'. exists s'. split_and!; try done. by eapply (ok_reachable _ _ _ _ _ _ _ Hok).
  - destruct (ok_refs _ _ _ _ _ _ _ Hok (r <| progress := p |>) ltac:(by left)) as [Hb _]. split; [done|]. cbn. split; [|done].
    apply (ok_owned _ _ _ _ _ _ _ Hok). rewrite owned_cons, Hg, Hh, Hslot. by left.
  - intros c s' _ [?|[?|[]%Hw]]; auto.
Qed.

Lemma refs_ok_more cs cs' r : refs_ok cs r -> refs_ok (cs ++ cs') r.
Proof.
  unfold refs_ok, next_ok. rewrite length_app. intros [Hb Hp]. split; [destruct (run_body r); [done|lia]|].
  destruct (progress r) as [|ch i k|ch n|ch|rc att|v]; try done; try lia.
  - destruct Hp as [(s & Hs & Hi) Hk]. split; [exists s; split; [by apply lookup_app_l_Some|done]|].
    destruct k; try done; lia.
  - destruct Hp as [? ?]. split; [lia|done].
Qed.

(** A new channel for a new attempt. *)
Lemma body_ok_reset tk rs o cs :
  ok tk rs o cs -> state_receiver o = None -> replayable = true ->
  ok (option_list (state_sender o) ++ tk) rs
    {| state_sender := Some (length cs); state_receiver := Some (length cs) |} (cs ++ [Upload.initial timeout]).
Proof.
  intros [Hreach Hrecv Howned Hidle Hsender Honce Hrefs Hclosing] Hrc Hrep.
  set (o' := {| state_sender := _; state_receiver := _ |}).
  assert (Hslot : owned rs o' ≡ₚ length cs :: owned rs o).
  { unfold owned, unclaimed, slot. rewrite Hrc. cbn. solve_Permutation. }
  assert (Hnew : forall c s, (cs ++ [Upload.initial timeout]) !! c = Some s ->
    cs !! c = Some s \/ c = length cs /\ s = Upload.initial timeout).
  { intros c s [?|[? [? ?]%list_lookup_singleton_Some]]%lookup_app_Some; [by left|right; split; [lia|done]]. }
  split.
  - intros c s [?|[_ ->]]%Hnew; [eauto|apply rtc_refl].
  - rewrite Hslot. apply NoDup_cons. split; [|done]. intros Hin%Howned. lia.
  - intros c. rewrite Hslot, length_app, elem_of_cons. cbn. intros [->|Hc%Howned]; lia.
  - intros c s Hin [Hs|[_ ->]]%Hnew; [|done]. eapply Hidle; [|exact Hs].
    unfold unclaimed, slot in *. rewrite Hrc. cbn -[elem_of] in *. rewrite elem_of_app in *. destruct Hin as [?|Hin%list_elem_of_singleton]; [by left|].
    subst c. apply lookup_lt_Some in Hs. lia.
  - intros c [= <-]. rewrite length_app. cbn. lia.
  - by rewrite Hrep.
  - intros r Hr. by apply refs_ok_more, Hrefs.
  - intros c s Hno [Hs|[-> ->]]%Hnew; [|by left]. right. rewrite elem_of_app.
    destruct (Hclosing c s Hno Hs) as [->|?]; [left; left; by left|tauto].
Qed.

(** ** The methods *)

Definition plain (p : Progress) : Prop := given p = [] /\ held p = [] /\ forall c, ~ will_finish c p.

(** A step of the call [r], from progress [p], keeps what holds. *)
Definition step_ok (tk : list nat) (r : Running) (p : Progress) (rest : list Running) (w : World) (x : Progress * World) : Prop :=
  ok tk ((r <| progress := p |>) :: rest) (owner w) (channels w) ->
  ok [] ((r <| progress := fst x |>) :: rest) (owner (snd x)) (channels (snd x)) /\ calls (snd x) = calls w.

Lemma step_ok_progress r p p' rest w : plain p -> given p' = [] -> held p' = [] ->
  (ok [] ((r <| progress := p |>) :: rest) (owner w) (channels w) -> refs_ok (channels w) (r <| progress := p' |>)) ->
  step_ok [] r p rest w (p', w).
Proof.
  intros (Hg & Hh & Hw) Hg' Hh' Hr Hok. split; [|done]. apply (body_ok_progress [] r p p'); [done| | |by apply Hr|done].
  - exists []. by rewrite Hg, Hh, Hg', Hh'.
  - rewrite Hh'. by intros c ?%elem_of_nil.
Qed.

Lemma step_ok_return r p rest w v : plain p -> given (Returned v) = [] -> step_ok [] r p rest w (Returned v, w).
Proof.
  intros Hp Hv. apply step_ok_progress; [done|done|done|]. intros Hok.
  destruct (ok_refs _ _ _ _ _ _ _ Hok (r <| progress := p |>) ltac:(by left)) as [Hb _]. by split.
Qed.

Lemma step_ok_call tk r p rest w ch t k : plain p -> producer_call t -> held (OnChannel ch 0 k) = [] ->
  (ok tk ((r <| progress := p |>) :: rest) (owner w) (channels w) -> (ch < length (channels w))%nat) ->
  next_ok (channels w) (run_call r) k ->
  (forall c, c ∈ tk -> c = ch /\ (t = Finishing \/ t = Closing \/ k = FinishAfter)) ->
  step_ok tk r p rest w (on_channel ch t k w).
Proof.
  intros (Hg & Hh & Hw) Ht Hk Hch Hn Hc Hok. split; [|done]. eapply body_ok_call; [done|done|by apply Hch|done|by rewrite Hh|done|].
  intros c [Hin|[]%Hw]. right. by apply Hc.
Qed.

Lemma sender_exists tk r p rest w ch :
  ok tk ((r <| progress := p |>) :: rest) (owner w) (channels w) -> sender (run_body r) w = Some ch -> (ch < length (channels w))%nat.
Proof.
  intros Hok Hs. destruct (ok_refs _ _ _ _ _ _ _ Hok (r <| progress := p |>) ltac:(by left)) as [Hb _]. cbn in Hb.
  unfold sender in Hs. destruct (run_body r); [by eapply ok_sender|congruence].
Qed.

Lemma step_ok_send_item finish blocking item r p rest w : plain p ->
  step_ok [] r p rest w (send_item finish blocking item (run_body r) w).
Proof.
  intros Hp. unfold send_item. destruct (sender _ w) as [ch|] eqn:Hs; [|by apply step_ok_return].
  apply step_ok_call; try done; [|by intros c ?%elem_of_nil]. intros Hok. by eapply sender_exists.
Qed.

Lemma step_ok_read negated r p rest w : plain p ->
  step_ok [] r p rest w match sender (run_body r) w with
                        | None => (Returned (Bool (negb negated)), w)
                        | Some ch => (ToRead ch negated, w)
                        end.
Proof.
  intros Hp. destruct (sender _ w) as [ch|] eqn:Hs; [|by apply step_ok_return].
  apply step_ok_progress; [done|done|done|]. intros Hok.
  destruct (ok_refs _ _ _ _ _ _ _ Hok (r <| progress := p |>) ltac:(by left)) as [Hb _].
  split; [done|]. cbn. by eapply sender_exists.
Qed.

(** Taking the sender and using it for an operation that ends the channel. *)
Lemma step_ok_take t k v r p rest w : plain p -> producer_call t -> held (OnChannel 0 0 k) = [] ->
  given (Returned v) = [] -> next_ok (channels w) (run_call r) k -> t = Finishing \/ t = Closing \/ k = FinishAfter ->
  step_ok [] r p rest w (let (s, w) := take_sender (run_body r) w in
                         match s with None => (Returned v, w) | Some ch => on_channel ch t k w end).
Proof.
  intros Hp Ht Hk Hv Hn Hend Hok. unfold take_sender. destruct (run_body r) as [|ch] eqn:Hbody.
  - pose proof (body_ok_take_sender _ _ _ _ Hok) as Htaken.
    set (w1 := w <| owner ::= _ |>). destruct (state_sender (owner w)) as [ch|] eqn:Hs; cbn [option_list app] in Htaken.
    + apply (step_ok_call [ch] r p rest w1 ch t k); try done.
      * intros _. change (channels w1) with (channels w). by apply (ok_sender _ _ _ _ _ _ _ Hok).
      * intros c ->%list_elem_of_singleton. done.
    + by apply (step_ok_return r p rest w1 v).
  - apply (step_ok_call [] r p rest w ch t k); try done; [|by intros c ?%elem_of_nil].
    intros Hok'. eapply sender_exists; [exact Hok'|]. by rewrite Hbody.
Qed.

Lemma step_ok_finish_with k v r p rest w : plain p -> held (OnChannel 0 0 k) = [] -> given (Returned v) = [] ->
  next_ok (channels w) (run_call r) k -> step_ok [] r p rest w (finish_with k v (run_body r) w).
Proof. intros. apply step_ok_take; try done. by left. Qed.

Lemma step_ok_take_slots previous r p rest w : plain p ->
  (forall c, previous = Some c -> (c < length (channels w))%nat /\ state_sender (owner w) <> None /\ state_receiver (owner w) <> None) ->
  step_ok (option_list previous) r p rest w (take_slots previous w).
Proof.
  intros Hp Hprev Hok. destruct Hp as (Hg & Hh & Hw). unfold take_slots.
  destruct (state_receiver (owner w)) as [rc|] eqn:Hrc.
  2: { destruct previous as [c|]; [by destruct (Hprev c eq_refl) as (_ & _ & [])|]. by apply (step_ok_return r p rest w). }
  assert (Hrclt : (rc < length (channels w))%nat).
  { apply (ok_owned _ _ _ _ _ _ _ Hok). unfold owned, unclaimed, slot. rewrite Hrc, !elem_of_app. right. right. by left. }
  cbn. destruct (state_sender (owner w)) as [att|] eqn:Hs.
  - pose proof (body_ok_take_slot _ _ _ _ _ _ rc att Hok Hg Hh Hw Hrc ltac:(by apply (ok_sender _ _ _ _ _ _ _ Hok))) as Htaken.
    destruct previous as [c|]; [|split; [exact Htaken|done]]. split; [|done].
    apply (body_ok_call [c] [] _ (ToStart rc att)); try done; [by apply Hprev| |].
    + split; [done|]. by apply (ok_sender _ _ _ _ _ _ _ Hok).
    + intros d [->%list_elem_of_singleton|[i [=]]]. auto.
  - destruct previous as [c|]; [by destruct (Hprev c eq_refl) as (_ & [] & _)|]. split; [|done].
    apply (body_ok_drop [] _ (ToStart rc rc)); [by apply (body_ok_take_slot _ _ p)|done|done|by intros c [i [=]]].
Qed.

Lemma step_ok_take_receiver body r p rest w : plain p ->
  step_ok [] r p rest w (take_receiver replayable timeout body w).
Proof.
  intros Hp Hok. unfold take_receiver. destruct body as [|ch]; [|by apply (step_ok_return r p rest w)].
  destruct (state_receiver (owner w)) as [rc|] eqn:Hrc; [by apply (step_ok_take_slots None r p rest w Hp)|].
  destruct (negb replayable) eqn:Hrep; [by apply (step_ok_return r p rest w)|]. apply negb_false_iff in Hrep.
  cbn [reset_channel]. pose proof (body_ok_reset _ _ _ _ Hok Hrc Hrep) as Hreset. rewrite app_nil_r in Hreset.
  refine (step_ok_take_slots (state_sender (owner w)) r p rest (snd (reset_channel timeout w)) Hp _ Hreset). cbn. intros c Hc. split; [|done].
  rewrite length_app. pose proof (ok_sender _ _ _ _ _ _ _ Hok c Hc). lia.
Qed.

Lemma step_ok_drop rc e r p rest w : given p = [] -> held p = [rc] -> (forall c, ~ will_finish c p) ->
  step_ok [] r p rest w (drop_receiver rc e w).
Proof. intros Hg Hh Hw Hok. split; [by apply (body_ok_drop [] r p)|done]. Qed.

Lemma step_ok_start answer rc att r rest w :
  step_ok [] r (ToStart rc att) rest w (start content_length answer rc att w).
Proof.
  intros Hok. destruct (ok_refs _ _ _ _ _ _ _ Hok (r <| progress := ToStart rc att |>) ltac:(by left)) as (Hb & Hrc & Hatt).
  assert (Hw : forall c, ~ will_finish c (ToStart rc att)) by (by intros c [i [=]]).
  destruct answer as [|e|e].
  - split; [|done]. apply (body_ok_progress [] _ (ToStart rc att)); [done|by exists []| |by split|done]. by intros c ?%elem_of_nil.
  - by apply (step_ok_drop rc e r (ToStart rc att)).
  - split; [|done]. apply (body_ok_call [] [] _ (ToStart rc att)); try done. by intros c [?%elem_of_nil|[]%Hw].
Qed.

Lemma step_ok_resume ch i k result r rest w :
  step_ok [] r (OnChannel ch i k) rest w (resume ch k result w).
Proof.
  intros Hok. destruct (ok_refs _ _ _ _ _ _ _ Hok (r <| progress := OnChannel ch i k |>) ltac:(by left)) as (Hb & (s & Hs & Hi) & Hk).
  assert (Hplain : held (OnChannel ch i k) = [] -> k <> FinishAfter -> plain (OnChannel ch i k)).
  { intros Hh Hf. split_and!; [done|done|]. by intros c [j [=]]. }
  destruct k as [| | | | |rc att|rc e|e]; cbn [resume];
    try match goal with |- context [(Returned ?v, w)] =>
          exact (step_ok_return r _ rest w v (Hplain eq_refl ltac:(done)) eq_refl Hok) end.
  - split; [|done]. apply (body_ok_call [] [] _ (OnChannel ch i FinishAfter)); try done; [by apply lookup_lt_Some in Hs|].
    intros c [?%elem_of_nil|[j [= <- _]]]; [done|]. auto.
  - destruct result; try match goal with |- context [(Returned ?v, w)] =>
          exact (step_ok_return r _ rest w v (Hplain eq_refl ltac:(done)) eq_refl Hok) end.
    apply (step_ok_progress r (OnChannel ch i FailedNowait)); [by apply Hplain|done|done| |exact Hok].
    intros _. split; [done|]. split; [by apply lookup_lt_Some in Hs|done].
  - split; [|done]. apply (body_ok_progress [] _ (OnChannel ch i (StartAttempt rc att))); [done|by exists []|done| |by intros c [j [=]]].
    by split.
  - apply (step_ok_drop rc e r (OnChannel ch i (DropThenRaise rc e))); [done|done|by intros c [j [=]]|exact Hok].
Qed.

Lemma call_step_ok answer r rest w p w' :
  ok [] (r :: rest) (owner w) (channels w) ->
  call_step content_length replayable timeout answer r w = Some (p, w') ->
  ok [] ((r <| progress := p |>) :: rest) (owner w') (channels w') /\ calls w' = calls w.
Proof.
  intros Hok. assert (Hr : r = r <| progress := progress r |>) by (by destruct r). rewrite Hr in Hok.
  assert (Hbegun : plain Begun) by (split_and!; [done|done|by intros c [i [=]]]).
  unfold call_step. destruct (progress r) as [|ch i k|ch n|ch|rc att|v].
  - intros [= Hx]. enough (Hs : step_ok [] r Begun rest w (begin replayable timeout (run_call r) (run_body r) w))
      by (rewrite Hx in Hs; by apply Hs).
    destruct (run_call r) as [[]|[]|[]|[]| | |m|m| |] eqn:Hc; cbn [begin send send_final send_nowait send_final_nowait].
    all: try by apply step_ok_send_item.
    all: try by apply (step_ok_read true).
    all: try by apply step_ok_finish_with.
    + by apply (step_ok_read false).
    + apply step_ok_take; try done. auto.
    + unfold fail_nowait. destruct (sender _ w) as [ch|] eqn:Hs; [|by apply step_ok_return].
      apply step_ok_call; try done; [|rewrite Hc; by eexists|by intros c ?%elem_of_nil]. intros Hok'. by eapply sender_exists.
    + apply step_ok_take; try done. auto.
    + by apply step_ok_take_receiver.
  - destruct (channels w !! ch) as [s|]; [|done]. cbn. destruct (senders s !! i) as [[]|]; try done. intros [= Hx].
    pose proof (step_ok_resume ch i k r0 r rest w) as Hs. rewrite Hx in Hs. by apply Hs.
  - destruct (channels w !! ch) as [s|]; [|done]. cbn. destruct (channel_locked _); [done|]. intros [= <- <-].
    refine (step_ok_return r (ToRead ch n) rest w (Bool _) _ eq_refl Hok). split_and!; [done|done|by intros c [i [=]]].
  - destruct (ok_refs _ _ _ _ _ _ _ Hok (r <| progress := ToTake ch |>) ltac:(by left)) as (Hb & Hch & m & Hm).
    destruct (take_sender (run_body r) w) as [s1 w1] eqn:Ht. intros [= <- <-].
    assert (Hok1 : ok [] ((r <| progress := ToTake ch |>) :: rest) (owner w1) (channels w1) /\ calls w1 = calls w /\ channels w1 = channels w).
    { unfold take_sender in Ht. destruct (run_body r) as [|c] eqn:Hbody; injection Ht as <- <-; [|done].
      split; [|done]. eapply body_ok_racing; [by left| |apply (body_ok_take_sender _ _ _ _ Hok)]. split; [done|by exists m]. }
    destruct Hok1 as (Hok1 & <- & Hcs). rewrite <- Hcs in Hch. 
    refine (step_ok_call [] r (ToTake ch) rest w1 ch Finishing ReturnTrue _ I eq_refl (fun _ => Hch) I _ Hok1);
      [split_and!; [done|done|by intros c [i [=]]]|by intros c ?%elem_of_nil].
  - intros [= Hx]. pose proof (step_ok_start answer rc att r rest w) as Hs. rewrite Hx in Hs. by apply Hs.
  - done.
Qed.

(** ** Every reachable world *)

Definition world_ok (w : World) : Prop := ok [] (calls w) (owner w) (channels w).

Lemma replace_member {A} (l : list A) i x : l !! i = Some x ->
  exists rest, l ≡ₚ x :: rest /\ forall y, <[i := y]> l ≡ₚ y :: rest.
Proof.
  intros Hi. exists (take i l ++ drop (S i) l). split; [by rewrite <- (take_drop_middle l i x Hi) at 1; rewrite Permutation_middle|].
  intros y. rewrite insert_take_drop by (by eapply lookup_lt_Some). by rewrite Permutation_middle.
Qed.

Lemma body_ok_begin rs o cs body c : ok [] rs o cs ->
  match body with Owner => True | Attempt ch => (ch < length cs)%nat end ->
  ok [] ({| run_body := body; run_call := c; progress := Begun |} :: rs) o cs.
Proof.
  intros [] Hb. split; try done.
  - intros r [->|Hr]%elem_of_cons; [by split|auto].
  - intros ch s Hno Hs. destruct (ok_closing0 ch s) as [?|[?|[?|(r & Hr & ?)]]]; auto.
    + intros r Hr. apply Hno. by right.
    + right; right; right. exists r. split; [by right|done].
Qed.

Lemma body_ok_channel rs o cs ch s s' :
  ok [] rs o cs -> cs !! ch = Some s -> system_step UPLOAD_BODY_CHANNEL_CAPACITY (wire_content_length content_length) s s' ->
  (ch ∈ (rs ≫= fun r => given (progress r)) \/ unread s s') -> ok [] rs o (<[ch := s']> cs).
Proof.
  intros [Hreach Hrecv Howned Hidle Hsender Honce Hrefs Hclosing] Hch Hstep Hread.
  assert (Hlt : (ch < length cs)%nat) by (by eapply lookup_lt_Some).
  assert (Hnew : forall c x, <[ch := s']> cs !! c = Some x -> c = ch /\ x = s' \/ c <> ch /\ cs !! c = Some x).
  { intros c x. destruct (decide (c = ch)) as [->|Hne].
    - rewrite list_lookup_insert_eq by done. intros [= <-]. by left.
    - rewrite list_lookup_insert_ne by done. by right. }
  split; rewrite ?length_insert; try done.
  - intros c x [[-> ->]|[_ ?]]%Hnew; [|eauto]. eapply rtc_r; [by apply (Hreach ch s)|done].
  - intros c x Hin [[-> ->]|[_ ?]]%Hnew; [|by eapply Hidle]. destruct Hread as [Hg|(-> & _)]; [|by apply (Hidle ch s)].
    apply NoDup_app in Hrecv as (_ & Hnot & _). by destruct (Hnot ch Hg).
  - intros r Hr. specialize (Hrefs r Hr). revert Hrefs. unfold refs_ok, next_ok. rewrite length_insert.
    intros [Hb Hp]. split; [done|]. destruct (progress r) as [|c i k| | | |]; try done. destruct Hp as [(x & Hx & Hi) Hk].
    split; [|done]. destruct (decide (c = ch)) as [->|Hne].
    + exists s'. rewrite list_lookup_insert_eq by done. split; [done|]. pose proof (senders_grow _ _ _ _ Hstep).
      assert (x = s) as -> by congruence. lia.
    + exists x. by rewrite list_lookup_insert_ne by done.
  - intros c x Hno [[-> ->]|[_ ?]]%Hnew; [|by apply Hclosing].
    destruct (Hclosing ch s Hno Hch) as [?|[?|[?|?]]]; auto. right; right; left. by eapply closing_step.
Qed.

Lemma world_step_body_ok w w' : world_ok w -> world_step content_length replayable timeout w w' -> world_ok w'.
Proof.
  intros Hok [body c Hb|i r answer p w1 Hi Hstep|ch s s' Hch Hstep _ Hread]; unfold world_ok in *; cbn.
  - eapply body_ok_perm; [apply Permutation_cons_append|]. by apply body_ok_begin.
  - destruct (replace_member _ _ _ Hi) as (rest & Hp & Hp').
    destruct (call_step_ok answer r rest w p w1) as [Hok1 ->]; [by eapply body_ok_perm|done|].
    eapply body_ok_perm; [symmetry; apply Hp'|done].
  - by eapply body_ok_channel.
Qed.

Lemma new_body_ok : world_ok (new_body timeout).
Proof.
  split; cbn.
  - intros [|c] s; [|done]. intros [= <-]. apply rtc_refl.
  - apply NoDup_singleton.
  - intros c ->%list_elem_of_singleton. lia.
  - intros c s ->%list_elem_of_singleton [= <-]. done.
  - intros c [= <-]. lia.
  - done.
  - by intros r ?%elem_of_nil.
  - intros [|c] s _; [|done]. by left.
Qed.

Lemma body_reachable_ok w : body_reachable content_length replayable timeout w -> world_ok w.
Proof.
  apply (rtc_ind_r world_ok (new_body timeout)); [apply new_body_ok|]. intros w1 w2 _ Hs Hok. by eapply world_step_body_ok.
Qed.

(** No call is under way. *)
Definition quiet (w : World) : Prop :=
  (forall r, r ∈ calls w -> exists v, progress r = Returned v) /\
  (forall c s t, channels w !! c = Some s -> t ∈ senders s -> exists r, t = Done r).

(** C20: the attempts to send one streamed body stay apart, however the calls of producers,
    of the transport and of the client interleave on the owner and on the attempts' bodies:
    no receiver is given out twice, a body that cannot be replayed is given out at most
    once, and what the transport reports complete on any attempt's channel is that channel's
    data, whole and in order.  While nobody calls [fail_nowait] on the owner (the package
    calls it on the bodies of attempts only), every channel but the one the owner still
    writes to is closed as soon as the calls have returned, so that no producer of an
    earlier attempt goes on. *)
Theorem attempts_separate w : body_reachable content_length replayable timeout w ->
  NoDup (handed_out w) /\
  (replayable = false -> (length (handed_out w) <= 1)%nat) /\
  (forall c s, channels w !! c = Some s -> small s -> reported s = true -> uploaded (wire_content_length content_length) s) /\
  ((forall r, r ∈ calls w -> ~ owner_fail_nowait r) -> quiet w ->
     forall c s, channels w !! c = Some s -> state_sender (owner w) <> Some c -> closed (shared s) = true).
Proof.
  intros Hw. pose proof (body_reachable_ok w Hw) as Hok. pose proof (ok_receivers _ _ _ _ _ _ _ Hok) as Hrecv.
  unfold owned in Hrecv. apply NoDup_app in Hrecv as (Hgiven & _ & _). split_and!; [done| | |].
  - intros Hrep. change 1%nat with (length [0%nat]). apply submseteq_length, NoDup_submseteq; [done|].
    intros c Hc. assert (Hlt : (c < length (channels w))%nat).
    { apply (ok_owned _ _ _ _ _ _ _ Hok). unfold owned. rewrite elem_of_app. by left. }
    rewrite (ok_once _ _ _ _ _ _ _ Hok Hrep) in Hlt. assert (c = 0%nat) as -> by lia. by left.
  - intros c s Hc Hsmall Hrep. pose proof (ok_reachable _ _ _ _ _ _ _ Hok c s Hc) as Hr.
    destruct (Upload.reachable_ok _ _ _ _ Hr Hsmall) as [_ []]. auto.
  - intros Hno [Hret Hdone] c s Hc Hs. destruct (ok_closing _ _ _ _ _ _ _ Hok c s Hno Hc) as [?|[?%elem_of_nil|[[?|Hin]|(r & Hr & i & Hp)]]]; try done.
    + exfalso. destruct Hin as [Hin|Hin]; by destruct (Hdone _ _ _ Hc Hin).
    + destruct (Hret r Hr) as [v Hv]. congruence.
Qed.

Lemma some_capacity : (0 < UPLOAD_BODY_CHANNEL_CAPACITY)%nat.
Proof. unfold UPLOAD_BODY_CHANNEL_CAPACITY. lia. Qed.

(** The transport of a channel rests, or has not begun and the channel has room; its
    producers have returned or wait. *)
Definition asleep (s : System) : Prop :=
  (forall t, t ∈ senders s -> resting t = true) /\
  (transport_rests s \/ phase s = Idle /\ (length (queue (shared s)) < UPLOAD_BODY_CHANNEL_CAPACITY)%nat).

(** C21: no call hangs on a transport that sleeps: when every channel is at rest - its
    transport parked without a wakeup or gone, or not begun while there is room - and no
    call can go on, every call on the owner and on any attempt's body has returned. *)
Theorem upload_calls_return w : body_reachable content_length replayable timeout w ->
  (forall c s, channels w !! c = Some s -> small s /\ asleep s) ->
  (forall r answer, r ∈ calls w -> call_step content_length replayable timeout answer r w = None) ->
  forall r, r ∈ calls w -> exists v, progress r = Returned v.
Proof.
  intros Hw Hasleep Hstuck r Hr. pose proof (body_reachable_ok w Hw) as Hok.
  specialize (Hstuck r Started Hr). unfold call_step in Hstuck.
  destruct (ok_refs _ _ _ _ _ _ _ Hok r Hr) as [_ Hrefs]. destruct (progress r) as [|ch i k|ch n|ch|rc att|v]; try done.
  - destruct Hrefs as [(s & Hs & Hi) _]. rewrite Hs in Hstuck. cbn in Hstuck. destruct (Hasleep ch s Hs) as [Hsmall [Hrest Hph]].
    destruct (lookup_lt_is_Some_2 _ _ Hi) as [t Ht]. assert (Hin : t ∈ senders s) by (by eapply list_elem_of_lookup_2).
    pose proof (no_producer_waits _ _ _ _ some_capacity (ok_reachable _ _ _ _ _ _ _ Hok ch s Hs)
      Hsmall Hrest Hph t Hin) as Hnw. specialize (Hrest t Hin). rewrite Ht in Hstuck. by destruct t.
  - destruct (lookup_lt_is_Some_2 _ _ Hrefs) as [s Hs]. rewrite Hs in Hstuck. cbn in Hstuck.
    destruct (Hasleep ch s Hs) as [Hsmall [Hrest _]].
    destruct (Upload.reachable_ok _ _ _ _ (ok_reachable _ _ _ _ _ _ _ Hok ch s Hs) Hsmall) as [Hch _].
    by rewrite (resting_unlocked _ _ Hch Hrest) in Hstuck.
  - by destruct (take_sender _ _) in Hstuck.
  - by exists v.
Qed.
End body_ok.

(** ** A run *)

(** [OnSystem] moves a channel: any of its producers, its transport once it is given out. *)
Inductive BodyMove :=
| Begin (body : RawUploadBody) (c : Call)
| RunCall (i : nat) (answer : StartAnswer)
| OnSystem (ch : nat) (m : Upload.Move).

Definition gone (s : System) : bool := match phase s with Gone => true | _ => false end.
Definition by_producer (m : Upload.Move) : bool := match m with Upload.Run _ => true | _ => false end.

Section moves.
Context (content_length : option Z) (replayable : bool) (timeout : option Z).

Definition body_move (m : BodyMove) (w : World) : option World :=
  match m with
  | Begin body c =>
      if match body with Owner => true | Attempt ch => (ch <? length (channels w))%nat end
      then Some (w <| calls ::= fun l => l ++ [{| run_body := body; run_call := c; progress := Begun |}] |>) else None
  | RunCall i answer =>
      r ← calls w !! i;
      '(p, w') ← call_step content_length replayable timeout answer r w;
      Some (w' <| calls ::= <[i := r <| progress := p |>]> |>)
  | OnSystem ch m =>
      s ← channels w !! ch;
      s' ← Upload.move UPLOAD_BODY_CHANNEL_CAPACITY (wire_content_length content_length) m s;
      if ((length (senders s') =? length (senders s))%nat || negb (gone s) && gone s') &&
         (bool_decide (ch ∈ handed_out w) || by_producer m)
      then Some (w <| channels ::= <[ch := s']> |>) else None
  end.

Fixpoint body_moves (ms : list BodyMove) (w : World) : option World :=
  match ms with [] => Some w | m :: ms => w ← body_move m w; body_moves ms w end.

Lemma body_move_step m w w' : body_move m w = Some w' -> world_step content_length replayable timeout w w'.
Proof.
  destruct m as [body c|i answer|ch m]; cbn [body_move].
  - destruct (match body with Owner => _ | _ => _ end) eqn:Hb; [|done]. intros [= <-]. apply step_begin.
    destruct body; [done|]. by apply Nat.ltb_lt in Hb.
  - destruct (calls w !! i) as [r|] eqn:Hi; [|done]. cbn.
    destruct (call_step _ _ _ _ _ _) as [[p w1]|] eqn:Hs; [|done]. intros [= <-]. by eapply step_run.
  - destruct (channels w !! ch) as [s|] eqn:Hch; [|done]. cbn. destruct (Upload.move _ _ _ _) as [s'|] eqn:Hm; [|done]. cbn.
    destruct (_ && _) eqn:Hb; [|done]. intros [= <-]. apply andb_true_iff in Hb as [Hlen Hread].
    eapply step_channel; [exact Hch|by eapply move_step| |].
    + apply orb_true_iff in Hlen as [?%Nat.eqb_eq|[Hg Hg']%andb_true_iff]; [by left|right].
      unfold gone in *. by destruct (phase s), (phase s').
    + apply orb_true_iff in Hread as [?%bool_decide_eq_true|Hrun]; [by left|right]. destruct m; try done. cbn in Hm.
      destruct (senders s !! i) as [t|]; [|done]. cbn in Hm. destruct (sender_step _ _ _) as [[[t' sh] g]|]; [|done].
      by injection Hm as <-.
Qed.

Lemma body_moves_reachable ms w w' : body_reachable content_length replayable timeout w -> body_moves ms w = Some w' ->
  body_reachable content_length replayable timeout w'.
Proof.
  revert w. induction ms as [|m ms IH]; cbn; intros w Hw Hm; [by injection Hm as <-|].
  destruct (body_move m w) as [w1|] eqn:Hw1; [|done]. eapply IH; [|exact Hm]. eapply rtc_r; [exact Hw|by eapply body_move_step].
Qed.
End moves.

Definition producer_runs (ch i n : nat) : list BodyMove := repeat (OnSystem ch (Upload.Run i)) n.

(** A first attempt gets a chunk and is given up; the second is sent whole. *)
Definition sample_body_moves : list BodyMove :=
  [Begin Owner TakeReceiver; RunCall 0 Started; RunCall 0 Started; Begin (Attempt 0) (Send [1]); RunCall 1 Started] ++
  producer_runs 0 0 6 ++
  [RunCall 1 Started; Begin Owner TakeReceiver; RunCall 2 Started] ++ producer_runs 0 1 3 ++
  [RunCall 2 Started; RunCall 2 Started; Begin (Attempt 1) (SendFinal [2]); RunCall 3 Started] ++ producer_runs 1 0 6 ++
  [RunCall 3 Started] ++
  (OnSystem 1 <$> [Poll 0; Deliver; Deliver; Poll 1; Deliver; Consume; Flush; CheckFirst; CheckRest]).

Definition sample_body : World := default (new_body None) (body_moves (Some 1) true None sample_body_moves (new_body None)).

Lemma sample_body_reachable : body_reachable (Some 1) true None sample_body.
Proof.
  unfold sample_body. destruct (body_moves _ _ _ _ _) as [w|] eqn:Hw; [|by apply rtc_refl].
  eapply body_moves_reachable; [apply rtc_refl|exact Hw].
Qed.

Lemma sample_body_quiet : quiet sample_body.
Proof.
  split.
  - assert (Hall : Forall (fun r => exists v, progress r = Returned v) (calls sample_body)) by (vm_compute; repeat constructor; eauto).
    by rewrite Forall_forall in Hall.
  - intros c s t Hs Ht. assert (Hall : Forall (fun s => Forall (fun t => exists r, t = Done r) (senders s)) (channels sample_body))
      by (vm_compute; repeat constructor; eauto).
    rewrite Forall_lookup in Hall. specialize (Hall c s Hs). rewrite Forall_forall in Hall. by apply Hall.
Qed.

Definition rests (s : System) : bool :=
  (Z.of_nat (length (pushed (shared s))) <? USIZE_MAX) && (total_bytes (chunks (pushed (shared s))) <? U64_MAX) &&
  forallb resting (senders s) && match phase s, queue (shared s) with Idle, [] => true | _, _ => false end.

Lemma rests_asleep s : rests s = true -> small s /\ asleep s.
Proof.
  unfold rests, small, asleep. intros [[[H1%Z.ltb_lt H2%Z.ltb_lt]%andb_true_iff H3]%andb_true_iff H4]%andb_true_iff.
  rewrite forallb_forall in H3. split; [done|]. split; [intros t Ht; by apply H3, list_elem_of_In|]. right.
  destruct (phase s); try done. destruct (queue (shared s)); [|done]. split; [done|apply some_capacity].
Qed.

Lemma attempts_separate_witness :
  handed_out sample_body = [0; 1]%nat /\
  (exists s, channels sample_body !! 0%nat = Some s /\ closed (shared s) = true) /\
  exists s, channels sample_body !! 1%nat = Some s /\ uploaded (Some 1) s.
Proof.
  destruct (attempts_separate (Some 1) true None sample_body sample_body_reachable) as (_ & _ & Hup & Hclosed).
  split; [vm_compute; reflexivity|]. split.
  - destruct (channels sample_body !! 0%nat) as [s|] eqn:Hs; [|vm_compute in Hs; discriminate Hs]. exists s. split; [reflexivity|].
    assert (Hno : Forall (fun r => match run_call r with FailNowait _ => False | _ => True end) (calls sample_body))
      by (vm_compute; repeat constructor).
    rewrite Forall_forall in Hno. apply (Hclosed ltac:(intros r Hr [_ [m Hm]]; specialize (Hno r Hr); rewrite Hm in Hno; exact Hno)
      sample_body_quiet 0%nat s Hs). vm_compute. discriminate.
  - destruct (channels sample_body !! 1%nat) as [s|] eqn:Hs; [|vm_compute in Hs; discriminate Hs]. exists s. split; [reflexivity|].
    apply (Hup 1%nat s Hs); vm_compute in Hs; injection Hs as <-; [split; vm_compute; reflexivity|reflexivity].
Defined.

Lemma upload_calls_return_witness : exists r, calls sample_body !! 2%nat = Some r /\ exists v, progress r = Returned v.
Proof.
  destruct (calls sample_body !! 2%nat) as [r|] eqn:Hr; [|vm_compute in Hr; discriminate Hr]. exists r. split; [reflexivity|].
  apply (upload_calls_return (Some 1) true None sample_body sample_body_reachable).
  - intros c s Hs. apply rests_asleep. assert (Hall : forallb rests (channels sample_body) = true) by (vm_compute; reflexivity).
    rewrite forallb_forall in Hall. apply Hall, list_elem_of_In. eapply list_elem_of_lookup_2. exact Hs.
  - intros q answer Hq. destruct (proj1 sample_body_quiet q Hq) as [v Hv]. unfold call_step. rewrite Hv. reflexivity.
  - eapply list_elem_of_lookup_2. exact Hr.
Defined.
