(* ===== verification/ResponseRead.v ===== *)
(** * Reading a response

    [src/src/py/client/transport/{body,response,context}.rs]: a response is drained,
    collected and decoded, or handed over as a stream; whatever happens, the use of its
    connection and the lifecycle of its body end once.

    hyper's body and tokio's timeouts are what each wait for a frame ends with ([Wait]); a
    list of waits that ends before the body does is a future dropped while it waits.  Other
    responses change the byte counter during a wait. *)

From stdpp Require Import pretty.
From S2P Require Import Prelude RustStr Atomics Http Numeric Telemetry Body Errors.
From S2P Require Metrics Connection Streaming StreamState.
Import Connection(ConnectionAbortReason(..), RequestWriteTimeout).
Import Metrics(Metrics, buffered_response_bytes).
Import Streaming(StreamCodecs, StreamDecodeError(..), StreamingDecodePlan, plan_from_headers, is_encoded, reservation_bytes,
  streaming_decoder_new, display_stream_decode_error).
Import StreamState(Effect(..), ResponseBodyLifecycle, lifecycle_finish, lifecycle_drop, Version(..),
  successful_response_body_outcome, DecodedStream, Incoming, reservation_try_new, reservation_drop).
#[local] Existing Instance Metrics.eta_Metrics.
#[local] Existing Instance StreamState.eta_StreamStateFields.

Local Open Scope Z_scope.

(** ** Waiting for a frame *)

Inductive BodyFrame := DataFrame (data : list Z) | TrailersFrame.

Inductive WaitOutcome :=
| WaitReady (frame : option (result BodyFrame string))
| WaitReadElapsed
| WaitTotalElapsed.

(** When a wait begins and ends and how, what the upload's completion then says of a write
    timeout, and what other responses changed of the byte counter. *)
Record Wait := {
  asked : Z;
  answered : Z;
  wait_outcome : WaitOutcome;
  upload_timeout : option RequestWriteTimeout;
  others : Z;
}.

Record RawResponseContext := {
  started : Z;
  total_timeout : f64;
  read_timeout : f64;
  max_response_body_size : option Z;
  buffered_body_budget : BufferedBodyBudget;
  context_origin : string;
  redirect_hop : Z;
}.

Definition total_timeout_context (context : RawResponseContext) : TimeoutContext :=
  {| Errors.phase := PhaseResponseBody; Errors.started := started context; Errors.timeout := total_timeout context;
     Errors.context_origin := context_origin context; Errors.context_redirect_hop := redirect_hop context |}.

Definition read_timeout_context (context : RawResponseContext) (now : Z) : TimeoutContext :=
  {| Errors.phase := PhaseResponseBody; Errors.started := now; Errors.timeout := read_timeout context;
     Errors.context_origin := context_origin context; Errors.context_redirect_hop := redirect_hop context |}.

Definition next_response_body_frame (w : Wait) (context : RawResponseContext) : result (option (result BodyFrame string)) PyErr :=
  let? _ := Errors.remaining_duration "Timeouts.total" (total_timeout_context context) (asked w) in
  match wait_outcome w with
  | WaitReady frame => Ok frame
  | WaitReadElapsed => Err (read_timeout_error (read_timeout_context context (asked w)) RESPONSE_BODY_READ_TIMEOUT (answered w))
  | WaitTotalElapsed => Err (timeout_error (total_timeout_context context) REQUEST_TOTAL_TIMEOUT (answered w))
  end.

(** A future that has its result, or was dropped. *)
Inductive Awaited (A : Type) := Finished (r : result A PyErr) | Dropped.
Arguments Finished {A} r.
Arguments Dropped {A}.

Definition response_body_can_be_decoded (method : string) (status : Z) : bool :=
  negb (eq_ignore_ascii_case method "HEAD") && negb ((100 <=? status) && (status <=? 199)) &&
  negb ((status =? 204) || (status =? 205) || (status =? 304)).

(** The bytes the stream decoders of the client have reserved. *)
Abbreviation decoder_bytes := Metrics.stream_decoder_reserved_bytes.

Section response.
Context `{ContentDecoders} `{HttpCrate} `{StreamCodecs}.

Definition others_change (w : Wait) (m : Metrics) : Metrics :=
  m <| buffered_response_bytes ::= Z.add (others w) |>.

(** An error or a drop of the future drops the collector. *)
Definition drop_collector (c : BufferedBodyCollector) (m : Metrics) : Metrics :=
  drop_reservation (reservation (collected c)) m.

Definition frame_error (completion : bool) (w : Wait) (message : string) : PyErr :=
  response_body_transport_error (if completion then upload_timeout w else None) message.

(** The loop of [collect_response_body]; [completion]: whether there is an upload. *)
Fixpoint collect_frames (waits : list Wait) (context : RawResponseContext) (completion : bool) (c : BufferedBodyCollector)
    (m : Metrics) : Awaited CollectedBody * Metrics :=
  match waits with
  | [] => (Dropped, drop_collector c m)
  | w :: waits =>
      let m := others_change w m in
      match next_response_body_frame w context with
      | Err e => (Finished (Err e), drop_collector c m)
      | Ok None => (Finished (Ok (collected c)), m)
      | Ok (Some (Err message)) => (Finished (Err (frame_error completion w message)), drop_collector c m)
      | Ok (Some (Ok TrailersFrame)) => collect_frames waits context completion c m
      | Ok (Some (Ok (DataFrame data))) =>
          match push_data data c m with
          | (Err e, c, m) => (Finished (Err (response_body_error e)), drop_collector c m)
          | (Ok _, c, m) => collect_frames waits context completion c m
          end
      end
  end.

Definition collect_response_body (upper_size_hint : option Z) (waits : list Wait) (context : RawResponseContext)
    (completion : bool) (m : Metrics) : Awaited CollectedBody * Metrics :=
  match collector_new upper_size_hint (max_response_body_size context) (buffered_body_budget context) with
  | Err e => (Finished (Err (response_body_error e)), m)
  | Ok c => collect_frames waits context completion c m
  end.

Fixpoint drain_response_body (waits : list Wait) (context : RawResponseContext) (completion : bool) (m : Metrics) :
    Awaited unit * Metrics :=
  match waits with
  | [] => (Dropped, m)
  | w :: waits =>
      let m := others_change w m in
      match next_response_body_frame w context with
      | Err e => (Finished (Err e), m)
      | Ok None => (Finished (Ok tt), m)
      | Ok (Some (Err message)) => (Finished (Err (frame_error completion w message)), m)
      | Ok (Some (Ok _)) => drain_response_body waits context completion m
      end
  end.

(** ** The guards of a response *)

(** What the guards do: an effect of a stream, or the connection's guard is dropped. *)
Inductive GuardEffect := Guarded (e : Effect) | ConnectionDropped.

(** The connection's guard, with whether it has the completion of an upload. *)
Record ResponseLifecycleGuards := {
  guard_body : ResponseBodyLifecycle;
  guard_connection : option bool;
  guard_outcome : Metrics.ResponseBodyLifecycleOutcome;
}.
#[export] Instance eta_ResponseLifecycleGuards : Eta ResponseLifecycleGuards := fun g =>
  Build_ResponseLifecycleGuards (guard_body g) (guard_connection g) (guard_outcome g).

Definition guards_new (version : Version) (headers : HeaderMap) (completion : bool) : ResponseLifecycleGuards :=
  {| guard_body := None; guard_connection := Some completion; guard_outcome := successful_response_body_outcome version headers |}.

Definition request_body_completion (g : ResponseLifecycleGuards) : bool := default false (guard_connection g).

Definition finish_connection (g : ResponseLifecycleGuards) : ResponseLifecycleGuards * list GuardEffect :=
  match guard_connection g with
  | Some _ => (g <| guard_connection := None |>, [Guarded (ConnectionFinished (guard_outcome g))])
  | None => (g, [])
  end.

Definition finish_body (g : ResponseLifecycleGuards) : ResponseLifecycleGuards * list GuardEffect :=
  let (l, es) := lifecycle_finish (guard_outcome g) (guard_body g) in (g <| guard_body := l |>, Guarded <$> es).

Definition abort_connection (e : PyErr) (g : ResponseLifecycleGuards) : ResponseLifecycleGuards * list GuardEffect :=
  match guard_connection g with
  | Some _ => (g <| guard_connection := None |>, [Guarded (ConnectionAborted (AbortError (Some (response_body_error_type e))))])
  | None => (g, [])
  end.

(** The fields are dropped in their order. *)
Definition drop_guards (g : ResponseLifecycleGuards) : list GuardEffect :=
  (Guarded <$> lifecycle_drop (guard_body g)) ++ match guard_connection g with Some _ => [ConnectionDropped] | None => [] end.

(** ** Reading to the end *)

(** What the code uses of hyper's response. *)
Record Response := {
  status : Z;
  version : Version;
  response_header_map : HeaderMap;
  size_upper : option Z;
  end_stream : bool;
}.

Record RawRequestInfo := { request_method : string; request_url : string }.

Definition version_debug (v : Version) : string :=
  match v with
  | HTTP_09 => "HTTP/0.9" | HTTP_10 => "HTTP/1.0" | HTTP_11 => "HTTP/1.1" | HTTP_2 => "HTTP/2.0" | HTTP_3 => "HTTP/3.0"
  end.

Record RawResponse := {
  status_code : Z;
  raw_headers : HeaderPairs;
  raw_content : list Z;
  raw_url : string;
  raw_request : RawRequestInfo;
  http_version : string;
  raw_elapsed : f64;
  raw_reservation : BufferedBodyReservation;
}.

Definition read_timeout_of (timeout : f64) : result (option Z) PyErr :=
  map_err (new_err PyValueError) (duration_from_secs "Timeouts.read" timeout).

Definition drain_response (waits : list Wait) (g : ResponseLifecycleGuards) (context : RawResponseContext) (m : Metrics) :
    Awaited unit * Metrics * list GuardEffect :=
  match read_timeout_of (read_timeout context) with
  | Err e => (Finished (Err e), m, drop_guards g)
  | Ok _ =>
      match drain_response_body waits context (request_body_completion g) m with
      | (Dropped, m) => (Dropped, m, drop_guards g)
      | (Finished (Err e), m) => let (g, es) := abort_connection e g in (Finished (Err e), m, es ++ drop_guards g)
      | (Finished (Ok _), m) =>
          let (g, es) := finish_connection g in
          let (g, es') := finish_body g in
          (Finished (Ok tt), m, es ++ es' ++ drop_guards g)
      end
  end.

Definition from_parts (response : Response) (request : RawRequestInfo) (headers : HeaderPairs) (content : list Z)
    (reservation : BufferedBodyReservation) (context : RawResponseContext) (now : Z) : RawResponse :=
  {| status_code := status response; raw_headers := headers; raw_content := content; raw_url := request_url request;
     raw_request := request; http_version := version_debug (version response);
     raw_elapsed := as_secs_f64 (elapsed (started context) now); raw_reservation := reservation |}.

Definition decoding_plan (response : Response) (request : RawRequestInfo) : option ContentCodingPlan :=
  if response_body_can_be_decoded (request_method request) (status response)
  then Some (content_coding_plan (response_header_map response)) else None.

(** The headers, the content and the reservation after decoding. *)
Definition decoded_parts (collected : CollectedBody) (plan : option ContentCodingPlan) (headers : HeaderPairs)
    (context : RawResponseContext) (m : Metrics) : result (HeaderPairs * list Z * BufferedBodyReservation) PyErr * Metrics :=
  match plan with
  | Some plan =>
      match decode_body collected plan (max_response_body_size context) m with
      | (Err e, m) => (Err (response_body_error e), m)
      | (Ok body, m) => (Ok (decoded_response_headers headers (body_decoded body), body_content body, body_reservation body), m)
      end
  | None => (Ok (headers, content collected, reservation collected), m)
  end.

Definition raw_response (response : Response) (waits : list Wait) (request : RawRequestInfo) (headers : HeaderPairs)
    (g : ResponseLifecycleGuards) (context : RawResponseContext) (now : Z) (m : Metrics) :
    Awaited RawResponse * Metrics * list GuardEffect :=
  match read_timeout_of (read_timeout context) with
  | Err e => (Finished (Err e), m, drop_guards g)
  | Ok _ =>
      match collect_response_body (size_upper response) waits context (request_body_completion g) m with
      | (Dropped, m) => (Dropped, m, drop_guards g)
      | (Finished (Err e), m) => let (g, es) := abort_connection e g in (Finished (Err e), m, es ++ drop_guards g)
      | (Finished (Ok collected), m) =>
          let (g, es) := finish_connection g in
          match decoded_parts collected (decoding_plan response request) headers context m with
          | (Err e, m) => (Finished (Err e), m, es ++ drop_guards g)
          | (Ok (headers, content, reservation), m) =>
              let (g, es') := finish_body g in
              (Finished (Ok (from_parts response request headers content reservation context now)), m, es ++ es' ++ drop_guards g)
          end
      end
  end.

(** ** Handing a stream over *)

Record StreamDecodeOptions := { decode_content : bool; max_decoded_bytes : option Z; max_memory_bytes : Z }.

Definition stream_decode_exception (e : StreamDecodeError) : PyErr :=
  match e with
  | StreamTooLarge _ _ _ | StreamCounterOverflow => new_err FogHttpResponseBodyTooLargeError (display_stream_decode_error e)
  | _ => new_err FogHttpResponseDecodingError (display_stream_decode_error e)
  end.

(** [DecodedStream::new], with the bytes it reserves. *)
Definition decoded_stream_new (plan : StreamingDecodePlan) (options : StreamDecodeOptions) (m : Metrics) :
    result (Z * DecodedStream) PyErr * Metrics :=
  match run_action (reservation_try_new (reservation_bytes plan) (max_memory_bytes options)) m with
  | (Err message, m) => (Err (new_err FogHttpResponseBodyBudgetExceededError message), m)
  | (Ok reserved, m) =>
      (Ok (reserved, {| StreamState.decoded_decoder := streaming_decoder_new plan (max_decoded_bytes options);
                        StreamState.decoded_input := [] |}), m)
  end.

Definition PARTIAL_DECODING : string := "content decoding is not supported for compressed 206 responses".

(** The closure that prepares the decoder. *)
Definition prepare_decoding (response : Response) (options : StreamDecodeOptions) (m : Metrics) :
    result (bool * (Z * DecodedStream)) PyErr * Metrics :=
  match plan_from_headers (response_header_map response) with
  | Err e => (Err (stream_decode_exception e), m)
  | Ok plan =>
      if is_encoded plan && (status response =? 206) then (Err (new_err FogHttpResponseDecodingError PARTIAL_DECODING), m)
      else
        match decoded_stream_new plan options m with
        | (Err e, m) => (Err e, m)
        | (Ok stream, m) => (Ok (is_encoded plan, stream), m)
        end
  end.

Record RawStreamResponse := {
  stream_status_code : Z;
  stream_headers : HeaderPairs;
  stream_url : string;
  stream_request : RawRequestInfo;
  stream_http_version : string;
  stream_elapsed : f64;
  stream_fields : StreamState.StreamStateFields;
  stream_read_timeout : option Z;
}.

(** [RawStreamResponse::from_parts]: the guards are the stream's now. *)
Definition stream_of (g : ResponseLifecycleGuards) (incoming : Incoming) (stream : option DecodedStream) : StreamState.StreamStateFields :=
  (StreamState.stream_state_new incoming stream (is_some (guard_connection g)) (guard_outcome g))
    <| StreamState.lifecycle := Some (guard_body g) |>.

Definition raw_stream_response (response : Response) (incoming : Incoming) (request : RawRequestInfo) (headers : HeaderPairs)
    (g : ResponseLifecycleGuards) (options : StreamDecodeOptions) (context : RawResponseContext) (now : Z) (m : Metrics) :
    result RawStreamResponse PyErr * Metrics * list GuardEffect :=
  let decode := decode_content options && response_body_can_be_decoded (request_method request) (status response) in
  match (if decode then let (r, m) := prepare_decoding response options m in
                        (match r with Ok d => Ok (Some d) | Err e => Err e end, m)
         else (Ok None, m)) with
  | (Err e, m) =>
      let (g, es) := if end_stream response then let (g, es) := finish_connection g in let (g, es') := finish_body g in (g, es ++ es')
                     else abort_connection e g in
      (Err e, m, es ++ drop_guards g)
  | (Ok decoded, m) =>
      let headers := decoded_response_headers headers (match decoded with Some (encoded, _) => encoded | None => false end) in
      match read_timeout_of (read_timeout context) with
      | Err e =>
          let m := match decoded with
                   | Some (_, (reserved, _)) => exec (reservation_drop reserved) m
                   | None => m
                   end in
          (Err e, m, match guard_connection g with Some _ => [ConnectionDropped] | None => [] end ++ (Guarded <$> lifecycle_drop (guard_body g)))
      | Ok timeout =>
          (Ok {| stream_status_code := status response; stream_headers := headers; stream_url := request_url request;
                 stream_request := request; stream_http_version := version_debug (version response);
                 stream_elapsed := as_secs_f64 (elapsed (started context) now);
                 stream_fields := stream_of g incoming ((fun d => snd (snd d)) <$> decoded); stream_read_timeout := timeout |}, m, [])
      end
  end.

(** ** What was read *)

(** The data of the frames up to the end of the body; [None] if the end was not reached. *)
Fixpoint read_data (waits : list Wait) : option (list Z) :=
  match waits with
  | [] => None
  | w :: waits =>
      match wait_outcome w with
      | WaitReady None => Some []
      | WaitReady (Some (Ok (DataFrame data))) => (fun rest => data ++ rest) <$> read_data waits
      | WaitReady (Some (Ok TrailersFrame)) => read_data waits
      | _ => None
      end
  end.

(** The bytes of all frames. *)
Fixpoint frame_bytes (waits : list Wait) : Z :=
  match waits with
  | [] => 0
  | w :: waits => match wait_outcome w with WaitReady (Some (Ok (DataFrame data))) => byte_len data | _ => 0 end + frame_bytes waits
  end.

Fixpoint others_total (waits : list Wait) : Z := match waits with [] => 0 | w :: waits => others w + others_total waits end.

(** The other responses hold what they may, [base] now, and leave room for this one. *)
Fixpoint others_ok (base room : Z) (waits : list Wait) : Prop :=
  0 <= base /\ base + room <= USIZE_MAX /\
  match waits with [] => True | w :: waits => others_ok (base + others w) room waits end.

Lemma others_change_holds w base r m :
  0 <= base + others w -> base + others w + reserved_bytes r <= USIZE_MAX ->
  holds base r m -> holds (base + others w) r (others_change w m).
Proof. intros Hb Hx []. split; cbn; lia. Qed.

Lemma frame_bytes_nonneg waits : 0 <= frame_bytes waits.
Proof. induction waits as [|w waits IH]; cbn; [lia|]. unfold byte_len. repeat case_match; lia. Qed.

(** What is left of a response that gave no body: nothing. *)
Definition nothing_held (base : Z) (waits : list Wait) (m : Metrics) : Prop :=
  exists k, buffered_response_bytes m = base + others_total (take k waits).

Lemma nothing_held_start waits m : nothing_held (buffered_response_bytes m) waits m.
Proof. exists 0%nat. rewrite take_0. cbn [others_total]. lia. Qed.

Lemma nothing_held_now base c m waits : holds base (reservation (collected c)) m -> nothing_held base waits (drop_collector c m).
Proof. intros Hh. exists 0%nat. rewrite take_0. unfold drop_collector. rewrite (drop_reservation_counter base) by done. cbn. lia. Qed.

Lemma nothing_held_later base w waits m : nothing_held (base + others w) waits m -> nothing_held base (w :: waits) m.
Proof. intros [k Hk]. exists (S k). rewrite Hk. cbn. lia. Qed.

(** What collecting gives, for a collector that has some of the body. *)
Definition collected_ok (base : Z) (waits : list Wait) (c : BufferedBodyCollector) (o : Awaited CollectedBody * Metrics) : Prop :=
  match o with
  | (Finished (Ok b), m') =>
      exists data, read_data waits = Some data /\ content b = content (collected c) ++ data /\
        reserved_bytes (reservation b) = byte_len (content b) /\ within (collector_max_size c) (byte_len (content b)) /\
        exists k, holds (base + others_total (take k waits)) (reservation b) m'
  | (_, m') => nothing_held base waits m'
  end.

Lemma collect_frames_ok waits : forall context completion c m base room,
  holds base (reservation (collected c)) m -> reserved_bytes (reservation (collected c)) = byte_len (content (collected c)) ->
  within (collector_max_size c) (byte_len (content (collected c))) ->
  others_ok base room waits -> byte_len (content (collected c)) + frame_bytes waits <= room ->
  collected_ok base waits c (collect_frames waits context completion c m).
Proof.
  induction waits as [|w waits IH]; intros context completion c m base room Hh Hr Hw Ho Hroom; cbn [collect_frames].
  - by apply nothing_held_now.
  - cbn in Ho. destruct Ho as (Hb & Hx & Ho). pose proof (frame_bytes_nonneg waits) as Hf.
    assert (Hnext : 0 <= base + others w /\ base + others w + room <= USIZE_MAX) by (destruct waits; cbn in Ho; lia).
    cbn [frame_bytes] in Hroom.
    assert (Hframe : 0 <= match wait_outcome w with WaitReady (Some (Ok (DataFrame data))) => byte_len data | _ => 0 end)
      by (unfold byte_len; repeat case_match; lia).
    apply (others_change_holds w) in Hh; [|lia|lia]. set (m1 := others_change w m) in *.
    unfold next_response_body_frame. destruct (Errors.remaining_duration _ _ _) as [d|e]; [|by apply nothing_held_later, nothing_held_now].
    unfold collected_ok. cbn [read_data]. destruct (wait_outcome w) as [[[[data|]|message]|]| |] eqn:Hout;
      try (by apply nothing_held_later, nothing_held_now).
    + pose proof (push_data_correct data c m1 (base + others w) Hh Hr) as Hp. destruct (push_data data c m1) as [[[[]|e] c1] m2].
      * destruct Hp as (Hc & Hmax & Hw1 & Hh1 & Hr1). rewrite <- Hmax in Hw1.
        specialize (IH context completion c1 m2 _ room Hh1 Hr1 Hw1 Ho). rewrite Hc in IH. unfold byte_len in *. rewrite length_app in IH.
        specialize (IH ltac:(lia)). destruct (collect_frames waits context completion c1 m2) as [[[b|e]|] m']; cbn in IH |- *;
          [|by apply nothing_held_later..].
        destruct IH as (rest & Hread & Hcontent & Hres & Hlim & k & Hk). exists (data ++ rest). rewrite Hread.
        split_and!; [done|by rewrite Hcontent, Hc, app_assoc|done|by rewrite <- Hmax|exists (S k); cbn; by rewrite Z.add_assoc].
      * destruct Hp as (-> & Hh1 & _). by apply nothing_held_later, nothing_held_now.
    + specialize (IH context completion c m1 _ room Hh Hr Hw Ho ltac:(lia)).
      destruct (collect_frames waits context completion c m1) as [[[b|e]|] m']; cbn in IH |- *; [|by apply nothing_held_later..].
      destruct IH as (data & ? & ? & ? & ? & k & Hk). exists data. split_and!; try done. exists (S k). cbn. by rewrite Z.add_assoc.
    + exists []. rewrite app_nil_r. split_and!; try done. exists 1%nat. cbn. by rewrite Z.add_0_r.
Qed.

Lemma collect_response_body_ok hint waits context completion m :
  0 <= buffered_response_bytes m -> within (max_response_body_size context) 0 ->
  others_ok (buffered_response_bytes m) (frame_bytes waits) waits ->
  match collect_response_body hint waits context completion m with
  | (Finished (Ok b), m') =>
      exists data k, read_data waits = Some data /\ content b = data /\ reserved_bytes (reservation b) = byte_len data /\
        within (max_response_body_size context) (byte_len data) /\
        holds (buffered_response_bytes m + others_total (take k waits)) (reservation b) m'
  | (_, m') => nothing_held (buffered_response_bytes m) waits m'
  end.
Proof.
  intros Hm Hw Ho. unfold collect_response_body, collector_new.
  destruct (enforce_response_size_hint _ _) as [[]|e]; [|apply nothing_held_start].
  assert (Hroom : buffered_response_bytes m <= USIZE_MAX).
  { pose proof (frame_bytes_nonneg waits). destruct waits; cbn [others_ok] in Ho; lia. }
  pose proof (collect_frames_ok waits context completion
    {| collected := {| content := []; reservation := start_response (buffered_body_budget context) |}; collector_max_size := max_response_body_size context |}
    m (buffered_response_bytes m) (frame_bytes waits)) as Hc. unfold collected_ok in Hc. cbn [collected content reservation collector_max_size] in Hc.
  specialize (Hc ltac:(split; cbn; lia) eq_refl Hw Ho ltac:(unfold byte_len; cbn; lia)).
  destruct (collect_frames _ _ _ _ _) as [[[b|e]|] m']; [|done|done].
  destruct Hc as (data & Hd & Hb & Hr & Hl & k & Hk). exists data, k. cbn in Hb. rewrite Hb in Hr, Hl. by split_and!.
Qed.

(** Decoding keeps what is reserved equal to what is held, and the limit. *)
Lemma decoded_parts_ok collected plan headers context m base :
  holds base (reservation collected) m -> reserved_bytes (reservation collected) = byte_len (content collected) ->
  within (max_response_body_size context) 0 -> within (max_response_body_size context) (byte_len (content collected)) ->
  match decoded_parts collected plan headers context m with
  | (Ok (headers', content', r), m') =>
      holds base r m' /\ reserved_bytes r = byte_len content' /\ within (max_response_body_size context) (byte_len content') /\
      match plan with
      | Some plan => exists body, decode_body collected plan (max_response_body_size context) m = (Ok body, m') /\
          content' = body_content body /\ headers' = decoded_response_headers headers (body_decoded body)
      | None => content' = content collected /\ headers' = headers
      end
  | (Err _, m') => buffered_response_bytes m' = base
  end.
Proof.
  intros Hh Hr Hz Hl. destruct plan as [plan|]; cbn [decoded_parts]; [|by split_and!].
  pose proof (decode_body_accounting collected plan (max_response_body_size context) m base Hh Hz Hr) as Hd.
  destruct (decode_body collected plan (max_response_body_size context) m) as [[body|e] m'] eqn:E; [|by destruct Hd].
  destruct Hd as (Hh' & Hr' & Hlim & Hleave). split_and!; [done|done| |by exists body].
  destruct plan as [[|coding codings]|].
  - cbn in E. injection E as <- _. done.
  - by eapply Hlim.
  - by destruct Hleave as [-> _].
Qed.

(** C10: A buffered response is exactly the body that was received: the frames up to the end of
    the body in their order and without its trailers, decoded by the plan of its headers and
    only where a body can be encoded, within the limit of the client; its reservation is
    exactly its bytes.  A response that fails or is dropped while it waits leaves nothing
    reserved, whatever other responses reserve and release meanwhile. *)
Theorem raw_response_exact response waits request headers g context now m :
  0 <= buffered_response_bytes m -> within (max_response_body_size context) 0 ->
  others_ok (buffered_response_bytes m) (frame_bytes waits) waits ->
  match raw_response response waits request headers g context now m with
  | (Finished (Ok r), m', _) =>
      exists data k, read_data waits = Some data /\ within (max_response_body_size context) (byte_len data) /\
        holds (buffered_response_bytes m + others_total (take k waits)) (raw_reservation r) m' /\
        reserved_bytes (raw_reservation r) = byte_len (raw_content r) /\
        within (max_response_body_size context) (byte_len (raw_content r)) /\
        match decoding_plan response request with
        | Some plan => exists collected body m1, content collected = data /\
            decode_body collected plan (max_response_body_size context) m1 = (Ok body, m') /\ raw_content r = body_content body /\
            raw_headers r = decoded_response_headers headers (body_decoded body)
        | None => raw_content r = data /\ raw_headers r = headers
        end
  | (_, m', _) => nothing_held (buffered_response_bytes m) waits m'
  end.
Proof.
  intros Hm Hw Ho. unfold raw_response. destruct (read_timeout_of _) as [d|e]; [|apply nothing_held_start].
  pose proof (collect_response_body_ok (size_upper response) waits context (request_body_completion g) m Hm Hw Ho) as Hc.
  destruct (collect_response_body _ _ _ _ _) as [[[collected|e]|] m1]; [|by destruct (abort_connection e g)|done].
  destruct Hc as (data & k & Hd & Hdata & Hr & Hl & Hh). destruct (finish_connection g) as [g1 es1]. rewrite <- Hdata in Hr, Hl.
  pose proof (decoded_parts_ok collected (decoding_plan response request) headers context m1 _ Hh Hr Hw Hl) as Hp.
  destruct (decoded_parts _ _ _ _ _) as [[[[hs content'] r]|e] m2]; [|by exists k].
  destruct Hp as (Hh' & Hr' & Hl' & Hplan). destruct (finish_body g1) as [g2 es2]. cbn [raw_reservation raw_content raw_headers from_parts].
  exists data, k. rewrite Hdata in Hl. split_and!; try done. destruct (decoding_plan response request) as [plan|].
  - destruct Hplan as (body & Hb & Hc & Hhs). by exists collected, body, m1.
  - by rewrite Hdata in Hplan.
Qed.

(** ** What becomes of the connection and of the body's lifecycle *)

Definition is_use_end (e : GuardEffect) : bool :=
  match e with Guarded (ConnectionFinished _) | Guarded (ConnectionAborted _) | ConnectionDropped => true | _ => false end.
Definition is_lifecycle_end (e : GuardEffect) : bool := match e with Guarded (BodyFinished _) => true | _ => false end.

(** The guards of a response have each ended once, in a way that tells what happened. *)
Definition settled {A} (g : ResponseLifecycleGuards) (read_to_end : bool) (o : Awaited A) (es : list GuardEffect) : Prop :=
  length (List.filter is_use_end es) = 1%nat /\ length (List.filter is_lifecycle_end es) = 1%nat /\
  Forall (fun ef => match ef with
    | Guarded (ConnectionFinished outcome) => outcome = guard_outcome g /\ read_to_end = true
    | Guarded (ConnectionAborted reason) => exists e, o = Finished (Err e) /\ reason = AbortError (Some (response_body_error_type e))
    | Guarded (BodyFinished outcome) => outcome = match o with Finished (Ok _) => guard_outcome g | _ => Metrics.Aborted end
    | ConnectionDropped => match o with Finished (Ok _) => False | _ => True end
    | _ => False
    end) es.

Lemma collect_frames_end waits context completion c m b m' :
  collect_frames waits context completion c m = (Finished (Ok b), m') -> is_some (read_data waits) = true.
Proof.
  revert c m. induction waits as [|w waits IH]; intros c m; cbn [collect_frames read_data]; [done|].
  unfold next_response_body_frame. destruct (Errors.remaining_duration _ _ _) as [d|e]; [|done].
  destruct (wait_outcome w) as [[[[data|]|message]|]| |]; try done; [|by apply IH].
  destruct (push_data _ _ _) as [[[u|e] c1] m1]; [|done]. intros Hc%IH. by destruct (read_data waits).
Qed.

Lemma drain_response_body_end waits context completion m m' :
  drain_response_body waits context completion m = (Finished (Ok tt), m') -> is_some (read_data waits) = true.
Proof.
  revert m. induction waits as [|w waits IH]; intros m; cbn [drain_response_body read_data]; [done|].
  unfold next_response_body_frame. destruct (Errors.remaining_duration _ _ _) as [d|e]; [|done].
  destruct (wait_outcome w) as [[[[data|]|message]|]| |]; try done; intros Hc%IH; by destruct (read_data waits).
Qed.

(** C9: However reading a response goes - to its end, to an error of the transport, a limit, a
    timeout or the decoder, or to a drop of the future while it waits - the use of its
    connection and the lifecycle of its body end exactly once: the connection is given back
    only after the whole body was read, an abort carries the reason of the exception that is
    raised, and the lifecycle succeeds only with a response. *)
Theorem response_settled_once response waits request headers completion context now m :
  let g := guards_new (version response) (response_header_map response) completion in
  (let '(o, _, es) := raw_response response waits request headers g context now m in settled g (is_some (read_data waits)) o es) /\
  (let '(o, _, es) := drain_response waits g context m in settled g (is_some (read_data waits)) o es).
Proof.
  intros g. split.
  - unfold raw_response. destruct (read_timeout_of _) as [d|e]; [|by repeat constructor].
    destruct (collect_response_body _ _ _ _ _) as [[[collected|e]|] m1] eqn:Hc; [|repeat constructor; by eauto|by repeat constructor].
    assert (Hend : is_some (read_data waits) = true).
    { unfold collect_response_body in Hc. destruct (collector_new _ _ _); [|done]. by eapply collect_frames_end. }
    cbn [finish_connection g guards_new guard_connection].
    destruct (decoded_parts _ _ _ _ _) as [[[[hs content'] r]|e] m2]; repeat constructor; done.
  - unfold drain_response. destruct (read_timeout_of _) as [d|e]; [|by repeat constructor].
    destruct (drain_response_body _ _ _ _) as [[[[]|e]|] m1] eqn:Hc; [|repeat constructor; by eauto|by repeat constructor].
    apply drain_response_body_end in Hc. repeat constructor; done.
Qed.

Lemma reservation_bytes_nonneg plan : 0 <= reservation_bytes plan.
Proof.
  unfold reservation_bytes. assert (Hf : forall l, 0 <= fold_right (fun c acc => Streaming.coding_reservation c + acc) 0 l).
  { induction l as [|[] l IH]; cbn; unfold Streaming.INFLATE_RESERVATION, Streaming.BROTLI_RESERVATION in *; lia. }
  specialize (Hf (Streaming.codings plan)). unfold Streaming.OUTPUT_SIZE. lia.
Qed.

Lemma decoded_stream_new_bytes plan options m :
  match decoded_stream_new plan options m with
  | (Ok (reserved, _), m') =>
      reserved = reservation_bytes plan /\ decoder_bytes m' = decoder_bytes m + reserved /\ decoder_bytes m' <= max_memory_bytes options
  | (Err _, m') => decoder_bytes m' = decoder_bytes m
  end.
Proof.
  unfold decoded_stream_new, reservation_try_new, Metrics.try_reserve_stream_decoder_bytes, compare_exchange_loop.
  rewrite run_bind. cbn -[reservation_bytes]. unfold run_attempt, Metrics.try_reserve_attempt, checked_add.
  destruct (decoder_bytes m + reservation_bytes plan <=? USIZE_MAX); [|done].
  destruct (Z.leb_spec (decoder_bytes m + reservation_bytes plan) (max_memory_bytes options)); cbn -[reservation_bytes]; [by split_and!|done].
Qed.

Lemma reservation_drop_bytes n m : 0 <= n <= decoder_bytes m -> decoder_bytes (exec (reservation_drop n) m) = decoder_bytes m - n.
Proof.
  intros Hn. unfold exec, reservation_drop, Metrics.release_stream_decoder_bytes, compare_exchange_loop. rewrite run_bind. cbn.
  unfold run_attempt, Metrics.release_attempt, checked_sub. destruct (Z.leb_spec n (decoder_bytes m)); cbn; [done|lia].
Qed.

Lemma prepare_decoding_bytes response options m :
  match prepare_decoding response options m with
  | (Ok (encoded, (reserved, _)), m') => exists plan, plan_from_headers (response_header_map response) = Ok plan /\
      encoded = is_encoded plan /\ reserved = reservation_bytes plan /\ (encoded && (status response =? 206)) = false /\
      decoder_bytes m' = decoder_bytes m + reserved /\ decoder_bytes m' <= max_memory_bytes options
  | (Err _, m') => decoder_bytes m' = decoder_bytes m
  end.
Proof.
  unfold prepare_decoding. destruct (plan_from_headers _) as [plan|e]; [|done].
  destruct (is_encoded plan && (status response =? 206)) eqn:Hp; [done|].
  pose proof (decoded_stream_new_bytes plan options m) as Hd. destruct (decoded_stream_new _ _ _) as [[[reserved d]|e] m']; [|done].
  destruct Hd as (-> & Hd). by exists plan.
Qed.

(** Handing over a stream settles or keeps everything: a stream that is handed over has ended
    nothing, its state has the body, the unfinished lifecycle and the use of the connection,
    and exactly its decoder's memory is reserved, within the client's limit; one that fails
    has ended the connection and the lifecycle once - the connection given back only if the
    body had ended - and has no memory of a decoder reserved. *)
Theorem stream_handover response incoming request headers completion options context now m :
  0 <= decoder_bytes m ->
  let g := guards_new (version response) (response_header_map response) completion in
  match raw_stream_response response incoming request headers g options context now m with
  | (Ok s, m', es) =>
      es = [] /\ StreamState.body (stream_fields s) = Some incoming /\ StreamState.connection_use (stream_fields s) = true /\
      StreamState.lifecycle (stream_fields s) = Some None /\ StreamState.terminal (stream_fields s) = None /\
      match StreamState.decoded (stream_fields s) with
      | Some _ => exists plan, plan_from_headers (response_header_map response) = Ok plan /\
          decoder_bytes m' = decoder_bytes m + reservation_bytes plan /\ decoder_bytes m' <= max_memory_bytes options
      | None => m' = m
      end
  | (Err e, m', es) =>
      decoder_bytes m' = decoder_bytes m /\
      (settled g false (Finished (A := unit) (Err e)) es \/
       end_stream response = true /\ es = [Guarded (ConnectionFinished (guard_outcome g)); Guarded (BodyFinished (guard_outcome g))])
  end.
Proof.
  intros Hm g. unfold raw_stream_response.
  destruct (decode_content options && _).
  - pose proof (prepare_decoding_bytes response options m) as Hp.
    destruct (prepare_decoding response options m) as [[[encoded [reserved d]]|e] m1].
    + destruct Hp as (plan & Hplan & -> & -> & _ & Hb & Hmax). destruct (read_timeout_of _) as [t|e]; [by split_and!; try done; exists plan|].
      split; [|left; by repeat constructor]. pose proof (reservation_bytes_nonneg plan). rewrite reservation_drop_bytes; lia.
    + destruct (end_stream response); [by split; [|right]|]. split; [done|]. left. repeat constructor. by eauto.
  - destruct (read_timeout_of _) as [t|e]; [by split_and!|]. split; [done|]. left. by repeat constructor.
Qed.
End response.

(** ** Samples *)

#[local] Existing Instance stored_decoders.
#[local] Existing Instance pair_http_crate.
#[local] Existing Instance Streaming.pass_codecs.

Definition sample_wait (o : WaitOutcome) (others_by : Z) : Wait :=
  {| asked := 10; answered := 20; wait_outcome := o; upload_timeout := None; others := others_by |}.

(** Other responses reserve and release while this one waits. *)
Definition sample_waits : list Wait :=
  [sample_wait (WaitReady (Some (Ok (DataFrame [1; 2])))) 5; sample_wait (WaitReady (Some (Ok TrailersFrame))) 0;
   sample_wait (WaitReady (Some (Ok (DataFrame [3])))) (-7); sample_wait (WaitReady None) 1].

Definition sample_context : RawResponseContext :=
  {| started := 0; total_timeout := f64_of_Z 30; read_timeout := f64_of_Z 5; max_response_body_size := Some 10;
     buffered_body_budget := {| max_buffered_response_bytes := Some 100 |}; context_origin := "http://a"; redirect_hop := 0 |}.

Definition sample_response : Response :=
  {| status := 200; version := HTTP_11; response_header_map := header_map_new; size_upper := None; end_stream := false |}.

Definition sample_request : RawRequestInfo := {| request_method := "GET"; request_url := "http://a/" |}.

Definition sample_guards : ResponseLifecycleGuards := guards_new HTTP_11 header_map_new false.

Definition sample_result := raw_response sample_response sample_waits sample_request [] sample_guards sample_context 30 (sample_metrics 7).

Lemma raw_response_exact_witness : exists r m', sample_result = (Finished (Ok r), m',
    [Guarded (ConnectionFinished Metrics.ReuseEligible); Guarded (BodyFinished Metrics.ReuseEligible)]) /\
  raw_content r = [1; 2; 3] /\ reserved_bytes (raw_reservation r) = 3.
Proof.
  assert (Hm : 0 <= buffered_response_bytes (sample_metrics 7)) by (vm_compute; discriminate).
  assert (Hw : within (max_response_body_size sample_context) 0) by (intros l [= <-]; lia).
  assert (Ho : others_ok (buffered_response_bytes (sample_metrics 7)) (frame_bytes sample_waits) sample_waits)
    by (vm_compute; repeat split; discriminate).
  pose proof (raw_response_exact sample_response sample_waits sample_request [] sample_guards sample_context 30 (sample_metrics 7) Hm Hw Ho) as H.
  fold sample_result in H. destruct sample_result as [[[[r|e]|] m'] es] eqn:E; [|vm_compute in E; discriminate E..].
  exists r, m'. destruct H as (data & k & _ & _ & _ & Hr & _).
  assert (Hc : raw_content r = [1; 2; 3]) by (vm_compute in E; injection E as <- _ _; reflexivity).
  assert (Hes : es = [Guarded (ConnectionFinished Metrics.ReuseEligible); Guarded (BodyFinished Metrics.ReuseEligible)])
    by (vm_compute in E; injection E as _ _ <-; reflexivity).
  rewrite Hes. split; [reflexivity|]. split; [exact Hc|]. rewrite Hr, Hc. reflexivity.
Defined.

(** A response with two codings, decoded as a stream. *)
Definition sample_encoded : Response :=
  {| status := 200; version := HTTP_11; response_header_map := [("content-encoding", RustStr.bytes "gzip, br")];
     size_upper := None; end_stream := false |}.

Definition sample_options : StreamDecodeOptions :=
  {| decode_content := true; max_decoded_bytes := None; max_memory_bytes := 64 * 1024 * 1024 |}.

Definition sample_handover :=
  raw_stream_response sample_encoded [] sample_request [] (guards_new (version sample_encoded) (response_header_map sample_encoded) false)
    sample_options sample_context 30 (sample_metrics 0).

Lemma stream_handover_witness : exists s m', sample_handover = (Ok s, m', []) /\ StreamState.connection_use (stream_fields s) = true.
Proof.
  assert (Hm : 0 <= decoder_bytes (sample_metrics 0)) by (vm_compute; discriminate).
  pose proof (stream_handover sample_encoded [] sample_request [] false sample_options sample_context 30 (sample_metrics 0) Hm) as H.
  cbn zeta in H. fold sample_handover in H. destruct sample_handover as [[[s|e] m'] es] eqn:E.
  - exists s, m'. destruct H as (-> & _ & Hu & _). split; [reflexivity|exact Hu].
  - exfalso. vm_compute in E. discriminate E.
Defined.
