(* ===== verification/RetryTrace.v ===== *)
(** * Traces of retries

    [src/src/py/retry.rs]: the recorder of the attempts of one request and the trace
    it ends with.  Durations are kept in seconds, as the [f64] the code computes. *)

From S2P Require Import Prelude Numeric.
From Stdlib Require Import SpecFloat.

Local Open Scope Z_scope.

Inductive RetryTraceOutcome := OutcomeResponse | OutcomeError.

Definition outcome_as_str (o : RetryTraceOutcome) : string :=
  match o with OutcomeResponse => "response" | OutcomeError => "error" end.

Inductive RetryAttemptCompletion := CompletionPending | CompletionComplete.
#[export] Instance RetryAttemptCompletion_eq_dec : EqDecision RetryAttemptCompletion.
Proof. solve_decision. Defined.

Record RawRetryAttempt := {
  attempt : Z;
  attempt_method : string;
  attempt_origin : string;
  attempt_redirect_hop : Z;
  attempt_status_code : option Z;
  attempt_error_type : option string;
  attempt_decision : option string;
  attempt_reason : option string;
  attempt_backoff : f64;
  decision_elapsed : option f64;
  completed_elapsed : f64;
  completion : RetryAttemptCompletion;
}.
#[export] Instance eta_RawRetryAttempt : Eta RawRetryAttempt := fun r =>
  Build_RawRetryAttempt (attempt r) (attempt_method r) (attempt_origin r) (attempt_redirect_hop r)
    (attempt_status_code r) (attempt_error_type r) (attempt_decision r) (attempt_reason r)
    (attempt_backoff r) (decision_elapsed r) (completed_elapsed r) (completion r).


Definition has_valid_decision_state (a : RawRetryAttempt) : bool :=
  Bool.eqb (is_some (attempt_decision a)) (is_some (attempt_reason a))
  && Bool.eqb (is_some (attempt_decision a)) (is_some (decision_elapsed a))
  && match decision_elapsed a with
     | Some elapsed => SFleb elapsed (completed_elapsed a)
     | None => true
     end
  && (bool_decide (completion a = CompletionComplete) || is_some (attempt_decision a)).

Record RawRetryTrace := {
  trace_attempts : list RawRetryAttempt;
  trace_outcome : string;
  trace_status_code : option Z;
  trace_elapsed : f64;
  terminal_error_on_last_attempt : bool;
}.

Record RetryResponseObservation := { observed_status_code : Z; observed_redirect_hop : Z }.

Record RetryTraceRecorder := {
  attempts : option (list RawRetryAttempt);
  observed_response : option RetryResponseObservation;
}.
#[export] Instance eta_RetryTraceRecorder : Eta RetryTraceRecorder := fun r =>
  Build_RetryTraceRecorder (attempts r) (observed_response r).

Definition recorder_disabled : RetryTraceRecorder := {| attempts := None; observed_response := None |}.
Definition recorder_enabled : RetryTraceRecorder := {| attempts := Some []; observed_response := None |}.
Definition is_enabled (r : RetryTraceRecorder) : bool := is_some (attempts r).

Definition begin_transport_hop (r : RetryTraceRecorder) : RetryTraceRecorder :=
  if is_enabled r then r <| observed_response := None |> else r.

Definition observe_response (status_code redirect_hop : Z) (r : RetryTraceRecorder) : RetryTraceRecorder :=
  if is_enabled r
  then r <| observed_response := Some {| observed_status_code := status_code;
                                         observed_redirect_hop := redirect_hop |} |>
  else r.

Definition record_attempt (a : RawRetryAttempt) (r : RetryTraceRecorder) : RetryTraceRecorder :=
  match attempts r with
  | Some l => r <| attempts := Some (l ++ [a]) |>
  | None => r
  end.

Definition is_error (o : RetryTraceOutcome) : bool :=
  match o with OutcomeError => true | OutcomeResponse => false end.

(** The attempts of [finish] and [terminal_error_on_last_attempt]. *)
Definition finish_attempts (terminal : RawRetryAttempt) (outcome : RetryTraceOutcome)
    (l : list RawRetryAttempt) : list RawRetryAttempt * bool :=
  match last l with
  | Some a =>
      if attempt a =? attempt terminal then
        if bool_decide (completion a = CompletionComplete) then (l, false)
        else
          (alter (fun a =>
             a <| attempt_status_code := match attempt_status_code terminal with
                                         | Some s => Some s | None => attempt_status_code a end |>
               <| attempt_redirect_hop := attempt_redirect_hop terminal |>
               <| completed_elapsed := completed_elapsed terminal |>
               <| completion := CompletionComplete |>) (pred (length l)) l,
           is_error outcome)
      else (l ++ [terminal], is_error outcome)
  | None => (l ++ [terminal], is_error outcome)
  end.

Definition finish_trace (terminal : RawRetryAttempt) (outcome : RetryTraceOutcome)
    (status_code : option Z) (elapsed : f64) (r : RetryTraceRecorder) :
    option RawRetryTrace * RetryTraceRecorder :=
  match attempts r with
  | None => (None, r)
  | Some l =>
      let (l, terminal_error) := finish_attempts terminal outcome l in
      (Some {| trace_attempts := l; trace_outcome := outcome_as_str outcome;
               trace_status_code := status_code; trace_elapsed := elapsed;
               terminal_error_on_last_attempt := terminal_error |},
       r <| attempts := None |>)
  end.

(** ** The attempts are numbered *)

Definition numbered (l : list RawRetryAttempt) (n : Z) : Prop :=
  attempt <$> l = seqZ 1 n.

Lemma seqZ_one m : seqZ m 1 = [m].
Proof. reflexivity. Qed.

(** Before attempt [current] ends, the attempts before it are recorded, and maybe it. *)
Definition recorder_ok (current : Z) (r : RetryTraceRecorder) : Prop :=
  forall l, attempts r = Some l -> 1 <= current /\ (numbered l (current - 1) \/ numbered l current).

Lemma numbered_snoc l n a : 0 <= n -> numbered l n -> attempt a = n + 1 -> numbered (l ++ [a]) (n + 1).
Proof.
  intros Hn Hl Ha. unfold numbered. rewrite fmap_app, Hl, seqZ_app, seqZ_one by lia. cbn.
  rewrite Ha. do 2 f_equal. lia.
Qed.

Lemma numbered_last l n a : 0 <= n -> numbered l n -> last l = Some a -> attempt a = n.
Proof.
  intros Hn Hl Ha. pose proof (f_equal last Hl) as E. rewrite fmap_last, Ha in E. cbn in E.
  destruct (decide (n = 0)) as [->|]; [done|].
  replace n with ((n - 1) + 1) in E at 1 by lia. rewrite seqZ_app, last_app, seqZ_one in E by lia. cbn in E.
  injection E as ->. lia.
Qed.

Lemma alter_last_attempt f (l : list RawRetryAttempt) (k : nat) :
  (forall a, attempt (f a) = attempt a) -> attempt <$> alter f k l = attempt <$> l.
Proof.
  intros Hf. apply list_eq. intros i. rewrite !list_lookup_fmap.
  destruct (decide (i = k)) as [->|].
  - rewrite list_lookup_alter_eq. destruct (l !! k); cbn; [by rewrite Hf|done].
  - by rewrite list_lookup_alter_ne.
Qed.

Lemma finish_attempts_numbered terminal outcome l current :
  1 <= current -> attempt terminal = current ->
  numbered l (current - 1) \/ numbered l current ->
  numbered (fst (finish_attempts terminal outcome l)) current.
Proof.
  intros Hc Ht Hl. unfold finish_attempts. destruct (last l) as [a|] eqn:Ha.
  - destruct Hl as [Hl|Hl]; apply (numbered_last _ _ a) in Hl as Hn; try done; try lia.
    + destruct (Z.eqb_spec (attempt a) (attempt terminal)); [lia|]. cbn.
      replace current with (current - 1 + 1) by lia. apply numbered_snoc; [lia|done|lia].
    + destruct (Z.eqb_spec (attempt a) (attempt terminal)); [|lia].
      case_bool_decide; cbn; [done|]. unfold numbered in *. by rewrite alter_last_attempt.
  - apply last_None in Ha as ->. cbn. destruct Hl as [Hl|Hl].
    + replace current with (current - 1 + 1) by lia. apply (numbered_snoc []); [lia|done|lia].
    + unfold numbered in Hl. cbn in Hl. pose proof (f_equal length Hl) as E.
      rewrite length_seqZ in E. cbn in E. lia.
Qed.

(** The trace is closed: every attempt is complete. *)
Definition complete (a : RawRetryAttempt) : Prop := completion a = CompletionComplete.

Lemma finish_attempts_complete terminal outcome before added :
  complete terminal -> Forall complete before -> (length added <= 1)%nat ->
  Forall (fun a => attempt a = attempt terminal) added ->
  Forall complete (fst (finish_attempts terminal outcome (before ++ added))).
Proof.
  intros Ht Hb Hlen Ha. unfold finish_attempts.
  destruct added as [|a [|]]; [|clear Hlen|cbn in Hlen; lia].
  - rewrite app_nil_r. assert (Hsnoc : Forall complete (before ++ [terminal])).
    { apply Forall_app. by rewrite Forall_singleton. }
    destruct (last before) as [b|] eqn:Hlast; [|done]. destruct (_ =? _); [|done].
    apply last_Some_elem_of in Hlast. rewrite Forall_forall in Hb.
    rewrite bool_decide_true by by apply Hb. by apply Forall_forall.
  - apply (proj1 (Forall_singleton _ _)) in Ha. cbn in Ha. rewrite last_snoc, Ha, Z.eqb_refl.
    case_bool_decide; cbn; [apply Forall_app; by rewrite Forall_singleton|].
    replace (pred (length (before ++ [a]))) with (length before + 0)%nat
      by (rewrite length_app; cbn; lia).
    rewrite alter_app_r. apply Forall_app. split; [done|]. by apply Forall_singleton.
Qed.
