(* ===== verification/RequestState.v ===== *)
(** * The state of a request between its attempts

    [src/src/py/client/transport/request.rs] and [src/src/py/client/auth.rs]: what a
    logical request keeps across redirects and retries, how the authentication
    provider and the cookie jar change its headers for each attempt, and how a
    redirect changes it.  What a Python hook returns is an argument; the cookie jar,
    shared with other requests, is passed in and out of the operations that lock it. *)

From S2P Require Import Prelude RustStr Http Numeric Policy Redirect Retry Ssrf Pipeline Cookies RetryTrace.

Local Open Scope Z_scope.

(** A Python exception a hook raised or the binding created. *)
Inductive RequestError :=
| PolicyFailure (error : PolicyError)
| HookFailure (message : string)
| InvalidOption (message : string)
| RequestFailed (message : string)
| RequestTotalTimeout.

Definition COOKIE_HEADER_NAME : string := "cookie".
Definition COOKIE_HEADER_WIRE_NAME : string := "Cookie".

Definition lower_names (headers : HeaderPairs) : gset string :=
  list_to_set ((fun h => to_ascii_lowercase (fst h)) <$> headers).
Definition normalized_header_names (names : list string) : gset string :=
  list_to_set (to_ascii_lowercase <$> names).

(** ** Cookies of a request *)
Section cookies.
Context `{CookieCrates} `{UrlCrate} `{HttpCrate}.

Record RequestCookieState := { managed_header : bool }.

Definition cookie_state_new : RequestCookieState := {| managed_header := false |}.

Definition is_cookie_header (h : string * string) : bool :=
  eq_ignore_ascii_case (fst h) COOKIE_HEADER_NAME.

Definition attach (c : RequestCookieState) (jar : CookieStore) (url : HttpUrl) (headers : HeaderPairs)
    (now : Z) : RequestCookieState * HeaderPairs * CookieStore :=
  if existsb is_cookie_header headers then (c, headers, jar)
  else
    let (value, jar) := request_header_at jar url now in
    match value with
    | None => (c, headers, jar)
    | Some value =>
        ({| managed_header := true |}, headers ++ [(COOKIE_HEADER_WIRE_NAME, value)], jar)
    end.

Definition remove_managed_header (c : RequestCookieState) (headers : HeaderPairs) :
    RequestCookieState * HeaderPairs :=
  if managed_header c
  then ({| managed_header := false |}, filter (fun h => is_cookie_header h = false) headers)
  else (c, headers).
End cookies.

(** ** Authentication of a request *)

Inductive AuthProvider := Basic (header : string) | AuthHook.

Definition uses_hook (p : AuthProvider) : bool :=
  match p with AuthHook => true | Basic _ => false end.

(** [hook] is what the Python callable returned, normalised. *)
Definition header_updates (p : AuthProvider) (hook : result HeaderPairs string) :
    result HeaderPairs string :=
  match p with
  | Basic header => Ok [("Authorization", header)]
  | AuthHook => hook
  end.

Record RequestAuthState := {
  provider : AuthProvider;
  base_headers : HeaderPairs;
  active_headers : gset string;
  sensitive_headers : gset string;
  caller_owned_headers : gset string;
  caller_removed_headers : gset string;
}.
#[export] Instance eta_RequestAuthState : Eta RequestAuthState := fun a =>
  Build_RequestAuthState (provider a) (base_headers a) (active_headers a) (sensitive_headers a)
    (caller_owned_headers a) (caller_removed_headers a).

Definition auth_state_new (p : AuthProvider) (base : HeaderPairs) (override_headers : option (list string))
    (removed_headers : list string) : RequestAuthState :=
  {| provider := p; base_headers := base; active_headers := ∅; sensitive_headers := ∅;
     caller_owned_headers := match override_headers with
                             | Some names => normalized_header_names names
                             | None => lower_names base
                             end;
     caller_removed_headers := normalized_header_names removed_headers |}.

Definition can_apply_header (a : RequestAuthState) (name : string) (base_header_names : gset string) : bool :=
  negb (bool_decide (name ∈ caller_removed_headers a)
        || bool_decide (name ∈ caller_owned_headers a) && bool_decide (name ∈ base_header_names)).

Definition auth_apply (a : RequestAuthState) (headers : HeaderPairs) (hook : result HeaderPairs string) :
    result unit string * RequestAuthState * HeaderPairs :=
  let '(a, headers) := if bool_decide (active_headers a = ∅) then (a, headers)
                       else (a <| active_headers := ∅ |>, base_headers a) in
  let base_header_names := lower_names headers in
  match header_updates (provider a) hook with
  | Err e => (Err e, a, headers)
  | Ok updates =>
      let applied_updates :=
        filter (fun h => can_apply_header a (to_ascii_lowercase (fst h)) base_header_names = true) updates in
      let applied_names := lower_names applied_updates in
      (Ok tt,
       a <| sensitive_headers ::= fun s => s ∪ applied_names |> <| active_headers := applied_names |>,
       filter (fun h => to_ascii_lowercase (fst h) ∉ applied_names) headers ++ applied_updates)
  end.

Definition auth_on_redirect (a : RequestAuthState) (body : RequestBodyMutation)
    (header_policy : RedirectHeaderPolicy) : RequestAuthState * HeaderPairs :=
  let cross_origin := bool_decide (header_policy = CrossOrigin) in
  let headers := redirect_headers (base_headers a) body header_policy in
  if cross_origin then
    (a <| active_headers := ∅ |> <| base_headers := [] |>,
     filter (fun h => to_ascii_lowercase (fst h) ∉ sensitive_headers a) headers)
  else (a <| active_headers := ∅ |> <| base_headers := headers |>, headers).

(** ** The body of a request *)

(** [Streaming] holds a reference to the Python object of the upload. *)
Inductive RequestBodyState := EmptyBody | BufferedBody (content : list Z) | StreamingBody (upload : positive).

Definition from_raw_parts (body : option (list Z)) (body_stream : option positive) : RequestBodyState :=
  match body_stream with
  | Some upload => StreamingBody upload
  | None => match body with
            | Some (_ :: _ as content) => BufferedBody content
            | _ => EmptyBody
            end
  end.

Definition has_request_body (b : RequestBodyState) : bool :=
  match b with EmptyBody => false | _ => true end.

(** ** The request *)
Section request.
Context `{UrlCrate} `{HttpCrate} `{HttpDate} `{CookieCrates}.

Record RequestState := {
  state_method : string;
  state_url : HttpUrl;
  state_headers : HeaderPairs;
  state_body : RequestBodyState;
  state_body_policy : RequestBodyPolicy;
  state_policy : PolicyPipeline;
  state_cookies : option RequestCookieState;
  state_auth : option RequestAuthState;
  (** whether there are policy hooks, and whether one observes response bodies *)
  state_policy_hooks : option bool;
  state_proxy_authorization : option string;
  total_timeout : f64;
  read_timeout : f64;
  state_write_timeout : Z;
  state_max_response_body_size : option Z;
  retry_attempt : Z;
  completed_retries : Z;
  retry_trace : RetryTraceRecorder;
}.
#[export] Instance eta_RequestState : Eta RequestState := fun s =>
  Build_RequestState (state_method s) (state_url s) (state_headers s) (state_body s)
    (state_body_policy s) (state_policy s) (state_cookies s) (state_auth s) (state_policy_hooks s)
    (state_proxy_authorization s) (total_timeout s) (read_timeout s) (state_write_timeout s)
    (state_max_response_body_size s) (retry_attempt s) (completed_retries s) (retry_trace s).

Record TransportRequest := {
  part_method : string;
  part_url : string;
  part_headers : HeaderPairs;
  part_auth_override_headers : option (list string);
  part_auth_removed_headers : list string;
  part_body : option (list Z);
  part_body_stream : option positive;
  part_body_replayable : bool;
  part_use_proxy_transport : bool;
  part_proxy_policy : string;
  part_proxy_authorization : option string;
  part_total_timeout : f64;
  part_read_timeout : f64;
  part_write_timeout : f64;
  part_max_response_body_size : option Z;
  part_follow_redirects : bool;
  part_max_redirects : Z;
  part_retry_policy : option RetryPolicy;
  part_ssrf_policy : option SsrfPolicy;
  part_cookie_jar : bool;
  part_auth : option AuthProvider;
  part_policy_hooks : option bool;
}.

(** [str::to_uppercase] follows the tables of Unicode and is an argument. *)
Definition request_state_try_from (to_uppercase : string -> string) (parts : TransportRequest) :
    result (option RequestState) RequestError :=
  let? url := map_err RequestFailed (http_url_parse (part_url parts)) in
  let? write_timeout := map_err InvalidOption (duration_from_secs "Timeouts.write" (part_write_timeout parts)) in
  let body := from_raw_parts (part_body parts) (part_body_stream parts) in
  let body_policy := from_request (has_request_body body) (part_body_replayable parts) in
  let retry_trace := match part_retry_policy parts with
                     | Some _ => recorder_enabled | None => recorder_disabled end in
  let? policy := map_err PolicyFailure
                   (policy_pipeline_new (part_proxy_policy parts) (part_use_proxy_transport parts) url
                      (part_follow_redirects parts) (part_max_redirects parts)
                      (part_retry_policy parts) (part_ssrf_policy parts)) in
  let auth := (fun p => auth_state_new p (part_headers parts) (part_auth_override_headers parts)
                          (part_auth_removed_headers parts)) <$> part_auth parts in
  let cookies := if part_cookie_jar parts then Some cookie_state_new else None in
  Ok ((fun write_timeout =>
    {| state_method := to_uppercase (part_method parts); state_url := url;
       state_headers := part_headers parts; state_body := body; state_body_policy := body_policy;
       state_policy := policy; state_cookies := cookies; state_auth := auth;
       state_policy_hooks := part_policy_hooks parts;
       state_proxy_authorization := part_proxy_authorization parts;
       total_timeout := part_total_timeout parts; read_timeout := part_read_timeout parts;
       state_write_timeout := write_timeout;
       state_max_response_body_size := part_max_response_body_size parts;
       retry_attempt := 1; completed_retries := 0; retry_trace := retry_trace |}) <$> write_timeout).

Definition policy_request (s : RequestState) : PolicyRequest :=
  {| req_body := state_body_policy s; req_method := state_method s; req_url := state_url s |}.

Definition plain_http_proxy_authorization (route : TransportRoute) (s : RequestState) : option string :=
  if bool_decide (route = RouteProxy) && String.eqb (scheme (state_url s)) "http"
  then state_proxy_authorization s else None.

(** The names [request_info] reports as sensitive. *)
Definition request_sensitive_headers (s : RequestState) : gset string :=
  match state_auth s with Some auth => sensitive_headers auth | None => ∅ end.

(** [RequestParts] without its body, which [take_body_parts] copies or takes over. *)
Record RequestParts := {
  parts_method : string;
  parts_url : string;
  parts_headers : HeaderPairs;
  parts_body : RequestBodyState;
  parts_proxy_authorization : option string;
}.

Definition take_request_parts (route : TransportRoute) (s : RequestState) : RequestParts :=
  {| parts_method := state_method s; parts_url := as_str (state_url s);
     parts_headers := state_headers s; parts_body := state_body s;
     parts_proxy_authorization := plain_http_proxy_authorization route s |}.

Definition begin_hop (s : RequestState) : RequestState := s <| retry_trace ::= begin_transport_hop |>.

Definition remove_managed_cookies (s : RequestState) : RequestState :=
  match state_cookies s with
  | Some cookies =>
      let (cookies, headers) := remove_managed_header cookies (state_headers s) in
      s <| state_cookies := Some cookies |> <| state_headers := headers |>
  | None => s
  end.

Definition run_hook (s : RequestState) (hook : result unit string) : result unit RequestError :=
  match state_policy_hooks s with
  | Some _ => map_err HookFailure hook
  | None => Ok tt
  end.

Definition transport_route (auth_hook : result HeaderPairs string) (hook : result unit string)
    (now : Z) (jar : CookieStore) (s : RequestState) :
    result TransportRoute RequestError * CookieStore * RequestState :=
  let s := remove_managed_cookies s in
  match before_send (state_policy s) (policy_request s) with
  | Err e => (Err (PolicyFailure e), jar, s)
  | Ok route =>
      let '(authenticated, s) :=
        match state_auth s with
        | Some auth =>
            let '(r, auth, headers) := auth_apply auth (state_headers s) auth_hook in
            (r, s <| state_auth := Some auth |> <| state_headers := headers |>)
        | None => (Ok tt, s)
        end in
      match authenticated with
      | Err e => (Err (HookFailure e), jar, s)
      | Ok _ =>
          let '(jar, s) :=
            match state_cookies s with
            | Some cookies =>
                let '(cookies, headers, jar) := attach cookies jar (state_url s) (state_headers s) now in
                (jar, s <| state_cookies := Some cookies |> <| state_headers := headers |>)
            | None => (jar, s)
            end in
          match run_hook s hook with
          | Err e => (Err e, jar, s)
          | Ok _ => (Ok route, jar, s)
          end
      end
  end.

(** ** Responses *)

Record PendingResponsePolicyAction := { pending_action : ResponsePolicyAction; pending_snapshot : bool }.

(** [None] when the jar's arithmetic would panic. *)
Definition on_response (status_code : Z) (headers : HeaderPairs) (redirect_hop : Z)
    (hook : result unit string) (now : Z) (jar : CookieStore) (s : RequestState) :
    option (result (option PendingResponsePolicyAction) RequestError * CookieStore * RequestState) :=
  jar ← (match state_cookies s with
         | Some _ => store_response_at jar (state_url s) headers now
         | None => Some jar
         end);
  let s := s <| retry_trace ::= observe_response status_code redirect_hop |> in
  let response := {| resp_headers := headers; resp_status_code := status_code |} in
  let action := on_response_headers (state_policy s) (policy_request s) response in
  match run_hook s hook with
  | Err e => Some (Err e, jar, s)
  | Ok _ =>
      Some (Ok ((fun action => {| pending_action := action;
                                  pending_snapshot := default false (state_policy_hooks s) |}) <$> action),
            jar, s)
  end.

Inductive RetryTrigger := TriggerNetworkError | TriggerStatus (status_code : Z).

Definition trigger_status_code (t : RetryTrigger) : option Z :=
  match t with TriggerStatus s => Some s | TriggerNetworkError => None end.
Definition trigger_error_type (t : RetryTrigger) : option string :=
  match t with TriggerNetworkError => Some "NetworkError" | TriggerStatus _ => None end.
Definition trigger_reason (t : RetryTrigger) : string :=
  match t with TriggerStatus _ => "status" | TriggerNetworkError => "network_error" end.

Record PendingRetryDecision := { pending_decision : RetryDecision; pending_trigger : RetryTrigger }.

Inductive RetryAction := ActionRetry (delay : Z) | ActionStop.

Definition should_retry (p : PendingRetryDecision) : bool :=
  match pending_decision p with Retry _ => true | Stop _ => false end.

Definition pending_retry_action (p : PendingRetryDecision) : RetryAction :=
  match pending_decision p with Retry delay => ActionRetry delay | Stop _ => ActionStop end.

Definition raw_attempt (p : PendingRetryDecision) (attempt : Z) (method origin : string)
    (redirect_hop elapsed : Z) (completion : RetryAttemptCompletion) : RawRetryAttempt :=
  let '(decision, reason, backoff) :=
    match pending_decision p with
    | Retry delay => ("retry", trigger_reason (pending_trigger p), as_secs_f64 delay)
    | Stop NonReplayableBody => ("block_non_replayable", "non_replayable_body", f64_zero)
    | Stop MethodNotAllowed => ("stop", "method_not_allowed", f64_zero)
    | Stop RetriesExhausted => ("stop", "retries_exhausted", f64_zero)
    end in
  {| RetryTrace.attempt := attempt; attempt_method := method; attempt_origin := origin;
     attempt_redirect_hop := redirect_hop; attempt_status_code := trigger_status_code (pending_trigger p);
     attempt_error_type := trigger_error_type (pending_trigger p); attempt_decision := Some decision;
     attempt_reason := Some reason; attempt_backoff := backoff;
     decision_elapsed := Some (as_secs_f64 elapsed); completed_elapsed := as_secs_f64 elapsed;
     RetryTrace.completion := completion |}.

(** The outer [None] is a panic of the delay's conversion. *)
Definition retry_on_response (status_code : Z) (headers : HeaderPairs) (sample : f64) (now : Z)
    (s : RequestState) : option (option PendingRetryDecision) :=
  if negb (retries_enabled (state_policy s)) then Some None
  else
    match on_retryable_response (state_policy s) (policy_request s)
            {| resp_headers := headers; resp_status_code := status_code |}
            (completed_retries s) sample now with
    | None => Some None
    | Some decision =>
        (fun d => Some {| pending_decision := d; pending_trigger := TriggerStatus status_code |}) <$> decision
    end.

Definition retry_on_network_error (sample : f64) (s : RequestState) : option (option PendingRetryDecision) :=
  if negb (retries_enabled (state_policy s)) then Some None
  else
    match pipeline_on_network_error (state_policy s) (policy_request s) (completed_retries s) sample with
    | None => Some None
    | Some decision =>
        (fun d => Some {| pending_decision := d; pending_trigger := TriggerNetworkError |}) <$> decision
    end.

Definition commit_retry_decision (p : PendingRetryDecision) (elapsed redirect_hop : Z)
    (completion : RetryAttemptCompletion) (s : RequestState) : RetryAction * RequestState :=
  (pending_retry_action p,
   s <| retry_trace ::= record_attempt
          (raw_attempt p (retry_attempt s) (state_method s) (origin (state_url s)) redirect_hop
             elapsed completion) |>).

Definition advance_retry_attempt (s : RequestState) : RequestState :=
  s <| completed_retries ::= fun n => n + 1 |> <| retry_attempt ::= fun n => n + 1 |>.

Definition finish_retry_trace (outcome : RetryTraceOutcome) (status_code : option Z)
    (redirect_hop elapsed : Z) (s : RequestState) : option RawRetryTrace * RequestState :=
  if negb (is_enabled (retry_trace s)) then (None, s)
  else
    let observed := observed_response (retry_trace s) in
    let terminal :=
      {| RetryTrace.attempt := retry_attempt s; attempt_method := state_method s;
         attempt_origin := origin (state_url s);
         attempt_redirect_hop := match observed with
                                 | Some r => observed_redirect_hop r | None => redirect_hop end;
         attempt_status_code := match status_code with
                                | Some c => Some c | None => observed_status_code <$> observed end;
         attempt_error_type := None; attempt_decision := None; attempt_reason := None;
         attempt_backoff := f64_zero; decision_elapsed := None;
         completed_elapsed := as_secs_f64 elapsed; RetryTrace.completion := CompletionComplete |} in
    let (trace, recorder) := finish_trace terminal outcome status_code (as_secs_f64 elapsed) (retry_trace s) in
    (trace, s <| retry_trace := recorder |>).

Definition apply_policy_mutation (m : PolicyMutation) (s : RequestState) : RequestState :=
  let s := remove_managed_cookies s in
  let s := s <| state_method := mutation_method m |> <| state_url := mutation_url m |> in
  let s := match state_auth s with
           | Some auth =>
               let (auth, headers) := auth_on_redirect auth (mutation_body m) (mutation_header_policy m) in
               s <| state_auth := Some auth |> <| state_headers := headers |>
           | None =>
               s <| state_headers ::= fun hs => redirect_headers hs (mutation_body m) (mutation_header_policy m) |>
           end in
  let s := if bool_decide (mutation_header_policy m = CrossOrigin) then s <| state_auth := None |> else s in
  if bool_decide (mutation_body m = Drop)
  then s <| state_body := EmptyBody |> <| state_body_policy := BodyEmpty |> else s.

Definition after_body (p : PendingResponsePolicyAction) (completed_redirects : Z)
    (hook : result unit string) (s : RequestState) : result unit RequestError * RequestState :=
  match after_response_body (state_policy s) (policy_request s) (pending_action p) completed_redirects with
  | Err e => (Err (PolicyFailure e), s)
  | Ok mutation =>
      match (if pending_snapshot p then run_hook s hook else Ok tt) with
      | Err e => (Err e, s)
      | Ok _ => (Ok tt, apply_policy_mutation mutation s)
      end
  end.

(** ** Credentials and origins *)

Definition CREDENTIALS : list string := ["authorization"; "cookie"; "origin"; "referer"].

(** A header of the caller's that may go where the request is: anywhere before a
    redirect to another origin; after it, no credential and none of the names [P] the
    authentication provider has ever set. *)
Definition clean_header (initial : HeaderPairs) (crossed : bool) (P : gset string) (h : string * string) : Prop :=
  h ∈ initial /\
  (crossed = true -> header_in (fst h) CREDENTIALS = false /\ to_ascii_lowercase (fst h) ∉ P).

Definition managed (s : RequestState) : bool :=
  match state_cookies s with Some c => managed_header c | None => false end.

Record creds_ok (initial : HeaderPairs) (u0 : HttpUrl) (crossed : bool) (P : gset string)
    (s : RequestState) : Prop := {
  creds_auth : forall a, state_auth s = Some a ->
    crossed = false /\ sensitive_headers a = P /\ forall h, h ∈ base_headers a -> h ∈ initial;
  creds_noauth : state_auth s = None -> crossed = true \/ P = ∅;
  creds_origin : crossed = false -> is_same_origin u0 (state_url s) = true;
  creds_headers : forall h, h ∈ state_headers s ->
    clean_header initial crossed P h \/ (managed s = true /\ is_cookie_header h = true) \/
    (is_Some (state_auth s) /\ to_ascii_lowercase (fst h) ∈ P);
}.

Lemma creds_remove_managed initial u0 crossed P s :
  creds_ok initial u0 crossed P s ->
  creds_ok initial u0 crossed P (remove_managed_cookies s) /\ managed (remove_managed_cookies s) = false /\
  state_url (remove_managed_cookies s) = state_url s /\
  state_auth (remove_managed_cookies s) = state_auth s /\
  state_policy (remove_managed_cookies s) = state_policy s.
Proof.
  intros Hok. unfold remove_managed_cookies, remove_managed_header, managed.
  destruct (state_cookies s) as [c|] eqn:Hc; [|by rewrite Hc].
  destruct (managed_header c) eqn:Hm; cbn; (split_and!; try done).
  - destruct Hok. split; cbn; try done. intros h [Hn Hh]%list_elem_of_filter.
    destruct (creds_headers0 h Hh) as [?|[[_ ?]|?]]; [by left|congruence|by right; right].
  - destruct Hok. split; cbn; try done. intros h Hh.
    destruct (creds_headers0 h Hh) as [?|[[Hmg _]|?]]; [by left| |by right; right].
    unfold managed in Hmg. rewrite Hc in Hmg. congruence.
Qed.

Lemma lower_names_elem hs h : h ∈ hs -> to_ascii_lowercase (fst h) ∈ lower_names hs.
Proof.
  intros Hh. unfold lower_names. rewrite elem_of_list_to_set. apply list_elem_of_fmap. by exists h.
Qed.

Lemma auth_apply_spec a headers hook r a' headers' :
  auth_apply a headers hook = (r, a', headers') ->
  provider a' = provider a /\ base_headers a' = base_headers a /\
  sensitive_headers a ⊆ sensitive_headers a' /\
  forall h, h ∈ headers' -> h ∈ headers \/ h ∈ base_headers a \/
    to_ascii_lowercase (fst h) ∈ sensitive_headers a'.
Proof.
  unfold auth_apply.
  destruct (if bool_decide (active_headers a = ∅) then _ else _) as [a1 hs1] eqn:Hreset.
  assert (Ha1 : provider a1 = provider a /\ base_headers a1 = base_headers a /\
    sensitive_headers a1 = sensitive_headers a /\ forall h, h ∈ hs1 -> h ∈ headers \/ h ∈ base_headers a).
  { case_bool_decide; injection Hreset as <- <-; split_and!; auto. }
  destruct Ha1 as (Hp & Hb & Hs & Hhs).
  destruct (header_updates _ _) as [updates|e]; intros [= <- <- <-].
  - cbn. rewrite Hp, Hb, Hs. split_and!; [done|done|set_solver|].
    intros h [[_ Hh]%list_elem_of_filter|Hh]%elem_of_app.
    + destruct (Hhs h Hh); auto.
    + right; right. apply elem_of_union_r. by apply lower_names_elem.
  - rewrite Hp, Hb, Hs. split_and!; [done|done|done|]. intros h Hh. destruct (Hhs h Hh); auto.
Qed.

(** The names set so far, after a step. *)
Definition names_set (P : gset string) (s : RequestState) : gset string :=
  match state_auth s with Some a => sensitive_headers a | None => P end.

(** A header the cookie jar provides for this URL. *)
Definition jar_header (url : HttpUrl) (h : string * string) : Prop :=
  exists jar now v, fst (request_header_at jar url now) = Some v /\ h = (COOKIE_HEADER_WIRE_NAME, v).

Lemma attach_spec c jar url headers now c' headers' jar' :
  attach c jar url headers now = (c', headers', jar') ->
  (c' = c /\ headers' = headers) \/
  (managed_header c' = true /\ exists v, fst (request_header_at jar url now) = Some v /\
   headers' = headers ++ [(COOKIE_HEADER_WIRE_NAME, v)]).
Proof.
  unfold attach. destruct (existsb _ _); [intros [= <- <- _]; by left|].
  destruct (request_header_at jar url now) as [[v|] j]; intros [= <- <- _]; [right|by left].
  split; [done|]. by exists v.
Qed.

(** The authentication step of [transport_route]. *)
Lemma authenticate_creds initial u0 crossed P auth_hook s r s' :
  creds_ok initial u0 crossed P s -> managed s = false ->
  match state_auth s with
  | Some auth =>
      let '(r, auth, headers) := auth_apply auth (state_headers s) auth_hook in
      (r, s <| state_auth := Some auth |> <| state_headers := headers |>)
  | None => (Ok tt, s)
  end = (r, s') ->
  let P' := names_set P s' in
  creds_ok initial u0 crossed P' s' /\ P ⊆ P' /\ state_url s' = state_url s /\ managed s' = false /\
  forall h, h ∈ state_headers s' -> clean_header initial crossed P' h \/
    (is_Some (state_auth s') /\ to_ascii_lowercase (fst h) ∈ P').
Proof.
  intros Hok Hm. destruct (state_auth s) as [a|] eqn:Ha.
  - destruct (creds_auth _ _ _ _ _ Hok a Ha) as (-> & Hs & Hbase).
    destruct (auth_apply a (state_headers s) auth_hook) as [[r1 a1] hs1] eqn:Happ.
    destruct (auth_apply_spec _ _ _ _ _ _ Happ) as (_ & Hb & Hsub & Hhs). intros [= <- <-].
    unfold names_set; cbn.
    assert (Hclean : forall h, h ∈ hs1 -> clean_header initial false (sensitive_headers a1) h \/
      to_ascii_lowercase (fst h) ∈ sensitive_headers a1).
    { intros h Hh. destruct (Hhs h Hh) as [Hin|[Hin|Hin]]; [|left; split; [auto|done]|by right].
      destruct (creds_headers _ _ _ _ _ Hok h Hin) as [[Hi _]|[[Hmg _]|[_ Hp]]];
        [left; split; done|congruence|right; set_solver]. }
    split_and!; [|set_solver|done|done|intros h Hh; destruct (Hclean h Hh); eauto].
    split; cbn; try done.
    + intros a2 [= <-]. rewrite Hb. done.
    + intros _. by apply (creds_origin _ _ _ _ _ Hok).
    + intros h Hh. destruct (Hclean h Hh); eauto.
  - intros [= <- <-]. unfold names_set. rewrite Ha. split_and!; [done|done|done|done|].
    intros h Hh. destruct (creds_headers _ _ _ _ _ Hok h Hh) as [?|[[? _]|[[? ?] _]]];
      [by left|congruence|congruence].
Qed.

(** The step that attaches the jar's cookies. *)
Lemma attach_creds initial u0 crossed P now jar s jar' s' :
  creds_ok initial u0 crossed P s -> managed s = false ->
  (forall h, h ∈ state_headers s -> clean_header initial crossed P h \/
    (is_Some (state_auth s) /\ to_ascii_lowercase (fst h) ∈ P)) ->
  match state_cookies s with
  | Some cookies =>
      let '(cookies, headers, jar) := attach cookies jar (state_url s) (state_headers s) now in
      (jar, s <| state_cookies := Some cookies |> <| state_headers := headers |>)
  | None => (jar, s)
  end = (jar', s') ->
  creds_ok initial u0 crossed P s' /\ state_url s' = state_url s /\ state_auth s' = state_auth s /\
  forall h, h ∈ state_headers s' -> clean_header initial crossed P h \/ jar_header (state_url s') h \/
    (is_Some (state_auth s') /\ to_ascii_lowercase (fst h) ∈ P).
Proof.
  intros Hok Hm Hclean. destruct (state_cookies s) as [c|] eqn:Hc.
  2: { intros [= <- <-]. split_and!; [done|done|done|]. intros h Hh. destruct (Hclean h Hh); auto. }
  destruct (attach c jar (state_url s) (state_headers s) now) as [[c1 hs1] jar1] eqn:Hat.
  intros [= <- <-]. unfold managed in Hm. rewrite Hc in Hm.
  apply attach_spec in Hat as [[-> ->]|(Hm1 & v & Hv & ->)]; cbn.
  - split_and!; [|done|done|intros h Hh; destruct (Hclean h Hh); auto].
    destruct Hok. split; cbn; try done. intros h Hh. destruct (Hclean h Hh); auto.
  - split_and!; [|done|done|].
    + destruct Hok. split; cbn; try done. intros h [Hh|Hh%list_elem_of_singleton]%elem_of_app.
      * destruct (Hclean h Hh); auto.
      * right; left. unfold managed. cbn. split; [done|]. by subst.
    + intros h [Hh|Hh%list_elem_of_singleton]%elem_of_app; [destruct (Hclean h Hh); auto|].
      right; left. exists jar, now, v. done.
Qed.

Lemma transport_route_creds initial u0 crossed P auth_hook hook now jar s r jar' s' :
  creds_ok initial u0 crossed P s ->
  transport_route auth_hook hook now jar s = (r, jar', s') ->
  let P' := names_set P s' in
  creds_ok initial u0 crossed P' s' /\ P ⊆ P' /\ state_url s' = state_url s /\
  (forall h, h ∈ state_headers s' -> clean_header initial crossed P' h \/ jar_header (state_url s') h \/
     (is_Some (state_auth s') /\ to_ascii_lowercase (fst h) ∈ P')).
Proof.
  intros Hok. unfold transport_route.
  destruct (creds_remove_managed _ _ _ _ _ Hok) as (Hok1 & Hm1 & Hu1 & _).
  set (s1 := remove_managed_cookies s) in *. clearbody s1.
  assert (Hclean1 : forall h, h ∈ state_headers s1 -> clean_header initial crossed P h \/
    (is_Some (state_auth s1) /\ to_ascii_lowercase (fst h) ∈ P)).
  { intros h Hh. destruct (creds_headers _ _ _ _ _ Hok1 h Hh) as [?|[[? _]|?]]; auto. congruence. }
  destruct (before_send _ _) as [route|e].
  2: { intros [= <- <- <-]. assert (E : names_set P s1 = P).
       { unfold names_set. destruct (state_auth s1) as [a|] eqn:Ha; [|done].
         by destruct (creds_auth _ _ _ _ _ Hok1 a Ha) as (_ & ? & _). }
       cbn. rewrite E. split_and!; [done|done|done|]. intros h Hh. destruct (Hclean1 h Hh); auto. }
  destruct (match state_auth s1 with Some _ => _ | None => _ end) as [authenticated s2] eqn:Hauth.
  destruct (authenticate_creds _ _ _ _ _ _ _ _ Hok1 Hm1 Hauth) as (Hok2 & HP & Hu2 & Hm2 & Hclean2).
  destruct authenticated as [[]|e].
  2: { intros [= <- <- <-]. cbn. split_and!; [done|done|congruence|].
       intros h Hh. destruct (Hclean2 h Hh); auto. }
  destruct (match state_cookies s2 with Some _ => _ | None => _ end) as [jar2 s3] eqn:Hcook.
  destruct (attach_creds _ _ _ _ _ _ _ _ _ Hok2 Hm2 Hclean2 Hcook) as (Hok3 & Hu3 & Ha3 & Hclean3).
  assert (E : names_set P s3 = names_set P s2) by (unfold names_set; by rewrite Ha3).
  destruct (run_hook s3 hook); intros [= <- <- <-]; cbn; rewrite E; split_and!; try done; congruence.
Qed.

Lemma is_same_origin_trans a b c :
  is_same_origin a b = true -> is_same_origin b c = true -> is_same_origin a c = true.
Proof.
  unfold is_same_origin, is_same. rewrite !andb_true_iff, !String.eqb_eq, !bool_decide_eq_true, !Z.eqb_eq.
  intuition congruence.
Qed.

Lemma elem_of_cross_headers hs body policy h :
  h ∈ redirect_headers hs body policy ->
  h ∈ hs /\ (policy = CrossOrigin -> header_in (fst h) CREDENTIALS = false).
Proof.
  intros [Hh Hk]%elem_of_redirect_headers. split; [done|].
  by apply keep_redirect_header_inv in Hk as (_ & _ & _ & _ & Hx).
Qed.

(** The redirected state, field by field. *)
Lemma apply_mutation_fields m s :
  let s1 := remove_managed_cookies s in
  let s' := apply_policy_mutation m s in
  state_url s' = mutation_url m /\ state_policy s' = state_policy s /\
  state_cookies s' = state_cookies s1 /\
  state_auth s' = (if bool_decide (mutation_header_policy m = CrossOrigin) then None
                   else (fun a => fst (auth_on_redirect a (mutation_body m) (mutation_header_policy m)))
                          <$> state_auth s1) /\
  state_headers s' = match state_auth s1 with
                     | Some a => snd (auth_on_redirect a (mutation_body m) (mutation_header_policy m))
                     | None => redirect_headers (state_headers s1) (mutation_body m) (mutation_header_policy m)
                     end.
Proof.
  cbn. assert (Hp : state_policy (remove_managed_cookies s) = state_policy s).
  { unfold remove_managed_cookies. destruct (state_cookies s); [|done].
    by destruct (remove_managed_header _ _). }
  unfold apply_policy_mutation. set (s1 := remove_managed_cookies s) in *. clearbody s1.
  cbn. destruct (state_auth s1) as [a|] eqn:Ha; [destruct (auth_on_redirect a _ _) as [a' hs'] eqn:Har|];
    do 2 case_bool_decide; cbn; by rewrite ?Ha, ?Har.
Qed.

Lemma apply_mutation_creds initial u0 crossed P m s :
  creds_ok initial u0 crossed P s ->
  mutation_header_policy m =
    (if is_same_origin (state_url s) (mutation_url m) then SameOrigin else CrossOrigin) ->
  creds_ok initial u0 (crossed || bool_decide (mutation_header_policy m = CrossOrigin)) P
    (apply_policy_mutation m s).
Proof.
  intros Hok Hpol. destruct (apply_mutation_fields m s) as (Eu & _ & Ec & Ea & Eh).
  destruct (creds_remove_managed _ _ _ _ _ Hok) as (Hok1 & Hm1 & Hu1 & _).
  set (s1 := remove_managed_cookies s) in *. clearbody s1.
  assert (Hm : managed (apply_policy_mutation m s) = false) by (unfold managed in *; by rewrite Ec).
  set (s' := apply_policy_mutation m s) in *. clearbody s'.
  assert (Hheaders : forall h, h ∈ state_headers s' ->
    clean_header initial (crossed || bool_decide (mutation_header_policy m = CrossOrigin)) P h).
  { intros h. rewrite Eh. destruct (state_auth s1) as [a|] eqn:Ha1.
    - destruct (creds_auth _ _ _ _ _ Hok1 a Ha1) as (-> & HP & Hbase). unfold auth_on_redirect. cbn.
      case_bool_decide as Hcross; cbn.
      + intros [Hs [Hh Hk]%elem_of_cross_headers]%list_elem_of_filter. split; [auto|].
        intros _. rewrite <- HP. auto.
      + intros [Hh _]%elem_of_cross_headers. split; [auto|done].
    - intros [Hh Hk]%elem_of_cross_headers.
      destruct (creds_headers _ _ _ _ _ Hok1 h Hh) as [[Hi Hc]|[[? _]|[[? ?] _]]]; [|congruence|congruence].
      split; [done|]. intros [->|Hcross%bool_decide_eq_true]%orb_true_iff; [by apply Hc|].
      split; [by apply Hk|]. destruct crossed; [by apply Hc|].
      destruct (creds_noauth _ _ _ _ _ Hok1 Ha1) as [?| ->]; [done|set_solver]. }
  split.
  - intros a. rewrite Ea. case_bool_decide as Hcross; [done|].
    destruct (state_auth s1) as [a1|] eqn:Ha1; [|done]. cbn. intros [= <-].
    destruct (creds_auth _ _ _ _ _ Hok1 a1 Ha1) as (-> & HP & Hbase).
    unfold auth_on_redirect. rewrite bool_decide_false by done. cbn. split_and!; [done|done|].
    intros h [Hh _]%elem_of_cross_headers. auto.
  - rewrite Ea. case_bool_decide; [intros _; left; apply orb_true_r|]. intros Hn.
    destruct (state_auth s1) as [a1|] eqn:Ha1; [done|].
    rewrite orb_false_r. by apply (creds_noauth _ _ _ _ _ Hok1).
  - intros [-> Hcross]%orb_false_iff. apply bool_decide_eq_false in Hcross. rewrite Eu.
    pose proof (creds_origin _ _ _ _ _ Hok1 eq_refl) as Ho. rewrite Hu1 in Ho.
    destruct (is_same_origin (state_url s) (mutation_url m)) eqn:Hs; [|by rewrite Hpol in Hcross].
    by eapply is_same_origin_trans.
  - intros h Hh. left. by apply Hheaders.
Qed.

(** Operations that leave the headers, the origin and the credentials alone. *)
Lemma creds_same initial u0 crossed P s s' :
  creds_ok initial u0 crossed P s -> state_auth s' = state_auth s -> state_url s' = state_url s ->
  state_headers s' = state_headers s -> state_cookies s' = state_cookies s ->
  creds_ok initial u0 crossed P s'.
Proof.
  intros [] E1 E2 E3 E4. split; rewrite ?E1, ?E2, ?E3; try done.
  unfold managed. by rewrite E4.
Qed.
End request.
