(* ===== verification/RequestLoop.v ===== *)
(** * The request loop

    [src/src/py/client/transport/{buffered,streaming,retry}.rs]: the loop over the
    attempts of one logical request, buffered or streamed.  An iteration is a function
    of the state and of what its environment did ([Hop]): hooks, the acquire gate, the
    transport, the clock and the shared cookie jar.  It records what others observe of
    it: permits taken and dropped, requests sent, and waits. *)

From S2P Require Import Prelude RustStr Http Numeric Policy Redirect Retry Ssrf Pipeline Cookies RetryTrace RequestState.

Local Open Scope Z_scope.

Inductive Mode := BufferedMode | StreamMode.

Section loop.
Context `{UrlCrate} `{HttpCrate} `{HttpDate} `{CookieCrates}.

(** The result of [send_current_hop]. *)
Inductive SendOutcome :=
| SendFailed (error : RequestError)
| TransportFailed (retryable : bool) (error : RequestError)
| Responded (status_code : Z) (headers : HeaderPairs).

Record Hop := {
  hop_auth : result HeaderPairs string;
  hop_before_send : result unit string;
  hop_route_jar : CookieStore;
  hop_route_now : Z;
  hop_acquire : result unit RequestError;
  hop_send : SendOutcome;
  hop_response_jar : CookieStore;
  hop_response_now : Z;
  hop_on_headers : result unit string;
  hop_sample : f64;
  hop_elapsed : Z;
  (** draining a response, waiting for a retry, collecting a body *)
  hop_drain : result unit RequestError;
  hop_wait : result unit RequestError;
  hop_body : result unit RequestError;
  hop_after_body : result unit string;
}.

Inductive Event :=
| PermitAcquired (origin : string)
(** [sensitive] is what the request information of this hop masks. *)
| Sent (route : TransportRoute) (url : HttpUrl) (parts : RequestParts) (sensitive : gset string)
| PermitDropped
| PermitHandedOver
| Waited (delay : Z).

Inductive Outcome :=
| Continue
| Returned (status_code : Z)
| Failed (error : RequestError)
| Panicked.

(** [retry_after_network_error]: whether to continue, with the permit dropped. *)
Definition retry_after_network_error (retryable : bool) (error : RequestError) (h : Hop)
    (redirect_hop : Z) (s : RequestState) : Outcome * RequestState * list Event :=
  if negb retryable then (Failed error, s, [PermitDropped])
  else
    match retry_on_network_error (hop_sample h) s with
    | None => (Panicked, s, [PermitDropped])
    | Some None => (Failed error, s, [PermitDropped])
    | Some (Some pending) =>
        let (action, s) := commit_retry_decision pending (hop_elapsed h) redirect_hop CompletionComplete s in
        match action with
        | ActionStop => (Failed error, s, [PermitDropped])
        | ActionRetry delay =>
            match hop_wait h with
            | Err e => (Failed e, s, [PermitDropped; Waited delay])
            | Ok _ => (Continue, advance_retry_attempt s, [PermitDropped; Waited delay])
            end
        end
    end.

(** [retry_after_response], for a decision to retry after [delay]. *)
Definition retry_after_response (pending : PendingRetryDecision) (h : Hop) (redirect_hop : Z)
    (s : RequestState) : Outcome * RequestState * list Event :=
  match hop_drain h with
  | Err e => (Failed e, s, [PermitDropped])
  | Ok _ =>
      let (action, s) := commit_retry_decision pending (hop_elapsed h) redirect_hop CompletionComplete s in
      match action with
      | ActionStop => (Panicked, s, [PermitDropped])
      | ActionRetry delay =>
          match hop_wait h with
          | Err e => (Failed e, s, [PermitDropped; Waited delay])
          | Ok _ => (Continue, advance_retry_attempt s, [PermitDropped; Waited delay])
          end
      end
  end.

(** The end of an iteration whose response is not retried. *)
Definition finish_response (m : Mode) (action : option PendingResponsePolicyAction) (status_code : Z)
    (h : Hop) (redirect_hop : Z) (s : RequestState) : Outcome * RequestState * Z * list Event :=
  match m, action with
  | StreamMode, None => (Returned status_code, s, redirect_hop, [PermitHandedOver])
  | _, _ =>
      match hop_body h with
      | Err e => (Failed e, s, redirect_hop, [PermitDropped])
      | Ok _ =>
          match action with
          | None => (Returned status_code, s, redirect_hop, [PermitDropped])
          | Some action =>
              match after_body action redirect_hop (hop_after_body h) s with
              | (Err e, s) => (Failed e, s, redirect_hop, [PermitDropped])
              | (Ok _, s) => (Continue, s, redirect_hop + 1, [PermitDropped])
              end
          end
      end
  end.

(** An iteration from its response. *)
Definition after_send (m : Mode) (status_code : Z) (headers : HeaderPairs) (h : Hop) (redirect_hop : Z)
    (s : RequestState) : Outcome * RequestState * Z * list Event :=
  match on_response status_code headers redirect_hop (hop_on_headers h) (hop_response_now h)
          (hop_response_jar h) s with
  | None => (Panicked, s, redirect_hop, [PermitDropped])
  | Some (Err e, _, s) => (Failed e, s, redirect_hop, [PermitDropped])
  | Some (Ok action, _, s) =>
      match (match action with
             | None => retry_on_response status_code headers (hop_sample h) (hop_response_now h) s
             | Some _ => Some None
             end) with
      | None => (Panicked, s, redirect_hop, [PermitDropped])
      | Some None => finish_response m action status_code h redirect_hop s
      | Some (Some pending) =>
          if should_retry pending then
            let '(o, s, es) := retry_after_response pending h redirect_hop s in (o, s, redirect_hop, es)
          else
            let (_, s) := commit_retry_decision pending (hop_elapsed h) redirect_hop
                            (match m with BufferedMode => CompletionPending | StreamMode => CompletionComplete end) s in
            finish_response m action status_code h redirect_hop s
      end
  end.

(** One iteration; [redirect_hop] is the length of the history. *)
Definition iteration (m : Mode) (h : Hop) (redirect_hop : Z) (s : RequestState) :
    Outcome * RequestState * Z * list Event :=
  let s := begin_hop s in
  match transport_route (hop_auth h) (hop_before_send h) (hop_route_now h) (hop_route_jar h) s with
  | (Err e, _, s) => (Failed e, s, redirect_hop, [])
  | (Ok route, _, s) =>
      let o := origin (state_url s) in
      match hop_acquire h with
      | Err e => (Failed e, s, redirect_hop, [])
      | Ok _ =>
          let before := [PermitAcquired o;
                         Sent route (state_url s) (take_request_parts route s) (request_sensitive_headers s)] in
          match hop_send h with
          | SendFailed e => (Failed e, s, redirect_hop, before ++ [PermitDropped])
          | TransportFailed retryable e =>
              let '(outcome, s, es) := retry_after_network_error retryable e h redirect_hop s in
              (outcome, s, redirect_hop, before ++ es)
          | Responded status_code headers =>
              let '(outcome, s, redirect_hop, es) := after_send m status_code headers h redirect_hop s in
              (outcome, s, redirect_hop, before ++ es)
          end
      end
  end.

(** [send_request_attempts]: the loop, as long as the environment acts. *)
Fixpoint attempts_loop (m : Mode) (hops : list Hop) (redirect_hop : Z) (s : RequestState) :
    Outcome * RequestState * Z * list Event :=
  match hops with
  | [] => (Continue, s, redirect_hop, [])
  | h :: hops =>
      match iteration m h redirect_hop s with
      | (Continue, s, redirect_hop, es) =>
          let '(o, s, redirect_hop, es') := attempts_loop m hops redirect_hop s in
          (o, s, redirect_hop, es ++ es')
      | done => done
      end
  end.

(** [send_request]: the loop from a fresh state, and the trace it ends with. *)
Definition send_request (m : Mode) (hops : list Hop) (elapsed : Z) (s : RequestState) :
    Outcome * option RawRetryTrace * list Event :=
  let '(outcome, s, redirect_hop, es) := attempts_loop m hops 0 s in
  let (trace, _) :=
    match outcome with
    | Returned status_code =>
        finish_retry_trace OutcomeResponse (Some status_code) redirect_hop elapsed s
    | Failed _ => finish_retry_trace OutcomeError None redirect_hop elapsed s
    | _ => (None, s)
    end in
  (outcome, trace, es).

(** ** What an iteration does *)

(** Nothing changed but the trace, to which [added] was recorded. *)
Record stepped (s s' : RequestState) (added : list RawRetryAttempt) : Prop := {
  stepped_auth : state_auth s' = state_auth s;
  stepped_request : policy_request s' = policy_request s;
  stepped_url : state_url s' = state_url s;
  stepped_headers : state_headers s' = state_headers s;
  stepped_cookies : state_cookies s' = state_cookies s;
  stepped_policy : state_policy s' = state_policy s;
  stepped_attempt : retry_attempt s' = retry_attempt s;
  stepped_completed : completed_retries s' = completed_retries s;
  stepped_trace : attempts (retry_trace s') = (fun l => l ++ added) <$> attempts (retry_trace s);
  stepped_added : Forall (fun a => attempt a = retry_attempt s) added;
}.

Definition redirect_limit (p : PolicyPipeline) : Z :=
  match pipeline_redirect p with Some r => max_redirects r | None => 0 end.
Definition retry_limit (p : PolicyPipeline) : Z :=
  match pipeline_retry p with Some r => retries r | None => 0 end.

(** What an iteration records: nothing or an attempt that is not retried; or one that is, after
    a delay, at the origin it was sent to. *)
Definition stopped (a : RawRetryAttempt) : Prop := attempt_decision a <> Some "retry"%string.

Definition stops (added : list RawRetryAttempt) : Prop :=
  match added with [] => True | [a] => stopped a | _ => False end.

Definition retried (url : HttpUrl) (delay : Z) (a : RawRetryAttempt) : Prop :=
  attempt_decision a = Some "retry"%string /\ attempt_backoff a = as_secs_f64 delay /\ attempt_origin a = origin url.

(** The ends of an iteration that sent its request from the state [s]. *)
Inductive settles (m : Mode) (n : Z) (s : RequestState) : Outcome -> RequestState -> Z -> list Event -> Prop :=
| settles_end o s' added :
    o <> Continue -> stepped s s' added -> stops added ->
    settles m n s o s' n [PermitDropped]
| settles_handed_over code s' added :
    m = StreamMode -> stepped s s' added -> stops added ->
    settles m n s (Returned code) s' n [PermitHandedOver]
| settles_wait_failed e d s' a :
    stepped s s' [a] -> retried (state_url s) d a -> settles m n s (Failed e) s' n [PermitDropped; Waited d]
| settles_retry d s' a :
    stepped s s' [a] -> retried (state_url s) d a -> complete a -> completed_retries s < retry_limit (state_policy s) ->
    settles m n s Continue (advance_retry_attempt s') n [PermitDropped; Waited d]
| settles_redirect mutation s' :
    stepped s s' [] -> n < redirect_limit (state_policy s) ->
    mutation_header_policy mutation =
      (if is_same_origin (state_url s) (mutation_url mutation) then SameOrigin else CrossOrigin) ->
    settles m n s Continue (apply_policy_mutation mutation s') (n + 1) [PermitDropped].

Lemma stepped_refl s : stepped s s [].
Proof.
  split; try done. destruct (attempts (retry_trace s)) as [l|]; [|done]. cbn. by rewrite app_nil_r.
Qed.

Lemma stepped_trans s1 s2 s3 l : stepped s1 s2 [] -> stepped s2 s3 l -> stepped s1 s3 l.
Proof.
  intros [] [Ea Er Eu Eh Ec Ep Et En El Ef]. split; try congruence.
  - rewrite El, stepped_trace0. destruct (attempts (retry_trace s1)) as [l1|]; [|done]. cbn.
    by rewrite app_nil_r.
  - by rewrite stepped_attempt0 in Ef.
Qed.

Lemma commit_stepped pending elapsed n c s action s' :
  commit_retry_decision pending elapsed n c s = (action, s') ->
  action = pending_retry_action pending /\ exists a, stepped s s' [a] /\ completion a = c /\
    match action with ActionRetry d => retried (state_url s) d a | ActionStop => stopped a end.
Proof.
  intros [= <- <-]. split; [done|].
  exists (raw_attempt pending (retry_attempt s) (state_method s) (origin (state_url s)) n elapsed c).
  assert (Hraw : forall k o e, attempt (raw_attempt pending k (state_method s) o n e c) = k /\
                               completion (raw_attempt pending k (state_method s) o n e c) = c)
    by (intros; unfold raw_attempt; by destruct (pending_decision pending) as [|[]]).
  split; [|split; [apply Hraw|]].
  2: { unfold pending_retry_action, retried, stopped, raw_attempt. by destruct (pending_decision pending) as [d|[]]. }
  split; cbn; try done.
  - unfold record_attempt. by destruct (attempts (retry_trace s)) as [l|] eqn:E; cbn; rewrite ?E.
  - constructor; [apply Hraw|done].
Qed.

Lemma decision_retry_limit p request completed sample minimum d :
  decision p request completed sample minimum = Some (Retry d) -> completed < retries p.
Proof.
  unfold decision. destruct (negb (can_replay _)); [done|]. destruct (negb _); [done|].
  destruct (Z.leb_spec (retries p) completed); [done|]. done.
Qed.

Lemma network_retry_limit sample s pending d :
  retry_on_network_error sample s = Some (Some pending) -> pending_retry_action pending = ActionRetry d ->
  completed_retries s < retry_limit (state_policy s).
Proof.
  unfold retry_on_network_error, pipeline_on_network_error, retry_limit, on_network_error, pending_retry_action.
  destruct (negb _); [done|]. destruct (pipeline_retry _) as [p|]; [|done].
  destruct (network_errors p); [|done]. destruct (decision _ _ _ _ _) as [dec|] eqn:Hd; [|done].
  cbn. intros [= <-]. cbn. destruct dec as [d'|]; [|done]. intros _. by eapply decision_retry_limit.
Qed.

Lemma response_retry_limit code headers sample now s pending d :
  retry_on_response code headers sample now s = Some (Some pending) ->
  pending_retry_action pending = ActionRetry d -> completed_retries s < retry_limit (state_policy s).
Proof.
  unfold retry_on_response, on_retryable_response, retry_limit, Retry.on_response, pending_retry_action.
  destruct (negb _); [done|]. destruct (pipeline_retry _) as [p|]; [|done].
  case_bool_decide; [|done]. destruct (decision _ _ _ _ _) as [dec|] eqn:Hd; [|done].
  cbn. intros [= <-]. cbn. destruct dec as [d'|]; [|done]. intros _. by eapply decision_retry_limit.
Qed.
Lemma on_response_stepped code headers n hook now jar s r jar' s' :
  on_response code headers n hook now jar s = Some (r, jar', s') ->
  stepped s s' [] /\
  forall action, r = Ok (Some action) -> exists redirect decision,
    pipeline_redirect (state_policy s) = Some redirect /\
    redirect_decision (policy_request s) {| resp_headers := headers; resp_status_code := code |} = Some decision /\
    pending_action action = {| action_decision := decision; action_max_redirects := max_redirects redirect |}.
Proof.
  unfold on_response, on_response_headers.
  destruct (match state_cookies s with Some _ => _ | None => _ end) as [jar1|]; [|done]. cbn.
  set (s1 := s <| retry_trace ::= _ |>). intros Hr.
  assert (Hs : s' = s1 /\ (r = Ok None \/ (exists e, r = Err e) \/ exists action, r = Ok (Some action) /\
    exists redirect decision, pipeline_redirect (state_policy s) = Some redirect /\
    redirect_decision (policy_request s) {| resp_headers := headers; resp_status_code := code |} = Some decision /\
    pending_action action = {| action_decision := decision; action_max_redirects := max_redirects redirect |})).
  { change (policy_request s1) with (policy_request s) in Hr.
    destruct (run_hook s1 hook); [|injection Hr as <- _ <-; eauto 10].
    injection Hr as <- _ <-. split; [done|].
    destruct (pipeline_redirect (state_policy s)) as [redirect|]; [|by left].
    destruct (redirect_decision _ _) as [decision|]; [|by left].
    right; right. eexists; split; [done|]. by exists redirect, decision. }
  destruct Hs as [-> Hs]. split.
  - split; try done. unfold s1, observe_response, is_enabled. cbn.
    destruct (attempts (retry_trace s)) as [l|] eqn:E; cbn; rewrite ?E; cbn; by rewrite ?app_nil_r.
  - intros action ->. destruct Hs as [?|[[? ?]|(? & [= <-] & Hs)]]; done.
Qed.

Lemma after_body_redirects action n hook s s' headers code redirect decision :
  pipeline_redirect (state_policy s) = Some redirect ->
  redirect_decision (policy_request s) {| resp_headers := headers; resp_status_code := code |} = Some decision ->
  pending_action action = {| action_decision := decision; action_max_redirects := max_redirects redirect |} ->
  after_body action n hook s = (Ok tt, s') ->
  n < redirect_limit (state_policy s) /\
  exists mutation, s' = apply_policy_mutation mutation s /\
    mutation_header_policy mutation =
      (if is_same_origin (state_url s) (mutation_url mutation) then SameOrigin else CrossOrigin).
Proof.
  intros Hp Hd Ha. unfold after_body, after_response_body, redirect_limit. rewrite Ha, Hp. cbn.
  destruct (Z.leb_spec (max_redirects redirect) n); [done|]. unfold redirect_mutation.
  destruct decision as [e|a]; [done|].
  destruct (redirect_decision_follow_facts _ _ _ Hd) as (_ & Hsame & _ & _ & _).
  destruct (_ && negb _); [done|]. destruct (validate_redirect _ _) as [[]|]; [|done]. cbn.
  destruct (if pending_snapshot action then _ else _); intros [= <-]. split; [done|].
  eexists; split; [done|]. cbn. cbn in Hsame.
  destruct (is_same_origin _ _) eqn:E; [by apply Hsame|].
  destruct (action_header_policy a) eqn:Hpol; [|done]. by specialize (proj1 Hsame eq_refl).
Qed.

Lemma after_body_error action n hook s e s' : after_body action n hook s = (Err e, s') -> s' = s.
Proof.
  unfold after_body. destruct (after_response_body _ _ _ _); [|by intros [= _ <-]].
  destruct (if pending_snapshot action then _ else _) as [[]|];
    [by intros [=]|by intros [= _ <-]].
Qed.
(** ** Every iteration settles *)

Lemma network_error_settles m retryable e h n s o s' es :
  retry_after_network_error retryable e h n s = (o, s', es) -> settles m n s o s' n es.
Proof.
  pose proof (stepped_refl s) as Hrefl. unfold retry_after_network_error.
  destruct retryable; cbn [negb];
    [|intros [= <- <- <-]; by apply (settles_end _ _ _ _ _ []); [..|exact I]].
  destruct (retry_on_network_error _ _) as [[pending|]|] eqn:Hp;
    [|intros [= <- <- <-]; by apply (settles_end _ _ _ _ _ []); [..|exact I]
     |intros [= <- <- <-]; by apply (settles_end _ _ _ _ _ []); [..|exact I]].
  destruct (commit_retry_decision _ _ _ _ _) as [action s1] eqn:Hc.
  apply commit_stepped in Hc as (-> & made & Hmade & Hcomplete & Hdecided).
  destruct (pending_retry_action pending) as [d|] eqn:Hact;
    [|intros [= <- <- <-]; by apply (settles_end _ _ _ _ _ [made])].
  destruct (hop_wait h); intros [= <- <- <-]; [|by apply (settles_wait_failed _ _ _ _ _ _ made)].
  apply (settles_retry _ _ _ _ _ made); try done. by eapply network_retry_limit.
Qed.

Lemma response_retry_settles m pending code headers sample now h n s o s' es :
  retry_on_response code headers sample now s = Some (Some pending) ->
  retry_after_response pending h n s = (o, s', es) -> settles m n s o s' n es.
Proof.
  pose proof (stepped_refl s) as Hrefl. intros Hp. unfold retry_after_response.
  destruct (hop_drain h); [|intros [= <- <- <-]; by apply (settles_end _ _ _ _ _ []); [..|exact I]].
  destruct (commit_retry_decision _ _ _ _ _) as [action s1] eqn:Hc.
  apply commit_stepped in Hc as (-> & made & Hmade & Hcomplete & Hdecided).
  destruct (pending_retry_action pending) as [d|] eqn:Hact;
    [|intros [= <- <- <-]; by apply (settles_end _ _ _ _ _ [made])].
  destruct (hop_wait h); intros [= <- <- <-]; [|by apply (settles_wait_failed _ _ _ _ _ _ made)].
  apply (settles_retry _ _ _ _ _ made); try done. by eapply response_retry_limit.
Qed.

(** [s0] is the state the response was received in. *)
Lemma finish_response_settles m action code h n s0 s added o s' n' es headers :
  stepped s0 s added -> stops added -> (is_Some action -> added = []) ->
  (forall a, action = Some a -> exists redirect decision,
    pipeline_redirect (state_policy s) = Some redirect /\
    redirect_decision (policy_request s) {| resp_headers := headers; resp_status_code := code |} = Some decision /\
    pending_action a = {| action_decision := decision; action_max_redirects := max_redirects redirect |}) ->
  finish_response m action code h n s = (o, s', n', es) -> settles m n s0 o s' n' es.
Proof.
  intros Hs Hl Hnone Hfacts. unfold finish_response.
  destruct action as [a|].
  - destruct (Hfacts a eq_refl) as (redirect & dec & Hp & Hd & Ha).
    rewrite (Hnone (mk_is_Some _ _ eq_refl)) in Hs.
    replace (match m with BufferedMode | _ => _ end) with
      (match hop_body h with
       | Err e => (Failed e, s, n, [PermitDropped])
       | Ok _ => match after_body a n (hop_after_body h) s with
                 | (Err e, s) => (Failed e, s, n, [PermitDropped])
                 | (Ok _, s) => (Continue, s, n + 1, [PermitDropped])
                 end
       end) by by destruct m.
    destruct (hop_body h); [|intros [= <- <- <- <-]; by apply (settles_end _ _ _ _ _ []); [..|exact I]].
    destruct (after_body a n (hop_after_body h) s) as [[[]|e] s2] eqn:Hb; intros [= <- <- <- <-].
    + destruct (after_body_redirects _ _ _ _ _ _ _ _ _ Hp Hd Ha Hb) as (Hlim & mutation & -> & Hm).
      apply settles_redirect; [done|by rewrite <- (stepped_policy _ _ _ Hs)|].
      by rewrite <- (stepped_url _ _ _ Hs).
    + apply after_body_error in Hb as ->. by apply (settles_end _ _ _ _ _ []); [..|exact I].
  - destruct m; [|intros [= <- <- <- <-]; by apply (settles_handed_over _ _ _ _ _ added)].
    destruct (hop_body h); intros [= <- <- <- <-]; by apply (settles_end _ _ _ _ _ added).
Qed.

Lemma settles_after m n s s1 o s' n' es :
  stepped s s1 [] -> settles m n s1 o s' n' es -> settles m n s o s' n' es.
Proof.
  intros Hs Hsettle. destruct Hsettle.
  - econstructor; [done|by eapply stepped_trans|done].
  - econstructor; [done|by eapply stepped_trans|done].
  - econstructor; [by eapply stepped_trans|]. by rewrite <- (stepped_url _ _ _ Hs).
  - econstructor; [by eapply stepped_trans|by rewrite <- (stepped_url _ _ _ Hs)|done|].
    by rewrite <- (stepped_completed _ _ _ Hs), <- (stepped_policy _ _ _ Hs).
  - econstructor; [by eapply stepped_trans|by rewrite <- (stepped_policy _ _ _ Hs)|].
    by rewrite <- (stepped_url _ _ _ Hs).
Qed.

Lemma after_send_settles m code headers h n s o s' n' es :
  after_send m code headers h n s = (o, s', n', es) -> settles m n s o s' n' es.
Proof.
  unfold after_send.
  destruct (on_response _ _ _ _ _ _ _) as [[[r jar'] s1]|] eqn:Hr;
    [|intros [= <- <- <- <-]; apply (settles_end _ _ _ _ _ []); [done|apply stepped_refl|exact I]].
  apply on_response_stepped in Hr as [Hs1 Hfacts].
  destruct r as [action|e]; [|intros [= <- <- <- <-]; by apply (settles_end _ _ _ _ _ []); [..|exact I]].
  rewrite <- (stepped_policy _ _ _ Hs1), <- (stepped_request _ _ _ Hs1) in Hfacts.
  intros Hsettle. apply (settles_after _ _ _ s1); [done|]. revert Hsettle.
  pose proof (stepped_refl s1) as Hrefl.
  destruct (match action with None => _ | Some _ => _ end) as [[pending|]|] eqn:Hd.
  3: { intros [= <- <- <- <-]; by apply (settles_end _ _ _ _ _ []); [..|exact I]. }
  2: { apply (finish_response_settles _ _ _ _ _ _ _ [] _ _ _ _ headers); [done|exact I|done|].
       intros a ->. by apply Hfacts. }
  destruct action; [done|]. destruct (should_retry pending) eqn:Hshould.
  - destruct (retry_after_response pending h n s1) as [[o1 s2] es1] eqn:Hra. intros [= <- <- <- <-].
    by eapply response_retry_settles.
  - destruct (commit_retry_decision _ _ _ _ _) as [? s2] eqn:Hc.
    apply commit_stepped in Hc as (-> & made & Hmade & _ & Hdecided).
    apply (finish_response_settles _ _ _ _ _ _ _ [made] _ _ _ _ headers); [done| |by intros []|done].
    unfold should_retry, pending_retry_action in *. by destruct (pending_decision pending).
Qed.

(** An iteration is routed, then sends its request, then settles. *)
Lemma iteration_cases m h n s o s' n' es :
  iteration m h n s = (o, s', n', es) ->
  exists r jar s1, transport_route (hop_auth h) (hop_before_send h) (hop_route_now h) (hop_route_jar h)
                     (begin_hop s) = (r, jar, s1) /\
  ((exists e, o = Failed e /\ s' = s1 /\ n' = n /\ es = []) \/
   exists route es', r = Ok route /\ settles m n s1 o s' n' es' /\
     es = [PermitAcquired (origin (state_url s1));
           Sent route (state_url s1) (take_request_parts route s1) (request_sensitive_headers s1)] ++ es').
Proof.
  unfold iteration.
  destruct (transport_route _ _ _ _ _) as [[r jar] s1]. intros Hi. exists r, jar, s1. split; [done|].
  destruct r as [route|e]; [|injection Hi as <- <- <- <-; left; by exists e].
  destruct (hop_acquire h) as [|e]; [|injection Hi as <- <- <- <-; left; by exists e].
  right. exists route. destruct (hop_send h) as [e|retryable e|code headers].
  - injection Hi as <- <- <- <-. eexists; split; [done|]. split; [|done].
    apply (settles_end _ _ _ _ _ []); [done|apply stepped_refl|exact I].
  - destruct (retry_after_network_error _ _ _ _ _) as [[o1 s2] es1] eqn:Hr. injection Hi as <- <- <- <-.
    eexists; split; [done|]. split; [by eapply network_error_settles|done].
  - destruct (after_send _ _ _ _ _ _) as [[[o1 s2] n2] es1] eqn:Hr. injection Hi as <- <- <- <-.
    eexists; split; [done|]. split; [by eapply after_send_settles|done].
Qed.

Lemma remove_managed_keeps s :
  let s' := remove_managed_cookies s in
  state_policy s' = state_policy s /\ policy_request s' = policy_request s /\
  retry_trace s' = retry_trace s /\ retry_attempt s' = retry_attempt s /\
  completed_retries s' = completed_retries s.
Proof.
  unfold remove_managed_cookies. destruct (state_cookies s); [|done].
  by destruct (remove_managed_header _ _).
Qed.

(** Routing leaves the policies, the URL and the trace; a route is one [before_send] gave. *)
Lemma transport_route_keeps auth_hook hook now jar s r jar' s' :
  transport_route auth_hook hook now jar s = (r, jar', s') ->
  state_policy s' = state_policy s /\ policy_request s' = policy_request s /\
  retry_trace s' = retry_trace s /\ retry_attempt s' = retry_attempt s /\
  completed_retries s' = completed_retries s /\
  forall route, r = Ok route -> before_send (state_policy s') (policy_request s') = Ok route.
Proof.
  unfold transport_route. destruct (remove_managed_keeps s) as (<- & <- & <- & <- & <-).
  generalize (remove_managed_cookies s) as s1. intros s1.
  destruct (before_send _ _) as [route|e] eqn:Hb; [|by intros [= <- <- <-]].
  destruct (match state_auth s1 with Some _ => _ | None => _ end) as [authenticated s2] eqn:Hauth.
  assert (Hk2 : state_policy s2 = state_policy s1 /\ policy_request s2 = policy_request s1 /\
    retry_trace s2 = retry_trace s1 /\ retry_attempt s2 = retry_attempt s1 /\
    completed_retries s2 = completed_retries s1).
  { destruct (state_auth s1); [|by injection Hauth as <- <-].
    destruct (auth_apply _ _ _) as [[? ?] ?]. by injection Hauth as <- <-. }
  destruct Hk2 as (P2 & R2 & T2 & A2 & C2).
  destruct authenticated as [[]|]; [|by intros [= <- <- <-]; split_and!].
  destruct (match state_cookies s2 with Some _ => _ | None => _ end) as [jar3 s3] eqn:Hc.
  assert (Hk3 : state_policy s3 = state_policy s2 /\ policy_request s3 = policy_request s2 /\
    retry_trace s3 = retry_trace s2 /\ retry_attempt s3 = retry_attempt s2 /\
    completed_retries s3 = completed_retries s2).
  { destruct (state_cookies s2); [|by injection Hc as <- <-].
    destruct (attach _ _ _ _ _) as [[? ?] ?]. by injection Hc as <- <-. }
  destruct Hk3 as (P3 & R3 & T3 & A3 & C3).
  destruct (run_hook s3 hook); intros [= <- <- <-]; (split_and!; try congruence).
Qed.

(** ** Induction over the iterations *)

(** An invariant of the loop relates the outcome so far, the length of the history,
    the state and the events so far. *)
Lemma loop_invariant m (J : Outcome -> Z -> RequestState -> list Event -> Prop) :
  (forall h n s past o s' n' es, J Continue n s past ->
     iteration m h n s = (o, s', n', es) -> J o n' s' (past ++ es)) ->
  forall hops n s past o s' n' es, J Continue n s past ->
    attempts_loop m hops n s = (o, s', n', es) -> J o n' s' (past ++ es).
Proof.
  intros Hstep hops. induction hops as [|h hops IH]; intros n s past o s' n' es HJ Hl; cbn in Hl.
  { injection Hl as <- <- <- <-. by rewrite app_nil_r. }
  destruct (iteration m h n s) as [[[o1 s1] n1] es1] eqn:Hi.
  pose proof (Hstep _ _ _ _ _ _ _ _ HJ Hi) as HJ1.
  destruct o1; try by injection Hl as <- <- <- <-.
  destruct (attempts_loop m hops n1 s1) as [[[o2 s2] n2] es2] eqn:Hl2. injection Hl as <- <- <- <-.
  rewrite app_assoc. by eapply IH.
Qed.

Definition is_sent (e : Event) : bool := match e with Sent _ _ _ _ => true | _ => false end.
Definition sends (es : list Event) : Z := Z.of_nat (length (filter (fun e => is_sent e = true) es)).

Lemma sends_app es es' : sends (es ++ es') = sends es + sends es'.
Proof. unfold sends. rewrite filter_app, length_app. lia. Qed.

Lemma settles_no_sent m n s o s' n' es : settles m n s o s' n' es -> Forall (fun e => is_sent e = false) es.
Proof. destruct 1; repeat constructor. Qed.

Lemma settles_sends m n s o s' n' es : settles m n s o s' n' es -> sends es = 0.
Proof. by destruct 1. Qed.

(** A request in the events of an iteration is an earlier one or the one it sent. *)
Lemma sent_lookup past o sent es i route url parts names :
  Forall (fun e => is_sent e = false) es ->
  (past ++ [PermitAcquired o; sent] ++ es) !! i = Some (Sent route url parts names) ->
  past !! i = Some (Sent route url parts names) \/
  (sent = Sent route url parts names /\ take i (past ++ [PermitAcquired o; sent] ++ es) = past ++ [PermitAcquired o]).
Proof.
  intros Hes [Hi|[Hlen Hi]]%lookup_app_Some; [by left|]. right.
  destruct (i - length past)%nat as [|[|j]] eqn:Ej; cbn in Hi; [done| |].
  - injection Hi as ->. split; [done|]. replace i with (length past + 1)%nat by lia.
    by rewrite take_app_add.
  - apply list_elem_of_lookup_2 in Hi. rewrite Forall_forall in Hes. by apply Hes in Hi.
Qed.

Lemma apply_mutation_keeps mutation s :
  let s' := apply_policy_mutation mutation s in
  state_policy s' = state_policy s /\ retry_trace s' = retry_trace s /\
  retry_attempt s' = retry_attempt s /\ completed_retries s' = completed_retries s.
Proof.
  cbn. destruct (remove_managed_keeps s) as (<- & _ & <- & <- & <-). unfold apply_policy_mutation.
  generalize (remove_managed_cookies s) as s1. intros s1. cbn.
  destruct (state_auth s1); [destruct (auth_on_redirect _ _ _)|]; by do 2 case_bool_decide.
Qed.

(** ** Credentials stay with their origin *)

Lemma stepped_creds initial u0 crossed P s s' added :
  creds_ok initial u0 crossed P s -> stepped s s' added -> creds_ok initial u0 crossed P s'.
Proof. intros Hok []. by eapply creds_same. Qed.

Lemma settles_creds initial u0 crossed P m n s s' n' es :
  creds_ok initial u0 crossed P s -> settles m n s Continue s' n' es ->
  exists crossed', creds_ok initial u0 crossed' P s' /\ (crossed' = false -> crossed = false).
Proof.
  intros Hok. inversion 1; subst; [done| |].
  - exists crossed. split; [|done]. eapply creds_same; [by eapply stepped_creds|done..].
  - eexists. split; [apply apply_mutation_creds; [by eapply stepped_creds|]|by intros []%orb_false_iff].
    by rewrite (stepped_url _ _ _ ltac:(eassumption)).
Qed.

(** The request [parts] sent to [url] after the events [past]: all requests so far went
    to the origin [u0], or every header is the jar's for this URL or one of the caller's
    that is neither a credential nor one an earlier request marked as sensitive. *)
Definition stays_home (initial : HeaderPairs) (u0 : HttpUrl) (past : list Event) (url : HttpUrl)
    (parts : RequestParts) : Prop :=
  (is_same_origin u0 url = true /\
   forall route' url' parts' names', Sent route' url' parts' names' ∈ past -> is_same_origin u0 url' = true) \/
  forall h, h ∈ parts_headers parts ->
    jar_header url h \/
    (h ∈ initial /\ header_in (fst h) CREDENTIALS = false /\
     forall route' url' parts' names', Sent route' url' parts' names' ∈ past ->
       to_ascii_lowercase (fst h) ∉ names').

Definition creds_invariant (initial : HeaderPairs) (u0 : HttpUrl) (o : Outcome) (n : Z) (s : RequestState)
    (past : list Event) : Prop :=
  (forall i route url parts names, past !! i = Some (Sent route url parts names) ->
     stays_home initial u0 (take i past) url parts) /\
  (o = Continue -> exists crossed P, creds_ok initial u0 crossed P s /\
     (forall route url parts names, Sent route url parts names ∈ past ->
        names ⊆ P /\ (crossed = false -> is_same_origin u0 url = true))).

Lemma creds_invariant_step initial u0 m h n s past o s' n' es :
  creds_invariant initial u0 Continue n s past -> iteration m h n s = (o, s', n', es) ->
  creds_invariant initial u0 o n' s' (past ++ es).
Proof.
  intros [Hpast Hinv] Hi. destruct (Hinv eq_refl) as (crossed & P & Hok & HP).
  apply iteration_cases in Hi as (r & jar & s1 & Hr & Hcase).
  apply (transport_route_creds _ _ _ _ _ _ _ _ _ _ _ _
           (creds_same _ _ _ _ s (begin_hop s) Hok eq_refl eq_refl eq_refl eq_refl)) in Hr
    as (Hok1 & Hsub & Hurl & Hheaders).
  destruct Hcase as [(e & -> & -> & -> & ->)|(route & es' & _ & Hsettle & ->)].
  { split; [by rewrite app_nil_r|done]. }
  pose proof (settles_no_sent _ _ _ _ _ _ _ Hsettle) as Hno. split.
  - intros i route' url parts names Hi. destruct (sent_lookup _ _ _ _ _ _ _ _ _ Hno Hi) as [Hi'|[Hsent Htake]].
    + rewrite take_app_le; [by eapply Hpast|]. apply lookup_lt_Some in Hi'. lia.
    + injection Hsent as <- <- <- <-. rewrite Htake. unfold stays_home.
      assert (Hin : forall route' url' parts' names',
        Sent route' url' parts' names' ∈ past ++ [PermitAcquired (origin (state_url s1))] ->
        Sent route' url' parts' names' ∈ past).
      { by intros ? ? ? ? [?|[=]%list_elem_of_singleton]%elem_of_app. }
      destruct crossed.
      * right. intros hd Hhd. destruct (Hheaders _ Hhd) as [[Hini Hclean]|[Hjar|[[a Ha] _]]].
        -- right. destruct (Hclean eq_refl) as [? HnP]. split_and!; [done|done|].
           intros ? ? ? ? [Hn _]%Hin%HP. set_solver.
        -- by left.
        -- by destruct (creds_auth _ _ _ _ _ Hok1 a Ha) as (? & _).
      * left. split; [by apply (creds_origin _ _ _ _ _ Hok1)|]. intros ? ? ? ? [_ Ho]%Hin%HP. auto.
  - intros ->. destruct (settles_creds _ _ _ _ _ _ _ _ _ _ Hok1 Hsettle) as (crossed' & Hok' & Hmono).
    exists crossed', (names_set P s1). split; [done|]. intros route' url parts names.
    rewrite !elem_of_app. intros [Hin|[[[=]|[Hin|[]%not_elem_of_nil]%elem_of_cons]%elem_of_cons|Hin]].
    + apply HP in Hin as [? ?]. split; [set_solver|auto].
    + injection Hin as -> -> -> ->. split; [|intros Hc; apply (creds_origin _ _ _ _ _ Hok1); auto].
      unfold request_sensitive_headers, names_set. destruct (state_auth s1); set_solver.
    + rewrite Forall_forall in Hno. by apply Hno in Hin.
Qed.

(** What a fresh request starts with. *)
Lemma try_from_facts to_uppercase parts s :
  request_state_try_from to_uppercase parts = Ok (Some s) ->
  creds_ok (part_headers parts) (state_url s) false ∅ s /\ completed_retries s = 0 /\ retry_attempt s = 1 /\
  pipeline_retry (state_policy s) = part_retry_policy parts /\
  pipeline_ssrf (state_policy s) = part_ssrf_policy parts /\
  attempts (retry_trace s) = (fun _ => []) <$> part_retry_policy parts.
Proof.
  unfold request_state_try_from, policy_pipeline_new.
  destruct (http_url_parse _) as [url|]; [|done]. destruct (duration_from_secs _ _) as [[w|]|]; [..|done];
    cbn; (destruct (proxy_parse _ _ _) as [px|]; cbn; [|done]); intros [=]; subst.
  split; cbn; [|by destruct (part_retry_policy parts)]. split; cbn.
  - destruct (part_auth parts) as [pa|]; [|done]. by intros a [= <-].
  - auto.
  - intros _. unfold is_same_origin, is_same. rewrite !String.eqb_refl, Z.eqb_refl. by rewrite bool_decide_true.
  - intros h Hh. left. by split.
Qed.

(** C2: The requests of a logical request go to the origin of its URL, up to the first
    that does not.  Every header of that one and of the later ones, whichever origin
    they go to, is either a cookie the jar has for that very URL or a header the caller
    gave, not a credential, and not one the authentication provider set on an earlier
    request. *)
Theorem credentials_stay_home to_uppercase request s m hops o s' n es i route url parts names :
  request_state_try_from to_uppercase request = Ok (Some s) ->
  attempts_loop m hops 0 s = (o, s', n, es) ->
  es !! i = Some (Sent route url parts names) ->
  stays_home (part_headers request) (state_url s) (take i es) url parts.
Proof.
  intros (Hok & _)%try_from_facts Hl Hi.
  eapply (loop_invariant m (creds_invariant (part_headers request) (state_url s))
            (fun _ _ _ _ _ _ _ _ => creds_invariant_step _ _ _ _ _ _ _ _ _ _ _) hops 0 s []);
    [|done|done].
  split; [done|]. intros _. exists false, ∅. split; [done|]. by intros ? ? ? ? ?%elem_of_nil.
Qed.

(** ** Routes *)

Definition routes_invariant (p : PolicyPipeline) (o : Outcome) (n : Z) (s : RequestState)
    (past : list Event) : Prop :=
  state_policy s = p /\
  forall route url parts names, Sent route url parts names ∈ past ->
    exists request, req_url request = url /\ before_send p request = Ok route /\
      parts_url parts = as_str url /\
      (is_Some (parts_proxy_authorization parts) -> route = RouteProxy /\ scheme url = "http"%string).

Lemma settles_policy m n s o s' n' es : settles m n s o s' n' es -> state_policy s' = state_policy s.
Proof.
  destruct 1 as [? ? ? ? []|? ? ? ? []|? ? ? ? []|? ? ? []|mutation s' []]; try done.
  by rewrite (proj1 (apply_mutation_keeps mutation s')).
Qed.

Lemma routes_invariant_step p m h n s past o s' n' es :
  routes_invariant p Continue n s past -> iteration m h n s = (o, s', n', es) ->
  routes_invariant p o n' s' (past ++ es).
Proof.
  intros [Hp Hpast] Hi. apply iteration_cases in Hi as (r & jar & s1 & Hr & Hcase).
  apply transport_route_keeps in Hr as (Hp1 & _ & _ & _ & _ & Hroute).
  change (state_policy (begin_hop s)) with (state_policy s) in Hp1. rewrite Hp in Hp1.
  destruct Hcase as [(e & -> & -> & -> & ->)|(route & es' & -> & Hsettle & ->)].
  { split; [done|]. by rewrite app_nil_r. }
  pose proof (settles_no_sent _ _ _ _ _ _ _ Hsettle) as Hno. apply settles_policy in Hsettle.
  split; [congruence|]. intros route' url parts names.
  rewrite !elem_of_app. intros [Hin|[[[=]|[Hin|[]%not_elem_of_nil]%elem_of_cons]%elem_of_cons|Hin]].
  - by eapply Hpast.
  - injection Hin as -> -> -> ->. exists (policy_request s1). split_and!; [done| |done|].
    + rewrite <- Hp1. by apply Hroute.
    + cbn. unfold plain_http_proxy_authorization. intros Hauth.
      destruct (bool_decide _ && _) eqn:E; [|by destruct Hauth].
      apply andb_true_iff in E as [E%bool_decide_eq_true E2%String.eqb_eq]. done.
  - rewrite Forall_forall in Hno. by apply Hno in Hin.
Qed.

Lemma loop_routes m hops s o s' n es route url parts names :
  attempts_loop m hops 0 s = (o, s', n, es) -> Sent route url parts names ∈ es ->
  parts_url parts = as_str url /\
  proxy_route (pipeline_proxy (state_policy s)) url = Ok route /\
  (forall ssrf, pipeline_ssrf (state_policy s) = Some ssrf ->
     destination_allowed ssrf url /\ route = RouteDirect /\ parts_proxy_authorization parts = None) /\
  (is_Some (parts_proxy_authorization parts) -> route = RouteProxy /\ scheme url = "http"%string).
Proof.
  intros Hl Hin.
  eapply (loop_invariant m (routes_invariant (state_policy s))
            (fun _ _ _ _ _ _ _ _ => routes_invariant_step _ _ _ _ _ _ _ _ _ _) hops 0 s []) in Hl;
    [|by split; [|intros ? ? ? ? ?%elem_of_nil]].
  destruct Hl as [_ Hall]. destruct (Hall _ _ _ _ Hin) as (preq & <- & Hb & Hurl & Hauth).
  apply before_send_facts in Hb as [Hroute Hallowed]. split_and!; [done|done| |done].
  intros ssrf Hs. destruct (Hallowed ssrf Hs) as [? ->]. split_and!; [done..|].
  destruct (parts_proxy_authorization parts); [|done]. by destruct (Hauth (mk_is_Some _ _ eq_refl)).
Qed.

(** C3: Every request a logical request sends, on whichever hop or attempt, goes the way
    its proxy policy says for that URL; under an SSRF policy it goes directly to a
    destination that policy allows; and the proxy's credentials are in the request
    itself only when it goes through the proxy in plain http, never under an SSRF
    policy. *)
Theorem every_request_admitted to_uppercase request s m hops o s' n es route url parts names :
  request_state_try_from to_uppercase request = Ok (Some s) ->
  attempts_loop m hops 0 s = (o, s', n, es) ->
  Sent route url parts names ∈ es ->
  parts_url parts = as_str url /\
  proxy_route (pipeline_proxy (state_policy s)) url = Ok route /\
  (forall ssrf, part_ssrf_policy request = Some ssrf ->
     destination_allowed ssrf url /\ route = RouteDirect /\ parts_proxy_authorization parts = None) /\
  (is_Some (parts_proxy_authorization parts) -> route = RouteProxy /\ scheme url = "http"%string).
Proof.
  intros (_ & _ & _ & _ & <- & _)%try_from_facts. apply loop_routes.
Qed.

(** ** The loop ends *)

Definition redirect_budget (p : PolicyPipeline) : Z := Z.max 0 (redirect_limit p).
Definition retry_budget (p : PolicyPipeline) : Z := Z.max 0 (retry_limit p).

(** Before an iteration, every request sent led to a redirect or a retry. *)
Definition budget_invariant (p : PolicyPipeline) (o : Outcome) (n : Z) (s : RequestState)
    (past : list Event) : Prop :=
  state_policy s = p /\ 0 <= n <= redirect_budget p /\ 0 <= completed_retries s <= retry_budget p /\
  (o = Continue -> sends past = n + completed_retries s) /\
  sends past <= 1 + redirect_budget p + retry_budget p.

Lemma settles_budget p m n s o s' n' es :
  state_policy s = p -> 0 <= n <= redirect_budget p -> 0 <= completed_retries s <= retry_budget p ->
  settles m n s o s' n' es ->
  0 <= n' <= redirect_budget p /\ 0 <= completed_retries s' <= retry_budget p /\
  (o = Continue -> n' + completed_retries s' = n + completed_retries s + 1).
Proof.
  unfold redirect_budget, retry_budget. intros <- Hn Hc Hs.
  destruct Hs as [? s1 ? ? Hst|? s1 ? ? Hst|? ? s1 ? Hst|? s1 ? Hst|mutation s1 Hst];
    pose proof (stepped_completed _ _ _ Hst) as E.
  - rewrite E. split_and!; [lia..|done].
  - rewrite E. split_and!; [lia..|done].
  - rewrite E. split_and!; [lia..|done].
  - cbn. rewrite E. split_and!; lia.
  - destruct (apply_mutation_keeps mutation s1) as (_ & _ & _ & ->). rewrite E. split_and!; lia.
Qed.

Lemma budget_invariant_step p m h n s past o s' n' es :
  budget_invariant p Continue n s past -> iteration m h n s = (o, s', n', es) ->
  budget_invariant p o n' s' (past ++ es).
Proof.
  intros (Hp & Hn & Hc & Hsends & _) Hi. specialize (Hsends eq_refl).
  apply iteration_cases in Hi as (r & jar & s1 & Hr & Hcase).
  apply transport_route_keeps in Hr as (Hp1 & _ & _ & _ & Hc1 & _).
  change (state_policy (begin_hop s)) with (state_policy s) in Hp1.
  change (completed_retries (begin_hop s)) with (completed_retries s) in Hc1.
  rewrite Hp in Hp1. rewrite <- Hc1 in *. unfold budget_invariant.
  destruct Hcase as [(e & -> & -> & -> & ->)|(route & es' & -> & Hsettle & ->)].
  { rewrite app_nil_r. split_and!; [done|lia|lia|lia|lia|done|lia]. }
  rewrite !sends_app, (settles_sends _ _ _ _ _ _ _ Hsettle).
  pose proof (settles_policy _ _ _ _ _ _ _ Hsettle) as Hp'.
  destruct (settles_budget p _ _ _ _ _ _ _ Hp1 Hn Hc Hsettle) as (? & ? & Hcont).
  change (sends [_; _]) with 1. split_and!; [congruence|lia..| |lia].
  intros Ho. specialize (Hcont Ho). lia.
Qed.

Lemma continue_sends m hops n s s' n' es :
  attempts_loop m hops n s = (Continue, s', n', es) -> sends es = Z.of_nat (length hops).
Proof.
  revert n s s' n' es. induction hops as [|h hops IH]; intros n s s' n' es; cbn.
  { by intros [= <- <- <-]. }
  destruct (iteration m h n s) as [[[o1 s1] n1] es1] eqn:Hi. destruct o1; [|done..].
  destruct (attempts_loop m hops n1 s1) as [[[o2 s2] n2] es2] eqn:Hl. intros [= -> <- <- <-].
  apply iteration_cases in Hi as (r & jar & sr & _ & [(e & [=] & _)|(route & es' & _ & Hsettle & ->)]).
  rewrite !sends_app, (settles_sends _ _ _ _ _ _ _ Hsettle), (IH _ _ _ _ _ Hl).
  change (sends [_; _]) with 1. lia.
Qed.

Lemma loop_budget m hops s o s' n es : completed_retries s = 0 ->
  attempts_loop m hops 0 s = (o, s', n, es) -> budget_invariant (state_policy s) o n s' es.
Proof.
  intros Hc Hl.
  eapply (loop_invariant m (budget_invariant (state_policy s))
            (fun _ _ _ _ _ _ _ _ => budget_invariant_step _ _ _ _ _ _ _ _ _ _) hops 0 s []) in Hl; [exact Hl|].
  unfold budget_invariant, redirect_budget, retry_budget. rewrite Hc. change (sends []) with 0. split_and!; try done; lia.
Qed.

(** C4: A logical request sends at most one request more than its redirect and retry
    limits allow to repeat, and its loop ends: an environment that answers more often
    than that never sees it continue. *)
Theorem request_loop_ends to_uppercase request s m hops o s' n es :
  request_state_try_from to_uppercase request = Ok (Some s) ->
  attempts_loop m hops 0 s = (o, s', n, es) ->
  let limit := redirect_budget (state_policy s) + retry_budget (state_policy s) in
  sends es <= 1 + limit /\ (limit < Z.of_nat (length hops) -> o <> Continue).
Proof.
  intros (_ & Hc & _)%try_from_facts Hl.
  destruct (loop_budget _ _ _ _ _ _ _ Hc Hl) as (_ & Hn & Hr & Hcont & Hs). split; [lia|]. intros Hlen ->.
  apply continue_sends in Hl. specialize (Hcont eq_refl). lia.
Qed.

(** ** Permits *)

(** Whether the request holds its permit after the events, [None] when an event breaks
    the discipline: one permit at a time, requests only with it, waits only without. *)
Fixpoint permits (held : bool) (es : list Event) : option bool :=
  match es with
  | [] => Some held
  | PermitAcquired _ :: es => if held then None else permits true es
  | Sent _ _ _ _ :: es => if held then permits true es else None
  | PermitDropped :: es | PermitHandedOver :: es => if held then permits false es else None
  | Waited _ :: es => if held then None else permits false es
  end.

Lemma permits_app held es es' :
  permits held (es ++ es') = held' ← permits held es; permits held' es'.
Proof.
  revert held. induction es as [|e es IH]; intros held; [done|].
  destruct e, held; cbn; try done; apply IH.
Qed.

Lemma settles_permits m n s o s' n' es : settles m n s o s' n' es -> permits true es = Some false.
Proof. by destruct 1. Qed.

Definition handed_over (es : list Event) : bool :=
  existsb (fun e => match e with PermitHandedOver => true | _ => false end) es.

Lemma settles_handed_over_iff m n s o s' n' es :
  settles m n s o s' n' es -> handed_over es = true -> m = StreamMode /\ exists code, o = Returned code.
Proof. destruct 1; try done. eauto. Qed.

(** C5: A logical request holds at most one permit at a time; it sends requests only
    while it holds one, waits between retries without one, and has none left when its
    loop ends.  The permit leaves the loop only with the response of a streamed
    request. *)
Theorem permits_balanced m hops n s o s' n' es :
  attempts_loop m hops n s = (o, s', n', es) ->
  permits false es = Some false /\
  (PermitHandedOver ∈ es -> m = StreamMode /\ exists code, o = Returned code).
Proof.
  intros Hl.
  eapply (loop_invariant m (fun o _ _ past => permits false past = Some false /\
            (handed_over past = true -> m = StreamMode /\ exists code, o = Returned code)))
    with (past := []) in Hl; [| |done].
  - destruct Hl as [Hp Hh]. split; [done|]. intros Hin. apply Hh, existsb_exists.
    exists PermitHandedOver. by rewrite <- list_elem_of_In.
  - clear. intros h n s past o s' n' es [Hp Hh] Hi. rewrite permits_app, Hp. cbn.
    unfold handed_over in *. rewrite existsb_app.
    assert (Hpast : handed_over past = false).
    { unfold handed_over. destruct (existsb _ past); [|done]. by destruct (Hh eq_refl) as (_ & ? & ?). }
    unfold handed_over in Hpast. rewrite Hpast. cbn.
    apply iteration_cases in Hi as (r & jar & s1 & Hr & [(e & -> & -> & -> & ->)|(route & es' & -> & Hs & ->)]).
    { done. }
    split; [by apply settles_permits in Hs|]. cbn. by eapply settles_handed_over_iff.
Qed.

(** ** The trace *)

Definition is_wait (e : Event) : bool := match e with Waited _ => true | _ => false end.
Definition waits (es : list Event) : Z := Z.of_nat (length (filter (fun e => is_wait e = true) es)).

Lemma waits_app es es' : waits (es ++ es') = waits es + waits es'.
Proof. unfold waits. rewrite filter_app, length_app. lia. Qed.

(** The attempts recorded before the current one. *)
Definition recorded (current : Z) (l : list RawRetryAttempt) : Prop :=
  numbered l (current - 1) /\ Forall complete l.

(** What the recorder holds when the loop ends: maybe the current attempt too. *)
Definition recorded_at_end (current : Z) (l : list RawRetryAttempt) : Prop :=
  exists before added, l = before ++ added /\ recorded current before /\
    (length added <= 1)%nat /\ Forall (fun a => attempt a = current) added.

Definition trace_invariant (policy : option RetryPolicy) (o : Outcome) (n : Z) (s : RequestState)
    (past : list Event) : Prop :=
  1 <= retry_attempt s /\ retry_attempt s = 1 + completed_retries s /\
  (is_Some (attempts (retry_trace s)) <-> is_Some policy) /\
  (forall l, attempts (retry_trace s) = Some l -> recorded_at_end (retry_attempt s) l) /\
  retry_attempt s - 1 <= waits past <= retry_attempt s /\
  (o = Continue ->
     waits past = retry_attempt s - 1 /\
     forall l, attempts (retry_trace s) = Some l -> recorded (retry_attempt s) l).

Lemma recorded_end current l added :
  recorded current l -> (length added <= 1)%nat -> Forall (fun a => attempt a = current) added ->
  recorded_at_end current (l ++ added).
Proof. intros. by exists l, added. Qed.

Lemma stepped_recorded s s' added l' :
  stepped s s' added -> (length added <= 1)%nat ->
  (forall l, attempts (retry_trace s) = Some l -> recorded (retry_attempt s) l) ->
  attempts (retry_trace s') = Some l' -> recorded_at_end (retry_attempt s') l'.
Proof.
  intros Hst Hlen Hl. rewrite (stepped_attempt _ _ _ Hst), (stepped_trace _ _ _ Hst).
  destruct (attempts (retry_trace s)) as [l|]; [|done]. intros [= <-].
  apply recorded_end; [by apply Hl|done|apply (stepped_added _ _ _ Hst)].
Qed.

Lemma stepped_enabled s s' added (policy : option RetryPolicy) :
  stepped s s' added -> (is_Some (attempts (retry_trace s)) <-> is_Some policy) ->
  is_Some (attempts (retry_trace s')) <-> is_Some policy.
Proof. intros Hst <-. rewrite (stepped_trace _ _ _ Hst). apply fmap_is_Some. Qed.

(** The invariant after an end of the loop, and after an attempt made in full. *)
Lemma ended_trace policy n s o s' n' past es added :
  trace_invariant policy Continue n s past -> stepped s s' added -> (length added <= 1)%nat ->
  o <> Continue -> 0 <= waits es <= 1 -> trace_invariant policy o n' s' (past ++ es).
Proof.
  intros (Hone & Hc & Hp & _ & _ & Hcont) Hst Hlen Ho Hes. destruct (Hcont eq_refl) as [Hw Hrec].
  unfold trace_invariant. rewrite waits_app, (stepped_completed _ _ _ Hst), (stepped_attempt _ _ _ Hst), Hw.
  split_and!; try lia; [by eapply stepped_enabled| |done].
  intros l Hl. rewrite <- (stepped_attempt _ _ _ Hst). by eapply stepped_recorded.
Qed.

Lemma continued_trace policy n s s' n' past es :
  trace_invariant policy Continue n s past ->
  (is_Some (attempts (retry_trace s')) <-> is_Some policy) ->
  (forall l', attempts (retry_trace s') = Some l' -> recorded (retry_attempt s') l') ->
  retry_attempt s' = retry_attempt s + waits es ->
  retry_attempt s' = 1 + completed_retries s' ->
  trace_invariant policy Continue n' s' (past ++ es).
Proof.
  intros (Hone & Hc & Hp & _ & _ & Hcont) Hen Hrec Hr Hr'. destruct (Hcont eq_refl) as [Hw _].
  assert (0 <= waits es) by (unfold waits; lia).
  unfold trace_invariant. rewrite waits_app. split_and!; try lia; [done| |by split; [lia|]].
  intros l Hl. exists l, []. rewrite app_nil_r. split_and!; [done|by apply Hrec|cbn; lia|done].
Qed.

Lemma stops_few added : stops added -> (length added <= 1)%nat.
Proof. destruct added as [|a [|]]; cbn; [lia|lia|done]. Qed.

Lemma settles_trace policy m n s o s' n' es past :
  trace_invariant policy Continue n s past -> settles m n s o s' n' es ->
  trace_invariant policy o n' s' (past ++ es).
Proof.
  intros Hinv Hs. pose proof Hinv as (Hone & Hc & Hp & _ & _ & Hcont). destruct (Hcont eq_refl) as [_ Hrec].
  destruct Hs as [o s1 added Ho Hst Hlen%stops_few|code s1 added Hm Hst Hlen%stops_few|e d s1 made Hst _|d s1 made Hst _ Hcomplete Hlim
                 |mutation s1 Hst Hlim Hpol].
  - by eapply ended_trace.
  - by eapply ended_trace.
  - eapply ended_trace; [done..|cbn; lia|done|done].
  - eapply continued_trace; [done|exact (stepped_enabled _ _ _ _ Hst Hp)|..]; cbn.
    + intros l'. rewrite (stepped_trace _ _ _ Hst), (stepped_attempt _ _ _ Hst).
      destruct (attempts (retry_trace s)) as [l|]; [|done]. intros [= <-].
      destruct (Hrec l eq_refl) as [Hnum Hall]. split; [|apply Forall_app; by rewrite Forall_singleton].
      pose proof (proj1 (Forall_singleton _ _) (stepped_added _ _ _ Hst)) as Ha. cbn in Ha.
      replace (retry_attempt s + 1 - 1) with (retry_attempt s - 1 + 1) by lia.
      apply numbered_snoc; [lia|done|lia].
    + rewrite (stepped_attempt _ _ _ Hst). done.
    + rewrite (stepped_attempt _ _ _ Hst), (stepped_completed _ _ _ Hst). lia.
  - destruct (apply_mutation_keeps mutation s1) as (_ & Et & Ea & Ec).
    apply (continued_trace _ n s); rewrite ?Et, ?Ea, ?Ec; [done|by eapply stepped_enabled|..].
    + intros l'. rewrite (stepped_trace _ _ _ Hst), (stepped_attempt _ _ _ Hst).
      destruct (attempts (retry_trace s)) as [l|]; [|done]. cbn. rewrite app_nil_r. intros [= <-]. by apply Hrec.
    + rewrite (stepped_attempt _ _ _ Hst). change (waits _) with 0. lia.
    + by rewrite (stepped_attempt _ _ _ Hst), (stepped_completed _ _ _ Hst).
Qed.

Lemma trace_invariant_step policy m h n s past o s' n' es :
  trace_invariant policy Continue n s past -> iteration m h n s = (o, s', n', es) ->
  trace_invariant policy o n' s' (past ++ es).
Proof.
  intros Hinv Hi. apply iteration_cases in Hi as (r & jar & s1 & Hr & Hcase).
  apply transport_route_keeps in Hr as (_ & _ & Ht & Ha & Hc & _).
  assert (Et : attempts (retry_trace s1) = attempts (retry_trace s)).
  { rewrite Ht. cbn. unfold begin_transport_hop. by destruct (is_enabled _). }
  assert (Hinv1 : trace_invariant policy Continue n s1 past).
  { unfold trace_invariant in *. rewrite Et, Ha, Hc. exact Hinv. }
  destruct Hcase as [(e & -> & -> & -> & ->)|(route & es' & -> & Hsettle & ->)].
  { eapply (ended_trace _ _ _ _ _ _ _ [] []); [done|apply stepped_refl|cbn; lia|done|by split]. }
  rewrite app_assoc. eapply settles_trace; [|done].
  unfold trace_invariant in *. rewrite waits_app. change (waits [_; _]) with 0.
  by rewrite Z.add_0_r.
Qed.

Lemma recorded_finish current terminal outcome l :
  1 <= current -> attempt terminal = current -> complete terminal -> recorded_at_end current l ->
  numbered (fst (finish_attempts terminal outcome l)) current /\
  Forall complete (fst (finish_attempts terminal outcome l)).
Proof.
  intros Hone Ht Hterm (before & added & -> & [Hnum Hall] & Hlen & Hadded). split.
  - apply finish_attempts_numbered; [done|done|].
    destruct added as [|a [|]]; [rewrite app_nil_r; by left| |cbn in Hlen; lia].
    right. replace current with (current - 1 + 1) by lia. apply numbered_snoc; [lia|done|].
    apply (proj1 (Forall_singleton _ _)) in Hadded. cbn in Hadded. lia.
  - apply finish_attempts_complete; try done. by rewrite Ht.
Qed.

Lemma finish_retry_trace_spec outcome code n elapsed s policy o past :
  trace_invariant policy o n s past ->
  match fst (finish_retry_trace outcome code n elapsed s) with
  | None => policy = None
  | Some trace =>
      numbered (trace_attempts trace) (retry_attempt s) /\ Forall complete (trace_attempts trace)
  end.
Proof.
  intros (Hone & _ & Hen & Hrec & _ & _). unfold finish_retry_trace, is_enabled, finish_trace.
  destruct (attempts (retry_trace s)) as [l|] eqn:El; cbn.
  - set (terminal := Build_RawRetryAttempt _ _ _ _ _ _ _ _ _ _ _ _).
    pose proof (recorded_finish _ terminal outcome l Hone eq_refl eq_refl (Hrec l eq_refl)) as Hf.
    by destruct (finish_attempts terminal outcome l).
  - destruct policy; [|done]. destruct (proj2 Hen (mk_is_Some _ _ eq_refl)). congruence.
Qed.

(** *** Where the waits are

    The events up to each wait, with its delay, and those after the last one. *)
Definition span_step (acc : list (list Event * Z) * list Event) (e : Event) : list (list Event * Z) * list Event :=
  match e with Waited d => (fst acc ++ [(snd acc, d)], []) | _ => (fst acc, snd acc ++ [e]) end.

Definition spans (es : list Event) : list (list Event * Z) * list Event := fold_left span_step es ([], []).

(** The attempt that ended with a wait: it decided to retry after that delay, and its last
    request went to the origin it records. *)
Definition waited (a : RawRetryAttempt) (span : list Event * Z) : Prop :=
  attempt_decision a = Some "retry"%string /\ attempt_backoff a = as_secs_f64 (snd span) /\
  exists before route url parts names, fst span = before ++ [Sent route url parts names; PermitDropped] /\ attempt_origin a = origin url.

Lemma spans_quiet es es' : Forall (fun e => is_wait e = false) es' ->
  spans (es ++ es') = (fst (spans es), snd (spans es) ++ es').
Proof.
  unfold spans. rewrite fold_left_app. generalize (fold_left span_step es ([], [])). intros acc Hq. revert acc.
  induction Hq as [|e es' He _ IH]; intros [ss cur]; cbn; [by rewrite app_nil_r|]. rewrite IH.
  destruct e; try done; cbn; by rewrite <- app_assoc.
Qed.

Lemma spans_waited es d : spans (es ++ [Waited d]) = (fst (spans es) ++ [(snd (spans es), d)], []).
Proof. unfold spans. by rewrite fold_left_app. Qed.

(** What is recorded in state [s], after [past]: an attempt for each wait, then maybe the
    attempt that ended the loop. *)
Record story (o : Outcome) (s : RequestState) (past : list Event) (l waits_for final : list RawRetryAttempt) : Prop := {
  story_attempts : l = waits_for ++ final;
  story_waited : Forall2 waited waits_for (fst (spans past));
  story_stops : stops final;
  story_final : Forall (fun a => attempt a = retry_attempt s) final;
  story_current : final = [] -> Forall (fun a => attempt a < retry_attempt s) waits_for \/
    exists e, o = Failed e /\ snd (spans past) = [] /\ attempt <$> last waits_for = Some (retry_attempt s);
  story_continues : o = Continue -> final = [] /\ Forall (fun a => attempt a < retry_attempt s) waits_for;
}.

Definition story_invariant (o : Outcome) (s : RequestState) (past : list Event) : Prop :=
  forall l, attempts (retry_trace s) = Some l -> exists waits_for final, story o s past l waits_for final.

(** The story goes on without a wait. *)
Lemma story_quiet o s s' past es added : story_invariant Continue s past -> stepped s s' added -> stops added ->
  o <> Continue -> Forall (fun e => is_wait e = false) es -> story_invariant o s' (past ++ es).
Proof.
  intros Hinv Hst Hstop Ho Hq l. rewrite (stepped_trace _ _ _ Hst). destruct (attempts (retry_trace s)) as [l0|] eqn:Hl; [|done].
  intros [= <-]. destruct (Hinv l0 Hl) as (ws & final & [-> Hw _ _ _ Hc]). destruct (Hc eq_refl) as [-> Hlt].
  exists ws, added. rewrite app_nil_r. pose proof (stepped_attempt _ _ _ Hst) as Ea. pose proof (stepped_added _ _ _ Hst) as Hadd.
  split; rewrite ?Ea, ?spans_quiet; auto. intros ?; done.
Qed.

(** The events of an attempt that waits. *)
Lemma waited_more s past ws route parts names d a :
  retried (state_url s) d a -> Forall2 waited ws (fst (spans past)) ->
  let es := [PermitAcquired (origin (state_url s)); Sent route (state_url s) parts names; PermitDropped; Waited d] in
  Forall2 waited (ws ++ [a]) (fst (spans (past ++ es))) /\ snd (spans (past ++ es)) = [].
Proof.
  intros (Hd & Hb & Ho) Hw es.
  assert (Es : spans (past ++ es) =
    (fst (spans past) ++ [(snd (spans past) ++ [PermitAcquired (origin (state_url s)); Sent route (state_url s) parts names; PermitDropped], d)], [])).
  { unfold es. change [_; _; _; Waited d] with ([PermitAcquired (origin (state_url s)); Sent route (state_url s) parts names; PermitDropped] ++ [Waited d]).
    rewrite app_assoc, spans_waited, spans_quiet by by repeat constructor. done. }
  rewrite Es. split; [|done]. cbn [fst]. apply Forall2_app; [done|]. constructor; [|done]. split_and!; try done.
  exists (snd (spans past) ++ [PermitAcquired (origin (state_url s))]), route, (state_url s), parts, names. by rewrite <- app_assoc.
Qed.

Lemma story_settles m n n' s o s' es route parts names past :
  story_invariant Continue s past -> settles m n s o s' n' es ->
  story_invariant o s' (past ++ [PermitAcquired (origin (state_url s)); Sent route (state_url s) parts names] ++ es).
Proof.
  intros Hinv Hs. destruct Hs as [o s1 added Ho Hst Hstop|code s1 added Hm Hst Hstop|e d s1 a Hst Hr|d s1 a Hst Hr Hcomplete Hlim
                 |mutation s1 Hst Hlim Hpol].
  - by eapply story_quiet; [..|repeat constructor].
  - by eapply story_quiet; [..|repeat constructor].
  - intros l. rewrite (stepped_trace _ _ _ Hst). destruct (attempts (retry_trace s)) as [l0|] eqn:Hl; [|done]. intros [= <-].
    destruct (Hinv l0 Hl) as (ws & final & [-> Hw _ _ _ Hc]). destruct (Hc eq_refl) as [-> Hlt].
    destruct (waited_more s past ws route parts names d a Hr Hw) as [Hw' Hrest].
    pose proof (proj1 (Forall_singleton _ _) (stepped_added _ _ _ Hst)) as Ha. cbn in Ha.
    exists (ws ++ [a]), []. rewrite !app_nil_r. split; cbn [app]; try done; [by rewrite app_nil_r|].
    intros _. right. exists e. rewrite last_snoc, (stepped_attempt _ _ _ Hst). cbn. by rewrite Ha.
  - intros l. cbn. rewrite (stepped_trace _ _ _ Hst). destruct (attempts (retry_trace s)) as [l0|] eqn:Hl; [|done]. intros [= <-].
    destruct (Hinv l0 Hl) as (ws & final & [-> Hw _ _ _ Hc]). destruct (Hc eq_refl) as [-> Hlt].
    destruct (waited_more s past ws route parts names d a Hr Hw) as [Hw' Hrest].
    pose proof (proj1 (Forall_singleton _ _) (stepped_added _ _ _ Hst)) as Ha. cbn in Ha.
    assert (Hall : Forall (fun b => attempt b < retry_attempt s1 + 1) (ws ++ [a])).
    { rewrite (stepped_attempt _ _ _ Hst). apply Forall_app. split; [eapply Forall_impl; [exact Hlt|]; cbn; lia|].
      apply Forall_singleton. lia. }
    exists (ws ++ [a]), []. rewrite !app_nil_r. split; cbn [app]; try done; [by rewrite app_nil_r|by left].
  - intros l. destruct (apply_mutation_keeps mutation s1) as (_ & Et & Ea & _). rewrite Et, (stepped_trace _ _ _ Hst).
    destruct (attempts (retry_trace s)) as [l0|] eqn:Hl; [|done]. intros [= <-].
    destruct (Hinv l0 Hl) as (ws & final & [-> Hw _ _ _ Hc]). destruct (Hc eq_refl) as [-> Hlt].
    exists ws, []. rewrite !app_nil_r. split; rewrite ?Ea, ?(stepped_attempt _ _ _ Hst), ?spans_quiet by (by repeat constructor);
      try exact I; auto. by rewrite app_nil_r.
Qed.

Lemma story_step m h n s past o s' n' es :
  story_invariant Continue s past -> iteration m h n s = (o, s', n', es) -> story_invariant o s' (past ++ es).
Proof.
  intros Hinv Hi. apply iteration_cases in Hi as (r & jar & s1 & Hr & Hcase).
  apply transport_route_keeps in Hr as (_ & _ & Ht & Ha & _ & _).
  assert (Et : attempts (retry_trace s1) = attempts (retry_trace s)).
  { rewrite Ht. cbn. unfold begin_transport_hop. by destruct (is_enabled _). }
  assert (Hinv1 : story_invariant Continue s1 past).
  { intros l. rewrite Et. intros Hl. destruct (Hinv l Hl) as (ws & final & []). exists ws, final. by split; rewrite ?Ha. }
  destruct Hcase as [(e & -> & -> & -> & ->)|(route & es' & -> & Hsettle & ->)].
  - eapply (story_quiet _ _ _ _ [] []); [exact Hinv1|apply stepped_refl|exact I|done|done].
  - by eapply story_settles.
Qed.

(** The trace a request ends with: the attempts that waited, and maybe the one that did not. *)
Definition told (o : Outcome) (es : list Event) (trace : list RawRetryAttempt) : Prop :=
  exists waits_for final, trace = waits_for ++ final /\ Forall2 waited waits_for (fst (spans es)) /\ stops final /\
    (final = [] -> snd (spans es) = [] /\ exists e, o = Failed e).

Lemma alter_last {A} (f : A -> A) l x : alter f (pred (length (l ++ [x]))) (l ++ [x]) = l ++ [f x].
Proof. rewrite length_app, Nat.add_comm. cbn [length Nat.add pred]. induction l as [|y l IH]; [done|]. cbn in *. by rewrite IH. Qed.

Lemma told_finish terminal outcome o s past l ws final :
  attempt terminal = retry_attempt s -> stopped terminal -> story o s past l ws final ->
  told o past (fst (finish_attempts terminal outcome l)).
Proof.
  intros Hat Hstop [-> Hw Hs Hf Hc _]. unfold finish_attempts. destruct final as [|a [|]]; [| |done].
  - rewrite app_nil_r. destruct (Hc eq_refl) as [Hlt|(e & -> & Hrest & Hlast)].
    + assert (Hnew : told o past (ws ++ [terminal])) by (by exists ws, [terminal]).
      destruct (last ws) as [b|] eqn:Hb; [|done]. rewrite (proj2 (Z.eqb_neq _ _)); [done|].
      apply last_Some in Hb as [ws' ->]. apply Forall_app in Hlt as [_ Hlt]. apply (proj1 (Forall_singleton _ _)) in Hlt. cbn in Hlt. lia.
    + assert (Hall : forall ws', Forall2 waited ws' (fst (spans past)) -> told (Failed e) past ws').
      { intros ws' Hw'. exists ws', []. rewrite app_nil_r. split_and!; try done. intros _. split; [done|by exists e]. }
      destruct (last ws) as [b|] eqn:Hb; [|done]. injection Hlast as Hlast. rewrite Hat, Hlast, Z.eqb_refl.
      case_bool_decide; apply Hall; [done|]. apply last_Some in Hb as [ws' ->].
      apply Forall2_app_inv_l in Hw as (ss & ss' & Hw1 & Hw2 & ->). rewrite alter_last. apply Forall2_app; [done|].
      destruct ss' as [|sp [|]]; inversion_clear Hw2 as [|? ? ? ? Hsp Hnil]; [|inversion Hnil]. by constructor.
  - apply (proj1 (Forall_singleton _ _)) in Hf. cbn in Hf. rewrite last_snoc, Hf, <- Hat, Z.eqb_refl. case_bool_decide.
    + by exists ws, [a].
    + rewrite alter_last.
      cbn [fst]. by eexists ws, [_].
Qed.

Lemma told_parts o es l : told o es l -> exists retried final, l = retried ++ final /\
  Forall2 waited retried (fst (spans es)) /\ (length final <= 1)%nat /\ Forall stopped final /\
  (final = [] -> snd (spans es) = [] /\ exists e, o = Failed e).
Proof.
  intros (ws & final & -> & Hw & Hs & Hf). exists ws, final. split_and!; try done; [by apply stops_few|].
  destruct final as [|a [|]]; [done|by constructor|done].
Qed.

Lemma finish_retry_trace_told outcome code n elapsed s o past : story_invariant o s past ->
  match fst (finish_retry_trace outcome code n elapsed s) with
  | None => True
  | Some trace => is_Some (attempts (retry_trace s)) /\ told o past (trace_attempts trace)
  end.
Proof.
  intros Hst. unfold finish_retry_trace, is_enabled, finish_trace.
  destruct (attempts (retry_trace s)) as [l|] eqn:El; [|done]. cbn. destruct (Hst l El) as (ws & final & Hstory).
  set (terminal := Build_RawRetryAttempt _ _ _ _ _ _ _ _ _ _ _ _).
  pose proof (told_finish terminal outcome o s past l ws final eq_refl ltac:(done) Hstory) as Ht.
  destruct (finish_attempts terminal outcome l). split; [by eexists|done].
Qed.

(** C6: A request with a retry policy that comes to its end, and not to a panic, leaves a
    trace, and one without a retry policy never does: the attempts of the trace are numbered from 1 without gaps, at most one more than the retries
    allowed, and each is complete.  The request waits exactly where the trace says it
    retried: each wait ends an attempt that decided to retry, after the delay the attempt
    records and after its last request, sent to the origin it records, and its permit was
    dropped; and only the last attempt may end without a wait, which then did not decide to
    retry.  If all of them waited, the request failed in the last wait and did nothing after it. *)
Theorem retry_trace_complete to_uppercase request s m hops elapsed o trace es :
  request_state_try_from to_uppercase request = Ok (Some s) ->
  send_request m hops elapsed s = (o, trace, es) ->
  match trace with
  | None => part_retry_policy request = None \/ o = Continue \/ o = Panicked
  | Some trace =>
      is_Some (part_retry_policy request) /\
      (exists k, numbered (trace_attempts trace) k /\ Forall complete (trace_attempts trace) /\
        1 <= k <= 1 + retry_budget (state_policy s)) /\
      exists retried final, trace_attempts trace = retried ++ final /\
        Forall2 waited retried (fst (spans es)) /\
        (length final <= 1)%nat /\ Forall stopped final /\
        (final = [] -> snd (spans es) = [] /\ exists e, o = Failed e)
  end.
Proof.
  intros Hs Hl. apply try_from_facts in Hs as (_ & Hc & Ha & _ & _ & Htrace).
  unfold send_request in Hl.
  destruct (attempts_loop m hops 0 s) as [[[o1 s1] n1] es1] eqn:Hloop. pose proof Hloop as Hbudget. pose proof Hloop as Hstory.
  eapply (loop_invariant m (trace_invariant (part_retry_policy request))
            (fun _ _ _ _ _ _ _ _ => trace_invariant_step _ _ _ _ _ _ _ _ _ _) hops 0 s []) in Hloop.
  2: { unfold trace_invariant. rewrite Ha, Hc, Htrace. change (waits []) with 0.
       split_and!; try lia; [apply fmap_is_Some| |intros _; split; [lia|]];
         destruct (part_retry_policy request); try done; intros l [= <-];
         [exists [], []; split_and!; try done; cbn; lia|done]. }
  eapply (loop_invariant m (budget_invariant (state_policy s))
            (fun _ _ _ _ _ _ _ _ => budget_invariant_step _ _ _ _ _ _ _ _ _ _) hops 0 s []) in Hbudget.
  2: { unfold budget_invariant, redirect_budget, retry_budget. rewrite Hc.
       change (sends []) with 0. split_and!; try done; lia. }
  eapply (loop_invariant m (fun o _ => story_invariant o)
            (fun _ _ _ _ _ _ _ _ => story_step _ _ _ _ _ _ _ _ _) hops 0 s []) in Hstory.
  2: { intros l. rewrite Htrace. destruct (part_retry_policy request); [|done]. intros [= <-]. exists [], []. split; try done. by left. }
  destruct Hbudget as (_ & _ & Hr & _ & _). cbn in Hloop, Hstory.
  pose proof Hloop as (Hone & Hcount & Hen & _ & _ & _).
  assert (Hcase : forall outcome code,
    match fst (finish_retry_trace outcome code n1 elapsed s1) with
    | None => part_retry_policy request = None \/ o1 = Continue \/ o1 = Panicked
    | Some trace => is_Some (part_retry_policy request) /\
        (exists k, numbered (trace_attempts trace) k /\ Forall complete (trace_attempts trace) /\
          1 <= k <= 1 + retry_budget (state_policy s)) /\ told o1 es1 (trace_attempts trace)
    end).
  { intros outcome code. pose proof (finish_retry_trace_spec outcome code n1 elapsed s1 _ _ _ Hloop) as Hf.
    pose proof (finish_retry_trace_told outcome code n1 elapsed s1 o1 es1 Hstory) as Ht.
    destruct (fst _) as [t|]; [|by left]. destruct Hf as [? ?], Ht as [Hsome Ht]. split_and!; [by apply Hen|..|done].
    exists (retry_attempt s1). split_and!; try done; lia. }
  destruct o1 as [|code|e|]; [injection Hl as <- <- <-; auto| | |injection Hl as <- <- <-; auto].
  - specialize (Hcase OutcomeResponse (Some code)). destruct (finish_retry_trace _ _ _ _ _) as [[t|] ?];
      injection Hl as <- <- <-; [|exact Hcase]. destruct Hcase as (Hp & Hk & Ht). split_and!; [done|done|by apply told_parts].
  - specialize (Hcase OutcomeError None). destruct (finish_retry_trace _ _ _ _ _) as [[t|] ?];
      injection Hl as <- <- <-; [|exact Hcase]. destruct Hcase as (Hp & Hk & Ht). split_and!; [done|done|by apply told_parts].
Qed.
End loop.

(** ** Witnesses *)

#[local] Existing Instance simple_url_crate.
#[local] Existing Instance pair_http_crate.
#[local] Existing Instance simple_cookie_crates.
#[local] Instance no_http_dates : HttpDate := {| parse_http_date _ := None |}.

Definition sample_retry : RetryPolicy :=
  {| retries := 1; backoff := 100000000; jitter := 0; statuses := {[503]}; methods := {["GET"]};
     network_errors := true |}.

Definition sample_caller_headers : HeaderPairs := [("Accept", "*/*"); ("X-Token", "t")].

Definition sample_parts : TransportRequest :=
  {| part_method := "GET"; part_url := "https://a.example/"; part_headers := sample_caller_headers;
     part_auth_override_headers := None; part_auth_removed_headers := []; part_body := None;
     part_body_stream := None; part_body_replayable := true; part_use_proxy_transport := false;
     part_proxy_policy := "direct"; part_proxy_authorization := None; part_total_timeout := f64_of_Z 5;
     part_read_timeout := f64_of_Z 5; part_write_timeout := f64_of_Z 5;
     part_max_response_body_size := None; part_follow_redirects := true; part_max_redirects := 2;
     part_retry_policy := Some sample_retry; part_ssrf_policy := Some sample_ssrf;
     part_cookie_jar := true; part_auth := Some (Basic "Basic c2VjcmV0"); part_policy_hooks := None |}.

Definition a_example : HttpUrl := simple_http_url "https" "a.example" "/".
Definition b_example : HttpUrl := simple_http_url "https" "b.example" "/next".

Definition sample_state : RequestState :=
  {| state_method := "GET"; state_url := a_example; state_headers := sample_caller_headers;
     state_body := EmptyBody; state_body_policy := BodyEmpty; state_policy :=
       {| pipeline_proxy := Direct; pipeline_redirect := Some {| max_redirects := 2 |};
          pipeline_retry := Some sample_retry; pipeline_ssrf := Some sample_ssrf |};
     state_cookies := Some cookie_state_new;
     state_auth := Some (auth_state_new (Basic "Basic c2VjcmV0") sample_caller_headers None []);
     state_policy_hooks := None; state_proxy_authorization := None; total_timeout := f64_of_Z 5;
     read_timeout := f64_of_Z 5; state_write_timeout := 5000000000; state_max_response_body_size := None;
     retry_attempt := 1; completed_retries := 0; retry_trace := recorder_enabled |}.

Definition sample_hop (send : SendOutcome) : Hop :=
  {| hop_auth := Ok []; hop_before_send := Ok tt; hop_route_jar := sample_jar; hop_route_now := 0;
     hop_acquire := Ok tt; hop_send := send; hop_response_jar := sample_jar; hop_response_now := 0;
     hop_on_headers := Ok tt; hop_sample := f64_zero; hop_elapsed := 1000000000; hop_drain := Ok tt;
     hop_wait := Ok tt; hop_body := Ok tt; hop_after_body := Ok tt |}.

(** A retry, a redirect to another host, a response. *)
Definition sample_hops : list Hop :=
  [sample_hop (Responded 503 []); sample_hop (Responded 302 [("location", "https://b.example/next")]);
   sample_hop (Responded 200 [])].

Definition sample_run := attempts_loop BufferedMode sample_hops 0 sample_state.
Definition sample_events : list Event := snd sample_run.
Definition sample_sent (url : HttpUrl) (headers : HeaderPairs) (names : gset string) : Event :=
  Sent RouteDirect url {| parts_method := "GET"; parts_url := as_str url; parts_headers := headers;
                          parts_body := EmptyBody; parts_proxy_authorization := None |} names.

Lemma sample_started : request_state_try_from (fun m => m) sample_parts = Ok (Some sample_state).
Proof. vm_cast_no_check (eq_refl (Ok (E := RequestError) (Some sample_state))). Qed.

Lemma sample_events_value : sample_events =
  let first := sample_sent a_example
    (sample_caller_headers ++ [("Authorization", "Basic c2VjcmV0"); ("Cookie", "id=1")]) {["authorization"]} in
  [PermitAcquired "https://a.example"; first; PermitDropped; Waited 100000000;
   PermitAcquired "https://a.example"; first; PermitDropped;
   PermitAcquired "https://b.example"; sample_sent b_example sample_caller_headers ∅; PermitDropped].
Proof. vm_cast_no_check (eq_refl sample_events). Qed.

Lemma sample_run_value : sample_run =
  (Returned 200, snd (fst (fst sample_run)), snd (fst sample_run), sample_events).
Proof.
  assert (Ho : fst (fst (fst sample_run)) = Returned 200)
    by (vm_cast_no_check (eq_refl (Returned 200))).
  rewrite <- Ho. unfold sample_events. by destruct sample_run as [[[? ?] ?] ?].
Qed.

Lemma credentials_stay_home_witness :
  sample_events !! 8%nat = Some (sample_sent b_example sample_caller_headers ∅) /\
  stays_home sample_caller_headers a_example (take 8 sample_events) b_example
    {| parts_method := "GET"; parts_url := as_str b_example; parts_headers := sample_caller_headers;
       parts_body := EmptyBody; parts_proxy_authorization := None |}.
Proof.
  assert (Hi : sample_events !! 8%nat = Some (sample_sent b_example sample_caller_headers ∅))
    by (by rewrite sample_events_value).
  split; [exact Hi|].
  exact (credentials_stay_home _ _ _ _ _ _ _ _ _ _ _ _ _ _ sample_started sample_run_value Hi).
Defined.

Lemma every_request_admitted_witness :
  sample_sent b_example sample_caller_headers ∅ ∈ sample_events /\
  destination_allowed sample_ssrf b_example.
Proof.
  assert (Hin : sample_sent b_example sample_caller_headers ∅ ∈ sample_events)
    by (apply (list_elem_of_lookup_2 _ 8); by rewrite sample_events_value).
  split; [exact Hin|].
  exact (proj1 (proj1 (proj2 (proj2
    (every_request_admitted _ _ _ _ _ _ _ _ _ _ _ _ _ sample_started sample_run_value Hin)))
    sample_ssrf eq_refl)).
Defined.

Lemma request_loop_ends_witness :
  sends sample_events = 3 /\ sends sample_events <= 1 + (2 + 1).
Proof.
  split; [vm_compute; reflexivity|].
  exact (proj1 (request_loop_ends _ _ _ _ _ _ _ _ _ sample_started sample_run_value)).
Defined.

Lemma permits_balanced_witness : permits false sample_events = Some false.
Proof. exact (proj1 (permits_balanced _ _ _ _ _ _ _ _ sample_run_value)). Defined.

Definition sample_traced := send_request BufferedMode sample_hops 2000000000 sample_state.

Lemma sample_traced_value :
  sample_traced = (Returned 200, snd (fst sample_traced), sample_events).
Proof.
  unfold sample_traced, send_request. fold sample_run. rewrite sample_run_value.
  by destruct (finish_retry_trace _ _ _ _ _).
Qed.

Lemma retry_trace_complete_witness :
  match snd (fst sample_traced) with
  | None => False
  | Some trace => (exists k, numbered (trace_attempts trace) k /\ Forall complete (trace_attempts trace) /\ 1 <= k <= 2) /\
      exists first last, trace_attempts trace = [first; last] /\ attempt_decision first = Some "retry"%string /\ stopped last
  end.
Proof.
  pose proof (retry_trace_complete _ _ _ _ _ _ _ _ _ sample_started sample_traced_value) as Hc.
  assert (Htrace : is_some (snd (fst sample_traced)) = true) by (vm_compute; reflexivity).
  destruct (snd (fst sample_traced)) as [trace|]; [|discriminate Htrace].
  destruct Hc as (_ & (k & Hn & Hall & Hk) & waited_for & final & E & Hw & Hl & Hs & Hf). split.
  - exists k. change (1 + retry_budget (state_policy sample_state)) with 2 in Hk. split_and!; [exact Hn|exact Hall|apply Hk|apply Hk].
  - rewrite sample_events_value in Hw, Hf. cbn in Hw, Hf.
    destruct waited_for as [|first [|? ?]]; inversion Hw as [|? ? ? ? Hfirst Hnil]; [|inversion Hnil].
    destruct final as [|last [|? ?]]; [destruct (Hf eq_refl) as [Hr _]; discriminate Hr| |cbn in Hl; lia].
    exists first, last. split; [exact E|]. split; [apply Hfirst|]. by apply (proj1 (Forall_singleton _ _)) in Hs.
Defined.
