(* ===== verification/Acquire.v ===== *)
(** * Request permits

    [src/src/py/client/acquire/{pending,gate,origin,permit,telemetry,diagnostics}.rs]:
    the gate that bounds the active requests of a client and of each origin, with a
    first-in first-out queue of bounded length.  A request is a task; the sections
    under a mutex and the operations on a semaphore or on the metrics are indivisible
    steps of the tasks, which interleave arbitrarily ([system_step]).  The calls of
    the metrics are recorded in the order they are made.

    [try_acquire_permits] is one step: it runs under the mutex of the queue, so the
    permits it sees can only increase between its two attempts. *)

From stdpp Require Import sorting.
From S2P Require Import Prelude Atomics Numeric Sync.
From S2P Require Metrics OriginMetrics.
Import OriginMetrics (PendingRequestBlockingReason(..), BlockedByNone, GlobalActiveRequests,
  PerOriginActiveRequests, PendingQueueOrder, Mixed).

Local Open Scope Z_scope.

Definition ORIGIN_GATE_CLEANUP_THRESHOLD : nat := Z.to_nat 1024.

(** ** The shared state *)

Record PendingQueueState := {
  next_waiter_id : Z;
  waiters : list Z;
}.
#[export] Instance eta_PendingQueueState : Eta PendingQueueState := fun q =>
  Build_PendingQueueState (next_waiter_id q) (waiters q).

Definition pending_queue_default : PendingQueueState := {| next_waiter_id := 1; waiters := [] |}.

Record GateConfig := {
  max_active_requests : Z;
  max_active_requests_per_origin : option Z;
  max_pending_requests : Z;
}.

(** The calls of [Metrics] and [OriginMetrics], which are always made together. *)
Inductive Call :=
| PoolAcquireStarted
| PoolAcquireFinishedImmediately
| PoolAcquireWaited
| PoolAcquireTimeout
| PoolAcquireWaitFinished (elapsed : Z)
| PendingStarted (blocked_by : PendingRequestBlockingReason)
| PendingFinished
| ActiveStarted
| ActiveFinished.

(** The call on [Metrics]. *)
Definition metrics_call (c : Call) : action Metrics.Metrics unit :=
  match c with
  | PoolAcquireStarted => Metrics.pool_acquire_started
  | PoolAcquireFinishedImmediately => Metrics.pool_acquire_finished_immediately
  | PoolAcquireWaited => Metrics.pool_acquire_waited_event
  | PoolAcquireTimeout => Metrics.pool_acquire_timeout
  | PoolAcquireWaitFinished elapsed => Metrics.pool_acquire_wait_finished elapsed
  | PendingStarted _ => Metrics.pending_request_registered
  | PendingFinished => Metrics.pending_request_finished
  | ActiveStarted => Metrics.active_request_started
  | ActiveFinished => Metrics.active_request_finished
  end.

(** ** Tasks *)

Inductive AcquireError :=
| PoolAcquireQueueFull
| PoolAcquireTimeoutExpired
| InvalidTimeout (message : string)
| GateClosed (message : string)
| AcquireCancelled.

(** A [PendingQueueWaiter]: its entry and the start of its [PendingAcquire]. *)
Record Waiter := { waiter_id : Z; pending_started : Z }.

(** A task between two of its steps: what the future of [AcquireGate::acquire] or the
    [AcquirePermit] it returned holds.  [sem] is the semaphore of the origin. *)
Inductive Task :=
| Starting
| Immediate (sem : option nat)
| Registering (sem : option nat) (queue_was_empty : bool)
| Enabling (waiter : Waiter) (sem : option nat)
| Trying (waiter : Waiter) (sem : option nat)
| Awaiting (waiter : Waiter) (sem : option nat)
(** [acquire_permits] after [try_acquire_for_waiter] returned the permits *)
| GrantedPending (started : Z) (sem : option nat)
| GrantedNotify (sem : option nat)
(** before [AcquirePermit::new] *)
| Permitted (sem : option nat)
| Active (sem : option nat)
(** the drop of [AcquirePermit] *)
| ReleasingOrigin (sem : option nat)
| ReleasingGlobal
| ReleasedNotify
(** the drop of [PendingQueueWaiter] *)
| Removing (waiter : Waiter) (error : AcquireError)
| RemovedPending (started : Z) (removed : bool) (error : AcquireError)
| RemovedNotify (error : AcquireError)
| Failing (error : AcquireError)
| Finished (error : option AcquireError).

(** What a task holds: an [Arc] of its semaphore, permits, a place in the queue. *)
Definition task_sem (t : Task) : option nat :=
  match t with
  | Immediate sem | Registering sem _ | Enabling _ sem | Trying _ sem | Awaiting _ sem
  | GrantedPending _ sem | GrantedNotify sem | Permitted sem | Active sem | ReleasingOrigin sem => sem
  | _ => None
  end.

Definition holds_origin_permit (sem : nat) (t : Task) : Z :=
  match t with
  | GrantedPending _ s | GrantedNotify s | Permitted s | Active s | ReleasingOrigin s =>
      if bool_decide (s = Some sem) then 1 else 0
  | _ => 0
  end.

Definition holds_global_permit (t : Task) : Z :=
  match t with
  | GrantedPending _ _ | GrantedNotify _ | Permitted _ | Active _ | ReleasingOrigin _
  | ReleasingGlobal => 1
  | _ => 0
  end.

Definition queued_as (t : Task) : option Z :=
  match t with
  | Enabling w _ | Trying w _ | Awaiting w _ | Removing w _ => Some (waiter_id w)
  | _ => None
  end.

Record Request := { request_origin : string; pool_timeout : f64; request_started : Z }.

Section acquire.
Context `{TokioSync}.

(** [semaphores] is the heap of origin semaphores, [origin_gates] the weak references
    of [OriginGates], [entries] the [Notify] of each queue entry. *)
Record Gate := {
  global_semaphore : Semaphore;
  semaphores : gmap nat Semaphore;
  next_semaphore : nat;
  origin_gates : gmap string nat;
  pending_queue : PendingQueueState;
  entries : gmap Z Notify;
}.
#[export] Instance eta_Gate : Eta Gate := fun g =>
  Build_Gate (global_semaphore g) (semaphores g) (next_semaphore g) (origin_gates g)
    (pending_queue g) (entries g).

Definition acquire_gate_new (c : GateConfig) : Gate :=
  {| global_semaphore := semaphore_new (max_active_requests c); semaphores := ∅;
     next_semaphore := 0; origin_gates := ∅; pending_queue := pending_queue_default;
     entries := ∅ |}.

(** ** Semaphores of the origins *)

(** [strong_count] of a semaphore: the tasks that hold an [Arc] of it. *)
Definition origin_gate (limit : Z) (strong_count : nat -> Z) (origin : string) (g : Gate) :
    nat * Gate :=
  match origin_gates g !! origin ≫= (fun sem => if 0 <? strong_count sem then Some sem else None) with
  | Some sem => (sem, g)
  | None =>
      let g := if (ORIGIN_GATE_CLEANUP_THRESHOLD <=? size (origin_gates g))%nat
               then g <| origin_gates ::= filter (fun kv => 0 < strong_count (snd kv)) |>
               else g in
      let sem := next_semaphore g in
      (sem, g <| semaphores ::= <[sem := semaphore_new limit]> |>
              <| next_semaphore := S sem |>
              <| origin_gates ::= <[origin := sem]> |>)
  end.

Definition origin_semaphore (c : GateConfig) (strong_count : nat -> Z) (origin : string) (g : Gate) :
    option nat * Gate :=
  match max_active_requests_per_origin c with
  | Some limit => let (sem, g) := origin_gate limit strong_count origin g in (Some sem, g)
  | None => (None, g)
  end.

(** ** Permits *)

Definition put_origin (sem : option nat) (s : option Semaphore) (g : Gate) : Gate :=
  match sem, s with
  | Some sem, Some s => g <| semaphores ::= <[sem := s]> |>
  | _, _ => g
  end.

Definition try_acquire_permits (sem : option nat) (g : Gate) : result bool string * Gate :=
  let global g (drop_origin : Gate -> Gate) :=
    match try_acquire_owned (global_semaphore g) with
    | Ok s => (Ok true, g <| global_semaphore := s |>)
    | Err NoPermits => (Ok false, drop_origin g)
    | Err SemaphoreClosed => (Err "acquire gate is closed", drop_origin g)
    end in
  match sem with
  | Some sem =>
      match try_acquire_owned <$> semaphores g !! sem with
      | Some (Ok s) =>
          global (g <| semaphores ::= <[sem := s]> |>)
            (fun g => g <| semaphores ::= alter release_permit sem |>)
      | Some (Err NoPermits) => (Ok false, g)
      | Some (Err SemaphoreClosed) => (Err "origin acquire gate is closed", g)
      | None => (Ok false, g) (* a task holds its semaphore *)
      end
  | None => global g id
  end.

(** ** The queue *)

Definition notify_head (g : Gate) : Gate :=
  match waiters (pending_queue g) with
  | [] => g
  | waiter :: _ => g <| entries ::= alter notify_one waiter |>
  end.

Definition notify_capacity : Gate -> Gate := notify_head.

Inductive ImmediateAcquire := Acquired | Queue (queue_was_empty : bool).

Definition try_acquire_immediate (sem : option nat) (g : Gate) : result ImmediateAcquire string * Gate :=
  match waiters (pending_queue g) with
  | _ :: _ => (Ok (Queue false), g)
  | [] =>
      let (acquired, g) := try_acquire_permits sem g in
      (let? acquired := acquired in Ok (if acquired then Acquired else Queue true), g)
  end.

Definition try_register (max_pending_requests : Z) (g : Gate) : option Z * Gate :=
  if max_pending_requests <=? Z.of_nat (length (waiters (pending_queue g))) then (None, g)
  else
    let id := next_waiter_id (pending_queue g) in
    (Some id,
     g <| pending_queue ::= fun q =>
            q <| next_waiter_id := saturating_add id 1 |>
              <| waiters ::= fun ws => ws ++ [id] |> |>
       <| entries ::= <[id := notify_new]> |>).

Definition try_acquire_for_waiter (id : Z) (sem : option nat) (g : Gate) :
    result bool string * Gate :=
  match waiters (pending_queue g) with
  | front :: rest =>
      if front =? id then
        let (acquired, g) := try_acquire_permits sem g in
        match acquired with
        | Ok true => (Ok true, g <| pending_queue ::= fun q => q <| waiters := rest |> |>)
        | acquired => (acquired, g)
        end
      else (Ok false, g)
  | [] => (Ok false, g)
  end.

(** Removes the first entry with this identifier. *)
Fixpoint remove_first (id : Z) (ws : list Z) : list Z :=
  match ws with
  | [] => []
  | w :: ws => if w =? id then ws else w :: remove_first id ws
  end.

Definition remove_waiter (id : Z) (g : Gate) : bool * Gate :=
  let ws := waiters (pending_queue g) in
  if bool_decide (id ∈ ws)
  then (true, g <| pending_queue ::= fun q => q <| waiters := remove_first id ws |> |>)
  else (false, g).

Definition pending_blocking_reason (queue_was_empty : bool) (sem : option nat) (g : Gate) :
    PendingRequestBlockingReason :=
  let global_blocked := available_permits (global_semaphore g) =? 0 in
  let origin_blocked :=
    match sem ≫= (fun sem => semaphores g !! sem) with
    | Some s => available_permits s =? 0
    | None => false
    end in
  match queue_was_empty, global_blocked, origin_blocked with
  | false, false, false => PendingQueueOrder
  | false, _, _ | true, false, false | true, true, true => Mixed
  | true, true, false => GlobalActiveRequests
  | true, false, true => PerOriginActiveRequests
  end.

(** ** Steps of a task *)

(** What makes a task move: its next step at an instant, the expiry of its timeout or
    its cancellation while it waits, or the end of the request it was granted for. *)
Inductive Event := Run (now : Z) | Expire | Cancel | Complete.

(** The calls of [AcquireTelemetry], [PendingAcquire] and [AcquirePermit]. *)
Definition telemetry_start : list Call := [PoolAcquireStarted].
Definition telemetry_mark_waited (waited : bool) : list Call :=
  if waited then [] else [PoolAcquireWaited].
Definition telemetry_finish_success (waited : bool) : list Call :=
  if waited then [] else [PoolAcquireFinishedImmediately].
Definition pending_acquire_start (blocked_by : PendingRequestBlockingReason) : list Call :=
  [PendingStarted blocked_by].
Definition pending_acquire_drop (started now : Z) : list Call :=
  [PendingFinished; PoolAcquireWaitFinished (elapsed started now)].
Definition acquire_permit_new : list Call := [ActiveStarted].

(** [PendingQueueWaiter::acquire_permits]. *)
Definition acquire_permits_step (e : Event) (t : Task) (g : Gate) : option (Task * Gate * list Call) :=
  match t, e with
  | Enabling waiter sem, Run _ =>
      Some (Trying waiter sem, g <| entries ::= alter notified_enable (waiter_id waiter) |>, [])
  | Trying waiter sem, Run _ =>
      match try_acquire_for_waiter (waiter_id waiter) sem g with
      | (Ok true, g) => Some (GrantedPending (pending_started waiter) sem, g, [])
      | (Ok false, g) => Some (Awaiting waiter sem, g, [])
      | (Err e, g) => Some (Removing waiter (GateClosed e), g, [])
      end
  | Awaiting waiter sem, Run _ =>
      match entries g !! waiter_id waiter ≫= notified_poll with
      | Some n => Some (Enabling waiter sem, g <| entries ::= <[waiter_id waiter := n]> |>, [])
      | None => None
      end
  | GrantedPending started sem, Run now =>
      Some (GrantedNotify sem, g, pending_acquire_drop started now)
  | GrantedNotify sem, Run _ => Some (Permitted sem, notify_capacity g, [])
  | _, _ => None
  end.

(** The drop of [PendingQueueWaiter] and of its fields. *)
Definition waiter_drop_step (e : Event) (t : Task) (g : Gate) : option (Task * Gate * list Call) :=
  match t, e with
  | Removing waiter error, Run _ =>
      let (removed, g) := remove_waiter (waiter_id waiter) g in
      Some (RemovedPending (pending_started waiter) removed error, g, [])
  | RemovedPending started removed error, Run now =>
      Some (if removed then RemovedNotify error else Failing error, g, pending_acquire_drop started now)
  | RemovedNotify error, Run _ => Some (Failing error, notify_capacity g, [])
  | _, _ => None
  end.

(** The drop of [AcquirePermit]. *)
Definition permit_drop_step (e : Event) (t : Task) (g : Gate) : option (Task * Gate * list Call) :=
  match t, e with
  | Active sem, Complete => Some (ReleasingOrigin sem, g, [ActiveFinished])
  | ReleasingOrigin sem, Run _ =>
      Some (ReleasingGlobal,
            match sem with
            | Some sem => g <| semaphores ::= alter release_permit sem |>
            | None => g
            end, [])
  | ReleasingGlobal, Run _ => Some (ReleasedNotify, g <| global_semaphore ::= release_permit |>, [])
  | ReleasedNotify, Run _ => Some (Finished None, notify_capacity g, [])
  | _, _ => None
  end.

(** [AcquireGate::acquire], up to its wait and after it. *)
Definition acquire_step (c : GateConfig) (strong_count : nat -> Z) (r : Request) (e : Event)
    (t : Task) (g : Gate) : option (Task * Gate * list Call) :=
  match t, e with
  | Starting, Run _ =>
      let (sem, g) := origin_semaphore c strong_count (request_origin r) g in
      Some (Immediate sem, g, telemetry_start)
  | Immediate sem, Run _ =>
      match try_acquire_immediate sem g with
      | (Ok Acquired, g) => Some (Permitted sem, g, telemetry_finish_success false)
      | (Ok (Queue queue_was_empty), g) => Some (Registering sem queue_was_empty, g, [])
      | (Err e, g) => Some (Finished (Some (GateClosed e)), g, [])
      end
  | Registering sem queue_was_empty, Run now =>
      match remaining_duration "Timeouts.pool" (pool_timeout r) (request_started r) now with
      | Err e => Some (Finished (Some (InvalidTimeout e)), g, [])
      | Ok _ =>
          let blocked_by := pending_blocking_reason queue_was_empty sem g in
          match try_register (max_pending_requests c) g with
          | (None, g) => Some (Finished (Some PoolAcquireQueueFull), g, [PoolAcquireTimeout])
          | (Some id, g) =>
              Some (Enabling {| waiter_id := id; pending_started := now |} sem, g,
                    pending_acquire_start blocked_by ++ telemetry_mark_waited false)
          end
      end
  | Awaiting waiter _, Expire => Some (Removing waiter PoolAcquireTimeoutExpired, g, [])
  | Awaiting waiter _, Cancel => Some (Removing waiter AcquireCancelled, g, [])
  | Permitted sem, Run _ => Some (Active sem, g, acquire_permit_new)
  | Failing error, Run _ =>
      Some (Finished (Some error), g,
            match error with PoolAcquireTimeoutExpired => [PoolAcquireTimeout] | _ => [] end)
  | _, _ => None
  end.

Definition task_step (c : GateConfig) (strong_count : nat -> Z) (r : Request) (e : Event)
    (t : Task) (g : Gate) : option (Task * Gate * list Call) :=
  match t, e with
  | (Enabling _ _ | Trying _ _ | GrantedPending _ _ | GrantedNotify _), _ | Awaiting _ _, Run _ =>
      acquire_permits_step e t g
  | (Removing _ _ | RemovedPending _ _ _ | RemovedNotify _), _ => waiter_drop_step e t g
  | (Active _ | ReleasingOrigin _ | ReleasingGlobal | ReleasedNotify), _ => permit_drop_step e t g
  | _, _ => acquire_step c strong_count r e t g
  end.

(** ** The system *)

Record System := {
  gate : Gate;
  requests : list (Request * Task);
  calls : list (string * Call);
}.

Definition strong_count_of (ts : list (Request * Task)) (sem : nat) : Z :=
  sum_over (fun rt => if bool_decide (task_sem (snd rt) = Some sem) then 1 else 0) ts.

Definition step_task (c : GateConfig) (i : nat) (e : Event) (s : System) : option System :=
  '(r, t) ← requests s !! i;
  '(t', g', cs) ← task_step c (strong_count_of (requests s)) r e t (gate s);
  Some {| gate := g'; requests := <[i := (r, t')]> (requests s);
          calls := calls s ++ ((fun c => (request_origin r, c)) <$> cs) |}.

Inductive system_step (c : GateConfig) : System -> System -> Prop :=
| step_new s r :
    system_step c s {| gate := gate s; requests := requests s ++ [(r, Starting)]; calls := calls s |}
| step_run s i e s' : step_task c i e s = Some s' -> system_step c s s'.

Definition initial (c : GateConfig) : System :=
  {| gate := acquire_gate_new c; requests := []; calls := [] |}.

Definition reachable (c : GateConfig) (s : System) : Prop := rtc (system_step c) (initial c) s.

(** Rule induction, with the steps spelled out. *)
Lemma reachable_invariant c (P : System -> Prop) :
  P (initial c) ->
  (forall s r, P s ->
     P {| gate := gate s; requests := requests s ++ [(r, Starting)]; calls := calls s |}) ->
  (forall s i r t e t' g' cs, P s -> requests s !! i = Some (r, t) ->
     task_step c (strong_count_of (requests s)) r e t (gate s) = Some (t', g', cs) ->
     P {| gate := g'; requests := <[i := (r, t')]> (requests s);
          calls := calls s ++ ((fun c => (request_origin r, c)) <$> cs) |}) ->
  forall s, reachable c s -> P s.
Proof.
  intros Hinit Hnew Hrun s Hs. unfold reachable in Hs. revert Hinit.
  induction Hs as [s|s1 s2 s3 H12 _ IH]; [done|]. intros HP. apply IH. clear IH.
  destruct H12 as [s r|s i e s' Hstep]; [by apply Hnew|].
  unfold step_task in Hstep. destruct (requests s !! i) as [[r t]|] eqn:Hi; [|done]. cbn in Hstep.
  destruct (task_step _ _ _ _ _ _) as [[[t' g'] cs]|] eqn:Hts; [|done]. injection Hstep as <-.
  by eapply Hrun.
Qed.

(** ** The permits of a gate *)

Definition origin_available (g : Gate) (sem : nat) : option Z :=
  available_permits <$> semaphores g !! sem.

Definition gate_open (g : Gate) : Prop :=
  is_closed (global_semaphore g) = false /\
  forall sem s, semaphores g !! sem = Some s -> is_closed s = false.

(** The permits are there for a task with semaphore [sem]. *)
Definition can_acquire (sem : option nat) (g : Gate) : Prop :=
  0 < available_permits (global_semaphore g) /\
  forall id, sem = Some id -> exists a, origin_available g id = Some a /\ 0 < a.

Definition sem_present (sem : option nat) (g : Gate) : Prop :=
  forall id, sem = Some id -> is_Some (semaphores g !! id).

Definition permit_of (b : bool) (sem : option nat) (id : nat) : Z :=
  if b && bool_decide (sem = Some id) then 1 else 0.

Record permits_moved (b : bool) (sem : option nat) (g g' : Gate) : Prop := {
  moved_open : gate_open g';
  moved_global : available_permits (global_semaphore g') =
    available_permits (global_semaphore g) - (if b then 1 else 0);
  moved_origin : forall id, origin_available g' id =
    (fun a => a - permit_of b sem id) <$> origin_available g id;
  moved_rest : next_semaphore g' = next_semaphore g /\ origin_gates g' = origin_gates g /\
    pending_queue g' = pending_queue g /\ entries g' = entries g;
}.

Lemma permits_not_moved sem g : gate_open g -> permits_moved false sem g g.
Proof.
  intros Hg. split; [done|lia| |done]. intros id. unfold permit_of; cbn.
  destruct (origin_available g id); cbn; [|done]. f_equal. lia.
Qed.

(** How the permits of one semaphore change. *)
Definition semaphore_moved (n : Z) (s s' : option Semaphore) : Prop :=
  match s, s' with
  | Some s, Some s' => is_closed s' = false /\ available_permits s' = available_permits s - n
  | None, None => True
  | _, _ => False
  end.

Lemma permits_moved_intro (b : bool) sem g g' :
  is_closed (global_semaphore g') = false ->
  available_permits (global_semaphore g') =
    available_permits (global_semaphore g) - (if b then 1 else 0) ->
  (forall id, semaphore_moved (permit_of b sem id) (semaphores g !! id) (semaphores g' !! id)) ->
  next_semaphore g' = next_semaphore g /\ origin_gates g' = origin_gates g /\
    pending_queue g' = pending_queue g /\ entries g' = entries g ->
  permits_moved b sem g g'.
Proof.
  intros Hc Ha Hs Hr. split; [|done| |done].
  - split; [done|]. intros id s Hid. specialize (Hs id). rewrite Hid in Hs. unfold semaphore_moved in Hs.
    destruct (semaphores g !! id); [by destruct Hs|done].
  - intros id. specialize (Hs id). unfold origin_available, semaphore_moved in *.
    destruct (semaphores g !! id), (semaphores g' !! id); cbn; try done.
    destruct Hs as [_ ->]. done.
Qed.

Lemma semaphore_unmoved g id : gate_open g -> semaphore_moved 0 (semaphores g !! id) (semaphores g !! id).
Proof.
  intros [_ Ho]. unfold semaphore_moved. destruct (semaphores g !! id) eqn:Hs; [|done].
  split; [by eapply Ho|lia].
Qed.

Lemma semaphore_moved_insert g id s s' (b : bool) :
  gate_open g -> semaphores g !! id = Some s -> is_closed s' = false ->
  available_permits s' = available_permits s - (if b then 1 else 0) ->
  forall id', semaphore_moved (permit_of b (Some id) id') (semaphores g !! id')
                (<[id := s']> (semaphores g) !! id').
Proof.
  intros Hg Hs Hc Ha id'. unfold permit_of. destruct (decide (id = id')) as [<-|Hn].
  - rewrite lookup_insert_eq, Hs, bool_decide_true by done. by destruct b.
  - rewrite lookup_insert_ne, bool_decide_false by congruence. rewrite andb_false_r.
    by apply semaphore_unmoved.
Qed.

Lemma permits_moved_None (b : bool) g gs :
  gate_open g -> is_closed gs = false ->
  available_permits gs = available_permits (global_semaphore g) - (if b then 1 else 0) ->
  permits_moved b None g (g <| global_semaphore := gs |>).
Proof.
  intros Hg Hc Ha. apply permits_moved_intro; [done|done| |done].
  intros id. unfold permit_of. rewrite bool_decide_false, andb_false_r by done.
  exact (semaphore_unmoved g id Hg).
Qed.

Lemma try_acquire_permits_spec `{!TokioLaws} sem g r g' :
  try_acquire_permits sem g = (r, g') -> gate_open g -> sem_present sem g ->
  exists b, r = Ok b /\ permits_moved b sem g g' /\ (b = true <-> can_acquire sem g).
Proof.
  unfold try_acquire_permits, can_acquire. intros Hr Hopen Hsem.
  pose proof Hopen as [Hg Ho].
  pose proof (try_acquire_spec (global_semaphore g) Hg) as Hgs.
  destruct sem as [id|].
  - destruct (Hsem id eq_refl) as [s Hs]. pose proof (Ho _ _ Hs) as Hc.
    pose proof (try_acquire_spec s Hc) as Hos. rewrite Hs in Hr. cbn in Hr.
    assert (Ha : origin_available g id = Some (available_permits s))
      by (unfold origin_available; by rewrite Hs).
    destruct (try_acquire_owned s) as [s'|[]]; [|injection Hr as <- <-|done].
    + destruct Hos as (Hp & Hav & Hc').
      destruct (try_acquire_owned (global_semaphore g)) as [gs|[]]; [| |done]; injection Hr as <- <-.
      * exists true. split; [done|]. split.
        { apply permits_moved_intro; [apply Hgs|apply Hgs| |done].
          by apply (semaphore_moved_insert g id s s' true). }
        split; [intros _|done]. split; [lia|]. intros ? [= <-]. eauto.
      * exists false. split; [done|]. split.
        { destruct (available_release s' Hc') as [Hav' Hc2].
          apply permits_moved_intro; [done|cbn; lia| |done]. cbn.
          rewrite alter_insert_eq.
          apply (semaphore_moved_insert g id s _ false); [done|done|done|lia]. }
        split; [done|]. intros [? _]. lia.
    + exists false. split; [done|]. split; [by apply permits_not_moved|]. split; [done|].
      intros [_ Hall]. destruct (Hall id eq_refl) as (a & Ha' & Hpos). simplify_eq. lia.
  - destruct (try_acquire_owned (global_semaphore g)) as [gs|[]]; [| |done]; injection Hr as <- <-.
    + exists true. split; [done|]. split; [apply permits_moved_None; [done|apply Hgs..]|].
      split; [intros _|done]. split; [lia|done].
    + exists false. split; [done|]. split; [by apply permits_not_moved|]. split; [done|].
      intros [? _]. lia.
Qed.

Lemma can_acquire_moved sem sem' g g' :
  permits_moved false sem g g' -> can_acquire sem' g' <-> can_acquire sem' g.
Proof.
  intros [_ Hg Ho _]. unfold can_acquire. rewrite Hg, Z.sub_0_r.
  assert (Hav : forall id, origin_available g' id = origin_available g id).
  { intros id. rewrite Ho. unfold permit_of; cbn. destruct (origin_available g id); cbn; [|done].
    f_equal. lia. }
  by setoid_rewrite Hav.
Qed.

Lemma try_acquire_immediate_spec `{!TokioLaws} sem g r g' :
  try_acquire_immediate sem g = (r, g') -> gate_open g -> sem_present sem g ->
  exists x, r = Ok x /\
  match x with
  | Acquired => waiters (pending_queue g) = [] /\ permits_moved true sem g g' /\ can_acquire sem g
  | Queue _ => permits_moved false sem g g'
  end.
Proof.
  unfold try_acquire_immediate. intros Ht Hg Hsem. destruct (waiters (pending_queue g)).
  - destruct (try_acquire_permits sem g) as [r2 g2] eqn:Hp.
    destruct (try_acquire_permits_spec _ _ _ _ Hp Hg Hsem) as (b & -> & Hm & Hb).
    destruct b; injection Ht as <- <-; eexists; (split; [done|]); [|done].
    split_and!; [done|done|by apply Hb].
  - injection Ht as <- <-. eexists. split; [done|]. by apply permits_not_moved.
Qed.

Lemma try_acquire_for_waiter_spec `{!TokioLaws} id sem g r g' :
  try_acquire_for_waiter id sem g = (r, g') -> gate_open g -> sem_present sem g ->
  exists b : bool, r = Ok b /\
  if b then
    exists rest g1, waiters (pending_queue g) = id :: rest /\ can_acquire sem g /\
    permits_moved true sem g g1 /\
    g' = g1 <| pending_queue ::= fun q => q <| waiters := rest |> |>
  else
    permits_moved false sem g g' /\
    forall rest, waiters (pending_queue g) = id :: rest -> ~ can_acquire sem g'.
Proof.
  unfold try_acquire_for_waiter. intros Ht Hg Hsem. destruct (waiters (pending_queue g)) as [|w rest].
  - injection Ht as <- <-. exists false. split; [done|]. split; [by apply permits_not_moved|done].
  - destruct (Z.eqb_spec w id) as [->|Hn].
    + destruct (try_acquire_permits sem g) as [r2 g2] eqn:Hp.
      destruct (try_acquire_permits_spec _ _ _ _ Hp Hg Hsem) as (b & -> & Hm & Hb).
      exists b. destruct b; injection Ht as <- <-; (split; [done|]).
      * exists rest, g2. split_and!; [done|by apply Hb|done|done].
      * split; [done|]. intros _ _. rewrite (can_acquire_moved sem) by done.
        intros Hc. by apply Hb in Hc.
    + injection Ht as <- <-. exists false. split; [done|]. split; [by apply permits_not_moved|].
      intros rest' [= ? _]. done.
Qed.

(** A step of a task moves permits between the semaphores and the task. *)
Record permits_change (global : Z) (origin : nat -> Z) (g g' : Gate) : Prop := {
  change_open : gate_open g';
  change_global : available_permits (global_semaphore g') =
    available_permits (global_semaphore g) - global;
  change_origin : forall id, origin_available g' id = (fun a => a - origin id) <$> origin_available g id;
  change_nonneg : 0 < global -> 0 < available_permits (global_semaphore g);
  change_origin_nonneg : forall id a, origin_available g id = Some a -> 0 < origin id -> 0 < a;
  change_gates : next_semaphore g' = next_semaphore g /\ origin_gates g' = origin_gates g;
}.

Lemma permits_unchanged g g' origin :
  gate_open g -> (forall id, origin id = 0) ->
  global_semaphore g' = global_semaphore g -> semaphores g' = semaphores g ->
  next_semaphore g' = next_semaphore g -> origin_gates g' = origin_gates g ->
  permits_change 0 origin g g'.
Proof.
  intros Hg Ho E1 E2 E3 E4. split.
  - unfold gate_open. by rewrite E1, E2.
  - rewrite E1. lia.
  - intros id. unfold origin_available. rewrite E2, Ho. destruct (semaphores g !! id); cbn; [|done].
    f_equal. lia.
  - lia.
  - intros id a _. rewrite Ho. lia.
  - done.
Qed.

Lemma permits_moved_change (b : bool) sem g g' g2 global origin :
  permits_moved b sem g g' -> (b = true -> can_acquire sem g) ->
  global_semaphore g2 = global_semaphore g' -> semaphores g2 = semaphores g' ->
  next_semaphore g2 = next_semaphore g' -> origin_gates g2 = origin_gates g' ->
  global = (if b then 1 else 0) -> (forall id, origin id = permit_of b sem id) ->
  permits_change global origin g g2.
Proof.
  intros [Ho Hg Hor (Hn & Hog & _)] Hcan E1 E2 E3 E4 -> Horigin. split.
  - unfold gate_open. by rewrite E1, E2.
  - by rewrite E1.
  - intros id. unfold origin_available at 1. rewrite E2, Horigin. apply Hor.
  - destruct b; [|lia]. intros _. by apply Hcan.
  - intros id a Ha. rewrite Horigin. unfold permit_of. destruct b; cbn; [|lia].
    case_bool_decide as Hs; [|lia]. destruct (Hcan eq_refl) as [_ Hall].
    destruct (Hall id Hs) as (a' & Ha' & ?). intros _. congruence.
  - split; congruence.
Qed.

Lemma holds_origin_nonneg id t : 0 <= holds_origin_permit id t.
Proof. destruct t; cbn; try done; by case_bool_decide. Qed.

Lemma release_global_change `{!TokioLaws} g origin :
  gate_open g -> (forall id, origin id = 0) ->
  permits_change (-1) origin g (g <| global_semaphore ::= release_permit |>).
Proof.
  intros [Hg Ho] Hor. destruct (available_release _ Hg) as [Ha Hc]. split.
  - split; [done|apply Ho].
  - cbn. lia.
  - intros id. change (origin_available g id = (fun a => a - origin id) <$> origin_available g id).
    rewrite Hor. destruct (origin_available g id); cbn; [|done]. f_equal. lia.
  - lia.
  - intros id a _. rewrite Hor. lia.
  - done.
Qed.

Lemma release_origin_change `{!TokioLaws} id g :
  gate_open g -> is_Some (semaphores g !! id) ->
  permits_change 0 (fun id' => if bool_decide (Some id = Some id') then -1 else 0) g
    (g <| semaphores ::= alter release_permit id |>).
Proof.
  intros [Hg Ho] [s Hs]. destruct (available_release s (Ho _ _ Hs)) as [Ha Hc].
  assert (Hal : forall id', alter release_permit id (semaphores g) !! id' =
    if decide (id = id') then Some (release_permit s) else semaphores g !! id').
  { intros id'. case_decide; subst; rewrite ?lookup_alter_eq, ?lookup_alter_ne by done; [|done].
    by rewrite Hs. }
  split.
  - split; [done|]. intros id' s'. cbn. rewrite Hal. case_decide; [congruence|apply Ho].
  - cbn. lia.
  - intros id'. unfold origin_available. cbn. rewrite Hal. case_decide; subst.
    + rewrite Hs, bool_decide_true by done. cbn. f_equal. lia.
    + rewrite bool_decide_false by congruence. destruct (semaphores g !! id'); cbn; [|done].
      f_equal. lia.
  - lia.
  - intros id' a _. case_bool_decide; lia.
  - done.
Qed.

Lemma permits_change_ext global f f' g g' :
  permits_change global f g g' -> (forall id, f id = f' id) -> permits_change global f' g g'.
Proof.
  intros [] Hf. split; try done.
  - intros id. by rewrite <- Hf.
  - intros id a. rewrite <- Hf. by apply change_origin_nonneg0.
Qed.

(** The task after a step has the same semaphore or none. *)
Definition needs_sem (t : Task) : bool :=
  match t with
  | Immediate _ | Registering _ _ | Enabling _ _ | Trying _ _ | Awaiting _ _
  | GrantedPending _ _ | GrantedNotify _ | Permitted _ | Active _ | ReleasingOrigin _ => true
  | _ => false
  end.

Definition keeps_sem (t t' : Task) : Prop :=
  (needs_sem t' = true -> needs_sem t = true) /\
  (task_sem t' = task_sem t \/ task_sem t' = None /\ needs_sem t' = false).

Ltac keep_sem := unfold keeps_sem; cbn; tauto.

Lemma task_step_permits `{!TokioLaws} c strong r e t g t' g' cs :
  task_step c strong r e t g = Some (t', g', cs) -> t <> Starting ->
  gate_open g -> sem_present (task_sem t) g ->
  keeps_sem t t' /\
  permits_change (holds_global_permit t' - holds_global_permit t)
    (fun id => holds_origin_permit id t' - holds_origin_permit id t) g g'.
Proof.
  intros Hstep Hns Hg Hsem.
  assert (Hsame : forall g2, global_semaphore g2 = global_semaphore g -> semaphores g2 = semaphores g ->
    next_semaphore g2 = next_semaphore g -> origin_gates g2 = origin_gates g ->
    forall origin, (forall id, origin id = 0) -> permits_change 0 origin g g2)
    by (intros; by apply permits_unchanged).
  destruct t, e; cbn [task_step acquire_step acquire_permits_step waiter_drop_step permit_drop_step] in Hstep; try done.
  - destruct (try_acquire_immediate sem g) as [r1 g1] eqn:Ht.
    destruct (try_acquire_immediate_spec _ _ _ _ Ht Hg Hsem) as (x & -> & Hx).
    destruct x; injection Hstep as <- <- <-; (split; [keep_sem|]).
    + destruct Hx as (_ & Hm & Hc). eapply (permits_moved_change true sem); try done.
      intros id. cbn. unfold permit_of; cbn. case_bool_decide; lia.
    + by eapply (permits_moved_change false sem).
  - destruct (remaining_duration _ _ _ _); [|injection Hstep as <- <- <-; split; [keep_sem|by apply Hsame]].
    unfold try_register in Hstep. destruct (_ <=? _); injection Hstep as <- <- <-;
      (split; [keep_sem|by apply Hsame]).
  - injection Hstep as <- <- <-. split; [keep_sem|by apply Hsame].
  - destruct (try_acquire_for_waiter _ sem g) as [r1 g1] eqn:Ht.
    destruct (try_acquire_for_waiter_spec _ _ _ _ _ Ht Hg Hsem) as (b & -> & Hx).
    destruct b; injection Hstep as <- <- <-; (split; [keep_sem|]).
    + destruct Hx as (rest & g2 & _ & Hc & Hm & ->). eapply (permits_moved_change true sem); try done.
      intros id. cbn. unfold permit_of; cbn. case_bool_decide; lia.
    + destruct Hx as [Hm _]. by eapply (permits_moved_change false sem).
  - destruct (entries g !! _ ≫= _); [|done]. injection Hstep as <- <- <-. split; [keep_sem|by apply Hsame].
  - injection Hstep as <- <- <-. split; [keep_sem|by apply Hsame].
  - injection Hstep as <- <- <-. split; [keep_sem|by apply Hsame].
  - injection Hstep as <- <- <-. split; [keep_sem|]. apply Hsame; try done. intros id. cbn. lia.
  - injection Hstep as <- <- <-. split; [keep_sem|].
    unfold notify_capacity, notify_head. destruct (waiters _); apply Hsame; try done; intros id; cbn; lia.
  - injection Hstep as <- <- <-. split; [keep_sem|]. apply Hsame; try done. intros id. cbn. lia.
  - injection Hstep as <- <- <-. split; [keep_sem|]. apply Hsame; try done. intros id. cbn. lia.
  - injection Hstep as <- <- <-. split; [keep_sem|]. destruct sem as [id|].
    + eapply permits_change_ext; [by apply release_origin_change, Hsem|].
      intros id'. cbn. case_bool_decide; lia.
    + apply Hsame; try done.
  - injection Hstep as <- <- <-. split; [keep_sem|]. by apply release_global_change.
  - injection Hstep as <- <- <-. split; [keep_sem|].
    unfold notify_capacity, notify_head. destruct (waiters _); by apply Hsame.
  - destruct (remove_waiter _ g) as [b g1] eqn:Hr. unfold remove_waiter in Hr.
    case_bool_decide; injection Hr as <- <-; injection Hstep as <- <- <-; (split; [keep_sem|by apply Hsame]).
  - injection Hstep as <- <- <-. destruct removed; (split; [keep_sem|by apply Hsame]).
  - injection Hstep as <- <- <-. split; [keep_sem|].
    unfold notify_capacity, notify_head. destruct (waiters _); by apply Hsame.
  - injection Hstep as <- <- <-. split; [keep_sem|by apply Hsame].
Qed.

Lemma origin_gate_spec limit strong o g sem g' :
  origin_gate limit strong o g = (sem, g') ->
  (g' = g /\ origin_gates g !! o = Some sem /\ 0 < strong sem) \/
  ((forall id, origin_gates g !! o = Some id -> strong id <= 0) /\
   sem = next_semaphore g /\ global_semaphore g' = global_semaphore g /\
   semaphores g' = <[sem := semaphore_new limit]> (semaphores g) /\
   next_semaphore g' = S sem /\ pending_queue g' = pending_queue g /\ entries g' = entries g /\
   origin_gates g' !! o = Some sem /\
   (forall o' id, o' <> o -> origin_gates g' !! o' = Some id -> origin_gates g !! o' = Some id) /\
   (forall o' id, o' <> o -> origin_gates g !! o' = Some id -> 0 < strong id ->
      origin_gates g' !! o' = Some id)).
Proof.
  unfold origin_gate.
  destruct (origin_gates g !! o ≫= _) as [s|] eqn:Hlive.
  - intros [= <- <-]. left. destruct (origin_gates g !! o) as [id|]; [|done]. cbn in Hlive.
    destruct (Z.ltb_spec 0 (strong id)); [|done]. by injection Hlive as <-.
  - assert (Hdead : forall id, origin_gates g !! o = Some id -> strong id <= 0).
    { intros id Hid. rewrite Hid in Hlive. cbn in Hlive. by destruct (Z.ltb_spec 0 (strong id)). }
    destruct (_ <=? _)%nat; intros [= <- <-]; right; (split; [done|]); cbn; split_and!; try done.
    + by rewrite lookup_insert_eq.
    + intros o' id Ho. rewrite lookup_insert_ne by done. by intros [? _]%map_lookup_filter_Some.
    + intros o' id Ho. rewrite lookup_insert_ne by done. intros. by apply map_lookup_filter_Some.
    + by rewrite lookup_insert_eq.
    + intros o' id Ho. by rewrite lookup_insert_ne by done.
    + intros o' id Ho. by rewrite lookup_insert_ne by done.
Qed.

(** ** The permits of the system *)

Definition global_held (ts : list (Request * Task)) : Z :=
  sum_over (fun rt => holds_global_permit (snd rt)) ts.
Definition origin_held (id : nat) (ts : list (Request * Task)) : Z :=
  sum_over (fun rt => holds_origin_permit id (snd rt)) ts.

#[local] Arguments global_held : simpl never.
#[local] Arguments origin_held : simpl never.

Record permits_ok (c : GateConfig) (s : System) : Prop := {
  ok_open : gate_open (gate s);
  ok_global : 0 <= available_permits (global_semaphore (gate s)) /\
    available_permits (global_semaphore (gate s)) + global_held (requests s) = max_active_requests c;
  ok_origin : forall id a, origin_available (gate s) id = Some a ->
    0 <= a /\ max_active_requests_per_origin c = Some (a + origin_held id (requests s));
  ok_fresh : forall id, (next_semaphore (gate s) <= id)%nat -> semaphores (gate s) !! id = None;
  ok_present : forall i r t, requests s !! i = Some (r, t) -> sem_present (task_sem t) (gate s);
  ok_gates : forall i r t id, requests s !! i = Some (r, t) -> task_sem t = Some id ->
    origin_gates (gate s) !! request_origin r = Some id;
  ok_gate_ids : forall o id, origin_gates (gate s) !! o = Some id -> (id < next_semaphore (gate s))%nat;
  ok_injective : forall o o' id, origin_gates (gate s) !! o = Some id ->
    origin_gates (gate s) !! o' = Some id -> o = o';
  ok_configured : forall i r t, requests s !! i = Some (r, t) -> needs_sem t = true ->
    is_Some (max_active_requests_per_origin c) -> is_Some (task_sem t);
}.

Lemma holds_global_nonneg t : 0 <= holds_global_permit t.
Proof. by destruct t. Qed.

Lemma strong_count_pos ts i r t id :
  ts !! i = Some (r, t) -> task_sem t = Some id -> 0 < strong_count_of ts id.
Proof.
  intros Hi Ht. unfold strong_count_of.
  enough (1 <= sum_over (fun rt : Request * Task =>
    if bool_decide (task_sem (snd rt) = Some id) then 1 else 0) ts) by lia.
  pose proof (sum_over_member (fun rt : Request * Task =>
    if bool_decide (task_sem (snd rt) = Some id) then 1 else 0) ts i (r, t)) as Hm.
  cbn in Hm. rewrite bool_decide_true in Hm by done. apply Hm; [|done].
  intros [r' t']. cbn. by case_bool_decide.
Qed.

Lemma strong_count_task ts id :
  0 < strong_count_of ts id -> exists i r t, ts !! i = Some (r, t) /\ task_sem t = Some id.
Proof.
  intros (i & [r t] & Hi & Hp)%sum_over_witness. cbn in Hp. case_bool_decide; [|done]. eauto.
Qed.

Lemma lookup_update {A} (l : list A) i x j y :
  <[i := x]> l !! j = Some y -> (i = j /\ y = x) \/ (i <> j /\ l !! j = Some y).
Proof.
  intros Hj. apply list_lookup_insert_Some in Hj as [(-> & -> & _)|[? ?]]; [by left|by right].
Qed.

Lemma permits_ok_running `{!TokioLaws} c s i r t e t' g' cs cs' :
  permits_ok c s -> requests s !! i = Some (r, t) -> t <> Starting ->
  task_step c (strong_count_of (requests s)) r e t (gate s) = Some (t', g', cs) ->
  permits_ok c {| gate := g'; requests := <[i := (r, t')]> (requests s); calls := cs' |}.
Proof.
  intros [] Hi Hns Hstep.
  destruct (task_step_permits _ _ _ _ _ _ _ _ _ Hstep Hns ok_open0 (ok_present0 _ _ _ Hi)) as [[Hneeds Hsem] Hch].
  destruct Hch as [Ho Hg Hor Hn Hon [Hns' Hog]].
  assert (Hpres : forall id, is_Some (semaphores (gate s) !! id) -> is_Some (semaphores g' !! id)).
  { intros id [x Hx]. specialize (Hor id). unfold origin_available in Hor. rewrite Hx in Hor.
    by destruct (semaphores g' !! id). }
  split; cbn.
  - done.
  - unfold global_held in *. rewrite (sum_over_insert _ _ _ _ _ Hi). cbn. rewrite Hg.
    pose proof (holds_global_nonneg t). pose proof (holds_global_nonneg t').
    assert (holds_global_permit t' <= 1) by by destruct t'. lia.
  - intros id a. rewrite Hor. destruct (origin_available (gate s) id) as [a0|] eqn:Ha; [|done].
    intros [= <-]. destruct (ok_origin0 _ _ Ha) as [Hnn ->]. specialize (Hon _ _ Ha).
    unfold origin_held in *. rewrite (sum_over_insert _ _ _ _ _ Hi). cbn.
    pose proof (holds_origin_nonneg id t). pose proof (holds_origin_nonneg id t').
    assert (holds_origin_permit id t' <= 1) by (destruct t'; cbn; try done; by case_bool_decide).
    split; [lia|]. f_equal. lia.
  - intros id Hid. rewrite Hns' in Hid. specialize (Hor id). unfold origin_available in Hor.
    rewrite ok_fresh0 in Hor by done. by destruct (semaphores g' !! id).
  - intros j r' t2 Hj. apply lookup_update in Hj as [[-> [= -> ->]]|[_ Hj]]; intros id Hid; apply Hpres.
    + destruct Hsem as [Hs|[Hs _]]; rewrite Hs in Hid; [|done]. by eapply ok_present0.
    + by eapply ok_present0.
  - intros j r' t2 id Hj Hid. rewrite Hog.
    apply lookup_update in Hj as [[-> [= -> ->]]|[_ Hj]]; [|by eapply ok_gates0].
    destruct Hsem as [Hs|[Hs _]]; rewrite Hs in Hid; [|done]. by eapply ok_gates0.
  - intros o id. rewrite Hog, Hns'. apply ok_gate_ids0.
  - intros o o' id. rewrite Hog. apply ok_injective0.
  - intros j r' t2 Hj Hneed Hc.
    apply lookup_update in Hj as [[-> [= -> ->]]|[_ Hj]]; [|by eapply ok_configured0].
    destruct Hsem as [->|[_ Hs]]; [|congruence]. eapply ok_configured0; eauto.
Qed.

(** Replacing a starting task by one without permits keeps the sums. *)
Lemma held_starting ts i r sem :
  ts !! i = Some (r, Starting) ->
  global_held (<[i := (r, Immediate sem)]> ts) = global_held ts /\
  forall id, origin_held id (<[i := (r, Immediate sem)]> ts) = origin_held id ts.
Proof.
  intros Hi. unfold global_held, origin_held.
  split; [|intros id]; rewrite (sum_over_insert _ _ _ _ _ Hi); cbn; lia.
Qed.

Definition valid_config (c : GateConfig) : Prop :=
  0 <= max_active_requests c /\
  forall limit, max_active_requests_per_origin c = Some limit -> 0 <= limit.

Lemma origin_held_fresh c s id :
  permits_ok c s -> (next_semaphore (gate s) <= id)%nat -> origin_held id (requests s) = 0.
Proof.
  intros Hok Hid. apply sum_over_zero. intros [r t] Hrt. cbn.
  apply list_elem_of_lookup in Hrt as [i Hi].
  pose proof (ok_present _ _ Hok _ _ _ Hi) as Hp.
  pose proof (ok_fresh _ _ Hok _ Hid) as Hf.
  destruct t; cbn; try done; (case_bool_decide as Heq; [|done]);
    destruct (Hp id Heq) as [x Hx]; congruence.
Qed.

Lemma permits_ok_starting `{!TokioLaws} c s i r sem g' cs' :
  valid_config c -> permits_ok c s -> requests s !! i = Some (r, Starting) ->
  origin_semaphore c (strong_count_of (requests s)) (request_origin r) (gate s) = (sem, g') ->
  permits_ok c {| gate := g'; requests := <[i := (r, Immediate sem)]> (requests s); calls := cs' |}.
Proof.
  intros [_ Hvalid] Hok Hi Hsem. destruct (held_starting _ _ _ sem Hi) as [Hgh Hoh].
  pose proof (origin_held_fresh c s (next_semaphore (gate s)) Hok) as Hfr0.
  destruct Hok. unfold origin_semaphore in Hsem.
  destruct (max_active_requests_per_origin c) as [limit|] eqn:Hc.
  2: { injection Hsem as <- <-. split; cbn; rewrite ?Hgh; try done.
       - intros id. rewrite Hoh. rewrite Hc. apply ok_origin0.
       - intros j r' t Hj. apply lookup_update in Hj as [[_ [= -> ->]]|[_ Hj]]; [done|by eapply ok_present0].
       - intros j r' t id Hj. apply lookup_update in Hj as [[_ [= -> ->]]|[_ Hj]]; [done|by eapply ok_gates0].
       - rewrite Hc. by intros j r' t _ _ []. }
  destruct (origin_gate _ _ _ _) as [id0 g1] eqn:Hgate. injection Hsem as <- <-.
  apply origin_gate_spec in Hgate as [(-> & Hmap & Hstrong)|Hnew].
  - apply strong_count_task in Hstrong as (j0 & r0 & t0 & Hj0 & Ht0).
    split; cbn; rewrite ?Hgh; try done.
    + intros id. rewrite Hoh, Hc. apply ok_origin0.
    + intros j r' t Hj. apply lookup_update in Hj as [[_ [= -> ->]]|[_ Hj]]; [|by eapply ok_present0].
      intros id [= <-]. by apply (ok_present0 _ _ _ Hj0).
    + intros j r' t id Hj. apply lookup_update in Hj as [[_ [= -> ->]]|[_ Hj]]; [|by eapply ok_gates0].
      by intros [= <-].
    + intros j r' t Hj Hn _. apply lookup_update in Hj as [[_ [= -> ->]]|[_ Hj]]; [by eexists|].
      by eapply ok_configured0.
  - destruct Hnew as (Hdead & -> & Eg & Es & En & _ & _ & Enew & Hback & Hkeep).
    assert (Hav : forall id, origin_available g1 id =
      if decide (next_semaphore (gate s) = id) then Some limit else origin_available (gate s) id).
    { intros id. unfold origin_available. rewrite Es. case_decide; subst;
        rewrite ?lookup_insert_eq, ?lookup_insert_ne by done; cbn; [|done].
      by rewrite available_new by auto. }
    split; cbn; rewrite ?Hgh, ?Eg, ?Es, ?En; try done.
    + split; [by rewrite Eg; apply ok_open0|]. rewrite Es. intros id x.
      destruct (decide (next_semaphore (gate s) = id)) as [<-|];
        rewrite ?lookup_insert_eq, ?lookup_insert_ne by done.
      * intros [= <-]. apply open_new.
      * apply ok_open0.
    + intros id a. rewrite Hav, Hoh, Hc. case_decide as Hd; [|apply ok_origin0].
      intros [= <-]. split; [auto|]. rewrite <- Hd, Hfr0 by lia. f_equal. lia.
    + intros id Hid. rewrite lookup_insert_ne by lia. apply ok_fresh0. lia.
    + intros j r' t Hj id Hid. cbn. rewrite Es. apply lookup_insert_is_Some'.
      apply lookup_update in Hj as [[_ [= -> ->]]|[_ Hj]]; [left; by injection Hid|].
      right. by eapply ok_present0.
    + intros j r' t id Hj Hid.
      apply lookup_update in Hj as [[_ [= -> ->]]|[_ Hj]]; [by injection Hid as <-|].
      pose proof (strong_count_pos _ _ _ _ _ Hj Hid) as Hs.
      pose proof (ok_gates0 _ _ _ _ Hj Hid) as Hm.
      destruct (decide (request_origin r' = request_origin r)) as [He|Hne]; [|by apply Hkeep].
      rewrite He in Hm. specialize (Hdead _ Hm). lia.
    + intros o id Ho. destruct (decide (o = request_origin r)) as [->|Hne].
      * rewrite Enew in Ho. injection Ho as <-. lia.
      * apply Hback in Ho; [|done]. apply ok_gate_ids0 in Ho. lia.
    + intros o o' id Ho Ho'.
      assert (Hold : forall o1, o1 <> request_origin r -> origin_gates g1 !! o1 = Some id ->
        (id < next_semaphore (gate s))%nat) by (intros o1 Hn Hm; eauto).
      destruct (decide (o = request_origin r)) as [->|Hn], (decide (o' = request_origin r)) as [->|Hn'];
        [done| | |].
      * specialize (Hold _ Hn' Ho'). rewrite Enew in Ho. injection Ho as <-. lia.
      * specialize (Hold _ Hn Ho). rewrite Enew in Ho'. injection Ho' as <-. lia.
      * eapply ok_injective0; eauto.
    + intros j r' t Hj Hn _. apply lookup_update in Hj as [[_ [= -> ->]]|[_ Hj]]; [by eexists|].
      by eapply ok_configured0.
Qed.

Lemma permits_ok_new c s r :
  permits_ok c s ->
  permits_ok c {| gate := gate s; requests := requests s ++ [(r, Starting)]; calls := calls s |}.
Proof.
  intros []. assert (Hl : forall i r' t, (requests s ++ [(r, Starting)]) !! i = Some (r', t) ->
    requests s !! i = Some (r', t) \/ t = Starting).
  { intros i r' t [Hi|[_ Hi]]%lookup_app_Some; [by left|right].
    by apply list_lookup_singleton_Some in Hi as [_ [= _ <-]]. }
  split; cbn; try done.
  - unfold global_held in *. rewrite sum_over_app. cbn. lia.
  - intros id a Ha. destruct (ok_origin0 _ _ Ha) as [? ->]. unfold origin_held.
    rewrite sum_over_app. cbn. split; [done|]. f_equal. lia.
  - intros i r' t [Hi| ->]%Hl; [by eapply ok_present0|done].
  - intros i r' t id [Hi| ->]%Hl; [by eapply ok_gates0|done].
  - intros i r' t [Hi| ->]%Hl; [by eapply ok_configured0|done].
Qed.

Lemma permits_ok_step `{!TokioLaws} c s i r t e t' g' cs cs' :
  valid_config c -> permits_ok c s -> requests s !! i = Some (r, t) ->
  task_step c (strong_count_of (requests s)) r e t (gate s) = Some (t', g', cs) ->
  permits_ok c {| gate := g'; requests := <[i := (r, t')]> (requests s); calls := cs' |}.
Proof.
  intros Hv Hok Hi Hts.
  assert (Hst : t = Starting \/ t <> Starting) by (by destruct t; auto).
  destruct Hst as [->|Hn]; [|by eapply permits_ok_running].
  destruct e; try done. cbn in Hts. destruct (origin_semaphore _ _ _ _) as [sem g1] eqn:Hsem.
  injection Hts as <- <- _. by apply permits_ok_starting.
Qed.

Lemma reachable_permits_ok `{!TokioLaws} c s : valid_config c -> reachable c s -> permits_ok c s.
Proof.
  intros Hv. apply reachable_invariant.
  - split; cbn; try done.
    + split; [apply open_new|done].
    + destruct Hv as [Hv _]. rewrite available_new by done. split; [done|]. unfold global_held. cbn. lia.
  - intros s0 r. apply permits_ok_new.
  - intros s0 i r t e t' g' cs Hok Hi Hts. by eapply permits_ok_step.
Qed.

(** ** The queue of the system *)

Lemma remove_first_head w ws : remove_first w (w :: ws) = ws.
Proof. cbn. by rewrite Z.eqb_refl. Qed.

Lemma remove_first_other w ws : w ∉ ws -> remove_first w ws = ws.
Proof.
  induction ws as [|x ws IH]; cbn; [done|]. intros Hn.
  destruct (Z.eqb_spec x w) as [->|]; [set_solver|]. rewrite IH by set_solver. done.
Qed.

Lemma remove_first_sublist w ws : remove_first w ws `sublist_of` ws.
Proof.
  induction ws as [|x ws IH]; cbn; [constructor|].
  destruct (x =? w); [by apply sublist_cons|by apply sublist_skip].
Qed.

Lemma elem_of_remove_first w x ws : NoDup ws -> x ∈ remove_first w ws <-> x ∈ ws /\ x <> w.
Proof.
  induction 1 as [|y ws Hy Hnd IH]; cbn; [set_solver|].
  destruct (Z.eqb_spec y w) as [->|Hn]; set_solver.
Qed.

Definition queue_registers (c : GateConfig) (g g' : Gate) : Prop :=
  let id := next_waiter_id (pending_queue g) in
  Z.of_nat (length (waiters (pending_queue g))) < max_pending_requests c /\
  pending_queue g' = {| next_waiter_id := saturating_add id 1;
                        waiters := waiters (pending_queue g) ++ [id] |} /\
  entries g' = <[id := notify_new]> (entries g).

Lemma notify_head_fields g :
  pending_queue (notify_head g) = pending_queue g /\
  global_semaphore (notify_head g) = global_semaphore g /\ semaphores (notify_head g) = semaphores g /\
  forall w, is_Some (entries g !! w) -> is_Some (entries (notify_head g) !! w).
Proof.
  unfold notify_head. destruct (waiters (pending_queue g)) as [|x ws]; [done|]. split_and!; try done.
  intros w Hw. cbn. by apply lookup_alter_is_Some.
Qed.

Lemma task_step_queue `{!TokioLaws} c strong r e t g t' g' cs :
  task_step c strong r e t g = Some (t', g', cs) -> gate_open g -> sem_present (task_sem t) g ->
  (forall w, is_Some (entries g !! w) -> is_Some (entries g' !! w)) /\
  ((pending_queue g' = pending_queue g /\ queued_as t' = queued_as t) \/
   (queued_as t = None /\ queued_as t' = Some (next_waiter_id (pending_queue g)) /\
    queue_registers c g g') \/
   (exists w, queued_as t = Some w /\ queued_as t' = None /\
    pending_queue g' = (pending_queue g) <| waiters ::= remove_first w |>)).
Proof.
  intros Hstep Hg Hsem. destruct t, e; cbn [task_step acquire_step acquire_permits_step waiter_drop_step permit_drop_step] in Hstep; try done.
  - destruct (origin_semaphore _ _ _ _) as [sem g1] eqn:Ho. injection Hstep as <- <- _.
    unfold origin_semaphore in Ho. destruct (max_active_requests_per_origin c) as [limit|];
      [|injection Ho as _ <-; split; [done|by left]].
    destruct (origin_gate _ _ _ _) as [id g2] eqn:Hgate. injection Ho as _ <-.
    apply origin_gate_spec in Hgate as [(-> & _)|(_ & _ & _ & _ & _ & -> & -> & _)];
      (split; [done|by left]).
  - destruct (try_acquire_immediate sem g) as [r1 g1] eqn:Ht.
    destruct (try_acquire_immediate_spec _ _ _ _ Ht Hg Hsem) as (x & -> & Hx).
    destruct x; injection Hstep as <- <- <-;
      [destruct Hx as (_ & [_ _ _ (_ & _ & Hq & He)] & _)|destruct Hx as [_ _ _ (_ & _ & Hq & He)]];
      rewrite Hq, He; (split; [done|by left]).
  - destruct (remaining_duration _ _ _ _); [|injection Hstep as <- <- <-; split; [done|by left]].
    unfold try_register in Hstep. destruct (Z.leb_spec (max_pending_requests c)
      (Z.of_nat (length (waiters (pending_queue g))))); injection Hstep as <- <- <-;
      [split; [done|by left]|]. split; [|by right; left].
    intros w. cbn. rewrite lookup_insert_is_Some'. by right.
  - injection Hstep as <- <- <-. split; [|by left]. intros w. cbn. by rewrite lookup_alter_is_Some.
  - destruct (try_acquire_for_waiter _ sem g) as [r1 g1] eqn:Ht.
    destruct (try_acquire_for_waiter_spec _ _ _ _ _ Ht Hg Hsem) as (b & -> & Hx).
    destruct b; injection Hstep as <- <- <-.
    + destruct Hx as (rest & g2 & Hw & _ & [_ _ _ (_ & _ & Hq & He)] & ->). cbn. rewrite He.
      split; [done|]. right; right. exists (waiter_id waiter). split_and!; [done|done|].
      rewrite Hq. unfold update_field; cbn. by rewrite Hw, remove_first_head.
    + destruct Hx as [[_ _ _ (_ & _ & Hq & He)] _]. rewrite Hq, He. split; [done|by left].
  - destruct (entries g !! _ ≫= _); [|done]. injection Hstep as <- <- <-. split; [|by left].
    intros w. cbn. rewrite lookup_insert_is_Some'. by right.
  - injection Hstep as <- <- <-. split; [done|by left].
  - injection Hstep as <- <- <-. split; [done|by left].
  - injection Hstep as <- <- <-. split; [done|by left].
  - injection Hstep as <- <- <-. unfold notify_capacity. destruct (notify_head_fields g) as (-> & _ & _ & He).
    split; [done|by left].
  - injection Hstep as <- <- <-. split; [done|by left].
  - injection Hstep as <- <- <-. split; [done|by left].
  - injection Hstep as <- <- <-. destruct sem; (split; [done|by left]).
  - injection Hstep as <- <- <-. split; [done|by left].
  - injection Hstep as <- <- <-. unfold notify_capacity. destruct (notify_head_fields g) as (-> & _ & _ & He).
    split; [done|by left].
  - destruct (remove_waiter _ g) as [b g1] eqn:Hr. injection Hstep as <- <- <-.
    unfold remove_waiter in Hr. case_bool_decide as Hin; injection Hr as <- <-.
    + split; [done|]. right; right. by exists (waiter_id waiter).
    + split; [done|]. right; right. exists (waiter_id waiter). split_and!; [done|done|].
      unfold update_field; cbn. rewrite remove_first_other by done. by destruct (pending_queue g).
  - injection Hstep as <- <- <-. destruct removed; (split; [done|by left]).
  - injection Hstep as <- <- <-. unfold notify_capacity. destruct (notify_head_fields g) as (-> & _ & _ & He).
    split; [done|by left].
  - injection Hstep as <- <- <-. split; [done|by left].
Qed.

Definition queue_waiters (s : System) : list Z := waiters (pending_queue (gate s)).
Definition queue_next (s : System) : Z := next_waiter_id (pending_queue (gate s)).

Record queue_ok (c : GateConfig) (s : System) : Prop := {
  queue_sorted : StronglySorted Z.lt (queue_waiters s);
  queue_ids : forall w, w ∈ queue_waiters s -> w < queue_next s;
  queue_tasks : forall i r t w, requests s !! i = Some (r, t) -> queued_as t = Some w ->
    w ∈ queue_waiters s;
  queue_unique : forall i j r r' t t' w, requests s !! i = Some (r, t) ->
    requests s !! j = Some (r', t') -> queued_as t = Some w -> queued_as t' = Some w -> i = j;
  queue_owner : forall w, w ∈ queue_waiters s ->
    exists i r t, requests s !! i = Some (r, t) /\ queued_as t = Some w;
  queue_length : Z.of_nat (length (queue_waiters s)) <= max_pending_requests c;
  queue_entries : forall w, w ∈ queue_waiters s -> is_Some (entries (gate s) !! w);
}.

Lemma StronglySorted_snoc ws x :
  StronglySorted Z.lt ws -> (forall w, w ∈ ws -> w < x) -> StronglySorted Z.lt (ws ++ [x]).
Proof.
  induction 1 as [|w ws Hs IH Hf]; intros Hx; cbn; [by repeat constructor|].
  constructor; [apply IH; set_solver|]. apply Forall_app. split; [done|].
  apply Forall_singleton. apply Hx. set_solver.
Qed.

Lemma StronglySorted_sublist ws ws' :
  ws' `sublist_of` ws -> StronglySorted Z.lt ws -> StronglySorted Z.lt ws'.
Proof.
  induction 1 as [|x ws' ws Hsub IH|x ws' ws Hsub IH]; [done| |]; inversion 1; subst; [|auto].
  constructor; [auto|]. by eapply Forall_sublist.
Qed.

Lemma StronglySorted_NoDup ws : StronglySorted Z.lt ws -> NoDup ws.
Proof.
  induction 1 as [|w ws Hs IH Hf]; constructor; [|done].
  intros Hin. rewrite Forall_forall in Hf. specialize (Hf _ Hin). lia.
Qed.

Lemma queue_ok_step `{!TokioLaws} c s i r t e t' g' cs cs' :
  queue_ok c s -> requests s !! i = Some (r, t) -> gate_open (gate s) ->
  sem_present (task_sem t) (gate s) -> queue_next s < U64_MAX ->
  task_step c (strong_count_of (requests s)) r e t (gate s) = Some (t', g', cs) ->
  queue_ok c {| gate := g'; requests := <[i := (r, t')]> (requests s); calls := cs' |}.
Proof.
  intros Hok Hi Hg Hsem Hmax Hstep.
  destruct (task_step_queue _ _ _ _ _ _ _ _ _ Hstep Hg Hsem) as [Hent Hq].
  pose proof (StronglySorted_NoDup _ (queue_sorted _ _ Hok)) as Hnd.
  assert (Hother : forall j r' t2, <[i := (r, t')]> (requests s) !! j = Some (r', t2) ->
    (j = i /\ t2 = t') \/ (j <> i /\ requests s !! j = Some (r', t2))).
  { intros j r' t2 Hj. apply lookup_update in Hj as [[-> [= -> ->]]|[? ?]]; [by left|by right]. }
  assert (Hself : <[i := (r, t')]> (requests s) !! i = Some (r, t'))
    by (apply list_lookup_insert_eq; by eapply lookup_lt_Some).
  destruct Hok. unfold queue_waiters, queue_next in *.
  destruct Hq as [[Hq Hqt]|[(Ht & Ht' & Hlen & Hq & He)|(w0 & Ht & Ht' & Hq)]];
    (split; unfold queue_waiters, queue_next; cbn; rewrite ?Hq; try done).
  - intros j r' t2 w Hj. apply Hother in Hj as [[-> ->]|[_ Hj]]; [rewrite Hqt|]; by eapply queue_tasks0.
  - intros j k r1 r2 t1 t2 w Hj Hk Hj2 Hk2.
    apply Hother in Hj as [[-> ->]|[Hn Hj]]; apply Hother in Hk as [[-> ->]|[Hn' Hk]]; try done;
      rewrite ?Hqt in *; by eapply queue_unique0.
  - intros w Hw. destruct (queue_owner0 _ Hw) as (j & r1 & t1 & Hj & Ht1).
    destruct (decide (j = i)) as [->|Hn].
    + exists i, r, t'. split; [done|]. rewrite Hqt. congruence.
    + exists j, r1, t1. by rewrite list_lookup_insert_ne.
  - intros w Hw. by apply Hent, queue_entries0.
  - cbn. apply StronglySorted_snoc; [done|]. intros w Hw. by apply queue_ids0.
  - cbn. intros w [Hw|Hw%list_elem_of_singleton]%elem_of_app;
      unfold saturating_add, USIZE_MAX, U64_MAX in *; [specialize (queue_ids0 _ Hw)|]; lia.
  - cbn. intros j r1 t1 w Hj Hw. apply elem_of_app. apply Hother in Hj as [[-> ->]|[_ Hj]].
    + right. rewrite Ht' in Hw. injection Hw as <-. set_solver.
    + left. by eapply queue_tasks0.
  - intros j k r1 r2 t1 t2 w Hj Hk Hj2 Hk2.
    assert (Hfresh : forall j0 r0 t0, requests s !! j0 = Some (r0, t0) ->
      queued_as t0 = Some (next_waiter_id (pending_queue (gate s))) -> False).
    { intros j0 r0 t0 Hj0 Ht0. specialize (queue_ids0 _ (queue_tasks0 _ _ _ _ Hj0 Ht0)). lia. }
    apply Hother in Hj as [[-> ->]|[Hn Hj]]; apply Hother in Hk as [[-> ->]|[Hn' Hk]]; try done.
    + rewrite Ht' in Hj2. simplify_eq. by destruct (Hfresh _ _ _ Hk).
    + rewrite Ht' in Hk2. simplify_eq. by destruct (Hfresh _ _ _ Hj).
    + by eapply queue_unique0.
  - cbn. intros w [Hw|Hw%list_elem_of_singleton]%elem_of_app; [|subst; by exists i, r, t'].
    destruct (queue_owner0 _ Hw) as (j & r1 & t1 & Hj & Ht1). exists j, r1, t1.
    rewrite list_lookup_insert_ne; [done|]. intros ->. congruence.
  - cbn. rewrite length_app. cbn. lia.
  - cbn. intros w [Hw|Hw%list_elem_of_singleton]%elem_of_app; [by apply Hent, queue_entries0|].
    subst. rewrite He, lookup_insert_eq. by eexists.
  - cbn. eapply StronglySorted_sublist; [apply remove_first_sublist|done].
  - cbn. intros w Hw. apply queue_ids0. by apply elem_of_remove_first in Hw as [? _].
  - cbn. intros j r1 t1 w Hj Hw. apply Hother in Hj as [[-> ->]|[Hn Hj]]; [congruence|].
    apply elem_of_remove_first; [done|]. split; [by eapply queue_tasks0|]. intros ->.
    by apply Hn, (queue_unique0 j i r1 r t1 t w0).
  - intros j k r1 r2 t1 t2 w Hj Hk Hj2 Hk2.
    apply Hother in Hj as [[-> ->]|[Hn Hj]]; apply Hother in Hk as [[-> ->]|[Hn' Hk]];
      [done|congruence|congruence|]. by eapply queue_unique0.
  - cbn. intros w [Hw Hn]%elem_of_remove_first; [|done].
    destruct (queue_owner0 _ Hw) as (j & r1 & t1 & Hj & Ht1). exists j, r1, t1.
    rewrite list_lookup_insert_ne; [done|]. intros ->. congruence.
  - cbn. pose proof (sublist_length _ _ (remove_first_sublist w0 (waiters (pending_queue (gate s))))).
    lia.
  - cbn. intros w Hw. apply Hent, queue_entries0. by apply elem_of_remove_first in Hw as [? _].
Qed.

Lemma task_step_next c strong r e t g t' g' cs :
  task_step c strong r e t g = Some (t', g', cs) -> gate_open g -> sem_present (task_sem t) g ->
  forall `{!TokioLaws},
  next_waiter_id (pending_queue g) <= U64_MAX ->
  next_waiter_id (pending_queue g) <= next_waiter_id (pending_queue g') <= U64_MAX.
Proof.
  intros Hstep Hg Hsem Hlaws Hn.
  destruct (task_step_queue _ _ _ _ _ _ _ _ _ Hstep Hg Hsem) as [_ Hq].
  destruct Hq as [[-> _]|[(_ & _ & _ & -> & _)|(w & _ & _ & ->)]]; cbn; [lia| |lia].
  unfold saturating_add, USIZE_MAX, U64_MAX in *. lia.
Qed.

Lemma queue_ok_new c s r :
  queue_ok c s ->
  queue_ok c {| gate := gate s; requests := requests s ++ [(r, Starting)]; calls := calls s |}.
Proof.
  intros []. assert (Hl : forall i r' t, (requests s ++ [(r, Starting)]) !! i = Some (r', t) ->
    requests s !! i = Some (r', t) \/ t = Starting).
  { intros i r' t [Hi|[_ Hi]]%lookup_app_Some; [by left|right].
    by apply list_lookup_singleton_Some in Hi as [_ [= _ <-]]. }
  split; cbn; try done.
  - intros i r' t w [Hi| ->]%Hl; [by eapply queue_tasks0|done].
  - intros i j r1 r2 t1 t2 w [Hi| ->]%Hl [Hj| ->]%Hl; try done. by eapply queue_unique0.
  - intros w Hw. destruct (queue_owner0 _ Hw) as (i & r1 & t1 & Hi & Ht). exists i, r1, t1.
    split; [|done]. by apply lookup_app_l_Some.
Qed.

(** ** No lost wakeup *)

(** The task is about to call [notify_capacity]. *)
Definition will_notify (t : Task) : bool :=
  match t with
  | GrantedPending _ _ | GrantedNotify _ | ReleasingOrigin _ | ReleasingGlobal | ReleasedNotify
  | RemovedPending _ true _ | RemovedNotify _ => true
  | _ => false
  end.

Definition ready (g : Gate) (w : Z) : Prop := is_Some (entries g !! w ≫= notified_poll).

Lemma ready_notify_head `{!TokioLaws} g w ws :
  waiters (pending_queue g) = w :: ws -> is_Some (entries g !! w) -> ready (notify_head g) w.
Proof.
  intros Hw [n Hn]. unfold ready, notify_head. rewrite Hw. cbn.
  rewrite lookup_alter_eq, Hn. cbn. apply notify_one_ready.
Qed.

(** A step that neither notifies nor leaves a task that will. *)
Record quiet_step (t t' : Task) (g g' : Gate) : Prop := {
  quiet_before : will_notify t = false;
  quiet_waiters : waiters (pending_queue g') = waiters (pending_queue g) \/
    waiters (pending_queue g') = waiters (pending_queue g) ++ [next_waiter_id (pending_queue g)];
  quiet_permits : forall sem, sem_present sem g -> can_acquire sem g' -> can_acquire sem g;
  quiet_ready : forall w, queued_as t <> Some w -> w <> next_waiter_id (pending_queue g) ->
    ready g w -> ready g' w;
  quiet_failed : forall w sem ws, t' = Awaiting w sem ->
    waiters (pending_queue g') = waiter_id w :: ws -> ~ can_acquire sem g';
}.

Lemma can_acquire_same sem g g' :
  global_semaphore g' = global_semaphore g -> semaphores g' = semaphores g ->
  can_acquire sem g' -> can_acquire sem g.
Proof. intros E1 E2. unfold can_acquire, origin_available. by rewrite E1, E2. Qed.

Lemma can_acquire_less sem (b : bool) sem' g g' :
  permits_moved b sem' g g' -> can_acquire sem g' -> can_acquire sem g.
Proof.
  intros [_ Hg Ho _] [Hp Hall]. rewrite Hg in Hp. split; [destruct b; lia|].
  intros id Hid. destruct (Hall id Hid) as (a & Ha & Hpos). rewrite Ho in Ha.
  destruct (origin_available g id) as [a0|]; [|done]. injection Ha as <-. exists a0.
  split; [done|]. unfold permit_of in Hpos. destruct (b && _); lia.
Qed.

Lemma ready_other g w w' n :
  w <> w' -> ready g w -> is_Some (<[w' := n]> (entries g) !! w ≫= notified_poll).
Proof. intros Hn Hr. by rewrite lookup_insert_ne by done. Qed.

Lemma quiet_same t t' g g' :
  will_notify t = false -> waiters (pending_queue g') = waiters (pending_queue g) ->
  global_semaphore g' = global_semaphore g -> semaphores g' = semaphores g ->
  (forall w, queued_as t <> Some w -> w <> next_waiter_id (pending_queue g) ->
     ready g w -> ready g' w) ->
  (forall w sem, t' <> Awaiting w sem) -> quiet_step t t' g g'.
Proof.
  intros Hb Hw E1 E2 Hr Ht. split; [done|by left| | |].
  - intros sem _. by apply can_acquire_same.
  - done.
  - intros w sem ws ->. by destruct (Ht w sem).
Qed.

Lemma task_step_wakeup `{!TokioLaws} c strong r e t g t' g' cs :
  task_step c strong r e t g = Some (t', g', cs) -> gate_open g -> sem_present (task_sem t) g ->
  (forall id, (next_semaphore g <= id)%nat -> semaphores g !! id = None) ->
  will_notify t' = true \/ g' = notify_head g \/ quiet_step t t' g g'.
Proof.
  intros Hstep Hg Hsem Hfresh.
  destruct t, e; cbn [task_step acquire_step acquire_permits_step waiter_drop_step permit_drop_step] in Hstep; try done;
    try (injection Hstep as <- <- <-; by left);
    try (injection Hstep as <- <- <-; by right; left);
    try (injection Hstep as <- <- <-; right; right; by apply quiet_same).
  - right; right. destruct (origin_semaphore _ _ _ _) as [sem g1] eqn:Ho. injection Hstep as <- <- <-.
    unfold origin_semaphore in Ho. destruct (max_active_requests_per_origin c) as [limit|];
      [|injection Ho as _ <-; by apply quiet_same].
    destruct (origin_gate _ _ _ _) as [id g2] eqn:Hgate. injection Ho as _ <-.
    apply origin_gate_spec in Hgate as [(-> & _)|(_ & -> & E1 & E2 & _ & E3 & E4 & _)];
      [by apply quiet_same|].
    split; [done|left; by rewrite E3| | |done].
    + intros sem' Hp [Hc Hall]. rewrite E1 in Hc. split; [done|]. intros id Hid.
      destruct (Hall id Hid) as (a & Ha & Hpos). exists a. split; [|done].
      unfold origin_available in *. rewrite E2 in Ha. destruct (Hp id Hid) as [x Hx].
      rewrite lookup_insert_ne in Ha; [done|]. intros <-. rewrite Hfresh in Hx by lia. done.
    + intros w _ _. unfold ready. by rewrite E4.
  - right; right. destruct (try_acquire_immediate sem g) as [r1 g1] eqn:Ht.
    destruct (try_acquire_immediate_spec _ _ _ _ Ht Hg Hsem) as (x & -> & Hx).
    assert (Hm : exists b, permits_moved b sem g g1) by (destruct x; [destruct Hx as (_ & ? & _)|]; eauto).
    destruct Hm as [b Hm]. pose proof (moved_rest _ _ _ _ Hm) as (_ & _ & Eq & Ee).
    destruct x; injection Hstep as <- <- <-; (split; [done|left; by rewrite Eq| | |done]);
      try (intros sem' _; by eapply can_acquire_less); intros w _ _; unfold ready; by rewrite Ee.
  - right; right. destruct (remaining_duration _ _ _ _); [|injection Hstep as <- <- <-; by apply quiet_same].
    unfold try_register in Hstep. destruct (max_pending_requests c <=? _);
      injection Hstep as <- <- <-; [by apply quiet_same|].
    split; [done|by right| | |done].
    + intros sem' _. by apply can_acquire_same.
    + intros w _ Hn Hr. by apply ready_other.
  - right; right. injection Hstep as <- <- <-. apply quiet_same; try done.
    intros w Hq _ Hr. unfold ready; cbn. rewrite lookup_alter_ne; [done|]. intros <-. by apply Hq.
  - destruct (try_acquire_for_waiter _ sem g) as [r1 g1] eqn:Ht.
    destruct (try_acquire_for_waiter_spec _ _ _ _ _ Ht Hg Hsem) as (b & -> & Hx).
    destruct b; injection Hstep as <- <- <-; [by left|]. right; right. destruct Hx as [Hm Hfail].
    pose proof (moved_rest _ _ _ _ Hm) as (_ & _ & Eq & Ee).
    split; [done|left; by rewrite Eq| | |].
    + intros sem' _. by eapply can_acquire_less.
    + intros w _ _. unfold ready. by rewrite Ee.
    + intros w sem' ws [= -> ->]. rewrite Eq. apply Hfail.
  - right; right. destruct (entries g !! _ ≫= _); [|done]. injection Hstep as <- <- <-.
    apply quiet_same; try done. intros w Hq _ Hr. apply ready_other; [|done]. intros ->. by apply Hq.
  - destruct (remove_waiter _ g) as [b g1] eqn:Hr. injection Hstep as <- <- <-.
    unfold remove_waiter in Hr. case_bool_decide; injection Hr as <- <-; [by left|].
    right; right. by apply quiet_same.
  - injection Hstep as <- <- <-. destruct removed; [by left|]. right; right. by apply quiet_same.
Qed.

(** The head of the queue does not sleep while its permits are there, unless some
    task is about to wake it. *)
Definition wakeup_ok (s : System) : Prop :=
  forall i r w sem ws, queue_waiters s = waiter_id w :: ws ->
  requests s !! i = Some (r, Awaiting w sem) -> can_acquire sem (gate s) ->
  ready (gate s) (waiter_id w) \/
  exists j r' t, requests s !! j = Some (r', t) /\ will_notify t = true.

Lemma wakeup_ok_step `{!TokioLaws} c s i r t e t' g' cs cs' :
  permits_ok c s -> queue_ok c s -> wakeup_ok s -> requests s !! i = Some (r, t) ->
  task_step c (strong_count_of (requests s)) r e t (gate s) = Some (t', g', cs) ->
  queue_ok c {| gate := g'; requests := <[i := (r, t')]> (requests s); calls := cs' |} ->
  wakeup_ok {| gate := g'; requests := <[i := (r, t')]> (requests s); calls := cs' |}.
Proof.
  intros Hp Hq Hw Hi Hstep Hq' j r' w sem ws Hhead Hj Hcan. unfold queue_waiters in *. cbn in *.
  assert (Hself : <[i := (r, t')]> (requests s) !! i = Some (r, t'))
    by (apply list_lookup_insert_eq; by eapply lookup_lt_Some).
  destruct (task_step_wakeup _ _ _ _ _ _ _ _ _ Hstep (ok_open _ _ Hp) (ok_present _ _ Hp _ _ _ Hi)
    (ok_fresh _ _ Hp)) as [Hn|[-> |[Hb Hws Hper Hready Hfail]]].
  - right. by exists i, r, t'.
  - left. destruct (notify_head_fields (gate s)) as (E & _). rewrite E in Hhead.
    eapply ready_notify_head; [done|]. apply (queue_entries _ _ Hq). unfold queue_waiters.
    rewrite Hhead. set_solver.
  - destruct (lookup_update _ _ _ _ _ Hj) as [[<- [= <- <-]]|[Hne Hj0]].
    { by destruct (Hfail w sem ws eq_refl Hhead). }
    pose proof (queue_tasks _ _ Hq j r' _ (waiter_id w) Hj0 eq_refl) as Hin. unfold queue_waiters in Hin.
    pose proof (queue_ids _ _ Hq _ Hin) as Hlt. unfold queue_next in Hlt.
    assert (Hhead0 : exists ws0, waiters (pending_queue (gate s)) = waiter_id w :: ws0).
    { destruct Hws as [E|E]; rewrite E in Hhead; [by eexists|].
      destruct (waiters (pending_queue (gate s))) as [|x l]; [set_solver|].
      injection Hhead as -> _. by eexists. }
    destruct Hhead0 as [ws0 Hhead0].
    destruct (Hw j r' w sem ws0 Hhead0 Hj0) as [Hr|(k & r1 & t1 & Hk & Hnt)].
    + apply Hper; [|done]. exact (ok_present _ _ Hp j r' _ Hj0).
    + left. apply Hready; [|lia|done]. intros Hqt.
      apply Hne. by apply (queue_unique _ _ Hq i j r r' t _ (waiter_id w) Hi Hj0).
    + right. exists k, r1, t1. split; [|done]. rewrite list_lookup_insert_ne; [done|].
      intros ->. congruence.
Qed.

Record system_ok (c : GateConfig) (s : System) : Prop := {
  system_permits : permits_ok c s;
  system_next : queue_next s <= U64_MAX;
  system_queue : queue_next s < U64_MAX -> queue_ok c s /\ wakeup_ok s;
}.

Lemma reachable_system_ok `{!TokioLaws} c s :
  valid_config c -> 0 <= max_pending_requests c -> reachable c s -> system_ok c s.
Proof.
  intros Hv Hmax Hs. assert (Hp : forall s, reachable c s -> permits_ok c s)
    by (intros; by apply reachable_permits_ok).
  revert s Hs. apply reachable_invariant.
  - split; [apply Hp, rtc_refl|done|]. intros _. split; [|done].
    split; unfold queue_waiters; cbn; try done; try constructor;
      intros w Hw; by apply not_elem_of_nil in Hw.
  - intros s r [Hok Hn Hq]. split; [by apply permits_ok_new|done|]. intros Hlt.
    destruct (Hq Hlt) as [Hq1 Hq2]. split; [by apply queue_ok_new|].
    intros i r' w sem ws Hhead Hi Hcan. cbn in *. apply lookup_app_Some in Hi as [Hi|[_ Hi]].
    + destruct (Hq2 i r' w sem ws Hhead Hi Hcan) as [|(j & r1 & t1 & Hj & Ht)]; [by left|right].
      exists j, r1, t1. split; [|done]. by apply lookup_app_l_Some.
    + by apply list_lookup_singleton_Some in Hi as [_ [= _ ?]].
  - intros s i r t e t' g' cs [Hok Hn Hq] Hi Hstep.
    pose proof (task_step_next _ _ _ _ _ _ _ _ _ Hstep (ok_open _ _ Hok) (ok_present _ _ Hok _ _ _ Hi) Hn)
      as Hnext.
    split.
    + by eapply permits_ok_step.
    + apply Hnext.
    + cbn. intros Hlt. unfold queue_next in *. cbn in Hlt.
      destruct (Hq ltac:(lia)) as [Hq1 Hq2].
      assert (Hq' : queue_ok c {| gate := g'; requests := <[i := (r, t')]> (requests s);
        calls := calls s ++ ((fun c => (request_origin r, c)) <$> cs) |}).
      { eapply queue_ok_step; [done|done|apply Hok|by eapply (ok_present _ _ Hok)|unfold queue_next; lia|done]. }
      split; [done|]. by eapply wakeup_ok_step.
Qed.

(** ** Properties *)

Definition active_of_origin (o : string) (rt : Request * Task) : Z :=
  if bool_decide (request_origin (fst rt) = o) && needs_sem (snd rt)
  then holds_global_permit (snd rt) else 0.

Lemma active_of_origin_held c s o limit :
  permits_ok c s -> max_active_requests_per_origin c = Some limit -> 0 <= limit ->
  sum_over (active_of_origin o) (requests s) <= limit.
Proof.
  intros Hok Hc Hlimit. destruct (decide (0 < sum_over (active_of_origin o) (requests s))) as [Hpos|]; [|lia].
  apply sum_over_witness in Hpos as (i & [r t] & Hi & Hp). unfold active_of_origin in Hp. cbn in Hp.
  destruct (bool_decide_reflect (request_origin r = o)) as [Hr|]; [|done]. cbn in Hp.
  destruct (needs_sem t) eqn:Hneeds; [|done].
  destruct (ok_configured _ _ Hok _ _ _ Hi Hneeds ltac:(eauto)) as [id Hid].
  pose proof (ok_gates _ _ Hok _ _ _ _ Hi Hid) as Hgate. rewrite Hr in Hgate.
  destruct (ok_present _ _ Hok _ _ _ Hi id Hid) as [x Hx].
  destruct (ok_origin _ _ Hok id (available_permits x)) as [Hnn Hlim];
    [unfold origin_available; by rewrite Hx|].
  assert (Hle : sum_over (active_of_origin o) (requests s) <= origin_held id (requests s)); [|rewrite Hlim in Hc; injection Hc as <-; lia].
  apply sum_over_le. intros [r' t'] [j Hj]%list_elem_of_lookup. unfold active_of_origin. cbn.
  destruct (bool_decide_reflect (request_origin r' = o)) as [Hr'|];
    [|cbn; apply holds_origin_nonneg]. cbn.
  destruct (needs_sem t') eqn:Hn'; [|apply holds_origin_nonneg].
  destruct (ok_configured _ _ Hok _ _ _ Hj Hn' ltac:(eauto)) as [id' Hid'].
  pose proof (ok_gates _ _ Hok _ _ _ _ Hj Hid') as Hgate'. rewrite Hr', Hgate in Hgate'.
  injection Hgate' as <-.
  destruct t'; cbn in *; try done; by rewrite bool_decide_true.
Qed.

(** C8: At any moment, in any interleaving of acquiring, cancelled, expiring and
    finishing requests, at most [max_active_requests] of them hold a permit, at most
    [max_active_requests_per_origin] of those of one origin, and no permit is lost:
    the ones not held are available. *)
Theorem active_requests_bounded `{!TokioLaws} c s :
  valid_config c -> reachable c s ->
  global_held (requests s) <= max_active_requests c /\
  available_permits (global_semaphore (gate s)) = max_active_requests c - global_held (requests s) /\
  (forall o limit, max_active_requests_per_origin c = Some limit ->
     sum_over (active_of_origin o) (requests s) <= limit) /\
  (forall i r t id, requests s !! i = Some (r, t) -> task_sem t = Some id ->
     exists limit, max_active_requests_per_origin c = Some limit /\
     origin_available (gate s) id = Some (limit - origin_held id (requests s))).
Proof.
  intros Hv Hs. pose proof (reachable_permits_ok _ _ Hv Hs) as Hok.
  destruct (ok_global _ _ Hok) as [Hnn Hsum]. split_and!; [lia|lia| |].
  - intros o limit Hc. eapply active_of_origin_held; [done|done|by apply Hv].
  - intros i r t id Hi Hid. destruct (ok_present _ _ Hok _ _ _ Hi id Hid) as [x Hx].
    assert (Ha : origin_available (gate s) id = Some (available_permits x))
      by (unfold origin_available; by rewrite Hx).
    destruct (ok_origin _ _ Hok id _ Ha) as [_ Hlim]. eexists. split; [exact Hlim|].
    rewrite Ha. f_equal. lia.
Qed.

(** Permits are granted in order: a request gets them either at once, when no
    request waits, or as the head of the queue, and then every other waiting request
    registered after it.  The queue never exceeds [max_pending_requests]. *)
Theorem permits_granted_in_order `{!TokioLaws} c s i e s' r t t' :
  valid_config c -> 0 <= max_pending_requests c -> reachable c s -> queue_next s < U64_MAX ->
  step_task c i e s = Some s' -> requests s !! i = Some (r, t) -> requests s' !! i = Some (r, t') ->
  holds_global_permit t = 0 -> holds_global_permit t' = 1 ->
  Z.of_nat (length (queue_waiters s)) <= max_pending_requests c /\
  ((exists sem, t = Immediate sem /\ queue_waiters s = []) \/
   exists w sem rest, t = Trying w sem /\ queue_waiters s = waiter_id w :: rest /\
     queue_waiters s' = rest /\ Forall (fun w' => waiter_id w < w') rest).
Proof.
  intros Hv Hmax Hs Hlt Hstep Hi Hi' Hbefore Hafter.
  destruct (reachable_system_ok _ _ Hv Hmax Hs) as [Hok _ Hq]. destruct (Hq Hlt) as [Hq1 _].
  split; [apply Hq1|]. unfold step_task in Hstep. rewrite Hi in Hstep. cbn in Hstep.
  destruct (task_step _ _ _ _ _ _) as [[[t1 g'] cs]|] eqn:Hts; [|done]. injection Hstep as <-.
  cbn in Hi'. rewrite list_lookup_insert_eq in Hi' by (by eapply lookup_lt_Some). injection Hi' as ->.
  pose proof (ok_open _ _ Hok) as Hopen. pose proof (ok_present _ _ Hok _ _ _ Hi) as Hpres.
  pose proof (queue_sorted _ _ Hq1) as Hsorted. unfold queue_waiters in *. clear Hq.
  destruct t, e; cbn [task_step acquire_step acquire_permits_step waiter_drop_step permit_drop_step] in Hts; try done;
    try (injection Hts as <- <- <-; done).
  - destruct (origin_semaphore _ _ _ _). by injection Hts as <- <- <-.
  - left. destruct (try_acquire_immediate sem (gate s)) as [r1 g1] eqn:Ht.
    destruct (try_acquire_immediate_spec _ _ _ _ Ht Hopen Hpres) as (x & -> & Hx).
    destruct x; injection Hts as <- <- <-; [|done]. exists sem. split; [done|apply Hx].
  - destruct (remaining_duration _ _ _ _); [|by injection Hts as <- <- <-].
    destruct (try_register _ _) as [[|] ?]; by injection Hts as <- <- <-.
  - right. destruct (try_acquire_for_waiter _ sem (gate s)) as [r1 g1] eqn:Ht.
    destruct (try_acquire_for_waiter_spec _ _ _ _ _ Ht Hopen Hpres) as (b & -> & Hx).
    destruct b; injection Hts as <- <- <-; [|done].
    destruct Hx as (rest & g2 & Hw & _ & _ & ->). exists waiter, sem, rest.
    rewrite Hw in Hsorted |- *. split_and!; [done|done|done|by inversion Hsorted].
  - destruct (entries (gate s) !! _ ≫= _); [|done]. by injection Hts as <- <- <-.
  - destruct (remove_waiter _ _). by injection Hts as <- <- <-.
  - destruct removed; by injection Hts as <- <- <-.
Qed.

(** C17: No wakeup is lost: when nothing is left to do but to wait for requests to
    finish, to expire or to be cancelled, the request at the head of the queue
    cannot have its permits, for they are all in use. *)
Theorem waiting_only_without_permits `{!TokioLaws} c s :
  valid_config c -> 0 <= max_pending_requests c -> reachable c s -> queue_next s < U64_MAX ->
  (forall i now, step_task c i (Run now) s = None) ->
  queue_waiters s <> [] ->
  exists i r w sem ws, requests s !! i = Some (r, Awaiting w sem) /\
    queue_waiters s = waiter_id w :: ws /\
    (global_held (requests s) = max_active_requests c \/
     exists id, sem = Some id /\
       max_active_requests_per_origin c = Some (origin_held id (requests s))).
Proof.
  intros Hv Hmax Hs Hlt Hquiet Hne.
  destruct (reachable_system_ok _ _ Hv Hmax Hs) as [Hok _ Hq]. destruct (Hq Hlt) as [Hq1 Hwake].
  destruct (queue_waiters s) as [|w0 ws] eqn:Hws; [done|].
  destruct (queue_owner _ _ Hq1 w0 ltac:(rewrite Hws; set_solver)) as (i & r & t & Hi & Ht).
  assert (Hno : forall j r' t', requests s !! j = Some (r', t') ->
    task_step c (strong_count_of (requests s)) r' (Run 0) t' (gate s) = None).
  { intros j r' t' Hj. specialize (Hquiet j 0). unfold step_task in Hquiet. rewrite Hj in Hquiet.
    cbn in Hquiet. by destruct (task_step _ _ _ _ _ _) as [[[? ?] ?]|]. }
  pose proof (Hno _ _ _ Hi) as Hti.
  assert (Hawait : exists w sem, t = Awaiting w sem).
  { destruct t; try done; [|by eauto|]; cbn in Hti.
    - by destruct (try_acquire_for_waiter _ _ _) as [[[]|] ?].
    - by destruct (remove_waiter _ _). }
  destruct Hawait as (w & sem & ->). injection Ht as <-.
  exists i, r, w, sem, ws. split_and!; [done|done|].
  assert (Hcan : ~ can_acquire sem (gate s)).
  { intros Hcan. destruct (Hwake i r w sem ws Hws Hi Hcan) as [[n Hr]|(j & r' & t' & Hj & Hn)].
    - cbn in Hti. by rewrite Hr in Hti.
    - specialize (Hno _ _ _ Hj). destruct t'; try done; cbn in Hno; by destruct removed. }
  destruct (ok_global _ _ Hok) as [Hnn Hsum].
  destruct (decide (0 < available_permits (global_semaphore (gate s)))) as [Hg|]; [|left; lia].
  right. destruct sem as [id|]; [|destruct Hcan; by split].
  destruct (ok_present _ _ Hok _ _ _ Hi id eq_refl) as [x Hx].
  assert (Ha : origin_available (gate s) id = Some (available_permits x))
    by (unfold origin_available; by rewrite Hx).
  destruct (ok_origin _ _ Hok id _ Ha) as [Hnn2 Hlim]. exists id. split; [done|].
  rewrite Hlim. f_equal. destruct (decide (0 < available_permits x)); [|lia].
  destruct Hcan. split; [done|]. intros id' [= <-]. eauto.
Qed.

(** ** The metrics follow the requests *)

Definition active_delta (c : Call) : Z :=
  match c with ActiveStarted => 1 | ActiveFinished => -1 | _ => 0 end.
Definition pending_delta (c : Call) : Z :=
  match c with PendingStarted _ => 1 | PendingFinished => -1 | _ => 0 end.

Definition is_active (t : Task) : Z := match t with Active _ => 1 | _ => 0 end.
(** A request is pending from its registration until its [PendingAcquire] is dropped. *)
Definition is_pending (t : Task) : Z :=
  match t with
  | Enabling _ _ | Trying _ _ | Awaiting _ _ | GrantedPending _ _ | Removing _ _
  | RemovedPending _ _ _ => 1
  | _ => 0
  end.

Lemma task_step_calls c strong r e t g t' g' cs :
  task_step c strong r e t g = Some (t', g', cs) ->
  is_active t' = is_active t + sum_over active_delta cs /\
  is_pending t' = is_pending t + sum_over pending_delta cs.
Proof.
  destruct t, e; cbn [task_step acquire_step acquire_permits_step waiter_drop_step permit_drop_step]; try done;
    repeat match goal with
           | |- (let (_, _) := ?x in _) = _ -> _ => destruct x
           | |- match ?x with _ => _ end = _ -> _ => destruct x; try done
           end; intros [= <- <- <-]; try done;
    match goal with b : bool |- _ => by destruct b | e : AcquireError |- _ => by destruct e end.
Qed.

(** The calls made for the origins that [weight] selects. *)
Lemma calls_follow c (weight : string -> Z) s :
  reachable c s ->
  sum_over (fun oc => weight (fst oc) * active_delta (snd oc)) (calls s) =
    sum_over (fun rt => weight (request_origin (fst rt)) * is_active (snd rt)) (requests s) /\
  sum_over (fun oc => weight (fst oc) * pending_delta (snd oc)) (calls s) =
    sum_over (fun rt => weight (request_origin (fst rt)) * is_pending (snd rt)) (requests s).
Proof.
  assert (Hmap : forall (delta : Call -> Z) o cs,
    sum_over (fun oc => weight (fst oc) * delta (snd oc)) ((fun c => (o, c)) <$> cs) =
    weight o * sum_over delta cs).
  { intros delta o cs. induction cs as [|x cs IH]; cbn; lia. }
  revert s. apply reachable_invariant.
  - done.
  - intros s r [IH1 IH2]. cbn. rewrite !sum_over_app, IH1, IH2. cbn. lia.
  - intros s i r t e t' g' cs [IH1 IH2] Hi Hstep.
    apply task_step_calls in Hstep as [Ha Hp]. cbn.
    rewrite !sum_over_app, !Hmap, IH1, IH2, !(sum_over_insert _ _ _ _ _ Hi). cbn. rewrite Ha, Hp. lia.
Qed.

(** The counters after the calls, from fresh [Metrics]. *)
Definition record_calls (cs : list (string * Call)) : Metrics.Metrics :=
  foldl (fun m oc => exec (metrics_call (snd oc)) m) Metrics.metrics_default cs.

#[local] Existing Instance Metrics.eta_Metrics.

Lemma metrics_call_gauges c m :
  is_usize (Metrics.active_requests m) -> is_usize (Metrics.pending_requests m) ->
  Metrics.active_requests (exec (metrics_call c) m) = wrapping_add (Metrics.active_requests m) (active_delta c) /\
  Metrics.pending_requests (exec (metrics_call c) m) = wrapping_add (Metrics.pending_requests m) (pending_delta c).
Proof.
  intros Ha Hp.
  assert (H0 : forall x, is_usize x -> x = wrapping_add x 0).
  { intros x Hx. rewrite wrapping_add_small; unfold is_usize in *; lia. }
  destruct c; unfold exec; cbn;
    repeat match goal with |- context [run_attempt ?body ?x] => destruct (run_attempt body x) end;
    cbn; split; try by apply H0.
  all: unfold wrapping_sub, wrapping_add; do 2 f_equal; lia.
Qed.

Lemma record_calls_gauges cs :
  Metrics.active_requests (record_calls cs) =
    sum_over (fun oc => active_delta (snd oc)) cs mod (USIZE_MAX + 1) /\
  Metrics.pending_requests (record_calls cs) =
    sum_over (fun oc => pending_delta (snd oc)) cs mod (USIZE_MAX + 1).
Proof.
  assert (Hr : forall x, is_usize (x mod (USIZE_MAX + 1))).
  { intros x. pose proof (Z.mod_pos_bound x (USIZE_MAX + 1)). arith. }
  induction cs as [|[o x] cs IH] using rev_ind; [done|]. destruct IH as [IH1 IH2].
  unfold record_calls in *. rewrite foldl_app. cbn.
  destruct (metrics_call_gauges x (foldl (fun m oc => exec (metrics_call (snd oc)) m)
    Metrics.metrics_default cs)) as [-> ->]; [by rewrite IH1|by rewrite IH2|].
  rewrite IH1, IH2, !sum_over_app. unfold wrapping_add. cbn.
  split; rewrite Zplus_mod_idemp_l; f_equal; lia.
Qed.

Lemma active_count_le ts : 0 <= sum_over (fun rt : Request * Task => is_active (snd rt)) ts <= global_held ts.
Proof.
  split; [apply sum_over_nonneg; by intros [? []]|]. apply sum_over_le. by intros [? []] _.
Qed.

(** The gauges of [Metrics] are true: after the calls of any execution,
    [active_requests] is the number of requests that are active, which never exceeds
    the limit, and [pending_requests] the number of registered requests (modulo the
    width of the counter); and the calls made for an origin count its own requests. *)
Theorem request_gauges_correct `{!TokioLaws} c s :
  valid_config c -> is_usize (max_active_requests c) -> reachable c s ->
  Metrics.active_requests (record_calls (calls s)) =
    sum_over (fun rt => is_active (snd rt)) (requests s) /\
  Metrics.active_requests (record_calls (calls s)) <= max_active_requests c /\
  Metrics.pending_requests (record_calls (calls s)) =
    sum_over (fun rt => is_pending (snd rt)) (requests s) mod (USIZE_MAX + 1) /\
  forall o,
    sum_over (fun oc => (if bool_decide (fst oc = o) then 1 else 0) * active_delta (snd oc)) (calls s) =
    sum_over (fun rt => (if bool_decide (request_origin (fst rt) = o) then 1 else 0) * is_active (snd rt))
      (requests s).
Proof.
  intros Hv Hmax Hs. pose proof (reachable_permits_ok _ _ Hv Hs) as Hok.
  destruct (ok_global _ _ Hok) as [Hnn Hsum]. pose proof (active_count_le (requests s)) as Hle.
  destruct (calls_follow c (fun _ => 1) s Hs) as [Ha Hp].
  destruct (record_calls_gauges (calls s)) as [-> ->].
  setoid_rewrite Z.mul_1_l in Ha. setoid_rewrite Z.mul_1_l in Hp. rewrite Ha, Hp.
  rewrite Z.mod_small by arith. split_and!; [done|lia|done|].
  intros o. exact (proj1 (calls_follow c (fun o' => if bool_decide (o' = o) then 1 else 0) s Hs)).
Qed.
End acquire.

(** ** Concrete runs *)

#[local] Existing Instance counting_semaphores.

Inductive Move := New (r : Request) | Step (i : nat) (e : Event).

Fixpoint drive (c : GateConfig) (moves : list Move) (s : System) : option System :=
  match moves with
  | [] => Some s
  | New r :: moves =>
      drive c moves {| gate := gate s; requests := requests s ++ [(r, Starting)]; calls := calls s |}
  | Step i e :: moves => s' ← step_task c i e s; drive c moves s'
  end.

Lemma drive_reachable c moves s s' : reachable c s -> drive c moves s = Some s' -> reachable c s'.
Proof.
  revert s; induction moves as [|[r|i e] moves IH]; intros s Hs; cbn [drive].
  - by intros [= <-].
  - apply IH. eapply rtc_r; [done|]. apply step_new.
  - destruct (step_task c i e s) as [s1|] eqn:Hstep; [|done]. apply IH.
    eapply rtc_r; [done|]. by eapply step_run.
Qed.

Definition sample_config : GateConfig :=
  {| max_active_requests := 2; max_active_requests_per_origin := Some 1; max_pending_requests := 1 |}.
Definition sample_request (o : string) : Request :=
  {| request_origin := o; pool_timeout := f64_of_Z 5; request_started := 0 |}.

(** A first request of an origin becomes active, a second one waits for it. *)
Definition sample_moves : list Move :=
  New (sample_request "a") :: Step 0 (Run 0) :: Step 0 (Run 0) :: Step 0 (Run 0)
  :: New (sample_request "a") :: replicate 5 (Step 1 (Run 1)).

Definition sample_system : System := default (initial sample_config) (drive sample_config sample_moves (initial sample_config)).

Lemma sample_reachable : reachable sample_config sample_system.
Proof.
  apply (drive_reachable sample_config sample_moves (initial sample_config)); [apply rtc_refl|].
  by vm_compute.
Qed.

Lemma sample_valid : valid_config sample_config.
Proof. split; [done|]. by intros limit [= <-]. Qed.

Lemma active_requests_bounded_witness :
  map snd (requests sample_system) =
    [Active (Some 0%nat); Awaiting {| waiter_id := 1; pending_started := 1 |} (Some 0%nat)] /\
  global_held (requests sample_system) <= 2.
Proof.
  split; [vm_compute; reflexivity|].
  exact (proj1 (active_requests_bounded sample_config sample_system sample_valid sample_reachable)).
Defined.

Lemma waiting_only_without_permits_witness : exists i r w sem ws,
  requests sample_system !! i = Some (r, Awaiting w sem) /\
  queue_waiters sample_system = waiter_id w :: ws /\
  (global_held (requests sample_system) = 2 \/
   exists id, sem = Some id /\ Some 1 = Some (origin_held id (requests sample_system))).
Proof.
  refine (waiting_only_without_permits sample_config sample_system sample_valid _ sample_reachable _ _ _).
  - by vm_compute.
  - by vm_compute.
  - intros [|[|i]] now; [by vm_compute|by vm_compute|].
    unfold step_task. by replace (requests sample_system !! S (S i)) with (@None (Request * Task)) by by vm_compute.
  - by vm_compute.
Defined.

(** The active request ends, which wakes the other one. *)
Definition sample_release : list Move :=
  sample_moves ++ [Step 0 Complete; Step 0 (Run 2); Step 0 (Run 2); Step 0 (Run 2);
                   Step 1 (Run 3); Step 1 (Run 3)].
Definition sample_released : System := default (initial sample_config) (drive sample_config sample_release (initial sample_config)).

Lemma sample_released_reachable : reachable sample_config sample_released.
Proof.
  apply (drive_reachable sample_config sample_release (initial sample_config)); [apply rtc_refl|].
  by vm_compute.
Qed.

Lemma permits_granted_in_order_witness : exists s',
  step_task sample_config 1 (Run 4) sample_released = Some s' /\ queue_waiters s' = [] /\
  Z.of_nat (length (queue_waiters sample_released)) <= 1.
Proof.
  assert (Hstep : step_task sample_config 1 (Run 4) sample_released =
    Some (default sample_released (step_task sample_config 1 (Run 4) sample_released)))
    by (vm_compute; reflexivity).
  eexists. split; [exact Hstep|]. split; [vm_compute; reflexivity|].
  exact (proj1 (permits_granted_in_order sample_config sample_released 1 (Run 4) _
    (sample_request "a") (Trying {| waiter_id := 1; pending_started := 1 |} (Some 0%nat))
    (GrantedPending 1 (Some 0%nat)) sample_valid ltac:(by vm_compute) sample_released_reachable
    ltac:(by vm_compute) Hstep ltac:(by vm_compute) ltac:(by vm_compute) eq_refl eq_refl)).
Defined.

Lemma request_gauges_correct_witness :
  Metrics.active_requests (record_calls (calls sample_system)) = 1 /\
  Metrics.active_requests (record_calls (calls sample_system)) <= 2.
Proof.
  split; [vm_compute; reflexivity|].
  exact (proj1 (proj2 (request_gauges_correct sample_config sample_system sample_valid
    ltac:(by vm_compute) sample_reachable))).
Defined.
