(* ===== verification/PoolDiagnostics.v ===== *)
(** * Diagnostics of the request pool

    [src/src/py/client/acquire/{diagnostics,gate}.rs]: the snapshot assembled from the
    counters of the client and the waiters of its origins. *)

From S2P Require Import Prelude Atomics OriginMetrics.
From S2P Require Metrics Acquire.
Import Acquire (GateConfig, max_active_requests, max_active_requests_per_origin, max_pending_requests).

Local Open Scope Z_scope.

Record PoolDiagnosticsSnapshot := {
  pool_metadata : Metrics.TelemetrySnapshotMetadata;
  pool_active_requests : Z;
  pool_pending_requests : Z;
  pool_pool_acquire_timeouts : Z;
  pool_max_active_requests : Z;
  pool_max_active_requests_per_origin : option Z;
  pool_max_pending_requests : Z;
  pending_queue_full : bool;
  pool_oldest_pending_request_wait_ns : Z;
  pool_blocked_by : PendingRequestBlockingReason;
  pool_origins : list OriginPoolDiagnosticsSnapshot;
}.

Definition blocking_reason_name (reason : PendingRequestBlockingReason) : string :=
  match reason with
  | BlockedByNone => "none"
  | GlobalActiveRequests => "global_active_requests"
  | PerOriginActiveRequests => "per_origin_active_requests"
  | PendingQueueOrder => "pending_queue_order"
  | Mixed => "mixed"
  end.

Definition merge_blocking_reason (current next : PendingRequestBlockingReason) :
    PendingRequestBlockingReason :=
  match current, next with
  | BlockedByNone, reason | reason, BlockedByNone => reason
  | l, r => if bool_decide (l = r) then l else Mixed
  end.

(** The loop of [PoolDiagnosticsSnapshot::new] over the origins: the pending requests,
    the oldest wait and the merged reason.  The sum wraps as it does in release
    builds. *)
Fixpoint fold_origins (origins : list OriginPoolDiagnosticsSnapshot) (pending oldest : Z)
    (blocked_by : PendingRequestBlockingReason) : Z * Z * PendingRequestBlockingReason :=
  match origins with
  | [] => (pending, oldest, blocked_by)
  | origin :: origins =>
      let pending := wrapping_add pending (diag_pending_requests origin) in
      if diag_pending_requests origin =? 0 then fold_origins origins pending oldest blocked_by
      else fold_origins origins pending
             (Z.max oldest (diag_oldest_pending_request_wait_ns origin))
             (merge_blocking_reason blocked_by (diag_blocked_by origin))
  end.

Definition pool_diagnostics_snapshot_new (metadata : Metrics.TelemetrySnapshotMetadata)
    (metrics : Metrics.MetricsSnapshot) (origins : list OriginPoolDiagnosticsSnapshot)
    (c : GateConfig) : PoolDiagnosticsSnapshot :=
  let '(pending, oldest, blocked_by) := fold_origins origins 0 0 BlockedByNone in
  {| pool_metadata := metadata;
     pool_active_requests := Metrics.snap_active_requests metrics;
     pool_pending_requests := pending;
     pool_pool_acquire_timeouts := Metrics.snap_pool_acquire_timeouts metrics;
     pool_max_active_requests := max_active_requests c;
     pool_max_active_requests_per_origin := max_active_requests_per_origin c;
     pool_max_pending_requests := max_pending_requests c;
     pending_queue_full := max_pending_requests c <=? pending;
     pool_oldest_pending_request_wait_ns := oldest;
     pool_blocked_by := blocked_by;
     pool_origins := origins |}.

(** [AcquireGate::diagnostics], on the origins the registry yields. *)
Definition gate_diagnostics (origins : list OriginPoolDiagnosticsSnapshot) (c : GateConfig) :
    action Metrics.Metrics PoolDiagnosticsSnapshot :=
  metadata ← Metrics.next_telemetry_snapshot_metadata;
  metrics ← Metrics.snapshot;
  mret (pool_diagnostics_snapshot_new metadata metrics origins c).

(** ** The merged reason *)

(** The origins with pending requests and the reasons they name. *)
Definition pending_origins (origins : list OriginPoolDiagnosticsSnapshot) :
    list OriginPoolDiagnosticsSnapshot :=
  filter (fun o => diag_pending_requests o <> 0) origins.
Definition named_reasons (origins : list OriginPoolDiagnosticsSnapshot) :
    list PendingRequestBlockingReason :=
  filter (fun r => r <> BlockedByNone) (diag_blocked_by <$> pending_origins origins).

(** Nothing, the one reason all agree on, or a mix. *)
Definition summary_of (reasons : list PendingRequestBlockingReason) : PendingRequestBlockingReason :=
  match reasons with
  | [] => BlockedByNone
  | r :: rs => if forallb (fun r' => bool_decide (r' = r)) rs then r else Mixed
  end.

Definition total_pending (origins : list OriginPoolDiagnosticsSnapshot) : Z :=
  foldr (fun o acc => diag_pending_requests o + acc) 0 origins.

Lemma merge_summary r rs :
  foldl merge_blocking_reason r (filter (fun r => r <> BlockedByNone) rs) =
  foldl merge_blocking_reason r rs.
Proof.
  revert r; induction rs as [|r' rs IH]; intros r; [done|].
  destruct (decide (r' = BlockedByNone)) as [->|Hn].
  - rewrite filter_cons_False by auto. cbn. rewrite IH. by destruct r.
  - rewrite filter_cons_True by done. cbn. apply IH.
Qed.

Lemma merge_mixed rs : Forall (fun r => r <> BlockedByNone) rs ->
  foldl merge_blocking_reason Mixed rs = Mixed.
Proof. induction 1 as [|r rs Hr _ IH]; [done|]. cbn. by destruct r. Qed.

Lemma merge_same r rs : r <> BlockedByNone -> Forall (fun r => r <> BlockedByNone) rs ->
  foldl merge_blocking_reason r rs =
  if forallb (fun r' => bool_decide (r' = r)) rs then r else Mixed.
Proof.
  intros Hr Hrs. induction Hrs as [|r' rs Hr' Hrs IH]; [done|]. cbn.
  destruct (decide (r' = r)) as [->|Hne].
  - rewrite (bool_decide_true (r = r)) by done. rewrite andb_true_l, <- IH. f_equal. by destruct r.
  - rewrite bool_decide_false by done. cbn.
    replace (merge_blocking_reason r r') with Mixed by (by destruct r, r').
    by apply merge_mixed.
Qed.

Lemma fold_origins_spec origins pending oldest r :
  0 <= total_pending origins -> Forall (fun o => 0 <= diag_pending_requests o) origins ->
  0 <= pending -> pending + total_pending origins <= USIZE_MAX ->
  fold_origins origins pending oldest r =
  (pending + total_pending origins,
   fold_left (fun m o => Z.max m (diag_oldest_pending_request_wait_ns o)) (pending_origins origins) oldest,
   foldl merge_blocking_reason r (diag_blocked_by <$> pending_origins origins)).
Proof.
  unfold pending_origins. intros _ Hnn. revert pending oldest r.
  induction Hnn as [|o origins Ho Hnn IH]; intros pending oldest r Hp Hle.
  - cbn. by rewrite Z.add_0_r.
  - cbn [fold_origins]. cbn in Hle.
    assert (0 <= total_pending origins).
    { clear -Hnn. induction Hnn; cbn; [done|]. unfold total_pending in *. lia. }
    fold (total_pending origins) in Hle. cbn [total_pending foldr]. fold (total_pending origins).
    rewrite wrapping_add_small by lia.
    destruct (Z.eqb_spec (diag_pending_requests o) 0) as [E|E].
    + rewrite IH by lia. rewrite filter_cons_False by auto. do 2 f_equal. lia.
    + rewrite IH by lia. rewrite filter_cons_True by done. cbn. do 2 f_equal. lia.
Qed.

(** The pool diagnostics summarise the origins: the pending requests are their
    sum, the queue is reported full exactly when that reaches the limit, the oldest
    wait is the longest among the origins with pending requests, and the reason is
    the one they all name, [none] if they name none and [mixed] otherwise. *)
Theorem pool_diagnostics_summary metadata metrics origins c :
  Forall (fun o => 0 <= diag_pending_requests o) origins -> total_pending origins <= USIZE_MAX ->
  let s := pool_diagnostics_snapshot_new metadata metrics origins c in
  pool_pending_requests s = total_pending origins /\
  (pending_queue_full s = true <-> max_pending_requests c <= total_pending origins) /\
  (forall o, o ∈ pending_origins origins ->
     diag_oldest_pending_request_wait_ns o <= pool_oldest_pending_request_wait_ns s) /\
  (pool_oldest_pending_request_wait_ns s = 0 \/
   exists o, o ∈ pending_origins origins /\
     diag_oldest_pending_request_wait_ns o = pool_oldest_pending_request_wait_ns s) /\
  pool_blocked_by s = summary_of (named_reasons origins).
Proof.
  intros Hnn Hle. cbn. unfold pool_diagnostics_snapshot_new.
  assert (0 <= total_pending origins).
  { clear -Hnn. induction Hnn; cbn; [done|]. unfold total_pending in *. lia. }
  rewrite fold_origins_spec by (done || lia). cbn [pool_pending_requests pending_queue_full
    pool_oldest_pending_request_wait_ns pool_blocked_by]. rewrite Z.add_0_l.
  destruct (fold_max_spec diag_oldest_pending_request_wait_ns (pending_origins origins) 0) as (Hall & _ & Hex).
  split_and!; [done|by rewrite Z.leb_le|done| |].
  - destruct Hex as [->|(o & Ho & ->)]; [by left|right; eauto].
  - rewrite <- merge_summary. fold (named_reasons origins). unfold summary_of.
    assert (Hnamed : Forall (fun r => r <> BlockedByNone) (named_reasons origins)).
    { apply Forall_forall. unfold named_reasons. by intros r [Hr _]%list_elem_of_filter. }
    destruct Hnamed as [|r rs Hr Hrs]; [done|]. cbn. by apply merge_same.
Qed.

Definition sample_origin (o : string) (pending wait : Z) (r : PendingRequestBlockingReason) :
    OriginPoolDiagnosticsSnapshot :=
  {| diag_origin := o; diag_active_requests := 1; diag_pending_requests := pending;
     diag_pool_acquire_timeouts := 0; diag_oldest_pending_request_wait_ns := wait;
     diag_blocked_by := r; diag_last_activity_at_ns := 0 |}.

Definition sample_origins : list OriginPoolDiagnosticsSnapshot :=
  [sample_origin "a" 2 70 GlobalActiveRequests; sample_origin "b" 0 0 BlockedByNone;
   sample_origin "c" 1 90 PerOriginActiveRequests].

Lemma pool_diagnostics_summary_witness :
  let s := pool_diagnostics_snapshot_new {| Metrics.schema_version := 4; Metrics.snapshot_sequence := 1 |}
    (fst (run_action Metrics.snapshot Metrics.metrics_default)) sample_origins
    {| max_active_requests := 1; max_active_requests_per_origin := None; max_pending_requests := 3 |} in
  pool_pending_requests s = 3 /\ pool_blocked_by s = Mixed.
Proof.
  assert (Hnn : Forall (fun o => 0 <= diag_pending_requests o) sample_origins)
    by (repeat constructor; done).
  destruct (pool_diagnostics_summary {| Metrics.schema_version := 4; Metrics.snapshot_sequence := 1 |}
    (fst (run_action Metrics.snapshot Metrics.metrics_default)) sample_origins
    {| max_active_requests := 1; max_active_requests_per_origin := None; max_pending_requests := 3 |}
    Hnn ltac:(by vm_compute)) as (Hp & _ & _ & _ & Hr).
  split; [exact Hp|]. rewrite Hr. reflexivity.
Defined.
