(* ===== verification/Method.v ===== *)
(** * Methods that can fail

    What [&mut self] methods, constructors and Python entry points share: a [method] runs
    on a state and returns a [Result] with the state it leaves behind, also when it fails;
    [?] is its bind.  A panic is [None].

    [ensures] is what a method promises of its result and its final state; [preserves] is
    the part about an invariant.  Both are proved along the method's structure. *)

From S2P Require Import Prelude.

Definition method (S E A : Type) : Type := S -> option (result A E * S).

#[export] Instance method_ret S E : MRet (method S E) := fun A a s => Some (Ok a, s).
#[export] Instance method_bind S E : MBind (method S E) := fun A B k m s =>
  match m s with
  | None => None
  | Some (Err e, s) => Some (Err e, s)
  | Some (Ok a, s) => k a s
  end.

Section method.
Context {S E : Type}.

Definition raise {A} (e : E) : method S E A := fun s => Some (Err e, s).
Definition panic {A} : method S E A := fun _ => None.

(** [expect] and [unwrap]. *)
Definition expect {A} (o : option A) : method S E A := match o with Some a => mret a | None => panic end.

Definition of_result {A} (r : result A E) : method S E A := fun s => Some (r, s).
Definition gets {A} (f : S -> A) : method S E A := fun s => Some (Ok (f s), s).
Definition modify (f : S -> S) : method S E unit := fun s => Some (Ok tt, f s).

(** A section that returns a value and cannot fail. *)
Definition section {A} (f : S -> A * S) : method S E A := fun s => let (a, s) := f s in Some (Ok a, s).

(** What is done on the way out, whatever the result. *)
Definition finally {A} (m : method S E A) (f : S -> S) : method S E A := fun s =>
  match m s with None => None | Some (r, s) => Some (r, f s) end.

Definition on_error {A} (m : method S E A) (f : S -> S) : method S E A := fun s =>
  match m s with Some (Err e, s) => Some (Err e, f s) | o => o end.

Lemma bind_inv {A B} (m : method S E A) (k : A -> method S E B) s r s' : (m ≫= k) s = Some (r, s') ->
  (exists a s1, m s = Some (Ok a, s1) /\ k a s1 = Some (r, s')) \/ (exists e, m s = Some (Err e, s') /\ r = Err e).
Proof.
  unfold mbind, method_bind. destruct (m s) as [[[a|e] s1]|]; [by left; exists a, s1| |done].
  intros [= <- <-]. right. by exists e.
Qed.

Lemma bind_Ok {A B} (m : method S E A) (k : A -> method S E B) s a s1 : m s = Some (Ok a, s1) -> (m ≫= k) s = k a s1.
Proof. unfold mbind, method_bind. by intros ->. Qed.

Lemma bind_Err {A B} (m : method S E A) (k : A -> method S E B) s e s1 : m s = Some (Err e, s1) -> (m ≫= k) s = Some (Err e, s1).
Proof. unfold mbind, method_bind. by intros ->. Qed.

(** ** Promises *)

Definition ensures {A} (P : S -> Prop) (m : method S E A) (Q : result A E -> S -> Prop) : Prop :=
  forall s r s', P s -> m s = Some (r, s') -> Q r s'.

Lemma ensures_weaken {A} (P : S -> Prop) (m : method S E A) (Q Q' : result A E -> S -> Prop) :
  ensures P m Q -> (forall r s, Q r s -> Q' r s) -> ensures P m Q'.
Proof. intros Hm HQ s r s' HP Hr. apply HQ. by apply (Hm s). Qed.

Lemma ensures_bind {A B} (P : S -> Prop) (m : method S E A) (k : A -> method S E B) (R : A -> S -> Prop)
    (Q : result B E -> S -> Prop) :
  ensures P m (fun r s => match r with Ok a => R a s | Err e => Q (Err e) s end) ->
  (forall a, ensures (R a) (k a) Q) -> ensures P (m ≫= k) Q.
Proof.
  intros Hm Hk s r s' HP Hr. apply bind_inv in Hr as [(a & s1 & H1 & H2)|(e & H1 & ->)].
  - apply (Hk a s1); [|done]. exact (Hm _ _ _ HP H1).
  - exact (Hm _ _ _ HP H1).
Qed.

Lemma ensures_result {A} (P : S -> Prop) (r : result A E) (Q : result A E -> S -> Prop) :
  (forall s, P s -> Q r s) -> ensures P (of_result r) Q.
Proof. intros HQ s r' s' HP [= <- <-]. by apply HQ. Qed.

Definition preserves {A} (I : S -> Prop) (m : method S E A) : Prop := ensures I m (fun _ => I).

Lemma preserves_bind {A B} (I : S -> Prop) (m : method S E A) (k : A -> method S E B) :
  preserves I m -> (forall a, preserves I (k a)) -> preserves I (m ≫= k).
Proof.
  intros Hm Hk. apply (ensures_bind _ _ _ (fun _ => I)); [|done].
  intros s r s' HI Hr. pose proof (Hm _ _ _ HI Hr). by destruct r.
Qed.

Lemma preserves_ret {A} (I : S -> Prop) (a : A) : preserves I (mret a).
Proof. intros s r s' HI [= <- <-]. done. Qed.
Lemma preserves_raise {A} (I : S -> Prop) (e : E) : preserves I (raise (A := A) e).
Proof. intros s r s' HI [= <- <-]. done. Qed.
Lemma preserves_panic {A} (I : S -> Prop) : preserves I (panic (A := A)).
Proof. intros s r s' HI. done. Qed.
Lemma preserves_expect {A} (I : S -> Prop) (o : option A) : preserves I (expect o).
Proof. destruct o; [apply preserves_ret | apply preserves_panic]. Qed.
Lemma preserves_result {A} (I : S -> Prop) (r : result A E) : preserves I (of_result r).
Proof. intros s r' s' HI [= <- <-]. done. Qed.
Lemma preserves_gets {A} (I : S -> Prop) (f : S -> A) : preserves I (gets f).
Proof. intros s r s' HI [= <- <-]. done. Qed.
Lemma preserves_modify (I : S -> Prop) f : (forall s, I s -> I (f s)) -> preserves I (modify f).
Proof. intros Hf s r s' HI [= <- <-]. by apply Hf. Qed.
Lemma preserves_section {A} (I : S -> Prop) (f : S -> A * S) : (forall s, I s -> I (snd (f s))) -> preserves I (section f).
Proof. intros Hf s r s' HI. unfold section. destruct (f s) as [a s1] eqn:Hs. intros [= <- <-]. specialize (Hf s HI). by rewrite Hs in Hf. Qed.
Lemma preserves_on_error {A} (I : S -> Prop) (m : method S E A) f :
  preserves I m -> (forall s, I s -> I (f s)) -> preserves I (on_error m f).
Proof.
  intros Hm Hf s r s' HI. unfold on_error. destruct (m s) as [[[a|e] s1]|] eqn:Hs; intros [= <- <-].
  - exact (Hm _ _ _ HI Hs).
  - apply Hf. exact (Hm _ _ _ HI Hs).
Qed.
Lemma preserves_finally {A} (I : S -> Prop) (m : method S E A) f :
  preserves I m -> (forall s, I s -> I (f s)) -> preserves I (finally m f).
Proof.
  intros Hm Hf s r s' HI. unfold finally. destruct (m s) as [[r1 s1]|] eqn:Hs; intros [= <- <-].
  apply Hf. exact (Hm _ _ _ HI Hs).
Qed.

(** ** Methods that leave the state as it is *)

Definition reads {A} (m : method S E A) : Prop := forall s r s', m s = Some (r, s') -> s' = s.

Lemma reads_bind {A B} (m : method S E A) (k : A -> method S E B) : reads m -> (forall a, reads (k a)) -> reads (m ≫= k).
Proof.
  intros Hm Hk s r s' Hr. apply bind_inv in Hr as [(a & s1 & H1 & H2)|(e & H1 & ->)].
  - apply Hm in H1 as ->. by apply Hk in H2.
  - by apply Hm in H1.
Qed.
Lemma reads_ret {A} (a : A) : reads (mret a).
Proof. intros s r s' [= <- <-]. done. Qed.
Lemma reads_raise {A} (e : E) : reads (raise (A := A) e).
Proof. intros s r s' [= <- <-]. done. Qed.
Lemma reads_result {A} (r : result A E) : reads (of_result r).
Proof. intros s r' s' [= <- <-]. done. Qed.
Lemma reads_gets {A} (f : S -> A) : reads (gets f).
Proof. intros s r s' [= <- <-]. done. Qed.
Lemma reads_expect {A} (o : option A) : reads (expect o).
Proof. destruct o; [apply reads_ret | done]. Qed.
End method.

Create HintDb method.
#[export] Hint Resolve preserves_bind preserves_ret preserves_raise preserves_panic preserves_expect preserves_result
  preserves_gets : method.
#[export] Hint Resolve reads_bind reads_ret reads_raise reads_result reads_gets reads_expect : method.

(** A run of a method, decomposed at its binds. *)
Ltac method_inv :=
  repeat match goal with
  | H : (_ ≫= _) _ = Some _ |- _ => apply bind_inv in H as [(? & ? & ? & ?)|(? & ? & ?)]; simplify_eq
  | H : mret _ _ = Some _ |- _ => injection H as <- <-
  | H : raise _ _ = Some _ |- _ => injection H as <- <-
  | H : of_result _ _ = Some _ |- _ => injection H as <- <-
  | H : gets _ _ = Some _ |- _ => injection H as <- <-
  | H : modify _ _ = Some _ |- _ => injection H as <- <-
  | H : panic _ = Some _ |- _ => discriminate H
  end.
