(* ===== verification/Assembly.v ===== *)
(** * How the HTTP clients are built

    [src/src/core/client/mod.rs], [src/src/core/tls/mod.rs], [ProxyTunnelTarget::new] of
    [src/src/core/client/proxy/tunnel.rs] and [src/src/py/client/transport/client.rs]: the
    configuration of hyper's client from the client's options, and the choice between the
    direct client and the one of the proxy.

    A hyper client is what it was built from ([HyperClient]).  Certificates and trust
    anchors are those of rustls and of the PEM parser ([TlsCrates]). *)

From stdpp Require Import pretty.
From Stdlib Require Import Ascii.
From S2P Require Import Prelude Atomics RustStr Http Numeric Policy Ssrf ProxyMetrics ProxyConnect Method.
From S2P Require ConnectionLimit.
Import ConnectionLimit(ConnectionGate(..)).

Local Open Scope Z_scope.

(** ** Trust anchors *)

Class TlsCrates := {
  Certificate : Type;
  TrustAnchor : Type;
  (** [CertificateDer::pem_slice_iter] *)
  pem_slice_iter : list Z -> list (result Certificate string);
  (** what [RootCertStore::add] pushes *)
  trust_anchor : Certificate -> result TrustAnchor string;
  TLS_SERVER_ROOTS : list TrustAnchor;
  (** [with_safe_default_protocol_versions] of the ring provider *)
  safe_default_protocol_versions : result unit string;
}.

Section tls.
Context `{TlsCrates}.

Definition TLS_TRUST_STORE_EMPTY : string := "TLS trust store is empty; enable WebPKI roots or provide CA certificates".
Definition CA_CERTIFICATE_EMPTY : string := "CA certificate PEM did not contain certificates".

Definition RootCertStore : Type := list TrustAnchor.

Definition webpki_root_store : RootCertStore := [] ++ TLS_SERVER_ROOTS.

Definition parse_ca_certificates (certificate : list Z) : result (list Certificate) string :=
  let? certificates := collect_results (map_err (fun err => "failed to parse CA certificate PEM: " +:+ err)
                                          <$> pem_slice_iter certificate) in
  match certificates with [] => Err CA_CERTIFICATE_EMPTY | _ => Ok certificates end.

(** The inner loop: the anchors of one file. *)
Fixpoint add_certificates (roots : RootCertStore) (certificates : list Certificate) : result RootCertStore string :=
  match certificates with
  | [] => Ok roots
  | certificate :: rest =>
      let? anchor := map_err (fun err => "failed to add CA certificate: " +:+ err) (trust_anchor certificate) in
      add_certificates (roots ++ [anchor]) rest
  end.

Fixpoint add_ca_certificates (roots : RootCertStore) (ca_certificates : list (list Z)) : result RootCertStore string :=
  match ca_certificates with
  | [] => Ok roots
  | certificate :: rest =>
      let? certificates := parse_ca_certificates certificate in
      let? roots := add_certificates roots certificates in
      add_ca_certificates roots rest
  end.

Definition build_tls_config (ca_certificates : list (list Z)) (trust_webpki_roots : bool) : result RootCertStore string :=
  let roots := if trust_webpki_roots then webpki_root_store else [] in
  let? roots := add_ca_certificates roots ca_certificates in
  match roots with
  | [] => Err TLS_TRUST_STORE_EMPTY
  | _ =>
      let? _ := map_err (fun err => "failed to configure TLS protocol versions: " +:+ err) safe_default_protocol_versions in
      Ok roots
  end.

(** The anchors of a file that parses. *)
Definition anchors_of (file : list Z) (anchors : list TrustAnchor) : Prop :=
  anchors <> [] /\ exists certificates, pem_slice_iter file = Ok <$> certificates /\
    Forall2 (fun c a => trust_anchor c = Ok a) certificates anchors.

Lemma add_certificates_Ok roots certificates roots' : add_certificates roots certificates = Ok roots' <->
  exists anchors, roots' = roots ++ anchors /\ Forall2 (fun c a => trust_anchor c = Ok a) certificates anchors.
Proof.
  revert roots; induction certificates as [|c rest IH]; intros roots; cbn [add_certificates].
  - split; [intros [= <-]; exists []; by rewrite app_nil_r|].
    intros (anchors & -> & Hf). inversion Hf; subst. by rewrite app_nil_r.
  - destruct (trust_anchor c) as [a|e] eqn:Hc; cbn [map_err].
    + rewrite IH. split.
      * intros (anchors & -> & Hf). exists (a :: anchors). rewrite <- app_assoc. by split; [|constructor].
      * intros (anchors & -> & Hf). inversion Hf as [|? a' ? l Ha Hl]; subst. exists l.
        rewrite <- app_assoc. rewrite Hc in Ha. by injection Ha as <-.
    + split; [done|]. intros (anchors & _ & Hf). inversion Hf; subst. congruence.
Qed.

Lemma collect_map_Ok {A E F} (f : E -> F) (rs : list (result A E)) l :
  collect_results (map_err f <$> rs) = Ok l <-> rs = Ok <$> l.
Proof.
  rewrite collect_results_Ok. revert l; induction rs as [|r rs IH]; intros l; split.
  - intros Hf. by inversion Hf.
  - intros Hl. symmetry in Hl. apply fmap_nil_inv in Hl as ->. constructor.
  - intros Hf. inversion Hf as [|? a ? l' Ha Hl]; subst. destruct r; [|done]. injection Ha as <-.
    apply IH in Hl as ->. done.
  - destruct l as [|a l]; [done|]. intros [= -> Hl]. constructor; [done|]. by apply IH.
Qed.

Lemma fmap_Ok_inj {A E} (l l' : list A) : Ok (E := E) <$> l = Ok <$> l' -> l = l'.
Proof. apply list_fmap_eq_inj. by intros x y [= ->]. Qed.

Lemma parse_ca_certificates_Ok file l :
  parse_ca_certificates file = Ok l <-> pem_slice_iter file = Ok <$> l /\ l <> [].
Proof.
  unfold parse_ca_certificates.
  destruct (collect_results _) as [certificates|e] eqn:Hc.
  - apply collect_map_Ok in Hc. destruct certificates as [|c rest]; split; try done.
    + intros [H1 H2]. rewrite Hc in H1. destruct l; [done|discriminate].
    + intros [= <-]. done.
    + intros [H1 H2]. rewrite Hc in H1. f_equal. by apply fmap_Ok_inj in H1.
  - split; [done|]. intros [H1 _]. apply collect_map_Ok with (f := fun err => "failed to parse CA certificate PEM: " +:+ err) in H1.
    by rewrite H1 in Hc.
Qed.

Lemma add_ca_certificates_Ok roots files roots' : add_ca_certificates roots files = Ok roots' <->
  exists anchors, roots' = roots ++ mjoin anchors /\ Forall2 anchors_of files anchors.
Proof.
  revert roots; induction files as [|file rest IH]; intros roots; cbn [add_ca_certificates].
  - split; [intros [= <-]; exists []; by rewrite app_nil_r|].
    intros (anchors & -> & Hf). inversion Hf; subst. by rewrite app_nil_r.
  - destruct (parse_ca_certificates file) as [l|e] eqn:Hp.
    + apply parse_ca_certificates_Ok in Hp as [Hp Hne].
      destruct (add_certificates roots l) as [roots1|e] eqn:Ha.
      * apply add_certificates_Ok in Ha as (anchors & -> & Hf). rewrite IH. split.
        -- intros (more & -> & Hm). exists (anchors :: more). cbn. rewrite <- app_assoc. split; [done|].
           constructor; [|done]. split; [|by exists l]. intros ->. by inversion Hf; subst.
        -- intros (more & -> & Hm). inversion Hm as [|? a ? more' [Hn (l' & Hl' & Hf')] Hm']; subst.
           rewrite Hp in Hl'. apply fmap_Ok_inj in Hl' as <-. exists more'. split; [|done]. cbn.
           rewrite <- app_assoc. do 2 f_equal. clear -Hf Hf'. revert a Hf'.
           induction Hf; intros a Hf'; inversion Hf'; subst; [done|]. f_equal; [congruence|by apply IHHf].
      * split; [done|]. intros (more & _ & Hm). inversion Hm as [|? a ? ? [Hn (l' & Hl' & Hf')]]; subst.
        rewrite Hp in Hl'. apply fmap_Ok_inj in Hl' as <-.
        assert (add_certificates roots l = Ok (roots ++ a)) by (apply add_certificates_Ok; by exists a). congruence.
    + split; [done|]. intros (more & _ & Hm). inversion Hm as [|? a ? ? [Hn (l' & Hl' & Hf')]]; subst.
      assert (parse_ca_certificates file = Ok l'); [|congruence]. apply parse_ca_certificates_Ok. split; [done|].
      intros ->. by inversion Hf'; subst.
Qed.
End tls.

(** ** The client of hyper *)

Record ClientOptions := {
  max_idle_connections_per_host : Z;
  idle_timeout : f64;
  keepalive : bool;
  connect_timeout : f64;
  ca_certificates : list (list Z);
  trust_webpki_roots : bool;
  http_proxy_url : option string;
  https_proxy_url : option string;
  https_proxy_authorization : option string;
  option_ssrf_policy : option SsrfPolicy;
}.

Section client.
Context `{UrlCrate} `{UriCrate} `{HttpCrate} `{TlsCrates}.

(** [metrics] is the endpoint's object in the registry of proxies. *)
Record ProxyTunnelTarget := {
  tunnel_uri : Uri;
  tunnel_authorization : option string;
  tunnel_connect_timeout : Z;
  tunnel_metrics : loc;
}.

Definition proxy_tunnel_target_new (uri : Uri) (authorization : option string) (connect_timeout : Z) (metrics : loc) :
    result ProxyTunnelTarget string :=
  let? authorization := match authorization with
                        | Some value => let? v := authorization_parse value in Ok (Some v)
                        | None => Ok None
                        end in
  Ok {| tunnel_uri := uri; tunnel_authorization := authorization; tunnel_connect_timeout := connect_timeout;
        tunnel_metrics := metrics |}.

Record HyperClient := {
  hyper_connection_gate : ConnectionGate;
  hyper_telemetry : bool;
  resolver_enabled : bool;
  http_connect_timeout : Z;
  tunnel : option ProxyTunnelTarget;
  tls_roots : RootCertStore;
  plain_proxy : option (Uri * loc);
  connector_idle_timeout : Z;
  pool_max_idle_per_host : Z;
  pool_idle_timeout : Z;
}.

(** Building looks the proxies' endpoints up in the registry, which is shared. *)
Abbreviation building := (method world string).

Definition duration (name : string) (seconds : f64) : building Z :=
  d ← of_result (duration_from_secs name seconds); expect d.

(** [metrics.proxy_endpoint_metrics(&proxy_endpoint_name(&uri))]. *)
Definition endpoint_metrics (uri : Uri) : building loc :=
  name ← expect (proxy_endpoint_name uri); section (run_action (metrics_for name)).

(** The parts of [build_client_with_executor] for the proxies. *)
Definition build_tunnel (options : ClientOptions) (connect_timeout : Z) : building (option ProxyTunnelTarget) :=
  match https_proxy_url options with
  | Some configured_url =>
      endpoint_uri ← of_result (parse_proxy_endpoint configured_url);
      endpoint_metrics ← endpoint_metrics endpoint_uri;
      target ← of_result (proxy_tunnel_target_new endpoint_uri (https_proxy_authorization options)
                            connect_timeout endpoint_metrics);
      mret (Some target)
  | None => mret None
  end.

Definition build_plain_proxy (options : ClientOptions) : building (option (Uri * loc)) :=
  match http_proxy_url options with
  | Some configured_url =>
      endpoint_uri ← of_result (parse_proxy_endpoint configured_url);
      endpoint_metrics ← endpoint_metrics endpoint_uri;
      mret (Some (endpoint_uri, endpoint_metrics))
  | None => mret None
  end.

Definition build_client_with_executor (options : ClientOptions) (connection_gate : ConnectionGate) (telemetry : bool) :
    building HyperClient :=
  connect_timeout ← duration "Timeouts.connect" (connect_timeout options);
  idle_timeout ← duration "Limits.idle_timeout" (idle_timeout options);
  tunnel ← build_tunnel options connect_timeout;
  tls_config ← of_result (build_tls_config (ca_certificates options) (trust_webpki_roots options));
  plain_proxy ← build_plain_proxy options;
  mret {| hyper_connection_gate := connection_gate; hyper_telemetry := telemetry;
          resolver_enabled := is_some (option_ssrf_policy options); http_connect_timeout := connect_timeout;
          tunnel := tunnel; tls_roots := tls_config; plain_proxy := plain_proxy;
          connector_idle_timeout := idle_timeout;
          pool_max_idle_per_host := if keepalive options && negb (idle_timeout =? 0)
                                    then max_idle_connections_per_host options else 0;
          pool_idle_timeout := idle_timeout |}.

Definition build_client_with_connection_gate (options : ClientOptions) (connection_gate : ConnectionGate)
    (telemetry : bool) : building HyperClient :=
  build_client_with_executor options connection_gate telemetry.

(** ** The clients of a transport *)

Record TransportClients := { direct : HyperClient; proxy : option HyperClient }.

Definition transport_clients_new (direct : HyperClient) (proxy : option HyperClient) : TransportClients :=
  {| direct := direct; proxy := proxy |}.

Definition PROXY_TRANSPORT_NOT_CONFIGURED : string := "proxy transport is not configured".

Definition select (c : TransportClients) (route : TransportRoute) : result HyperClient string :=
  match route with
  | RouteDirect => Ok (direct c)
  | RouteProxy => match proxy c with Some p => Ok p | None => Err PROXY_TRANSPORT_NOT_CONFIGURED end
  end.

(** The chain of connectors, from the one of hyper to [HttpConnector]: where the last one
    connects to, with the authority a tunnel is asked for. *)
Definition dial (c : HyperClient) (uri : Uri) : result (Uri * option string) string :=
  let (uri, _) := http_proxy_target (fst <$> plain_proxy c) uri in
  match tunnel c with
  | Some t => if bool_decide (uri_scheme_str uri = Some "https"%string)
              then let? authority := tunnel_authority uri in Ok (tunnel_uri t, Some authority)
              else Ok (uri, None)
  | None => Ok (uri, None)
  end.

(** ** What is built *)

Lemma parse_proxy_endpoint_Ok url uri : parse_proxy_endpoint url = Ok uri ->
  uri_scheme_str uri = Some "http"%string /\
  exists text host port, uri_authority uri = Some (text, host, port) /\
    string_exists (fun c => Ascii.eqb c "@"%char) text = false.
Proof.
  unfold parse_proxy_endpoint. destruct (uri_from_str url) as [u|e]; [|done].
  case_bool_decide as Hs; [done|]. destruct (uri_authority u) as [[[text host] port]|] eqn:Ha; [|done].
  destruct (string_exists _ text) eqn:Ht; [done|].
  intros Hr. assert (u = uri) as <-.
  { destruct (uri_path_and_query u); [|by injection Hr]. case_match; [by injection Hr|done]. }
  split; [by destruct (decide (uri_scheme_str u = Some HTTP_PROXY_ENDPOINT_SCHEME)); [|destruct Hs]|]. by exists text, host, port.
Qed.

(** The object of an endpoint is the one its name has in the registry. *)
Definition endpoint_object (w : world) (uri : Uri) (l : loc) : Prop :=
  exists name, proxy_endpoint_name uri = Some name /\ endpoints (registry w) !! name = Some l.

Lemma endpoint_object_mono w w' uri l :
  endpoints (registry w) ⊆ endpoints (registry w') -> endpoint_object w uri l -> endpoint_object w' uri l.
Proof. intros Hw (name & Hn & Hl). exists name. split; [done|]. by eapply lookup_weaken. Qed.

Lemma endpoint_metrics_runs url uri w : parse_proxy_endpoint url = Ok uri ->
  exists l w', endpoint_metrics uri w = Some (Ok l, w') /\ endpoint_object w' uri l /\
    endpoints (registry w) ⊆ endpoints (registry w').
Proof.
  intros (_ & text & host & port & Ha & _)%parse_proxy_endpoint_Ok.
  assert (Hn : proxy_endpoint_name uri = Some ("http://" ++ text)%string) by (unfold proxy_endpoint_name; by rewrite Ha).
  unfold endpoint_metrics, endpoint_object. rewrite Hn. set (name := ("http://" ++ text)%string).
  rewrite (bind_Ok _ _ w name w) by reflexivity. unfold section, metrics_for. rewrite run_bind. cbn.
  destruct (endpoints (registry w) !! name) as [l|] eqn:Hl; cbn.
  - exists l, w. split_and!; [done|by exists name|done].
  - unfold insert_endpoint. rewrite Hl. eexists _, _. split; [reflexivity|]. cbn. split.
    + exists name. by rewrite lookup_insert_eq.
    + by apply insert_subseteq.
Qed.

Lemma duration_runs name seconds w : f64_ok seconds ->
  (exists d, duration name seconds w = Some (Ok d, w) /\ duration_from_secs name seconds = Ok (Some d) /\
     0 <= d <= MAX_NUMERIC_OPTION * NANOS_PER_SEC) \/
  (exists e, duration name seconds w = Some (Err e, w) /\ duration_from_secs name seconds = Err e).
Proof.
  intros Hok. unfold duration, of_result, mbind, method_bind.
  destruct (duration_from_secs name seconds) as [d|e] eqn:Hd; [left|right; by exists e].
  destruct (duration_from_secs_in_range _ _ _ Hok Hd) as (n & -> & Hn). by exists n.
Qed.

(** One proxy of the options and what became of it. *)
Definition endpoint_built (w : world) (url : option string) (built : option (Uri * loc)) : Prop :=
  match url, built with
  | None, None => True
  | Some url, Some (uri, l) => parse_proxy_endpoint url = Ok uri /\ endpoint_object w uri l
  | _, _ => False
  end.

Lemma endpoint_built_mono w w' url built :
  endpoints (registry w) ⊆ endpoints (registry w') -> endpoint_built w url built -> endpoint_built w' url built.
Proof.
  intros Hw. unfold endpoint_built. destruct url, built as [[uri l]|]; try done.
  intros [Hu Ho]. split; [done|]. by eapply endpoint_object_mono.
Qed.

Definition tunnel_endpoint (t : ProxyTunnelTarget) : Uri * loc := (tunnel_uri t, tunnel_metrics t).

Record configured (options : ClientOptions) (w : world) (c : HyperClient) : Prop := {
  configured_resolver : resolver_enabled c = is_some (option_ssrf_policy options);
  configured_connect : duration_from_secs "Timeouts.connect" (connect_timeout options) = Ok (Some (http_connect_timeout c));
  configured_idle : duration_from_secs "Limits.idle_timeout" (idle_timeout options) = Ok (Some (pool_idle_timeout c)) /\
    connector_idle_timeout c = pool_idle_timeout c;
  configured_pool : pool_max_idle_per_host c <> 0 ->
    keepalive options = true /\ pool_idle_timeout c <> 0 /\ pool_max_idle_per_host c = max_idle_connections_per_host options;
  configured_roots : tls_roots c <> [] /\ exists anchors, Forall2 anchors_of (ca_certificates options) anchors /\
    tls_roots c = (if trust_webpki_roots options then TLS_SERVER_ROOTS else []) ++ mjoin anchors;
  configured_plain : endpoint_built w (http_proxy_url options) (plain_proxy c);
  configured_tunnel : endpoint_built w (https_proxy_url options) (tunnel_endpoint <$> tunnel c);
  configured_tunnel_options : forall t, tunnel c = Some t ->
    tunnel_connect_timeout t = http_connect_timeout c /\ tunnel_authorization t = https_proxy_authorization options;
}.

Lemma configured_mono options w w' c :
  endpoints (registry w) ⊆ endpoints (registry w') -> configured options w c -> configured options w' c.
Proof.
  intros Hw Hc. destruct Hc. split; try done.
  - by eapply endpoint_built_mono.
  - by eapply endpoint_built_mono.
Qed.

(** Everything that building checks. *)
Record buildable (options : ClientOptions) : Prop := {
  buildable_connect : is_ok (duration_from_secs "Timeouts.connect" (connect_timeout options)) = true;
  buildable_idle : is_ok (duration_from_secs "Limits.idle_timeout" (idle_timeout options)) = true;
  buildable_tunnel : forall url, https_proxy_url options = Some url -> is_ok (parse_proxy_endpoint url) = true /\
    forall value, https_proxy_authorization options = Some value -> is_ok (authorization_parse value) = true;
  buildable_tls : is_ok (build_tls_config (ca_certificates options) (trust_webpki_roots options)) = true;
  buildable_plain : forall url, http_proxy_url options = Some url -> is_ok (parse_proxy_endpoint url) = true;
}.

Lemma authorization_parse_same value v : authorization_parse value = Ok v -> v = value.
Proof. unfold authorization_parse. repeat case_match; by intros [= <-]. Qed.

Lemma tunnel_target_new uri authorization timeout l :
  match proxy_tunnel_target_new uri authorization timeout l with
  | Ok t => t = {| tunnel_uri := uri; tunnel_authorization := authorization; tunnel_connect_timeout := timeout; tunnel_metrics := l |} /\
            forall value, authorization = Some value -> is_ok (authorization_parse value) = true
  | Err _ => exists value, authorization = Some value /\ is_ok (authorization_parse value) = false
  end.
Proof.
  unfold proxy_tunnel_target_new. destruct authorization as [value|]; [|done].
  destruct (authorization_parse value) as [v|e] eqn:Hv.
  - split; [by rewrite (authorization_parse_same _ _ Hv)|]. intros ? [= <-]. by rewrite Hv.
  - exists value. by rewrite Hv.
Qed.

Lemma build_tls_config_Ok files webpki roots : build_tls_config files webpki = Ok roots ->
  roots <> [] /\ exists anchors, Forall2 anchors_of files anchors /\
    roots = (if webpki then TLS_SERVER_ROOTS else []) ++ mjoin anchors.
Proof.
  unfold build_tls_config, webpki_root_store. rewrite app_nil_l.
  destruct (add_ca_certificates _ files) as [roots'|e] eqn:Ha; [|done].
  apply add_ca_certificates_Ok in Ha as (anchors & -> & Hf).
  destruct (_ ++ mjoin anchors) as [|a l] eqn:Hr; [done|]. destruct safe_default_protocol_versions; [|done].
  cbn [map_err]. intros [= <-]. split; [done|]. by exists anchors.
Qed.



(** Each part of building runs, and fails only for an option that is not valid. *)
Lemma build_tunnel_runs options connect_timeout w : exists r w', build_tunnel options connect_timeout w = Some (r, w') /\
  endpoints (registry w) ⊆ endpoints (registry w') /\
  match r with
  | Ok t => (forall url, https_proxy_url options = Some url -> is_ok (parse_proxy_endpoint url) = true /\
               forall value, https_proxy_authorization options = Some value -> is_ok (authorization_parse value) = true) /\
            endpoint_built w' (https_proxy_url options) (tunnel_endpoint <$> t) /\
            forall t', t = Some t' -> tunnel_connect_timeout t' = connect_timeout /\
              tunnel_authorization t' = https_proxy_authorization options
  | Err _ => exists url, https_proxy_url options = Some url /\ (is_ok (parse_proxy_endpoint url) = false \/
               exists value, https_proxy_authorization options = Some value /\ is_ok (authorization_parse value) = false)
  end.
Proof.
  unfold build_tunnel. destruct (https_proxy_url options) as [url|]; [|exists (Ok None), w; split_and!; done].
  destruct (parse_proxy_endpoint url) as [uri|e] eqn:Hu.
  2:{ exists (Err e), w. split_and!; [done|done|]. exists url. rewrite Hu. auto. }
  destruct (endpoint_metrics_runs _ _ w Hu) as (l & w' & Hl & Ho & Hw).
  erewrite bind_Ok by reflexivity. erewrite bind_Ok by exact Hl.
  pose proof (tunnel_target_new uri (https_proxy_authorization options) connect_timeout l) as Ht.
  destruct (proxy_tunnel_target_new _ _ _ _) as [t|e].
  - destruct Ht as [-> Hv]. eexists _, w'. split; [reflexivity|]. split; [done|]. split_and!.
    + intros ? [= <-]. by rewrite Hu.
    + done.
    + by intros ? [= <-].
  - exists (Err e), w'. split_and!; [done|done|]. exists url. auto.
Qed.

Lemma build_plain_proxy_runs options w : exists r w', build_plain_proxy options w = Some (r, w') /\
  endpoints (registry w) ⊆ endpoints (registry w') /\
  match r with
  | Ok p => (forall url, http_proxy_url options = Some url -> is_ok (parse_proxy_endpoint url) = true) /\
            endpoint_built w' (http_proxy_url options) p
  | Err _ => exists url, http_proxy_url options = Some url /\ is_ok (parse_proxy_endpoint url) = false
  end.
Proof.
  unfold build_plain_proxy. destruct (http_proxy_url options) as [url|]; [|exists (Ok None), w; split_and!; done].
  destruct (parse_proxy_endpoint url) as [uri|e] eqn:Hu.
  2:{ exists (Err e), w. split_and!; [done|done|]. exists url. by rewrite Hu. }
  destruct (endpoint_metrics_runs _ _ w Hu) as (l & w' & Hl & Ho & Hw).
  erewrite bind_Ok by reflexivity. erewrite bind_Ok by exact Hl.
  eexists _, w'. split; [reflexivity|]. split; [done|]. split; [|done]. intros ? [= <-]. by rewrite Hu.
Qed.

Lemma built_as_configured options gate telemetry w :
  f64_ok (connect_timeout options) -> f64_ok (idle_timeout options) ->
  exists r w', build_client_with_connection_gate options gate telemetry w = Some (r, w') /\
    endpoints (registry w) ⊆ endpoints (registry w') /\
    match r with
    | Ok c => buildable options /\ configured options w' c /\ hyper_connection_gate c = gate /\ hyper_telemetry c = telemetry
    | Err _ => ~ buildable options
    end.
Proof.
  intros Hc Hi. unfold build_client_with_connection_gate, build_client_with_executor.
  destruct (duration_runs "Timeouts.connect" (connect_timeout options) w Hc) as [(connect & Hrun & Hconnect & Hcb)|(e & Hrun & Hconnect)];
    [erewrite bind_Ok by exact Hrun|erewrite bind_Err by exact Hrun; exists (Err e), w; split_and!; [done|done|]].
  2:{ intros Hb. pose proof (buildable_connect _ Hb) as Hd. by rewrite Hconnect in Hd. }
  destruct (duration_runs "Limits.idle_timeout" (idle_timeout options) w Hi) as [(idle & Hrun' & Hidle & Hib)|(e & Hrun' & Hidle)];
    [erewrite bind_Ok by exact Hrun'|erewrite bind_Err by exact Hrun'; exists (Err e), w; split_and!; [done|done|]].
  2:{ intros Hb. pose proof (buildable_idle _ Hb) as Hd. by rewrite Hidle in Hd. }
  destruct (build_tunnel_runs options connect w) as ([t|e] & w1 & Ht & Hw1 & Htunnel);
    [erewrite bind_Ok by exact Ht|erewrite bind_Err by exact Ht; exists (Err e), w1; split_and!; [done|done|]].
  2:{ intros Hb. destruct Htunnel as (url & Hu & Hbad). destruct (buildable_tunnel _ Hb _ Hu) as [Hp Hv].
      destruct Hbad as [Hbad|(value & Hval & Hbad)]; [congruence|]. by rewrite (Hv _ Hval) in Hbad. }
  destruct (build_tls_config (ca_certificates options) (trust_webpki_roots options)) as [roots|e] eqn:Htls;
    [erewrite bind_Ok by reflexivity|erewrite bind_Err by reflexivity; exists (Err e), w1; split_and!; [done|done|]].
  2:{ intros Hb. pose proof (buildable_tls _ Hb) as Hd. by rewrite Htls in Hd. }
  destruct (build_plain_proxy_runs options w1) as ([p|e] & w2 & Hp & Hw2 & Hplain);
    [erewrite bind_Ok by exact Hp|erewrite bind_Err by exact Hp; exists (Err e), w2; split_and!; [done|by etrans|]].
  2:{ intros Hb. destruct Hplain as (url & Hu & Hbad). by rewrite (buildable_plain _ Hb _ Hu) in Hbad. }
  eexists _, w2. split; [reflexivity|]. split; [by etrans|].
  destruct Htunnel as (Hvalid & Hbuilt & Hopts), Hplain as [Hvalid' Hbuilt'].
  split; [|split; [|done]]; split; cbn; try done; try (by rewrite ?Hconnect, ?Hidle, ?Htls).
  - intros Hpool. destruct (keepalive options); [|done]. destruct (Z.eqb_spec idle 0); done.
  - by apply build_tls_config_Ok.
  - by eapply endpoint_built_mono.
Qed.

(** For any options, building a client never panics; it succeeds exactly when every
    option is valid, and then the client is the one the options describe: its resolver
    checks addresses exactly when there is an SSRF policy, its trust store is the chosen
    roots with every certificate given and never empty, idle connections are kept only
    with keep-alive and a positive idle timeout, and each proxy is the configured endpoint,
    counted under its own name in the shared registry. *)
Theorem client_built_as_configured options gate telemetry w :
  f64_ok (connect_timeout options) -> f64_ok (idle_timeout options) ->
  exists r w', build_client_with_connection_gate options gate telemetry w = Some (r, w') /\
    endpoints (registry w) ⊆ endpoints (registry w') /\
    match r with
    | Ok c => buildable options /\ configured options w' c /\ hyper_connection_gate c = gate /\ hyper_telemetry c = telemetry
    | Err _ => ~ buildable options
    end.
Proof. apply built_as_configured. Qed.

(** Where a connection goes, by the scheme of its URI: an https request reaches a proxy only
    through a tunnel, a plain one only as a request to the proxy; without a proxy for its
    scheme, and for the direct client, it goes to the URI itself. *)
Lemma dial_by_scheme options w c uri : configured options w c ->
  dial c uri =
    if bool_decide (uri_scheme_str uri = Some "https"%string) then
      match tunnel c with
      | Some t => let? authority := tunnel_authority uri in Ok (tunnel_uri t, Some authority)
      | None => Ok (uri, None)
      end
    else if bool_decide (uri_scheme_str uri = Some "http"%string)
         then Ok (default uri (fst <$> plain_proxy c), None) else Ok (uri, None).
Proof.
  intros Hc. unfold dial, http_proxy_target.
  assert (Hp : forall p, fst <$> plain_proxy c = Some p -> uri_scheme_str p = Some "http"%string).
  { intros p Hp. pose proof (configured_plain _ _ _ Hc) as Hb. unfold endpoint_built in Hb.
    destruct (plain_proxy c) as [[p' l]|]; [|done]. injection Hp as ->.
    destruct (http_proxy_url options); [|done]. destruct Hb as [Hb _]. by apply parse_proxy_endpoint_Ok in Hb as [-> _]. }
  destruct (fst <$> plain_proxy c) as [p|]; cbn [default].
  - specialize (Hp _ eq_refl). case_bool_decide as Hs.
    + rewrite Hs, Hp. rewrite !(bool_decide_false (Some "http"%string = Some "https"%string)) by done. by destruct (tunnel c).
    + by case_bool_decide; destruct (tunnel c).
  - by repeat case_bool_decide; destruct (tunnel c).
Qed.

Lemma dial_direct options w c uri : configured options w c ->
  http_proxy_url options = None -> https_proxy_url options = None -> dial c uri = Ok (uri, None).
Proof.
  intros Hc Hh Ht. rewrite (dial_by_scheme _ _ _ _ Hc).
  pose proof (configured_plain _ _ _ Hc) as Hp. pose proof (configured_tunnel _ _ _ Hc) as Hq. rewrite Hh in Hp. rewrite Ht in Hq.
  destruct (plain_proxy c); [done|]. destruct (tunnel c); [done|]. by repeat case_bool_decide.
Qed.
End client.

(** ** A sample *)

(** URIs are "http://" and their authority; a PEM file is one certificate, its own anchor. *)
Definition plain_uri_crate : UriCrate := {|
  Uri := string;
  uri_from_str s := Ok s;
  uri_scheme_str s := if bool_decide (String.prefix "http://" s = true) then Some "http"%string else None;
  uri_authority s := match strip_prefix "http://" s with Some host => Some (host, host, None) | None => None end;
  uri_path_and_query _ := None;
|}.

Definition plain_tls_crates : TlsCrates := {|
  Certificate := list Z;
  TrustAnchor := list Z;
  pem_slice_iter s := match s with [] => [] | _ => [Ok s] end;
  trust_anchor c := Ok c;
  TLS_SERVER_ROOTS := [[1]];
  safe_default_protocol_versions := Ok tt;
|}.

Definition sample_options : ClientOptions :=
  {| max_idle_connections_per_host := 4; idle_timeout := f64_of_Z 90; keepalive := true; connect_timeout := f64_of_Z 5;
     ca_certificates := [[7; 8]]; trust_webpki_roots := false; http_proxy_url := Some "http://proxy"%string;
     https_proxy_url := Some "http://proxy"%string; https_proxy_authorization := Some "Basic dTpw"%string;
     option_ssrf_policy := None |}.

Definition sample_gate : ConnectionGate := {| ConnectionLimit.max_connections := Some 8; ConnectionLimit.max_connections_per_host := None |}.

Definition sample_registry : world := World {| registry_started_at := 0; endpoints := ∅ |} ∅.

Lemma client_built_as_configured_witness :
  exists c w', @build_client_with_connection_gate plain_uri_crate pair_http_crate plain_tls_crates sample_options sample_gate true sample_registry
                 = Some (Ok c, w') /\
    tls_roots c = [[7; 8]] /\ plain_proxy c = Some ("http://proxy"%string, 1%positive) /\ pool_max_idle_per_host c = 4.
Proof.
  destruct (@client_built_as_configured plain_uri_crate pair_http_crate plain_tls_crates sample_options sample_gate true sample_registry)
    as ([c|e] & w' & Hr & _ & Hc); [vm_compute; reflexivity|vm_compute; reflexivity| |].
  - exists c, w'. split; [exact Hr|].
    assert (Hc' : Some (Ok c : result _ string, w') = Some (Ok c, w')) by reflexivity. rewrite <- Hr in Hc' at 1.
    vm_compute in Hc'. injection Hc' as <- _. split_and!; reflexivity.
  - exfalso. vm_compute in Hr. discriminate Hr.
Defined.
