(* ===== verification/Runtime.v ===== *)
(** * Processes, runtimes and the options of a client

    [src/src/py/client/process.rs], [src/src/py/client/runtime] and
    [src/src/py/client/options.rs]: which runtime a client runs on, how many workers it
    gets, what becomes of it when the client is closed or its process forks, and the
    validation of the options.

    A [Process] has the runtimes it knows, by their index, and the attribute of the Python
    module that keeps the shared one.  A fork copies it under another id; the threads of a
    runtime exist in the process that started it only, which [started_in] records.  An
    [Arc] of a runtime is counted in [handles]; one that is forgotten is never given back. *)

From stdpp Require Import pretty.
From S2P Require Import Prelude RustStr Numeric Policy Sync Errors Method.

Local Open Scope Z_scope.

(** ** Processes *)

Definition ProcessId : Type := Z.

Definition resource_used_after_fork (resource : string) (created_process_id current_process_id : ProcessId) : PyErr :=
  new_err FogHttpLifecycleError
    ("FogHTTP " +:+ resource +:+ " was created in process " +:+ pretty created_process_id +:+
     " and cannot be used in forked process " +:+ pretty current_process_id +:+ "; create a new client after fork").

Definition client_used_after_fork : ProcessId -> ProcessId -> PyErr := resource_used_after_fork "client".
Definition stream_response_used_after_fork : ProcessId -> ProcessId -> PyErr := resource_used_after_fork "stream response".

(** [started_in] is the number of forks before the start. *)
Record Runtime := { worker_threads : Z; started_in : nat; handles : Z; shut_down : bool }.
#[export] Instance eta_Runtime : Eta Runtime := fun r =>
  Build_Runtime (worker_threads r) (started_in r) (handles r) (shut_down r).

Record SharedRuntimeState := { state_process_id : ProcessId; state_runtime : option nat }.

(** [ForeignAttribute]: an object of another class, with the error of the cast. *)
Inductive ModuleAttribute := NoAttribute | StateAttribute (s : SharedRuntimeState) | ForeignAttribute (e : PyErr).

(** [ancestors] are the processes this one was forked from, the oldest first. *)
Record Process := {
  process_id : ProcessId;
  ancestors : list ProcessId;
  runtimes : list Runtime;
  module_attribute : ModuleAttribute;
}.
#[export] Instance eta_Process : Eta Process := fun p =>
  Build_Process (process_id p) (ancestors p) (runtimes p) (module_attribute p).

Definition fork (pid : ProcessId) (p : Process) : Process :=
  p <| ancestors ::= fun l => l ++ [process_id p] |> <| process_id := pid |>.

(** ** Worker threads *)

Definition DEFAULT_RUNTIME_WORKER_CAP : Z := 16.
Definition MAX_RUNTIME_WORKERS : Z := 32.
Definition RUNTIME_WORKERS_ENV : string := "FOGHTTP_RUNTIME_WORKERS".
Definition RUNTIME_WORKERS_OPTION : string := "runtime_workers".
Definition SHARED_RUNTIME_WORKER_FALLBACK : Z := 4.
Definition RUNTIME_INVALID : string := "runtime must be 'shared' or 'dedicated'".
Definition RUNTIME_WORKERS_SHARED_UNSUPPORTED : string := "runtime_workers requires runtime='dedicated'".

(** [usize::clamp]. *)
Definition clamp (low high x : Z) : Z := if x <? low then low else if high <? x then high else x.

Definition runtime_workers_error (source : string) : string :=
  source +:+ " must be an integer between 1 and " +:+ pretty MAX_RUNTIME_WORKERS.

Definition validate_runtime_workers (source : string) (workers : Z) : result Z string :=
  if (1 <=? workers) && (workers <=? MAX_RUNTIME_WORKERS) then Ok workers else Err (runtime_workers_error source).

Definition resolve_runtime_workers (max_active_requests : Z) (explicit_workers : option Z) (env_workers : option string) :
    result Z string :=
  match explicit_workers with
  | Some workers => validate_runtime_workers RUNTIME_WORKERS_OPTION workers
  | None =>
      match env_workers with
      | Some value =>
          match parse_u64 value with
          | Some workers => validate_runtime_workers RUNTIME_WORKERS_ENV workers
          | None => Err (runtime_workers_error RUNTIME_WORKERS_ENV)
          end
      | None => Ok (clamp 1 DEFAULT_RUNTIME_WORKER_CAP max_active_requests)
      end
  end.

(** [variable] is [env::var]: [None] when not present, an error when not Unicode. *)
Definition runtime_workers (max_active_requests : Z) (explicit_workers : option Z) (variable : result (option string) string) :
    result Z PyErr :=
  match explicit_workers with
  | Some workers => map_err (new_err FogHttpError) (validate_runtime_workers RUNTIME_WORKERS_OPTION workers)
  | None =>
      match variable with
      | Ok value => map_err (new_err FogHttpError) (resolve_runtime_workers max_active_requests None value)
      | Err err => Err (new_err FogHttpError err)
      end
  end.

Definition shared_runtime_workers_from_parallelism (parallelism : option Z) : Z :=
  clamp 1 DEFAULT_RUNTIME_WORKER_CAP (default SHARED_RUNTIME_WORKER_FALLBACK parallelism).

(** ** Runtimes *)

(** What tokio, the operating system and the interpreter answer. *)
Record RuntimeEnv := {
  runtime_started : result unit string;
  available_parallelism : option Z;
  workers_variable : result (option string) string;
  module_imported : result unit PyErr;
  (** an exception of [getattr] other than [AttributeError] *)
  getattr_error : option PyErr;
  state_created : result unit PyErr;
  attribute_set : result unit PyErr;
}.

Section runtimes.
Context (env : RuntimeEnv).

(** [Builder::worker_threads] panics on zero. *)
Definition build_multi_thread_runtime (workers : Z) : method Process PyErr nat :=
  if workers =? 0 then panic
  else
    _ ← of_result (map_err (new_err FogHttpError) (runtime_started env));
    section (fun p => (length (runtimes p),
      p <| runtimes ::= fun l => l ++ [{| worker_threads := workers; started_in := length (ancestors p); handles := 1;
                                          shut_down := false |}] |>)).

Definition clone_handle (i : nat) (p : Process) : Process :=
  p <| runtimes ::= alter (fun r => r <| handles ::= fun n => n + 1 |>) i |>.

(** The last handle drops the runtime. *)
Definition drop_handle (i : nat) (p : Process) : Process :=
  p <| runtimes ::= alter (fun r => r <| handles ::= fun n => n - 1 |>) i |>.

Definition build_dedicated_runtime (max_active_requests : Z) (explicit_workers : option Z) : method Process PyErr nat :=
  workers ← of_result (runtime_workers max_active_requests explicit_workers (workers_variable env));
  build_multi_thread_runtime workers.

Definition shared_runtime_workers : Z := shared_runtime_workers_from_parallelism (available_parallelism env).

Definition build_shared_runtime : method Process PyErr nat := build_multi_thread_runtime shared_runtime_workers.

(** [module.getattr]. *)
Definition getattr : method Process PyErr ModuleAttribute :=
  match getattr_error env with Some e => raise e | None => gets module_attribute end.

Definition create_shared_runtime : method Process PyErr nat :=
  runtime ← build_shared_runtime;
  _ ← modify (clone_handle runtime);
  on_error
    (_ ← of_result (state_created env);
     _ ← of_result (attribute_set env);
     section (fun p =>
       (runtime,
        p <| module_attribute := StateAttribute {| state_process_id := process_id p; state_runtime := Some runtime |} |>)))
    (drop_handle runtime).

(** The state's [Drop] forgets its handle, as the replacement after a fork does. *)
Definition shared_runtime : method Process PyErr nat :=
  process_id ← gets process_id;
  _ ← of_result (module_imported env);
  attribute ← getattr;
  match attribute with
  | StateAttribute state =>
      if state_process_id state =? process_id then
        match state_runtime state with
        | Some runtime => _ ← modify (clone_handle runtime); mret runtime
        | None => raise (new_err FogHttpError "shared runtime state is empty")
        end
      else
        runtime ← build_shared_runtime;
        _ ← modify (clone_handle runtime);
        _ ← modify (fun p => p <| module_attribute :=
                       StateAttribute {| state_process_id := process_id; state_runtime := Some runtime |} |>);
        mret runtime
  | ForeignAttribute e => raise e
  | NoAttribute => create_shared_runtime
  end.

Inductive ClientRuntime := SharedRuntime (i : nat) | DedicatedRuntime (i : nat).
Inductive RuntimeMode := ModeShared | ModeDedicated.

Definition parse_runtime_mode (value : string) : result RuntimeMode PyErr :=
  if String.eqb value "shared" then Ok ModeShared
  else if String.eqb value "dedicated" then Ok ModeDedicated
  else Err (new_err FogHttpError RUNTIME_INVALID).

(** [ClientRuntime::build]. *)
Definition client_runtime_build (max_active_requests : Z) (mode : RuntimeMode) (explicit_workers : option Z) :
    method Process PyErr ClientRuntime :=
  match mode with
  | ModeShared =>
      match explicit_workers with
      | Some _ => raise (new_err FogHttpError RUNTIME_WORKERS_SHARED_UNSUPPORTED)
      | None => i ← shared_runtime; mret (SharedRuntime i)
      end
  | ModeDedicated => i ← build_dedicated_runtime max_active_requests explicit_workers; mret (DedicatedRuntime i)
  end.

(** [ClientRuntime::runtime]. *)
Definition runtime_of (r : ClientRuntime) : nat := match r with SharedRuntime i | DedicatedRuntime i => i end.

(** [Runtime::shutdown_background] consumes the runtime; a shared one is a handle, dropped. *)
Definition shutdown_background (r : ClientRuntime) (p : Process) : Process :=
  match r with
  | DedicatedRuntime i =>
      p <| runtimes ::= alter (fun r => r <| handles ::= fun n => n - 1 |> <| shut_down := true |>) i |>
  | SharedRuntime i => drop_handle i p
  end.

Definition abandon_without_shutdown (r : ClientRuntime) (p : Process) : Process := p.

(** The [Drop] of a value that was never given to a client. *)
Definition drop_client_runtime (r : ClientRuntime) : Process -> Process := drop_handle (runtime_of r).
End runtimes.

(** ** Options *)

(** A Python object, as far as the extraction of a limit looks at it. *)
Inductive PyValue := PyNone | PyBool (b : bool) | PyInt (z : Z) | PyObject.

Definition extract_stream_decode_content (value : PyValue) : result bool PyErr :=
  match value with PyBool b => Ok b | _ => Err (new_err PyTypeError "decode_content must be a bool") end.

Definition extract_byte_limit (name : string) (value : PyValue) : result Z PyErr :=
  let invalid := new_err PyValueError (integer_error name) in
  match value with
  | PyInt z =>
      if (0 <=? z) && (z <=? USIZE_MAX) then map_err (new_err PyValueError) (validate_usize_option name z)
      else Err invalid
  | _ => Err invalid
  end.

Definition extract_stream_decoded_byte_limit (value : PyValue) : result (option Z) PyErr :=
  match value with
  | PyNone => Ok None
  | _ => let? limit := extract_byte_limit "Limits.max_stream_decoded_bytes" value in Ok (Some limit)
  end.

Definition extract_stream_decoder_memory_limit : PyValue -> result Z PyErr :=
  extract_byte_limit "Limits.max_stream_decoder_memory_bytes".

Record NumericClientOptions := {
  numeric_max_active_requests : Z;
  numeric_max_active_requests_per_origin : option Z;
  numeric_max_connections : option Z;
  numeric_max_connections_per_host : option Z;
  numeric_max_idle_connections_per_host : Z;
  numeric_max_pending_requests : Z;
  numeric_max_response_body_size : option Z;
  numeric_max_buffered_response_bytes : option Z;
  numeric_idle_timeout : f64;
  numeric_connect_timeout : f64;
}.

(** A validation whose value is not used; a conversion of seconds may panic. *)
Definition checked {S A} (r : result A string) : method S PyErr unit :=
  _ ← of_result (map_err (new_err PyValueError) r); mret tt.
Definition checked_duration {S} (name : string) (seconds : f64) : method S PyErr unit :=
  d ← of_result (map_err (new_err PyValueError) (duration_from_secs name seconds)); _ ← expect d; mret tt.

Definition validate_numeric_client_options {S} (options : NumericClientOptions) : method S PyErr unit :=
  _ ← checked (validate_usize_option "Limits.max_active_requests" (numeric_max_active_requests options));
  _ ← checked (validate_optional_usize_option "Limits.max_active_requests_per_origin"
                 (numeric_max_active_requests_per_origin options));
  _ ← checked (validate_optional_usize_option "Limits.max_connections" (numeric_max_connections options));
  _ ← checked (validate_optional_usize_option "Limits.max_connections_per_host" (numeric_max_connections_per_host options));
  _ ← checked (validate_usize_option "Limits.max_idle_connections_per_host" (numeric_max_idle_connections_per_host options));
  _ ← checked (validate_usize_option "Limits.max_pending_requests" (numeric_max_pending_requests options));
  _ ← checked (validate_optional_usize_option "Limits.max_response_body_size" (numeric_max_response_body_size options));
  _ ← checked (validate_optional_usize_option "Limits.max_buffered_response_bytes"
                 (numeric_max_buffered_response_bytes options));
  _ ← checked_duration "Limits.idle_timeout" (numeric_idle_timeout options);
  _ ← checked_duration "Timeouts.connect" (numeric_connect_timeout options);
  mret tt.

Definition validate_request_timeouts {S} (pool_timeout read_timeout write_timeout total_timeout : f64) : method S PyErr unit :=
  _ ← checked_duration "Timeouts.pool" pool_timeout;
  _ ← checked_duration "Timeouts.read" read_timeout;
  _ ← checked_duration "Timeouts.write" write_timeout;
  _ ← checked_duration "Timeouts.total" total_timeout;
  mret tt.

(** ** Validated options *)

Lemma checked_bind {S A B} (r : result A string) (k : unit -> method S PyErr B) (Q : result B PyErr -> Prop) s :
  (forall e, Q (Err e)) -> (is_ok r = true -> exists r', k tt s = Some (r', s) /\ Q r') ->
  exists r', (checked r ≫= k) s = Some (r', s) /\ Q r'.
Proof.
  intros He Hk. unfold checked, of_result, mbind, method_bind. destruct r as [a|e]; [by apply Hk|].
  eexists. split; [reflexivity|]. apply He.
Qed.

Lemma checked_duration_bind {S B} name seconds (k : unit -> method S PyErr B) (Q : result B PyErr -> Prop) s :
  f64_ok seconds -> (forall e, Q (Err e)) ->
  (is_ok (duration_from_secs name seconds) = true -> exists r', k tt s = Some (r', s) /\ Q r') ->
  exists r', (checked_duration name seconds ≫= k) s = Some (r', s) /\ Q r'.
Proof.
  intros Hok He Hk. unfold checked_duration, of_result, mbind, method_bind.
  destruct (duration_from_secs name seconds) as [d|e] eqn:Hd; [|eexists; split; [reflexivity|apply He]].
  destruct (duration_from_secs_in_range _ _ _ Hok Hd) as (n & -> & _). by apply Hk.
Qed.

Definition within_limit (z : Z) : Prop := z <= MAX_NUMERIC_OPTION.
Definition optional_within_limit (z : option Z) : Prop := forall v, z = Some v -> within_limit v.

Lemma usize_option_within name v : is_ok (validate_usize_option name v) = true -> within_limit v.
Proof. unfold validate_usize_option, within_limit. by destruct (Z.leb_spec v MAX_NUMERIC_OPTION). Qed.

Lemma optional_option_within name v : is_ok (validate_optional_usize_option name v) = true -> optional_within_limit v.
Proof.
  unfold validate_optional_usize_option, optional_within_limit. destruct v as [v|]; [|done]. intros Hok v' [= <-].
  apply (usize_option_within name). by destruct (validate_usize_option name v).
Qed.

(** What the validation of the options ensures. *)
Record numeric_valid (o : NumericClientOptions) : Prop := {
  valid_active : within_limit (numeric_max_active_requests o);
  valid_active_per_origin : optional_within_limit (numeric_max_active_requests_per_origin o);
  valid_connections : optional_within_limit (numeric_max_connections o);
  valid_connections_per_host : optional_within_limit (numeric_max_connections_per_host o);
  valid_idle : within_limit (numeric_max_idle_connections_per_host o);
  valid_pending : within_limit (numeric_max_pending_requests o);
  valid_body : optional_within_limit (numeric_max_response_body_size o);
  valid_buffered : optional_within_limit (numeric_max_buffered_response_bytes o);
  valid_idle_timeout : is_ok (duration_from_secs "Limits.idle_timeout" (numeric_idle_timeout o)) = true;
  valid_connect_timeout : is_ok (duration_from_secs "Timeouts.connect" (numeric_connect_timeout o)) = true;
}.

Lemma validate_numeric_run {S} o (s : S) : f64_ok (numeric_idle_timeout o) -> f64_ok (numeric_connect_timeout o) ->
  exists r, validate_numeric_client_options o s = Some (r, s) /\ (r = Ok tt -> numeric_valid o).
Proof.
  intros Hi Hc. unfold validate_numeric_client_options.
  do 8 (apply checked_bind; [done|intros ?]). do 2 (apply checked_duration_bind; [done|done|intros ?]).
  eexists. split; [reflexivity|]. intros _. split; try done;
    first [by eapply usize_option_within|by eapply optional_option_within].
Qed.

(** What a request needs of its timeouts. *)
Definition timeouts_valid (pool_timeout read_timeout write_timeout total_timeout : f64) : Prop :=
  is_ok (duration_from_secs "Timeouts.pool" pool_timeout) = true /\ is_ok (duration_from_secs "Timeouts.read" read_timeout) = true /\
  is_ok (duration_from_secs "Timeouts.write" write_timeout) = true /\ is_ok (duration_from_secs "Timeouts.total" total_timeout) = true.

Lemma validate_timeouts_run {S} a b c d (s : S) : f64_ok a -> f64_ok b -> f64_ok c -> f64_ok d ->
  exists r, validate_request_timeouts a b c d s = Some (r, s) /\ (r = Ok tt -> timeouts_valid a b c d).
Proof.
  intros Ha Hb Hc Hd. unfold validate_request_timeouts. do 4 (apply checked_duration_bind; [done|done|intros ?]).
  eexists. split; [reflexivity|]. by intros _.
Qed.

(** ** Workers *)

Lemma clamp_range low high x : low <= high -> low <= clamp low high x <= high.
Proof. intros H. unfold clamp. repeat case_match; rewrite ?Z.ltb_lt, ?Z.ltb_ge in *; lia. Qed.

Lemma validate_workers_Ok source n w : validate_runtime_workers source n = Ok w <-> w = n /\ 1 <= n <= MAX_RUNTIME_WORKERS.
Proof.
  unfold validate_runtime_workers. destruct (Z.leb_spec 1 n), (Z.leb_spec n MAX_RUNTIME_WORKERS); cbn [andb];
    split; intros; simplify_eq; try done; destruct_and?; subst; try done; lia.
Qed.

(** The number of workers: an explicit number, else the variable, each within its bounds;
    else the limit of active requests, clamped. *)
Lemma runtime_workers_Ok limit explicit_workers variable w : runtime_workers limit explicit_workers variable = Ok w <->
  match explicit_workers with
  | Some n => w = n /\ 1 <= n <= MAX_RUNTIME_WORKERS
  | None =>
      match variable with
      | Ok (Some value) => exists n, parse_u64 value = Some n /\ w = n /\ 1 <= n <= MAX_RUNTIME_WORKERS
      | Ok None => w = clamp 1 DEFAULT_RUNTIME_WORKER_CAP limit
      | Err _ => False
      end
  end.
Proof.
  assert (Hv : forall source n, map_err (new_err FogHttpError) (validate_runtime_workers source n) = Ok w <-> w = n /\ 1 <= n <= MAX_RUNTIME_WORKERS).
  { intros source n. rewrite <- (validate_workers_Ok source). destruct (validate_runtime_workers source n); cbn; split; congruence. }
  unfold runtime_workers, resolve_runtime_workers.
  destruct explicit_workers as [n|]; [apply Hv|]. destruct variable as [[value|]|err]; [| |done].
  - destruct (parse_u64 value) as [n|]; [rewrite Hv; naive_solver|]. cbn. naive_solver.
  - cbn. naive_solver.
Qed.

Lemma runtime_workers_range limit explicit_workers variable w :
  runtime_workers limit explicit_workers variable = Ok w -> 1 <= w <= MAX_RUNTIME_WORKERS.
Proof.
  rewrite runtime_workers_Ok. destruct explicit_workers; [intros [-> ?]; done|]. destruct variable as [[value|]|e]; [|intros ->|done].
  - intros (n & _ & -> & Hn). done.
  - pose proof (clamp_range 1 DEFAULT_RUNTIME_WORKER_CAP limit). unfold DEFAULT_RUNTIME_WORKER_CAP, MAX_RUNTIME_WORKERS in *. lia.
Qed.

Lemma shared_workers_range parallelism : 1 <= shared_runtime_workers_from_parallelism parallelism <= DEFAULT_RUNTIME_WORKER_CAP.
Proof. apply clamp_range. done. Qed.

(** ** Who owns a runtime

    [owners] are the values of type [ClientRuntime] that are alive, with the process that
    created each. *)

Definition b2z (b : bool) : Z := if b then 1 else 0.
Definition Owner : Type := ProcessId * ClientRuntime.

Definition owner_refs (i : nat) (owners : list Owner) : Z :=
  sum_over (fun o => b2z (bool_decide (runtime_of (snd o) = i))) owners.

Definition attribute_refs (i : nat) (a : ModuleAttribute) : Z :=
  match a with StateAttribute s => b2z (bool_decide (state_runtime s = Some i)) | _ => 0 end.

(** The process a runtime was started in. *)
Definition started_by (p : Process) (r : Runtime) (pid : ProcessId) : Prop :=
  (ancestors p ++ [process_id p]) !! started_in r = Some pid.

Record runtimes_ok (p : Process) (owners : list Owner) : Prop := {
  ok_processes : NoDup (ancestors p ++ [process_id p]);
  ok_runtime i r : runtimes p !! i = Some r ->
    1 <= worker_threads r <= MAX_RUNTIME_WORKERS /\ (shut_down r = true -> handles r = 0) /\
    attribute_refs i (module_attribute p) + owner_refs i owners <= handles r;
  ok_owner pid cr : (pid, cr) ∈ owners -> exists r, runtimes p !! runtime_of cr = Some r /\ started_by p r pid /\
    (cr = DedicatedRuntime (runtime_of cr) -> handles r = 1);
  ok_attribute s : module_attribute p = StateAttribute s -> exists i r, state_runtime s = Some i /\
    runtimes p !! i = Some r /\ started_by p r (state_process_id s);
}.

Lemma owner_refs_nonneg i owners : 0 <= owner_refs i owners.
Proof. apply sum_over_nonneg. intros t. unfold b2z. case_match; lia. Qed.

Lemma attribute_refs_nonneg i a : 0 <= attribute_refs i a.
Proof. unfold attribute_refs, b2z. repeat case_match; lia. Qed.

Lemma owner_refs_cons i o owners :
  owner_refs i (o :: owners) = (if decide (runtime_of (snd o) = i) then 1 else 0) + owner_refs i owners.
Proof. unfold owner_refs. cbn [sum_over]. f_equal. unfold b2z. rewrite <- decide_bool_decide. by case_decide. Qed.

Lemma owner_refs_elem o owners : o ∈ owners -> 1 <= owner_refs (runtime_of (snd o)) owners.
Proof.
  intros Ho. unfold owner_refs. etrans; [|apply (sum_over_elem _ owners o); [|done]].
  - unfold b2z. by rewrite bool_decide_true.
  - intros t. unfold b2z. case_match; lia.
Qed.

Lemma owner_refs_perm i owners owners' : owners ≡ₚ owners' -> owner_refs i owners = owner_refs i owners'.
Proof.
  induction 1 as [|o l l' _ IH|a b l|l1 l2 l3 _ IH1 _ IH2]; rewrite ?owner_refs_cons; try done; try lia.
Qed.

Lemma runtimes_ok_perm p owners owners' : owners ≡ₚ owners' -> runtimes_ok p owners -> runtimes_ok p owners'.
Proof.
  intros Hp [Hpids Hrt Ho Ha]. split; [done| | |done].
  - intros i r Hi. rewrite <- (owner_refs_perm i _ _ Hp). by apply Hrt.
  - intros pid cr Hin. apply Ho. by rewrite Hp.
Qed.

(** Another owner of a runtime is no dedicated one. *)
Lemma sole_owner p o owners : runtimes_ok p (o :: owners) ->
  forall pid cr, (pid, cr) ∈ owners -> cr = DedicatedRuntime (runtime_of cr) -> runtime_of cr <> runtime_of (snd o).
Proof.
  intros Hok pid cr Hin Hd Heq. destruct (ok_owner _ _ Hok pid cr) as (r & Hr & _ & H1); [by right|]. specialize (H1 Hd).
  destruct (ok_runtime _ _ Hok _ _ Hr) as (_ & _ & Hh).
  pose proof (owner_refs_elem _ _ Hin) as He. cbn in He. rewrite owner_refs_cons, decide_True in Hh by done.
  pose proof (attribute_refs_nonneg (runtime_of cr) (module_attribute p)). lia.
Qed.

Lemma lookup_alter_handles (f : Runtime -> Runtime) i (l : list Runtime) j r :
  alter f i l !! j = Some r -> exists r0, l !! j = Some r0 /\ r = if decide (i = j) then f r0 else r0.
Proof.
  destruct (decide (i = j)) as [->|Hne].
  - rewrite list_lookup_alter_eq. destruct (l !! j) as [r0|]; [|done]. intros [= <-]. by exists r0.
  - rewrite list_lookup_alter_ne by done. intros Hj. by exists r.
Qed.

Lemma lookup_alter_Some (f : Runtime -> Runtime) i (l : list Runtime) j r :
  l !! j = Some r -> alter f i l !! j = Some (if decide (i = j) then f r else r).
Proof.
  intros Hj. destruct (decide (i = j)) as [->|Hne].
  - by rewrite list_lookup_alter_eq, Hj.
  - by rewrite list_lookup_alter_ne.
Qed.

(** One value is consumed: its handle is given back, or the runtime it has alone is shut
    down, or it is forgotten. *)
Lemma consume_owner (f : Runtime -> Runtime) p o owners :
  (forall r, worker_threads (f r) = worker_threads r /\ started_in (f r) = started_in r /\ handles (f r) = handles r - 1 /\
     (shut_down (f r) = true -> shut_down r = true \/ snd o = DedicatedRuntime (runtime_of (snd o)))) ->
  runtimes_ok p (o :: owners) -> runtimes_ok (p <| runtimes ::= alter f (runtime_of (snd o)) |>) owners.
Proof.
  intros Hf Hok. pose proof (sole_owner _ _ _ Hok) as Hsole. destruct Hok as [Hpids Hrt Ho Ha]. split; cbn.
  - done.
  - intros i r Hi. apply lookup_alter_handles in Hi as (r0 & Hi & ->). pose proof (Hrt i r0 Hi) as (Hw & Hs & Hh).
    rewrite owner_refs_cons in Hh. destruct (decide (runtime_of (snd o) = i)) as [Heq|Hne]; [|split_and!; [lia..|done|lia]].
    destruct (Hf r0) as (-> & _ & -> & Hsd). split_and!; [lia..| |lia].
    pose proof (owner_refs_nonneg i owners). pose proof (attribute_refs_nonneg i (module_attribute p)).
    intros [Hs0|Hd]%Hsd; [specialize (Hs Hs0); lia|].
    destruct o as [pid cr]; cbn in *. destruct (Ho pid cr) as (r1 & Hr1 & _ & H1); [by left|].
    rewrite Heq, Hi in Hr1. injection Hr1 as <-. specialize (H1 Hd). lia.
  - intros pid cr Hin. destruct (Ho pid cr) as (r & Hr & Hst & H1); [by right|]. cbn.
    exists (if decide (runtime_of (snd o) = runtime_of cr) then f r else r). split; [by apply lookup_alter_Some|].
    split; [|intros Hd; rewrite decide_False; [by apply H1|]; intros Heq; by apply (Hsole pid cr Hin Hd)].
    unfold started_by in *. cbn. case_decide; [|done]. by destruct (Hf r) as (_ & -> & _).
  - intros s Hs. destruct (Ha s Hs) as (i & r & Hi & Hr & Hst). exists i.
    exists (if decide (runtime_of (snd o) = i) then f r else r). split_and!; [done|by apply lookup_alter_Some|].
    unfold started_by in *. cbn. case_decide; [|done]. by destruct (Hf r) as (_ & -> & _).
Qed.

Lemma drop_client_runtime_ok p pid cr owners :
  runtimes_ok p ((pid, cr) :: owners) -> runtimes_ok (drop_client_runtime cr p) owners.
Proof. apply (consume_owner _ p (pid, cr)). intros r. cbn. auto. Qed.

Lemma shutdown_background_ok p pid cr owners :
  runtimes_ok p ((pid, cr) :: owners) -> runtimes_ok (shutdown_background cr p) owners.
Proof.
  destruct cr as [i|i]; [apply (drop_client_runtime_ok p pid (SharedRuntime i))|].
  apply (consume_owner _ p (pid, DedicatedRuntime i)). intros r. cbn. auto.
Qed.

Lemma forget_owner_ok p o owners : runtimes_ok p (o :: owners) -> runtimes_ok p owners.
Proof.
  intros [Hpids Hrt Ho Ha]. split; [done| | |done].
  - intros i r Hi. destruct (Hrt i r Hi) as (? & ? & Hh). rewrite owner_refs_cons in Hh. split_and!; [lia..|done|].
    case_decide; lia.
  - intros pid cr Hin. apply Ho. by right.
Qed.

(** A handle of a shared runtime becomes another owner's. *)
Lemma clone_handle_ok p i pid owners :
  runtimes_ok p owners -> (exists pid', (pid', SharedRuntime i) ∈ owners) \/ attribute_refs i (module_attribute p) = 1 ->
  (exists r, runtimes p !! i = Some r /\ started_by p r pid) ->
  (forall pid' , (pid', DedicatedRuntime i) ∉ owners) ->
  runtimes_ok (clone_handle i p) ((pid, SharedRuntime i) :: owners).
Proof.
  intros [Hpids Hrt Ho Ha] Hhas (r0 & Hi0 & Hst0) Hnd. unfold clone_handle. split; cbn -[owner_refs].
  - done.
  - intros j r Hj. apply lookup_alter_handles in Hj as (r1 & Hj & ->). destruct (Hrt j r1 Hj) as (? & Hs & Hh).
    rewrite owner_refs_cons. cbn -[owner_refs]. case_decide as Hij; cbn -[owner_refs]; [|split_and!; [lia..|done|lia]]. subst j.
    split_and!; [lia..| |lia]. intros Hsd. specialize (Hs Hsd).
    pose proof (owner_refs_nonneg i owners). pose proof (attribute_refs_nonneg i (module_attribute p)).
    destruct Hhas as [(pid' & Hin)|Hat]; [|lia]. pose proof (owner_refs_elem _ _ Hin) as He. cbn in He. lia.
  - intros pid' cr [[= -> ->]|Hin]%elem_of_cons; cbn.
    + exists (r0 <| handles ::= fun n => n + 1 |>). split; [|done]. rewrite (lookup_alter_Some _ _ _ _ _ Hi0). by rewrite decide_True.
    + destruct (Ho pid' cr Hin) as (r & Hr & Hst & H1). eexists. split; [by apply lookup_alter_Some|].
      split; [by case_decide|]. intros Hd. rewrite decide_False; [by apply H1|]. intros Heq. apply (Hnd pid').
      rewrite Heq. by rewrite <- Hd.
  - intros s Hs. destruct (Ha s Hs) as (j & r & Hj & Hr & Hst). exists j. eexists.
    split_and!; [done|by apply lookup_alter_Some|by case_decide].
Qed.

Lemma fork_ok pid p owners : pid ∉ ancestors p ++ [process_id p] -> runtimes_ok p owners -> runtimes_ok (fork pid p) owners.
Proof.
  intros Hpid [Hpids Hrt Ho Ha]. unfold fork. split; cbn.
  - rewrite NoDup_app. split_and!; [done| |apply NoDup_singleton]. intros x Hx ->%list_elem_of_singleton. done.
  - done.
  - intros pid' cr Hin. destruct (Ho pid' cr Hin) as (r & Hr & Hst & H1). exists r. split_and!; [done| |done].
    unfold started_by in *. cbn. by apply lookup_app_l_Some.
  - intros s Hs. destruct (Ha s Hs) as (i & r & Hi & Hr & Hst). exists i, r. split_and!; [done..|].
    unfold started_by in *. cbn. by apply lookup_app_l_Some.
Qed.

Lemma set_attribute_ok p pid i owners : runtimes_ok p ((pid, SharedRuntime i) :: owners) ->
  runtimes_ok (p <| module_attribute := StateAttribute {| state_process_id := pid; state_runtime := Some i |} |>) owners.
Proof.
  intros [Hpids Hrt Ho Ha]. destruct (Ho pid (SharedRuntime i)) as (r0 & Hr0 & Hst0 & _); [by left|]. split; cbn -[owner_refs].
  - done.
  - intros j r Hj. destruct (Hrt j r Hj) as (? & Hs & Hh). split_and!; [lia..|done|].
    rewrite owner_refs_cons in Hh. pose proof (attribute_refs_nonneg j (module_attribute p)). cbn in Hh. unfold b2z.
    case_bool_decide as Hij; [injection Hij as <-; rewrite decide_True in Hh by done; lia|].
    case_decide; lia.
  - intros pid' cr Hin. apply Ho. by right.
  - intros s [= <-]. by exists i, r0.
Qed.

(** A new runtime, with a second handle. *)
Lemma new_shared_ok p pid i owners : runtimes_ok p ((pid, DedicatedRuntime i) :: owners) ->
  runtimes_ok (clone_handle i p) ((pid, SharedRuntime i) :: (pid, SharedRuntime i) :: owners).
Proof.
  intros Hok. pose proof (sole_owner _ _ _ Hok) as Hsole. destruct Hok as [Hpids Hrt Ho Ha].
  destruct (Ho pid (DedicatedRuntime i)) as (r0 & Hr0 & Hst0 & _); [by left|]. cbn in Hr0.
  apply clone_handle_ok.
  - split; [done| | |done].
    + intros j r Hj. destruct (Hrt j r Hj) as (? & ? & Hh). by rewrite owner_refs_cons in *.
    + intros pid' cr [[= -> ->]|Hin]%elem_of_cons; [by exists r0|]. apply Ho. by right.
  - left. exists pid. by left.
  - by exists r0.
  - intros pid' [[=]|Hin]%elem_of_cons. by apply (Hsole _ _ Hin).
Qed.

Definition same_process (p p' : Process) : Prop := process_id p' = process_id p /\ ancestors p' = ancestors p.

Section build.
Context (env : RuntimeEnv).

Lemma build_runtime_ok w p owners : 1 <= w <= MAX_RUNTIME_WORKERS -> runtimes_ok p owners ->
  exists r p', build_multi_thread_runtime env w p = Some (r, p') /\ same_process p p' /\
    match r with
    | Ok i => runtimes_ok p' ((process_id p', DedicatedRuntime i) :: owners)
    | Err _ => p' = p
    end.
Proof.
  intros Hw [Hpids Hrt Ho Ha]. unfold build_multi_thread_runtime. rewrite (proj2 (Z.eqb_neq w 0)) by lia.
  destruct (runtime_started env) as [[]|e]; [|by eexists _, p].
  eexists _, _. split; [reflexivity|]. split; [done|]. cbn.
  set (r0 := {| worker_threads := w; started_in := _; handles := 1; shut_down := false |}).
  assert (Hold : forall j r, runtimes p !! j = Some r -> (runtimes p ++ [r0]) !! j = Some r) by (intros; by apply lookup_app_l_Some).
  assert (Hnew : (runtimes p ++ [r0]) !! length (runtimes p) = Some r0) by (by apply list_lookup_middle).
  assert (H0 : attribute_refs (length (runtimes p)) (module_attribute p) + owner_refs (length (runtimes p)) owners = 0).
  { unfold attribute_refs, owner_refs. rewrite sum_over_zero.
    - destruct (module_attribute p) as [|s|e]; [done| |done]. destruct (Ha s eq_refl) as (i & r & -> & Hr & _).
      apply lookup_lt_Some in Hr. unfold b2z. case_bool_decide as Hi; [|done]. injection Hi as ->. lia.
    - intros [pid cr] Hin. destruct (Ho pid cr Hin) as (r & Hr & _). apply lookup_lt_Some in Hr. cbn. unfold b2z.
      case_bool_decide; [lia|done]. }
  split; cbn -[owner_refs].
  - done.
  - intros j r Hj. rewrite owner_refs_cons. cbn [runtime_of snd]. apply lookup_snoc_Some in Hj as [[Hlt Hj]|[Hj <-]].
    + destruct (Hrt j r Hj) as (? & ? & ?). rewrite decide_False by lia. split_and!; [lia..|done|lia].
    + subst j. rewrite decide_True by done. split_and!; cbn -[owner_refs]; [lia..|done|lia].
  - intros pid cr [[= -> ->]|Hin]%elem_of_cons; cbn.
    + exists r0. split_and!; [done| |done]. unfold started_by. cbn. by apply list_lookup_middle.
    + destruct (Ho pid cr Hin) as (r & Hr & Hst & H1). exists r. split_and!; [by apply Hold|done|done].
  - intros s Hs. destruct (Ha s Hs) as (i & r & Hi & Hr & Hst). exists i, r. split_and!; [done|by apply Hold|done].
Qed.

Lemma build_shared_ok p owners : runtimes_ok p owners ->
  exists r p', build_shared_runtime env p = Some (r, p') /\ same_process p p' /\
    match r with Ok i => runtimes_ok p' ((process_id p', DedicatedRuntime i) :: owners) | Err _ => p' = p end.
Proof.
  apply build_runtime_ok. pose proof (shared_workers_range (available_parallelism env)).
  unfold shared_runtime_workers, DEFAULT_RUNTIME_WORKER_CAP, MAX_RUNTIME_WORKERS in *. lia.
Qed.

Lemma shared_runtime_ok p owners : runtimes_ok p owners ->
  exists r p', shared_runtime env p = Some (r, p') /\ same_process p p' /\
    match r with
    | Ok i => runtimes_ok p' ((process_id p', SharedRuntime i) :: owners)
    | Err _ => runtimes_ok p' owners
    end.
Proof.
  intros Hok. unfold shared_runtime, getattr. rewrite (bind_Ok _ _ p (process_id p) p) by reflexivity.
  destruct (module_imported env) as [[]|e]; [rewrite (bind_Ok _ _ p tt p) by reflexivity|by eexists _, p].
  destruct (getattr_error env) as [e|]; [by eexists _, p|]. rewrite (bind_Ok _ _ p (module_attribute p) p) by reflexivity.
  destruct (module_attribute p) as [|s|e] eqn:Hattr; [| |by eexists _, p].
  - unfold create_shared_runtime. destruct (build_shared_ok p owners Hok) as ([i|e] & p1 & Hb & Hsame & Hp1);
      [erewrite bind_Ok by exact Hb|erewrite bind_Err by exact Hb; subst p1; by eexists _, p].
    pose proof (new_shared_ok _ _ _ _ Hp1) as Hp2. rewrite (bind_Ok _ _ p1 tt (clone_handle i p1)) by reflexivity.
    pose proof (drop_client_runtime_ok _ _ (SharedRuntime i) _ (forget_owner_ok _ _ _ Hp2)) as Hdrop.
    destruct (state_created env) as [[]|e]; [|by eexists _, _].
    destruct (attribute_set env) as [[]|e]; [|by eexists _, _].
    eexists _, _. split; [reflexivity|]. split; [done|]. by apply set_attribute_ok in Hp2.
  - destruct (Z.eqb_spec (state_process_id s) (process_id p)) as [Hpid|Hpid].
    + destruct (ok_attribute _ _ Hok s Hattr) as (i & r & Hi & Hr & Hst). rewrite Hi.
      eexists _, _. split; [reflexivity|]. split; [done|]. cbn -[owner_refs].
      assert (H1 : attribute_refs i (module_attribute p) = 1) by (rewrite Hattr; cbn; unfold b2z; by rewrite bool_decide_true).
      apply clone_handle_ok; [done|by right| |].
      * exists r. by rewrite <- Hpid.
      * intros pid' Hin. destruct (ok_owner _ _ Hok _ _ Hin) as (r' & Hr' & _ & Hh). cbn in Hr'.
        rewrite Hr in Hr'. injection Hr' as <-. specialize (Hh eq_refl). destruct (ok_runtime _ _ Hok _ _ Hr) as (_ & _ & Hle).
        pose proof (owner_refs_elem _ _ Hin) as He. cbn in He. lia.
    + destruct (build_shared_ok p owners Hok) as ([i|e] & p1 & Hb & Hsame & Hp1);
        [erewrite bind_Ok by exact Hb|erewrite bind_Err by exact Hb; subst p1; by eexists _, p].
      pose proof (new_shared_ok _ _ _ _ Hp1) as Hp2.
      eexists _, _. split; [reflexivity|]. split; [done|]. apply set_attribute_ok in Hp2. destruct Hsame as [Hid _].
      cbn. cbn in Hp2. by rewrite Hid in Hp2 |- *.
Qed.

(** Building a client's runtime never panics, and the runtime is the client's. *)
Lemma client_runtime_build_ok limit mode workers p owners : runtimes_ok p owners ->
  exists r p', client_runtime_build env limit mode workers p = Some (r, p') /\ same_process p p' /\
    match r with
    | Ok cr => runtimes_ok p' ((process_id p', cr) :: owners)
    | Err _ => runtimes_ok p' owners
    end.
Proof.
  intros Hok. unfold client_runtime_build. destruct mode; [destruct workers as [n|]; [by eexists _, p|]|].
  - destruct (shared_runtime_ok p owners Hok) as ([i|e] & p1 & Hb & Hsame & Hp1);
      [erewrite bind_Ok by exact Hb|erewrite bind_Err by exact Hb]; by eexists _, p1.
  - unfold build_dedicated_runtime.
    destruct (runtime_workers limit workers (workers_variable env)) as [w|e] eqn:Hw; [|by eexists _, p].
    apply runtime_workers_range in Hw.
    destruct (build_runtime_ok w p owners Hw Hok) as ([i|e] & p1 & Hb & Hsame & Hp1).
    + rewrite (bind_Ok _ _ p i p1) by (by erewrite bind_Ok by reflexivity). by eexists _, p1.
    + rewrite (bind_Err _ _ p e p1) by (by erewrite bind_Ok by reflexivity). subst p1. by eexists _, p.
Qed.
End build.

(** A runtime whose workers run in the process. *)
Definition live (p : Process) (i : nat) : Prop :=
  exists r, runtimes p !! i = Some r /\ started_in r = length (ancestors p) /\ 0 < handles r /\ shut_down r = false /\
    1 <= worker_threads r <= MAX_RUNTIME_WORKERS.

Lemma owner_live p os cr : runtimes_ok p os -> (process_id p, cr) ∈ os -> live p (runtime_of cr).
Proof.
  intros Hok Hin. destruct (ok_owner _ _ Hok _ _ Hin) as (r & Hr & Hst & _). exists r. split; [done|].
  destruct (ok_runtime _ _ Hok _ _ Hr) as (Hw & Hs & Hh). pose proof (owner_refs_elem _ _ Hin) as Href. cbn in Href.
  pose proof (attribute_refs_nonneg (runtime_of cr) (module_attribute p)). split_and!; [|lia| |lia..].
  - eapply NoDup_lookup; [exact (ok_processes _ _ Hok)|exact Hst|]. by apply list_lookup_middle.
  - destruct (shut_down r); [|done]. specialize (Hs eq_refl). lia.
Qed.
