(* ===== verification/Hooks.v ===== *)
(** * Python hooks

    [src/src/py/client/policy_hooks.rs] and the configuration of [src/src/py/client/auth.rs]:
    which callables a client accepts, what they are shown of a request or a response, and
    what becomes of their answer.  What Python code returns or raises is an argument; the
    state of the methods is the list of the views the callables were called with. *)

From S2P Require Import Prelude RustStr Http Numeric Policy Retry Cookies RequestState Errors Method Runtime.

Local Open Scope Z_scope.

(** ** Configuration *)

(** The attribute of a configuration object. *)
Inductive PyAttribute := AttrNone | AttrCallable | AttrNotCallable.

Record HookConfig := {
  config_before_send : result PyAttribute PyErr;
  config_on_response_headers : result PyAttribute PyErr;
  config_after_response_body : result PyAttribute PyErr;
  (** the import of the module of the views and of both of them *)
  config_views : result unit PyErr;
}.

Record PythonPolicyHooks := {
  before_send_hook : bool;
  on_response_headers_hook : bool;
  after_response_body_hook : bool;
}.

Definition optional_hook (attribute : result PyAttribute PyErr) (name : string) : result bool PyErr :=
  let? hook := attribute in
  match hook with
  | AttrNone => Ok false
  | AttrNotCallable => Err (new_err PyTypeError (name +:+ " transport policy hook must be callable or None"))
  | AttrCallable => Ok true
  end.

(** [PythonPolicyHooks::from_config]. *)
Definition hooks_from_config (config : option HookConfig) : result (option PythonPolicyHooks) PyErr :=
  match config with
  | None => Ok None
  | Some config =>
      let? before_send := optional_hook (config_before_send config) "before_send" in
      let? on_response_headers := optional_hook (config_on_response_headers config) "on_response_headers" in
      let? after_response_body := optional_hook (config_after_response_body config) "after_response_body" in
      if negb before_send && negb on_response_headers && negb after_response_body then Ok None
      else
        let? _ := config_views config in
        Ok (Some {| before_send_hook := before_send; on_response_headers_hook := on_response_headers;
                    after_response_body_hook := after_response_body |})
  end.

Definition observes_response_body (h : PythonPolicyHooks) : bool := after_response_body_hook h.

(** A callable given for authentication, with what importing the helpers and validating it
    raises, in order. *)
Record AuthHookConfig := { auth_callable : bool; auth_validated : result unit PyErr; auth_view : result unit PyErr }.

Section auth.
Context `{HttpCrate}.

Definition BASIC_INVALID : string := "basic authorization header is invalid".

Definition validate_basic_authorization (value : string) : result unit PyErr :=
  match header_value_from_str value with
  | Err _ => Err (new_err PyValueError BASIC_INVALID)
  | Ok header =>
      match header_value_to_str header with
      | None => Err (new_err PyValueError BASIC_INVALID)
      | Some _ => Ok tt
      end
  end.

(** [PythonAuth::from_config]. *)
Definition auth_from_config (basic_authorization : option string) (hook : option AuthHookConfig) :
    result (option AuthProvider) PyErr :=
  match basic_authorization, hook with
  | None, None => Ok None
  | Some header, None => let? _ := validate_basic_authorization header in Ok (Some (Basic header))
  | None, Some callback =>
      if negb (auth_callable callback) then Err (new_err PyTypeError "auth hook must be callable")
      else
        let? _ := auth_validated callback in
        let? _ := auth_view callback in
        Ok (Some AuthHook)
  | Some _, Some _ => Err (new_err PyValueError "basic auth and callable auth cannot be enabled together")
  end.
End auth.

(** ** Calls *)

Section hooks.
Context `{UrlCrate}.

(** [extensions] is a Python object. *)
Record RequestView := {
  view_method : string;
  view_url : string;
  view_body : string;
  view_redirect_hop : Z;
  view_extensions : option positive;
}.

Inductive View :=
| RequestOnly (request : RequestView)
| WithResponse (request : RequestView) (status_code : Z) (headers : HeaderPairs).

(** What the interpreter answers: building the views, the tuple of the headers, and the
    value the callable returns. *)
Record HookEnv := {
  request_view_built : result unit PyErr;
  headers_built : result unit PyErr;
  response_view_built : result unit PyErr;
  callback_returned : result PyValue PyErr;
}.

Definition HOOK_RETURN_ERROR : string := "transport policy hooks must return None".

Definition request_body_state (body : RequestBodyPolicy) : string :=
  match body with BodyEmpty => "empty" | BodyNonReplayable => "non_replayable" | BodyReplayable => "replayable" end.

Abbreviation hook := (method (list View) PyErr).

Definition request_snapshot (env : HookEnv) (request : PolicyRequest) (redirect_hop : Z) (extensions : option positive) :
    hook RequestView :=
  _ ← of_result (request_view_built env);
  mret {| view_method := req_method request; view_url := as_str (req_url request);
          view_body := request_body_state (req_body request); view_redirect_hop := redirect_hop;
          view_extensions := extensions |}.

Definition response_snapshot (env : HookEnv) (request : PolicyRequest) (response : ResponseHead) (redirect_hop : Z)
    (extensions : option positive) : hook View :=
  request ← request_snapshot env request redirect_hop extensions;
  _ ← of_result (headers_built env);
  _ ← of_result (response_view_built env);
  mret (WithResponse request (resp_status_code response) (resp_headers response)).

Definition call_hook (env : HookEnv) (view : View) : hook unit :=
  _ ← modify (fun views => views ++ [view]);
  value ← of_result (callback_returned env);
  match value with PyNone => mret tt | _ => raise (new_err PyTypeError HOOK_RETURN_ERROR) end.

Definition before_send (env : HookEnv) (h : PythonPolicyHooks) (request : PolicyRequest) (redirect_hop : Z)
    (extensions : option positive) : hook unit :=
  if negb (before_send_hook h) then mret tt
  else
    request ← request_snapshot env request redirect_hop extensions;
    call_hook env (RequestOnly request).

Definition on_response_headers (env : HookEnv) (h : PythonPolicyHooks) (request : PolicyRequest) (response : ResponseHead)
    (redirect_hop : Z) (extensions : option positive) : hook unit :=
  if negb (on_response_headers_hook h) then mret tt
  else
    response ← response_snapshot env request response redirect_hop extensions;
    call_hook env response.

Definition after_response_body (env : HookEnv) (h : PythonPolicyHooks) (request : PolicyRequest) (response : ResponseHead)
    (redirect_hop : Z) (extensions : option positive) : hook unit :=
  if negb (after_response_body_hook h) then mret tt
  else
    response ← response_snapshot env request response redirect_hop extensions;
    call_hook env response.

(** ** What is accepted, and what is seen *)

(** Hooks are installed exactly for the attributes that are callable; none of them means
    that there are no hooks. *)
Lemma hooks_from_config_Ok config h : hooks_from_config (Some config) = Ok (Some h) ->
  config_before_send config = Ok (if before_send_hook h then AttrCallable else AttrNone) /\
  config_on_response_headers config = Ok (if on_response_headers_hook h then AttrCallable else AttrNone) /\
  config_after_response_body config = Ok (if after_response_body_hook h then AttrCallable else AttrNone) /\
  (before_send_hook h || on_response_headers_hook h || after_response_body_hook h) = true.
Proof.
  unfold hooks_from_config, optional_hook.
  destruct (config_before_send config) as [[]|]; try done;
  destruct (config_on_response_headers config) as [[]|]; try done;
  destruct (config_after_response_body config) as [[]|]; try done; cbn; destruct (config_views config); try done; by intros [= <-].
Qed.

(** What a hook is shown of a request. *)
Definition shown (request : PolicyRequest) (redirect_hop : Z) (extensions : option positive) (v : View) : Prop :=
  let r := match v with RequestOnly r | WithResponse r _ _ => r end in
  view_method r = req_method request /\ view_url r = as_str (req_url request) /\
  view_body r = request_body_state (req_body request) /\ view_redirect_hop r = redirect_hop /\ view_extensions r = extensions.

Lemma request_snapshot_run env request redirect_hop extensions views :
  request_snapshot env request redirect_hop extensions views =
    match request_view_built env with
    | Err e => Some (Err e, views)
    | Ok _ => Some (Ok {| view_method := req_method request; view_url := as_str (req_url request);
                          view_body := request_body_state (req_body request); view_redirect_hop := redirect_hop;
                          view_extensions := extensions |}, views)
    end.
Proof. unfold request_snapshot, of_result, mbind, method_bind. by destruct (request_view_built env) as [[]|]. Qed.

Lemma response_snapshot_run env request response redirect_hop extensions views :
  exists r, response_snapshot env request response redirect_hop extensions views = Some (r, views) /\
    forall v, r = Ok v -> shown request redirect_hop extensions v /\
      exists q, v = WithResponse q (resp_status_code response) (resp_headers response).
Proof.
  unfold response_snapshot. unfold mbind at 1, method_bind at 1. rewrite request_snapshot_run.
  destruct (request_view_built env) as [[]|e]; [|by eexists].
  unfold of_result, mbind, method_bind. destruct (headers_built env) as [[]|]; [|by eexists].
  destruct (response_view_built env) as [[]|]; [|by eexists]. eexists. split; [reflexivity|].
  intros v [= <-]. split; [by split_and!|by eexists].
Qed.

Lemma call_hook_run env v views : exists r, call_hook env v views = Some (r, views ++ [v]) /\
  (r = Ok tt <-> callback_returned env = Ok PyNone).
Proof.
  unfold call_hook, of_result, modify, mbind, method_bind. destruct (callback_returned env) as [[]|e];
    eexists; (split; [reflexivity|]); done.
Qed.

(** An entry point of a hook that is installed calls it at most once, with what the request
    and the response are; it succeeds only if the hook was called and returned [None]. *)
Lemma before_send_run env h request redirect_hop extensions views :
  exists r called, before_send env h request redirect_hop extensions views = Some (r, views ++ called) /\
    (length called <= 1)%nat /\ Forall (shown request redirect_hop extensions) called /\
    (r = Ok tt -> before_send_hook h = true -> length called = 1%nat /\ callback_returned env = Ok PyNone) /\
    (before_send_hook h = false -> r = Ok tt /\ called = []).
Proof.
  unfold before_send. destruct (before_send_hook h); cbn [negb].
  - unfold mbind, method_bind. rewrite request_snapshot_run. destruct (request_view_built env) as [[]|e].
    + match goal with |- context [call_hook env ?v] => destruct (call_hook_run env v views) as (r & -> & Hr); exists r, [v] end.
      split_and!; [reflexivity|done| |naive_solver|done]. by constructor.
    + exists (Err e), []. rewrite app_nil_r. split_and!; first [done|apply Forall_nil_2|cbn; lia].
  - exists (Ok tt), []. rewrite app_nil_r. split_and!; first [done|apply Forall_nil_2|cbn; lia].
Qed.

Lemma response_hook_run env (installed : bool) request response redirect_hop extensions views :
  exists r called,
    (if negb installed then mret tt
     else response ← response_snapshot env request response redirect_hop extensions; call_hook env response) views =
      Some (r, views ++ called) /\
    (length called <= 1)%nat /\ Forall (shown request redirect_hop extensions) called /\
    (r = Ok tt -> installed = true -> length called = 1%nat /\ callback_returned env = Ok PyNone) /\
    (installed = false -> r = Ok tt /\ called = []).
Proof.
  destruct installed; cbn [negb].
  - destruct (response_snapshot_run env request response redirect_hop extensions views) as ([v|e] & Hs & Hv).
    + erewrite bind_Ok by exact Hs. destruct (call_hook_run env v views) as (r & -> & Hr).
      destruct (Hv v eq_refl) as [Hshown _]. exists r, [v]. split_and!; [reflexivity|done|by constructor|naive_solver|done].
    + erewrite bind_Err by exact Hs. exists (Err e), []. rewrite app_nil_r. split_and!; first [done|apply Forall_nil_2|cbn; lia].
  - exists (Ok tt), []. rewrite app_nil_r. split_and!; first [done|apply Forall_nil_2|cbn; lia].
Qed.
End hooks.
