(* ===== verification/Client.v ===== *)
(** * The client

    [src/src/py/client/mod.rs]: the object Python holds.  Constructing it validates every
    option and builds what the other files model; a request is checked, counted and handed
    to the transport; closing gives up what the client holds, and does so without touching
    what the threads of another process own.

    A method is a function of the client and of the process that runs it; what it does to
    the parts of the client is a list of [Effect]s.  The [World] has the clients of one
    process, the synchronous calls that wait on a runtime, and forks; it follows one line
    of processes from parent to child. *)

From S2P Require Import Prelude Atomics RustStr Http Numeric Policy Redirect Retry Ssrf Pipeline Cookies RetryTrace RequestState RequestLoop Method ProxyMetrics ProxyConnect Sync Errors Assembly Runtime Hooks.
From S2P Require Acquire Body ConnectionLimit Metrics PoolDiagnostics ResponseRead Telemetry TransportState.

Local Open Scope Z_scope.

(** ** Arguments *)

Record ClientArguments := {
  arg_max_active_requests : Z;
  arg_max_active_requests_per_origin : option Z;
  arg_max_connections : option Z;
  arg_max_connections_per_host : option Z;
  arg_max_idle_connections_per_host : Z;
  arg_max_pending_requests : Z;
  arg_max_response_body_size : option Z;
  arg_max_buffered_response_bytes : option Z;
  arg_idle_timeout : f64;
  arg_keepalive : bool;
  arg_connect_timeout : f64;
  arg_follow_redirects : bool;
  arg_max_redirects : Z;
  arg_cookies_enabled : bool;
  arg_ca_certificates : list (list Z);
  arg_trust_webpki_roots : bool;
  arg_runtime : string;
  arg_runtime_workers : option Z;
  arg_http_proxy_url : option string;
  arg_http_proxy_authorization : option string;
  arg_https_proxy_url : option string;
  arg_https_proxy_authorization : option string;
  arg_auth_basic_authorization : option string;
  arg_auth_hook : option AuthHookConfig;
  arg_policy_hooks : option HookConfig;
  arg_retry_retries : option Z;
  arg_retry_backoff : f64;
  arg_retry_jitter : f64;
  arg_retry_statuses : list Z;
  arg_retry_methods : list string;
  arg_retry_network_errors : bool;
  arg_ssrf_allowed_schemes : option (list string);
  arg_ssrf_allowed_origins : list string;
  arg_ssrf_allowed_domains : list string;
  arg_telemetry_enabled : bool;
  arg_max_stream_decoded_bytes : PyValue;
  arg_max_stream_decoder_memory_bytes : PyValue;
}.

(** A request from Python; [extensions] and [body_stream] are objects. *)
Record RequestArguments := {
  request_method : string;
  request_url : string;
  request_headers : HeaderPairs;
  request_auth_override_headers : option (list string);
  request_auth_removed_headers : list string;
  request_extensions : option positive;
  request_body : option (list Z);
  request_body_stream : option positive;
  request_body_replayable : bool;
  request_use_proxy_transport : bool;
  request_proxy_policy : string;
  request_pool_timeout : f64;
  request_read_timeout : f64;
  request_write_timeout : f64;
  request_total_timeout : f64;
  request_telemetry_id : option Z;
  request_decode_content : PyValue;
}.

(** [Original] until a fork's child forgets it. *)
Inductive RegistryHandle := Original | Replaced.

Section client.
Context `{UrlCrate} `{UriCrate} `{HttpCrate} `{TlsCrates} `{HttpDate} `{CookieCrates}.

(** The cookie jar and the telemetry are shared objects; the client holds a handle or none. *)
Record RawClient := {
  clients : option TransportClients;
  runtime : option ClientRuntime;
  acquire_gate : Acquire.GateConfig;
  active_async_requests : RegistryHandle;
  active_streams : RegistryHandle;
  client_max_response_body_size : option Z;
  buffered_body_budget : Body.BufferedBodyBudget;
  max_stream_decoded_bytes : option Z;
  max_stream_decoder_memory_bytes : Z;
  follow_redirects : bool;
  client_max_redirects : Z;
  cookie_jar : bool;
  proxy_authorization : option string;
  client_auth : option AuthProvider;
  policy_hooks : option PythonPolicyHooks;
  client_retry_policy : option RetryPolicy;
  client_ssrf_policy : option SsrfPolicy;
  telemetry : bool;
  created_in : ProcessId;
}.

#[local] Instance eta_RawClient : Eta RawClient := fun c =>
  Build_RawClient (clients c) (runtime c) (acquire_gate c) (active_async_requests c) (active_streams c)
    (client_max_response_body_size c) (buffered_body_budget c) (max_stream_decoded_bytes c)
    (max_stream_decoder_memory_bytes c) (follow_redirects c) (client_max_redirects c) (cookie_jar c)
    (proxy_authorization c) (client_auth c) (policy_hooks c) (client_retry_policy c) (client_ssrf_policy c)
    (telemetry c) (created_in c).

(** ** Construction *)

(** The process, and the registry of proxies in the metrics of the new client. *)
Abbreviation constructing := (method (Process * world) PyErr).

Definition on_process {A} (m : method Process PyErr A) : constructing A := fun s =>
  match m (fst s) with None => None | Some (r, p) => Some (r, (p, snd s)) end.

Definition on_metrics {A} (m : method world string A) : constructing A := fun s =>
  match m (snd s) with None => None | Some (r, w) => Some (map_err (new_err FogHttpError) r, (fst s, w)) end.

Definition numeric_options (a : ClientArguments) : NumericClientOptions :=
  {| numeric_max_active_requests := arg_max_active_requests a;
     numeric_max_active_requests_per_origin := arg_max_active_requests_per_origin a;
     numeric_max_connections := arg_max_connections a;
     numeric_max_connections_per_host := arg_max_connections_per_host a;
     numeric_max_idle_connections_per_host := arg_max_idle_connections_per_host a;
     numeric_max_pending_requests := arg_max_pending_requests a;
     numeric_max_response_body_size := arg_max_response_body_size a;
     numeric_max_buffered_response_bytes := arg_max_buffered_response_bytes a;
     numeric_idle_timeout := arg_idle_timeout a;
     numeric_connect_timeout := arg_connect_timeout a |}.

Definition build_retry_policy (a : ClientArguments) : constructing (option RetryPolicy) :=
  match arg_retry_retries a with
  | None => mret None
  | Some retries =>
      policy ← of_result (map_err (new_err FogHttpError)
                            (retry_policy_new retries (arg_retry_backoff a) (arg_retry_jitter a) (arg_retry_statuses a)
                               (arg_retry_methods a) (arg_retry_network_errors a)));
      policy ← expect policy;
      mret (Some policy)
  end.

Definition SSRF_SCHEMES_REQUIRED : string := "SSRF policy allowlists require allowed schemes".

Definition build_ssrf_policy (a : ClientArguments) : result (option SsrfPolicy) PyErr :=
  match arg_ssrf_allowed_schemes a with
  | Some schemes =>
      let? policy := map_err (new_err FogHttpError)
                       (ssrf_policy_new schemes (arg_ssrf_allowed_origins a) (arg_ssrf_allowed_domains a)) in
      Ok (Some policy)
  | None =>
      match arg_ssrf_allowed_origins a, arg_ssrf_allowed_domains a with
      | [], [] => Ok None
      | _, _ => Err (new_err FogHttpError SSRF_SCHEMES_REQUIRED)
      end
  end.

Definition client_options (a : ClientArguments) (ssrf_policy : option SsrfPolicy) : ClientOptions :=
  {| max_idle_connections_per_host := arg_max_idle_connections_per_host a; idle_timeout := arg_idle_timeout a;
     keepalive := arg_keepalive a; connect_timeout := arg_connect_timeout a; ca_certificates := arg_ca_certificates a;
     trust_webpki_roots := arg_trust_webpki_roots a; http_proxy_url := None; https_proxy_url := None;
     https_proxy_authorization := None; option_ssrf_policy := ssrf_policy |}.

Definition proxy_options (a : ClientArguments) (ssrf_policy : option SsrfPolicy) : option ClientOptions :=
  if is_some (arg_http_proxy_url a) || is_some (arg_https_proxy_url a)
  then Some {| max_idle_connections_per_host := arg_max_idle_connections_per_host a; idle_timeout := arg_idle_timeout a;
               keepalive := arg_keepalive a; connect_timeout := arg_connect_timeout a;
               ca_certificates := arg_ca_certificates a; trust_webpki_roots := arg_trust_webpki_roots a;
               http_proxy_url := arg_http_proxy_url a; https_proxy_url := arg_https_proxy_url a;
               https_proxy_authorization := arg_https_proxy_authorization a; option_ssrf_policy := ssrf_policy |}
  else None.

Definition build_transport_clients (a : ClientArguments) (ssrf_policy : option SsrfPolicy) (telemetry : bool) :
    constructing TransportClients :=
  let connection_gate := {| ConnectionLimit.max_connections := arg_max_connections a;
                            ConnectionLimit.max_connections_per_host := arg_max_connections_per_host a |} in
  client ← on_metrics (build_client_with_connection_gate (client_options a ssrf_policy) connection_gate telemetry);
  proxy_client ← match proxy_options a ssrf_policy with
                 | Some options =>
                     c ← on_metrics (build_client_with_connection_gate options connection_gate telemetry); mret (Some c)
                 | None => mret None
                 end;
  mret (transport_clients_new client proxy_client).

(** [future_setters]: whether [PythonFutureSetters::new] finds the helpers it imports. *)
Definition new (env : RuntimeEnv) (future_setters : result unit PyErr) (a : ClientArguments) : constructing RawClient :=
  max_stream_decoded_bytes ← of_result (extract_stream_decoded_byte_limit (arg_max_stream_decoded_bytes a));
  max_stream_decoder_memory_bytes ← of_result (extract_stream_decoder_memory_limit (arg_max_stream_decoder_memory_bytes a));
  _ ← validate_numeric_client_options (numeric_options a);
  auth ← of_result (auth_from_config (arg_auth_basic_authorization a) (arg_auth_hook a));
  policy_hooks ← of_result (hooks_from_config (arg_policy_hooks a));
  retry_policy ← build_retry_policy a;
  ssrf_policy ← of_result (build_ssrf_policy a);
  runtime_mode ← of_result (parse_runtime_mode (arg_runtime a));
  let telemetry := arg_telemetry_enabled a in
  clients ← build_transport_clients a ssrf_policy telemetry;
  runtime ← on_process (client_runtime_build env (arg_max_active_requests a) runtime_mode (arg_runtime_workers a));
  _ ← on_error (of_result future_setters) (fun s => (drop_client_runtime runtime (fst s), snd s));
  process_id ← gets (fun s => process_id (fst s));
  mret {| clients := Some clients; runtime := Some runtime;
          acquire_gate := {| Acquire.max_active_requests := arg_max_active_requests a;
                             Acquire.max_active_requests_per_origin := arg_max_active_requests_per_origin a;
                             Acquire.max_pending_requests := arg_max_pending_requests a |};
          active_async_requests := Original; active_streams := Original;
          client_max_response_body_size := arg_max_response_body_size a;
          buffered_body_budget := {| Body.max_buffered_response_bytes := arg_max_buffered_response_bytes a |};
          max_stream_decoded_bytes := max_stream_decoded_bytes;
          max_stream_decoder_memory_bytes := max_stream_decoder_memory_bytes;
          follow_redirects := arg_follow_redirects a; client_max_redirects := arg_max_redirects a;
          cookie_jar := arg_cookies_enabled a; proxy_authorization := arg_http_proxy_authorization a;
          client_auth := auth; policy_hooks := policy_hooks; client_retry_policy := retry_policy;
          client_ssrf_policy := ssrf_policy; telemetry := telemetry; created_in := process_id |}.

(** ** Requests *)

Definition CLIENT_CLOSED : string := "client is closed".
Definition CLIENT_RUNTIME_CLOSED : string := "client runtime is closed".

Definition ensure_current_process (current : ProcessId) (c : RawClient) : result unit PyErr :=
  if created_in c =? current then Ok tt else Err (client_used_after_fork (created_in c) current).

Definition clients_unchecked (c : RawClient) : result TransportClients PyErr :=
  match clients c with Some cs => Ok cs | None => Err (new_err FogHttpError CLIENT_CLOSED) end.

(** The runtime's index. *)
Definition runtime_unchecked (c : RawClient) : result nat PyErr :=
  match runtime c with Some r => Ok (runtime_of r) | None => Err (new_err FogHttpError CLIENT_RUNTIME_CLOSED) end.

Definition request_telemetry (request_id : option Z) (mode : Telemetry.TelemetryRequestMode) (meth : string) (c : RawClient) :
    option Telemetry.RequestTelemetry :=
  if telemetry c then (fun id => Telemetry.client_request id mode meth) <$> request_id else None.

Definition retained_request_extensions (extensions : option positive) (c : RawClient) : option positive :=
  if is_some (policy_hooks c) || match client_auth c with Some auth => uses_hook auth | None => false end
  then extensions else None.

Definition transport_request (c : RawClient) (a : RequestArguments) : TransportRequest :=
  {| part_method := request_method a; part_url := request_url a; part_headers := request_headers a;
     part_auth_override_headers := request_auth_override_headers a;
     part_auth_removed_headers := request_auth_removed_headers a; part_body := request_body a;
     part_body_stream := request_body_stream a; part_body_replayable := request_body_replayable a;
     part_use_proxy_transport := request_use_proxy_transport a; part_proxy_policy := request_proxy_policy a;
     part_proxy_authorization := proxy_authorization c; part_total_timeout := request_total_timeout a;
     part_read_timeout := request_read_timeout a; part_write_timeout := request_write_timeout a;
     part_max_response_body_size := client_max_response_body_size c; part_follow_redirects := follow_redirects c;
     part_max_redirects := client_max_redirects c; part_retry_policy := client_retry_policy c;
     part_ssrf_policy := client_ssrf_policy c; part_cookie_jar := cookie_jar c; part_auth := client_auth c;
     part_policy_hooks := observes_response_body <$> policy_hooks c |}.

(** What a call of [send_request] or [send_stream_request] is given. *)
Record TransportCall := {
  call_mode : Mode;
  call_clients : TransportClients;
  call_runtime : nat;
  call_pool_timeout : f64;
  call_request : TransportRequest;
  call_extensions : option positive;
  call_telemetry : option Telemetry.RequestTelemetry;
  call_decode_options : option ResponseRead.StreamDecodeOptions;
}.

(** The checks of a method that sends, up to the call of the transport. *)
Definition request_checks (m : Mode) (current : ProcessId) (c : RawClient) (a : RequestArguments) :
    method unit PyErr TransportCall :=
  _ ← of_result (ensure_current_process current c);
  _ ← validate_request_timeouts (request_pool_timeout a) (request_read_timeout a) (request_write_timeout a)
        (request_total_timeout a);
  clients ← of_result (clients_unchecked c);
  runtime ← of_result (runtime_unchecked c);
  decode_options ← match m with
                   | BufferedMode => mret None
                   | StreamMode =>
                       decode_content ← of_result (extract_stream_decode_content (request_decode_content a));
                       mret (Some {| ResponseRead.decode_content := decode_content;
                                     ResponseRead.max_decoded_bytes := max_stream_decoded_bytes c;
                                     ResponseRead.max_memory_bytes := max_stream_decoder_memory_bytes c |})
                   end;
  mret {| call_mode := m; call_clients := clients; call_runtime := runtime; call_pool_timeout := request_pool_timeout a;
          call_request := transport_request c a;
          call_extensions := retained_request_extensions (request_extensions a) c;
          call_telemetry := request_telemetry (request_telemetry_id a)
            (match m with BufferedMode => Telemetry.Buffered | StreamMode => Telemetry.Stream end) (request_method a) c;
          call_decode_options := decode_options |}.

(** ** Effects *)

Inductive Effect :=
(** the metrics' [request_started] and [request_finished], of the request of that number *)
| Started (request : nat)
| Finished (request : nat) (failed : bool)
(** the request runs on the runtime, or its task is spawned there *)
| Sent (request : nat) (call : TransportCall)
| Spawned (call : TransportCall)
(** what closing does *)
| JarDropped
| RequestsAborted
| StreamsAborted
| ConnectionsClosed
| ClientsDropped
| RuntimeReleased (r : ClientRuntime)
| ClientsForgotten
| RuntimeForgotten (r : ClientRuntime)
| RequestsForgotten
| StreamsForgotten.

(** [close_resources]. *)
Definition close_resources (current : ProcessId) (c : RawClient) : RawClient * list Effect :=
  let (c, jar) := (c <| cookie_jar := false |>, if cookie_jar c then [JarDropped] else []) in
  if created_in c =? current then
    let effects := jar ++ [RequestsAborted; StreamsAborted] ++ (if telemetry c then [ConnectionsClosed] else []) in
    let (c, effects) := (c <| clients := None |>, effects ++ (if is_some (clients c) then [ClientsDropped] else [])) in
    match runtime c with
    | Some r => (c <| runtime := None |>, effects ++ [RuntimeReleased r])
    | None => (c, effects)
    end
  else
    let (c, effects) := (c <| clients := None |>, jar ++ (if is_some (clients c) then [ClientsForgotten] else [])) in
    let (c, effects) := match runtime c with
                        | Some r => (c <| runtime := None |>, effects ++ [RuntimeForgotten r])
                        | None => (c, effects)
                        end in
    (c <| active_async_requests := Replaced |> <| active_streams := Replaced |>,
     effects ++ [RequestsForgotten; StreamsForgotten]).

(** What the process's runtimes see of an effect. *)
Definition runtime_effect (e : Effect) (p : Process) : Process :=
  match e with
  | RuntimeReleased r => shutdown_background r p
  | RuntimeForgotten r => abandon_without_shutdown r p
  | _ => p
  end.

(** ** Observation

    Each of these reads a part of the client that other files model. *)

Definition observe {S A} (current : ProcessId) (c : RawClient) (snapshot : S -> A * S) : method S PyErr A :=
  _ ← of_result (ensure_current_process current c); section snapshot.

Definition stats (current : ProcessId) (c : RawClient) : method Metrics.Metrics PyErr Metrics.StatsSnapshot :=
  observe current c (run_action Metrics.stats_snapshot).

Definition transport_state (current : ProcessId) (c : RawClient) (once : nat -> TransportState.TransportStateSnapshot) :
    method unit PyErr TransportState.TransportStateSnapshot :=
  observe current c (fun s => (TransportState.transport_state_snapshot once, s)).

Definition pool_diagnostics (current : ProcessId) (c : RawClient) (origins : list OriginMetrics.OriginPoolDiagnosticsSnapshot) :
    method Metrics.Metrics PyErr PoolDiagnostics.PoolDiagnosticsSnapshot :=
  observe current c (run_action (PoolDiagnostics.gate_diagnostics origins (acquire_gate c))).

Definition proxy_diagnostics (current : ProcessId) (c : RawClient) (w : world) :
    method Metrics.Metrics PyErr ProxyDiagnosticsSnapshot :=
  observe current c (fun m => proxy_diagnostics_snapshot m w).

(** [drained] is what the telemetry's drain returns. *)
Definition drain_telemetry (drained : Telemetry.TelemetryEventBatch) (c : RawClient) : Telemetry.TelemetryEventBatch :=
  if telemetry c then drained
  else {| Telemetry.batch_events := []; Telemetry.batch_dropped_events := 0 |}.

Definition drain_telemetry_events (current : ProcessId) (c : RawClient) (drained : Telemetry.TelemetryEventBatch) :
    method unit PyErr (list Telemetry.RawTelemetryEvent * Z) :=
  observe current c (fun s => (Telemetry.raw_telemetry_batch (drain_telemetry drained c), s)).

(** ** The world *)

(** A synchronous call between the two halves of [py.detach]: the client it borrows, its
    request, and the process (by its number of forks) whose thread waits. *)
Record PendingCall := {
  pending_client : nat;
  pending_request : nat;
  pending_process : nat;
  pending_call : TransportCall;
}.

(** A synchronous request: its client, the process it was made in and, of a stream, the
    [RequestCompletion] its state shares; of a buffered request, whether it is counted as
    finished. *)
Record RequestRecord := { record_client : nat; record_process : nat; record_mode : Mode; record_finished : bool }.
#[local] Instance eta_RequestRecord : Eta RequestRecord := fun r =>
  Build_RequestRecord (record_client r) (record_process r) (record_mode r) (record_finished r).

(** The log names the process and the client of each effect. *)
Record World := {
  process : Process;
  objects : list RawClient;
  pending : list PendingCall;
  requests : list RequestRecord;
  log : list (nat * nat * Effect);
}.
#[local] Instance eta_World : Eta World := fun w =>
  Build_World (process w) (objects w) (pending w) (requests w) (log w).

Definition generation (w : World) : nat := length (ancestors (process w)).

Definition emit (k : nat) (es : list Effect) (w : World) : World :=
  w <| log ::= fun l => l ++ ((fun e => (generation w, k, e)) <$> es) |>
    <| process ::= fun p => fold_left (fun p e => runtime_effect e p) es p |>.

(** [request] and [request_stream] up to [py.detach]. *)
Definition request_begin (m : Mode) (k : nat) (c : RawClient) (a : RequestArguments) (w : World) :
    option (result unit PyErr * World) :=
  match request_checks m (process_id (process w)) c a tt with
  | None => None
  | Some (Err e, _) => Some (Err e, w)
  | Some (Ok call, _) =>
      let n := length (requests w) in
      Some (Ok tt,
        (emit k [Started n; Sent n call] w)
          <| requests ::= fun l => l ++ [{| record_client := k; record_process := generation w; record_mode := m; record_finished := false |}] |>
          <| pending ::= fun l => l ++ [{| pending_client := k; pending_request := n; pending_process := generation w;
                                           pending_call := call |}] |>)
  end.

(** [completion.finish()]: whether this call is the first. *)
Definition completion_finish (n : nat) (w : World) : bool * World :=
  (match requests w !! n with Some r => negb (record_finished r) | None => false end,
   w <| requests ::= alter (fun r => r <| record_finished := true |>) n |>).

(** The rest of [request] and [request_stream]: [is_err] is that of the transport's result. *)
Definition request_end (j : nat) (call : PendingCall) (is_err : bool) (w : World) : World :=
  let w := w <| pending ::= delete j |> in
  match call_mode (pending_call call) with
  | BufferedMode =>
      let (_, w) := completion_finish (pending_request call) w in
      emit (pending_client call) [Finished (pending_request call) is_err] w
  | StreamMode =>
      if is_err then
        let (first, w) := completion_finish (pending_request call) w in
        if first then emit (pending_client call) [Finished (pending_request call) true] w else w
      else w
  end.

(** [request_async] and [request_stream_async]. *)
Definition request_spawn (m : Mode) (k : nat) (c : RawClient) (a : RequestArguments) (w : World) :
    option (result unit PyErr * World) :=
  match request_checks m (process_id (process w)) c a tt with
  | None => None
  | Some (Err e, _) => Some (Err e, w)
  | Some (Ok call, _) => Some (Ok tt, emit k [Spawned call] w)
  end.

(** The four methods that send. *)
Definition request : nat -> RawClient -> RequestArguments -> World -> option (result unit PyErr * World) :=
  request_begin BufferedMode.
Definition request_stream : nat -> RawClient -> RequestArguments -> World -> option (result unit PyErr * World) :=
  request_begin StreamMode.
Definition request_async : nat -> RawClient -> RequestArguments -> World -> option (result unit PyErr * World) :=
  request_spawn BufferedMode.
Definition request_stream_async : nat -> RawClient -> RequestArguments -> World -> option (result unit PyErr * World) :=
  request_spawn StreamMode.

Definition send_method (m : Mode) := match m with BufferedMode => request | StreamMode => request_stream end.
Definition spawn_method (m : Mode) := match m with BufferedMode => request_async | StreamMode => request_stream_async end.

(** [close]: an exclusive borrow, which the interpreter refuses while a call borrows the
    client; [Drop] runs when nothing refers to it. *)
Definition ALREADY_BORROWED : string := "Already borrowed".

Definition borrowed (k : nat) (w : World) : bool := existsb (fun call => Nat.eqb (pending_client call) k) (pending w).

Definition close (k : nat) (c : RawClient) (w : World) : result unit PyErr * World :=
  if borrowed k w then (Err (new_err PyRuntimeError ALREADY_BORROWED), w)
  else
    let (c, es) := close_resources (process_id (process w)) c in
    (Ok tt, (emit k es w) <| objects ::= <[k := c]> |>).

(** A stream is finished by its own state, in the process that made it. *)
Inductive world_step (w : World) : World -> Prop :=
| step_new env future_setters a metrics r p' metrics' :
    new env future_setters a (process w, metrics) = Some (r, (p', metrics')) ->
    world_step w (w <| process := p' |> <| objects ::= fun l => l ++ (match r with Ok c => [c] | Err _ => [] end) |>)
| step_request m k c a r w' :
    objects w !! k = Some c -> send_method m k c a w = Some (r, w') -> world_step w w'
| step_return j call is_err :
    pending w !! j = Some call -> pending_process call = generation w ->
    world_step w (request_end j call is_err w)
| step_stream n r failed :
    requests w !! n = Some r -> record_mode r = StreamMode -> record_process r = generation w ->
    world_step w (let (first, w) := completion_finish n w in if first then emit (record_client r) [Finished n failed] w else w)
| step_spawn m k c a r w' :
    objects w !! k = Some c -> spawn_method m k c a w = Some (r, w') -> world_step w w'
| step_close k c :
    objects w !! k = Some c -> world_step w (snd (close k c w))
(** the operating system does not give a process the id of one it descends from *)
| step_fork pid :
    pid ∉ ancestors (process w) ++ [process_id (process w)] ->
    world_step w (w <| process ::= fork pid |>).

Lemma send_method_begin m : send_method m = request_begin m.
Proof. by destruct m. Qed.

Lemma spawn_method_spawn m : spawn_method m = request_spawn m.
Proof. by destruct m. Qed.

Definition initial (pid : ProcessId) : World :=
  {| process := {| process_id := pid; ancestors := []; runtimes := []; module_attribute := NoAttribute |};
     objects := []; pending := []; requests := []; log := [] |}.

Definition reachable (w : World) : Prop := exists pid, rtc world_step (initial pid) w.

(** ** What closing does *)

Definition forgets (e : Effect) : bool :=
  match e with ClientsForgotten | RuntimeForgotten _ | RequestsForgotten | StreamsForgotten => true | _ => false end.

(** What closing does in a process that did not create the client: the copy of the cookie
    jar is dropped there as well; all else is forgotten. *)
Definition foreign_effect (e : Effect) : Prop := e = JarDropped \/ forgets e = true.

(** Whatever the client still holds is given up: by the process that created it, for good;
    by another, the jar apart, only forgotten. *)
Lemma close_resources_facts current c c' es : close_resources current c = (c', es) ->
  clients c' = None /\ runtime c' = None /\ created_in c' = created_in c /\
  (created_in c <> current -> Forall foreign_effect es) /\
  (forall r, runtime c = Some r -> (if created_in c =? current then RuntimeReleased r else RuntimeForgotten r) ∈ es) /\
  (forall p, fold_left (fun p e => runtime_effect e p) es p =
     match runtime c with
     | Some r => if created_in c =? current then shutdown_background r p else p
     | None => p
     end).
Proof.
  unfold close_resources. cbn. destruct (Z.eqb_spec (created_in c) current) as [Hc|Hc]; cbn.
  - destruct (runtime c) as [r|] eqn:Hr; intros Heq; injection Heq as <- <-; cbn; (split_and!; [done|done|done|done| |]);
      try (intros ? [= <-]; rewrite !elem_of_app; right; by apply list_elem_of_singleton);
      destruct (cookie_jar c), (telemetry c), (is_some (clients c)); done.
  - destruct (runtime c) as [r|] eqn:Hr; intros Heq; injection Heq as <- <-; cbn; (split_and!; [done|done|done| | |]);
      try (intros ? [= <-]; rewrite !elem_of_app; left; right; by apply list_elem_of_singleton);
      destruct (cookie_jar c), (is_some (clients c)); intros; cbn; unfold foreign_effect; repeat (constructor; eauto).
Qed.

(** ** Construction gives the client its runtime *)

Definition owner (c : RawClient) : option Owner := (fun r => (created_in c, r)) <$> runtime c.
Definition owners (w : World) : list Owner := omap owner (objects w).

Lemma on_process_inv {A} (m : method Process PyErr A) s r s' :
  on_process m s = Some (r, s') -> m (fst s) = Some (r, fst s') /\ snd s' = snd s.
Proof. unfold on_process. destruct (m (fst s)) as [[? ?]|]; [|done]. by intros [= <- <-]. Qed.

Lemma on_metrics_inv {A} (m : method world string A) s r s' :
  on_metrics m s = Some (r, s') -> exists r0, m (snd s) = Some (r0, snd s') /\ r = map_err (new_err FogHttpError) r0 /\ fst s' = fst s.
Proof. unfold on_metrics. destruct (m (snd s)) as [[? ?]|]; [|done]. intros [= <- <-]. by eexists. Qed.

Definition at_process (p : Process) (s : Process * world) : Prop := fst s = p.

Lemma checked_duration_reads {S} name seconds : reads (checked_duration (S := S) name seconds).
Proof. unfold checked_duration. eauto with method. Qed.

Lemma validate_numeric_reads {S} options : reads (validate_numeric_client_options (S := S) options).
Proof. unfold validate_numeric_client_options, checked, checked_duration. eauto 30 with method. Qed.

Lemma validate_timeouts_reads {S} a b c d : reads (validate_request_timeouts (S := S) a b c d).
Proof. unfold validate_request_timeouts, checked_duration. eauto 30 with method. Qed.

Lemma ensures_prefix {A B} p (m : constructing A) (k : A -> constructing B) (Q : result B PyErr -> Process * world -> Prop) :
  preserves (at_process p) m -> (forall e s, at_process p s -> Q (Err e) s) ->
  (forall a, ensures (at_process p) (k a) Q) -> ensures (at_process p) (m ≫= k) Q.
Proof.
  intros Hm HQ Hk. apply (ensures_bind _ _ _ (fun _ => at_process p)); [|done].
  intros s r s' Hs Hr. specialize (Hm _ _ _ Hs Hr). destruct r; auto.
Qed.

Lemma reads_preserves {S E A} (I : S -> Prop) (m : method S E A) : reads m -> preserves I m.
Proof. intros Hm s r s' HI Hr. by rewrite (Hm _ _ _ Hr). Qed.

Lemma on_metrics_preserves {A} p (m : method world string A) : preserves (at_process p) (on_metrics m).
Proof. intros s r s' Hs Hr. apply on_metrics_inv in Hr as (_ & _ & _ & Hp). unfold at_process in *. congruence. Qed.

Lemma build_clients_preserves p a ssrf tel : preserves (at_process p) (build_transport_clients a ssrf tel).
Proof.
  unfold build_transport_clients. apply preserves_bind; [apply on_metrics_preserves|]. intros c.
  apply preserves_bind; [|intros; apply preserves_ret]. destruct (proxy_options a ssrf); [|apply preserves_ret].
  apply preserves_bind; [apply on_metrics_preserves|]. intros. apply preserves_ret.
Qed.

Lemma build_retry_preserves p a : preserves (at_process p) (build_retry_policy a).
Proof. unfold build_retry_policy. destruct (arg_retry_retries a); eauto with method. Qed.

(** A client that is constructed owns its runtime; a construction that fails owns nothing. *)
Lemma new_ok env setters a p os : runtimes_ok p os ->
  ensures (at_process p) (new env setters a) (fun r s => same_process p (fst s) /\
    match r with
    | Ok c => exists rt cs, runtime c = Some rt /\ clients c = Some cs /\ created_in c = process_id p /\
                runtimes_ok (fst s) ((created_in c, rt) :: os)
    | Err _ => runtimes_ok (fst s) os
    end).
Proof.
  intros Hok. unfold new.
  assert (Herr : forall e s, at_process p s -> same_process p (fst s) /\
    match Err e : result RawClient PyErr with
    | Ok c => exists rt cs, runtime c = Some rt /\ clients c = Some cs /\ created_in c = process_id p /\
                runtimes_ok (fst s) ((created_in c, rt) :: os)
    | Err _ => runtimes_ok (fst s) os
    end) by (intros e s ->; by split).
  do 8 (apply ensures_prefix;
    [first [apply preserves_result|apply reads_preserves, validate_numeric_reads|apply build_retry_preserves]|exact Herr|intros ?]).
  cbv zeta. apply ensures_prefix; [apply build_clients_preserves|exact Herr|intros cs].
  eapply (ensures_bind _ _ _ (fun rt s => same_process p (fst s) /\ runtimes_ok (fst s) ((process_id p, rt) :: os))).
  { intros s r s' Hs Hr. unfold at_process in Hs. subst p. apply on_process_inv in Hr as [Hr _].
    destruct (client_runtime_build_ok env (arg_max_active_requests a) a7 (arg_runtime_workers a) (fst s) os Hok)
      as (r1 & p1 & Hb & Hsame & Hrt).
    rewrite Hb in Hr. injection Hr as <- Hp. rewrite <- Hp. destruct r1 as [cr|e]; [|by split].
    split; [done|]. by rewrite <- (proj1 Hsame). }
  intros rt. eapply (ensures_bind _ _ _ (fun _ s => same_process p (fst s) /\ runtimes_ok (fst s) ((process_id p, rt) :: os))).
  { intros s r s' [Hs Hrt] Hr. unfold on_error, of_result in Hr. destruct setters as [[]|e]; injection Hr as <- <-; [done|].
    cbn. split; [done|]. by eapply drop_client_runtime_ok. }
  intros ?. intros s r s' [Hs Hrt] Hr. unfold gets, mbind, method_bind in Hr. injection Hr as <- <-. split; [done|].
  exists rt, cs. destruct Hs as [Hid _]. cbn. rewrite Hid. by split_and!.
Qed.

(** ** Invariants of the world *)

(** The processes along the line, the current one last. *)
Definition pids (w : World) : list ProcessId := ancestors (process w) ++ [process_id (process w)].

Record world_ok (w : World) : Prop := {
  world_runtimes : runtimes_ok (process w) (owners w);
  (** a client is not closed while a call borrows it *)
  world_pending call : call ∈ pending w -> exists c r, objects w !! pending_client call = Some c /\ runtime c = Some r /\
    runtime_of r = call_runtime (pending_call call) /\ pids w !! pending_process call = Some (created_in c);
  world_requests n r : requests w !! n = Some r -> exists c, objects w !! record_client r = Some c /\
    pids w !! record_process r = Some (created_in c);
  world_log g k e : (g, k, e) ∈ log w -> exists c pid, objects w !! k = Some c /\ pids w !! g = Some pid /\
    (pid = created_in c \/ foreign_effect e);
}.

Lemma runtime_effects_same es p : same_process p (fold_left (fun p e => runtime_effect e p) es p).
Proof.
  revert p; induction es as [|e es IH]; intros p; cbn; [done|]. destruct (IH (runtime_effect e p)) as [Hid Han].
  split; [rewrite Hid|rewrite Han]; by destruct e as [| | | | | | | | |[]| | | |].
Qed.

Lemma emit_pids k es w : pids (emit k es w) = pids w.
Proof. unfold pids, emit. cbn. by destruct (runtime_effects_same es (process w)) as [-> ->]. Qed.

Lemma pids_current w : pids w !! generation w = Some (process_id (process w)).
Proof. unfold pids, generation. by apply list_lookup_middle. Qed.

Definition is_runtime_effect (e : Effect) : bool := match e with RuntimeReleased _ | RuntimeForgotten _ => true | _ => false end.

Lemma no_runtime_effects es p : forallb (fun e => negb (is_runtime_effect e)) es = true ->
  fold_left (fun p e => runtime_effect e p) es p = p.
Proof. revert p; induction es as [|e es IH]; intros p; cbn; [done|]. intros [He Hes]%andb_true_iff. rewrite IH by done. by destruct e. Qed.

(** Effects on a client that the current process created, or that only forget. *)
Lemma emit_ok k es w c : world_ok w -> objects w !! k = Some c ->
  forallb (fun e => negb (is_runtime_effect e)) es = true ->
  created_in c = process_id (process w) -> world_ok (emit k es w).
Proof.
  intros [Hrt Hp Hr Hl] Hk Hes Hc. split; try (setoid_rewrite emit_pids).
  - unfold emit. cbn. by rewrite no_runtime_effects.
  - exact Hp.
  - exact Hr.
  - intros g j e. unfold emit at 1. cbn. intros [Hin|Hin]%elem_of_app; [by apply Hl|].
    apply list_elem_of_fmap in Hin as (e' & [= -> -> ->] & _). exists c, (process_id (process w)).
    split_and!; [done|apply pids_current|by left].
Qed.

Lemma checks_facts m current c a call u : request_checks m current c a tt = Some (Ok call, u) ->
  created_in c = current /\ exists r cs, runtime c = Some r /\ clients c = Some cs /\
    call_runtime call = runtime_of r /\ call_clients call = cs /\ call_mode call = m /\
    call_request call = transport_request c a.
Proof.
  unfold request_checks, ensure_current_process, clients_unchecked, runtime_unchecked. intros Hc. method_inv.
  destruct (Z.eqb_spec (created_in c) current); [|done]. split; [done|].
  destruct (clients c) as [cs|]; [|done]. destruct (runtime c) as [r|]; [|done]. exists r, cs. simplify_eq.
  destruct m; method_inv; by split_and!.
Qed.

Lemma owners_emit k es w : owners (emit k es w) = owners w.
Proof. done. Qed.

Lemma owners_close k c c' w : objects w !! k = Some c -> owner c' = None ->
  exists rest, owners w ≡ₚ option_list (owner c) ++ rest /\ owners (w <| objects ::= <[k := c']> |>) ≡ₚ rest.
Proof.
  intros Hk Hc'. destruct (omap_insert owner (objects w) k c Hk) as (a & b & Ha & Hi). exists (a ++ b).
  unfold owners. cbn. rewrite Ha, (Hi c'), Hc'. split; [|done]. rewrite !app_assoc. f_equiv. apply Permutation_app_comm.
Qed.

Lemma borrowed_false k w : borrowed k w = false -> forall call, call ∈ pending w -> pending_client call <> k.
Proof.
  unfold borrowed. intros Hb call Hin Hk. assert (existsb (fun call => Nat.eqb (pending_client call) k) (pending w) = true); [|congruence].
  apply existsb_exists. exists call. split; [by apply list_elem_of_In|]. by apply Nat.eqb_eq.
Qed.

Lemma close_ok k c w : world_ok w -> objects w !! k = Some c -> world_ok (snd (close k c w)).
Proof.
  intros Hok Hk. unfold close. destruct (borrowed k w) eqn:Hb; [done|].
  destruct (close_resources _ c) as [c' es] eqn:Hc. apply close_resources_facts in Hc as (_ & Hrt' & Hcr & Hforget & _ & Hfold).
  destruct Hok as [Hrt Hp Hr Hl]. cbn [snd].
  assert (Hpids : pids ((emit k es w) <| objects ::= <[k := c']> |>) = pids w).
  { rewrite <- (emit_pids k es w). done. }
  assert (Hlt : (k < length (objects w))%nat) by (by eapply lookup_lt_Some).
  assert (Hobj : forall j d, objects w !! j = Some d -> exists d', <[k := c']> (objects w) !! j = Some d' /\
            created_in d' = created_in d /\ (j <> k -> d' = d)).
  { intros j d Hj. destruct (decide (j = k)) as [->|Hne].
    - rewrite Hk in Hj. injection Hj as <-. exists c'. by rewrite list_lookup_insert_eq.
    - exists d. by rewrite list_lookup_insert_ne. }
  split; rewrite ?Hpids; try (setoid_rewrite Hpids).
  - destruct (owners_close k c c' w Hk) as (rest & Hbefore & Hafter); [unfold owner; by rewrite Hrt'|].
    apply (runtimes_ok_perm _ _ _ (symmetry Hafter)). unfold emit. cbn. rewrite Hfold.
    apply (runtimes_ok_perm _ _ _ Hbefore) in Hrt. revert Hrt. unfold owner. destruct (runtime c) as [r|]; cbn; [|done].
    intros Hrt. destruct (created_in c =? process_id (process w)); [by eapply shutdown_background_ok|by eapply forget_owner_ok].
  - intros call Hin. destruct (Hp call Hin) as (d & r & Hj & Hd & Hrun & Hpid).
    destruct (Hobj _ _ Hj) as (d' & Hj' & Hcd & Hsame). specialize (Hsame (borrowed_false _ _ Hb _ Hin)). subst d'. by exists d, r.
  - intros n r Hn. destruct (Hr n r Hn) as (d & Hj & Hpid). destruct (Hobj _ _ Hj) as (d' & Hj' & Hcd & _).
    exists d'. by rewrite Hcd.
  - intros g j e. unfold emit at 1. cbn. intros [Hin|Hin]%elem_of_app.
    + destruct (Hl g j e Hin) as (d & pid & Hj & Hpid & He). destruct (Hobj _ _ Hj) as (d' & Hj' & Hcd & _).
      exists d', pid. by rewrite Hcd.
    + apply list_elem_of_fmap in Hin as (e' & [= -> -> ->] & He'). exists c', (process_id (process w)).
      split_and!; [by rewrite list_lookup_insert_eq|apply pids_current|]. rewrite Hcr.
      destruct (decide (created_in c = process_id (process w))) as [Heq|Hne]; [by left|right].
      specialize (Hforget Hne). rewrite Forall_forall in Hforget. by apply Hforget.
Qed.

Lemma completion_ok n w : world_ok w -> world_ok (snd (completion_finish n w)).
Proof.
  intros [Hrt Hp Hr Hl]. split; [exact Hrt|exact Hp| |exact Hl]. cbn. intros i r Hi.
  destruct (decide (n = i)) as [->|Hne].
  - rewrite list_lookup_alter_eq in Hi. destruct (requests w !! i) as [r0|] eqn:H0i; [|done]. injection Hi as <-. exact (Hr i r0 H0i).
  - rewrite list_lookup_alter_ne in Hi by done. by apply (Hr i).
Qed.

Lemma pending_created w call c : world_ok w -> call ∈ pending w -> pending_process call = generation w ->
  objects w !! pending_client call = Some c -> created_in c = process_id (process w).
Proof.
  intros Hok Hin Hg Hk. destruct (world_pending _ Hok call Hin) as (c' & r & Hk' & _ & _ & Hpid).
  rewrite Hg, pids_current in Hpid. rewrite Hk in Hk'. by injection Hpid as ->; injection Hk' as ->.
Qed.

Lemma request_begin_ok m k c a r w w' : world_ok w -> objects w !! k = Some c ->
  request_begin m k c a w = Some (r, w') -> world_ok w'.
Proof.
  intros Hok Hk. unfold request_begin. destruct (request_checks _ _ c a tt) as [[[call|e] u]|] eqn:Hc; [|by intros [= <- <-]|done].
  apply checks_facts in Hc as (Hcur & rt & cs & Hrt & _ & Hcall & _). intros Heq. injection Heq as _ <-.
  pose proof (emit_ok k [Started (length (requests w)); Sent (length (requests w)) call] w c Hok Hk eq_refl Hcur)
    as [Hr1 Hp1 Hn1 Hl1].
  assert (Hgen : pids w !! generation w = Some (created_in c)) by (rewrite Hcur; apply pids_current).
  split; [exact Hr1| | |exact Hl1].
  - cbn. intros call' [Hin| ->%list_elem_of_singleton]%elem_of_app; [by apply Hp1|]. by exists c, rt.
  - cbn. intros n r' [[_ Hn]|[_ <-]]%lookup_snoc_Some; [by apply (Hn1 n)|]. by exists c.
Qed.

Lemma request_end_ok j call is_err w : world_ok w -> pending w !! j = Some call -> pending_process call = generation w ->
  world_ok (request_end j call is_err w).
Proof.
  intros Hok Hj Hg. assert (Hin : call ∈ pending w) by (by eapply list_elem_of_lookup_2).
  destruct (world_pending _ Hok call Hin) as (c & rt & Hk & _).
  pose proof (pending_created _ _ _ Hok Hin Hg Hk) as Hc.
  assert (Hw : world_ok (w <| pending ::= delete j |>)).
  { destruct Hok as [Hrt Hp Hr Hl]. split; [exact Hrt| |exact Hr|exact Hl]. cbn. intros call' Hin'. apply Hp.
    by eapply elem_of_sublist; [exact Hin'|apply sublist_delete]. }
  pose proof (completion_ok (pending_request call) _ Hw) as Hw'.
  unfold request_end. destruct (call_mode (pending_call call)); [|destruct is_err; [|exact Hw]].
  - cbn. by apply (emit_ok _ _ _ c).
  - unfold completion_finish in *. destruct (match requests _ !! _ with Some _ => _ | None => _ end); [by apply (emit_ok _ _ _ c)|exact Hw'].
Qed.

Lemma world_step_ok w w' : world_ok w -> world_step w w' -> world_ok w'.
Proof.
  intros Hok Hstep. destruct Hstep as [env setters a ms r p' ms' Hnew|m k c a r w' Hk Hreq|j call is_err Hj Hg
    |n r failed Hn Hm Hg|m k c a r w' Hk Hreq|k c Hk|pid Hpid].
  - destruct Hok as [Hrt Hp Hr Hl].
    destruct (new_ok env setters a (process w) (owners w) Hrt (process w, ms) r (p', ms') eq_refl Hnew) as [[Hid Han] Hnewrt]. cbn in Hid, Han, Hnewrt.
    set (w1 := w <| process := p' |> <| objects ::= _ |>).
    assert (Hpids : pids w1 = pids w) by (unfold pids; cbn; by rewrite Hid, Han).
    assert (Hobj : forall k d, objects w !! k = Some d -> objects w1 !! k = Some d) by (intros; cbn; by apply lookup_app_l_Some).
    split; rewrite ?Hpids; try (setoid_rewrite Hpids).
    + unfold owners. cbn. rewrite omap_app. destruct r as [c|e]; cbn.
      * destruct Hnewrt as (rt & cs & Hrtc & _ & Hcr & Hok). unfold owner at 2. rewrite Hrtc. cbn.
        eapply runtimes_ok_perm; [|exact Hok]. apply Permutation_cons_append.
      * by rewrite app_nil_r.
    + intros call Hin. destruct (Hp call Hin) as (c & rt & Hk & Hrest). exists c, rt. split; [by apply Hobj|done].
    + intros n r0 Hn. destruct (Hr n r0 Hn) as (c & Hk & Hrest). exists c. split; [by apply Hobj|done].
    + intros g k e Hin. destruct (Hl g k e Hin) as (c & pid & Hk & Hrest). exists c, pid. split; [by apply Hobj|done].
  - rewrite send_method_begin in Hreq. by eapply request_begin_ok.
  - by apply request_end_ok.
  - pose proof (completion_ok n w Hok) as Hw'. destruct (world_requests _ Hok n r Hn) as (c & Hk & Hpid).
    rewrite Hg, pids_current in Hpid. injection Hpid as Hc. unfold completion_finish in *.
    destruct (match requests w !! n with Some _ => _ | None => _ end); [by apply (emit_ok _ _ _ c)|exact Hw'].
  - rewrite spawn_method_spawn in Hreq. unfold request_spawn in Hreq. destruct (request_checks _ _ c a tt) as [[[call|e] u]|] eqn:Hc; [|by injection Hreq as _ <-|done].
    apply checks_facts in Hc as (Hcur & _). injection Hreq as _ <-. by apply (emit_ok _ _ _ c).
  - by apply close_ok.
  - destruct Hok as [Hrt Hp Hr Hl]. set (w1 := w <| process ::= fork pid |>).
    assert (Hpids : forall g q, pids w !! g = Some q -> pids w1 !! g = Some q) by (intros g q Hg; cbn; by apply lookup_app_l_Some).
    split; cbn [objects pending requests log w1].
    + by apply fork_ok.
    + intros call Hin. destruct (Hp call Hin) as (c & rt & Hk & Hc & Hrun & Hq). exists c, rt. split_and!; auto.
    + intros n r Hn. destruct (Hr n r Hn) as (c & Hk & Hq). exists c. split_and!; auto.
    + intros g k e Hin. destruct (Hl g k e Hin) as (c & q & Hk & Hq & He). exists c, q. split_and!; auto.
Qed.

Lemma initial_runtimes_ok pid : runtimes_ok (process (initial pid)) [].
Proof. split; cbn; try done; [apply NoDup_singleton|by intros ? ? ?%not_elem_of_nil]. Qed.

Lemma world_reachable_ok w : reachable w -> world_ok w.
Proof.
  intros [pid Hr]. refine (rtc_ind_r world_ok (initial pid) _ _ w Hr).
  - split; [apply initial_runtimes_ok| | |]; cbn; try done.
    + by intros ? ?%not_elem_of_nil.
    + by intros ? ? ? ?%not_elem_of_nil.
  - intros w1 w2 _ Hstep Hok. by eapply world_step_ok.
Qed.

(** ** Counting *)

Definition count (p : Effect -> bool) (es : list Effect) : Z := sum_over (fun e => Runtime.b2z (p e)) es.

(** Over the whole log, and over one client's part of it. *)
Definition tally (p : Effect -> bool) (l : list (nat * nat * Effect)) : Z := count p (snd <$> l).
Definition tally_of (k : nat) (p : Effect -> bool) (l : list (nat * nat * Effect)) : Z :=
  tally p (filter (fun x => snd (fst x) = k) l).

#[local] Arguments tally : simpl never.
#[local] Arguments tally_of : simpl never.

Definition is_started (n : nat) (e : Effect) : bool := match e with Started i => Nat.eqb i n | _ => false end.
Definition is_finished (n : nat) (e : Effect) : bool := match e with Finished i _ => Nat.eqb i n | _ => false end.
Definition gives_up_clients (e : Effect) : bool := match e with ClientsDropped | ClientsForgotten => true | _ => false end.

Lemma counted_app p es es' : count p (es ++ es') = count p es + count p es'.
Proof. apply sum_over_app. Qed.

Lemma count_none p es : forallb (fun e => negb (p e)) es = true -> count p es = 0.
Proof.
  intros Hf. apply sum_over_zero. intros e He. rewrite forallb_forall in Hf. specialize (Hf e (proj1 (list_elem_of_In _ _) He)).
  by destruct (p e).
Qed.

Lemma log_emit k es w : log (emit k es w) = log w ++ ((fun e => (generation w, k, e)) <$> es).
Proof. done. Qed.

Lemma tally_emit p k es w : tally p (log (emit k es w)) = tally p (log w) + count p es.
Proof.
  unfold tally. rewrite log_emit, fmap_app, counted_app. do 2 f_equal. rewrite <- list_fmap_compose. apply list_fmap_id.
Qed.

Lemma tally_of_emit j p k es w :
  tally_of j p (log (emit k es w)) = tally_of j p (log w) + (if decide (k = j) then count p es else 0).
Proof.
  unfold tally_of, tally. rewrite log_emit, filter_app, fmap_app, counted_app. f_equal.
  induction es as [|e es IH]; [by case_decide|]. rewrite fmap_cons, filter_cons. cbn [fst snd].
  case_decide; [|done]. rewrite fmap_cons. unfold count in *. cbn [sum_over snd]. lia.
Qed.

Record world_counted (w : World) : Prop := {
  counted_started n : tally (is_started n) (log w) = if decide (n < length (requests w))%nat then 1 else 0;
  counted_finished n : tally (is_finished n) (log w) = match requests w !! n with Some r => Runtime.b2z (record_finished r) | None => 0 end;
  (** the call of a buffered request waits until the request is finished *)
  counted_pending call : call ∈ pending w -> exists r, requests w !! pending_request call = Some r /\
    record_mode r = call_mode (pending_call call) /\ record_process r = pending_process call /\
    (record_mode r = BufferedMode -> record_finished r = false);
  counted_once : NoDup (pending_request <$> pending w);
  counted_buffered n r : requests w !! n = Some r -> record_mode r = BufferedMode -> record_finished r = false ->
    exists call, call ∈ pending w /\ pending_request call = n;
  (** what a client holds it gives up once *)
  counted_runtime k : tally_of k is_runtime_effect (log w) =
    match objects w !! k with Some c => Runtime.b2z (negb (is_some (runtime c))) | None => 0 end;
  counted_clients k : tally_of k gives_up_clients (log w) =
    match objects w !! k with Some c => Runtime.b2z (negb (is_some (clients c))) | None => 0 end;
}.

Lemma close_resources_counts current c c' es : close_resources current c = (c', es) ->
  count is_runtime_effect es = Runtime.b2z (is_some (runtime c)) /\ count gives_up_clients es = Runtime.b2z (is_some (clients c)) /\
  forallb (fun e => match e with Started _ | Finished _ _ => false | _ => true end) es = true.
Proof.
  unfold close_resources. cbn. destruct (created_in c =? current), (runtime c) as [r|]; intros Heq; injection Heq as _ <-;
    destruct (cookie_jar c), (telemetry c), (is_some (clients c)); by split_and!.
Qed.

(** What is counted depends on the parts below. *)
Lemma world_counted_ext w w' : log w' = log w -> requests w' = requests w -> pending w' = pending w -> objects w' = objects w ->
  world_counted w -> world_counted w'.
Proof. intros Hl Hr Hp Ho [H1c H2c H3c H4c H5c H6c H7c]. split; rewrite ?Hl, ?Hr, ?Hp, ?Ho; done. Qed.

(** Effects that are not counted. *)
Lemma emit_uncounted k e w : match e with Sent _ _ | Spawned _ => true | _ => false end = true ->
  world_counted w -> world_counted (emit k [e] w).
Proof.
  intros He [H1c H2c H3c H4c H5c H6c H7c]. split; try done; intros n; rewrite ?tally_emit, ?tally_of_emit.
  - destruct e; try done; rewrite <- H1c; cbn; lia.
  - destruct e; try done; rewrite H2c; cbn; lia.
  - destruct e; try done; rewrite H6c; cbn; case_decide; lia.
  - destruct e; try done; rewrite H7c; cbn; case_decide; lia.
Qed.

Lemma begin_counted k m call w : call_mode call = m -> world_counted w ->
  let n := length (requests w) in
  world_counted ((emit k [Started n; Sent n call] w)
    <| requests ::= fun l => l ++ [{| record_client := k; record_process := generation w; record_mode := m; record_finished := false |}] |>
    <| pending ::= fun l => l ++ [{| pending_client := k; pending_request := n; pending_process := generation w;
                                     pending_call := call |}] |>).
Proof.
  intros Hm [H1c H2c H3c H4c H5c H6c H7c] n. set (r0 := {| record_client := k; record_mode := m |}).
  set (c0 := {| pending_client := k; pending_call := call |}).
  split; cbn [requests pending objects log update_field].
  - intros i. rewrite tally_emit, H1c. unfold count. cbn. rewrite length_app. cbn. subst n.
    destruct (Nat.eqb_spec (length (requests w)) i) as [Heq|Hne]; cbn; repeat case_decide; lia.
  - intros i. rewrite tally_emit, H2c. cbn. rewrite Z.add_0_r. destruct (decide (i = n)) as [->|Hne].
    + rewrite lookup_ge_None_2, list_lookup_middle; done.
    + destruct (requests w !! i) as [r|] eqn:Hi; [by rewrite (lookup_app_l_Some _ _ _ _ Hi)|].
      apply lookup_ge_None in Hi. rewrite lookup_ge_None_2; [done|]. rewrite length_app. cbn. subst n. lia.
  - cbn. intros c' [Hin| ->%list_elem_of_singleton]%elem_of_app.
    + destruct (H3c c' Hin) as (r & Hr & Hrest). exists r. split; [by apply lookup_app_l_Some|done].
    + exists r0. split; [by apply list_lookup_middle|by split_and!].
  - cbn. rewrite fmap_app, NoDup_app. split_and!; [done| |apply NoDup_singleton].
    intros x Hx ->%list_elem_of_singleton. apply list_elem_of_fmap in Hx as (c' & Hc' & Hin).
    destruct (H3c c' Hin) as (r & Hr & _). apply lookup_lt_Some in Hr. cbn in Hc'. subst n. lia.
  - cbn. intros i r [[_ Hi]|[-> <-]]%lookup_snoc_Some Hb Hf.
    + destruct (H5c i r Hi Hb Hf) as (c' & Hin & Hc'). exists c'. split; [|done]. apply elem_of_app. by left.
    + exists c0. split; [|done]. apply elem_of_app. right. by apply list_elem_of_singleton.
  - intros j. rewrite tally_of_emit, H6c. cbn. case_decide; lia.
  - intros j. rewrite tally_of_emit, H7c. cbn. case_decide; lia.
Qed.

Lemma lookup_finish n (l : list RequestRecord) i r : alter (fun r => r <| record_finished := true |>) n l !! i = Some r ->
  exists r0, l !! i = Some r0 /\ record_mode r = record_mode r0 /\ record_process r = record_process r0 /\
    record_client r = record_client r0 /\ record_finished r = (if decide (i = n) then true else record_finished r0).
Proof.
  destruct (decide (i = n)) as [->|Hne].
  - rewrite list_lookup_alter_eq. destruct (l !! n) as [r0|]; [|done]. intros [= <-]. by exists r0.
  - rewrite list_lookup_alter_ne by done. intros Hi. by exists r.
Qed.

Lemma lookup_finish_Some n (l : list RequestRecord) i r0 : l !! i = Some r0 ->
  exists r, alter (fun r => r <| record_finished := true |>) n l !! i = Some r /\ record_mode r = record_mode r0 /\
    record_process r = record_process r0 /\ record_finished r = (if decide (i = n) then true else record_finished r0).
Proof.
  intros Hi. destruct (decide (i = n)) as [->|Hne].
  - rewrite list_lookup_alter_eq, Hi. by eexists.
  - rewrite list_lookup_alter_ne, Hi by done. by eexists.
Qed.

(** A request is counted as finished, and with a buffered one its call is over. *)
Lemma finish_counted k n failed rest w r : world_counted w -> requests w !! n = Some r -> record_finished r = false ->
  rest `sublist_of` pending w -> (forall c, c ∈ pending w -> c ∈ rest \/ pending_request c = n) ->
  (record_mode r = BufferedMode -> forall c, c ∈ rest -> pending_request c <> n) ->
  world_counted (emit k [Finished n failed]
    (w <| pending := rest |> <| requests ::= alter (fun r => r <| record_finished := true |>) n |>)).
Proof.
  intros [H1c H2c H3c H4c H5c H6c H7c] Hn Hf Hsub Hrest Hbuf. set (w1 := w <| pending := rest |> <| requests ::= _ |>).
  split; cbn [requests pending objects update_field emit].
  - intros i. rewrite tally_emit. change (log w1) with (log w). cbn. rewrite Z.add_0_r, length_alter. apply H1c.
  - intros i. rewrite tally_emit. change (log w1) with (log w). rewrite (H2c i). cbn. rewrite Z.add_0_r. destruct (Nat.eqb_spec n i) as [<-|Hne].
    + rewrite Hn, list_lookup_alter_eq, Hn. cbn. by rewrite Hf.
    + rewrite list_lookup_alter_ne by done. cbn. lia.
  - cbn. intros c Hc. destruct (H3c c (elem_of_sublist _ _ _ Hc Hsub)) as (r1 & Hr1 & Hm & Hp & Hb).
    destruct (lookup_finish_Some n _ _ _ Hr1) as (r2 & Hr2 & Hm2 & Hp2 & Hf2). exists r2. split_and!; [done|congruence|congruence|].
    intros Hbm. rewrite Hf2, decide_False; [apply Hb; congruence|]. intros Heq.
    assert (r1 = r) as -> by congruence. rewrite Hm2 in Hbm. by apply (Hbuf Hbm c Hc).
  - cbn. eapply sublist_NoDup; [exact H4c|]. by apply fmap_sublist.
  - cbn. intros i r1 Hi Hbm Hfin. apply lookup_finish in Hi as (r0 & Hi & Hm & _ & _ & Hf1).
    rewrite Hf1 in Hfin. case_decide as Hin; [done|]. rewrite Hm in Hbm. destruct (H5c i r0 Hi Hbm Hfin) as (c & Hc & Hci).
    exists c. split; [|done]. destruct (Hrest c Hc) as [?|?]; [done|congruence].
  - intros i. rewrite tally_of_emit. change (log w1) with (log w). rewrite H6c. cbn. case_decide; lia.
  - intros i. rewrite tally_of_emit. change (log w1) with (log w). rewrite H7c. cbn. case_decide; lia.
Qed.

Lemma pending_split w j call : world_counted w -> pending w !! j = Some call ->
  delete j (pending w) `sublist_of` pending w /\
  (forall c, c ∈ pending w -> c ∈ delete j (pending w) \/ pending_request c = pending_request call) /\
  (forall c, c ∈ delete j (pending w) -> pending_request c <> pending_request call).
Proof.
  intros Hc Hj. pose proof (counted_once _ Hc) as Hnd. rewrite delete_take_drop.
  rewrite <- (take_drop_middle _ _ _ Hj) in Hnd at 1. rewrite fmap_app, fmap_cons in Hnd.
  split_and!.
  - rewrite <- delete_take_drop. apply sublist_delete.
  - intros c Hin. rewrite <- (take_drop_middle _ _ _ Hj) in Hin. rewrite elem_of_app in *.
    destruct Hin as [?|[->|?]%elem_of_cons]; auto.
  - intros c Hin Heq. apply NoDup_app in Hnd as (_ & Hd & [Hni _]%NoDup_cons).
    apply elem_of_app in Hin as [Hin|Hin]; apply (list_elem_of_fmap_2 pending_request) in Hin; rewrite Heq in Hin; [|done].
    apply (Hd _ Hin). by left.
Qed.

Lemma end_counted j call is_err w : world_counted w -> pending w !! j = Some call -> world_counted (request_end j call is_err w).
Proof.
  intros Hc Hj. destruct (pending_split _ _ _ Hc Hj) as (Hsub & Hrest & Hother).
  assert (Hin : call ∈ pending w) by (by eapply list_elem_of_lookup_2).
  destruct (counted_pending _ Hc call Hin) as (r & Hr & Hm & _ & Hb). unfold request_end.
  assert (Hkeep : call_mode (pending_call call) = StreamMode -> world_counted (w <| pending ::= delete j |>)).
  { intros Hstream. destruct Hc as [H1c H2c H3c H4c H5c H6c H7c]. split; try done; cbn.
    - intros c Hcin. apply H3c. by eapply elem_of_sublist.
    - eapply sublist_NoDup; [exact H4c|]. by apply fmap_sublist.
    - intros i r1 Hi Hbm Hf. destruct (H5c i r1 Hi Hbm Hf) as (c & Hcin & Hci). exists c. split; [|done].
      destruct (Hrest c Hcin) as [?|Heq]; [done|]. exfalso. rewrite <- Hci, Heq, Hr in Hi. injection Hi as ->. congruence. }
  destruct (call_mode (pending_call call)) eqn:Hmode; [|destruct is_err; [|by apply Hkeep]].
  - cbn. apply (finish_counted _ _ _ _ w r); auto.
  - unfold completion_finish. cbn. rewrite Hr. destruct (record_finished r) eqn:Hf; cbn.
    + apply (world_counted_ext (w <| pending ::= delete j |>)); try done; [|by apply Hkeep]. cbn.
      apply list_eq. intros i. destruct (decide (i = pending_request call)) as [->|Hne]; [|by rewrite list_lookup_alter_ne].
      rewrite list_lookup_alter_eq, Hr. cbn. f_equal. destruct r; cbn in *. by subst.
    + apply (finish_counted _ _ _ _ w r); auto.
Qed.

Lemma close_counted k c w : world_counted w -> objects w !! k = Some c -> world_counted (snd (close k c w)).
Proof.
  intros Hc Hk. unfold close. destruct (borrowed k w); [done|].
  destruct (close_resources _ c) as [c' es] eqn:Hclose. pose proof (close_resources_facts _ _ _ _ Hclose) as (Hcl & Hrt & _).
  apply close_resources_counts in Hclose as (Hr & Hcs & Hplain). destruct Hc as [H1c H2c H3c H4c H5c H6c H7c].
  set (w1 := (emit k es w) <| objects ::= <[k := c']> |>).
  assert (Hzero : forall p, (forall e, match e with Started _ | Finished _ _ => true | _ => negb (p e) end = true) -> count p es = 0).
  { intros p Hp. apply count_none. rewrite forallb_forall in *. intros e He. specialize (Hplain e He). specialize (Hp e). by destruct e. }
  assert (Hlt : (k < length (objects w))%nat) by (by eapply lookup_lt_Some).
  change (world_counted w1). split; try done; intros j; change (log w1) with (log (emit k es w)); rewrite ?tally_emit, ?tally_of_emit.
  - rewrite Hzero, Z.add_0_r by (by intros []). apply H1c.
  - rewrite Hzero, Z.add_0_r by (by intros []). apply H2c.
  - rewrite H6c, Hr. cbn. case_decide as Hkj.
    + subst j. rewrite Hk, list_lookup_insert_eq, Hrt by done. by destruct (runtime c).
    + rewrite list_lookup_insert_ne, Z.add_0_r by done. done.
  - rewrite H7c, Hcs. cbn. case_decide as Hkj.
    + subst j. rewrite Hk, list_lookup_insert_eq, Hcl by done. by destruct (clients c).
    + rewrite list_lookup_insert_ne, Z.add_0_r by done. done.
Qed.

Lemma world_step_counted w w' : world_ok w -> world_counted w -> world_step w w' -> world_counted w'.
Proof.
  intros Hok Hc Hstep. destruct Hstep as [env setters a ms r p' ms' Hnew|m k c a r w' Hk Hreq|j call is_err Hj Hg
    |n r failed Hn Hm Hg|m k c a r w' Hk Hreq|k c Hk|pid Hpid].
  - destruct (new_ok env setters a (process w) (owners w) (world_runtimes _ Hok) (process w, ms) r (p', ms') eq_refl Hnew) as [_ Hnewrt].
    destruct Hc as [H1c H2c H3c H4c H5c H6c H7c]. split; try done; intros j; cbn; rewrite ?H6c, ?H7c;
      (destruct (objects w !! j) as [c|] eqn:Hj; [by rewrite (lookup_app_l_Some _ _ _ _ Hj)|]);
      apply lookup_ge_None in Hj; rewrite lookup_app_r by done;
      (destruct r as [c|e]; [destruct Hnewrt as (rt & cs & Hrt & Hcs & _)|done]);
      (destruct (j - length (objects w))%nat; cbn; [by rewrite ?Hrt, ?Hcs|done]).
  - rewrite send_method_begin in Hreq. unfold request_begin in Hreq. destruct (request_checks _ _ c a tt) as [[[call|e] u]|] eqn:Hcheck; [|by injection Hreq as _ <-|done].
    apply checks_facts in Hcheck as (_ & rt & cs & _ & _ & _ & _ & Hmode & _). injection Hreq as _ <-. by apply begin_counted.
  - by apply end_counted.
  - unfold completion_finish. rewrite Hn. destruct (record_finished r) eqn:Hf; cbn.
    + eapply world_counted_ext; [| | | |exact Hc]; try done. cbn. apply list_eq. intros i.
      destruct (decide (i = n)) as [->|Hne]; [|by rewrite list_lookup_alter_ne].
      rewrite list_lookup_alter_eq, Hn. cbn. f_equal. destruct r; cbn in *. by subst.
    + apply (finish_counted _ n failed (pending w) w r); auto. congruence.
  - rewrite spawn_method_spawn in Hreq. unfold request_spawn in Hreq. destruct (request_checks _ _ c a tt) as [[[call|e] u]|]; [|by injection Hreq as _ <-|done].
    injection Hreq as _ <-. by apply emit_uncounted.
  - by apply close_counted.
  - by eapply world_counted_ext; [| | | |exact Hc].
Qed.

Lemma reachable_counted w : reachable w -> world_ok w /\ world_counted w.
Proof.
  intros Hw. split; [by apply world_reachable_ok|]. destruct Hw as [pid Hr].
  refine (proj2 (rtc_ind_r (fun w => world_ok w /\ world_counted w) (initial pid) _ _ w Hr)).
  - split; [apply world_reachable_ok; exists pid; apply rtc_refl|]. split; cbn; try done.
    + by intros ? ?%not_elem_of_nil.
    + apply NoDup_nil_2.
  - intros w1 w2 _ Hstep [Hok Hc]. split; [by eapply world_step_ok|by eapply world_step_counted].
Qed.

(** What the log says a client gave up: its runtime, its transport. *)
Definition runtimes_given_up (k : nat) (w : World) : Z := tally_of k is_runtime_effect (log w).
Definition transports_given_up (k : nat) (w : World) : Z := tally_of k gives_up_clients (log w).

(** Closing a client that no call borrows: it holds nothing afterwards, and what it held it
    has given up, in the process that created it by shutting the runtime down. *)
Definition closes (k : nat) (c : RawClient) (w : World) : Prop :=
  let w' := snd (close k c w) in
  fst (close k c w) = Ok tt /\
  (exists c', objects w' !! k = Some c' /\ runtime c' = None /\ clients c' = None) /\
  runtimes_given_up k w' = 1 /\ transports_given_up k w' = 1 /\
  forall r, runtime c = Some r ->
    if created_in c =? process_id (process w)
    then (generation w, k, RuntimeReleased r) ∈ log w' /\ process w' = shutdown_background r (process w)
    else (generation w, k, RuntimeForgotten r) ∈ log w' /\ process w' = process w.

Lemma close_closes k c w : world_counted w -> objects w !! k = Some c -> borrowed k w = false -> closes k c w.
Proof.
  intros Hc Hk Hb. pose proof (close_counted k c w Hc Hk) as Hc'. revert Hc'. unfold closes, close. rewrite Hb.
  destruct (close_resources _ c) as [c' es] eqn:Hclose.
  apply close_resources_facts in Hclose as (Hcl & Hrt & _ & _ & Hin & Hfold). cbn [fst snd]. intros Hc'.
  pose proof (counted_runtime _ Hc' k) as Hruntimes. pose proof (counted_clients _ Hc' k) as Htransports.
  assert (Hk' : <[k := c']> (objects w) !! k = Some c') by (apply list_lookup_insert_eq; by eapply lookup_lt_Some).
  cbn in Hruntimes, Htransports. rewrite Hk' in Hruntimes, Htransports. rewrite Hrt in Hruntimes. rewrite Hcl in Htransports.
  split_and!; [done|by exists c'|exact Hruntimes|exact Htransports|]. intros r Hr. specialize (Hin r Hr). specialize (Hfold (process w)).
  rewrite Hr in Hfold. cbn. destruct (created_in c =? process_id (process w)); (split; [|exact Hfold]);
    apply elem_of_app; right; apply list_elem_of_fmap; by eexists.
Qed.

(** No other step has a client give anything up. *)
Lemma step_gives_up k w w' : world_ok w -> world_counted w -> world_step w w' ->
  (exists c, objects w !! k = Some c /\ borrowed k w = false /\ w' = snd (close k c w)) \/
  (runtimes_given_up k w' = runtimes_given_up k w /\ transports_given_up k w' = transports_given_up k w).
Proof.
  intros Hok Hc Hstep. pose proof (world_step_counted _ _ Hok Hc Hstep) as Hc'. unfold runtimes_given_up, transports_given_up.
  rewrite (counted_runtime _ Hc'), (counted_clients _ Hc'), (counted_runtime _ Hc), (counted_clients _ Hc).
  assert (Hsame : objects w' !! k = objects w !! k -> (match objects w' !! k with Some c => Runtime.b2z (negb (is_some (runtime c))) | None => 0 end =
     match objects w !! k with Some c => Runtime.b2z (negb (is_some (runtime c))) | None => 0 end) /\
     (match objects w' !! k with Some c => Runtime.b2z (negb (is_some (clients c))) | None => 0 end =
     match objects w !! k with Some c => Runtime.b2z (negb (is_some (clients c))) | None => 0 end)) by (by intros ->).
  clear Hc'. destruct Hstep as [env setters a ms r p' ms' Hnew|m j c a r w' Hj Hreq|j call is_err Hj Hg
    |n r failed Hn Hm Hg|m j c a r w' Hj Hreq|j c Hj|pid Hpid].
  - right. destruct (new_ok env setters a (process w) (owners w) (world_runtimes _ Hok) (process w, ms) r (p', ms') eq_refl Hnew) as [_ Hnewrt].
    cbn in *. destruct (objects w !! k) as [c|] eqn:Hk; [apply Hsame; by apply lookup_app_l_Some|].
    apply lookup_ge_None in Hk. rewrite lookup_app_r in * by done.
    destruct r as [c|e]; [|done]. destruct Hnewrt as (rt & cs & Hrt & Hcs & _).
    destruct (k - length (objects w))%nat; cbn; [by rewrite ?Hrt, ?Hcs|done].
  - right. apply Hsame. rewrite send_method_begin in Hreq. unfold request_begin in Hreq.
    destruct (request_checks _ _ c a tt) as [[[call|e] u]|]; [| |done]; by injection Hreq as _ <-.
  - right. apply Hsame. unfold request_end, completion_finish. destruct (call_mode _); [done|]. destruct is_err; [|done].
    by destruct (match requests _ !! _ with Some _ => _ | None => _ end).
  - right. apply Hsame. unfold completion_finish. by destruct (match requests _ !! _ with Some _ => _ | None => _ end).
  - right. apply Hsame. rewrite spawn_method_spawn in Hreq. unfold request_spawn in Hreq.
    destruct (request_checks _ _ c a tt) as [[[call|e] u]|]; [| |done]; by injection Hreq as _ <-.
  - unfold close in *. destruct (borrowed j w) eqn:Hb; [by right; apply Hsame|]. destruct (decide (j = k)) as [->|Hne].
    + left. exists c. by rewrite Hb.
    + right. apply Hsame. destruct (close_resources _ c) as [c' es]. cbn. by apply list_lookup_insert_ne.
  - by right; apply Hsame.
Qed.

(** C13: In a process that descends by any number of forks from the one that imported the
    library, with any number of clients made, used and closed in any order: a call that
    waits, and a client of this process that is open, has a runtime whose workers run in
    this very process and which nobody shut down; nothing a client does in a process other
    than its own reaches what the threads of its own process share: its copy of the cookie
    jar apart, which it drops, it only forgets what it holds.  A client gives up its
    transport and its runtime at most once; closing one that no call borrows succeeds and
    gives both up, the runtime shut down in the process that created it and only forgotten
    in any other, closing one that a call borrows fails and changes nothing, and no other
    step of any client gives either up. *)
Theorem clients_survive_forks w : reachable w ->
  (forall call, call ∈ pending w -> pending_process call = generation w -> live (process w) (call_runtime (pending_call call))) /\
  (forall k c r, objects w !! k = Some c -> created_in c = process_id (process w) -> runtime c = Some r ->
     live (process w) (runtime_of r)) /\
  (forall g k e c, (g, k, e) ∈ log w -> objects w !! k = Some c -> pids w !! g <> Some (created_in c) ->
     e = JarDropped \/ forgets e = true) /\
  (forall k c, objects w !! k = Some c ->
     runtimes_given_up k w = Runtime.b2z (negb (is_some (runtime c))) /\
     transports_given_up k w = Runtime.b2z (negb (is_some (clients c))) /\
     if borrowed k w then close k c w = (Err (new_err PyRuntimeError ALREADY_BORROWED), w) else closes k c w) /\
  (forall k w', world_step w w' ->
     (exists c, objects w !! k = Some c /\ borrowed k w = false /\ w' = snd (close k c w)) \/
     (runtimes_given_up k w' = runtimes_given_up k w /\ transports_given_up k w' = transports_given_up k w)).
Proof.
  intros Hw. destruct (reachable_counted w Hw) as [Hok Hc].
  assert (Hown : forall k c r, objects w !! k = Some c -> created_in c = process_id (process w) -> runtime c = Some r ->
     live (process w) (runtime_of r)).
  { intros k c r Hk Hcr Hr. apply (owner_live _ (owners w)); [apply Hok|]. rewrite <- Hcr. apply list_elem_of_omap.
    exists c. split; [by eapply list_elem_of_lookup_2|]. unfold owner. by rewrite Hr. }
  split_and!; [|exact Hown| | |].
  - intros call Hin Hg. destruct (world_pending _ Hok call Hin) as (c & r & Hk & Hr & <- & _).
    apply (Hown (pending_client call) c); [done| |done]. by eapply pending_created.
  - intros g k e c Hin Hk Hne. destruct (world_log _ Hok g k e Hin) as (c' & pid & Hk' & Hpid & Hf).
    assert (c' = c) as -> by congruence. destruct Hf as [->|?]; [by destruct Hne|done].
  - intros k c Hk. pose proof (counted_runtime _ Hc k) as Hr. pose proof (counted_clients _ Hc k) as Hcs. rewrite Hk in Hr, Hcs.
    split_and!; [done..|]. destruct (borrowed k w) eqn:Hb; [unfold close; by rewrite Hb|by apply close_closes].
  - intros k w'. by apply step_gives_up.
Qed.

(** Every synchronous request that is sent is counted as started once and as finished
    at most once; a buffered one is unfinished exactly as long as its call waits, and a
    streamed one whose call fails is counted as finished when the call returns, whatever its
    stream did before. *)
Theorem sync_requests_counted w n r : reachable w -> requests w !! n = Some r ->
  tally (is_started n) (log w) = 1 /\
  tally (is_finished n) (log w) = Runtime.b2z (record_finished r) /\
  (record_mode r = BufferedMode ->
     (record_finished r = false <-> exists call, call ∈ pending w /\ pending_request call = n)) /\
  (forall j call, pending w !! j = Some call -> pending_request call = n -> pending_process call = generation w ->
     tally (is_finished n) (log (request_end j call true w)) = 1).
Proof.
  intros Hw Hn. destruct (reachable_counted w Hw) as [Hok Hc]. split_and!.
  - rewrite (counted_started _ Hc), decide_True; [done|]. by eapply lookup_lt_Some.
  - by rewrite (counted_finished _ Hc), Hn.
  - intros Hm. split; [by apply (counted_buffered _ Hc)|]. intros (call & Hin & <-).
    destruct (counted_pending _ Hc call Hin) as (r' & Hr' & _ & _ & Hf). rewrite Hn in Hr'. injection Hr' as <-. auto.
  - intros j call Hj <- Hg. pose proof (end_counted j call true w Hc Hj) as Hc'. rewrite (counted_finished _ Hc').
    assert (Hr' : requests (request_end j call true w) = alter (fun r => r <| record_finished := true |>) (pending_request call) (requests w)).
    { unfold request_end, completion_finish. destruct (call_mode (pending_call call)); [done|]. cbn. rewrite Hn. by destruct (record_finished r). }
    rewrite Hr', list_lookup_alter_eq, Hn. done.
Qed.

(** ** What a constructed client is *)

Definition arguments_ok (a : ClientArguments) : Prop :=
  f64_ok (arg_idle_timeout a) /\ f64_ok (arg_connect_timeout a) /\ f64_ok (arg_retry_backoff a) /\ f64_ok (arg_retry_jitter a).

(** Each field of the policy comes from the argument of its name. *)
Record retry_asked (a : ClientArguments) (n : Z) (p : RetryPolicy) : Prop := {
  asked_retries : retries p = n;
  asked_backoff : duration_from_secs "RetryPolicy.backoff" (arg_retry_backoff a) = Ok (Some (backoff p));
  asked_jitter : duration_from_secs "RetryPolicy.jitter" (arg_retry_jitter a) = Ok (Some (jitter p));
  asked_statuses status : status ∈ statuses p <-> status ∈ arg_retry_statuses a;
  asked_methods : exists names, Forall2 (fun method name => method_from_bytes method = Some name) (arg_retry_methods a) names /\
    forall method, method ∈ methods p <-> exists name, name ∈ names /\ method = to_ascii_uppercase name;
  asked_network_errors : network_errors p = arg_retry_network_errors a;
  asked_ranges : retry_policy_wf p;
}.

Definition retry_built (a : ClientArguments) (p : option RetryPolicy) : Prop :=
  match arg_retry_retries a, p with
  | None, None => True
  | Some n, Some p => retry_asked a n p
  | _, _ => False
  end.

Definition ssrf_built (a : ClientArguments) (p : option SsrfPolicy) : Prop :=
  match arg_ssrf_allowed_schemes a, p with
  | None, None => arg_ssrf_allowed_origins a = [] /\ arg_ssrf_allowed_domains a = []
  | Some schemes, Some p => ssrf_policy_new schemes (arg_ssrf_allowed_origins a) (arg_ssrf_allowed_domains a) = Ok p
  | _, _ => False
  end.

Record transports_built (a : ClientArguments) (ssrf : option SsrfPolicy) (w : world) (cs : TransportClients) : Prop := {
  direct_built : configured (client_options a ssrf) w (direct cs);
  proxy_built : match proxy_options a ssrf, proxy cs with
                | None, None => True
                | Some options, Some c => configured options w c
                | _, _ => False
                end;
}.

(** A step of the construction that only reads: it runs, with a fact of its result. *)
Lemma of_result_bind {B} {A} (r : result A PyErr) (k : A -> constructing B) (Q : result B PyErr -> Process * world -> Prop) s :
  (forall e, Q (Err e) s) -> (forall a, r = Ok a -> exists r' s', k a s = Some (r', s') /\ Q r' s') ->
  exists r' s', (of_result r ≫= k) s = Some (r', s') /\ Q r' s'.
Proof.
  intros He Hk. unfold of_result, mbind, method_bind. destruct r as [a|e]; [by apply Hk|].
  eexists _, _. split; [reflexivity|]. apply He.
Qed.

Lemma build_retry_run a s : f64_ok (arg_retry_backoff a) -> f64_ok (arg_retry_jitter a) ->
  exists r, build_retry_policy a s = Some (r, s) /\ forall p, r = Ok p -> retry_built a p.
Proof.
  intros Hb Hj. unfold build_retry_policy, retry_built. destruct (arg_retry_retries a) as [n|].
  2: { eexists. split; [reflexivity|]. by intros p [= <-]. }
  destruct (retry_policy_new _ _ _ _ _ _) as [r|e] eqn:Hr; [|by eexists].
  destruct (retry_policy_new_wf _ _ _ _ _ _ _ Hb Hj Hr) as (p & -> & Hwf & _).
  eexists. split; [reflexivity|]. intros p' [= <-].
  apply retry_policy_new_fields in Hr as (Hn & Hback & Hjit & Hst & (names & Hnames & Hmethods) & Hne). split; try done.
  - intros status. by rewrite Hst, elem_of_list_to_set.
  - exists names. split; [done|]. intros method. rewrite Hmethods, elem_of_list_to_set, list_elem_of_fmap. naive_solver.
Qed.

Lemma build_ssrf_Ok a p : build_ssrf_policy a = Ok p -> ssrf_built a p.
Proof.
  unfold build_ssrf_policy, ssrf_built. destruct (arg_ssrf_allowed_schemes a) as [schemes|].
  - destruct (ssrf_policy_new _ _ _) as [q|e]; [|done]. by intros [= <-].
  - destruct (arg_ssrf_allowed_origins a), (arg_ssrf_allowed_domains a); try done. by intros [= <-].
Qed.

Lemma build_clients_run a ssrf tel s : f64_ok (arg_idle_timeout a) -> f64_ok (arg_connect_timeout a) ->
  exists r s', build_transport_clients a ssrf tel s = Some (r, s') /\ fst s' = fst s /\
    forall cs, r = Ok cs -> transports_built a ssrf (snd s') cs.
Proof.
  intros Hi Hc. unfold build_transport_clients. set (gate := {| ConnectionLimit.max_connections := _ |}). cbv zeta.
  destruct (built_as_configured (client_options a ssrf) gate tel (snd s) Hc Hi) as ([c|e] & w1 & Hb & Hw1 & Hbuilt).
  2: { rewrite (bind_Err _ _ _ (new_err FogHttpError e) (fst s, w1)) by (unfold on_metrics; by rewrite Hb). by eexists _, _. }
  erewrite bind_Ok; [|unfold on_metrics; rewrite Hb; reflexivity]. destruct Hbuilt as (_ & Hbuilt & _).
  destruct (proxy_options a ssrf) as [options|] eqn:Hp.
  - assert (Hopt : idle_timeout options = arg_idle_timeout a /\ connect_timeout options = arg_connect_timeout a).
    { unfold proxy_options in Hp. destruct (_ || _); [|done]. by injection Hp as <-. }
    destruct Hopt as [Hi' Hc']. rewrite <- Hi' in Hi. rewrite <- Hc' in Hc.
    destruct (built_as_configured options gate tel w1 Hc Hi) as ([c2|e] & w2 & Hb2 & Hw2 & Hbuilt2).
    2: { rewrite (bind_Err _ _ _ (new_err FogHttpError e) (fst s, w2)); [by eexists _, _|].
         rewrite (bind_Err _ _ _ (new_err FogHttpError e) (fst s, w2)); [done|]. unfold on_metrics. cbn. by rewrite Hb2. }
    rewrite (bind_Ok _ _ _ (Some c2) (fst s, w2)).
    2: { rewrite (bind_Ok _ _ _ c2 (fst s, w2)); [done|]. unfold on_metrics. cbn. by rewrite Hb2. }
    eexists _, _. split; [reflexivity|]. split; [done|]. intros cs [= <-]. destruct Hbuilt2 as (_ & Hbuilt2 & _).
    split; cbn; [by eapply configured_mono|]. by rewrite Hp.
  - erewrite bind_Ok by reflexivity. eexists _, _. split; [reflexivity|]. split; [done|]. intros cs [= <-]. split; [done|]. by rewrite Hp.
Qed.

(** Everything the construction promises of the client. *)
Record constructed (a : ClientArguments) (p : Process) (w : world) (c : RawClient) : Prop := {
  constructed_valid : numeric_valid (numeric_options a);
  constructed_retry : retry_built a (client_retry_policy c);
  constructed_ssrf : ssrf_built a (client_ssrf_policy c);
  constructed_redirects : follow_redirects c = arg_follow_redirects a /\ client_max_redirects c = arg_max_redirects a;
  constructed_transports : exists cs, clients c = Some cs /\ transports_built a (client_ssrf_policy c) w cs;
  constructed_process : created_in c = process_id p;
  constructed_decoder : max_stream_decoder_memory_bytes c <= MAX_NUMERIC_OPTION /\
    optional_within_limit (max_stream_decoded_bytes c);
}.

Lemma byte_limit_within name value limit : extract_byte_limit name value = Ok limit -> within_limit limit.
Proof.
  unfold extract_byte_limit, validate_usize_option, within_limit. destruct value as [| |z|]; try done.
  destruct (_ && _); [|done]. destruct (Z.leb_spec z MAX_NUMERIC_OPTION); [|done]. by intros [= <-].
Qed.

Lemma decoded_limit_within value limit : extract_stream_decoded_byte_limit value = Ok limit -> optional_within_limit limit.
Proof.
  unfold extract_stream_decoded_byte_limit, optional_within_limit. intros Hv v ->. destruct value; try done;
    (destruct (extract_byte_limit _ _) as [l|] eqn:Hl; [|done]); injection Hv as ->; by apply byte_limit_within in Hl.
Qed.

Lemma new_run env setters a s os : arguments_ok a -> runtimes_ok (fst s) os ->
  exists r s', new env setters a s = Some (r, s') /\ forall c, r = Ok c -> constructed a (fst s') (snd s') c.
Proof.
  intros (Hi & Hc & Hb & Hj) Hrt. unfold new.
  apply of_result_bind; [done|]. intros decoded Hdecoded. apply of_result_bind; [done|]. intros memory Hmemory.
  destruct (validate_numeric_run (numeric_options a) s Hi Hc) as ([[]|e] & Hrun & Hvalid);
    [erewrite bind_Ok by exact Hrun; specialize (Hvalid eq_refl)|erewrite bind_Err by exact Hrun; by eexists _, _].
  apply of_result_bind; [done|]. intros auth Hauth. apply of_result_bind; [done|]. intros hooks Hhooks.
  destruct (build_retry_run a s Hb Hj) as ([retry|e] & Hrun' & Hretry);
    [erewrite bind_Ok by exact Hrun'; specialize (Hretry _ eq_refl)|erewrite bind_Err by exact Hrun'; by eexists _, _].
  apply of_result_bind; [done|]. intros ssrf Hssrf%build_ssrf_Ok. apply of_result_bind; [done|]. intros mode Hmode. cbv zeta.
  destruct (build_clients_run a ssrf (arg_telemetry_enabled a) s Hi Hc) as ([cs|e] & s1 & Hcs & Hp & Hbuilt);
    [erewrite bind_Ok by exact Hcs; specialize (Hbuilt _ eq_refl)|erewrite bind_Err by exact Hcs; by eexists _, _].
  rewrite <- Hp in Hrt.
  destruct (client_runtime_build_ok env (arg_max_active_requests a) mode (arg_runtime_workers a) (fst s1) os Hrt)
    as ([cr|e] & p2 & Hr & Hsame & _);
    [rewrite (bind_Ok _ _ s1 cr (p2, snd s1)) by (unfold on_process; by rewrite Hr)
    |rewrite (bind_Err _ _ s1 e (p2, snd s1)) by (unfold on_process; by rewrite Hr); by eexists _, _].
  destruct setters as [[]|e]; [|by eexists _, _]. eexists _, _. split; [reflexivity|]. intros c [= <-].
  split; try done; cbn.
  - by exists cs.
  - split; [by apply byte_limit_within in Hmemory|by apply decoded_limit_within in Hdecoded].
Qed.

(** C14: Constructing a client never panics, whatever the arguments and whatever the
    libraries and the interpreter answer.  A client that is constructed has only options
    within their limits; the retry policy its arguments ask for, every field of it (retries,
    backoff, jitter, statuses, methods in capitals, network errors) from the argument of its
    name and within its range, and none when no retries are given; the SSRF policy its
    arguments ask for, and none when there are no schemes; and transports built for them: both check resolved addresses exactly when there is an
    SSRF policy, and there is one for the proxies exactly when a proxy is given. *)
Theorem construction_validates env setters a s os : arguments_ok a -> runtimes_ok (fst s) os ->
  exists r s', new env setters a s = Some (r, s') /\
    match r with Ok c => constructed a (fst s') (snd s') c | Err _ => runtimes_ok (fst s') os end.
Proof.
  intros Ha Hrt. destruct (new_run env setters a s os Ha Hrt) as (r & s' & Hr & Hc). exists r, s'. split; [done|].
  pose proof (new_ok env setters a (fst s) os Hrt s r s' eq_refl Hr) as [_ Hok]. destruct r; [by apply Hc|done].
Qed.

Definition redirects_allowed (a : ClientArguments) : Z := if arg_follow_redirects a then Z.max 0 (arg_max_redirects a) else 0.
Definition retries_allowed (a : ClientArguments) : Z := Z.max 0 (default 0 (arg_retry_retries a)).

Lemma transport_request_state c request up st : request_state_try_from up (transport_request c request) = Ok (Some st) ->
  completed_retries st = 0 /\ pipeline_ssrf (state_policy st) = client_ssrf_policy c /\
  pipeline_retry (state_policy st) = client_retry_policy c /\
  redirect_limit (state_policy st) = (if follow_redirects c then client_max_redirects c else 0).
Proof.
  intros Hst. pose proof (try_from_facts _ _ _ Hst) as (_ & Hz & _ & Hr & Hs & _). split_and!; [done..|]. revert Hst.
  unfold request_state_try_from, policy_pipeline_new. cbn. destruct (http_url_parse _) as [url|]; [|done].
  destruct (duration_from_secs _ _) as [[w|]|]; [..|done]; cbn; (destruct (proxy_parse _ _ _) as [px|]; cbn; [|done]); intros [=]; subst.
  unfold redirect_limit. cbn. by destruct (follow_redirects c).
Qed.

(** C1: Whatever a client is asked to send, and whatever servers, hooks and the network
    answer, its own arguments bound what it does: the requests of one call are at most one
    more than its redirects and its retries; and with an SSRF policy each of them goes, without
    a proxy, to a destination that policy allows, through the client whose resolver checks
    every address. *)
Theorem client_requests_governed env setters a s os c s' request up m hops o st st' n es :
  arguments_ok a -> runtimes_ok (fst s) os -> new env setters a s = Some (Ok c, s') ->
  request_state_try_from up (transport_request c request) = Ok (Some st) ->
  attempts_loop m hops 0 st = (o, st', n, es) ->
  sends es <= 1 + redirects_allowed a + retries_allowed a /\
  forall route url parts names schemes,
    RequestLoop.Sent route url parts names ∈ es -> arg_ssrf_allowed_schemes a = Some schemes ->
    exists policy cs,
      ssrf_policy_new schemes (arg_ssrf_allowed_origins a) (arg_ssrf_allowed_domains a) = Ok policy /\
      destination_allowed policy url /\ clients c = Some cs /\ select cs route = Ok (direct cs) /\
      resolver_enabled (direct cs) = true /\ forall uri, dial (direct cs) uri = Ok (uri, None).
Proof.
  intros Ha Hrt Hnew Hst Hl. destruct (new_run env setters a s os Ha Hrt) as (r & s1 & Hr & Hc). rewrite Hnew in Hr.
  injection Hr as <- <-. specialize (Hc c eq_refl). destruct (transport_request_state _ _ _ _ Hst) as (Hz & Hssrf & Hretry & Hred).
  split.
  - destruct (loop_budget _ _ _ _ _ _ _ Hz Hl) as (_ & _ & _ & _ & Hs). unfold redirect_budget, retry_budget, retry_limit in Hs.
    rewrite Hred, Hretry in Hs. destruct (constructed_redirects _ _ _ _ Hc) as [Hf Hm]. rewrite Hf, Hm in Hs.
    pose proof (constructed_retry _ _ _ _ Hc) as Hb. unfold redirects_allowed, retries_allowed, retry_built in *.
    destruct (arg_retry_retries a), (client_retry_policy c) as [rp|]; try done; [destruct (asked_retries _ _ _ Hb)|];
      destruct (arg_follow_redirects a); cbn in *; lia.
  - intros route url parts names schemes Hin Hschemes. pose proof (constructed_ssrf _ _ _ _ Hc) as Hb. unfold ssrf_built in Hb.
    rewrite Hschemes in Hb. destruct (client_ssrf_policy c) as [policy|] eqn:Hp; [|done].
    destruct (loop_routes _ _ _ _ _ _ _ _ _ _ _ Hl Hin) as (_ & _ & Hallowed & _).
    destruct (Hallowed policy Hssrf) as (Hd & -> & _). destruct (constructed_transports _ _ _ _ Hc) as (cs & Hcs & Hbuilt).
    exists policy, cs. pose proof (direct_built _ _ _ _ Hbuilt) as Hdirect. split_and!; try done.
    + rewrite (configured_resolver _ _ _ Hdirect). cbn. by rewrite Hp.
    + intros uri. by apply (dial_direct (client_options a (client_ssrf_policy c)) (snd s')).
Qed.

(** ** Runs *)

Inductive Move :=
| MoveNew (env : RuntimeEnv) (future_setters : result unit PyErr) (a : ClientArguments) (metrics : world)
| MoveRequest (m : Mode) (k : nat) (a : RequestArguments)
| MoveReturn (j : nat) (is_err : bool)
| MoveStream (n : nat) (failed : bool)
| MoveSpawn (m : Mode) (k : nat) (a : RequestArguments)
| MoveClose (k : nat)
| MoveFork (pid : ProcessId).

Definition make_move (m : Move) (w : World) : option World :=
  match m with
  | MoveNew env setters a metrics =>
      '(r, (p', _)) ← new env setters a (process w, metrics);
      Some (w <| process := p' |> <| objects ::= fun l => l ++ (match r with Ok c => [c] | Err _ => [] end) |>)
  | MoveRequest m k a => c ← objects w !! k; snd <$> send_method m k c a w
  | MoveReturn j is_err =>
      call ← pending w !! j; if bool_decide (pending_process call = generation w) then Some (request_end j call is_err w) else None
  | MoveStream n failed =>
      r ← requests w !! n;
      match record_mode r with
      | StreamMode =>
          if bool_decide (record_process r = generation w)
          then Some (let (first, w) := completion_finish n w in if first then emit (record_client r) [Finished n failed] w else w)
          else None
      | BufferedMode => None
      end
  | MoveSpawn m k a => c ← objects w !! k; snd <$> spawn_method m k c a w
  | MoveClose k => c ← objects w !! k; Some (snd (close k c w))
  | MoveFork pid =>
      if bool_decide (pid ∈ ancestors (process w) ++ [process_id (process w)]) then None else Some (w <| process ::= fork pid |>)
  end.

Fixpoint make_moves (ms : list Move) (w : World) : option World :=
  match ms with [] => Some w | m :: ms => w ← make_move m w; make_moves ms w end.

Lemma move_steps m w w' : make_move m w = Some w' -> world_step w w'.
Proof.
  destruct m; cbn; intros Hm.
  - destruct (new _ _ _ _) as [[r [p' ms']]|] eqn:Hnew; [|done]. injection Hm as <-. by econstructor.
  - destruct (objects w !! k) as [c|] eqn:Hk; [|done]. cbn in Hm.
    destruct (send_method _ _ _ _ _) as [[r w1]|] eqn:Hr; [|done]. injection Hm as <-. by econstructor.
  - destruct (pending w !! j) as [call|] eqn:Hj; [|done]. cbn in Hm. case_bool_decide; [|done]. injection Hm as <-. by apply step_return.
  - destruct (requests w !! n) as [r|] eqn:Hn; [|done]. cbn in Hm. destruct (record_mode r) eqn:Hmode; [done|].
    case_bool_decide as Hg; [|done]. injection Hm as <-.
    pose proof (step_stream w n r failed Hn Hmode Hg) as Hs. unfold completion_finish in Hs. rewrite Hn in Hs. exact Hs.
  - destruct (objects w !! k) as [c|] eqn:Hk; [|done]. cbn in Hm.
    destruct (spawn_method _ _ _ _ _) as [[r w1]|] eqn:Hr; [|done]. injection Hm as <-. by econstructor.
  - destruct (objects w !! k) as [c|] eqn:Hk; [|done]. injection Hm as <-. by apply step_close.
  - case_bool_decide; [done|]. injection Hm as <-. by apply step_fork.
Qed.

Lemma moves_reachable ms w w' : reachable w -> make_moves ms w = Some w' -> reachable w'.
Proof.
  revert w. induction ms as [|m ms IH]; cbn; intros w Hw Hm; [by injection Hm as <-|].
  destruct (make_move m w) as [w1|] eqn:Hw1; [|done]. eapply IH; [|exact Hm]. destruct Hw as [pid Hw].
  exists pid. eapply rtc_r; [exact Hw|by eapply move_steps].
Qed.
End client.

(** ** Samples *)

#[local] Existing Instance simple_url_crate.
#[local] Existing Instance plain_uri_crate.
#[local] Existing Instance pair_http_crate.
#[local] Existing Instance plain_tls_crates.
#[local] Existing Instance simple_cookie_crates.
#[local] Instance no_http_dates : HttpDate := {| parse_http_date _ := None |}.

Definition sample_env : RuntimeEnv :=
  {| runtime_started := Ok tt; available_parallelism := Some 8; workers_variable := Ok None; module_imported := Ok tt;
     getattr_error := None; state_created := Ok tt; attribute_set := Ok tt |}.

Definition sample_arguments : ClientArguments :=
  {| arg_max_active_requests := 100; arg_max_active_requests_per_origin := None; arg_max_connections := Some 20;
     arg_max_connections_per_host := None; arg_max_idle_connections_per_host := 4; arg_max_pending_requests := 50;
     arg_max_response_body_size := None; arg_max_buffered_response_bytes := None; arg_idle_timeout := f64_of_Z 90;
     arg_keepalive := true; arg_connect_timeout := f64_of_Z 5; arg_follow_redirects := true; arg_max_redirects := 2;
     arg_cookies_enabled := true; arg_ca_certificates := []; arg_trust_webpki_roots := true; arg_runtime := "shared";
     arg_runtime_workers := None; arg_http_proxy_url := Some "http://proxy"%string; arg_http_proxy_authorization := None;
     arg_https_proxy_url := None; arg_https_proxy_authorization := None; arg_auth_basic_authorization := None;
     arg_auth_hook := None; arg_policy_hooks := None; arg_retry_retries := Some 1; arg_retry_backoff := f64_zero;
     arg_retry_jitter := f64_zero; arg_retry_statuses := [503]; arg_retry_methods := ["GET"%string];
     arg_retry_network_errors := true; arg_ssrf_allowed_schemes := Some ["https"%string]; arg_ssrf_allowed_origins := [];
     arg_ssrf_allowed_domains := []; arg_telemetry_enabled := false; arg_max_stream_decoded_bytes := PyNone;
     arg_max_stream_decoder_memory_bytes := PyInt 1000 |}.

Definition sample_request : RequestArguments :=
  {| request_method := "GET"; request_url := "https://a.example/"; request_headers := []; request_auth_override_headers := None;
     request_auth_removed_headers := []; request_extensions := None; request_body := None; request_body_stream := None;
     request_body_replayable := true; request_use_proxy_transport := false; request_proxy_policy := "direct";
     request_pool_timeout := f64_of_Z 5; request_read_timeout := f64_of_Z 5; request_write_timeout := f64_of_Z 5;
     request_total_timeout := f64_of_Z 5; request_telemetry_id := None; request_decode_content := PyBool false |}.

Definition sample_moves : list Move :=
  [MoveNew sample_env (Ok tt) sample_arguments sample_registry; MoveRequest BufferedMode 0 sample_request;
   MoveReturn 0 false; MoveRequest StreamMode 0 sample_request; MoveReturn 0 false; MoveStream 1 false;
   MoveRequest StreamMode 0 sample_request; MoveFork 8; MoveClose 0; MoveNew sample_env (Ok tt) sample_arguments sample_registry;
   MoveRequest BufferedMode 1 sample_request].

Definition sample_world : option World := make_moves sample_moves (initial 7).

(** In the child the parent's call still borrows the parent's client; the child's own
    client runs on a runtime of its own. *)
Lemma clients_survive_forks_witness :
  exists w c, sample_world = Some w /\ objects w !! 1%nat = Some c /\ runtime c = Some (SharedRuntime 1) /\ live (process w) 1.
Proof.
  assert (Hs : is_some sample_world = true) by (vm_compute; reflexivity).
  destruct sample_world as [w|] eqn:Hw; [|discriminate Hs]. exists w.
  destruct (objects w !! 1%nat) as [c|] eqn:Hc.
  2: { exfalso. assert (Hn : (w ← sample_world; objects w !! 1%nat) = None) by (rewrite Hw; exact Hc). vm_compute in Hn. discriminate Hn. }
  exists c. split; [reflexivity|]. split; [reflexivity|].
  assert (Hr : (w ← sample_world; c ← objects w !! 1%nat; runtime c) = Some (SharedRuntime 1)) by (vm_compute; reflexivity).
  assert (Hp : (w ← sample_world; c ← objects w !! 1%nat; Some (created_in c =? process_id (process w))) = Some true)
    by (vm_compute; reflexivity).
  rewrite Hw in Hr, Hp. cbn in Hr, Hp. rewrite Hc in Hr, Hp. cbn in Hr, Hp. split; [exact Hr|].
  assert (Hreach : reachable w) by (eapply moves_reachable; [exists 7; apply rtc_refl|exact Hw]).
  apply (proj1 (proj2 (clients_survive_forks w Hreach)) 1%nat c (SharedRuntime 1) Hc); [|exact Hr].
  injection Hp as Hp. by apply Z.eqb_eq.
Defined.

Lemma sync_requests_counted_witness :
  exists w, sample_world = Some w /\ tally (is_started 1) (log w) = 1 /\ tally (is_finished 1) (log w) = 1.
Proof.
  assert (Hs : is_some sample_world = true) by (vm_compute; reflexivity).
  destruct sample_world as [w|] eqn:Hw; [|discriminate Hs]. exists w. split; [reflexivity|].
  destruct (requests w !! 1%nat) as [r|] eqn:Hr.
  2: { exfalso. assert (Hn : (w ← sample_world; requests w !! 1%nat) = None) by (rewrite Hw; exact Hr). vm_compute in Hn. discriminate Hn. }
  assert (Hf : (w ← sample_world; r ← requests w !! 1%nat; Some (record_finished r)) = Some true) by (vm_compute; reflexivity).
  rewrite Hw in Hf. cbn in Hf. rewrite Hr in Hf. injection Hf as Hf.
  assert (Hreach : reachable w) by (eapply moves_reachable; [exists 7; apply rtc_refl|exact Hw]).
  destruct (sync_requests_counted w 1 r Hreach Hr) as (H1 & H2 & _). rewrite Hf in H2. split; [exact H1|exact H2].
Defined.

Definition sample_process : Process * world := (process (initial 7), sample_registry).
Definition sample_client : method (Process * world) PyErr RawClient := new sample_env (Ok tt) sample_arguments.

Lemma construction_validates_witness :
  exists c s', sample_client sample_process = Some (Ok c, s') /\ constructed sample_arguments (fst s') (snd s') c.
Proof.
  assert (Hok : match sample_client sample_process with Some (Ok _, _) => true | _ => false end = true) by (vm_compute; reflexivity).
  destruct (construction_validates sample_env (Ok tt) sample_arguments sample_process []) as (r & s' & Hr & Hc).
  - split_and!; vm_compute; reflexivity.
  - apply initial_runtimes_ok.
  - unfold sample_client in *. rewrite Hr in Hok. destruct r as [c|e]; [|discriminate Hok]. exists c, s'. split; [exact Hr|exact Hc].
Defined.

Definition sample_run (c : RawClient) : option (Outcome * RequestState * Z * list RequestLoop.Event) :=
  match request_state_try_from (fun m => m) (transport_request c sample_request) with
  | Ok (Some st) => Some (attempts_loop BufferedMode sample_hops 0 st)
  | _ => None
  end.

(** A retry, a redirect, a response: three requests, one call. *)
Lemma client_requests_governed_witness :
  exists c s' o st n es, sample_client sample_process = Some (Ok c, s') /\ sample_run c = Some (o, st, n, es) /\
    sends es = 3 /\ sends es <= 1 + 2 + 1 /\
    forall route url parts names, RequestLoop.Sent route url parts names ∈ es ->
      exists policy, destination_allowed policy url /\ "https"%string ∈ schemes policy.
Proof.
  assert (Hok : match sample_client sample_process with
                | Some (Ok c, _) => match sample_run c with Some (_, _, _, es) => sends es =? 3 | None => false end
                | _ => false
                end = true) by (vm_compute; reflexivity).
  destruct (sample_client sample_process) as [[[c|e] s']|] eqn:Hc; [|discriminate Hok..].
  destruct (sample_run c) as [[[[o st] n] es]|] eqn:Hrun; [|discriminate Hok]. apply Z.eqb_eq in Hok.
  exists c, s', o, st, n, es. pose proof Hrun as Hrun0. unfold sample_run in Hrun.
  destruct (request_state_try_from _ _) as [[st0|]|] eqn:Hst; [|discriminate Hrun..]. injection Hrun as Hl.
  destruct (client_requests_governed sample_env (Ok tt) sample_arguments sample_process [] c s' sample_request
              (fun m => m) BufferedMode sample_hops o st0 st n es) as [Hs Hr];
    [split_and!; vm_compute; reflexivity|apply initial_runtimes_ok|exact Hc|exact Hst|exact Hl|].
  split_and!; [reflexivity|exact Hrun0|exact Hok|exact Hs|].
  intros route url parts names Hin. destruct (Hr route url parts names _ Hin eq_refl) as (policy & cs & Hp & Hd & _).
  exists policy. split; [exact Hd|]. vm_compute in Hp. injection Hp as <-. vm_compute. set_solver.
Defined.
