(* ===== verification/StreamResponse.v ===== *)
(** * Streamed responses of Python

    [src/src/py/client/streams/{response,callback}.rs] and the scheduling of chunks in
    [src/src/py/client/future.rs]: the object Python reads a streamed response with.  A
    call of [next_chunk] waits in its thread for the task that reads; a call of
    [next_chunk_async] gives the event loop a future that the task resolves, with a
    callback that delivers or cancels the read.  Calls, tasks, the loop, whoever closes the
    response and whoever drops it interleave over the stream of file [StreamState]; a fork
    leaves the child with a copy that has neither tasks nor a loop.

    asyncio's futures are pending, cancelled or resolved, and their callbacks run on the
    loop.  Aborting a task takes effect at its awaits, its start included.  The channels
    from a task to its caller are the stage of its reader. *)

From S2P Require Import Prelude RustStr Atomics Http Sync Telemetry Body Streaming StreamState.
From S2P Require Metrics Connection Errors Runtime.

Local Open Scope Z_scope.

Inductive PyFuture := Pending | Cancelled | Resolved (r : ReadResult).

(** Where a call that started a read is. *)
Inductive CallStage :=
(** before [register_read_task] *)
| Spawned
(** registered: before the callback is added, or the start signal sent *)
| Registered
| CallbackAdded
(** [next_chunk] in [block_on], and before [finish_read_delivery] *)
| Waiting
| Delivering (r : option ReadResult)
(** before [state.fail(None)] *)
| Failing
| Finished.

(** A read: the call, its start channel, its task's [AbortHandle], its future.  [got]: its
    result reached Python; [delivered]: [finish_read_delivery] was called for it;
    [scheduled]: its task has scheduled its result on the loop. *)
Record Read := {
  asynchronous : bool;
  stage : CallStage;
  started : bool;
  start_dropped : bool;
  abort_requested : bool;
  scheduled : bool;
  got : bool;
  delivered : bool;
  has_callback : bool;
  future : PyFuture;
}.
#[export] Instance eta_Read : Eta Read := fun r =>
  Build_Read (asynchronous r) (stage r) (started r) (start_dropped r) (abort_requested r) (scheduled r) (got r) (delivered r)
    (has_callback r) (future r).

Definition new_read (async : bool) : Read :=
  {| asynchronous := async; stage := Spawned; started := false; start_dropped := false; abort_requested := false;
     scheduled := false; got := false; delivered := false; has_callback := false; future := Pending |}.

Inductive LoopCall := SetResult (i : nat) (r : ReadResult) | CancelFuture (i : nat) | RunCallback (i : nat).

Section response.
Context `{StreamCodecs} (is_end_stream : Incoming -> bool).

(** The parts of [RawStreamResponse] that change: whether it has its state and its handle of
    the runtime. *)
Record StreamResponse := { has_state : bool; has_handle : bool; response_process : Runtime.ProcessId }.
#[global] Instance eta_StreamResponse : Eta StreamResponse := fun r =>
  Build_StreamResponse (has_state r) (has_handle r) (response_process r).

(** [outputs]: the chunks Python got, in order. *)
Record World := {
  response : StreamResponse;
  current : Runtime.ProcessId;
  stream : System;
  reads : list Read;
  event_loop : list LoopCall;
  outputs : list (list Z);
}.
#[global] Instance eta_World : Eta World := fun w =>
  Build_World (response w) (current w) (stream w) (reads w) (event_loop w) (outputs w).

Definition from_parts (pid : Runtime.ProcessId) (f : StreamStateFields) : World :=
  {| response := {| has_state := true; has_handle := true; response_process := pid |}; current := pid;
     stream := initial f; reads := []; event_loop := []; outputs := [] |}.

(** ** Effects of the stream *)

Definition on_read (i : nat) (g : Read -> Read) (w : World) : World := w <| reads ::= alter g i |>.

Definition is_async (i : nat) (w : World) : bool :=
  match reads w !! i with Some r => asynchronous r | None => false end.

(** [ActiveStreamRead::abort_and_notify]. *)
Definition abort_and_notify (i : nat) (w : World) : World :=
  (on_read i (fun r => r <| abort_requested := true |>) w)
    <| event_loop ::= fun l => l ++ (if is_async i w then [CancelFuture i] else []) |>.

Definition on_effect (w : World) (e : Effect) : World :=
  match e with ReadAborted i => abort_and_notify i w | _ => w end.

Definition on_stream (o : StreamStateFields * list Effect) (w : World) : World :=
  fold_left on_effect (snd o) (w <| stream ::= with_fields o |>).

(** A section that finishes the stream. *)
Definition finishing (op : StreamStateFields -> bool * StreamStateFields * list Effect) (w : World) : World :=
  on_stream (snd (fst (op (fields (stream w)))), snd (op (fields (stream w)))) w.

(** ** Methods *)

Inductive Value := NoMore | Started | NotStarted (e : ReadFailure) | Raised (e : Errors.PyErr).

Definition STREAM_RESPONSE_READ_ABORTED : string := "stream response body read was aborted".

Definition ensure_current_process (w : World) : result unit Errors.PyErr :=
  if response_process (response w) =? current w then Ok tt
  else Err (Runtime.stream_response_used_after_fork (response_process (response w)) (current w)).

(** What [next_chunk] and [next_chunk_async] share: a read is started, with its task. *)
Definition begin_read (async : bool) (w : World) : Value * World :=
  if negb (has_state (response w)) then (NoMore, w)
  else if negb (has_handle (response w)) then (Raised (Errors.new_err Errors.FogHttpError STREAM_RESPONSE_READ_ABORTED), w)
  else
    let (res, f) := start_read async (fields (stream w)) in
    let w := w <| stream ::= fun s => s <| fields := f |>
                    <| readers ::= fun rs => rs ++ match res with Ok (Some r) => [r] | _ => [] end |> |>
               <| reads ::= fun l => l ++ match res with Ok (Some _) => [new_read async] | _ => [] end |> in
    (match res with
     | Err e => NotStarted e
     | Ok None => NoMore
     | Ok (Some _) => Started
     end, w).

Definition next_chunk (w : World) : Value * World :=
  match ensure_current_process w with
  | Err e => (Raised e, w)
  | Ok _ => begin_read false w
  end.

(** [running_loop]: what getting the loop and its future raises. *)
Definition next_chunk_async (running_loop : result unit Errors.PyErr) (w : World) : Value * World :=
  match ensure_current_process w, running_loop with
  | Err e, _ | _, Err e => (Raised e, w)
  | Ok _, Ok _ => begin_read true w
  end.

Definition in_process (w : World) : bool := response_process (response w) =? current w.

Definition close_with (op : StreamStateFields -> bool * StreamStateFields * list Effect) (w : World) : option string * World :=
  if negb (in_process w) then (None, w)
  else if negb (has_state (response w)) then (None, w)
  else let w := finishing op w in (terminal_error_type (fields (stream w)), w).

Definition close_response : World -> option string * World := close_with close.
Definition cancel_response : World -> option string * World := close_with cancel.

(** [close_resources], on [Drop]. *)
Definition close_resources (w : World) : World :=
  let state := has_state (response w) in
  let w := w <| response ::= fun r => r <| has_state := false |> <| has_handle := false |> |> in
  if in_process w then if state then finishing close w else w else w.

(** ** Calls *)

(** What adding the callback does: it is added, not created, or asyncio raises. *)
Inductive CallbackAnswer := Added | NotCreated | AddRaised.

(** The receiver of the start signal went with its task. *)
Definition start_receiver_dropped (rd : Reader) : bool :=
  match read_stage rd with Dropping None | Returned None => true | _ => false end.

Definition set_stage (i : nat) (st : CallStage) : World -> World := on_read i (fun r => r <| stage := st |>).

(** [oneshot]: the task's result, or the sender is dropped with the task. *)
Definition receive_result (rd : Reader) : option (option ReadResult) :=
  match read_stage rd with
  | Returned (Some r) => Some (Some r)
  | Returned None | Dropping None => Some None
  | _ => None
  end.

Definition chunk_of (r : option ReadResult) : list (list Z) := match r with Some (Chunk c) => [c] | _ => [] end.

Definition send_start (i : nat) (after : CallStage) (rd : Reader) (w : World) : World :=
  if start_receiver_dropped rd then set_stage i Failing w
  else on_read i (fun r => r <| started := true |> <| stage := after |>) w.

Definition register_step (i : nat) (w : World) : World :=
  let refused := is_some (terminal (fields (stream w))) || negb (read_in_progress (fields (stream w))) in
  let w := on_stream (register_read_task i (fields (stream w))) w in
  if refused then on_read i (fun r => r <| start_dropped := true |> <| stage := Finished |>) w else set_stage i Registered w.

Definition schedule_callback (i : nat) (w : World) : World := w <| event_loop ::= fun l => l ++ [RunCallback i] |>.

(** A done future schedules a callback at once. *)
Definition add_done_callback (i : nat) (r : Read) (answer : CallbackAnswer) (w : World) : World :=
  match answer with
  | Added =>
      let w := on_read i (fun r => r <| has_callback := true |> <| stage := CallbackAdded |>) w in
      match future r with Pending => w | _ => schedule_callback i w end
  | NotCreated => on_read i (fun r => r <| start_dropped := true |> <| stage := Finished |>) w
  | AddRaised => set_stage i Failing w
  end.

Definition finish_delivery (i : nat) (w : World) : World :=
  on_read i (fun r => r <| delivered := true |>) (on_stream (finish_read_delivery (fields (stream w)), []) w).

(** The next step of the call that started read [i], if it is not blocked. *)
Definition call_step (i : nat) (answer : CallbackAnswer) (w : World) : option World :=
  r ← reads w !! i;
  rd ← readers (stream w) !! i;
  match stage r with
  | Spawned => Some (register_step i w)
  | Registered => Some (if asynchronous r then add_done_callback i r answer w else send_start i Waiting rd w)
  | CallbackAdded => Some (send_start i Finished rd w)
  | Waiting =>
      res ← receive_result rd;
      Some (on_read i (fun r => r <| got := true |> <| stage := Delivering res |>) w
              <| outputs ::= fun l => l ++ chunk_of res |>)
  | Delivering res => Some (set_stage i (match res with Some _ => Finished | None => Failing end) (finish_delivery i w))
  | Failing => Some (on_read i (fun r => r <| start_dropped := true |> <| stage := Finished |>) (finishing (fail None) w))
  | Finished => None
  end.

(** ** The task and the loop *)

(** [complete_python_bytes_future]: a closed loop takes nothing. *)
Definition complete_bytes_future (i : nat) (loop_open : bool) (w : World) : option World :=
  r ← reads w !! i;
  rd ← readers (stream w) !! i;
  match read_stage rd with
  | Returned (Some res) =>
      if asynchronous r && started r && negb (scheduled r) then
        Some (on_read i (fun r => r <| scheduled := true |>) w
                <| event_loop ::= fun l => l ++ (if loop_open then [SetResult i res] else []) |>)
      else None
  | _ => None
  end.

Definition settle (i : nat) (r : Read) (state : PyFuture) (w : World) : World :=
  match future r with
  | Pending =>
      let w := on_read i (fun r => r <| future := state |>
                                     <| got ::= fun g => match state with Resolved _ => true | _ => g end |>) w
                 <| outputs ::= fun l => l ++ match state with Resolved res => chunk_of (Some res) | _ => [] end |> in
      if has_callback r then schedule_callback i w else w
  | _ => w
  end.

(** [PythonStreamReadCallback::__call__]. *)
Definition done_callback (i : nat) (r : Read) (w : World) : World :=
  match future r with
  | Cancelled => finishing cancel (on_read i (fun r => r <| abort_requested := true |>) w)
  | _ => finish_delivery i w
  end.

Definition loop_step (w : World) : option World :=
  match event_loop w with
  | [] => None
  | c :: rest =>
      let w := w <| event_loop := rest |> in
      match c with
      | SetResult i res => r ← reads w !! i; Some (settle i r (Resolved res) w)
      | CancelFuture i => r ← reads w !! i; Some (settle i r Cancelled w)
      | RunCallback i => r ← reads w !! i; Some (done_callback i r w)
      end
  end.

(** When the task of a read may take a step: once it is started; to be dropped, once it is
    aborted or its start signal cannot come any more. *)
Definition may_turn (e : ReadEvent) (r : Read) (rd : Reader) : bool :=
  match e, read_stage rd with
  | AbortRead, ReadStart => abort_requested r || start_dropped r
  | AbortRead, _ => abort_requested r
  | _, Dropping _ => true
  | _, _ => started r
  end.

Definition turn (i : nat) (e : ReadEvent) (w : World) : option World :=
  r ← reads w !! i;
  rd ← readers (stream w) !! i;
  if may_turn e r rd then
    '(rd', f, es) ← reader_step is_end_stream e rd (fields (stream w));
    Some (fold_left on_effect es
            (w <| stream ::= fun s => with_fields (f, es) s <| readers ::= <[i := rd']> |>
                                        <| returned ::= fun l => l ++ returned_chunk rd' |> |>))
  else None.

(** ** The world *)

(** In its own process: the calls, the tasks, the loop, and what else happens to the stream. *)
Inductive own_step (w : World) : World -> Prop :=
| own_call i answer w' : call_step i answer w = Some w' -> own_step w w'
| own_complete i loop_open w' : complete_bytes_future i loop_open w = Some w' -> own_step w w'
| own_turn i e w' : turn i e w = Some w' -> own_step w w'
| own_loop w' : loop_step w = Some w' -> own_step w w'
(** whoever has the future cancels it *)
| own_cancel i r : reads w !! i = Some r -> asynchronous r = true -> own_step w (settle i r Cancelled w)
| own_shutdown : registered (fields (stream w)) = true -> own_step w (finishing close w)
| own_completed : own_step w (w <| stream ::= fun s => s <| fields ::= fun f => f <| completed := true |> |> |>)
| own_write_timeout : own_step w (w <| stream ::= fun s => s <| fields ::= fun f => f <| write_timed_out := true |> |> |>).

(** Methods are called in any process; the response is dropped when no call refers to it. *)
Inductive world_step (w : World) : World -> Prop :=
| step_next_chunk : world_step w (snd (next_chunk w))
| step_next_chunk_async running_loop : world_step w (snd (next_chunk_async running_loop w))
| step_close_response : world_step w (snd (close_response w))
| step_cancel_response : world_step w (snd (cancel_response w))
| step_drop_response :
    in_process w = false \/ (forall r, r ∈ reads w -> stage r = Finished) -> world_step w (close_resources w)
| step_own w' : in_process w = true -> own_step w w' -> world_step w w'
| step_fork pid : pid <> response_process (response w) -> world_step w (w <| current := pid |>).

Definition response_reachable (pid : Runtime.ProcessId) (f : StreamStateFields) (w : World) : Prop :=
  rtc world_step (from_parts pid f) w.

End response.

(** ** What holds in every world *)

Definition pending (f : PyFuture) : bool := match f with Pending => true | _ => false end.
Definition early (st : CallStage) : bool := match st with Spawned | Registered => true | _ => false end.
Definition unanswered (st : CallStage) : bool :=
  match st with Spawned | Registered | CallbackAdded | Waiting => true | _ => false end.

Section invariant.
Context `{StreamCodecs} (is_end_stream : Incoming -> bool) (f0 : StreamStateFields).

Definition over (rd : Reader) : Prop := (exists v, read_stage rd = Returned v) \/ read_stage rd = Dropping None.

Record read_ok (r : Read) (rd : Reader) : Prop := {
  ok_delivered : delivered r = true -> got r = true;
  ok_got : got r = true -> over rd;
  ok_unanswered : asynchronous r = false -> unanswered (stage r) = true -> got r = false;
  ok_delivering v : stage r = Delivering v -> got r = true /\ delivered r = false /\ asynchronous r = false;
  ok_waiting : stage r = Waiting -> asynchronous r = false;
  ok_async_got : asynchronous r = true -> got r = true -> exists v, future r = Resolved v;
  ok_resolved v : future r = Resolved v -> got r = true;
  ok_early : early (stage r) = true -> has_callback r = false /\ delivered r = false;
  ok_sync : asynchronous r = false -> has_callback r = false;
}.

Definition is_callback (i : nat) (c : LoopCall) : bool := match c with RunCallback j => Nat.eqb i j | _ => false end.
Definition callbacks (i : nat) (l : list LoopCall) : nat := length (filter (fun c => is_callback i c = true) l).

(** A callback may run once, until it has delivered the read. *)
Definition callback_due (r : Read) : nat := if has_callback r && negb (pending (future r)) && negb (delivered r) then 1 else 0.

(** The chunk the last read has returned and Python has not got yet. *)
Definition in_transit (rs : list Read) (rds : list Reader) : list (list Z) :=
  match last rs, last rds with
  | Some r, Some rd => if got r then [] else returned_chunk rd
  | _, _ => []
  end.

Record response_ok (w : World) : Prop := {
  inv_reach : StreamState.reachable is_end_stream f0 (stream w);
  inv_length : length (reads w) = length (readers (stream w));
  inv_previous i r : (S i < length (reads w))%nat -> reads w !! i = Some r -> delivered r = true;
  inv_open : terminal (fields (stream w)) = None -> read_in_progress (fields (stream w)) = false ->
    forall r, r ∈ reads w -> delivered r = true;
  inv_read i r rd : reads w !! i = Some r -> readers (stream w) !! i = Some rd -> read_ok r rd;
  inv_set i v : SetResult i v ∈ event_loop w -> exists r rd, reads w !! i = Some r /\ readers (stream w) !! i = Some rd /\
    asynchronous r = true /\ read_stage rd = Returned (Some v);
  inv_callbacks i : (callbacks i (event_loop w) <= match reads w !! i with Some r => callback_due r | None => 0 end)%nat;
  inv_outputs : returned (stream w) = outputs w ++ in_transit (reads w) (readers (stream w));
}.

#[local] Arguments callbacks : simpl never.
#[local] Arguments in_transit : simpl never.

Lemma alter_none {A} (g : A -> A) i (l : list A) : l !! i = None -> alter g i l = l.
Proof.
  intros Hi. apply list_eq. intros j. rewrite list_lookup_alter. case_decide as E; [|done]. subst j. by rewrite Hi.
Qed.

Lemma callbacks_app i l l' : callbacks i (l ++ l') = (callbacks i l + callbacks i l')%nat.
Proof. unfold callbacks. by rewrite filter_app, length_app. Qed.

Lemma callbacks_cons i c l : callbacks i (c :: l) = ((if is_callback i c then 1 else 0) + callbacks i l)%nat.
Proof. unfold callbacks. rewrite filter_cons. by destruct (is_callback i c). Qed.

Lemma last_alter {A} (g : A -> A) i (l : list A) x : l !! i = Some x ->
  last (alter g i l) = (if (S i =? length l)%nat then Some (g x) else last l).
Proof.
  intros Hi. rewrite !last_lookup, length_alter. destruct (Nat.eqb_spec (S i) (length l)) as [E|E].
  - rewrite <- E. cbn. by rewrite list_lookup_alter_eq, Hi.
  - apply list_lookup_alter_ne. apply lookup_lt_Some in Hi. lia.
Qed.

(** A change of one read that leaves its result and its delivery. *)
Lemma ok_on_read i g r w : response_ok w -> reads w !! i = Some r ->
  asynchronous (g r) = asynchronous r -> got (g r) = got r -> delivered (g r) = delivered r ->
  (has_callback r = true -> has_callback (g r) = true) -> (pending (future r) = true \/ future (g r) = future r) ->
  (forall rd, readers (stream w) !! i = Some rd -> read_ok r rd -> read_ok (g r) rd) ->
  response_ok (on_read i g w).
Proof.
  intros [] Hi Ha Hg Hd Hc Hf Hok.
  assert (Hlook : forall j x, alter g i (reads w) !! j = Some x -> exists y, reads w !! j = Some y /\
    asynchronous x = asynchronous y /\ delivered x = delivered y /\
    (forall rd, readers (stream w) !! j = Some rd -> read_ok y rd -> read_ok x rd)).
  { intros j x. destruct (decide (i = j)) as [<-|Hne].
    - rewrite list_lookup_alter_eq, Hi. intros [= <-]. by exists r.
    - rewrite list_lookup_alter_ne by done. intros Hx. by exists x. }
  split; cbn; rewrite ?length_alter; try done.
  - intros j x Hj (y & Hy & _ & -> & _)%Hlook. eauto.
  - intros Ht Hr x [j Hj]%list_elem_of_lookup. apply Hlook in Hj as (y & Hy & _ & -> & _).
    apply inv_open0; [done|done|]. by eapply list_elem_of_lookup_2.
  - intros j x rd (y & Hy & _ & _ & Hx)%Hlook Hrd. eauto.
  - intros j v (x & rd & Hx & Hrd & ? & ?)%inv_set0. destruct (decide (i = j)) as [<-|Hne].
    + exists (g r), rd. rewrite list_lookup_alter_eq, Hi. assert (x = r) as -> by congruence. by rewrite Ha.
    + exists x, rd. by rewrite list_lookup_alter_ne by done.
  - intros j. specialize (inv_callbacks0 j). destruct (decide (i = j)) as [<-|Hne].
    + rewrite list_lookup_alter_eq, Hi in *. cbn. unfold callback_due in *. rewrite Hd.
      destruct (has_callback r); [rewrite Hc by done|cbn in inv_callbacks0; lia].
      destruct Hf as [Hf|Hf]; rewrite Hf in *; [cbn in inv_callbacks0; lia|done].
    + by rewrite list_lookup_alter_ne by done.
  - rewrite inv_outputs0. f_equal. unfold in_transit. rewrite (last_alter _ _ _ _ Hi).
    destruct (Nat.eqb_spec (S i) (length (reads w))) as [E|E]; [|done].
    assert (Hl : last (reads w) = Some r) by (rewrite last_lookup, <- E; exact Hi). by rewrite Hl, Hg.
Qed.

Lemma ok_loop l w : response_ok w ->
  (forall i v, SetResult i v ∈ l -> exists r rd, reads w !! i = Some r /\ readers (stream w) !! i = Some rd /\
    asynchronous r = true /\ read_stage rd = Returned (Some v)) ->
  (forall i, (callbacks i l <= match reads w !! i with Some r => callback_due r | None => 0 end)%nat) ->
  response_ok (w <| event_loop := l |>).
Proof. intros [] Hs Hc. by split. Qed.

Lemma ok_cancel_scheduled i w : response_ok w ->
  response_ok (w <| event_loop ::= fun l => l ++ (if is_async i w then [CancelFuture i] else []) |>).
Proof.
  intros Hok. pose proof Hok as []. apply ok_loop; [done|..].
  - intros j v [?|Hin]%elem_of_app; [eauto|]. destruct (is_async i w); [by apply list_elem_of_singleton in Hin|by apply elem_of_nil in Hin].
  - intros j. rewrite callbacks_app. specialize (inv_callbacks0 j).
    assert (Hz : callbacks j (if is_async i w then [CancelFuture i] else []) = 0%nat) by (by destruct (is_async i w)). lia.
Qed.

Lemma ok_on_effects es w : response_ok w -> response_ok (fold_left on_effect es w).
Proof.
  revert w. induction es as [|e es IH]; intros w Hok; [done|]. cbn. apply IH. destruct e; try done. cbn.
  unfold abort_and_notify. destruct (reads w !! reader) as [r|] eqn:Hr.
  - assert (Hok' : response_ok (on_read reader (fun r => r <| abort_requested := true |>) w)).
    { eapply ok_on_read; try done; [by right|]. intros rd _ []. by split. }
    pose proof (ok_cancel_scheduled reader _ Hok') as Hdone. unfold is_async in Hdone |- *. cbn in Hdone.
    rewrite list_lookup_alter_eq, Hr in Hdone. cbn in Hdone. by rewrite Hr.
  - unfold is_async. rewrite Hr. destruct w; unfold on_read, update_field; cbn in *. by rewrite alter_none, app_nil_r.
Qed.

(** ** Sections of the stream *)

Lemma ok_fields f es w : response_ok w ->
  system_step is_end_stream (stream w) (with_fields (f, es) (stream w)) ->
  (terminal f = None -> read_in_progress f = false -> forall r, r ∈ reads w -> delivered r = true) ->
  response_ok (on_stream (f, es) w).
Proof.
  intros [] Hstep Hopen. unfold on_stream. apply ok_on_effects. split; try done. by eapply rtc_r.
Qed.

Lemma stream_finish_terminal finish ab f : is_Some (terminal (snd (fst (stream_finish finish ab f)))).
Proof.
  unfold stream_finish. destruct (terminal f) as [t|] eqn:Ht; [by exists t|].
  destruct finish; unfold finish_successful_body, finish_aborted_body, finish_lifecycle; cbn;
    destruct (lifecycle f); cbn; try destruct (lifecycle_finish _ _); cbn; by eexists.
Qed.

Lemma ok_finishing op w : op = close \/ op = cancel \/ (exists e, op = fail e) -> response_ok w -> response_ok (finishing op w).
Proof.
  intros Hop Hok. apply ok_fields; [done|by apply StreamState.step_close|].
  assert (Ht : is_Some (terminal (snd (fst (op (fields (stream w)))))))
    by (destruct Hop as [->|[->|[e ->]]]; apply stream_finish_terminal).
  intros E. rewrite E in Ht. by destruct Ht.
Qed.

Lemma register_fields i f : terminal (fst (register_read_task i f)) = terminal f /\
  read_in_progress (fst (register_read_task i f)) = read_in_progress f.
Proof. unfold register_read_task. by destruct (_ || _). Qed.

Lemma ok_register i w : response_ok w -> is_Some (readers (stream w) !! i) ->
  response_ok (on_stream (register_read_task i (fields (stream w))) w).
Proof.
  intros Hok Hi. destruct (register_read_task i (fields (stream w))) as [f es] eqn:Hr.
  apply ok_fields; [done|rewrite <- Hr; by apply StreamState.step_register|].
  destruct (register_fields i (fields (stream w))) as [Ht Hp]. rewrite Hr in Ht, Hp. cbn in Ht, Hp. rewrite Ht, Hp.
  apply (inv_open _ Hok).
Qed.

(** When the last read is to be delivered, every read is over. *)
Lemma all_over i r w : response_ok w -> reads w !! i = Some r -> got r = true -> delivered r = false ->
  S i = length (reads w) /\ forall rd, rd ∈ readers (stream w) -> reading rd = false.
Proof.
  intros [] Hi Hg Hd. assert (Hlast : S i = length (reads w)).
  { pose proof (lookup_lt_Some _ _ _ Hi). destruct (decide (S i < length (reads w))%nat) as [Hlt|]; [|lia].
    rewrite (inv_previous0 i r Hlt Hi) in Hd. done. }
  split; [done|]. intros rd [j Hj]%list_elem_of_lookup.
  assert (Hover : over rd); [|by destruct Hover as [[v E]|E]; unfold reading; rewrite E].
  pose proof (lookup_lt_Some _ _ _ Hj) as Hlt. rewrite <- inv_length0 in Hlt.
  destruct (lookup_lt_is_Some_2 _ _ Hlt) as [x Hx]. eapply ok_got; [by eapply inv_read0|].
  destruct (decide (j = i)) as [->|Hne]; [congruence|]. eapply ok_delivered; [by eapply inv_read0|]. apply (inv_previous0 j x); [lia|done].
Qed.

(** [finish_read_delivery] for a read whose result Python has. *)
Lemma ok_deliver i g r w : response_ok w -> reads w !! i = Some r -> got r = true -> delivered r = false ->
  callbacks i (event_loop w) = 0%nat -> asynchronous (g r) = asynchronous r -> got (g r) = true -> delivered (g r) = true ->
  (forall rd, read_ok r rd -> read_ok (g r) rd) ->
  response_ok (on_read i g (on_stream (finish_read_delivery (fields (stream w)), []) w)).
Proof.
  intros Hok Hi Hg Hd Hcb Ha Hg' Hd' Hread. destruct (all_over i r w Hok Hi Hg Hd) as [Hlast Hover]. pose proof Hok as [].
  assert (Hlook : forall j x, alter g i (reads w) !! j = Some x -> j = i /\ x = g r \/ j <> i /\ reads w !! j = Some x).
  { intros j x. destruct (decide (i = j)) as [<-|Hne].
    - rewrite list_lookup_alter_eq, Hi. intros [= <-]. by left.
    - rewrite list_lookup_alter_ne by done. right. split; [congruence|done]. }
  assert (Hall : forall x, x ∈ alter g i (reads w) -> delivered x = true).
  { intros x [j Hj]%list_elem_of_lookup. destruct (Hlook j x Hj) as [[-> ->]|[Hne Hx]]; [done|].
    apply (inv_previous0 j x); [|done]. apply lookup_lt_Some in Hx. lia. }
  split; cbn; rewrite ?length_alter; try done.
  - eapply rtc_r; [exact inv_reach0|]. by apply StreamState.step_deliver.
  - intros j x _ Hx. apply Hall. by eapply list_elem_of_lookup_2.
  - intros j x rd [[-> ->]|[_ Hx]]%Hlook Hrd; [|eauto]. eauto.
  - intros j v (x & rd & Hx & Hrd & ? & ?)%inv_set0. destruct (decide (i = j)) as [<-|Hne].
    + exists (g r), rd. rewrite list_lookup_alter_eq, Hi. assert (x = r) as -> by congruence. by rewrite Ha.
    + exists x, rd. by rewrite list_lookup_alter_ne by done.
  - intros j. destruct (decide (i = j)) as [<-|Hne]; [rewrite Hcb; lia|]. rewrite list_lookup_alter_ne by done. apply inv_callbacks0.
  - rewrite inv_outputs0. f_equal. unfold in_transit. rewrite (last_alter _ _ _ _ Hi), (proj2 (Nat.eqb_eq _ _) Hlast).
    assert (Hl : last (reads w) = Some r) by (rewrite last_lookup, <- Hlast; exact Hi). by rewrite Hl, Hg, Hg'.
Qed.

(** Python gets the result of the last read. *)
Lemma ok_get i r rd res g w : response_ok w -> reads w !! i = Some r -> readers (stream w) !! i = Some rd ->
  receive_result rd = Some res -> got r = false ->
  asynchronous (g r) = asynchronous r -> got (g r) = true -> delivered (g r) = delivered r -> has_callback (g r) = has_callback r ->
  (future (g r) = future r \/ future r = Pending) -> read_ok (g r) rd ->
  response_ok ((on_read i g w) <| outputs ::= fun l => l ++ chunk_of res |>).
Proof.
  intros Hok Hi Hrd Hres Hg Ha Hg' Hd Hc Hf Hread. pose proof Hok as [].
  assert (Hnd : delivered r = false).
  { destruct (delivered r) eqn:E; [|done]. rewrite (ok_delivered _ _ (inv_read0 i r rd Hi Hrd) E) in Hg. done. }
  assert (Hlast : S i = length (reads w)).
  { pose proof (lookup_lt_Some _ _ _ Hi). destruct (decide (S i < length (reads w))%nat) as [Hlt|]; [|lia].
    rewrite (inv_previous0 i r Hlt Hi) in Hnd. done. }
  assert (Hlook : forall j x, alter g i (reads w) !! j = Some x -> j = i /\ x = g r \/ j <> i /\ reads w !! j = Some x).
  { intros j x. destruct (decide (i = j)) as [<-|Hne].
    - rewrite list_lookup_alter_eq, Hi. intros [= <-]. by left.
    - rewrite list_lookup_alter_ne by done. right. split; [congruence|done]. }
  split; cbn; rewrite ?length_alter; try done.
  - intros j x Hj [[-> ->]|[_ Hx]]%Hlook; [lia|eauto].
  - intros Ht Hr x [j Hj]%list_elem_of_lookup. apply Hlook in Hj as [[-> ->]|[_ Hx]].
    + rewrite Hd. apply (inv_open0 Ht Hr). by eapply list_elem_of_lookup_2.
    + apply (inv_open0 Ht Hr). by eapply list_elem_of_lookup_2.
  - intros j x rd' [[-> ->]|[_ Hx]]%Hlook Hrd'; [|eauto]. by assert (rd' = rd) as -> by congruence.
  - intros j v (x & rd' & Hx & Hrd' & ? & ?)%inv_set0. destruct (decide (i = j)) as [<-|Hne].
    + exists (g r), rd'. rewrite list_lookup_alter_eq, Hi. assert (x = r) as -> by congruence. by rewrite Ha.
    + exists x, rd'. by rewrite list_lookup_alter_ne by done.
  - intros j. specialize (inv_callbacks0 j). destruct (decide (i = j)) as [<-|Hne].
    + rewrite list_lookup_alter_eq, Hi in *. cbn. unfold callback_due in *. rewrite Hd, Hc.
      destruct Hf as [->|E]; [done|]. rewrite E in inv_callbacks0. cbn in inv_callbacks0. rewrite andb_false_r in inv_callbacks0. cbn in inv_callbacks0. lia.
    + by rewrite list_lookup_alter_ne by done.
  - rewrite inv_outputs0, <- app_assoc. f_equal. unfold in_transit. rewrite (last_alter _ _ _ _ Hi), (proj2 (Nat.eqb_eq _ _) Hlast).
    assert (Hl : last (reads w) = Some r) by (rewrite last_lookup, <- Hlast; exact Hi).
    assert (Hlr : last (readers (stream w)) = Some rd) by (rewrite last_lookup, <- inv_length0, <- Hlast; exact Hrd).
    rewrite Hl, Hlr, Hg, Hg', app_nil_r. unfold receive_result, returned_chunk, chunk_of in *.
    destruct (read_stage rd) as [| | | | | | | | | | | | | | |[|]|[[]|]|]; try done; by injection Hres as <-.
Qed.

(** ** Reads begin and go on *)

Lemma start_read_facts c f res f' : start_read c f = (res, f') ->
  match res with
  | Ok (Some rd) => terminal f = None /\ read_in_progress f = false /\ terminal f' = None /\ read_in_progress f' = true /\
      read_stage rd = ReadStart
  | _ => f' = f
  end.
Proof.
  unfold start_read. destruct (terminal f) as [[|reason]|] eqn:Ht; [by intros [= <- <-]|destruct (decoded_mode f); by intros [= <- <-]|].
  destruct (read_in_progress f) eqn:Hp; [by intros [= <- <-]|].
  destruct (deferred_body_error f); [by intros [= <- <-]|].
  destruct (StreamState.body f), (decoded f); by intros [= <- <-].
Qed.

Lemma ok_begin_read async w : response_ok w -> response_ok (snd (begin_read async w)).
Proof.
  intros Hok. unfold begin_read. destruct (negb (has_state _)); [done|]. destruct (negb (has_handle _)); [done|].
  pose proof Hok as []. pose proof (StreamState.step_read is_end_stream (stream w) async) as Hstep.
  destruct (start_read async (fields (stream w))) as [res f] eqn:Hs. pose proof (start_read_facts _ _ _ _ Hs) as Hfacts. cbn.
  destruct res as [[rd|]|e].
  2, 3: subst f; split; cbn; rewrite ?app_nil_r; try done; eapply rtc_r; [exact inv_reach0|];
    cbn in Hstep; rewrite ?app_nil_r in Hstep; exact Hstep.
  destruct Hfacts as (Ht & Hr & Ht' & Hr' & Hstage). specialize (inv_open0 Ht Hr).
  assert (Hread : forall i r rd', (reads w ++ [new_read async]) !! i = Some r -> (readers (stream w) ++ [rd]) !! i = Some rd' ->
    reads w !! i = Some r /\ readers (stream w) !! i = Some rd' \/ i = length (reads w) /\ r = new_read async /\ rd' = rd).
  { intros i r rd' [Hi|[Hle Hi]]%lookup_app_Some Hj.
    - left. split; [done|]. apply lookup_lt_Some in Hi. by rewrite lookup_app_l in Hj by lia.
    - right. rewrite lookup_app_r in Hj by lia. rewrite inv_length0 in *.
      apply list_lookup_singleton_Some in Hi as [Hi <-]. rewrite Hi in Hj. injection Hj as <-. split; [lia|done]. }
  split; cbn; rewrite ?length_app; try done.
  - eapply rtc_r; [exact inv_reach0|exact Hstep].
  - by rewrite inv_length0.
  - intros i r Hi Hr1. rewrite lookup_app_l in Hr1 by (cbn in Hi; lia). apply inv_open0. by eapply list_elem_of_lookup_2.
  - by rewrite Hr'.
  - intros i r rd' Hi Hj. destruct (Hread i r rd' Hi Hj) as [[? ?]|(_ & -> & ->)]; [eauto|]. by split.
  - intros i v (r & rd' & Hi & Hj & Hrest)%inv_set0. exists r, rd'. split_and!; try by apply lookup_app_l_Some. all: apply Hrest.
  - intros i. specialize (inv_callbacks0 i). destruct (reads w !! i) as [r|] eqn:Hi; [by rewrite (lookup_app_l_Some _ _ _ _ Hi)|]. lia.
  - rewrite inv_outputs0. f_equal. unfold in_transit. rewrite !last_snoc. cbn. unfold returned_chunk at 2. rewrite Hstage.
    destruct (last (reads w)) as [r|] eqn:Hl; [|done]. destruct (last (readers (stream w))) as [rd'|] eqn:Hlr; [|done].
    assert (Hd : delivered r = true) by (apply inv_open0; rewrite last_lookup in Hl; by eapply list_elem_of_lookup_2).
    assert (Hg : got r = true); [|by rewrite Hg]. eapply ok_delivered; [|exact Hd].
    rewrite last_lookup in Hl. rewrite last_lookup in Hlr. rewrite <- inv_length0 in Hlr. eauto.
Qed.

(** A step of a task does not open a stream that has ended, and does not end a read. *)
Lemma reader_keeps e rd f rd' f' es : reader_step is_end_stream e rd f = Some (rd', f', es) ->
  terminal f' = None -> terminal f = None /\ read_in_progress f' = read_in_progress f.
Proof.
  assert (Hfin : forall finish ab, terminal (snd (fst (stream_finish finish ab f))) = None -> False).
  { intros finish ab E. pose proof (stream_finish_terminal finish ab f) as [t Ht]. congruence. }
  assert (Htr : terminal (fst (finish_transport_from_read f)) = None ->
    terminal f = None /\ read_in_progress (fst (finish_transport_from_read f)) = read_in_progress f).
  { unfold finish_transport_from_read. destruct (terminal f) eqn:Ht; [by cbn; rewrite Ht|]. intros _. split; [done|].
    unfold finish_successful_body, finish_lifecycle. cbn. destruct (lifecycle f); cbn; [destruct (lifecycle_finish _ _)|]; done. }
  unfold reader_step. destruct e; [|destruct (read_stage rd); try done; destruct (timed_out rd); by intros [= <- <- <-]
                                  |destruct (read_stage rd); try done; by intros [= <- <- <-]].
  unfold reader_go. intros Hstep Ht'. destruct (read_stage rd); try done; try (injection Hstep as <- <- <-; by split).
  - destruct (guard_body rd); injection Hstep as <- <- <-; [|by split]. unfold complete_read in *.
    revert Ht'. destruct (terminal f) eqn:Ht; cbn; rewrite ?Ht; done.
  - destruct (stream_finish Success false f) as [[ok f1] es1] eqn:Hs. injection Hstep as <- <- <-.
    destruct (Hfin Success false). by rewrite Hs.
  - destruct (finish_transport_from_read f) as [f1 es1]. injection Hstep as <- <- <-. by apply Htr.
  - destruct (is_some (terminal f)); injection Hstep as <- <- <-; by split.
  - destruct (stream_finish Success false f) as [[ok f1] es1] eqn:Hs.
    assert (E : f' = f1) by (destruct ok; by injection Hstep as <- <- <-). destruct (Hfin Success false). by rewrite Hs, <- E.
  - unfold abort_from_read in Hstep. destruct (stream_finish _ false f) as [[ok f1] es1] eqn:Hs. injection Hstep as <- <- <-. exfalso.
    eapply Hfin. by rewrite Hs.
  - unfold drop_guard, abort_from_read in Hstep. destruct (guard_disarmed rd); [by injection Hstep as <- <- <-|].
    destruct (stream_finish _ false f) as [[ok f1] es1] eqn:Hs. injection Hstep as <- <- <-. exfalso. eapply Hfin. by rewrite Hs.
Qed.

(** A task that is over only drops what it holds. *)
Lemma reader_over e rd f rd' f' es : reader_step is_end_stream e rd f = Some (rd', f', es) -> over rd ->
  read_stage rd' = Returned None.
Proof.
  intros Hstep [[v E]|E]; unfold reader_step, reader_go in Hstep; rewrite E in Hstep; destruct e; try done.
  destruct (drop_guard rd f). by injection Hstep as <- <- <-.
Qed.

Lemma reader_moves e rd f x : reader_step is_end_stream e rd f = Some x -> forall v, read_stage rd <> Returned v.
Proof. intros Hstep v E. unfold reader_step, reader_go in Hstep. rewrite E in Hstep. by destruct e. Qed.

Lemma ok_turn i e w w' : response_ok w -> turn is_end_stream i e w = Some w' -> response_ok w'.
Proof.
  intros Hok. pose proof Hok as []. unfold turn. destruct (reads w !! i) as [r|] eqn:Hi; [|done]. cbn.
  destruct (readers (stream w) !! i) as [rd|] eqn:Hrd; [|done]. cbn. destruct (may_turn e r rd); [|done].
  destruct (reader_step _ _ _ _) as [[[rd' f] es]|] eqn:Hstep; [|done]. intros [= <-]. apply ok_on_effects.
  assert (Hlook : forall j x, <[i := rd']> (readers (stream w)) !! j = Some x ->
    j = i /\ x = rd' \/ j <> i /\ readers (stream w) !! j = Some x).
  { intros j x. rewrite list_lookup_insert_Some. intros [(-> & -> & _)|[? ?]]; auto. }
  pose proof (inv_read0 i r rd Hi Hrd) as Hread.
  split; cbn; rewrite ?length_insert; try done.
  - eapply rtc_r; [exact inv_reach0|]. by eapply StreamState.step_reader.
  - intros Ht Hr. destruct (reader_keeps _ _ _ _ _ _ Hstep Ht) as [Ht0 Hr0]. rewrite Hr0 in Hr. by apply inv_open0.
  - intros j x rd1 Hj [[-> ->]|[_ Hx]]%Hlook; [|eauto]. assert (x = r) as -> by congruence. destruct Hread. split; try done.
    intros Hg. left. exists None. by eapply reader_over, ok_got0.
  - intros j v (x & rd1 & Hx & Hrd1 & ? & Hst)%inv_set0. exists x, rd1. split_and!; try done.
    rewrite list_lookup_insert_ne; [done|]. intros <-. assert (rd1 = rd) as -> by congruence. by apply (reader_moves _ _ _ _ Hstep) in Hst.
  - rewrite inv_outputs0, <- app_assoc. f_equal. unfold in_transit. rewrite !last_lookup, length_insert, <- inv_length0.
    destruct (decide (i = pred (length (reads w)))) as [<-|Hne].
    + rewrite Hi, Hrd, list_lookup_insert_eq by (by eapply lookup_lt_Some). destruct (got r) eqn:Hg.
      * unfold returned_chunk. by rewrite (reader_over _ _ _ _ _ _ Hstep (ok_got _ _ Hread Hg)).
      * pose proof (reader_moves _ _ _ _ Hstep) as Hmoves. unfold returned_chunk at 1. destruct (read_stage rd); try done. by destruct (Hmoves r0).
    + rewrite list_lookup_insert_ne by done. assert (Hg : got r = true).
      { apply (ok_delivered _ _ Hread). apply (inv_previous0 i r); [|done]. apply lookup_lt_Some in Hi. lia. }
      unfold returned_chunk at 2. by rewrite (reader_over _ _ _ _ _ _ Hstep (ok_got _ _ Hread Hg)), app_nil_r.
Qed.

(** ** Calls, tasks and the loop *)

Lemma alter_compose {A} (g h : A -> A) i (l : list A) : alter g i (alter h i l) = alter (fun x => g (h x)) i l.
Proof.
  apply list_eq. intros j. destruct (decide (i = j)) as [<-|Hne]; [|by rewrite !list_lookup_alter_ne].
  rewrite !list_lookup_alter_eq. by destruct (l !! i).
Qed.

Lemma on_read_compose g h i (w : World) : on_read i g (on_read i h w) = on_read i (fun r => g (h r)) w.
Proof. destruct w. unfold on_read, update_field. cbn. by rewrite alter_compose. Qed.

(** Effects on the stream leave the results of the reads, their futures and their callbacks. *)
Record same_read (r r' : Read) : Prop := {
  same_async : asynchronous r' = asynchronous r;
  same_stage : stage r' = stage r;
  same_started : started r' = started r;
  same_got : got r' = got r;
  same_delivered : delivered r' = delivered r;
  same_callback : has_callback r' = has_callback r;
  same_future : future r' = future r;
}.

Lemma on_effects_lookup es i r (w : World) : reads w !! i = Some r ->
  exists r', reads (fold_left on_effect es w) !! i = Some r' /\ same_read r r'.
Proof.
  revert w r. induction es as [|e es IH]; intros w r Hi; [by exists r; split|]. cbn.
  assert (Hone : exists r1, reads (on_effect w e) !! i = Some r1 /\ same_read r r1).
  { destruct e; try (exists r; split; [exact Hi|by split]). cbn. destruct (decide (reader = i)) as [->|Hne].
    - rewrite list_lookup_alter_eq, Hi. eexists. split; [reflexivity|by split].
    - rewrite list_lookup_alter_ne by done. exists r. split; [exact Hi|by split]. }
  destruct Hone as (r1 & Hr1 & [A B C D E F G]). destruct (IH _ _ Hr1) as (r2 & Hr2 & [A' B' C' D' E' F' G']).
  exists r2. split; [done|]. split; congruence.
Qed.

Lemma same_read_ok r r' rd : same_read r r' -> read_ok r rd -> read_ok r' rd.
Proof. intros [A B C D E F G] []. split; rewrite ?A, ?B, ?D, ?E, ?F, ?G; done. Qed.

(** The stage of a read moves on. *)
Lemma ok_stage i g r w : response_ok w -> reads w !! i = Some r ->
  (forall x, same_read r x -> asynchronous (g x) = asynchronous x /\ got (g x) = got x /\ delivered (g x) = delivered x /\
     has_callback (g x) = has_callback x /\ future (g x) = future x) ->
  (forall x, same_read r x -> (unanswered (stage (g x)) = true -> unanswered (stage x) = true) /\
     (early (stage (g x)) = true -> early (stage x) = true) /\ (forall v, stage (g x) <> Delivering v) /\
     (stage (g x) = Waiting -> asynchronous r = false)) ->
  response_ok (on_read i g w).
Proof.
  intros Hok Hi Hsame Hst. destruct (Hsame r) as (A & B & C & D & E); [by split|]. destruct (Hst r) as (F & G & I & J); [by split|].
  apply (ok_on_read i g r); try done; [by rewrite D|by right|]. intros rd _ []. split; rewrite ?A, ?B, ?C, ?D, ?E; try done; auto.
  intros v Hv. by destruct (I v).
Qed.

Lemma ok_stage_after es i g r w : response_ok (fold_left on_effect es w) -> reads w !! i = Some r ->
  (forall x, same_read r x -> asynchronous (g x) = asynchronous x /\ got (g x) = got x /\ delivered (g x) = delivered x /\
     has_callback (g x) = has_callback x /\ future (g x) = future x) ->
  (forall x, same_read r x -> (unanswered (stage (g x)) = true -> unanswered (stage x) = true) /\
     (early (stage (g x)) = true -> early (stage x) = true) /\ (forall v, stage (g x) <> Delivering v) /\
     (stage (g x) = Waiting -> asynchronous r = false)) ->
  response_ok (on_read i g (fold_left on_effect es w)).
Proof.
  intros Hok Hi Hsame Hst. destruct (on_effects_lookup es i r w Hi) as (r' & Hi' & Hr).
  assert (Htrans : forall x, same_read r' x -> same_read r x) by (intros x []; destruct Hr; split; congruence).
  apply (ok_stage i g r'); [done|done|intros x Hx; apply Hsame, Htrans, Hx|].
  intros x Hx. destruct (Hst x (Htrans x Hx)) as (A & B & C & D). split_and!; try done. intros E. by rewrite (same_async _ _ Hr), D.
Qed.

Lemma ok_send_start i after r rd w : response_ok w -> reads w !! i = Some r ->
  (after = Waiting /\ asynchronous r = false /\ unanswered (stage r) = true \/ after = Finished) ->
  response_ok (send_start i after rd w).
Proof.
  intros Hok Hi Hafter. unfold send_start. destruct (start_receiver_dropped rd).
  - apply (ok_stage i _ r); [done|done|by intros x _|by intros x _].
  - apply (ok_stage i _ r); [done|done|by intros x _|]. intros x Hx. cbn. destruct Hafter as [(-> & Ha & Hu)| ->]; [|done].
    split_and!; try done. by rewrite (same_stage _ _ Hx).
Qed.

Lemma ok_schedule_callback i r w : response_ok w -> reads w !! i = Some r ->
  (callbacks i (event_loop w) < callback_due r)%nat -> response_ok (schedule_callback i w).
Proof.
  intros Hok Hi Hc. pose proof Hok as []. apply ok_loop; [done|..].
  - intros j v [?|Hin%list_elem_of_singleton]%elem_of_app; [eauto|done].
  - intros j. rewrite callbacks_app, callbacks_cons. specialize (inv_callbacks0 j). unfold callbacks at 2. cbn.
    destruct (Nat.eqb_spec j i) as [->|Hne]; cbn; [rewrite Hi|]; lia.
Qed.

Lemma ok_call_step i answer w w' : response_ok w -> call_step i answer w = Some w' -> response_ok w'.
Proof.
  intros Hok. pose proof Hok as []. unfold call_step. destruct (reads w !! i) as [r|] eqn:Hi; [|done]. cbn.
  destruct (readers (stream w) !! i) as [rd|] eqn:Hrd; [|done]. cbn. pose proof (inv_read0 i r rd Hi Hrd) as Hread.
  destruct (stage r) as [| | | |res| |] eqn:Hst; [| | | | | |done].
  - intros [= <-]. unfold register_step. pose proof (ok_register i w Hok ltac:(by eexists)) as Hreg. unfold on_stream in *.
    destruct (_ || _); (apply (ok_stage_after _ i _ r); [done|done|by intros x _|]);
      intros x Hx; cbn; split_and!; try done; intros _; by rewrite (same_stage _ _ Hx), Hst.
  - intros [= <-]. destruct (asynchronous r) eqn:Ha.
    2: { apply (ok_send_start i _ r); [done|done|]. left. by rewrite Hst. }
    destruct (ok_early _ _ Hread) as [Hc Hd]; [by rewrite Hst|].
    unfold add_done_callback. destruct answer.
    + assert (Hok1 : response_ok (on_read i (fun r => r <| has_callback := true |> <| stage := CallbackAdded |>) w)).
      { apply (ok_on_read i _ r); try done; [by right|]. intros rd1 _ []. split; cbn; try done; intros; congruence. }
      assert (Hcb : callbacks i (event_loop w) = 0%nat).
      { specialize (inv_callbacks0 i). rewrite Hi in inv_callbacks0. unfold callback_due in inv_callbacks0. rewrite Hc in inv_callbacks0. cbn in inv_callbacks0. lia. }
      destruct (future r) eqn:Hf; [done|..]; (eapply ok_schedule_callback; [exact Hok1|cbn; by rewrite list_lookup_alter_eq, Hi|];
        cbn; rewrite Hcb; unfold callback_due; cbn; rewrite Hf, Hd; cbn; lia).
    + apply (ok_stage i _ r); [done|done|by intros x _|by intros x _].
    + apply (ok_stage i _ r); [done|done|by intros x _|by intros x _].
  - intros [= <-]. apply (ok_send_start i _ r); [done|done|by right].
  - destruct (receive_result rd) as [res|] eqn:Hres; [|done]. intros [= <-].
    pose proof (ok_waiting _ _ Hread Hst) as Ha. pose proof (ok_unanswered _ _ Hread Ha) as Hg. rewrite Hst in Hg. specialize (Hg eq_refl).
    apply (ok_get i r rd res _ w Hok Hi Hrd Hres Hg); try done; [by left|]. destruct Hread. split; cbn; try done.
    + intros _. unfold receive_result in Hres. unfold over. destruct (read_stage rd) as [| | | | | | | | | | | | | | |[|]|[[]|]|]; try done;
        [by right|left; by eexists..].
    + intros v Hv. split_and!; try done. destruct (delivered r) eqn:Hd; [|done]. by rewrite ok_delivered0 in Hg.
    + congruence.
  - intros [= <-]. destruct (ok_delivering _ _ Hread res Hst) as (Hg & Hd & Ha). unfold set_stage, finish_delivery.
    rewrite on_read_compose. apply (ok_deliver i _ r); try done.
    + specialize (inv_callbacks0 i). rewrite Hi in inv_callbacks0. unfold callback_due in inv_callbacks0.
      rewrite (ok_sync _ _ Hread Ha) in inv_callbacks0. cbn in inv_callbacks0. lia.
    + intros rd1 []. split; cbn; try done; destruct res; try done; intros; congruence.
  - intros [= <-]. assert (Hfin : response_ok (finishing (fail None) w)) by (apply ok_finishing; eauto). unfold finishing, on_stream in *.
    apply (ok_stage_after _ i _ r); [done|done|by intros x _|by intros x _].
Qed.

Lemma ok_complete i loop_open w w' : response_ok w -> complete_bytes_future i loop_open w = Some w' -> response_ok w'.
Proof.
  intros Hok. unfold complete_bytes_future. destruct (reads w !! i) as [r|] eqn:Hi; [|done]. cbn.
  destruct (readers (stream w) !! i) as [rd|] eqn:Hrd; [|done]. cbn.
  destruct (read_stage rd) as [| | | | | | | | | | | | | | | |[res|]|] eqn:Hst; try done.
  destruct (asynchronous r) eqn:Ha; [|done]. destruct (started r); [|done]. destruct (negb (scheduled r)); [|done]. intros [= <-].
  assert (Hok1 : response_ok (on_read i (fun r => r <| scheduled := true |>) w)).
  { apply (ok_on_read i _ r); try done; [by right|]. intros rd1 _ []. by split. }
  pose proof Hok1 as []. unfold on_read in Hok1 |- *. refine (ok_loop _ _ Hok1 _ _).
  - intros j v [Hin|Hin]%elem_of_app; [by apply inv_set0|]. destruct loop_open; [|by apply elem_of_nil in Hin].
    apply list_elem_of_singleton in Hin as [= -> ->]. cbn. exists (r <| scheduled := true |>), rd. by rewrite list_lookup_alter_eq, Hi.
  - intros j. cbn. rewrite callbacks_app. assert (Hz : callbacks j (if loop_open then [SetResult i res] else []) = 0%nat) by (by destruct loop_open).
    specialize (inv_callbacks0 j). cbn in inv_callbacks0. lia.
Qed.

Lemma ok_settle i r rd state w : response_ok w -> reads w !! i = Some r -> readers (stream w) !! i = Some rd ->
  (state = Cancelled \/ exists res, state = Resolved res /\ asynchronous r = true /\ read_stage rd = Returned (Some res)) ->
  response_ok (settle i r state w).
Proof.
  intros Hok Hi Hrd Hstate. unfold settle. destruct (future r) eqn:Hf; [|done..].
  pose proof Hok as []. pose proof (inv_read0 i r rd Hi Hrd) as Hread.
  set (g := fun r => r <| future := state |> <| got ::= _ |>).
  assert (Hcb : callbacks i (event_loop w) = 0%nat).
  { specialize (inv_callbacks0 i). rewrite Hi in inv_callbacks0. unfold callback_due in inv_callbacks0. rewrite Hf in inv_callbacks0.
    cbn in inv_callbacks0. rewrite andb_false_r in inv_callbacks0. cbn in inv_callbacks0. lia. }
  assert (Hgot : asynchronous r = true -> got r = false).
  { intros Ha. destruct (got r) eqn:Hg; [|done]. destruct (ok_async_got _ _ Hread Ha Hg) as [v Hv]. congruence. }
  assert (Hok1 : response_ok ((on_read i g w) <| outputs ::= fun l => l ++ match state with Resolved res => chunk_of (Some res) | _ => [] end |>)).
  { destruct Hstate as [->|(res & -> & Ha & Hst)].
    - assert (Hok1 : response_ok (on_read i g w)).
      { apply (ok_on_read i g r); try done; [left; by rewrite Hf|]. intros rd1 _ []. split; cbn; try done.
        intros Ha Hg. by rewrite Hgot in Hg. }
      revert Hok1. generalize (on_read i g w). intros [] ?. unfold update_field. cbn. by rewrite app_nil_r.
    - apply (ok_get i r rd (Some res) g w); try done; [unfold receive_result; by rewrite Hst|by apply Hgot|by right|].
      destruct Hread. split; cbn; try done; try congruence.
      + intros _. left. by eexists.
      + intros v Hv. destruct (ok_delivering0 v Hv) as (_ & _ & ?). congruence.
      + intros _ _. by exists res. }
  destruct (has_callback r) eqn:Hc; [|done]. assert (Ha : asynchronous r = true).
  { destruct (asynchronous r) eqn:Ha; [done|]. by rewrite (ok_sync _ _ Hread Ha) in Hc. }
  apply (ok_schedule_callback i (g r)); [done|cbn; by rewrite list_lookup_alter_eq, Hi|]. cbn. rewrite Hcb. unfold callback_due. cbn. rewrite Hc.
  destruct (delivered r) eqn:Hd; [by pose proof (ok_delivered _ _ Hread Hd); rewrite (Hgot Ha) in *|]. destruct Hstate as [->|(res & -> & _)]; cbn; lia.
Qed.

Lemma ok_pop c rest w : response_ok w -> event_loop w = c :: rest -> response_ok (w <| event_loop := rest |>).
Proof.
  intros Hok Hl. pose proof Hok as []. apply ok_loop; [done|..].
  - intros i v Hin. apply inv_set0. rewrite Hl. by right.
  - intros i. specialize (inv_callbacks0 i). rewrite Hl, callbacks_cons in inv_callbacks0. lia.
Qed.

Lemma ok_reader i r w : response_ok w -> reads w !! i = Some r -> exists rd, readers (stream w) !! i = Some rd.
Proof.
  intros [] Hi. apply lookup_lt_Some in Hi. rewrite inv_length0 in Hi. by apply lookup_lt_is_Some_2 in Hi as [rd ?]; exists rd.
Qed.

Lemma ok_done_callback i r rest w : response_ok w -> event_loop w = RunCallback i :: rest -> reads w !! i = Some r ->
  response_ok (done_callback i r (w <| event_loop := rest |>)).
Proof.
  intros Hok Hl Hi. pose proof (ok_pop _ _ _ Hok Hl) as Hpop. destruct (ok_reader i r w Hok Hi) as [rd Hrd].
  pose proof (inv_read _ Hok i r rd Hi Hrd) as Hread. pose proof (inv_callbacks _ Hok i) as Hcb.
  rewrite Hl, Hi, callbacks_cons in Hcb. cbn in Hcb. rewrite Nat.eqb_refl in Hcb. unfold callback_due in Hcb.
  destruct (has_callback r) eqn:Hc; [|cbn in Hcb; lia]. destruct (delivered r) eqn:Hd; [rewrite andb_false_r in Hcb; lia|].
  unfold done_callback. destruct (future r) eqn:Hf; [cbn in Hcb; lia|..]; cbn in Hcb.
  - apply ok_finishing; [auto|]. apply (ok_on_read i _ r); try done; [by right|]. intros rd1 _ []. by split.
  - apply (ok_deliver i _ r); try done; [by eapply ok_resolved|cbn; lia|cbn; by eapply ok_resolved|].
    intros rd1 []. split; cbn; try done.
    + intros _. by eapply ok_resolved0.
    + intros v Hv. destruct (ok_delivering0 v Hv) as (_ & _ & Ha). rewrite (ok_sync0 Ha) in Hc. done.
    + intros He. destruct (ok_early0 He). congruence.
Qed.

Lemma ok_loop_step w w' : response_ok w -> loop_step w = Some w' -> response_ok w'.
Proof.
  intros Hok. unfold loop_step. destruct (event_loop w) as [|[i res|i|i] rest] eqn:Hl; [done|..];
    cbn; destruct (reads w !! i) as [r|] eqn:Hi; try done; cbn; intros [= <-];
    pose proof (ok_pop _ _ _ Hok Hl) as Hpop; destruct (ok_reader i r w Hok Hi) as [rd Hrd].
  - apply (ok_settle i r rd); try done. right. exists res. split; [done|].
    destruct (inv_set _ Hok i res) as (r' & rd' & Hr' & Hrd' & ? & ?); [rewrite Hl; left|]. by simplify_eq.
  - apply (ok_settle i r rd); try done. by left.
  - by apply (ok_done_callback i r rest).
Qed.

Lemma ok_own_step w w' : response_ok w -> own_step is_end_stream w w' -> response_ok w'.
Proof.
  intros Hok [i answer ? Hs|i loop_open ? Hs|i e ? Hs|? Hs|i r Hi Ha| | |].
  - by eapply ok_call_step.
  - by eapply ok_complete.
  - by eapply ok_turn.
  - by eapply ok_loop_step.
  - destruct (ok_reader i r w Hok Hi) as [rd Hrd]. apply (ok_settle i r rd); auto.
  - apply ok_finishing; auto.
  - destruct Hok. split; try done. eapply rtc_r; [done|]. apply StreamState.step_complete.
  - destruct Hok. split; try done. eapply rtc_r; [done|]. apply StreamState.step_write_timeout.
Qed.

Lemma ok_world_step w w' : response_ok w -> world_step is_end_stream w w' -> response_ok w'.
Proof.
  intros Hok [ |loop| | |_|w1 _ Hs|pid _].
  - unfold next_chunk. destruct (ensure_current_process w); [by apply ok_begin_read|done].
  - unfold next_chunk_async. destruct (ensure_current_process w); [|done]. destruct loop; [by apply ok_begin_read|done].
  - unfold close_response, close_with. destruct (negb _); [done|]. destruct (negb _); [done|]. apply ok_finishing; auto.
  - unfold cancel_response, close_with. destruct (negb _); [done|]. destruct (negb _); [done|]. apply ok_finishing; auto.
  - unfold close_resources. set (w1 := w <| response ::= _ |>). assert (Hok1 : response_ok w1) by (by destruct Hok; split).
    destruct (in_process w1); [|done]. destruct (has_state _); [|done]. apply ok_finishing; auto.
  - by eapply ok_own_step.
  - by destruct Hok; split.
Qed.

Lemma ok_reachable pid w : response_reachable is_end_stream pid f0 w -> response_ok w.
Proof.
  unfold response_reachable. revert w. apply rtc_ind_r; [|intros w w' _ Hs Hok; by eapply ok_world_step].
  split; cbn; try done; [apply rtc_refl|..].
  - intros _ _ r Hr. by apply elem_of_nil in Hr.
  - intros i v Hin. by apply elem_of_nil in Hin.
Qed.

End invariant.

(** ** What Python reads *)

(** A response in another process is left alone. *)
Lemma foreign_world_step `{StreamCodecs} is_end_stream (w w' : World) : in_process w = false -> world_step is_end_stream w w' ->
  stream w' = stream w /\ reads w' = reads w /\ event_loop w' = event_loop w /\ outputs w' = outputs w.
Proof.
  intros Hp [ |loop| | |_|w1 Hin _|pid _]; try done.
  - unfold next_chunk, ensure_current_process. unfold in_process in Hp. by rewrite Hp.
  - unfold next_chunk_async, ensure_current_process. unfold in_process in Hp. by rewrite Hp.
  - unfold close_response, close_with. by rewrite Hp.
  - unfold cancel_response, close_with. by rewrite Hp.
  - unfold close_resources. set (w1 := w <| response ::= _ |>). assert (E : in_process w1 = false) by exact Hp. by rewrite E.
  - congruence.
Qed.

(** C30: The streamed response of Python refines the stream it reads from: however calls of
    [next_chunk] and [next_chunk_async], their tasks, the loop's callbacks, cancelled
    futures, [close], [cancel], the drop of the response and shutdowns of the client
    interleave, the stream only takes the steps of file [StreamState], where a result is
    delivered once every read has ended.  A read begins only when the one before is
    delivered, a read is delivered only after Python got its result, and only a read that
    is over has given one.  After a fork, reads of the child raise, and [close], [cancel]
    and the drop leave the stream, its tasks and its loop alone. *)
Theorem response_refines_stream `{StreamCodecs} is_end_stream pid f w :
  response_reachable is_end_stream pid f w ->
  StreamState.reachable is_end_stream f (stream w) /\
  (forall i r rd, reads w !! i = Some r -> readers (stream w) !! i = Some rd ->
     ((S i < length (reads w))%nat -> delivered r = true) /\
     (delivered r = true -> got r = true) /\ (got r = true -> reading rd = false)) /\
  (in_process w = false ->
     (exists e, next_chunk w = (Raised e, w) /\ forall running_loop, next_chunk_async running_loop w = (Raised e, w)) /\
     close_response w = (None, w) /\ cancel_response w = (None, w) /\
     forall w', world_step is_end_stream w w' ->
       stream w' = stream w /\ reads w' = reads w /\ event_loop w' = event_loop w /\ outputs w' = outputs w).
Proof.
  intros Hw. pose proof (ok_reachable _ _ _ _ Hw) as Hok. pose proof Hok as []. split_and!; [done|..].
  - intros i r rd Hi Hrd. destruct (inv_read0 i r rd Hi Hrd). split_and!; [intros Hlt; eauto|done|].
    intros Hg. destruct (ok_got0 Hg) as [[v E]|E]; unfold reading; by rewrite E.
  - intros Hp. split_and!; [|by unfold close_response, close_with; rewrite Hp|by unfold cancel_response, close_with; rewrite Hp|].
    + unfold next_chunk, next_chunk_async, ensure_current_process. unfold in_process in Hp. rewrite Hp. by eexists.
    + intros w'. by apply foreign_world_step.
Qed.

Section delivered.
Context `{StreamCodecs, !CodecLaws} (is_end_stream : Incoming -> bool).
Context (end_stream_law : forall b, is_end_stream b = true -> body_data b = []).
Context (all : list Z) (mode : option (StreamingDecodePlan * option Z)).
Context (limits : forall plan max, mode = Some (plan, max) -> within max 0).

Lemma nothing_in_transit (w : World) : (forall r, r ∈ reads w -> got r = true) ->
  in_transit (reads w) (readers (stream w)) = [].
Proof.
  intros Hall. unfold in_transit. destruct (last (reads w)) as [r|] eqn:Hl; [|done]. destruct (last (readers _)); [|done].
  rewrite last_lookup in Hl. by rewrite (Hall r) by (by eapply list_elem_of_lookup_2).
Qed.

(** C29: The chunks Python gets from a streamed response, by whichever mixture of
    [next_chunk] and [next_chunk_async], are the response's body in order: undecoded, a
    prefix of its data, decoded, of what the decoder made of a prefix of it.  No chunk is
    lost between two that Python got, or got twice, although futures are cancelled, tasks
    aborted and results scheduled on a loop that has closed; at most the chunk of the last
    read is on its way.  When the stream has succeeded and Python has the result of every
    read, it has the whole body, from a decoder at its end.  No read panics. *)
Theorem python_reads_the_body pid incoming d used outcome w :
  decoded_start all mode incoming d ->
  response_reachable is_end_stream pid (stream_state_new incoming d used outcome) w ->
  match mode with
  | None => exists rest, body_data incoming = mjoin (outputs w) ++ rest /\
      (terminal (fields (stream w)) = Some Success -> (forall r, r ∈ reads w -> got r = true) -> rest = [])
  | Some (plan, max) => exists decoder hist consumed produced rest undelivered,
      decoding plan max decoder hist consumed produced /\ body_data incoming = consumed ++ rest /\
      produced = mjoin (outputs w) ++ undelivered /\
      (terminal (fields (stream w)) = Some Success -> (forall r, r ∈ reads w -> got r = true) ->
         rest = [] /\ undelivered = [] /\ finished decoder = true)
  end /\
  (length (returned (stream w)) <= S (length (outputs w)))%nat /\
  (forall r, r ∈ readers (stream w) -> read_stage r <> Panicked).
Proof.
  intros Hstart Hw. pose proof (ok_reachable _ _ _ _ Hw) as Hok. pose proof Hok as [Hr _ _ _ _ _ _ Hout].
  destruct (reachable_content is_end_stream end_stream_law all mode limits _ _ _ _ _ Hstart Hr) as [_ _ Hdel Hrd _].
  pose proof (nothing_in_transit w) as Hnone. destruct Hstart as [Hall0 _]. rewrite <- Hall0. unfold deliver_ok, content in Hdel. rewrite Hout, join_app in Hdel.
  split_and!.
  - destruct mode as [[plan max]|].
    + destruct Hdel as (dec & hist & consumed & produced & rest & un & Hdec & Hb & -> & Hs).
      exists dec, hist, consumed, (mjoin (outputs w) ++ (mjoin (in_transit (reads w) (readers (stream w))) ++ un)), rest,
        (mjoin (in_transit (reads w) (readers (stream w))) ++ un).
      rewrite <- app_assoc in Hdec. split_and!; [done|done|done|]. intros Ht Hall. rewrite (Hnone Hall). cbn. by apply Hs.
    + destruct Hdel as (rest & Hb & Hs). rewrite <- app_assoc in Hb. eexists. split; [exact Hb|]. intros Ht Hall.
      rewrite (Hnone Hall), Hs by done. done.
  - rewrite Hout, length_app. unfold in_transit, returned_chunk. repeat case_match; cbn; lia.
  - intros r Hin E. specialize (Hrd r Hin). unfold reader_ok in Hrd. by rewrite E in Hrd.
Qed.
End delivered.

(** ** Concrete runs *)

#[local] Existing Instance pass_codecs.
#[local] Existing Instance pass_codecs_laws.

(** The steps as moves, to run a response on concrete schedules. *)
Inductive WorldMove :=
| NextChunk | NextChunkAsync | Call (i : nat) | Go (i : nat) (n : nat) | Complete (i : nat) | Loop
| CancelRead (i : nat) | Cancel | DropResponse | Fork (pid : Runtime.ProcessId).

Fixpoint go (is_end_stream : Incoming -> bool) (i n : nat) (w : World) : option World :=
  match n with
  | O => Some w
  | S n => w' ← turn is_end_stream i StreamState.Go w; if in_process w then go is_end_stream i n w' else None
  end.

Definition world_move (is_end_stream : Incoming -> bool) (m : WorldMove) (w : World) : option World :=
  match m with
  | NextChunk => Some (snd (next_chunk w))
  | NextChunkAsync => Some (snd (next_chunk_async (Ok tt) w))
  | Call i => if in_process w then call_step i Added w else None
  | Go i n => go is_end_stream i n w
  | Complete i => if in_process w then complete_bytes_future i true w else None
  | Loop => if in_process w then loop_step w else None
  | CancelRead i =>
      if in_process w then r ← reads w !! i; if asynchronous r then Some (settle i r Cancelled w) else None else None
  | Cancel => Some (snd (cancel_response w))
  | DropResponse =>
      if negb (in_process w) || forallb (fun r => match stage r with Finished => true | _ => false end) (reads w) then
        Some (close_resources w)
      else None
  | Fork pid => if pid =? response_process (response w) then None else Some (w <| current := pid |>)
  end.

Fixpoint drive (is_end_stream : Incoming -> bool) (moves : list WorldMove) (w : World) : option World :=
  match moves with
  | [] => Some w
  | m :: moves => w' ← world_move is_end_stream m w; drive is_end_stream moves w'
  end.

Lemma go_steps is_end_stream i n (w w' : World) : go is_end_stream i n w = Some w' -> rtc (world_step is_end_stream) w w'.
Proof.
  revert w; induction n as [|n IH]; intros w; cbn; [intros [= <-]; apply rtc_refl|].
  destruct (turn is_end_stream i StreamState.Go w) as [w1|] eqn:Ht; [|done]. cbn. destruct (in_process w) eqn:Hp; [|done].
  intros Hg. eapply rtc_l; [|by apply IH]. apply step_own; [done|]. by eapply own_turn.
Qed.

Lemma world_move_steps is_end_stream m (w w' : World) :
  world_move is_end_stream m w = Some w' -> rtc (world_step is_end_stream) w w'.
Proof.
  destruct m as [| |i|i n|i| |i| | |pid]; cbn.
  - intros [= <-]. apply rtc_once, step_next_chunk.
  - intros [= <-]. apply rtc_once, step_next_chunk_async.
  - destruct (in_process w) eqn:Hp; [|done]. intros. apply rtc_once, step_own; [done|]. by eapply own_call.
  - apply go_steps.
  - destruct (in_process w) eqn:Hp; [|done]. intros. apply rtc_once, step_own; [done|]. by eapply own_complete.
  - destruct (in_process w) eqn:Hp; [|done]. intros. apply rtc_once, step_own; [done|]. by eapply own_loop.
  - destruct (in_process w) eqn:Hp; [|done]. destruct (reads w !! i) as [r|] eqn:Hi; [|done]. cbn.
    destruct (asynchronous r) eqn:Ha; [|done]. intros [= <-]. apply rtc_once, step_own; [done|]. by apply own_cancel.
  - intros [= <-]. apply rtc_once, step_cancel_response.
  - destruct (negb (in_process w) || _) eqn:E; [|done]. intros [= <-]. apply rtc_once, step_drop_response.
    apply orb_prop in E as [E|E]; [left; by destruct (in_process w)|right]. intros r Hr.
    apply list_elem_of_In in Hr. rewrite forallb_forall in E. specialize (E r Hr). by destruct (stage r).
  - destruct (Z.eqb_spec pid (response_process (response w))); [done|]. intros [= <-]. by apply rtc_once, step_fork.
Qed.

Lemma response_drive_reachable is_end_stream pid f moves (w w' : World) :
  response_reachable is_end_stream pid f w -> drive is_end_stream moves w = Some w' -> response_reachable is_end_stream pid f w'.
Proof.
  revert w; induction moves as [|m moves IH]; intros w Hw; cbn [drive]; [by intros [= <-]|].
  destruct (world_move is_end_stream m w) as [w1|] eqn:Hm; [|done]. apply IH. unfold response_reachable in *; etrans; [exact Hw|]. by eapply world_move_steps.
Qed.

(** The first chunk in a thread, the second and the end in the loop. *)
Definition sync_moves (i n : nat) : list WorldMove := [NextChunk; Call i; Call i; Go i n; Call i; Call i].
Definition async_moves (i n : nat) : list WorldMove := [NextChunkAsync; Call i; Call i; Call i; Go i n; Complete i; Loop; Loop].
Definition read_whole_moves : list WorldMove := sync_moves 0 8 ++ async_moves 1 16 ++ async_moves 2 4.
Definition sample_world : World := from_parts 7 sample_fields.
Definition whole_world : World := default sample_world (drive sample_end_stream read_whole_moves sample_world).

Lemma whole_world_reachable : response_reachable sample_end_stream 7 sample_fields whole_world.
Proof. apply (response_drive_reachable sample_end_stream 7 sample_fields read_whole_moves sample_world); [apply rtc_refl|]. by vm_compute. Qed.

Lemma all_got (l : list Read) : forallb got l = true -> forall r, r ∈ l -> got r = true.
Proof. rewrite forallb_forall. intros Hl r Hr. by apply Hl, list_elem_of_In. Qed.

Lemma python_reads_the_body_witness :
  outputs whole_world = [[1; 2]; [3]] /\ terminal (fields (stream whole_world)) = Some Success /\
  exists decoder, finished decoder = true.
Proof.
  assert (Ht : terminal (fields (stream whole_world)) = Some Success) by (vm_compute; reflexivity).
  split; [vm_compute; reflexivity|]. split; [exact Ht|].
  destruct (python_reads_the_body sample_end_stream sample_end_stream_law (body_data sample_body)
    (Some (deflate_plan, Some 16)) deflate_limits 7 sample_body (Some sample_decoded) true Metrics.ReuseEligible whole_world
    ltac:(split; reflexivity) whole_world_reachable) as [(decoder & hist & i & o & rest & un & _ & _ & _ & Hs) _].
  exists decoder. refine (proj2 (proj2 (Hs Ht (all_got _ _)))). vm_compute. reflexivity.
Defined.

(** The future of a read is cancelled while its task holds a chunk; then the process forks. *)
Definition forked_moves : list WorldMove :=
  sync_moves 0 8 ++ [NextChunkAsync; Call 1; Call 1; Call 1; Go 1 8; CancelRead 1; Loop; Fork 8].
Definition forked_world : World := default sample_world (drive sample_end_stream forked_moves sample_world).

Lemma forked_world_reachable : response_reachable sample_end_stream 7 sample_fields forked_world.
Proof. apply (response_drive_reachable sample_end_stream 7 sample_fields forked_moves sample_world); [apply rtc_refl|]. by vm_compute. Qed.

Lemma response_refines_stream_witness :
  terminal (fields (stream forked_world)) = Some (Abort Connection.AbortCancelled) /\
  StreamState.reachable sample_end_stream sample_fields (stream forked_world) /\ close_response forked_world = (None, forked_world).
Proof.
  split; [vm_compute; reflexivity|].
  destruct (response_refines_stream sample_end_stream 7 sample_fields forked_world forked_world_reachable) as (Hr & _ & Hp).
  split; [exact Hr|]. apply Hp. by vm_compute.
Defined.
