(* ===== verification/PyResponse.v ===== *)
(** * Responses that Python holds

    [src/src/py/response.rs] and the history in [src/src/py/client/streams/response.rs]: a
    response with the redirects before it, each with the reservation of its body in the
    budget of buffered bodies.  Python takes copies, releases the reservations and drops the
    responses.  The fields Python only reads are those of [ResponseRead.RawResponse]. *)

From S2P Require Import Prelude RustStr Atomics Http Metrics Body.
From S2P Require Errors ResponseRead RetryTrace Runtime.

Local Open Scope Z_scope.

Inductive PyResponse := MkResponse {
  raw : ResponseRead.RawResponse;
  history : list PyResponse;
  retry_trace : option RetryTrace.RawRetryTrace;
  response_reservation : option BufferedBodyReservation;
}.

(** [RawResponse::from_parts], with the history it has in the end. *)
Definition response_of (r : ResponseRead.RawResponse) (redirects : list PyResponse) : PyResponse :=
  MkResponse r redirects None (Some (ResponseRead.raw_reservation r)).

(** [Clone]: the copy holds no reservation. *)
Fixpoint clone_response (r : PyResponse) : PyResponse :=
  match r with MkResponse raw history trace _ => MkResponse raw (map clone_response history) trace None end.

Definition get_history (r : PyResponse) : list PyResponse := map clone_response (history r).

(** The drop of an option, as of [take]'s. *)
Definition drop_taken (r : option BufferedBodyReservation) (m : Metrics) : Metrics :=
  match r with Some r => drop_reservation r m | None => m end.

Definition fold_responses (f : PyResponse -> Metrics -> PyResponse * Metrics) (l : list PyResponse) (m : Metrics) :
    list PyResponse * Metrics :=
  fold_left (fun '(done, m) r => let (r, m) := f r m in (done ++ [r], m)) l ([], m).

Fixpoint release_body_reservations (r : PyResponse) (m : Metrics) : PyResponse * Metrics :=
  match r with
  | MkResponse raw history trace reservation =>
      let m := drop_taken reservation m in
      let (history, m) := fold_responses release_body_reservations history m in
      (MkResponse raw history trace None, m)
  end.

Definition set_retry_trace (trace : option RetryTrace.RawRetryTrace) (r : PyResponse) : PyResponse :=
  match r with MkResponse raw history _ reservation => MkResponse raw history trace reservation end.

Definition terminal_status_code (r : PyResponse) : Z := ResponseRead.status_code (raw r).
Definition redirect_hop (r : PyResponse) : Z := Z.of_nat (length (history r)).

(** A response is dropped field by field: its history, then its reservation. *)
Fixpoint drop_response (r : PyResponse) (m : Metrics) : Metrics :=
  match r with
  | MkResponse _ history _ reservation => drop_taken reservation (fold_left (fun m r => drop_response r m) history m)
  end.

(** ** The history of a streamed response *)

Record StreamHistory := {
  stream_history : list PyResponse;
  stream_retry_trace : option RetryTrace.RawRetryTrace;
  history_process : Runtime.ProcessId;
}.
#[export] Instance eta_StreamHistory : Eta StreamHistory := fun s =>
  Build_StreamHistory (stream_history s) (stream_retry_trace s) (history_process s).

Definition stream_get_history (s : StreamHistory) : list PyResponse := map clone_response (stream_history s).
Definition stream_redirect_hop (s : StreamHistory) : Z := Z.of_nat (length (stream_history s)).

Definition set_stream_retry_trace (trace : option RetryTrace.RawRetryTrace) (s : StreamHistory) : StreamHistory :=
  s <| stream_retry_trace := trace |>.

Definition release_stream_reservations (s : StreamHistory) (m : Metrics) : StreamHistory * Metrics :=
  let (history, m) := fold_responses release_body_reservations (stream_history s) m in
  (s <| stream_history := history |>, m).

Definition release_buffered_body_reservations (current : Runtime.ProcessId) (s : StreamHistory) (m : Metrics) :
    result unit Errors.PyErr * StreamHistory * Metrics :=
  if history_process s =? current then let (s, m) := release_stream_reservations s m in (Ok tt, s, m)
  else (Err (Runtime.stream_response_used_after_fork (history_process s) current), s, m).

Definition drop_stream_history (s : StreamHistory) (m : Metrics) : Metrics :=
  fold_left (fun m r => drop_response r m) (stream_history s) m.

(** ** What is held *)

Definition reserved (r : option BufferedBodyReservation) : Z := match r with Some r => reserved_bytes r | None => 0 end.

Definition sum_held (held : PyResponse -> Z) : list PyResponse -> Z :=
  fix go l := match l with [] => 0 | r :: l => held r + go l end.

(** The bytes a response holds with its history. *)
Fixpoint held (r : PyResponse) : Z :=
  match r with MkResponse _ history _ reservation => reserved reservation + sum_held held history end.

(** No reservation is negative. *)
Fixpoint sound (r : PyResponse) : bool :=
  match r with MkResponse _ history _ reservation => (0 <=? reserved reservation) && forallb sound history end.

Section induction.
Context (P : PyResponse -> Prop).
Context (H : forall raw l trace reservation, Forall P l -> P (MkResponse raw l trace reservation)).

Fixpoint response_ind (r : PyResponse) : P r :=
  match r with
  | MkResponse raw l trace reservation =>
      H raw l trace reservation
        ((fix go l := match l return Forall P l with
                      | [] => List.Forall_nil P
                      | r :: l => List.Forall_cons P r l (response_ind r) (go l)
                      end) l)
  end.
End induction.

Lemma held_nonnegative r : sound r = true -> 0 <= held r.
Proof.
  induction r as [raw l trace reservation IH] using response_ind. cbn. intros [Hr%Z.leb_le Hl]%andb_prop.
  enough (0 <= sum_held held l) by lia. clear Hr. induction IH as [|r l Hr _ IH]; cbn in *; [lia|].
  apply andb_prop in Hl as [? ?]. specialize (Hr ltac:(done)). specialize (IH ltac:(done)). lia.
Qed.

Lemma sum_nonnegative l : forallb sound l = true -> 0 <= sum_held held l.
Proof. induction l as [|r l IH]; cbn; [lia|]. intros [Hr Hl]%andb_prop. pose proof (held_nonnegative r Hr). specialize (IH Hl). lia. Qed.

Lemma drop_taken_counter r m : 0 <= reserved r <= buffered_response_bytes m ->
  buffered_response_bytes (drop_taken r m) = buffered_response_bytes m - reserved r.
Proof. destruct r as [r|]; cbn; [apply release_bytes_counter|lia]. Qed.

(** Responses that each give back what they hold do so in a row. *)
Lemma drop_all_counter l m :
  Forall (fun r => forall m, sound r = true -> held r <= buffered_response_bytes m ->
    buffered_response_bytes (drop_response r m) = buffered_response_bytes m - held r) l ->
  forallb sound l = true -> sum_held held l <= buffered_response_bytes m ->
  buffered_response_bytes (fold_left (fun m r => drop_response r m) l m) = buffered_response_bytes m - sum_held held l.
Proof.
  intros IH. revert m. induction IH as [|r l Hd _ IH]; cbn; intros m Hs Hm; [lia|]. apply andb_prop in Hs as [Hr Hl].
  pose proof (sum_nonnegative l Hl). pose proof (Hd m Hr ltac:(lia)). rewrite IH; [lia|done|lia].
Qed.

Lemma drop_counter r m : sound r = true -> held r <= buffered_response_bytes m ->
  buffered_response_bytes (drop_response r m) = buffered_response_bytes m - held r.
Proof.
  revert m. induction r as [raw l trace reservation IH] using response_ind. cbn. intros m [Hr%Z.leb_le Hl]%andb_prop Hm.
  pose proof (drop_all_counter l m IH Hl ltac:(lia)). rewrite drop_taken_counter; lia.
Qed.

Definition releases (r r' : PyResponse) : Prop :=
  sound r' = true /\ held r' = 0 /\ clone_response r' = clone_response r.

Lemma fold_responses_app (f : PyResponse -> Metrics -> PyResponse * Metrics) done l m :
  fold_left (fun '(done, m) r => let (r, m) := f r m in (done ++ [r], m)) l (done, m) =
  (done ++ fst (fold_responses f l m), snd (fold_responses f l m)).
Proof.
  revert done m. unfold fold_responses. induction l as [|r l IH]; cbn; intros done m; [by rewrite app_nil_r|].
  destruct (f r m) as [r' m']. rewrite (IH (done ++ [r'])), (IH [r']). cbn. by rewrite <- app_assoc.
Qed.

Lemma fold_responses_cons f r l m :
  fold_responses f (r :: l) m =
  (fst (f r m) :: fst (fold_responses f l (snd (f r m))), snd (fold_responses f l (snd (f r m)))).
Proof. unfold fold_responses at 1. cbn. destruct (f r m) as [r' m']. by rewrite fold_responses_app. Qed.

Lemma release_all_counter l m :
  Forall (fun r => forall m, sound r = true -> held r <= buffered_response_bytes m ->
    releases r (fst (release_body_reservations r m)) /\
    buffered_response_bytes (snd (release_body_reservations r m)) = buffered_response_bytes m - held r) l ->
  forallb sound l = true -> sum_held held l <= buffered_response_bytes m ->
  let (l', m') := fold_responses release_body_reservations l m in
  forallb sound l' = true /\ sum_held held l' = 0 /\ map clone_response l' = map clone_response l /\
  buffered_response_bytes m' = buffered_response_bytes m - sum_held held l.
Proof.
  intros IH. revert m. induction IH as [|r l Hd _ IH]; intros m Hs Hm; [by cbn; split_and!; try done; lia|].
  apply andb_prop in Hs as [Hr Hl]. cbn in Hm. pose proof (sum_nonnegative l Hl).
  destruct (Hd m Hr ltac:(lia)) as [(Hs & Hh & Hc) Hm']. rewrite fold_responses_cons.
  specialize (IH (snd (release_body_reservations r m)) Hl ltac:(lia)). destruct (fold_responses _ l _) as [l' m']. cbn.
  destruct IH as (-> & Hh' & Hc' & ->). rewrite Hs, Hh, Hh', Hc, Hc', Hm'. by split_and!; try done; lia.
Qed.

Lemma release_counter r m : sound r = true -> held r <= buffered_response_bytes m ->
  releases r (fst (release_body_reservations r m)) /\
  buffered_response_bytes (snd (release_body_reservations r m)) = buffered_response_bytes m - held r.
Proof.
  revert m. induction r as [raw l trace reservation IH] using response_ind. cbn. intros m [Hr%Z.leb_le Hl]%andb_prop Hm.
  pose proof (sum_nonnegative l Hl). pose proof (drop_taken_counter reservation m ltac:(lia)) as Hd.
  pose proof (release_all_counter l (drop_taken reservation m) IH Hl ltac:(lia)) as Hall.
  destruct (fold_responses _ l _) as [l' m']. destruct Hall as (Hs' & Hh' & Hc' & Hm'). unfold releases. cbn.
  rewrite Hs', Hh', Hc'. by split_and!; try done; lia.
Qed.

(** A copy of a response holds nothing. *)
Lemma clone_held r : held (clone_response r) = 0.
Proof.
  induction r as [raw l trace reservation IH] using response_ind. cbn. induction IH as [|r l Hr _ IH]; [done|]. cbn in *. lia.
Qed.

Lemma clone_sound r : sound (clone_response r) = true.
Proof.
  induction r as [raw l trace reservation IH] using response_ind. cbn. induction IH as [|r l Hr _ IH]; [done|]. cbn in *. by rewrite Hr.
Qed.

(** ** What Python does with a response *)

Inductive ResponseOp :=
| ReleaseReservations
(** a copy of the history is taken and dropped *)
| CopyHistory
| SetTrace (trace : option RetryTrace.RawRetryTrace).

Definition response_op (op : ResponseOp) (rm : PyResponse * Metrics) : PyResponse * Metrics :=
  let (r, m) := rm in
  match op with
  | ReleaseReservations => release_body_reservations r m
  | CopyHistory => (r, fold_left (fun m r => drop_response r m) (get_history r) m)
  | SetTrace trace => (set_retry_trace trace r, m)
  end.

Definition is_release (op : ResponseOp) : bool := match op with ReleaseReservations => true | _ => false end.

Definition response_ops (ops : list ResponseOp) (rm : PyResponse * Metrics) : PyResponse * Metrics :=
  fold_left (fun rm op => response_op op rm) ops rm.

Lemma copies_hold_nothing l m : 0 <= buffered_response_bytes m ->
  buffered_response_bytes (fold_left (fun m r => drop_response r m) (map clone_response l) m) = buffered_response_bytes m.
Proof.
  intros Hm. assert (Hz : sum_held held (map clone_response l) = 0).
  { induction l as [|r l IH]; [done|]. cbn. by rewrite clone_held, IH. }
  rewrite drop_all_counter; [lia| | |lia].
  - apply Forall_true. intros r. apply drop_counter.
  - apply forallb_forall. intros r (r0 & <- & _)%in_map_iff. apply clone_sound.
Qed.

Lemma response_op_held op r m r' m' : sound r = true -> held r <= buffered_response_bytes m ->
  response_op op (r, m) = (r', m') ->
  sound r' = true /\ held r' <= buffered_response_bytes m' /\
  buffered_response_bytes m' - held r' = buffered_response_bytes m - held r /\
  match op with ReleaseReservations => held r' = 0 | _ => held r' = held r end.
Proof.
  intros Hs Hm. pose proof (held_nonnegative r Hs). destruct op as [| |trace]; cbn.
  - destruct (release_counter r m Hs Hm) as [(Hs' & Hh & _) Hm']. intros E. rewrite E in *. cbn in *. split_and!; try done; lia.
  - intros [= <- <-]. unfold get_history. rewrite copies_hold_nothing by lia. by split_and!.
  - intros [= <- <-]. destruct r. by split_and!.
Qed.

(** The bytes that a response and the redirects before it hold in the client's budget
    of buffered bodies are given back exactly once: whatever Python does with the response,
    in any order and any number of times (releasing the reservations, taking copies of the
    history and dropping them, whose copies hold nothing), the first release gives back all
    of them, the others nothing, and when the response is dropped the counter is down by
    exactly what it held.  The counter never wraps and what others hold stays reserved. *)
Theorem reservations_released_once ops r m :
  sound r = true -> held r <= buffered_response_bytes m ->
  let (r', m') := response_ops ops (r, m) in
  buffered_response_bytes (drop_response r' m') = buffered_response_bytes m - held r /\
  buffered_response_bytes m' = buffered_response_bytes m - (if existsb is_release ops then held r else 0) /\
  (existsb is_release ops = true -> held r' = 0).
Proof.
  intros Hs Hm.
  enough (Hops : let (r', m') := response_ops ops (r, m) in sound r' = true /\ held r' <= buffered_response_bytes m' /\
    buffered_response_bytes m' - held r' = buffered_response_bytes m - held r /\
    held r' = if existsb is_release ops then 0 else held r).
  { destruct (response_ops ops (r, m)) as [r' m']. destruct Hops as (Hs' & Hm' & He & Hh).
    rewrite drop_counter by done. destruct (existsb _ _); split_and!; try done; lia. }
  revert r m Hs Hm. unfold response_ops. induction ops as [|op ops IH]; intros r m Hs Hm; [by cbn; split_and!|]. cbn [fold_left].
  destruct (response_op op (r, m)) as [r1 m1] eqn:E. destruct (response_op_held _ _ _ _ _ Hs Hm E) as (Hs1 & Hm1 & He1 & Hh1).
  specialize (IH r1 m1 Hs1 Hm1). destruct (fold_left _ ops _) as [r' m']. destruct IH as (Hs' & Hm' & He' & Hh').
  split_and!; [done|done|lia|]. rewrite Hh'. cbn. destruct op; cbn; [|by rewrite Hh1..]. by rewrite Hh1; destruct (existsb _ _).
Qed.

(** The history of a streamed response is released and dropped like any other. *)
Theorem stream_reservations_released current s m :
  forallb sound (stream_history s) = true -> sum_held held (stream_history s) <= buffered_response_bytes m ->
  match release_buffered_body_reservations current s m with
  | (Ok _, s', m') =>
      history_process s = current /\ buffered_response_bytes m' = buffered_response_bytes m - sum_held held (stream_history s) /\
      stream_get_history s' = stream_get_history s /\ buffered_response_bytes (drop_stream_history s' m') = buffered_response_bytes m'
  | (Err _, s', m') => history_process s <> current /\ s' = s /\ m' = m
  end.
Proof.
  intros Hs Hm. unfold release_buffered_body_reservations. destruct (Z.eqb_spec (history_process s) current) as [Hp|Hp]; [|done].
  pose proof (release_all_counter (stream_history s) m) as Hall. unfold release_stream_reservations.
  destruct (fold_responses _ _ m) as [l' m']. unfold stream_get_history, drop_stream_history. cbn.
  destruct Hall as (Hs' & Hh & Hc & Hm'); [|done|done|]. { apply Forall_true. intros r. apply release_counter. }
  split_and!; [done|done|done|]. pose proof (sum_nonnegative _ Hs) as Hnn. rewrite drop_all_counter; [lia| |done|lia].
  apply Forall_true. intros r. apply drop_counter.
Qed.

(** ** A concrete response *)

Definition sample_raw (n : Z) : ResponseRead.RawResponse :=
  {| ResponseRead.status_code := 200; ResponseRead.raw_headers := []; ResponseRead.raw_content := []; ResponseRead.raw_url := "";
     ResponseRead.raw_request := {| ResponseRead.request_method := "GET"; ResponseRead.request_url := "" |};
     ResponseRead.http_version := "HTTP/1.1"; ResponseRead.raw_elapsed := Numeric.f64_zero;
     ResponseRead.raw_reservation := {| budget := {| max_buffered_response_bytes := None |}; reserved_bytes := n |} |}.

(** A response of 5 bytes after a redirect of 3, while another response holds 2. *)
Definition redirected_response : PyResponse := response_of (sample_raw 5) [response_of (sample_raw 3) []].
Definition busy_metrics : Metrics := metrics_default <| buffered_response_bytes := 10 |>.

Lemma reservations_released_once_witness :
  let (r, m) := response_ops [CopyHistory; ReleaseReservations; CopyHistory; ReleaseReservations] (redirected_response, busy_metrics) in
  buffered_response_bytes m = 2 /\ buffered_response_bytes (drop_response r m) = 2.
Proof.
  pose proof (reservations_released_once [CopyHistory; ReleaseReservations; CopyHistory; ReleaseReservations]
    redirected_response busy_metrics ltac:(vm_compute; reflexivity) ltac:(vm_compute; discriminate)) as Hr.
  destruct (response_ops _ _) as [r m]. destruct Hr as (Hd & Hm & _). split; [rewrite Hm|rewrite Hd]; vm_compute; reflexivity.
Defined.
